(* ===== verification/_CoqProject ===== *)
-Q . S2P
Prelude.v
PySort.v
Heapq.v
Requests.v
WaitingQueue.v
Admission.v
Helix.v
MicroBatch.v
MicroBatchProps.v
Capacity.v
CapacityProps.v
Unified.v
KvUtils.v
Bitset.v
SlotAllocator.v
SlotAllocatorProps.v
PyFloat.v
RequestQueue.v
RequestQueueProps.v
Intake.v
IntakeProps.v
IntakeLive.v
Batching.v
BatchingProps.v
AdpRouter.v
AdpRouterProps.v
AdpKvProps.v
AdpConvProps.v
Eviction.v
EvictionProps.v
EvictionInv.v
Sizing.v
SizingProps.v
LifeCycle.v
CacheKey.v
RadixMatch.v
RadixMatchProps.v
Mapping.v
MappingProps.v
RadixTree.v
RadixTreeInv.v
RadixTreeOps.v
RadixTreeRemove.v
RadixTreeInsert.v
RadixTreeProps.v
RadixTreeReach.v
RadixTreeClear.v
RadixTreeMatch.v
Wp.v
StorageIface.v
Storage.v
StorageInv.v
StorageDrop.v
StorageMove.v
StorageRoom.v
StorageFree.v
StoragePrepare.v
StorageProps.v
StorageSlots.v
StoragePages.v
StorageHold.v
StorageLock.v
StorageBatch.v
StoragePrefetch.v
StorageReach.v
StorageInit.v
StorageTree.v
StorageExamples.v
