(* ===== verification/Prelude.v ===== *)
(** * Verification of the TensorRT-LLM PyTorch runtime core

    This library models the Python code that decides, in every iteration of
    the executor, which requests run where and in which cache memory, and
    proves that it does so correctly.  All source paths are relative to
    [src/tensorrt_llm/].

    ** The program

    API threads put requests, cancellations and control actions into a queue
    ([_torch/pyexecutor/executor_request_queue.py]); the executor fetches and
    broadcasts them ([_torch/pyexecutor/py_executor.py]).  Requests then wait
    in a second queue ([_torch/pyexecutor/scheduler/waiting_queue.py]);
    admission takes as many as there is room for
    ([_torch/pyexecutor/request_utils.py]); with attention data parallelism a
    router spreads them over the ranks ([.../scheduler/adp_router.py]).  In
    each step the capacity scheduler picks the active requests that fit in
    the KV cache and the micro-batch scheduler picks the tokens of the batch
    ([.../scheduler/scheduler.py]); the executor may hold context requests
    back for a better batch; the schedule is sent to the other pipeline
    ranks.  The KV cache manager
    ([runtime/kv_cache_manager_v2/]) hands out the memory slots, sizes the
    pools, moves pages between the levels of memory, decides which pages are
    evicted, and keeps committed blocks in a radix tree for reuse.  A mapping ([mapping.py]) says which pipeline,
    tensor and context rank a process is.

    ** The files

    - [Prelude]: Python exceptions, the error monad [result], the state and
      error monad [M], indexing, sums, the tactics [inv_ok] and [bool_lia].
    - [PySort], [Heapq], [PyFloat]: the parts of Python the code leans on: the
      stable sort, the [heapq] algorithms, and floats as binary64 numbers.
    - [Requests]: [RequestQueueItem] and the [LlmRequest] accessors the
      schedulers use.
    - [WaitingQueue]: both queues, and the interface [WaitingQueue] with its
      laws [WaitingQueueSpec], which both implement.
    - [Admission], [Helix]: [get_from_waiting_queue] against that interface,
      the attention-DP cap, the Helix split of a prompt.
    - [RequestQueue], [RequestQueueProps]: [ExecutorRequestQueue] with its
      threads and clocks, and the request id spaces of
      [llmapi/disagg_utils.py].
    - [Intake], [IntakeProps], [IntakeLive]: the part of [PyExecutor] that
      fetches, broadcasts, admits, cancels and runs control actions, as events
      on every rank, and the progress of first-come, first-served admission.
    - [Batching], [BatchingProps]: the part of [PyExecutor._schedule] that
      holds context requests back.
    - [MicroBatch], [MicroBatchProps]: [PyMicroBatchScheduler].
    - [Capacity], [CapacityProps]: [PyCapacityScheduler] and its policies.
    - [Unified]: [SimpleUnifiedScheduler], [ScheduledRequests] and the
      transport of schedules between ranks.
    - [AdpRouter], [AdpRouterProps], [AdpKvProps], [AdpConvProps]: the
      attention-DP routers.
    - [KvUtils], [Bitset], [SlotAllocator], [SlotAllocatorProps]: helpers of
      the KV cache manager, the bitset of 64-bit words, and the allocator of
      pool slots ([_utils.py], [_storage/_core.py]).
    - [Eviction], [EvictionProps], [EvictionInv]: the eviction controller
      ([_eviction_controller]).
    - [Sizing], [SizingProps]: how a cache level's quota becomes slot counts
      ([_storage/_core.py], [_storage_manager.py]).
    - [LifeCycle]: which blocks a layer still needs
      ([_life_cycle_registry.py]).
    - [CacheKey], [RadixMatch], [RadixMatchProps]: the keys of cached blocks
      and prefix matching in the radix tree ([_cache_key.py],
      [_block_radix_tree.py]).
    - [RadixTree]: the radix tree as objects in memory, with every operation
      that changes it; [RadixTreeInv] the invariant, [RadixTreeOps],
      [RadixTreeRemove], [RadixTreeInsert], [RadixTreeProps],
      [RadixTreeReach], [RadixTreeClear] the operations one by one and all
      sequences of them, [RadixTreeMatch] the matcher on that memory
      ([_block_radix_tree.py], [_page.py]).
    - [Storage]: [StorageManager] with its levels, pages, eviction queues and
      the contents of memory: handing out slots, making room, migration,
      deletion of pages ([_storage_manager.py], [_page.py]).  [StorageIface]
      states what it expects of the allocator, the eviction controller and
      the tree, and shows that the models of the first two provide it; [Wp]
      has the rules to reason about its computations.  [StorageInv] is the
      invariant; [StorageDrop], [StorageMove], [StorageRoom], [StorageFree],
      [StoragePrepare], [StorageProps] and [StorageSlots] prove the operations
      one by one.
    - [StoragePages]: pages with their holders and locks and
      [batched_lock_to_gpu]; [StorageHold], [StorageLock] and [StorageBatch]
      their proofs ([_page.py]).  [StoragePrefetch]: [prefetch].
    - [StorageReach]: all sequences of calls on pages and the manager;
      [StorageInit] a new manager; [StorageTree] the radix tree as the manager
      sees it; [StorageExamples] a small manager, run.
    - [Mapping], [MappingProps]: the process grid ([mapping.py]).

    Each record, function and branch keeps the name of the source where Rocq
    allows it; a Python function that can raise is a function into [result],
    one that mutates an object is an [M] computation over the object's record,
    and a value that Python shares between two containers is kept in one
    place of the model.

    ** What is proved

    Queues: every sequence of operations gives the results of a list in
    service order.  Admission: items taken and left partition the queue and
    stay within the limits.  Intake: ids are unique, items are handed out in
    order, a control request is a barrier, cancellation reaches every copy of
    a request, all ranks decide alike, and no request starves.  Batching:
    context requests are held back for a bounded number of iterations.
    Schedulers: a batch never exceeds its token,
    request, block and adapter budgets, no policy loses or repeats a request,
    chunks end at the policy's boundaries, the loops end.  Routers: every
    request is placed on exactly one rank within the announced cap; the heap
    implements least-loaded placement; conversations are sticky and their map
    is an LRU cache.  Memory: the bitset is a finite set, the allocator
    refines a set of ids and never hands out a slot twice; the eviction
    controller keeps its queues consistent and a failed eviction undoes
    itself; slot counts reach their minima within the quota.  Reuse: keys
    separate requests, a match is the longest reusable prefix, stale and
    scratch blocks are never read again.  Radix tree: links, keys, siblings
    and pages stay consistent under every sequence of operations; insertion,
    removal and clearing do exactly what they promise; every block in the
    tree is found by its tokens.  Storage: making room and moving pages keeps
    the contents of every page and every held page alive, and succeeds when
    there is room; new slots are in nobody's hands; locking a batch and
    prefetching are all or nothing; a locked page stays where it is; a new
    manager is well-formed, and pages, references, slots and queues stay
    consistent under every sequence of calls, failed ones included.  Mapping: ranks and coordinates are in
    bijection, groups are lines of the grid, each layer has the owner the
    lookup names.

    ** Fuel and bounds

    Loops of the source are recursions on the list they consume where there
    is one.  The others carry fuel: the admission loop as many steps as the
    queue is long, the loops over the request queue one step per item queued
    or still to arrive, equal-progress chunking one pass per token still to be
    handed out, the maximum-utilization loop one step per request, the
    searches and divisions of the pool sizing a bound on the slot count and
    the number of groups, the cut-back of a match one retry per token, the
    walks in the radix tree the depth of a node or the number of nodes, making
    room the number of cache levels; the theorems about them state that they return, so the fuel is enough.
    Python integers are unbounded and are [Z]; words of the bitset are [Z]
    below [2^64]; floats are exact binary64 numbers.

    ** Outside the model

    Parameters with stated assumptions: the KV cache manager and the PEFT
    cache manager as the schedulers see them, the allgather of the
    distributed runtime, the KV-cache transceiver as cancellation sees it, the
    arrivals from other threads and the clocks, the radix-tree probe, the seeded shuffle of Python's
    [random], the completion of CUDA events, the linked list of [llist],
    [hashlib.sha256], the rounding of Python's [sum] of floats, and the two
    ways PyTorch splits a range of layers.
    In the storage manager a copy between levels is one step, and references
    to holders and locks are counts.
    Not modelled: resizing the pools, their ratios, statistics and addresses,
    and the request-level caches of the KV cache manager
    ([_core/_kv_cache.py], [_core/_kv_cache_manager.py]) with their CUDA
    streams and page-index buffers; the device-mesh topology, tensor code and
    kernels, the rest of the executor loop, serving and configuration, the C++
    schedulers behind the bindings, log lines. *)

From Stdlib Require Export ZArith Lia.
From stdpp Require Export prelude gmap.
From stdpp Require Export sorting.

#[global] Open Scope Z_scope.

(** ** Python exceptions and the error monad

    A Python function that can raise is a function into [result]; the
    exception constructors are those the modelled code raises or lets
    escape. *)

Inductive py_exc :=
| AssertionError
| ValueError
| IndexError
| KeyError
| RuntimeError
| OverflowError
| ZeroDivisionError
| LogicError
| OutOfPagesError
| TypeError
| StopIteration
| NotImplementedError
| OutOfFuel.

#[global] Instance py_exc_eq_dec : EqDecision py_exc.
Proof. solve_decision. Defined.

Inductive result (A : Type) :=
| Ok (a : A)
| Raise (e : py_exc).
Arguments Ok {A} a.
Arguments Raise {A} e.

#[global] Instance result_ret : MRet result := @Ok.
#[global] Instance result_bind : MBind result := λ A B f m,
  match m with Ok a => f a | Raise e => Raise e end.
#[global] Instance result_fmap : FMap result := λ A B f m,
  match m with Ok a => Ok (f a) | Raise e => Raise e end.

(** [py_assert b] is Python's [assert b]. *)
Definition py_assert (b : bool) : result () :=
  if b then Ok () else Raise AssertionError.

Definition of_option {A} (e : py_exc) (o : option A) : result A :=
  match o with Some a => Ok a | None => Raise e end.

Definition is_ok {A} (r : result A) : bool :=
  match r with Ok _ => true | Raise _ => false end.

(** A state-and-exception computation: the state reached when an exception
    is raised is kept, as Python keeps the mutations made before a raise. *)
Definition M (S A : Type) : Type := S → result A * S.

#[global] Instance M_ret {S} : MRet (M S) := λ A a s, (Ok a, s).
#[global] Instance M_bind {S} : MBind (M S) := λ A B f m s,
  match m s with
  | (Ok a, s') => f a s'
  | (Raise e, s') => (Raise e, s')
  end.

Definition get {S} : M S S := λ s, (Ok s, s).
Definition gets {S A} (f : S → A) : M S A := λ s, (Ok (f s), s).
Definition put {S} (s : S) : M S () := λ _, (Ok (), s).
Definition modify {S} (f : S → S) : M S () := λ s, (Ok (), f s).
Definition raise {S A} (e : py_exc) : M S A := λ s, (Raise e, s).
Definition lift {S A} (r : result A) : M S A := λ s, (r, s).
Definition assert_ {S} (b : bool) : M S () := lift (py_assert b).

(** ** Python sequences *)

(** [l[i]] for a Python list: negative indices count from the end and an
    index out of range raises [IndexError]. *)
Definition py_index {A} (l : list A) (i : Z) : option nat :=
  let n := Z.of_nat (length l) in
  if bool_decide (0 ≤ i < n) then Some (Z.to_nat i)
  else if bool_decide (- n ≤ i < 0) then Some (Z.to_nat (n + i))
  else None.

Definition py_getitem {A} (l : list A) (i : Z) : result A :=
  of_option IndexError (k ← py_index l i; l !! k).

Definition py_setitem {A} (l : list A) (i : Z) (x : A) : result (list A) :=
  match py_index l i with
  | Some k => Ok (<[k := x]> l)
  | None => Raise IndexError
  end.

(** [sum(l)] on integers. *)
Definition zsum (l : list Z) : Z := foldr Z.add 0 l.
#[global] Arguments zsum : simpl never.

(** ** Generic lemmas *)

Create HintDb trtllm.

Lemma result_bind_ok {A B} (m : result A) (f : A → result B) b :
  m ≫= f = Ok b ↔ ∃ a, m = Ok a ∧ f a = Ok b.
Proof. destruct m; simpl; split; [by eauto|by intros (? & [= ->] & ?)|done|by intros (? & ? & ?)]. Qed.

Lemma py_assert_ok b u : py_assert b = Ok u ↔ b = true.
Proof. destruct b, u; simpl; naive_solver. Qed.

Lemma of_option_ok {A} e (o : option A) a : of_option e o = Ok a ↔ o = Some a.
Proof. destruct o; simpl; naive_solver. Qed.

Lemma zsum_nil : zsum [] = 0.
Proof. done. Qed.

Lemma zsum_cons x l : zsum (x :: l) = x + zsum l.
Proof. done. Qed.

Lemma zsum_app l k : zsum (l ++ k) = zsum l + zsum k.
Proof. induction l; simpl; rewrite ?zsum_cons, ?zsum_nil; lia. Qed.

#[export] Instance zsum_perm : Proper (Permutation ==> eq) zsum.
Proof. induction 1; rewrite ?zsum_cons; lia. Qed.

Lemma zsum_nonneg l : Forall (λ x, 0 ≤ x) l → 0 ≤ zsum l.
Proof. induction 1; rewrite ?zsum_cons, ?zsum_nil; lia. Qed.

Lemma zsum_le {A} (f g : A → Z) l :
  (∀ x, x ∈ l → f x ≤ g x) → zsum (f <$> l) ≤ zsum (g <$> l).
Proof.
  induction l as [|x l IH]; intros H; [done|].
  rewrite !fmap_cons, !zsum_cons.
  pose proof (H x ltac:(left)). specialize (IH (λ y Hy, H y (list_elem_of_further _ _ _ Hy))).
  lia.
Qed.

(** Changing one term of a sum over distinct indices. *)
Lemma zsum_update {A} (f g : A → Z) (l : list A) (r : A) (d : Z) :
  NoDup l → r ∈ l → (∀ x, x ∈ l → x ≠ r → g x = f x) → g r = f r + d →
  zsum (f <$> l) + d = zsum (g <$> l).
Proof.
  intros Hnd. assert (Hext : ∀ l', (∀ x, x ∈ l' → g x = f x) → zsum (g <$> l') = zsum (f <$> l')).
  { induction l' as [|x l' IH]; intros H; [done|]. rewrite !fmap_cons, !zsum_cons.
    rewrite (H x) by left. rewrite IH; [done|]. intros y Hy. apply H. by right. }
  induction Hnd as [|x l Hx _ IH]; intros Hr Hne Hd; [by apply not_elem_of_nil in Hr|].
  rewrite !fmap_cons, !zsum_cons. apply elem_of_cons in Hr as [<-|Hr].
  - rewrite Hext; [lia|]. intros y Hy. apply Hne; [by right|]. by intros ->.
  - rewrite (Hne x) by (try left; by intros ->). rewrite <- IH; [lia|done| |done].
    intros y Hy. apply Hne. by right.
Qed.

Lemma py_index_nonneg {A} (l : list A) i :
  0 ≤ i < Z.of_nat (length l) → py_index l i = Some (Z.to_nat i).
Proof. intros H. unfold py_index. by rewrite bool_decide_eq_true_2. Qed.

Lemma py_getitem_nonneg {A} (l : list A) i x :
  0 ≤ i → l !! Z.to_nat i = Some x → py_getitem l i = Ok x.
Proof.
  intros Hi Hx. unfold py_getitem.
  pose proof (lookup_lt_Some _ _ _ Hx).
  rewrite py_index_nonneg by lia. simpl. by rewrite Hx.
Qed.

Lemma list_filter_fmap {A B} (f : A → B) (P : B → Prop) `{∀ x, Decision (P x)} (l : list A) :
  filter P (f <$> l) = f <$> filter (λ x, P (f x)) l.
Proof.
  induction l as [|x l IH]; [done|].
  rewrite fmap_cons, !filter_cons, IH. by case_decide.
Qed.

Lemma list_filter_all {A} (P : A → Prop) `{∀ x, Decision (P x)} (l : list A) :
  Forall P l → filter P l = l.
Proof. induction 1; [done|]. rewrite filter_cons_True by done. by f_equal. Qed.

Lemma list_filter_none {A} (P : A → Prop) `{∀ x, Decision (P x)} (l : list A) :
  Forall (λ x, ¬ P x) l → filter P l = [].
Proof. induction 1; [done|]. by rewrite filter_cons_False. Qed.

Lemma Forall_sublist_sub {A} (P : A → Prop) l k : sublist l k → Forall P k → Forall P l.
Proof.
  induction 1; intros Hk; [done|..]; inversion Hk; subst; [constructor|]; auto.
Qed.

(** ** Proof automation *)

(** Invert a chain of monadic binds in a hypothesis that says the whole
    computation returned. *)
Ltac inv_ok :=
  repeat match goal with
  | H : Raise _ = Ok _ |- _ => discriminate H
  | H : Ok _ = Raise _ |- _ => discriminate H
  | H : Ok _ = Ok _ |- _ => injection H as H; try subst
  | H : mret _ = Ok _ |- _ => unfold mret, result_ret in H
  | H : _ ≫= _ = Ok _ |- _ =>
      let a := fresh "v" in let H1 := fresh "Hv" in
      apply result_bind_ok in H as (a & H1 & H)
  | H : py_assert _ = Ok _ |- _ => apply py_assert_ok in H
  | H : of_option _ _ = Ok _ |- _ => apply of_option_ok in H
  end.

(** Run a monadic computation on rewritten calls. *)
Ltac mrun :=
  cbv beta iota zeta delta [mbind M_bind mret M_ret result_bind result_ret get gets put modify
    lift raise assert_ py_assert].

Lemma bind_ok {S A B} (m : M S A) (f : A → M S B) s a s' :
  m s = (Ok a, s') → (m ≫= f) s = f a s'.
Proof. intros H. mrun. by rewrite H. Qed.

Lemma bind_raise {S A B} (m : M S A) (f : A → M S B) s e s' :
  m s = (Raise e, s') → (m ≫= f) s = (Raise e, s').
Proof. intros H. mrun. by rewrite H. Qed.

(** Turn boolean tests into propositions, for [lia]. *)
Ltac bool_lia :=
  repeat match goal with
  | H : (_ && _)%bool = true |- _ => apply andb_prop in H as [? ?]
  | H : (_ || _)%bool = false |- _ => apply orb_false_elim in H as [? ?]
  | H : bool_decide _ = true |- _ => apply bool_decide_eq_true in H
  | H : bool_decide _ = false |- _ => apply bool_decide_eq_false in H
  end; lia.
