(* ===== verification/PySort.v ===== *)
(** * Python's [sorted] / [list.sort]

    Python's sort is stable.  [sort_by leb] is a stable sort by the total
    preorder [leb]; the lemmas give the three facts that determine its
    result: it is a permutation, it is sorted, and elements of one
    equivalence class keep their input order. *)

From S2P Require Import Prelude.

Local Open Scope Z_scope.

Section sort_by.
Context {A : Type} (leb : A → A → bool).

Fixpoint insert_by (x : A) (l : list A) : list A :=
  match l with
  | [] => [x]
  | y :: l' => if leb x y then x :: y :: l' else y :: insert_by x l'
  end.

Definition sort_by (l : list A) : list A := foldr insert_by [] l.

Lemma sort_by_cons x l : sort_by (x :: l) = insert_by x (sort_by l).
Proof. done. Qed.

Lemma insert_by_perm x l : insert_by x l ≡ₚ x :: l.
Proof.
  induction l as [|y l IH]; simpl; [done|].
  destruct (leb x y); [done|]. rewrite IH. apply Permutation_swap.
Qed.

Lemma sort_by_perm l : sort_by l ≡ₚ l.
Proof. induction l; simpl; [done|]. rewrite insert_by_perm. by f_equiv. Qed.

Lemma elem_of_sort_by x l : x ∈ sort_by l ↔ x ∈ l.
Proof. by rewrite sort_by_perm. Qed.

Lemma length_sort_by l : length (sort_by l) = length l.
Proof. by rewrite sort_by_perm. Qed.

Context (leb_total : ∀ x y, leb x y = true ∨ leb y x = true).
Context (leb_trans : ∀ x y z, leb x y = true → leb y z = true → leb x z = true).

Lemma insert_by_sorted x l :
  StronglySorted leb l → StronglySorted leb (insert_by x l).
Proof.
  induction 1 as [|y l Hs IH Hall]; simpl; [repeat constructor|].
  destruct (leb x y) eqn:E.
  - constructor; [by constructor|]. constructor; [by rewrite E|].
    apply (Forall_impl _ _ _ Hall). intros z Hz%Is_true_true.
    apply Is_true_true. by eapply leb_trans.
  - constructor; [done|]. apply Forall_forall. intros z.
    rewrite insert_by_perm, elem_of_cons. intros [->|Hz].
    + destruct (leb_total x y) as [?| ->]; [congruence|done].
    + rewrite Forall_forall in Hall. by apply Hall.
Qed.

Lemma sort_by_sorted l : StronglySorted leb (sort_by l).
Proof. induction l; simpl; [constructor|by apply insert_by_sorted]. Qed.

(** Stability: the members of the equivalence class of [z] appear in the
    sorted list in their input order. *)
Definition eqv (z x : A) : bool := leb z x && leb x z.

Lemma filter_insert_by_eqv z x l :
  StronglySorted leb l →
  filter (λ y, eqv z y) (insert_by x l) =
  filter (λ y, eqv z y) (x :: l).
Proof.
  induction 1 as [|y l Hs IH Hall]; [done|].
  simpl insert_by. destruct (leb x y) eqn:E; [done|].
  rewrite !filter_cons in *. rewrite IH. clear IH.
  destruct (decide (eqv z x)) as [Hx|Hx], (decide (eqv z y)) as [Hy|Hy]; try done.
  exfalso. unfold eqv in *.
  apply Is_true_true, andb_prop in Hx as [Hzx Hxz].
  apply Is_true_true, andb_prop in Hy as [Hzy Hyz].
  rewrite (leb_trans x z y) in E by done. done.
Qed.

Lemma sort_by_stable z l :
  filter (λ y, eqv z y) (sort_by l) = filter (λ y, eqv z y) l.
Proof.
  induction l as [|x l IH]; [done|]. simpl sort_by.
  rewrite filter_insert_by_eqv by apply sort_by_sorted.
  by rewrite !filter_cons, IH.
Qed.

Lemma insert_by_head x l : Forall (λ y, leb x y) l → insert_by x l = x :: l.
Proof.
  destruct 1 as [|y l Hy _]; simpl; [done|].
  apply Is_true_true in Hy. by rewrite Hy.
Qed.

(** On a list whose equivalent elements are equal, the result depends only
    on the contents. *)
Lemma sort_by_perm_eq l k :
  (∀ x y, x ∈ l → y ∈ l → leb x y = true → leb y x = true → x = y) →
  l ≡ₚ k → sort_by l = sort_by k.
Proof.
  intros Hanti Hperm.
  apply (StronglySorted_unique_strong leb); try apply sort_by_sorted.
  - intros x y Hx Hy Hxy%Is_true_true Hyx%Is_true_true.
    rewrite elem_of_sort_by in Hx, Hy. rewrite <- Hperm in Hy. by apply Hanti.
  - by rewrite !sort_by_perm.
Qed.

Lemma insert_by_comm x y l :
  leb x y = false → insert_by y (insert_by x l) = insert_by x (insert_by y l).
Proof.
  intros Hxy. assert (Hyx : leb y x = true).
  { by destruct (leb_total x y) as [H|H]; [congruence|]. }
  induction l as [|z l IH]; simpl; [by rewrite Hyx, Hxy|].
  destruct (leb x z) eqn:Hxz, (leb y z) eqn:Hyz; simpl.
  - by rewrite Hyx, Hxy, Hxz.
  - rewrite (leb_trans y x z) in Hyz by done. done.
  - by rewrite Hyz, Hxy, Hxz.
  - by rewrite Hyz, Hxz, IH.
Qed.

Lemma foldr_insert_by_sort l k :
  foldr insert_by k (sort_by l) = foldr insert_by k l.
Proof.
  assert (Hins : ∀ x l, foldr insert_by k (insert_by x l) = insert_by x (foldr insert_by k l)).
  { intros x l'. induction l' as [|y l' IH]; simpl; [done|].
    destruct (leb x y) eqn:E; simpl; [done|]. by rewrite IH, insert_by_comm. }
  induction l as [|x l IH]; simpl; [done|]. by rewrite Hins, IH.
Qed.

Lemma sort_by_app l k : sort_by (l ++ k) = foldr insert_by (sort_by k) l.
Proof. apply foldr_app. Qed.

(** Sorting a part first changes nothing. *)
Lemma sort_by_sort_l l k : sort_by (sort_by l ++ k) = sort_by (l ++ k).
Proof. by rewrite !sort_by_app, foldr_insert_by_sort. Qed.

(** Sorting a sorted list is the identity. *)
Lemma sort_by_id l : StronglySorted leb l → sort_by l = l.
Proof.
  induction 1 as [|x l Hs IH Hall]; [done|].
  simpl. rewrite IH. by apply insert_by_head.
Qed.

Lemma sort_by_sort_r l k : sort_by (l ++ sort_by k) = sort_by (l ++ k).
Proof. rewrite !sort_by_app. by rewrite (sort_by_id (sort_by k)) by apply sort_by_sorted. Qed.

Lemma filter_insert_by (P : A → Prop) `{∀ x, Decision (P x)} x l :
  StronglySorted leb l →
  filter P (insert_by x l) = if decide (P x) then insert_by x (filter P l) else filter P l.
Proof.
  induction 1 as [|y l Hs IH Hall]; [done|]. simpl insert_by.
  destruct (leb x y) eqn:E.
  - rewrite filter_cons. case_decide; [|done]. symmetry. apply insert_by_head.
    apply Forall_forall. intros z [_ Hz]%list_elem_of_filter. apply Is_true_true.
    apply elem_of_cons in Hz as [->|Hz]; [done|].
    rewrite Forall_forall in Hall. apply Hall, Is_true_true in Hz. by eapply leb_trans.
  - rewrite !(filter_cons P y), IH. repeat case_decide; simpl; rewrite ?E; done.
Qed.

(** Filtering and sorting commute. *)
Lemma filter_sort_by (P : A → Prop) `{∀ x, Decision (P x)} l :
  filter P (sort_by l) = sort_by (filter P l).
Proof.
  induction l as [|x l IH]; [done|]. rewrite sort_by_cons.
  rewrite filter_insert_by by apply sort_by_sorted.
  rewrite filter_cons, IH. by case_decide.
Qed.
End sort_by.

(** Sorting commutes with a map that reflects the order. *)
Lemma sort_by_fmap {A B} (leb : A → A → bool) (leb' : B → B → bool) (f : A → B) l :
  (∀ x y, x ∈ l → y ∈ l → leb' (f x) (f y) = leb x y) →
  f <$> sort_by leb l = sort_by leb' (f <$> l).
Proof.
  induction l as [|x l IH]; intros Hf; [done|].
  rewrite fmap_cons, !sort_by_cons. rewrite <- IH by (intros; apply Hf; by right).
  assert (Hl : ∀ y, y ∈ sort_by leb l → leb' (f x) (f y) = leb x y).
  { intros y Hy. apply Hf; [left|right]. by rewrite sort_by_perm in Hy. }
  revert Hl. generalize (sort_by leb l) as k. clear.
  induction k as [|y k IH]; intros Hl; [done|]. simpl.
  rewrite Hl by left. destruct (leb x y); [done|]. rewrite fmap_cons.
  by rewrite IH by (intros; apply Hl; by right).
Qed.

(** Two orders sort a list alike when they agree on every pair in list
    order. *)
Lemma sort_by_agree {A} (leb leb' : A → A → bool) l :
  (∀ l1 x l2, l = l1 ++ x :: l2 → ∀ y, y ∈ l2 → leb x y = leb' x y) →
  sort_by leb l = sort_by leb' l.
Proof.
  induction l as [|x l IH]; intros H; [done|]. simpl.
  rewrite IH by (intros l1 z l2 -> y Hy; by apply (H (x :: l1) z l2)).
  assert (Hx : ∀ y, y ∈ sort_by leb' l → leb x y = leb' x y).
  { intros y Hy. apply (H [] x l); [done|]. by rewrite sort_by_perm in Hy. }
  revert Hx. generalize (sort_by leb' l) as k. clear.
  induction k as [|y k IH]; intros Hx; simpl; [done|].
  rewrite Hx by left. by rewrite IH by (intros; apply Hx; by right).
Qed.

(** [l.sort(key=f)] for an integer key, the common case. *)
Definition key_leb {A} (f : A → Z) (x y : A) : bool := f x <=? f y.

Lemma key_leb_total {A} (f : A → Z) x y : key_leb f x y = true ∨ key_leb f y x = true.
Proof. unfold key_leb. lia. Qed.

Lemma key_leb_trans {A} (f : A → Z) x y z :
  key_leb f x y = true → key_leb f y z = true → key_leb f x z = true.
Proof. unfold key_leb. lia. Qed.

#[export] Hint Resolve sort_by_perm key_leb_total key_leb_trans : trtllm.
