(* ===== verification/Heapq.v ===== *)
(** * Python's [heapq] module

    The array-based binary heap of the Python standard library: [heappush],
    [heappop] and [heapify], with their [_siftdown] / [_siftup] loops, on a
    list with an arbitrary [<].  The specification proved here is the one the
    schedulers rely on: the operations keep the heap property, they permute
    the contents, and [heappop] returns a minimum. *)

From S2P Require Import Prelude.

Local Open Scope Z_scope.

Section heapq.
Context {A : Type} (ltb : A → A → bool).

(** [(pos - 1) >> 1] *)
Definition parent (pos : nat) : nat := ((pos - 1) / 2)%nat.

(** [_siftdown(heap, startpos, pos)] after [newitem = heap[pos]].  [fuel] is
    [pos] at the call; the loop moves [pos] to a smaller index. *)
Fixpoint siftdown_loop (fuel : nat) (heap : list A) (startpos pos : nat)
    (newitem : A) : list A :=
  match fuel with
  | O => <[pos := newitem]> heap
  | S fuel =>
      if bool_decide (startpos < pos)%nat then
        match heap !! parent pos with
        | Some p =>
            if ltb newitem p
            then siftdown_loop fuel (<[pos := p]> heap) startpos (parent pos) newitem
            else <[pos := newitem]> heap
        | None => <[pos := newitem]> heap
        end
      else <[pos := newitem]> heap
  end.

Definition siftdown (heap : list A) (startpos pos : nat) : list A :=
  match heap !! pos with
  | Some newitem => siftdown_loop pos heap startpos pos newitem
  | None => heap
  end.

(** The child that [_siftup] moves up: the right one unless the left one is
    smaller. *)
Definition smaller_child (heap : list A) (pos : nat) : nat :=
  let childpos := (2 * pos + 1)%nat in
  match heap !! childpos, heap !! (childpos + 1)%nat with
  | Some l, Some r => if ltb l r then childpos else (childpos + 1)%nat
  | _, _ => childpos
  end.

(** The descent of [_siftup]: bubble the smaller child up until a leaf. *)
Fixpoint siftup_loop (fuel : nat) (heap : list A) (pos : nat) : list A * nat :=
  match fuel with
  | O => (heap, pos)
  | S fuel =>
      let c := smaller_child heap pos in
      match heap !! c with
      | Some x => siftup_loop fuel (<[pos := x]> heap) c
      | None => (heap, pos)
      end
  end.

Definition siftup (heap : list A) (pos : nat) : list A :=
  match heap !! pos with
  | Some newitem =>
      let '(heap', pos') := siftup_loop (length heap - pos) heap pos in
      siftdown (<[pos' := newitem]> heap') pos pos'
  | None => heap
  end.

Definition heappush (heap : list A) (item : A) : list A :=
  siftdown (heap ++ [item]) 0 (length heap).

(** [None] is the [IndexError] of popping an empty heap. *)
Definition heappop (heap : list A) : option (A * list A) :=
  match last heap with
  | None => None
  | Some lastelt =>
      match take (length heap - 1) heap with
      | [] => Some (lastelt, [])
      | returnitem :: rest => Some (returnitem, siftup (lastelt :: rest) 0)
      end
  end.

Fixpoint heapify_loop (n : nat) (x : list A) : list A :=
  match n with
  | O => x
  | S i => heapify_loop i (siftup x i)
  end.

Definition heapify (x : list A) : list A := heapify_loop (length x / 2) x.

(** ** Contents *)

Lemma insert_perm_cons (l : list A) i v x :
  l !! i = Some x → x :: <[i := v]> l ≡ₚ v :: l.
Proof.
  intros Hi. rewrite <- (take_drop_middle l i x Hi) at 2.
  rewrite (insert_take_drop l i v) by (by eapply lookup_lt_Some).
  rewrite <- !Permutation_middle. apply Permutation_swap.
Qed.

Lemma move_perm (l : list A) i j x v :
  l !! j = Some x → i ≠ j → (i < length l)%nat →
  <[j := v]> (<[i := x]> l) ≡ₚ <[i := v]> l.
Proof.
  intros Hj Hne Hi. destruct (lookup_lt_is_Some_2 l i Hi) as [o Ho].
  assert (Hj' : <[i:=x]> l !! j = Some x) by by rewrite list_lookup_insert_ne.
  apply (Permutation_cons_inv (a := x)).
  rewrite (insert_perm_cons _ _ v _ Hj').
  apply (Permutation_cons_inv (a := o)).
  rewrite Permutation_swap, (insert_perm_cons l i x o Ho).
  rewrite (Permutation_swap x o), (insert_perm_cons l i v o Ho).
  apply Permutation_swap.
Qed.

Lemma parent_lt pos : (0 < pos)%nat → (parent pos < pos)%nat.
Proof. intros. unfold parent. apply Nat.Div0.div_lt_upper_bound; lia. Qed.

Lemma length_siftdown_loop fuel heap s pos v :
  length (siftdown_loop fuel heap s pos v) = length heap.
Proof.
  revert heap pos. induction fuel as [|fuel IH]; intros heap pos; simpl.
  - apply length_insert.
  - repeat case_match; rewrite ?IH; by rewrite ?length_insert.
Qed.

Lemma siftdown_loop_perm fuel heap s pos v :
  (pos < length heap)%nat →
  siftdown_loop fuel heap s pos v ≡ₚ <[pos := v]> heap.
Proof.
  revert heap pos. induction fuel as [|fuel IH]; intros heap pos Hpos; simpl; [done|].
  case_bool_decide as Hs; [|done].
  destruct (heap !! parent pos) as [p|] eqn:Hp; [|done].
  destruct (ltb v p); [|done].
  assert (parent pos < pos)%nat by (apply parent_lt; lia).
  rewrite IH by (rewrite length_insert; lia).
  apply move_perm; [done|lia|done].
Qed.

Lemma siftdown_perm heap s pos : siftdown heap s pos ≡ₚ heap.
Proof.
  unfold siftdown. destruct (heap !! pos) as [v|] eqn:Hv; [|done].
  rewrite siftdown_loop_perm by (by eapply lookup_lt_Some).
  by rewrite list_insert_id.
Qed.

Lemma smaller_child_cases heap pos x :
  heap !! smaller_child heap pos = Some x →
  smaller_child heap pos = (2 * pos + 1)%nat ∨
  smaller_child heap pos = (2 * pos + 2)%nat.
Proof. unfold smaller_child. repeat case_match; intros; lia. Qed.

Lemma siftup_loop_spec fuel heap pos v h' p' :
  (pos < length heap)%nat →
  siftup_loop fuel heap pos = (h', p') →
  length h' = length heap ∧ (p' < length heap)%nat ∧ (pos ≤ p')%nat ∧
  <[p' := v]> h' ≡ₚ <[pos := v]> heap.
Proof.
  revert heap pos. induction fuel as [|fuel IH]; intros heap pos Hpos Heq; simpl in Heq.
  { by simplify_eq. }
  destruct (heap !! smaller_child heap pos) as [x|] eqn:Hx; [|by simplify_eq].
  pose proof (lookup_lt_Some _ _ _ Hx).
  destruct (smaller_child_cases _ _ _ Hx) as [Hc|Hc].
  all: apply IH in Heq as (Hl & Hp & Hle & Hperm); rewrite length_insert in *; [|lia].
  all: split_and!; [done|done|lia|].
  all: rewrite Hperm; apply move_perm; [done|lia|done].
Qed.

Lemma siftup_perm heap pos : siftup heap pos ≡ₚ heap.
Proof.
  unfold siftup. destruct (heap !! pos) as [v|] eqn:Hv; [|done].
  destruct (siftup_loop _ heap pos) as [h' p'] eqn:Hl.
  apply (siftup_loop_spec _ _ _ v) in Hl as (_ & _ & _ & Hperm);
    [|by eapply lookup_lt_Some].
  rewrite siftdown_perm, Hperm. by rewrite list_insert_id.
Qed.

Lemma heappush_perm heap x : heappush heap x ≡ₚ x :: heap.
Proof. unfold heappush. rewrite siftdown_perm. by rewrite Permutation_app_comm. Qed.

Lemma heapify_perm x : heapify x ≡ₚ x.
Proof.
  unfold heapify. generalize (length x / 2)%nat as n. intros n. revert x.
  induction n as [|n IH]; intros x; simpl; [done|]. by rewrite IH, siftup_perm.
Qed.

Lemma heappop_perm heap x rest :
  heappop heap = Some (x, rest) → heap ≡ₚ x :: rest.
Proof.
  unfold heappop. destruct (last heap) as [e|] eqn:He; [|done].
  apply last_Some in He as [l' ->].
  rewrite length_app; simpl. replace (length l' + 1 - 1)%nat with (length l') by lia.
  rewrite take_app_length. destruct l' as [|r l']; intros; simplify_eq; [done|].
  rewrite siftup_perm. simpl. by rewrite (Permutation_app_comm l').
Qed.

Lemma heappop_None heap : heappop heap = None ↔ heap = [].
Proof.
  unfold heappop. destruct (last heap) eqn:E.
  - split; [case_match; done|]. intros ->. done.
  - by apply last_None in E as ->.
Qed.

(** ** The heap property *)

(** Every edge whose parent index is at least [s] is in order. *)
Definition heap_from (s : nat) (l : list A) : Prop :=
  ∀ i x p, (0 < i)%nat → (s ≤ parent i)%nat →
    l !! i = Some x → l !! parent i = Some p → ltb x p = false.

Definition is_heap (l : list A) : Prop := heap_from 0 l.

(** What holds while [_siftdown] carries a new item at [pos]: every other
    edge is in order, and the children of [pos] are in order with its
    parent. *)
Definition heap_but (s pos : nat) (l : list A) : Prop :=
  (∀ i x p, (0 < i)%nat → (s ≤ parent i)%nat → i ≠ pos →
     l !! i = Some x → l !! parent i = Some p → ltb x p = false) ∧
  (∀ c x p, (0 < pos)%nat → (s ≤ parent pos)%nat → (0 < c)%nat → parent c = pos →
     l !! c = Some x → l !! parent pos = Some p → ltb x p = false).

Context (ltb_asym : ∀ x y, ltb x y = true → ltb y x = false).
Context (ltb_negtrans : ∀ x y z, ltb y x = false → ltb z y = false → ltb z x = false).

Lemma ltb_irrefl x : ltb x x = false.
Proof. destruct (ltb x x) eqn:E; [|done]. by rewrite (ltb_asym _ _ E) in E. Qed.

Lemma ltb_lt_le x y z : ltb x y = true → ltb z y = false → ltb z x = false.
Proof. intros Hxy Hzy. eapply ltb_negtrans; [|exact Hzy]. by apply ltb_asym. Qed.

Lemma heap_but_step s pos p v l :
  (s < pos)%nat → (pos < length l)%nat →
  l !! parent pos = Some p → ltb v p = true →
  heap_but s pos (<[pos := v]> l) → (s ≤ parent pos)%nat →
  heap_but s (parent pos) (<[parent pos := v]> (<[pos := p]> l)).
Proof.
  intros Hs Hlen Hp Hlt [Ha Hb] Hsp.
  pose proof (parent_lt pos ltac:(lia)) as Hpp.
  assert (Hq : ∀ i, i ≠ pos → i ≠ parent pos →
            <[parent pos:=v]> (<[pos:=p]> l) !! i = <[pos := v]> l !! i).
  { intros i ??. by rewrite !list_lookup_insert_ne by done. }
  assert (Hqp : <[parent pos:=v]> (<[pos:=p]> l) !! pos = Some p).
  { rewrite list_lookup_insert_ne by lia. by apply list_lookup_insert_eq. }
  assert (Hqq : <[parent pos:=v]> (<[pos:=p]> l) !! parent pos = Some v).
  { apply list_lookup_insert_eq. rewrite length_insert. lia. }
  assert (Hold : <[pos := v]> l !! parent pos = Some p)
    by (rewrite list_lookup_insert_ne by lia; done).
  split.
  - intros i x q Hi Hsi Hne Hx Hq'.
    destruct (decide (i = pos)) as [->|Hip].
    { rewrite Hqp in Hx. rewrite Hqq in Hq'. simplify_eq. by apply ltb_asym. }
    rewrite Hq in Hx by done.
    destruct (decide (parent i = pos)) as [Epos|].
    { rewrite Epos, Hqp in Hq'. simplify_eq. eapply (Hb i); eauto; lia. }
    destruct (decide (parent i = parent pos)) as [Epar|].
    { rewrite Epar, Hqq in Hq'. simplify_eq.
      eapply ltb_lt_le; [exact Hlt|]. eapply (Ha i); eauto. by rewrite Epar. }
    rewrite Hq in Hq' by done. eapply (Ha i); eauto.
  - intros c x q H0 Hs' Hc Epar Hx Hq'.
    pose proof (parent_lt (parent pos) ltac:(lia)).
    rewrite Hq in Hq' by lia.
    assert (Hpq : ltb p q = false) by (eapply (Ha (parent pos)); eauto; lia).
    destruct (decide (c = pos)) as [->|Hcp].
    { rewrite Hqp in Hx. by simplify_eq. }
    assert (c ≠ parent pos) by (pose proof (parent_lt c Hc); lia).
    rewrite Hq in Hx by done.
    eapply ltb_negtrans; [exact Hpq|]. eapply (Ha c); eauto; [lia|]. by rewrite Epar.
Qed.

(** [pos] is in the subtree rooted at [s]. *)
Inductive desc (s : nat) : nat → Prop :=
| desc_refl : desc s s
| desc_step pos : (0 < pos)%nat → desc s (parent pos) → desc s pos.

Lemma desc_le s pos : desc s pos → (s ≤ pos)%nat.
Proof. induction 1 as [|pos Hp _ IH]; [done|]. pose proof (parent_lt pos Hp). lia. Qed.

Lemma desc_0 pos : desc 0 pos.
Proof.
  induction pos as [pos IH] using lt_wf_ind.
  destruct pos as [|pos]; [constructor|].
  constructor; [lia|]. apply IH, parent_lt. lia.
Qed.

Lemma desc_inv s pos : desc s pos → (s < pos)%nat → desc s (parent pos).
Proof. inversion 1; [lia|done]. Qed.

Lemma siftdown_loop_heap fuel l s pos v :
  (pos ≤ fuel)%nat → (pos < length l)%nat → desc s pos →
  heap_but s pos (<[pos := v]> l) →
  heap_from s (siftdown_loop fuel l s pos v).
Proof.
  revert l pos. induction fuel as [|fuel IH]; intros l pos Hf Hlen Hd Hbut; simpl.
  { assert (pos = 0%nat) as -> by lia. intros i x p Hi Hsi. apply (proj1 Hbut); lia. }
  case_bool_decide as Hs.
  2:{ intros i x p Hi Hsi Hx Hp. destruct (decide (i = pos)) as [->|].
      - pose proof (parent_lt pos Hi). lia.
      - by eapply (proj1 Hbut). }
  pose proof (parent_lt pos ltac:(lia)) as Hpp.
  destruct (lookup_lt_is_Some_2 l (parent pos) ltac:(lia)) as [p Hp]. rewrite Hp.
  pose proof (desc_inv _ _ Hd Hs) as Hd'. pose proof (desc_le _ _ Hd').
  destruct (ltb v p) eqn:Hlt.
  - apply IH; [lia|rewrite length_insert; lia|done|]. by apply heap_but_step.
  - intros i x q Hi Hsi Hx Hq. destruct (decide (i = pos)) as [->|].
    + rewrite list_lookup_insert_eq in Hx by done.
      rewrite list_lookup_insert_ne in Hq by lia. by simplify_eq.
    + by eapply (proj1 Hbut i).
Qed.

Lemma siftdown_heap l s pos :
  desc s pos → heap_but s pos l → heap_from s (siftdown l s pos).
Proof.
  intros Hd Hb. unfold siftdown. destruct (l !! pos) as [v|] eqn:Hv.
  - pose proof (lookup_lt_Some _ _ _ Hv). apply siftdown_loop_heap; try done.
    by rewrite list_insert_id.
  - intros i x p Hi Hsi Hx Hp. destruct (decide (i = pos)); [by simplify_eq|].
    by eapply (proj1 Hb).
Qed.

Lemma parent_children i pos :
  (0 < i)%nat → parent i = pos → i = (2 * pos + 1)%nat ∨ i = (2 * pos + 2)%nat.
Proof.
  unfold parent. intros Hi <-.
  pose proof (Nat.div_mod_eq (i - 1) 2). pose proof (Nat.mod_upper_bound (i - 1) 2).
  lia.
Qed.

Lemma children_parent pos :
  parent (2 * pos + 1) = pos ∧ parent (2 * pos + 2) = pos.
Proof.
  unfold parent. split; symmetry.
  - apply (Nat.div_unique _ _ _ 0); lia.
  - apply (Nat.div_unique _ _ _ 1); lia.
Qed.

Lemma smaller_child_min heap pos x i y :
  heap !! smaller_child heap pos = Some x → (0 < i)%nat → parent i = pos →
  heap !! i = Some y → ltb y x = false.
Proof.
  intros Hx Hi Hp Hy.
  apply parent_children in Hp as [-> | ->]; [|..]; last done.
  - unfold smaller_child in Hx. rewrite Hy in Hx.
    destruct (heap !! (2 * pos + 1 + 1)%nat) as [r|] eqn:Hr; simplify_eq; [|apply ltb_irrefl].
    destruct (ltb y r) eqn:E; simplify_eq; [apply ltb_irrefl|done].
  - replace (2 * pos + 2)%nat with (2 * pos + 1 + 1)%nat in Hy by lia.
    unfold smaller_child in Hx. rewrite Hy in Hx.
    destruct (heap !! (2 * pos + 1)%nat) as [l|] eqn:Hl.
    + destruct (ltb l y) eqn:E; simplify_eq; [by apply ltb_asym|apply ltb_irrefl].
    + apply lookup_ge_None_1 in Hl. apply lookup_lt_Some in Hy. lia.
Qed.

(** The descent keeps every edge in order, counting the stale copy left at
    the hole, and ends at a leaf. *)
Lemma siftup_loop_heap fuel l s pos h' p' :
  (length l ≤ fuel + pos)%nat → (pos < length l)%nat → desc s pos →
  heap_from (S s) l → (pos = s ∨ heap_from s l) →
  siftup_loop fuel l pos = (h', p') →
  desc s p' ∧ (length h' ≤ 2 * p' + 1)%nat ∧
  (p' = s ∧ heap_from (S s) h' ∨ heap_from s h').
Proof.
  revert l pos. induction fuel as [|fuel IH]; intros l pos Hf Hlen Hd HS Hor Heq;
    simpl in Heq; [lia|].
  destruct (l !! smaller_child l pos) as [x|] eqn:Hx.
  2:{ simplify_eq. split_and!; [done| |by destruct Hor; [left|right]].
      apply lookup_ge_None_1 in Hx. unfold smaller_child in Hx.
      repeat case_match; repeat match goal with
        | H : _ !! _ = Some _ |- _ => apply lookup_lt_Some in H end; lia. }
  pose proof (lookup_lt_Some _ _ _ Hx) as Hc. pose proof (desc_le _ _ Hd).
  assert (Hpc : (0 < smaller_child l pos)%nat ∧ parent (smaller_child l pos) = pos
                ∧ (pos < smaller_child l pos)%nat).
  { destruct (children_parent pos). by destruct (smaller_child_cases _ _ _ Hx) as [-> | ->];
      (split_and!; [lia|done|lia]). }
  destruct Hpc as (Hc0 & Hpc & Hlt).
  assert (HH : heap_from s (<[pos := x]> l)).
  { intros i y q Hi Hsi Hy Hq. pose proof (parent_lt i Hi).
    destruct (decide (parent i = pos)) as [E|E].
    - rewrite E, list_lookup_insert_eq in Hq by lia. simplify_eq.
      rewrite list_lookup_insert_ne in Hy by lia. by eapply smaller_child_min.
    - rewrite list_lookup_insert_ne in Hq by done.
      assert (heap_from s l ∨ (S s ≤ parent i)%nat) as Hl.
      { destruct Hor as [->|?]; [right; lia|by left]. }
      assert (Hedge : ∀ y', l !! i = Some y' → ltb y' q = false).
      { intros. destruct Hl as [Hl|Hl]; [by eapply Hl|by eapply HS]. }
      destruct (decide (i = pos)) as [->|].
      + rewrite list_lookup_insert_eq in Hy by lia. simplify_eq.
        destruct (lookup_lt_is_Some_2 l pos Hlen) as [o Ho].
        eapply ltb_negtrans; [by apply Hedge|].
        destruct Hor as [->|Hall]; [lia|]. eapply (Hall (smaller_child l pos)); eauto; [lia|].
        by rewrite Hpc.
      + rewrite list_lookup_insert_ne in Hy by done. by apply Hedge. }
  apply IH in Heq; try rewrite length_insert; try done; try lia.
  - constructor; [done|]. by rewrite Hpc.
  - intros i y q Hi Hsi. apply HH; lia.
  - by right.
Qed.

Lemma siftup_heap l pos : heap_from (S pos) l → heap_from pos (siftup l pos).
Proof.
  intros HS. unfold siftup. destruct (l !! pos) as [v|] eqn:Hv.
  2:{ intros i x p Hi Hsi Hx Hp. destruct (decide (parent i = pos)); [by simplify_eq|].
      eapply HS; eauto. lia. }
  pose proof (lookup_lt_Some _ _ _ Hv) as Hlen.
  destruct (siftup_loop _ l pos) as [h' p'] eqn:Hl.
  pose proof (siftup_loop_spec _ _ _ v _ _ Hlen Hl) as (Hlh & Hp' & _).
  apply (siftup_loop_heap _ _ pos) in Hl as (Hd & Hleaf & Hor);
    [|lia|done|constructor|done|by left].
  apply siftdown_heap; [done|]. split.
  - intros i x q Hi Hsi Hne Hx Hq.
    rewrite list_lookup_insert_ne in Hx by done.
    assert (i < length h')%nat by (by eapply lookup_lt_Some).
    assert (parent i ≠ p') by (intros E; apply parent_children in E as [|]; lia).
    rewrite list_lookup_insert_ne in Hq by done.
    destruct Hor as [[-> HS']|Hall]; [eapply (HS' i)|eapply (Hall i)]; eauto. lia.
  - intros c x q _ _ Hc Epar Hx _. exfalso.
    apply lookup_lt_Some in Hx. rewrite length_insert in Hx.
    apply parent_children in Epar as [|]; lia.
Qed.

Lemma heappush_heap l x : is_heap l → is_heap (heappush l x).
Proof.
  intros Hl. unfold heappush. apply siftdown_heap; [apply desc_0|]. split.
  - intros i y p Hi _ Hne Hy Hp.
    assert (i < length l)%nat.
    { apply lookup_lt_Some in Hy. rewrite length_app in Hy. simpl in Hy. lia. }
    pose proof (parent_lt i Hi). rewrite lookup_app_l in Hy, Hp by lia. by eapply Hl; eauto; lia.
  - intros c y p H0 _ Hc Epar Hy _. exfalso.
    apply lookup_lt_Some in Hy. rewrite length_app in Hy. simpl in Hy.
    pose proof (parent_lt c Hc). lia.
Qed.

Lemma heapify_loop_heap n l : heap_from n l → is_heap (heapify_loop n l).
Proof.
  revert l. induction n as [|n IH]; intros l Hl; simpl; [done|]. by apply IH, siftup_heap.
Qed.

Lemma heapify_heap l : is_heap (heapify l).
Proof.
  apply heapify_loop_heap. intros i x p Hi Hs Hx. exfalso.
  apply lookup_lt_Some in Hx. unfold parent in Hs.
  pose proof (Nat.div_mod_eq (i - 1) 2). pose proof (Nat.div_mod_eq (length l) 2).
  pose proof (Nat.mod_upper_bound (length l) 2).
  pose proof (Nat.mod_upper_bound (i - 1) 2). lia.
Qed.

Lemma heappop_heap l x rest : is_heap l → heappop l = Some (x, rest) → is_heap rest.
Proof.
  unfold heappop. intros Hl. destruct (last l) as [e|] eqn:He; [|done].
  apply last_Some in He as [l' ->].
  rewrite length_app; simpl. replace (length l' + 1 - 1)%nat with (length l') by lia.
  rewrite take_app_length. destruct l' as [|r l']; intros [= <- <-].
  { intros i ?? _ _ H. by rewrite lookup_nil in H. }
  apply siftup_heap. intros i y p Hi Hs Hy Hp.
  assert (i ≠ 0%nat) by lia. assert (parent i ≠ 0%nat) by lia.
  assert (Hskip : ∀ j, j ≠ 0%nat → (j < length (e :: l'))%nat →
            (e :: l') !! j = ((r :: l') ++ [e]) !! j).
  { intros [|j] ? Hj; [done|]. simpl in *. by rewrite lookup_app_l by lia. }
  pose proof (lookup_lt_Some _ _ _ Hy). pose proof (lookup_lt_Some _ _ _ Hp).
  rewrite Hskip in Hy, Hp by done. eapply (Hl i); eauto. lia.
Qed.

(** The root is a minimum. *)
Lemma heap_root_min l r i x :
  is_heap l → l !! 0%nat = Some r → l !! i = Some x → ltb x r = false.
Proof.
  intros Hl Hr. revert x. induction i as [i IH] using lt_wf_ind. intros x Hx.
  destruct (decide (i = 0%nat)) as [->|]; [simplify_eq; apply ltb_irrefl|].
  pose proof (parent_lt i ltac:(lia)). pose proof (lookup_lt_Some _ _ _ Hx).
  destruct (lookup_lt_is_Some_2 l (parent i) ltac:(lia)) as [p Hp].
  eapply ltb_negtrans; [by eapply (IH (parent i))|]. eapply (Hl i); eauto; lia.
Qed.

Lemma heappop_root l x rest : heappop l = Some (x, rest) → l !! 0%nat = Some x.
Proof.
  unfold heappop. destruct l as [|r l]; [done|]. destruct (last (r :: l)) as [e|] eqn:He; [|done].
  apply last_Some in He as [l' Heq]. rewrite Heq, length_app; simpl.
  replace (length l' + 1 - 1)%nat with (length l') by lia.
  rewrite take_app_length. destruct l' as [|r' l']; intros; by simplify_eq/=.
Qed.

(** [heappop] returns a minimum of the heap. *)
Lemma heappop_min l x rest y :
  is_heap l → heappop l = Some (x, rest) → y ∈ l → ltb y x = false.
Proof.
  intros Hl Hpop [i Hy]%list_elem_of_lookup.
  eapply heap_root_min; eauto using heappop_root.
Qed.
End heapq.
