(* ===== verification/Requests.v ===== *)
(** * Requests

    The two request objects the executor passes around: the queue item that
    waits for admission ([executor_request_queue.py], [RequestQueueItem]) and
    the [LlmRequest] that the schedulers see.  [LlmRequest] is a Python class
    over a C++ object; the accessors used by the schedulers are the bindings
    of [llmRequest.h], modelled here with their checks. *)

From stdpp Require Export strings.
From S2P Require Import Prelude.

Local Open Scope Z_scope.

(** ** Queue items *)

(** [SchedulingParams] of [scheduling_params.py]. *)
Record SchedulingParams := {
  attention_dp_rank : option Z;
  attention_dp_relax : bool;
}.

(** The fields of the executor request that admission and routing read.  A
    finite float priority is kept exactly, as its integer multiple of the
    smallest positive double [2^-1074]; negation and comparison of floats are
    those of the integers.  [num_input_tokens] is [None] when the attribute is
    missing; [conversation_id] is the id of [py_conversation_params], when
    there is one; [sampling_beam_width] and [num_return_sequences] are fields
    of its [sampling_config]. *)
Record ExecutorRequest := {
  priority : Z;
  num_input_tokens : option Z;
  input_token_ids : list Z;
  py_scheduling_params : option SchedulingParams;
  conversation_id : option string;
  disagg_request_id : option Z;
  sampling_beam_width : Z;
  num_return_sequences : option Z;
}.

(** [DEFAULT_REQUEST_PRIORITY = 0.5] *)
Definition DEFAULT_REQUEST_PRIORITY : Z := 2 ^ 1073.

Definition SHUTDOWN_REQUEST_ID : Z := -1.
Definition CONTROL_REQUEST_ID : Z := -2.

Record RequestQueueItem := {
  id : Z;
  request : option ExecutorRequest;
  child_req_ids : option (list Z);
  is_canceled_request : bool;
  query : option (list Z);
  control_requires_drain : bool;
  control_id : option string;
}.

Definition is_shutdown_request (r : RequestQueueItem) : bool :=
  id r =? SHUTDOWN_REQUEST_ID.
Definition is_control_request (r : RequestQueueItem) : bool :=
  id r =? CONTROL_REQUEST_ID.
Definition is_normal_request (r : RequestQueueItem) : bool :=
  negb (is_shutdown_request r || is_canceled_request r || is_control_request r).

(** ** [LlmRequestState] *)

Inductive LlmRequestState :=
| UNKNOWN
| ENCODER_INIT
| DISAGG_CONTEXT_WAIT_SCHEDULER
| DISAGG_GENERATION_INIT
| DISAGG_GENERATION_TRANS_IN_PROGRESS
| CONTEXT_INIT
| DISAGG_CONTEXT_INIT_AND_TRANS
| DISAGG_GENERATION_TRANS_COMPLETE
| GENERATION_IN_PROGRESS
| GENERATION_TO_COMPLETE
| GENERATION_COMPLETE
| DISAGG_CONTEXT_TRANS_IN_PROGRESS
| DISAGG_CONTEXT_COMPLETE
| DISAGG_GENERATION_WAIT_TOKENS
| DISAGG_TRANS_ERROR.

#[global] Instance LlmRequestState_eq_dec : EqDecision LlmRequestState.
Proof. solve_decision. Defined.

(** The numeric values of the enumeration, which the schedulers compare. *)
Definition state_to_value (s : LlmRequestState) : Z :=
  match s with
  | UNKNOWN => 0
  | ENCODER_INIT => 1
  | DISAGG_CONTEXT_WAIT_SCHEDULER => 7
  | DISAGG_GENERATION_INIT => 8
  | DISAGG_GENERATION_TRANS_IN_PROGRESS => 9
  | CONTEXT_INIT => 10
  | DISAGG_CONTEXT_INIT_AND_TRANS => 11
  | DISAGG_GENERATION_TRANS_COMPLETE => 12
  | GENERATION_IN_PROGRESS => 13
  | GENERATION_TO_COMPLETE => 14
  | GENERATION_COMPLETE => 20
  | DISAGG_CONTEXT_TRANS_IN_PROGRESS => 21
  | DISAGG_CONTEXT_COMPLETE => 22
  | DISAGG_GENERATION_WAIT_TOKENS => 23
  | DISAGG_TRANS_ERROR => -1
  end.

(** ** [LlmRequest] *)

(** The mutable fields the schedulers read and write.  [encoder_ready] is
    [None] without an encoder-output event, else the event's [query()].
    [py_request_id] is assigned from [request_id] at construction. *)
Record LlmRequest := mkLlmRequest {
  request_id : Z;
  state : LlmRequestState;
  prompt_len : Z;
  context_current_position : Z;
  prepopulated_prompt_len : Z;
  chunk_size_field : Z;
  estimated_reusable_tokens : Z;
  num_draft_tokens : Z;
  num_tokens : Z;
  beam_width_by_iter : Z;
  encoder_output_len : Z;
  encoder_ready : option bool;
  lora_task_id : option Z;
  expect_snapshot_points : list Z;
}.

#[global] Instance LlmRequest_eq_dec : EqDecision LlmRequest.
Proof. solve_decision. Defined.

Definition py_request_id (r : LlmRequest) : Z := request_id r.
Definition state_value (r : LlmRequest) : Z := state_to_value (state r).
Definition is_encoder_init_state (r : LlmRequest) : bool :=
  bool_decide (state r = ENCODER_INIT).
Definition is_context_init_state (r : LlmRequest) : bool :=
  bool_decide (state r = CONTEXT_INIT) ||
  bool_decide (state r = DISAGG_CONTEXT_INIT_AND_TRANS).
Definition is_generation_in_progress_state (r : LlmRequest) : bool :=
  bool_decide (state r = GENERATION_IN_PROGRESS) ||
  bool_decide (state r = GENERATION_TO_COMPLETE) ||
  bool_decide (state r = DISAGG_GENERATION_TRANS_COMPLETE).
Definition is_disagg_generation_init_state (r : LlmRequest) : bool :=
  bool_decide (state r = DISAGG_GENERATION_INIT).
Definition is_disagg_generation_transmission_complete (r : LlmRequest) : bool :=
  bool_decide (state r = DISAGG_GENERATION_TRANS_COMPLETE).

Definition has_draft_tokens (r : LlmRequest) : bool := 0 <? num_draft_tokens r.

Definition context_remaining_length (r : LlmRequest) : Z :=
  prompt_len r - context_current_position r.

(** The states in which the chunk size may be read or written. *)
Definition chunk_access (r : LlmRequest) : bool :=
  is_context_init_state r || is_disagg_generation_init_state r ||
  is_disagg_generation_transmission_complete r.

Definition with_chunk_size (r : LlmRequest) (n : Z) : LlmRequest :=
  {| request_id := request_id r; state := state r; prompt_len := prompt_len r;
     context_current_position := context_current_position r;
     prepopulated_prompt_len := prepopulated_prompt_len r;
     chunk_size_field := n;
     estimated_reusable_tokens := estimated_reusable_tokens r;
     num_draft_tokens := num_draft_tokens r; num_tokens := num_tokens r;
     beam_width_by_iter := beam_width_by_iter r;
     encoder_output_len := encoder_output_len r; encoder_ready := encoder_ready r;
     lora_task_id := lora_task_id r;
     expect_snapshot_points := expect_snapshot_points r |}.

Definition with_num_draft_tokens (r : LlmRequest) (n : Z) : LlmRequest :=
  {| request_id := request_id r; state := state r; prompt_len := prompt_len r;
     context_current_position := context_current_position r;
     prepopulated_prompt_len := prepopulated_prompt_len r;
     chunk_size_field := chunk_size_field r;
     estimated_reusable_tokens := estimated_reusable_tokens r;
     num_draft_tokens := n; num_tokens := num_tokens r;
     beam_width_by_iter := beam_width_by_iter r;
     encoder_output_len := encoder_output_len r; encoder_ready := encoder_ready r;
     lora_task_id := lora_task_id r;
     expect_snapshot_points := expect_snapshot_points r |}.

Definition context_chunk_size (r : LlmRequest) : result Z :=
  if chunk_access r then Ok (chunk_size_field r) else Raise RuntimeError.

(** The setter rejects a negative size and clamps to the remaining length. *)
Definition set_context_chunk_size (r : LlmRequest) (n : Z) : result LlmRequest :=
  if negb (chunk_access r) then Raise RuntimeError
  else if n <? 0 then Raise RuntimeError
  else Ok (with_chunk_size r (Z.min n (context_remaining_length r))).

Definition is_last_context_chunk (r : LlmRequest) : result bool :=
  if is_disagg_generation_init_state r || is_disagg_generation_transmission_complete r
  then Ok true
  else c ← context_chunk_size r;
       Ok (context_current_position r + c =? prompt_len r).

Definition is_first_context_chunk (r : LlmRequest) : bool :=
  context_current_position r =? prepopulated_prompt_len r.

Definition discard_draft_tokens (r : LlmRequest) (n : Z) : result LlmRequest :=
  if n <=? 0 then Raise RuntimeError
  else if num_draft_tokens r <? n then Raise RuntimeError
  else Ok (with_num_draft_tokens r (num_draft_tokens r - n)).

(** A request as the constructors and the executor keep it: the cursor is
    inside the prompt and the counters are not negative. *)
Record request_wf (r : LlmRequest) : Prop := {
  wf_position : 0 ≤ context_current_position r ≤ prompt_len r;
  wf_reusable : 0 ≤ estimated_reusable_tokens r;
  wf_draft : 0 ≤ num_draft_tokens r;
  wf_encoder : 0 ≤ encoder_output_len r;
  wf_beam : 1 ≤ beam_width_by_iter r;
}.

Lemma request_wf_remaining r : request_wf r → 0 ≤ context_remaining_length r.
Proof. intros []. unfold context_remaining_length. lia. Qed.

#[export] Hint Resolve request_wf_remaining : trtllm.
