(* ===== verification/WaitingQueue.v ===== *)
(** * Waiting queues ([scheduler/waiting_queue.py])

    Requests wait here between arrival and admission.  The class
    [WaitingQueue] is the interface the admission code is written against:
    a queue has a service order, and every operation is determined by what it
    does to that order.  [FCFSWaitingQueue] (a deque) and
    [PriorityWaitingQueue] (a [heapq] of [(-priority, counter, item)] with a
    second, decreasing counter for requests that are put back) are the two
    implementations, each with its proof that it meets the interface. *)

From S2P Require Import Prelude PySort Heapq Requests.

Local Open Scope Z_scope.

(** ** The interface *)

(** [before x y]: [x] may be served before [y].  Adding puts requests behind
    those already waiting, putting back puts them in front; in both cases the
    order is then the stable order by [before]. *)
Class WaitingQueue (Q : Type) := {
  add_request : RequestQueueItem → Q → Q;
  add_requests : list RequestQueueItem → Q → Q;
  pop_request : M Q RequestQueueItem;
  peek_request : Q → result RequestQueueItem;
  prepend_request : RequestQueueItem → Q → Q;
  prepend_requests : list RequestQueueItem → Q → Q;
  remove_by_ids : gset Z → Q → Q;
  queue_bool : Q → bool;
  queue_len : Q → nat;
  queue_iter : Q → list RequestQueueItem;
}.

Class WaitingQueueSpec (Q : Type) `{WaitingQueue Q}
    (queue_wf : Q → Prop) (before : RequestQueueItem → RequestQueueItem → bool) : Prop := {
  spec_before_total x y : before x y = true ∨ before y x = true;
  spec_before_trans x y z : before x y = true → before y z = true → before x z = true;
  spec_sorted q : queue_wf q → StronglySorted before (queue_iter q);
  spec_len q : queue_wf q → queue_len q = length (queue_iter q);
  spec_bool q : queue_wf q → queue_bool q = bool_decide (queue_iter q ≠ []);
  spec_peek q : queue_wf q →
    peek_request q = match queue_iter q with [] => Raise IndexError | x :: _ => Ok x end;
  spec_pop_empty q : queue_wf q → queue_iter q = [] → pop_request q = (Raise IndexError, q);
  spec_pop q x l : queue_wf q → queue_iter q = x :: l →
    ∃ q', pop_request q = (Ok x, q') ∧ queue_wf q' ∧ queue_iter q' = l;
  spec_add_one q r : add_request r q = add_requests [r] q;
  spec_prepend_one q r : prepend_request r q = prepend_requests [r] q;
  spec_add q rs : queue_wf q →
    queue_wf (add_requests rs q) ∧
    queue_iter (add_requests rs q) = sort_by before (queue_iter q ++ rs);
  spec_prepend q rs : queue_wf q →
    queue_wf (prepend_requests rs q) ∧
    queue_iter (prepend_requests rs q) = sort_by before (rs ++ queue_iter q);
  spec_remove q ids : queue_wf q →
    queue_wf (remove_by_ids ids q) ∧
    queue_iter (remove_by_ids ids q) = filter (λ r, id r ∉ ids) (queue_iter q);
}.

(** ** [FCFSWaitingQueue] *)

Module FCFS.
(** The deque, front first. *)
Definition t : Type := list RequestQueueItem.

Definition init : t := [].

Definition add_request (r : RequestQueueItem) (q : t) : t := q ++ [r].

Definition add_requests (rs : list RequestQueueItem) (q : t) : t := q ++ rs.

Definition pop_request : M t RequestQueueItem := λ q,
  match q with [] => (Raise IndexError, q) | x :: q' => (Ok x, q') end.

Definition peek_request (q : t) : result RequestQueueItem :=
  match q with [] => Raise IndexError | x :: _ => Ok x end.

Definition prepend_request (r : RequestQueueItem) (q : t) : t := r :: q.

(** [self.extendleft(reversed(list(requests)))] *)
Definition extendleft (rs : list RequestQueueItem) (q : t) : t :=
  foldl (λ q r, r :: q) q rs.
Definition prepend_requests (rs : list RequestQueueItem) (q : t) : t :=
  extendleft (reverse rs) q.

Definition remove_by_ids (ids : gset Z) (q : t) : t :=
  filter (λ r, id r ∉ ids) q.

Definition wf (q : t) : Prop := True.
Definition before (x y : RequestQueueItem) : bool := true.
End FCFS.

#[global] Instance FCFSWaitingQueue : WaitingQueue FCFS.t := {
  add_request := FCFS.add_request;
  add_requests := FCFS.add_requests;
  pop_request := FCFS.pop_request;
  peek_request := FCFS.peek_request;
  prepend_request := FCFS.prepend_request;
  prepend_requests := FCFS.prepend_requests;
  remove_by_ids := FCFS.remove_by_ids;
  queue_bool q := bool_decide (0 < length q)%nat;
  queue_len q := length q;
  queue_iter q := q;
}.

(** ** [PriorityWaitingQueue] *)

Module Priority.
(** A heap entry [(neg_priority, insertion_counter, item)]. *)
Record entry := mkEntry { neg_priority : Z; counter : Z; item : RequestQueueItem }.

(** [_counter] and [_prepend_counter] hold the next value the Python
    [itertools.count] objects will produce. *)
Record t := mkPQ { heap : list entry; next_counter : Z; next_prepend_counter : Z }.

Definition init : t := {| heap := []; next_counter := 0; next_prepend_counter := -1 |}.

Definition get_priority (r : RequestQueueItem) : Z :=
  match request r with Some req => priority req | None => DEFAULT_REQUEST_PRIORITY end.

(** Tuple comparison; the counters of two entries differ, so the items are
    not compared. *)
Definition entry_ltb (e f : entry) : bool :=
  (neg_priority e <? neg_priority f) ||
  ((neg_priority e =? neg_priority f) && (counter e <? counter f)).
Definition entry_leb (e f : entry) : bool := negb (entry_ltb f e).

Definition push (r : RequestQueueItem) (q : t) : t :=
  let e := mkEntry (- get_priority r) (next_counter q) r in
  {| heap := heappush entry_ltb (heap q) e;
     next_counter := next_counter q + 1;
     next_prepend_counter := next_prepend_counter q |}.

Definition push_front (r : RequestQueueItem) (q : t) : t :=
  let e := mkEntry (- get_priority r) (next_prepend_counter q) r in
  {| heap := heappush entry_ltb (heap q) e;
     next_counter := next_counter q;
     next_prepend_counter := next_prepend_counter q - 1 |}.

Definition add_request (r : RequestQueueItem) (q : t) : t := push r q.

Definition add_requests (rs : list RequestQueueItem) (q : t) : t :=
  foldl (λ q r, push r q) q rs.

Definition with_heap (q : t) (h : list entry) : t :=
  {| heap := h; next_counter := next_counter q;
     next_prepend_counter := next_prepend_counter q |}.

Definition pop_request : M t RequestQueueItem := λ q,
  match heappop entry_ltb (heap q) with
  | None => (Raise IndexError, q)
  | Some (e, h) => (Ok (item e), with_heap q h)
  end.

Definition peek_request (q : t) : result RequestQueueItem :=
  match heap q with [] => Raise IndexError | e :: _ => Ok (item e) end.

Definition prepend_request (r : RequestQueueItem) (q : t) : t := push_front r q.

Definition prepend_requests (rs : list RequestQueueItem) (q : t) : t :=
  foldl (λ q r, push_front r q) q (reverse rs).

Definition remove_by_ids (ids : gset Z) (q : t) : t :=
  with_heap q (heapify entry_ltb (filter (λ e, id (item e) ∉ ids) (heap q))).

Definition iter (q : t) : list RequestQueueItem :=
  item <$> sort_by entry_leb (heap q).

(** The heap property holds, the counters in the heap are distinct, lie
    strictly between the next values of the two counters, and each entry records the
    priority of its item. *)
Record wf (q : t) : Prop := {
  wf_heap : is_heap entry_ltb (heap q);
  wf_nodup : NoDup (counter <$> heap q);
  wf_range : Forall (λ e, next_prepend_counter q < counter e < next_counter q) (heap q);
  wf_counters : next_prepend_counter q < 0 ≤ next_counter q;
  wf_prio : Forall (λ e, neg_priority e = - get_priority (item e)) (heap q);
}.

(** Higher priority first. *)
Definition before (x y : RequestQueueItem) : bool := get_priority y <=? get_priority x.
End Priority.

#[global] Instance PriorityWaitingQueue : WaitingQueue Priority.t := {
  add_request := Priority.add_request;
  add_requests := Priority.add_requests;
  pop_request := Priority.pop_request;
  peek_request := Priority.peek_request;
  prepend_request := Priority.prepend_request;
  prepend_requests := Priority.prepend_requests;
  remove_by_ids := Priority.remove_by_ids;
  queue_bool q := bool_decide (0 < length (Priority.heap q))%nat;
  queue_len q := length (Priority.heap q);
  queue_iter := Priority.iter;
}.

(** ** [create_waiting_queue] *)

Inductive WaitingQueuePolicy := POLICY_FCFS | POLICY_PRIORITY.

Definition create_waiting_queue (p : WaitingQueuePolicy) : FCFS.t + Priority.t :=
  match p with
  | POLICY_FCFS => inl FCFS.init
  | POLICY_PRIORITY => inr Priority.init
  end.

(** ** FCFS meets the interface *)

Section fcfs_spec.
Lemma extendleft_spec rs q : FCFS.extendleft rs q = reverse rs ++ q.
Proof.
  unfold FCFS.extendleft. revert q. induction rs as [|r rs IH]; intros q; simpl; [done|].
  by rewrite IH, reverse_cons, <- (assoc_L (++)).
Qed.

Lemma sort_fcfs l : sort_by FCFS.before l = l.
Proof. apply sort_by_id. induction l; constructor; [done|]. by apply Forall_true. Qed.

#[global] Instance FCFSWaitingQueue_spec :
  WaitingQueueSpec FCFS.t FCFS.wf FCFS.before.
Proof.
  split; simpl; try done.
  - by left.
  - intros q _. induction q; constructor; [done|]. by apply Forall_true.
  - intros q _. apply bool_decide_ext. destruct q; simpl; split; [lia|done|done|lia].
  - by intros [|x q] _ [= ].
  - intros [|y q] x l _ [= -> ->]. by eexists.
  - intros q rs _. by rewrite sort_fcfs.
  - intros q rs _. unfold FCFS.prepend_requests.
    by rewrite sort_fcfs, extendleft_spec, reverse_involutive.
Qed.
End fcfs_spec.

(** ** The priority queue meets the interface *)

Section priority_spec.
Import Priority.
Implicit Types (e f : entry) (q : Priority.t) (r : RequestQueueItem).

Lemma entry_ltb_asym e f : entry_ltb e f = true → entry_ltb f e = false.
Proof. unfold entry_ltb. lia. Qed.

Lemma entry_ltb_negtrans e f g :
  entry_ltb f e = false → entry_ltb g f = false → entry_ltb g e = false.
Proof. unfold entry_ltb. lia. Qed.

Lemma entry_leb_total e f : entry_leb e f = true ∨ entry_leb f e = true.
Proof. unfold entry_leb, entry_ltb. lia. Qed.

Lemma entry_leb_trans e f g :
  entry_leb e f = true → entry_leb f g = true → entry_leb e g = true.
Proof. unfold entry_leb, entry_ltb. lia. Qed.

Lemma entry_leb_counter e f :
  entry_leb e f = true → entry_leb f e = true → counter e = counter f.
Proof. unfold entry_leb, entry_ltb. lia. Qed.

(** Entries with distinct counters are determined by their position. *)
Lemma nodup_counter_eq (h : list entry) e f :
  NoDup (counter <$> h) → e ∈ h → f ∈ h → counter e = counter f → e = f.
Proof.
  intros Hnd [i Hi]%list_elem_of_lookup [j Hj]%list_elem_of_lookup Heq.
  assert (i = j) as ->; [|congruence].
  eapply (NoDup_lookup _ i j (counter e) Hnd); rewrite list_lookup_fmap.
  - by rewrite Hi.
  - by rewrite Hj, Heq.
Qed.

Lemma sort_entries_perm (h k : list entry) :
  NoDup (counter <$> h) → h ≡ₚ k → sort_by entry_leb h = sort_by entry_leb k.
Proof.
  intros Hnd. apply sort_by_perm_eq; [apply entry_leb_total|apply entry_leb_trans|].
  intros e f He Hf Hef Hfe. eapply nodup_counter_eq; eauto using entry_leb_counter.
Qed.

(** In a list where equal priorities come in counter order, the heap order
    is the stable order by priority. *)
Lemma sort_entries_items (h : list entry) :
  Forall (λ e, neg_priority e = - get_priority (item e)) h →
  (∀ l1 e l2, h = l1 ++ e :: l2 → ∀ f, f ∈ l2 →
     neg_priority e = neg_priority f → counter e ≤ counter f) →
  item <$> sort_by entry_leb h = sort_by before (item <$> h).
Proof.
  intros Hp Hc.
  rewrite (sort_by_agree entry_leb (key_leb neg_priority)).
  - apply sort_by_fmap. intros e f He Hf. rewrite Forall_forall in Hp.
    unfold before, key_leb. rewrite !Hp by done. lia.
  - intros l1 e l2 Heq f Hf. specialize (Hc l1 e l2 Heq f Hf).
    unfold entry_leb, entry_ltb, key_leb. lia.
Qed.

Lemma sorted_split_counter (h l1 l2 : list entry) e f :
  sort_by entry_leb h = l1 ++ e :: l2 → f ∈ l2 →
  neg_priority e = neg_priority f → counter e ≤ counter f.
Proof.
  intros Hs Hf Hne.
  pose proof (sort_by_sorted entry_leb entry_leb_total entry_leb_trans h) as Hss.
  rewrite Hs in Hss. apply StronglySorted_app_1_r in Hss. inversion_clear Hss as [|? ? _ Hall].
  rewrite Forall_forall in Hall. apply Hall, Is_true_true in Hf.
  unfold entry_leb, entry_ltb in Hf. lia.
Qed.

#[local] Hint Resolve entry_ltb_asym entry_ltb_negtrans entry_leb_total entry_leb_trans : core.

(** Pushing one entry whose counter is outside the current range. *)
Lemma wf_push_gen q r c nc np :
  wf q → np ≤ next_prepend_counter q → next_counter q ≤ nc → np < c < nc →
  (next_counter q ≤ c ∨ c ≤ next_prepend_counter q) →
  wf {| heap := heappush entry_ltb (heap q) (mkEntry (- get_priority r) c r);
        next_counter := nc; next_prepend_counter := np |}.
Proof.
  intros [Hh Hnd Hr Hcn Hp] Hnp Hnc Hc Hout.
  assert (Hfresh : c ∉ counter <$> heap q).
  { intros (e & -> & He)%list_elem_of_fmap. rewrite Forall_forall in Hr.
    specialize (Hr e He). lia. }
  split; cbn.
  - apply heappush_heap; eauto.
  - rewrite heappush_perm, fmap_cons. by constructor.
  - rewrite heappush_perm. constructor; [cbn; lia|].
    apply (Forall_impl _ _ _ Hr). intros e. lia.
  - lia.
  - rewrite heappush_perm. by constructor.
Qed.

Lemma wf_push q r : wf q → wf (push r q).
Proof. intros Hq. pose proof (wf_counters _ Hq). apply wf_push_gen; try done; lia. Qed.

Lemma wf_push_front q r : wf q → wf (push_front r q).
Proof. intros Hq. pose proof (wf_counters _ Hq). apply wf_push_gen; try done; lia. Qed.

Lemma sorted_heap_prio q :
  wf q → Forall (λ e, neg_priority e = - get_priority (item e)) (sort_by entry_leb (heap q)).
Proof. intros Hq. rewrite sort_by_perm. apply Hq. Qed.

(** A new request goes behind the waiting ones of its priority. *)
Lemma iter_push q r : wf q → iter (push r q) = sort_by before (iter q ++ [r]).
Proof.
  intros Hq. set (e := mkEntry (- get_priority r) (next_counter q) r).
  unfold iter at 1. cbn [push heap]. fold e.
  rewrite (sort_entries_perm _ (sort_by entry_leb (heap q) ++ [e])).
  2:{ apply (wf_nodup _ (wf_push q r Hq)). }
  2:{ by rewrite heappush_perm, sort_by_perm, Permutation_app_comm. }
  unfold iter. change [r] with (item <$> [e]). rewrite <- fmap_app.
  apply sort_entries_items.
  - apply Forall_app. split; [by apply sorted_heap_prio|]. by constructor.
  - intros l1 f l2 Heq g Hg Hne.
    destruct l2 as [|x l2 _] using rev_ind; [by apply elem_of_nil in Hg|].
    rewrite (app_comm_cons l2), (assoc_L (++)) in Heq.
    apply app_inj_tail in Heq as [Heq <-].
    apply elem_of_app in Hg as [Hg|Hg%list_elem_of_singleton].
    + by eapply sorted_split_counter.
    + subst g. assert (Hf : f ∈ heap q).
      { rewrite <- (sort_by_perm entry_leb), Heq. apply elem_of_app. right. left. }
      pose proof (wf_range _ Hq) as Hr. rewrite Forall_forall in Hr.
      specialize (Hr f Hf). simpl. lia.
Qed.

(** A request that is put back goes in front of those of its priority. *)
Lemma iter_push_front q r : wf q → iter (push_front r q) = sort_by before (r :: iter q).
Proof.
  intros Hq. set (e := mkEntry (- get_priority r) (next_prepend_counter q) r).
  unfold iter at 1. cbn [push_front heap]. fold e.
  rewrite (sort_entries_perm _ (e :: sort_by entry_leb (heap q))).
  2:{ apply (wf_nodup _ (wf_push_front q r Hq)). }
  2:{ by rewrite heappush_perm, sort_by_perm. }
  unfold iter. change (r :: ?l) with (item e :: l). rewrite <- fmap_cons.
  apply sort_entries_items.
  - constructor; [done|]. by apply sorted_heap_prio.
  - intros [|x l1] f l2 [= <- Heq] g Hg Hne.
    + assert (Hg' : g ∈ heap q) by (rewrite <- (sort_by_perm entry_leb), Heq; done).
      pose proof (wf_range _ Hq) as Hr. rewrite Forall_forall in Hr.
      specialize (Hr g Hg'). simpl. lia.
    + by eapply sorted_split_counter.
Qed.

Lemma before_total r r' : before r r' = true ∨ before r' r = true.
Proof. unfold before. lia. Qed.

Lemma before_trans r1 r2 r3 :
  before r1 r2 = true → before r2 r3 = true → before r1 r3 = true.
Proof. unfold before. lia. Qed.

#[local] Hint Resolve before_total before_trans : core.

Lemma iter_sorted q : wf q → StronglySorted before (iter q).
Proof.
  intros Hq. unfold iter. pose proof (sorted_heap_prio q Hq) as Hp.
  pose proof (sort_by_sorted entry_leb entry_leb_total entry_leb_trans (heap q)) as Hs.
  revert Hp. induction Hs as [|e l Hs IH Hall]; intros Hp; [constructor|].
  apply Forall_cons in Hp as [He Hp]. rewrite fmap_cons. constructor; [by apply IH|].
  rewrite Forall_fmap. apply Forall_forall. intros f Hf. rewrite Forall_forall in Hall, Hp.
  specialize (Hall f Hf). apply Is_true_true in Hall. apply Is_true_true. cbn.
  unfold before, entry_leb, entry_ltb in *. specialize (Hp f Hf). lia.
Qed.

Lemma add_requests_spec q rs :
  wf q → wf (Priority.add_requests rs q) ∧
  iter (Priority.add_requests rs q) = sort_by before (iter q ++ rs).
Proof.
  unfold Priority.add_requests. revert q. induction rs as [|r rs IH]; intros q Hq; simpl.
  - rewrite app_nil_r. split; [done|]. symmetry. by apply sort_by_id, iter_sorted.
  - destruct (IH (push r q) (wf_push q r Hq)) as [Hwf ->]. split; [done|].
    rewrite iter_push, sort_by_sort_l by eauto. by rewrite <- (assoc_L (++)).
Qed.

Lemma prepend_requests_spec q rs :
  wf q → wf (Priority.prepend_requests rs q) ∧
  iter (Priority.prepend_requests rs q) = sort_by before (rs ++ iter q).
Proof.
  unfold Priority.prepend_requests. intros Hq.
  induction rs as [|r rs IH] using rev_ind in q, Hq |- *.
  - split; [done|]. symmetry. by apply sort_by_id, iter_sorted.
  - rewrite reverse_app. simpl.
    destruct (IH (push_front r q) (wf_push_front q r Hq)) as [Hwf ->]. split; [done|].
    rewrite iter_push_front, sort_by_sort_r by eauto. by rewrite <- (assoc_L (++)).
Qed.

Lemma wf_sub q h :
  wf q → is_heap entry_ltb h → (∃ l, heap q ≡ₚ h ++ l) → wf (with_heap q h).
Proof.
  intros [Hh Hnd Hr Hc Hp] Hheap [l Hl]. rewrite Hl in Hnd, Hr, Hp.
  rewrite fmap_app in Hnd. apply NoDup_app in Hnd as [Hnd _].
  apply Forall_app in Hr as [Hr _]. apply Forall_app in Hp as [Hp _].
  by split.
Qed.

Lemma pop_spec q r l :
  wf q → iter q = r :: l →
  ∃ q', Priority.pop_request q = (Ok r, q') ∧ wf q' ∧ iter q' = l.
Proof.
  intros Hq Hiter. unfold Priority.pop_request.
  destruct (heappop entry_ltb (heap q)) as [[e h]|] eqn:Hpop.
  2:{ apply heappop_None in Hpop. unfold iter in Hiter. by rewrite Hpop in Hiter. }
  pose proof (heappop_perm _ _ _ _ Hpop) as Hperm.
  assert (Hsort : sort_by entry_leb (heap q) = e :: sort_by entry_leb h).
  { rewrite (sort_entries_perm _ _ (wf_nodup _ Hq) Hperm), sort_by_cons.
    apply insert_by_head. apply Forall_forall. intros f Hf.
    rewrite sort_by_perm in Hf. apply Is_true_true. unfold entry_leb.
    rewrite (heappop_min entry_ltb entry_ltb_asym entry_ltb_negtrans _ _ _ f (wf_heap _ Hq) Hpop);
      [done|]. rewrite Hperm. by right. }
  unfold iter in Hiter. rewrite Hsort in Hiter. injection Hiter as <- <-.
  eexists. split_and!; [done| |done].
  apply wf_sub; [done| |].
  - eapply heappop_heap; eauto. apply Hq.
  - exists [e]. by rewrite Hperm, Permutation_app_comm.
Qed.

Lemma remove_spec q ids :
  wf q → wf (Priority.remove_by_ids ids q) ∧
  iter (Priority.remove_by_ids ids q) = filter (λ r, id r ∉ ids) (iter q).
Proof.
  intros Hq. unfold Priority.remove_by_ids. set (P := λ e : entry, id (item e) ∉ ids).
  assert (Hwf : wf (with_heap q (heapify entry_ltb (filter P (heap q))))).
  { apply wf_sub; [done|by apply heapify_heap; eauto|].
    exists (filter (λ e, ¬ P e) (heap q)). rewrite heapify_perm.
    symmetry. apply filter_app_complement. }
  split; [done|]. unfold iter.
  rewrite (sort_entries_perm _ (filter P (heap q)) (wf_nodup _ Hwf)) by apply heapify_perm.
  rewrite <- filter_sort_by by eauto. rewrite list_filter_fmap. done.
Qed.

Lemma iter_empty q : iter q = [] ↔ heap q = [].
Proof.
  unfold iter. split; intros H; [|by rewrite H].
  apply fmap_nil_inv in H. apply Permutation_nil_r. by rewrite <- (sort_by_perm entry_leb), H.
Qed.

#[global] Instance PriorityWaitingQueue_spec :
  WaitingQueueSpec Priority.t Priority.wf Priority.before.
Proof.
  split; simpl; eauto using iter_sorted, add_requests_spec, prepend_requests_spec, remove_spec, pop_spec.
  - intros q Hq. unfold iter. by rewrite length_fmap, length_sort_by.
  - intros q Hq. apply bool_decide_ext. rewrite iter_empty. destruct (heap q); simpl; split; try done; lia.
  - intros q Hq. unfold Priority.peek_request. destruct (heap q) as [|e h] eqn:Hh.
    + by rewrite (proj2 (iter_empty q) Hh).
    + destruct (iter q) as [|r l] eqn:Hi.
      { apply iter_empty in Hi. congruence. }
      destruct (pop_spec q r l Hq Hi) as (q' & Hpop & _). unfold Priority.pop_request in Hpop.
      destruct (heappop entry_ltb (heap q)) as [[e' h']|] eqn:E; simplify_eq.
      apply heappop_root in E. rewrite Hh in E. by simplify_eq/=.
  - intros q Hq Hi. apply iter_empty in Hi. unfold Priority.pop_request.
    by rewrite (proj2 (heappop_None _ _) Hi).
Qed.
End priority_spec.

(** ** Refinement of the abstract queue

    The abstract queue is a list kept in the stable order by [before]; a
    client that drives an implementation through any sequence of operations
    sees exactly the results the abstract queue gives. *)

Inductive qop :=
| OpAdd (r : RequestQueueItem)
| OpAddAll (rs : list RequestQueueItem)
| OpPop
| OpPeek
| OpPrepend (r : RequestQueueItem)
| OpPrependAll (rs : list RequestQueueItem)
| OpRemove (ids : gset Z)
| OpLen
| OpIter.

Inductive qobs :=
| ObsNone
| ObsItem (r : result RequestQueueItem)
| ObsLen (n : nat)
| ObsIter (l : list RequestQueueItem).

Section drive.
Context {Q : Type} `{!WaitingQueue Q}.

Definition qstep (op : qop) (q : Q) : qobs * Q :=
  match op with
  | OpAdd r => (ObsNone, add_request r q)
  | OpAddAll rs => (ObsNone, add_requests rs q)
  | OpPop => let '(r, q') := pop_request q in (ObsItem r, q')
  | OpPeek => (ObsItem (peek_request q), q)
  | OpPrepend r => (ObsNone, prepend_request r q)
  | OpPrependAll rs => (ObsNone, prepend_requests rs q)
  | OpRemove ids => (ObsNone, remove_by_ids ids q)
  | OpLen => (ObsLen (queue_len q), q)
  | OpIter => (ObsIter (queue_iter q), q)
  end.

Fixpoint drive (ops : list qop) (q : Q) : list qobs :=
  match ops with
  | [] => []
  | op :: ops' => let '(o, q') := qstep op q in o :: drive ops' q'
  end.
End drive.

(** The abstract queue. *)
Definition abstract_queue (before : RequestQueueItem → RequestQueueItem → bool) :
    WaitingQueue (list RequestQueueItem) := {|
  add_request r l := sort_by before (l ++ [r]);
  add_requests rs l := sort_by before (l ++ rs);
  pop_request l := match l with [] => (Raise IndexError, l) | x :: l' => (Ok x, l') end;
  peek_request l := match l with [] => Raise IndexError | x :: _ => Ok x end;
  prepend_request r l := sort_by before (r :: l);
  prepend_requests rs l := sort_by before (rs ++ l);
  remove_by_ids ids l := filter (λ r, id r ∉ ids) l;
  queue_bool l := bool_decide (l ≠ []);
  queue_len l := length l;
  queue_iter l := l;
|}.

Section refinement.
Context `{WaitingQueueSpec Q queue_wf before}.

Lemma qstep_refines op (q : Q) :
  queue_wf q →
  let '(o, q') := qstep op q in
  let '(o', l') := @qstep _ (abstract_queue before) op (queue_iter q) in
  o = o' ∧ queue_wf q' ∧ queue_iter q' = l'.
Proof.
  intros Hq. destruct op; simpl.
  - rewrite spec_add_one. destruct (spec_add q [r] Hq). done.
  - destruct (spec_add q rs Hq). done.
  - destruct (queue_iter q) as [|x l] eqn:Hi.
    + rewrite spec_pop_empty by done. done.
    + destruct (spec_pop q x l Hq Hi) as (q' & -> & ? & ?). done.
  - rewrite spec_peek by done. done.
  - rewrite spec_prepend_one. destruct (spec_prepend q [r] Hq). done.
  - destruct (spec_prepend q rs Hq). done.
  - destruct (spec_remove q ids Hq). done.
  - rewrite spec_len by done. done.
  - done.
Qed.

Lemma drive_refines ops (q : Q) :
  queue_wf q → drive ops q = @drive _ (abstract_queue before) ops (queue_iter q).
Proof.
  revert q. induction ops as [|op ops IH]; intros q Hq; [done|]. simpl.
  pose proof (qstep_refines op q Hq) as Hstep.
  destruct (qstep op q) as [o q'], (qstep op (queue_iter q)) as [o' l'].
  destruct Hstep as (-> & Hq' & <-). by rewrite IH.
Qed.

(** Pop up to [n] requests. *)
Fixpoint pop_many (n : nat) (q : Q) : list RequestQueueItem * Q :=
  match n with
  | O => ([], q)
  | S n => match pop_request q with
           | (Ok r, q') => let '(rs, q'') := pop_many n q' in (r :: rs, q'')
           | (Raise _, q') => ([], q')
           end
  end.

Lemma pop_many_spec n (q : Q) :
  queue_wf q →
  let '(rs, q') := pop_many n q in queue_wf q' ∧ rs ++ queue_iter q' = queue_iter q.
Proof.
  revert q. induction n as [|n IH]; intros q Hq; simpl; [done|].
  destruct (queue_iter q) as [|x l] eqn:Hi.
  - rewrite spec_pop_empty by done. simpl. done.
  - destruct (spec_pop q x l Hq Hi) as (q' & -> & Hq' & Hl).
    specialize (IH q' Hq'). destruct (pop_many n q') as [rs q'']. destruct IH as [? Heq].
    split; [done|]. simpl. by rewrite Heq, Hl.
Qed.
End refinement.

Lemma priority_init_wf : Priority.wf Priority.init.
Proof.
  split; simpl; [|constructor|constructor|lia|constructor].
  intros i x p _ _ Hx. by rewrite lookup_nil in Hx.
Qed.

(** ** Properties *)

(** C18: the priority queue refines the stable priority order.  Whatever
    sequence of adds, pops, peeks, put-backs, removals and iterations a
    client performs from an empty [PriorityWaitingQueue], every result (the
    item popped or the exception, the length, the iteration order) is the one
    of a list kept sorted by descending priority, first come first served
    among equals, with put-back requests ahead of their equals. *)
Theorem priority_queue_refines_stable_order (ops : list qop) :
  drive ops Priority.init = @drive _ (abstract_queue Priority.before) ops [].
Proof.
  rewrite (drive_refines (before:=Priority.before) ops Priority.init priority_init_wf).
  reflexivity.
Qed.

(** The FCFS queue refines arrival order, under every sequence of
    operations. *)
Theorem fcfs_queue_refines_arrival_order (ops : list qop) :
  drive ops FCFS.init = @drive _ (abstract_queue FCFS.before) ops [].
Proof. by rewrite (drive_refines (before:=FCFS.before) ops FCFS.init). Qed.

(** Requests popped for a scheduling attempt and put back in the order
    they were popped leave the service order of the priority queue unchanged,
    whatever was popped and whatever the queue has been through. *)
Theorem pop_then_prepend_restores_order (n : nat) (q : Priority.t) :
  Priority.wf q →
  let '(rs, q') := pop_many n q in
  queue_iter (prepend_requests rs q') = queue_iter q.
Proof.
  intros Hq. pose proof (pop_many_spec n q Hq) as Hpop.
  destruct (pop_many n q) as [rs q']. destruct Hpop as [Hq' Heq].
  destruct (spec_prepend q' rs Hq') as [_ ->]. rewrite Heq.
  apply sort_by_id. by apply spec_sorted.
Qed.

(** A small queue for the witnesses: three requests, two of them urgent. *)
Definition demo_item (i p : Z) : RequestQueueItem := {|
  id := i; child_req_ids := None; is_canceled_request := false;
  query := None; control_requires_drain := true; control_id := None;
  request := Some {| priority := p; num_input_tokens := Some 4; input_token_ids := [1; 2; 3; 4];
                     py_scheduling_params := None; conversation_id := None; disagg_request_id := None;
                     sampling_beam_width := 1; num_return_sequences := None |} |}.

Definition demo_queue : Priority.t :=
  Priority.add_requests [demo_item 1 3; demo_item 2 7; demo_item 3 7] Priority.init.

Lemma demo_queue_wf : Priority.wf demo_queue.
Proof. exact (proj1 (spec_add Priority.init [demo_item 1 3; demo_item 2 7; demo_item 3 7] priority_init_wf)). Qed.

Lemma pop_then_prepend_witness :
  Priority.wf demo_queue ∧
  (id <$> queue_iter (prepend_requests (fst (pop_many 2 demo_queue)) (snd (pop_many 2 demo_queue))))
  = [2; 3; 1].
Proof.
  split; [exact demo_queue_wf|].
  pose proof (pop_then_prepend_restores_order 2 demo_queue demo_queue_wf) as H.
  destruct (pop_many 2 demo_queue) as [rs q'] eqn:E. simpl fst. simpl snd. rewrite H.
  vm_compute. reflexivity.
Defined.
