(* ===== verification/Admission.v ===== *)
(** * Admission of waiting requests ([pyexecutor/request_utils.py])

    How many queue items the executor takes out of the waiting queue, and
    which ones: [get_from_waiting_queue] with its attention-DP filter, the
    per-rank request cap, and the Helix context-parallel split of a prompt.
    The queue is any implementation of [WaitingQueue]; the theorems use only
    [WaitingQueueSpec]. *)

From S2P Require Import Prelude PySort Requests WaitingQueue.

Local Open Scope Z_scope.

(** ** Operations *)

(** [derive_attention_dp_per_rank_request_cap] *)
Definition derive_attention_dp_per_rank_request_cap
    (base_cap : Z) (max_num_tokens : option Z) (max_total_draft_tokens : Z) : Z :=
  match max_num_tokens with
  | None => base_cap
  | Some m =>
      let step_tokens_per_req := 1 + Z.max max_total_draft_tokens 0 in
      Z.min base_cap (m / step_tokens_per_req)
  end.

(** [getattr(req_item.request, "py_scheduling_params", None)] *)
Definition scheduling_params_of (r : RequestQueueItem) : option SchedulingParams :=
  req ← request r; py_scheduling_params req.

(** [can_process_attention_dp_request], returning the updated counts: the
    source increments the list in place. *)
Definition can_process_attention_dp_request (r : RequestQueueItem)
    (counts : list Z) (max_num_active_requests : Z) : result (bool * list Z) :=
  match scheduling_params_of r with
  | None => Ok (true, counts)
  | Some sp =>
      match attention_dp_rank sp with
      | None => Ok (true, counts)
      | Some target =>
          if attention_dp_relax sp then Ok (true, counts)
          else
            c ← py_getitem counts target;
            if c <? max_num_active_requests then
              counts' ← py_setitem counts target (c + 1);
              Ok (true, counts')
            else Ok (false, counts)
      end
  end.

(** [len(req_item.child_req_ids) if req_item.child_req_ids else 0] *)
Definition num_children (r : RequestQueueItem) : Z :=
  match child_req_ids r with Some l => Z.of_nat (length l) | None => 0 end.

(** Sequences one item takes: itself and its children. *)
Definition item_weight (r : RequestQueueItem) : Z := 1 + num_children r.

Section get_from_waiting_queue.
Context {Q : Type} `{!WaitingQueue Q}.
Context (max_req_count : Z) (enable_attention_dp : bool) (max_num_active_requests : Z).

(** The [while] loop; the queue is the state, the last argument the
    per-rank counts copied before the loop.  Returns the items taken and
    the requests to put back. *)
Fixpoint admit_loop (fuel : nat) (req_count : Z)
    (items pending_requests : list RequestQueueItem) (counts : list Z) :
    M Q (list RequestQueueItem * list RequestQueueItem) :=
  match fuel with
  | O => mret (items, pending_requests)
  | S fuel =>
      waiting_queue ← get;
      if (req_count <? max_req_count) && queue_bool waiting_queue then
        req_item ← lift (peek_request waiting_queue);
        let n := num_children req_item in
        if max_req_count <? req_count + 1 + n then mret (items, pending_requests)
        else
          req_item ← pop_request;
          '(can_process, counts) ←
            lift (if enable_attention_dp
                  then can_process_attention_dp_request req_item counts max_num_active_requests
                  else Ok (true, counts));
          if (can_process : bool)
          then admit_loop fuel (req_count + (1 + n)) (items ++ [req_item])
                 pending_requests counts
          else admit_loop fuel req_count items (pending_requests ++ [req_item]) counts
      else mret (items, pending_requests)
  end.

Definition get_from_waiting_queue (all_ranks_num_active_requests : list Z) :
    M Q (list RequestQueueItem) :=
  if max_req_count <=? 0 then mret []
  else
    n ← gets queue_len;
    '(items, pending_requests) ← admit_loop n 0 [] [] all_ranks_num_active_requests;
    modify (prepend_requests pending_requests);;
    mret items.
End get_from_waiting_queue.

(** ** Correctness against the queue interface *)

(** Every strict target rank named in the queue exists. *)
Definition targets_valid (n : nat) (l : list RequestQueueItem) : Prop :=
  Forall (λ r, ∀ sp t, scheduling_params_of r = Some sp → attention_dp_rank sp = Some t →
            0 ≤ t < Z.of_nat n) l.

(** The rank a request insists on, if any. *)
Definition strict_target (r : RequestQueueItem) : option Z :=
  sp ← scheduling_params_of r; if attention_dp_relax sp then None else attention_dp_rank sp.

(** How many of the requests insist on rank [t]. *)
Definition num_strict (t : Z) (l : list RequestQueueItem) : Z :=
  zsum ((λ r, if bool_decide (strict_target r = Some t) then 1 else 0) <$> l).

(** The longest prefix of the service order whose weights fit. *)
Fixpoint take_fitting (budget : Z) (l : list RequestQueueItem) : list RequestQueueItem :=
  match l with
  | [] => []
  | r :: l' => if item_weight r <=? budget
               then r :: take_fitting (budget - item_weight r) l' else []
  end.

Lemma num_strict_nil t : num_strict t [] = 0.
Proof. done. Qed.

Lemma num_strict_cons t r l :
  num_strict t (r :: l) =
  (if bool_decide (strict_target r = Some t) then 1 else 0) + num_strict t l.
Proof. done. Qed.

Lemma num_strict_app t l k : num_strict t (l ++ k) = num_strict t l + num_strict t k.
Proof. unfold num_strict. by rewrite fmap_app, zsum_app. Qed.

(** The decision is the one the strict target asks for, and the counts record
    exactly the strict requests let through. *)
Lemma can_process_unfold r counts m :
  targets_valid (length counts) [r] →
  can_process_attention_dp_request r counts m =
  match strict_target r with
  | None => Ok (true, counts)
  | Some t =>
      match counts !! Z.to_nat t with
      | Some c => if c <? m then Ok (true, <[Z.to_nat t := c + 1]> counts)
                  else Ok (false, counts)
      | None => Raise IndexError
      end
  end.
Proof.
  intros Hv. apply Forall_cons in Hv as [Hv _].
  unfold can_process_attention_dp_request, strict_target.
  destruct (scheduling_params_of r) as [sp|] eqn:Hsp; simpl; [|done].
  destruct (attention_dp_relax sp) eqn:Hrel; [by destruct (attention_dp_rank sp)|].
  destruct (attention_dp_rank sp) as [t|] eqn:Ht; [|done].
  specialize (Hv sp t eq_refl Ht).
  destruct (lookup_lt_is_Some_2 counts (Z.to_nat t)) as [c Hc]; [lia|].
  rewrite (py_getitem_nonneg _ _ _ (proj1 Hv) Hc), Hc. simpl.
  unfold py_setitem. by rewrite py_index_nonneg by done.
Qed.

Lemma strict_target_valid n r t :
  targets_valid n [r] → strict_target r = Some t → 0 ≤ t < Z.of_nat n.
Proof.
  intros Hv. apply Forall_cons in Hv as [Hv _]. unfold strict_target.
  destruct (scheduling_params_of r) as [sp|] eqn:Hsp; simpl; [|done].
  destruct (attention_dp_relax sp); [done|]. by apply Hv.
Qed.

Lemma can_process_spec r counts m :
  targets_valid (length counts) [r] →
  ∃ b counts', can_process_attention_dp_request r counts m = Ok (b, counts') ∧
    length counts' = length counts ∧
    ∀ (t : nat) c, counts !! t = Some c →
      let c' := c + (if b : bool then num_strict (Z.of_nat t) [r] else 0) in
      counts' !! t = Some c' ∧ c' ≤ Z.max m c.
Proof.
  intros Hv. rewrite can_process_unfold by done.
  destruct (strict_target r) as [t|] eqn:Ht.
  2:{ exists true, counts. split_and!; [done..|]. intros t c Hc.
      rewrite num_strict_cons, num_strict_nil, Ht. simpl. split; [rewrite Hc; f_equal|]; lia. }
  pose proof (strict_target_valid _ _ _ Hv Ht).
  destruct (lookup_lt_is_Some_2 counts (Z.to_nat t)) as [c Hc]; [lia|]. rewrite Hc.
  destruct (c <? m) eqn:Hcm.
  2:{ exists false, counts. split_and!; [done..|]. intros t' c' Hc'.
      simpl. split; [rewrite Hc'; f_equal|]; lia. }
  exists true, (<[Z.to_nat t := c + 1]> counts). split_and!; [done|apply length_insert|].
  intros t' c1 H1. rewrite num_strict_cons, num_strict_nil, Ht. simpl.
  destruct (decide (t' = Z.to_nat t)) as [->|Hne].
  - rewrite list_lookup_insert_eq by lia. simplify_eq.
    rewrite Z2Nat.id by lia. rewrite bool_decide_eq_true_2 by done. split; [f_equal|]; lia.
  - rewrite list_lookup_insert_ne by done.
    rewrite bool_decide_eq_false_2 by (intros [= ->]; lia).
    split; [rewrite H1; f_equal|]; lia.
Qed.

Section spec.
Context `{WaitingQueueSpec Q queue_wf before}.
Implicit Types (q : Q) (items pending l : list RequestQueueItem).

Lemma sorted_sublist l k : sublist l k → StronglySorted before k → StronglySorted before l.
Proof.
  induction 1 as [|x l k Hs IH|x l k Hs IH]; intros Hk; [constructor|..];
    inversion_clear Hk as [|? ? Hk' Hall]; [|by apply IH].
  constructor; [by apply IH|].
  rewrite Forall_forall in *. intros y Hy. apply Hall. by eapply elem_of_sublist.
Qed.

(** What the loop has taken out when it stops. *)
Record taken (mrc : Z) (adp : bool) (m : Z) (rc : Z) (counts : list Z) q q'
    (items pending : list RequestQueueItem) : Prop := {
  taken_wf : queue_wf q';
  taken_order : ∃ l1, queue_iter q = l1 ++ queue_iter q' ∧ l1 ≡ₚ items ++ pending ∧
                      sublist items l1 ∧ sublist pending l1;
  taken_count : rc + zsum (item_weight <$> items) ≤ mrc;
  taken_strict : adp = true → ∀ (t : nat) c, counts !! t = Some c →
                   c + num_strict (Z.of_nat t) items ≤ Z.max m c;
  taken_prefix : adp = false →
                   pending = [] ∧ items = take_fitting (mrc - rc) (queue_iter q);
}.

Lemma item_weight_pos r : 1 ≤ item_weight r.
Proof. unfold item_weight, num_children. destruct (child_req_ids r); lia. Qed.

Lemma take_fitting_nil budget l : budget ≤ 0 → take_fitting budget l = [].
Proof.
  intros. destruct l as [|r l]; [done|]. simpl.
  pose proof (item_weight_pos r). by rewrite (proj2 (Z.leb_gt _ _)) by lia.
Qed.

(** The loop stops here. *)
Lemma taken_stop mrc adp m rc counts q :
  queue_wf q → rc ≤ mrc → (adp = false → take_fitting (mrc - rc) (queue_iter q) = []) →
  taken mrc adp m rc counts q q [] [].
Proof.
  intros Hq Hrc Htf. split; [done| |by rewrite fmap_nil, zsum_nil; lia| |].
  - by exists [].
  - intros _ t c _. unfold num_strict. rewrite fmap_nil, zsum_nil. lia.
  - intros E. by rewrite Htf.
Qed.

(** The head of the queue is taken, or set aside. *)
Lemma taken_accept mrc adp m rc counts counts' q q1 q' r items pending :
  queue_iter q = r :: queue_iter q1 → item_weight r ≤ mrc - rc →
  (adp = true → ∀ (t : nat) c, counts !! t = Some c →
     counts' !! t = Some (c + num_strict (Z.of_nat t) [r]) ∧
     c + num_strict (Z.of_nat t) [r] ≤ Z.max m c) →
  taken mrc adp m (rc + item_weight r) counts' q1 q' items pending →
  taken mrc adp m rc counts q q' (r :: items) pending.
Proof.
  intros Hi Hfit Hc [Hwf (l1 & Hl & Hperm & Hs1 & Hs2) Hcount Hstrict Hpre]. split.
  - done.
  - exists (r :: l1). rewrite Hi, Hl. split_and!; [done|by rewrite Hperm|by constructor..].
  - rewrite fmap_cons, zsum_cons. lia.
  - intros E t c Ht. destruct (Hc E t c Ht) as [Hc1 Hc2].
    specialize (Hstrict E t _ Hc1).
    rewrite num_strict_cons in *. rewrite num_strict_nil in *. lia.
  - intros E. destruct (Hpre E) as [-> Hit]. split; [done|]. rewrite Hi. simpl.
    rewrite (proj2 (Z.leb_le _ _)) by lia. rewrite Hit. do 2 f_equal. lia.
Qed.

Lemma taken_reject mrc m rc counts q q1 q' r items pending :
  queue_iter q = r :: queue_iter q1 →
  taken mrc true m rc counts q1 q' items pending →
  taken mrc true m rc counts q q' items (r :: pending).
Proof.
  intros Hi [Hwf (l1 & Hl & Hperm & Hs1 & Hs2) Hcount Hstrict Hpre]. split; try done.
  exists (r :: l1). rewrite Hi, Hl.
  split_and!; [done|by rewrite Hperm, Permutation_middle|by constructor..].
Qed.

Lemma admit_loop_spec mrc adp m fuel rc items pending counts q :
  queue_wf q → (length (queue_iter q) ≤ fuel)%nat → rc ≤ mrc →
  (adp = true → targets_valid (length counts) (queue_iter q)) →
  ∃ items' pending' q',
    admit_loop mrc adp m fuel rc items pending counts q =
      (Ok (items ++ items', pending ++ pending'), q') ∧
    taken mrc adp m rc counts q q' items' pending'.
Proof.
  revert rc items pending counts q.
  induction fuel as [|fuel IH]; intros rc items pending counts q Hq Hlen Hrc Hv; simpl.
  { destruct (queue_iter q) eqn:Hi; simpl in *; [|lia].
    exists [], [], q. rewrite !app_nil_r. split; [done|].
    apply taken_stop; [done..|]. by rewrite Hi. }
  assert (Hstop : (adp = false → take_fitting (mrc - rc) (queue_iter q) = []) →
    ∃ items' pending' q', (Ok (items, pending), q) =
      (Ok (items ++ items', pending ++ pending'), q') ∧
      taken mrc adp m rc counts q q' items' pending').
  { intros Htf. exists [], [], q. rewrite !app_nil_r. split; [done|]. by apply taken_stop. }
  unfold mbind, M_bind, get, lift, mret, M_ret in *. rewrite spec_bool by done.
  destruct (rc <? mrc) eqn:Hlt; simpl; [|apply Hstop; intros _; apply take_fitting_nil; lia].
  rewrite spec_peek by done. destruct (queue_iter q) as [|r l] eqn:Hi; [by apply Hstop|].
  rewrite bool_decide_eq_true_2 by done.
  destruct (mrc <? rc + 1 + num_children r) eqn:Hfit.
  { apply Hstop. intros _. simpl. unfold item_weight. by rewrite (proj2 (Z.leb_gt _ _)) by lia. }
  destruct (spec_pop q r l Hq Hi) as (q1 & -> & Hq1 & Hi1). rewrite <- Hi1 in Hi.
  assert (Hw : item_weight r ≤ mrc - rc) by (unfold item_weight; lia).
  assert (Hnext : ∀ counts',
    (adp = true → length counts' = length counts) →
    (adp = true → ∀ (t : nat) c, counts !! t = Some c →
       counts' !! t = Some (c + num_strict (Z.of_nat t) [r]) ∧
       c + num_strict (Z.of_nat t) [r] ≤ Z.max m c) →
    ∃ items' pending' q',
      admit_loop mrc adp m fuel (rc + (1 + num_children r)) (items ++ [r]) pending counts' q1 =
        (Ok (items ++ items', pending ++ pending'), q') ∧
      taken mrc adp m rc counts q q' items' pending').
  { intros counts' Hlc Hcc.
    destruct (IH (rc + item_weight r) (items ++ [r]) pending counts' q1)
      as (it & pe & q' & Heq & Htk); [done|rewrite Hi1; simpl in Hlen; lia|lia| |].
    { intros E. rewrite Hlc, Hi1 by done. by apply (Forall_cons_1 _ _ _ (Hv E)). }
    exists (r :: it), pe, q'. split.
    - change (rc + (1 + num_children r)) with (rc + item_weight r).
      by rewrite Heq, <- (assoc_L (++)).
    - by eapply taken_accept. }
  destruct adp; [|by apply Hnext].
  destruct (Forall_cons_1 _ _ _ (Hv eq_refl)) as [Hvr Hvl].
  destruct (can_process_spec r counts m) as (b & counts' & -> & Hlc & Hcc);
    [by constructor|].
  destruct b; [by apply Hnext; intros _|].
  destruct (IH rc items (pending ++ [r]) counts' q1) as (it & pe & q' & Heq & Htk);
    [done|rewrite Hi1; simpl in Hlen; lia|done|intros _; by rewrite Hlc, Hi1|].
  exists it, (r :: pe), q'. split; [by rewrite Heq, <- (assoc_L (++))|].
  eapply taken_reject; [done|]. destruct Htk as [Hwf Hord Hcount Hstrict Hpre]. split; try done.
  intros _ t c Hc. destruct (Hcc t c Hc) as [Hc1 _]. rewrite Z.add_0_r in Hc1.
  by apply Hstrict.
Qed.

(** Items taken and items left partition the queue, both in service order;
    the weights fit; strict targets stay under the per-rank limit. *)
Lemma get_from_waiting_queue_spec mrc adp m counts q :
  queue_wf q →
  (adp = true → targets_valid (length counts) (queue_iter q)) →
  ∃ items q',
    get_from_waiting_queue mrc adp m counts q = (Ok items, q') ∧
    queue_wf q' ∧
    queue_iter q ≡ₚ items ++ queue_iter q' ∧
    sublist items (queue_iter q) ∧ sublist (queue_iter q') (queue_iter q) ∧
    zsum (item_weight <$> items) ≤ Z.max 0 mrc ∧
    (adp = true → ∀ (t : nat) c, counts !! t = Some c →
       c + num_strict (Z.of_nat t) items ≤ Z.max m c) ∧
    (adp = false → items = take_fitting mrc (queue_iter q)).
Proof.
  intros Hq Hv. unfold get_from_waiting_queue.
  destruct (mrc <=? 0) eqn:Hm.
  { exists [], q. split_and!; try done.
    - apply sublist_nil_l.
    - rewrite fmap_nil, zsum_nil. lia.
    - intros _ t c _. rewrite num_strict_nil. lia.
    - intros _. by rewrite take_fitting_nil by lia. }
  unfold mbind, M_bind, gets, modify, mret, M_ret.
  destruct (admit_loop_spec mrc adp m (queue_len q) 0 [] [] counts q)
    as (items & pending & q1 & Heq & [Hwf (l1 & Hl & Hperm & Hs1 & Hs2) Hcount Hstrict Hpre]);
    [done|by rewrite spec_len|lia|done|].
  rewrite Heq. simpl. rewrite Hl in *.
  destruct (spec_prepend q1 pending Hwf) as [Hwf' Hiter].
  assert (Hsub : sublist (pending ++ queue_iter q1) (l1 ++ queue_iter q1)) by by apply sublist_app.
  assert (Hord : queue_iter (prepend_requests pending q1) = pending ++ queue_iter q1).
  { rewrite Hiter. apply sort_by_id. eapply sorted_sublist; [exact Hsub|].
    rewrite <- Hl. by apply spec_sorted. }
  eexists _, _. split; [done|]. rewrite Hord. split_and!; try done.
  - rewrite Hperm. by rewrite (assoc_L (++)).
  - by apply sublist_inserts_r.
  - lia.
  - intros E. destruct (Hpre E) as [_ Hit]. by rewrite Z.sub_0_r in Hit.
Qed.
End spec.

(** ** Properties *)

(** C36: admission from the waiting queue, for any queue implementation that
    meets [WaitingQueueSpec].  [get_from_waiting_queue] does not raise when
    every strict target rank exists; the items it takes and the items it
    leaves partition the queue, each in the queue's service order; the items
    with their children fit in [max_req_count]; under attention DP no rank
    is asked to hold more than [max_num_active_requests] strictly targeted
    requests (unless it already did); and without attention DP the items are
    exactly the longest fitting prefix of the service order. *)
Theorem admission_partitions_and_respects_limits
    {Q} `{WaitingQueueSpec Q queue_wf before} (max_req_count : Z) (enable_attention_dp : bool)
    (max_num_active_requests : Z) (counts : list Z) (q : Q) :
  queue_wf q →
  (enable_attention_dp = true → targets_valid (length counts) (queue_iter q)) →
  ∃ items q',
    get_from_waiting_queue max_req_count enable_attention_dp max_num_active_requests counts q
      = (Ok items, q') ∧
    queue_wf q' ∧
    queue_iter q ≡ₚ items ++ queue_iter q' ∧
    sublist items (queue_iter q) ∧ sublist (queue_iter q') (queue_iter q) ∧
    zsum (item_weight <$> items) ≤ Z.max 0 max_req_count ∧
    (enable_attention_dp = true → ∀ (t : nat) c, counts !! t = Some c →
       c + num_strict (Z.of_nat t) items ≤ Z.max max_num_active_requests c) ∧
    (enable_attention_dp = false → items = take_fitting max_req_count (queue_iter q)).
Proof. apply get_from_waiting_queue_spec. Qed.

Lemma admission_witness :
  ∃ items q',
    get_from_waiting_queue 2 false 8 [] demo_queue = (Ok items, q') ∧
    (id <$> items) = [2; 3] ∧ Priority.wf q'.
Proof.
  destruct (admission_partitions_and_respects_limits (before:=Priority.before)
    2 false 8 [] demo_queue demo_queue_wf) as (items & q' & Heq & Hwf & _ & _ & _ & _ & _ & Hpre);
    [discriminate|].
  exists items, q'. split; [exact Heq|]. split; [|exact Hwf].
  rewrite (Hpre eq_refl). vm_compute. reflexivity.
Defined.

(** The derived per-rank cap never exceeds the base cap, and a rank
    filled to the derived cap fits its generation step in the token budget:
    the cap times the tokens each request needs per step (one plus its draft
    tokens) is at most [max_num_tokens], and one more request would not fit
    or would exceed the base cap. *)
Theorem attention_dp_cap_is_tight (base_cap m d : Z) :
  let cap := derive_attention_dp_per_rank_request_cap base_cap (Some m) d in
  let step := 1 + Z.max d 0 in
  cap ≤ base_cap ∧ cap * step ≤ m ∧ (base_cap < cap + 1 ∨ m < (cap + 1) * step).
Proof.
  simpl. pose proof (Z.div_mod m (1 + Z.max d 0) ltac:(lia)).
  pose proof (Z.mod_pos_bound m (1 + Z.max d 0) ltac:(lia)).
  set (k := m / (1 + Z.max d 0)) in *. split_and!; [lia|nia|].
  destruct (Z.le_gt_cases base_cap k); [left; lia|right].
  rewrite Z.min_r by lia. nia.
Qed.
