(* ===== verification/Helix.v ===== *)
(** * Helix context-parallel split ([request_utils.py], [partition_context_for_helix])

    A prompt is cut into blocks of [tokens_per_block] tokens (the last one
    padded), blocks are dealt round-robin to the CP ranks, and the padding is
    taken off again on the rank that owns the last block.  Proved: the result
    is the round-robin deal of the unpadded blocks, so the ranks together
    hold every token of the prompt exactly once, with its position. *)

From S2P Require Import Prelude.

Local Open Scope Z_scope.

(** ** Operations *)

(** [tensor.split(n)]: consecutive blocks of [n], the last one shorter. *)
Fixpoint split_fuel {A} (fuel : nat) (n : nat) (l : list A) : list (list A) :=
  match fuel, l with
  | O, _ | _, [] => []
  | S fuel, _ => take n l :: split_fuel fuel n (drop n l)
  end.
Definition split {A} (n : nat) (l : list A) : list (list A) := split_fuel (length l) n l.

(** [l[skip::step]] *)
Fixpoint slice_step {A} (skip step : nat) (l : list A) : list A :=
  match l with
  | [] => []
  | x :: l' =>
      match skip with
      | O => x :: slice_step (step - 1) step l'
      | S k => slice_step k step l'
      end
  end.

(** [l[:-n]] for [n > 0] *)
Definition drop_last {A} (n : nat) (l : list A) : list A := take (length l - n) l.

Definition partition_context_for_helix
    (input_token_ids : list Z) (cp_rank cp_size tokens_per_block : nat) :
    result (list Z * list Z * nat * nat) :=
  if bool_decide (tokens_per_block = 0%nat) then Raise ZeroDivisionError else
  let input_len := length input_token_ids in
  let num_total_blocks := ((input_len + tokens_per_block - 1) / tokens_per_block)%nat in
  if bool_decide (num_total_blocks = 0%nat) then Raise ValueError else
  if bool_decide (cp_size = 0%nat) then Raise ValueError else
  let padding_len :=
    if bool_decide (input_len `mod` tokens_per_block ≠ 0)%nat
    then (tokens_per_block - input_len `mod` tokens_per_block)%nat else 0%nat in
  let all_input_ids := input_token_ids ++ replicate padding_len 0 in
  let all_position_ids := Z.of_nat <$> seq 0 (input_len + padding_len) in
  let curank_input_blocks := slice_step cp_rank cp_size (split tokens_per_block all_input_ids) in
  let curank_position_blocks :=
    slice_step cp_rank cp_size (split tokens_per_block all_position_ids) in
  if bool_decide (length curank_input_blocks = 0%nat)
  then Ok ([], [], input_len, padding_len)
  else
    let input_ids_this_rank := concat curank_input_blocks in
    let position_ids_this_rank := concat curank_position_blocks in
    let last_block_owner := ((num_total_blocks - 1) `mod` cp_size)%nat in
    if bool_decide (cp_rank = last_block_owner) && bool_decide (0 < padding_len)%nat
    then Ok (drop_last padding_len input_ids_this_rank,
             drop_last padding_len position_ids_this_rank, input_len, padding_len)
    else Ok (input_ids_this_rank, position_ids_this_rank, input_len, padding_len).

(** ** Splitting and dealing *)

Section split.
Context {A : Type}.
Implicit Types l : list A.

Lemma split_fuel_more fuel fuel' n l :
  (0 < n)%nat → (length l ≤ fuel)%nat → (length l ≤ fuel')%nat →
  split_fuel fuel n l = split_fuel fuel' n l.
Proof.
  revert fuel' l. induction fuel as [|fuel IH]; intros fuel' l Hn Hl Hl'.
  - destruct l; simpl in *; [by destruct fuel'|lia].
  - destruct l as [|x l]; [by destruct fuel'|].
    destruct fuel' as [|fuel']; simpl in *; [lia|]. f_equal.
    apply IH; [done|..]; rewrite length_drop; simpl; lia.
Qed.

Lemma split_nil n : split n ([] : list A) = [].
Proof. done. Qed.

Lemma split_unfold n l :
  (0 < n)%nat → l ≠ [] → split n l = take n l :: split n (drop n l).
Proof.
  intros Hn Hl. unfold split. destruct l as [|x l]; [done|].
  cbn [split_fuel length]. f_equal.
  apply split_fuel_more; [done|rewrite length_drop; simpl; lia|done].
Qed.

Lemma concat_split n l : (0 < n)%nat → concat (split n l) = l.
Proof.
  intros Hn. induction l as [l IH] using (induction_ltof1 _ length).
  destruct (decide (l = [])) as [->|Hl]; [done|].
  rewrite split_unfold by done. simpl. rewrite IH; [apply take_drop|].
  unfold ltof. rewrite length_drop. destruct l; [done|simpl; lia].
Qed.

(** Cutting after a whole number of blocks. *)
Lemma split_app n l k m :
  (0 < n)%nat → length l = (m * n)%nat → split n (l ++ k) = split n l ++ split n k.
Proof.
  intros Hn. revert l. induction m as [|m IH]; intros l Hl.
  - by destruct l.
  - assert (l ≠ []) by (intros ->; simpl in Hl; lia).
    rewrite (split_unfold n (l ++ k)), (split_unfold n l) by (try done; by destruct l).
    assert (n ≤ length l)%nat by lia.
    rewrite take_app_le, drop_app_le by done. simpl. f_equal.
    apply IH. rewrite length_drop. lia.
Qed.

Lemma split_short n l : (0 < length l ≤ n)%nat → split n l = [l].
Proof.
  intros Hl. rewrite split_unfold; [|lia|by intros ->; simpl in *; lia].
  by rewrite take_ge, drop_ge by lia.
Qed.

Lemma length_split n l m :
  (0 < n)%nat → length l = (m * n)%nat → length (split n l) = m.
Proof.
  intros Hn. revert l. induction m as [|m IH]; intros l Hl.
  - by destruct l.
  - rewrite split_unfold; [|done|by intros ->; simpl in Hl; lia]. simpl. f_equal.
    apply IH. rewrite length_drop. lia.
Qed.
End split.

Section deal.
Context {A : Type}.
Implicit Types l : list A.

(** Dealing round-robin loses and duplicates nothing. *)
Lemma slice_step_deal s l :
  (0 < s)%nat → concat ((λ k, slice_step k s l) <$> seq 0 s) ≡ₚ l.
Proof.
  intros Hs. induction l as [|x l IH].
  - assert (Hnil : ∀ ks, concat ((λ k, slice_step k s ([] : list A)) <$> ks) = []).
    { induction ks; simpl; done. }
    by rewrite Hnil.
  - destruct s as [|s]; [lia|]. change (seq 0 (S s)) with (0%nat :: seq 1 s).
    rewrite fmap_cons. cbn [concat slice_step]. rewrite <- app_comm_cons. f_equiv.
    transitivity (concat ((λ k, slice_step k (S s) l) <$> seq 0 (S s))); [|done].
    rewrite Nat.sub_succ, Nat.sub_0_r.
    replace (seq 0 (S s)) with (seq 0 s ++ [s]) by (by rewrite <- seq_S).
    rewrite fmap_app, concat_app. cbn. rewrite app_nil_r.
    rewrite (Permutation_app_comm _ (slice_step s (S s) l)). f_equiv.
    by rewrite <- fmap_S_seq, <- list_fmap_compose.
Qed.

Lemma slice_step_snoc k s l x :
  (k < s)%nat →
  slice_step k s (l ++ [x]) =
  slice_step k s l ++ (if bool_decide (length l `mod` s = k)%nat then [x] else []).
Proof.
  revert k. induction l as [|y l IH]; intros k Hk; simpl.
  - rewrite Nat.Div0.mod_0_l. destruct k; [by rewrite bool_decide_eq_true_2|].
    by rewrite bool_decide_eq_false_2 by lia.
  - pose proof (Nat.div_mod_eq (length l) s). pose proof (Nat.mod_upper_bound (length l) s).
    assert (Hmod : (S (length l) `mod` s =
      if bool_decide (length l `mod` s = s - 1) then 0 else S (length l `mod` s))%nat).
    { case_bool_decide; symmetry.
      - apply (Nat.mod_unique _ _ (S (length l / s))); [lia|nia].
      - apply (Nat.mod_unique _ _ (length l / s)); lia. }
    rewrite Hmod. destruct k as [|k]; rewrite IH by lia; simpl.
    + f_equal. f_equal. repeat case_bool_decide; done || lia.
    + f_equal. repeat case_bool_decide; done || lia.
Qed.
End deal.

Lemma slice_step_fmap {A B} (f : A → B) k s (l : list A) :
  slice_step k s (f <$> l) = f <$> slice_step k s l.
Proof. revert k. induction l as [|x l IH]; intros [|k]; simpl; f_equal; done || apply IH. Qed.

Lemma split_fmap {A B} (f : A → B) n (l : list A) :
  (0 < n)%nat → split n (f <$> l) = (λ b : list A, f <$> b) <$> split n l.
Proof.
  intros Hn. induction l as [l IH] using (induction_ltof1 _ length).
  destruct (decide (l = [])) as [->|Hl]; [done|].
  rewrite (split_unfold n l), split_unfold by (try done; by destruct l).
  rewrite fmap_cons, <- fmap_take, <- fmap_drop. f_equal. apply IH.
  unfold ltof. rewrite length_drop. destruct l; [done|simpl; lia].
Qed.

Lemma concat_fmap_fmap {A B} (f : A → B) (ls : list (list A)) :
  concat ((λ b : list A, f <$> b) <$> ls) = f <$> concat ls.
Proof. induction ls as [|l ls IH]; [done|]. rewrite fmap_cons. simpl. by rewrite IH, fmap_app. Qed.

Lemma zip_fst_snd {A B} (l : list (A * B)) : zip l.*1 l.*2 = l.
Proof. induction l as [|[a b] l IH]; [done|]. rewrite !fmap_cons. simpl. by f_equal. Qed.

Lemma concat_concat_fmap {A B} (f : A → list (list B)) (l : list A) :
  concat ((λ x, concat (f x)) <$> l) = concat (concat (f <$> l)).
Proof. induction l as [|x l IH]; [done|]. rewrite !fmap_cons. simpl. by rewrite concat_app, IH. Qed.

#[global] Instance concat_perm {A} : Proper ((≡ₚ) ==> (≡ₚ)) (@concat A).
Proof.
  induction 1 as [|x l k _ IH|x y l|l1 l2 l3 _ IH1 _ IH2]; simpl; [done| | |by rewrite IH1].
  - by rewrite IH.
  - by rewrite !(assoc_L (++)), (Permutation_app_comm y x).
Qed.

(** ** The round-robin deal of the unpadded blocks *)

Definition helix_blocks (cp_rank cp_size tokens_per_block : nat) {A} (l : list A) : list A :=
  concat (slice_step cp_rank cp_size (split tokens_per_block l)).

Lemma helix_blocks_fmap {A B} (f : A → B) r s n (l : list A) :
  (0 < n)%nat → helix_blocks r s n (f <$> l) = f <$> helix_blocks r s n l.
Proof.
  intros. unfold helix_blocks.
  by rewrite split_fmap, slice_step_fmap, concat_fmap_fmap.
Qed.

Definition pad_len (len n : nat) : nat :=
  if bool_decide (len `mod` n ≠ 0)%nat then (n - len `mod` n)%nat else 0%nat.

(** Padding, dealing and stripping gives the deal of the unpadded list. *)
Lemma helix_strip {A} r s n (l p : list A) :
  (0 < n)%nat → (r < s)%nat → l ≠ [] → length p = pad_len (length l) n →
  (if bool_decide (r = ((length l + n - 1) / n - 1) `mod` s)%nat && bool_decide (0 < length p)%nat
   then drop_last (length p) (helix_blocks r s n (l ++ p))
   else helix_blocks r s n (l ++ p)) = helix_blocks r s n l.
Proof.
  intros Hn Hr Hl Hp. unfold pad_len in Hp.
  pose proof (Nat.div_mod_eq (length l) n) as Hdm.
  pose proof (Nat.mod_upper_bound (length l) n ltac:(lia)) as Hub.
  case_bool_decide as Hmod.
  2:{ destruct p; [|done]. rewrite app_nil_r.
      by rewrite andb_comm. }
  set (m := (length l / n)%nat) in *.
  assert (Hblocks : ((length l + n - 1) / n - 1)%nat = m).
  { replace ((length l + n - 1) / n)%nat with (S m); [lia|].
    apply (Nat.div_unique _ _ _ (length l `mod` n - 1)); lia. }
  rewrite Hblocks.
  set (l1 := take (m * n) l). set (l2 := drop (m * n) l).
  assert (Hl1 : length l1 = (m * n)%nat) by (unfold l1; rewrite length_take; lia).
  assert (Hl2 : length l2 = (length l `mod` n)%nat) by (unfold l2; rewrite length_drop; lia).
  assert (Hl12 : l = l1 ++ l2) by (symmetry; apply take_drop).
  unfold helix_blocks. rewrite Hl12. rewrite <- (assoc_L (++)).
  rewrite !(split_app n l1 _ m) by done.
  rewrite (split_short n l2), (split_short n (l2 ++ p)) by (rewrite ?length_app; lia).
  rewrite !slice_step_snoc by done. rewrite (length_split n l1 m) by done.
  rewrite (bool_decide_eq_true_2 (0 < length p)%nat) by lia. rewrite andb_true_r.
  rewrite (bool_decide_ext (r = m `mod` s)%nat (m `mod` s = r)%nat) by done.
  case_bool_decide; [|done].
  rewrite !concat_app. simpl. rewrite !app_nil_r. unfold drop_last.
  rewrite !length_app, (assoc_L (++)).
  replace (_ - _)%nat with (length (concat (slice_step r s (split n l1)) ++ l2))%nat
    by (rewrite length_app; lia).
  apply take_app_length.
Qed.

Definition with_positions (input_token_ids : list Z) : list (Z * Z) :=
  zip (Z.of_nat <$> seq 0 (length input_token_ids)) input_token_ids.

Lemma with_positions_fst ids : (with_positions ids).*1 = Z.of_nat <$> seq 0 (length ids).
Proof. apply fst_zip. rewrite length_fmap, length_seq. lia. Qed.

Lemma with_positions_snd ids : (with_positions ids).*2 = ids.
Proof. apply snd_zip. rewrite length_fmap, length_seq. lia. Qed.

Lemma partition_helix_reference ids r s n :
  (0 < n)%nat → (r < s)%nat → ids ≠ [] →
  let mine := helix_blocks r s n (with_positions ids) in
  partition_context_for_helix ids r s n =
  Ok (mine.*2, mine.*1, length ids, pad_len (length ids) n).
Proof.
  intros Hn Hr Hne mine. unfold partition_context_for_helix.
  rewrite bool_decide_eq_false_2 by lia.
  assert (Hnb : ((length ids + n - 1) / n ≠ 0)%nat).
  { destruct ids; [done|]. simpl length.
    pose proof (Nat.Div0.div_le_mono n (S (length ids) + n - 1) n ltac:(lia)).
    rewrite Nat.div_same in * by lia. lia. }
  rewrite (bool_decide_eq_false_2 (_ = 0%nat)) by done.
  rewrite (bool_decide_eq_false_2 (s = 0%nat)) by lia.
  fold (pad_len (length ids) n).
  pose proof (helix_strip r s n ids (replicate (pad_len (length ids) n) 0)
    Hn Hr Hne (length_replicate _ _)) as Hids.
  pose proof (helix_strip r s n (Z.of_nat <$> seq 0 (length ids))
    (Z.of_nat <$> seq (length ids) (pad_len (length ids) n)) Hn Hr) as Hpos.
  rewrite !length_fmap, !length_seq in Hpos.
  specialize (Hpos ltac:(destruct ids; done) eq_refl).
  rewrite <- fmap_app, <- seq_app in Hpos.
  rewrite length_replicate in Hids. unfold helix_blocks in Hids, Hpos.
  fold (helix_blocks r s n ids) in Hids.
  fold (helix_blocks r s n (Z.of_nat <$> seq 0 (length ids))) in Hpos.
  assert (Hm2 : helix_blocks r s n ids = mine.*2).
  { unfold mine. by rewrite <- helix_blocks_fmap, with_positions_snd. }
  assert (Hm1 : helix_blocks r s n (Z.of_nat <$> seq 0 (length ids)) = mine.*1).
  { unfold mine. by rewrite <- helix_blocks_fmap, with_positions_fst. }
  rewrite Hm2 in Hids. rewrite Hm1 in Hpos.
  destruct (decide (length (slice_step r s (split n
    (ids ++ replicate (pad_len (length ids) n) 0))) = 0%nat)) as [Hz|Hz].
  - rewrite bool_decide_eq_true_2 by done. apply nil_length_inv in Hz. rewrite Hz in Hids. simpl in Hids. unfold drop_last in Hids. rewrite take_nil in Hids.
    assert (mine.*2 = []) as Hm by (rewrite <- Hids; by case_match).
    apply fmap_nil_inv in Hm. by rewrite Hm.
  - rewrite (bool_decide_eq_false_2 (length _ = 0%nat)) by done.
    revert Hids Hpos. case_match; intros -> ->; done.
Qed.

(** ** Properties *)

(** The (position, token) pairs a rank receives. *)
Definition helix_pairs (ids : list Z) (cp_size tokens_per_block cp_rank : nat) : list (Z * Z) :=
  match partition_context_for_helix ids cp_rank cp_size tokens_per_block with
  | Ok (tokens, positions, _, _) => zip positions tokens
  | Raise _ => []
  end.

Lemma helix_pairs_blocks ids r s n :
  (0 < n)%nat → (r < s)%nat → ids ≠ [] →
  helix_pairs ids s n r = helix_blocks r s n (with_positions ids).
Proof.
  intros. unfold helix_pairs. rewrite partition_helix_reference by done.
  apply zip_fst_snd.
Qed.

(** The Helix split never raises on a non-empty prompt, every rank gets
    as many positions as tokens, and over all CP ranks each token of the
    prompt is dealt exactly once, with its own position; no padding token
    survives on any rank. *)
Theorem helix_split_is_a_partition (ids : list Z) (cp_size tokens_per_block : nat) :
  (0 < tokens_per_block)%nat → (0 < cp_size)%nat → ids ≠ [] →
  (∀ cp_rank, (cp_rank < cp_size)%nat → ∃ tokens positions,
     partition_context_for_helix ids cp_rank cp_size tokens_per_block
       = Ok (tokens, positions, length ids, pad_len (length ids) tokens_per_block) ∧
     length tokens = length positions) ∧
  concat (helix_pairs ids cp_size tokens_per_block <$> seq 0 cp_size) ≡ₚ with_positions ids.
Proof.
  intros Hn Hs Hne. split.
  - intros r Hr. rewrite partition_helix_reference by done.
    eexists _, _. split; [done|]. by rewrite !length_fmap.
  - rewrite (list_fmap_ext _ (λ r, helix_blocks r cp_size tokens_per_block (with_positions ids))).
    2:{ intros i r Hi. apply helix_pairs_blocks; [done| |done].
        apply lookup_seq in Hi. lia. }
    unfold helix_blocks. rewrite concat_concat_fmap, slice_step_deal by done.
    by rewrite concat_split.
Qed.

Lemma helix_split_witness :
  concat (helix_pairs [10; 11; 12; 13; 14] 2 2 <$> seq 0 2) ≡ₚ with_positions [10; 11; 12; 13; 14] ∧
  helix_pairs [10; 11; 12; 13; 14] 2 2 0 = [(0, 10); (1, 11); (4, 14)].
Proof.
  split; [|vm_compute; reflexivity].
  apply (helix_split_is_a_partition [10; 11; 12; 13; 14] 2 2); [lia|lia|discriminate].
Defined.
