(* ===== verification/MicroBatch.v ===== *)
(** * The micro-batch scheduler ([scheduler/scheduler.py], [PyMicroBatchScheduler])

    Given the requests the capacity scheduler lets run, choose the batch of
    one iteration: encoder, context and generation requests, within
    [max_batch_size] requests and [max_num_tokens] tokens of compute, cutting
    prompts into chunks by one of three policies when they do not all fit.

    A request object is a [LlmRequest] value; the code updates chunk sizes and
    draft tokens in place, so each function returns the requests it was given
    in their new state.  The requests of one call are distinct objects. *)

From S2P Require Import Prelude PySort Requests.

Local Open Scope Z_scope.

(** ** Shared helpers of [scheduler.py] *)

Definition is_decoder_context_request_waiting_for_encoder_output (req : LlmRequest) : bool :=
  is_context_init_state req &&
  match encoder_ready req with Some ready => negb ready | None => false end.

Definition drop_decoder_context_requests_waiting_for_encoder_output
    (active_requests : list LlmRequest) : list LlmRequest :=
  filter (λ req, is_decoder_context_request_waiting_for_encoder_output req = false)
    active_requests.

Definition split_encoder_from_decoder_context_requests (requests : list LlmRequest) :
    list LlmRequest * list LlmRequest :=
  (filter (λ r, is_encoder_init_state r = true) requests,
   filter (λ r, is_encoder_init_state r = false) requests).

(** [_get_lora_task_id]: the sort key, a pair compared lexicographically. *)
Definition get_lora_task_id (req : LlmRequest) : Z * Z :=
  match lora_task_id req with None => (0, 0) | Some lora_id => (1, lora_id) end.

Definition pair_leb (p q : Z * Z) : bool :=
  (p.1 <? q.1) || ((p.1 =? q.1) && (p.2 <=? q.2)).

Definition lora_leb (r s : LlmRequest) : bool :=
  pair_leb (get_lora_task_id r) (get_lora_task_id s).

(** [_get_forced_context_chunk_size] *)
Definition next_snapshot_point (req : LlmRequest) : option Z :=
  match filter (λ p, context_current_position req < p) (expect_snapshot_points req) with
  | [] => None
  | p :: ps => Some (foldr Z.min p ps)
  end.

Definition get_forced_context_chunk_size (req : LlmRequest) : Z :=
  match next_snapshot_point req with
  | None => context_remaining_length req
  | Some next_point =>
      let next_position := Z.min next_point (prompt_len req) in
      Z.max 0 (next_position - context_current_position req)
  end.

(** [_is_forced_context_chunk_boundary] *)
Definition is_forced_context_chunk_boundary (req : LlmRequest) (chunk_size : Z) : bool :=
  let next_position := context_current_position req + chunk_size in
  (prompt_len req <=? next_position) || bool_decide (next_position ∈ expect_snapshot_points req).

(** [_reuse_adjusted_compute] *)
Definition reuse_adjusted_compute (chunk_size reusable context_remaining : Z) : Z :=
  if reusable <=? 0 then chunk_size
  else if reusable + chunk_size <? context_remaining then chunk_size
  else Z.max 0 (context_remaining - reusable).

(** [req.estimated_reusable_tokens if req.is_first_context_chunk else 0] *)
Definition first_chunk_reusable (req : LlmRequest) : Z :=
  if is_first_context_chunk req then estimated_reusable_tokens req else 0.

(** ** Configuration *)

Inductive ChunkingPolicy := EQUAL_PROGRESS | FIRST_COME_FIRST_SERVED | FORCE_CHUNK.

#[global] Instance ChunkingPolicy_eq_dec : EqDecision ChunkingPolicy.
Proof. solve_decision. Defined.

Record ContextChunkingConfig := {
  chunking_policy : ChunkingPolicy;
  chunk_unit_size : Z;
}.

Record PyMicroBatchScheduler := {
  max_batch_size : Z;
  max_num_tokens : option Z;
  ctx_chunk_config : option ContextChunkingConfig;
  no_schedule_until_state : LlmRequestState;
  no_schedule_after_state : LlmRequestState;
}.

Definition max_context_length (self : PyMicroBatchScheduler) : option Z := max_num_tokens self.

(** [limit is not None and x > limit] *)
Definition exceeds (limit : option Z) (x : Z) : bool :=
  match limit with Some m => m <? x | None => false end.

Definition can_be_scheduled (self : PyMicroBatchScheduler) (req : LlmRequest) : bool :=
  if is_decoder_context_request_waiting_for_encoder_output req then false
  else (state_to_value (no_schedule_until_state self) <=? state_value req) &&
       (state_value req <? state_to_value (no_schedule_after_state self)).

(** ** Chunking policies *)

Section chunking.
Context (self : PyMicroBatchScheduler).

(** One request of one pass of [_chunk_equal_progress]: the request, the
    compute tokens so far and the tokens gained in this pass. *)
Definition equal_progress_step (capacity : option Z) (unit_size : Z)
    (req : LlmRequest) (num_compute_tokens num_tokens_single_loop : Z) :
    result (LlmRequest * Z * Z) :=
  past_size ← context_chunk_size req;
  let suggested_size := Z.min (past_size + unit_size) (context_remaining_length req) in
  req1 ← set_context_chunk_size req suggested_size;
  actual_size ← context_chunk_size req1;
  let context_remaining := context_remaining_length req1 in
  let reusable := Z.min (first_chunk_reusable req1) context_remaining in
  let past_compute := reuse_adjusted_compute past_size reusable context_remaining in
  let actual_compute := reuse_adjusted_compute actual_size reusable context_remaining in
  let compute_increment := actual_compute - past_compute in
  if exceeds capacity (num_compute_tokens + compute_increment) then
    req2 ← set_context_chunk_size req1 past_size;
    Ok (req2, num_compute_tokens, num_tokens_single_loop)
  else if exceeds (max_context_length self) actual_size then
    req2 ← set_context_chunk_size req1 past_size;
    Ok (req2, num_compute_tokens, num_tokens_single_loop)
  else
    Ok (req1, num_compute_tokens + compute_increment,
        num_tokens_single_loop + (actual_size - past_size)).

(** The [for] loop over the requests. *)
Fixpoint equal_progress_pass (capacity : option Z) (unit_size : Z)
    (requests : list LlmRequest) (num_compute_tokens num_tokens_single_loop : Z) :
    result (list LlmRequest * Z * Z) :=
  match requests with
  | [] => Ok ([], num_compute_tokens, num_tokens_single_loop)
  | req :: reqs =>
      '(req', n, s) ←
        equal_progress_step capacity unit_size req num_compute_tokens num_tokens_single_loop;
      '(reqs', n', s') ← equal_progress_pass capacity unit_size reqs n s;
      Ok (req' :: reqs', n', s')
  end.

(** The [while] loop. *)
Fixpoint equal_progress_loop (fuel : nat) (capacity : option Z) (unit_size : Z)
    (requests : list LlmRequest) (num_compute_tokens num_tokens_single_loop : Z) :
    result (list LlmRequest) :=
  if match capacity with None => true | Some c => num_compute_tokens <? c end &&
     (0 <? num_tokens_single_loop)
  then
    match fuel with
    | O => Raise OutOfFuel
    | S fuel =>
        '(requests', n, s) ← equal_progress_pass capacity unit_size requests num_compute_tokens 0;
        equal_progress_loop fuel capacity unit_size requests' n s
    end
  else Ok requests.

(** Every pass but the last adds at least one token to some chunk, and the
    chunks never exceed the remaining prompts. *)
Definition equal_progress_fuel (requests : list LlmRequest) : nat :=
  S (Z.to_nat (zsum (context_remaining_length <$> requests))).

Definition chunk_equal_progress (requests : list LlmRequest) (capacity : option Z)
    (unit_size : Z) : result (list LlmRequest) :=
  equal_progress_loop (equal_progress_fuel requests) capacity unit_size requests 0 1.

(** One request of [_chunk_fcfs]; the capacity left is [None] for infinity. *)
Definition fcfs_step (unit_size : Z) (req : LlmRequest) (current_compute_capacity : option Z) :
    result (LlmRequest * option Z) :=
  let suggested_size := context_remaining_length req in
  let reusable := Z.min (first_chunk_reusable req) suggested_size in
  let compute_cost := reuse_adjusted_compute suggested_size reusable suggested_size in
  let actual_size :=
    match current_compute_capacity with
    | Some c => if c <? compute_cost then c else suggested_size
    | None => suggested_size
    end in
  let actual_size :=
    match max_context_length self with
    | Some m =>
        if m <? reuse_adjusted_compute actual_size reusable suggested_size
        then Z.min m suggested_size else actual_size
    | None => actual_size
    end in
  actual_size ←
    (if actual_size <? suggested_size then
       if unit_size =? 0 then Raise ZeroDivisionError
       else Ok (actual_size / unit_size * unit_size)
     else Ok actual_size);
  req1 ← set_context_chunk_size req actual_size;
  chunk ← context_chunk_size req1;
  let actual_model_cost := reuse_adjusted_compute chunk reusable suggested_size in
  Ok (req1, (λ c, c - actual_model_cost) <$> current_compute_capacity).

Fixpoint fcfs_loop (unit_size : Z) (requests : list LlmRequest)
    (current_compute_capacity : option Z) : result (list LlmRequest) :=
  match requests with
  | [] => Ok []
  | req :: reqs =>
      '(req', c) ← fcfs_step unit_size req current_compute_capacity;
      reqs' ← fcfs_loop unit_size reqs c;
      Ok (req' :: reqs')
  end.

Definition chunk_fcfs (requests : list LlmRequest) (capacity : option Z) (unit_size : Z) :
    result (list LlmRequest) :=
  fcfs_loop unit_size requests capacity.

(** One request of [_chunk_forced], with the tokens given out so far. *)
Definition forced_step (capacity : option Z) (unit_size : Z) (req : LlmRequest)
    (total_tokens : Z) : result (LlmRequest * Z) :=
  let chunk_size := get_forced_context_chunk_size req in
  chunk_size ←
    (match max_context_length self with
     | Some m =>
         if m <? chunk_size then
           if unit_size =? 0 then Raise ZeroDivisionError else Ok (m / unit_size * unit_size)
         else Ok chunk_size
     | None => Ok chunk_size
     end);
  chunk_size ←
    (match capacity with
     | Some c =>
         if c <? total_tokens + chunk_size then
           let remaining_capacity := Z.max 0 (c - total_tokens) in
           if unit_size =? 0 then Raise ZeroDivisionError
           else Ok (Z.min chunk_size remaining_capacity / unit_size * unit_size)
         else Ok chunk_size
     | None => Ok chunk_size
     end);
  req1 ← set_context_chunk_size req chunk_size;
  chunk ← context_chunk_size req1;
  Ok (req1, total_tokens + chunk).

Fixpoint forced_loop (capacity : option Z) (unit_size : Z) (requests : list LlmRequest)
    (total_tokens : Z) : result (list LlmRequest * Z) :=
  match requests with
  | [] => Ok ([], total_tokens)
  | req :: reqs =>
      '(req', t) ← forced_step capacity unit_size req total_tokens;
      '(reqs', t') ← forced_loop capacity unit_size reqs t;
      Ok (req' :: reqs', t')
  end.

Definition chunk_forced (requests : list LlmRequest) (capacity : option Z) (unit_size : Z) :
    result (list LlmRequest) :=
  if match max_context_length self with Some m => m <? unit_size | None => false end
  then Raise ValueError
  else
    '(requests', total_tokens) ← forced_loop capacity unit_size requests 0;
    _ ← py_assert (negb (exceeds capacity total_tokens));
    Ok requests'.

(** The model tokens of a context request at its current chunk size. *)
Definition chunk_compute (req : LlmRequest) : result Z :=
  c ← context_chunk_size req;
  Ok (reuse_adjusted_compute c
        (Z.min (first_chunk_reusable req) (context_remaining_length req))
        (context_remaining_length req)).

(** [for req in requests] computing a value that may raise. *)
Fixpoint map_result {A B} (f : A → result B) (l : list A) : result (list B) :=
  match l with
  | [] => Ok []
  | x :: l' => y ← f x; ys ← map_result f l'; Ok (y :: ys)
  end.

(** One request of the second loop of [_fit_draft_tokens]. *)
Definition fit_draft_step (capacity : option Z) (unit_size : Z) (req : LlmRequest)
    (num_ctx_tokens : Z) : result (LlmRequest * Z) :=
  last ← is_last_context_chunk req;
  if (last : bool) && has_draft_tokens req then
    chunk ← context_chunk_size req;
    if unit_size =? 0 then Raise ZeroDivisionError else
    let remainder := chunk `mod` unit_size in
    let remaining_space := if remainder =? 0 then 0 else unit_size - remainder in
    let remaining_space :=
      match max_context_length self with
      | Some m => Z.min remaining_space (m - chunk)
      | None => remaining_space
      end in
    let remaining_space := Z.max 0 remaining_space in
    let kept_drafts := Z.min (num_draft_tokens req) remaining_space in
    let '(kept_drafts, num_ctx_tokens) :=
      match capacity with
      | Some c =>
          let kept := Z.max 0 (Z.min kept_drafts (c - num_ctx_tokens)) in
          (kept, num_ctx_tokens + kept)
      | None => (kept_drafts, num_ctx_tokens)
      end in
    let draft_discard := num_draft_tokens req - kept_drafts in
    if 0 <? draft_discard then
      req' ← discard_draft_tokens req draft_discard; Ok (req', num_ctx_tokens)
    else Ok (req, num_ctx_tokens)
  else Ok (req, num_ctx_tokens).

Fixpoint fit_draft_loop (capacity : option Z) (unit_size : Z) (requests : list LlmRequest)
    (num_ctx_tokens : Z) : result (list LlmRequest) :=
  match requests with
  | [] => Ok []
  | req :: reqs =>
      '(req', n) ← fit_draft_step capacity unit_size req num_ctx_tokens;
      reqs' ← fit_draft_loop capacity unit_size reqs n;
      Ok (req' :: reqs')
  end.

Definition fit_draft_tokens (requests : list LlmRequest) (capacity : option Z)
    (unit_size : Z) : result (list LlmRequest) :=
  costs ← map_result chunk_compute requests;
  fit_draft_loop capacity unit_size requests (zsum costs).

Definition set_ctx_requests_chunk_size (cfg : ContextChunkingConfig)
    (requests : list LlmRequest) (capacity : option Z) : result (list LlmRequest) :=
  requests ← map_result (λ req, set_context_chunk_size req 0) requests;
  let unit_size := chunk_unit_size cfg in
  requests ←
    match chunking_policy cfg with
    | EQUAL_PROGRESS => chunk_equal_progress requests capacity unit_size
    | FIRST_COME_FIRST_SERVED => chunk_fcfs requests capacity unit_size
    | FORCE_CHUNK => chunk_forced requests capacity unit_size
    end;
  fit_draft_tokens requests capacity unit_size.
End chunking.

(** ** [schedule] *)

(** The local variables of the main loop. *)
Record mb_state := mkMb {
  encoder_requests : list LlmRequest;
  context_requests : list LlmRequest;
  generation_requests : list LlmRequest;
  batch_num_tokens : Z;
  scheduled_req_size : Z;
  scheduled_beam_width : Z;
  contexts_to_be_chunked : list LlmRequest;
  num_chunked_compute_tokens : Z;
  all_context_requests_fit : bool;
}.

Definition mb_init : mb_state := mkMb [] [] [] 0 0 0 [] 0 true.

(** How an iteration ends: [continue], [break], or at the batch-size check. *)
Inductive mb_flow := Continue (s : mb_state) | Break (s : mb_state) | Scheduled (s : mb_state).

Section schedule.
Context (self : PyMicroBatchScheduler) (inflight_request_ids : gset Z).

Definition schedule_encoder (req : LlmRequest) (s : mb_state) : result mb_flow :=
  let req_num_tokens := encoder_output_len req in
  _ ← py_assert (negb (exceeds (max_context_length self) req_num_tokens));
  if exceeds (max_num_tokens self) (batch_num_tokens s + req_num_tokens) then Ok (Break s)
  else Ok (Scheduled (mkMb
    (encoder_requests s ++ [req]) (context_requests s) (generation_requests s)
    (batch_num_tokens s + req_num_tokens) (scheduled_req_size s) (scheduled_beam_width s)
    (contexts_to_be_chunked s) (num_chunked_compute_tokens s) (all_context_requests_fit s))).

(** Forward-pass cost of a whole, unchunked context. *)
Definition full_context_compute (req : LlmRequest) : Z :=
  let draft_tokens := if has_draft_tokens req then num_draft_tokens req else 0 in
  let context_compute := reuse_adjusted_compute (num_tokens req) (first_chunk_reusable req)
    (context_remaining_length req) in
  Z.max 1 (context_compute + draft_tokens).

Definition schedule_full_context (req : LlmRequest) (s : mb_state) : result mb_flow :=
  let compute_tokens := full_context_compute req in
  _ ← py_assert (negb (exceeds (max_context_length self) compute_tokens));
  if exceeds (max_num_tokens self) (batch_num_tokens s + compute_tokens) then Ok (Break s)
  else Ok (Scheduled (mkMb
    (encoder_requests s) (context_requests s ++ [req]) (generation_requests s)
    (batch_num_tokens s + compute_tokens) (scheduled_req_size s) (scheduled_beam_width s)
    (contexts_to_be_chunked s) (num_chunked_compute_tokens s) (all_context_requests_fit s))).

Definition schedule_chunked_context (req : LlmRequest) (s : mb_state) : result mb_flow :=
  let reusable := first_chunk_reusable req in
  req ← set_context_chunk_size req (context_remaining_length req);
  last ← is_last_context_chunk req;
  chunk ← context_chunk_size req;
  let draft_tokens := if (last : bool) && has_draft_tokens req then num_draft_tokens req else 0 in
  let context_compute := reuse_adjusted_compute chunk reusable (context_remaining_length req) in
  let compute_tokens := context_compute + draft_tokens in
  let '(compute_tokens, fit) :=
    match max_context_length self with
    | Some m => if m <? compute_tokens then (m, false)
                else (compute_tokens, all_context_requests_fit s)
    | None => (compute_tokens, all_context_requests_fit s)
    end in
  Ok (Scheduled (mkMb
    (encoder_requests s) (context_requests s) (generation_requests s)
    (batch_num_tokens s) (scheduled_req_size s) (scheduled_beam_width s)
    (contexts_to_be_chunked s ++ [req]) (num_chunked_compute_tokens s + compute_tokens) fit)).

Definition generation_tokens (req : LlmRequest) : Z :=
  beam_width_by_iter req + num_draft_tokens req.

Definition schedule_generation (req : LlmRequest) (s : mb_state) : result mb_flow :=
  let beam_width := beam_width_by_iter req in
  let req_num_tokens := generation_tokens req in
  if exceeds (max_num_tokens self) (batch_num_tokens s + req_num_tokens) then Ok (Break s)
  else if negb (scheduled_beam_width s =? 0) && negb (scheduled_beam_width s =? beam_width)
  then Ok (Continue s)
  else Ok (Scheduled (mkMb
    (encoder_requests s) (context_requests s) (generation_requests s ++ [req])
    (batch_num_tokens s + req_num_tokens) (scheduled_req_size s)
    (if scheduled_beam_width s =? 0 then beam_width else scheduled_beam_width s)
    (contexts_to_be_chunked s) (num_chunked_compute_tokens s) (all_context_requests_fit s))).

Definition mb_eligible (req : LlmRequest) : bool :=
  negb (bool_decide (request_id req ∈ inflight_request_ids)) && can_be_scheduled self req.

Definition mb_step (req : LlmRequest) (s : mb_state) : result mb_flow :=
  if negb (mb_eligible req) then Ok (Continue s)
  else if state_value req =? state_to_value ENCODER_INIT then schedule_encoder req s
  else if state_value req =? state_to_value CONTEXT_INIT then
    match ctx_chunk_config self with
    | None => schedule_full_context req s
    | Some _ => schedule_chunked_context req s
    end
  else schedule_generation req s.

Definition mb_bump (s : mb_state) : mb_state := mkMb
  (encoder_requests s) (context_requests s) (generation_requests s)
  (batch_num_tokens s) (scheduled_req_size s + 1) (scheduled_beam_width s)
  (contexts_to_be_chunked s) (num_chunked_compute_tokens s) (all_context_requests_fit s).

Fixpoint mb_loop (active_requests : list LlmRequest) (s : mb_state) : result mb_state :=
  match active_requests with
  | [] => Ok s
  | req :: reqs =>
      flow ← mb_step req s;
      match flow with
      | Continue s' => mb_loop reqs s'
      | Break s' => Ok s'
      | Scheduled s' =>
          let s'' := mb_bump s' in
          if max_batch_size self <=? scheduled_req_size s'' then Ok s''
          else mb_loop reqs s''
      end
  end.

(** [_sort_requests] on the context requests; the generation requests are
    sorted by LoRA id only. *)
Definition sort_context_requests (context_requests : list LlmRequest) (chunks_present : bool) :
    result (list LlmRequest) :=
  if chunks_present then
    lasts ← map_result is_last_context_chunk context_requests;
    let tagged := zip context_requests lasts in
    let not_last_chunk := (filter (λ p : LlmRequest * bool, p.2 = false) tagged).*1 in
    let last_chunk := (filter (λ p : LlmRequest * bool, p.2 = true) tagged).*1 in
    Ok (sort_by lora_leb not_last_chunk ++ sort_by lora_leb last_chunk)
  else Ok (sort_by lora_leb context_requests).

(** The chunking stage: are all tentative chunks kept, and the requests with
    their final chunk sizes. *)
Definition mb_all_fit (s : mb_state) : bool :=
  all_context_requests_fit s &&
  match max_num_tokens self with
  | Some m => negb (m - batch_num_tokens s <? num_chunked_compute_tokens s)
  | None => true
  end &&
  match ctx_chunk_config self with
  | Some cfg => negb (bool_decide (chunking_policy cfg = FORCE_CHUNK))
  | None => true
  end.

Definition mb_chunk (s : mb_state) : result (list LlmRequest) :=
  if mb_all_fit s || bool_decide (contexts_to_be_chunked s = []) then Ok (contexts_to_be_chunked s)
  else
    match ctx_chunk_config self with
    | None => Raise AssertionError
    | Some cfg =>
        let remaining_capacity := (λ m, m - batch_num_tokens s) <$> max_num_tokens self in
        set_ctx_requests_chunk_size self cfg (contexts_to_be_chunked s) remaining_capacity
    end.

Record mb_output := mkOut {
  out_encoder : list LlmRequest;
  out_context : list LlmRequest;
  out_generation : list LlmRequest;
}.

Definition schedule (active_requests : list LlmRequest) : result mb_output :=
  s ← mb_loop active_requests mb_init;
  chunked ← mb_chunk s;
  sizes ← map_result context_chunk_size chunked;
  let finalized := (filter (λ p : LlmRequest * Z, 0 < p.2) (zip chunked sizes)).*1 in
  context ← sort_context_requests (context_requests s ++ finalized) (negb (mb_all_fit s));
  Ok (mkOut (sort_by lora_leb (encoder_requests s)) context
            (sort_by lora_leb (generation_requests s))).
End schedule.
