(* ===== verification/MicroBatchProps.v ===== *)
(** * Correctness of the micro-batch scheduler

    The chunking policies are total on well-formed requests, stay within the
    capacity they are given and cut at unit boundaries; the main loop keeps
    the token and request budgets; together, a batch never exceeds either. *)

From S2P Require Import Prelude PySort Requests MicroBatch.

Local Open Scope Z_scope.

(** ** Context requests being chunked *)

(** The tokens the forward pass spends on a context request at its chunk
    size, and the draft tokens it spends when the chunk is the last one. *)
Definition ctx_compute (r : LlmRequest) : Z :=
  reuse_adjusted_compute (chunk_size_field r) (first_chunk_reusable r) (context_remaining_length r).

Definition ctx_last (r : LlmRequest) : bool :=
  context_current_position r + chunk_size_field r =? prompt_len r.

Definition ctx_drafts (r : LlmRequest) : Z := if ctx_last r then num_draft_tokens r else 0.

Record ctx_ok (r : LlmRequest) : Prop := {
  ctx_state : state r = CONTEXT_INIT;
  ctx_wf : request_wf r;
  ctx_chunk : 0 ≤ chunk_size_field r ≤ context_remaining_length r;
}.

(** [r'] is [r] with another chunk size and fewer or as many draft tokens. *)
Definition rechunked (r r' : LlmRequest) : Prop :=
  r' = with_num_draft_tokens (with_chunk_size r (chunk_size_field r')) (num_draft_tokens r') ∧
  num_draft_tokens r' ≤ num_draft_tokens r.

#[global] Instance rechunked_preorder : PreOrder rechunked.
Proof.
  split.
  - intros r. split; [by destruct r|done].
  - intros r1 r2 r3 [H1 ?] [H2 ?]. split; [|lia]. rewrite H2, H1. by destruct r1.
Qed.

Lemma rechunked_id r r' : rechunked r r' → request_id r' = request_id r.
Proof. intros [-> _]. done. Qed.

Lemma rechunked_remaining r r' :
  rechunked r r' → context_remaining_length r' = context_remaining_length r.
Proof. intros [-> _]. done. Qed.

Lemma reuse_adjusted_bounds c reus p : 0 ≤ c ≤ p → 0 ≤ reuse_adjusted_compute c reus p ≤ c.
Proof. intros. unfold reuse_adjusted_compute. repeat case_match; lia. Qed.

Lemma reuse_adjusted_mono c c' reus p :
  0 ≤ c ≤ c' → c' ≤ p → reuse_adjusted_compute c reus p ≤ reuse_adjusted_compute c' reus p.
Proof. intros. unfold reuse_adjusted_compute. repeat case_match; lia. Qed.

(** Capping the credit at the remaining length changes no cost. *)
Lemma reuse_adjusted_min c reus p :
  0 ≤ c ≤ p → reuse_adjusted_compute c (Z.min reus p) p = reuse_adjusted_compute c reus p.
Proof. intros. unfold reuse_adjusted_compute. repeat case_match; lia. Qed.

Lemma reuse_adjusted_zero reus p : 0 ≤ p → reuse_adjusted_compute 0 reus p = 0.
Proof. intros. pose proof (reuse_adjusted_bounds 0 reus p). lia. Qed.

Lemma ctx_chunk_access r : ctx_ok r → chunk_access r = true.
Proof. intros [Hs _ _]. unfold chunk_access, is_context_init_state. by rewrite Hs. Qed.

Lemma get_chunk r : ctx_ok r → context_chunk_size r = Ok (chunk_size_field r).
Proof. intros H. unfold context_chunk_size. by rewrite ctx_chunk_access. Qed.

Lemma set_chunk r n :
  ctx_ok r → 0 ≤ n →
  set_context_chunk_size r n = Ok (with_chunk_size r (Z.min n (context_remaining_length r))).
Proof.
  intros H Hn. unfold set_context_chunk_size. rewrite ctx_chunk_access by done. simpl.
  by rewrite (proj2 (Z.ltb_ge n 0)).
Qed.

Lemma get_last r : ctx_ok r → is_last_context_chunk r = Ok (ctx_last r).
Proof.
  intros H. unfold is_last_context_chunk, is_disagg_generation_init_state,
    is_disagg_generation_transmission_complete. rewrite (ctx_state r H). simpl.
  by rewrite get_chunk.
Qed.

Lemma ctx_ok_with_chunk r n :
  ctx_ok r → 0 ≤ n ≤ context_remaining_length r → ctx_ok (with_chunk_size r n).
Proof. intros [? [] ?] ?. by split. Qed.

Lemma rechunked_with_chunk r n : rechunked r (with_chunk_size r n).
Proof. split; [by destruct r|done]. Qed.

Lemma with_chunk_same r : with_chunk_size r (chunk_size_field r) = r.
Proof. by destruct r. Qed.

Lemma with_chunk_twice r m n : with_chunk_size (with_chunk_size r m) n = with_chunk_size r n.
Proof. done. Qed.

Lemma ctx_compute_bounds r : ctx_ok r → 0 ≤ ctx_compute r ≤ chunk_size_field r.
Proof. intros [_ _ H]. by apply reuse_adjusted_bounds. Qed.

#[export] Hint Resolve ctx_ok_with_chunk rechunked_with_chunk ctx_compute_bounds : trtllm.

Lemma round_down_bounds x u : 0 < u → 0 ≤ x → 0 ≤ x / u * u ≤ x.
Proof.
  intros. pose proof (Z.div_mod x u ltac:(lia)). pose proof (Z.mod_pos_bound x u ltac:(lia)).
  pose proof (Z.div_pos x u). nia.
Qed.

(** Where a chunk ends: at the end of the prompt or a multiple of the unit
    from the cursor. *)
Definition unit_boundary (unit_size : Z) (r : LlmRequest) : Prop :=
  chunk_size_field r = context_remaining_length r ∨ (unit_size | chunk_size_field r).

(** The forced policy may also stop at a snapshot point. *)
Definition snapshot_boundary (unit_size : Z) (r : LlmRequest) : Prop :=
  unit_boundary unit_size r ∨
  context_current_position r + chunk_size_field r ∈ expect_snapshot_points r.

(** Only the chunk size has changed. *)
Definition resized (r r' : LlmRequest) : Prop :=
  rechunked r r' ∧ num_draft_tokens r' = num_draft_tokens r.

#[global] Instance resized_preorder : PreOrder resized.
Proof.
  split; [by intros r; split|].
  intros r1 r2 r3 [H1 E1] [H2 E2]. split; [by etrans|congruence].
Qed.

#[global] Instance Forall2_preorder {A} (R : relation A) : PreOrder R → PreOrder (Forall2 R).
Proof. intros HR. split; apply _. Qed.

Lemma resized_with_chunk r n : resized r (with_chunk_size r n).
Proof. split; [apply rechunked_with_chunk|done]. Qed.

(** What a chunking policy does to a list of requests within a capacity:
    only chunk sizes change, chunks end at boundaries and their compute fits. *)
Record chunked_within (boundary : LlmRequest → Prop) (capacity : option Z)
    (rs rs' : list LlmRequest) : Prop := {
  cw_same : Forall2 resized rs rs';
  cw_ok : Forall ctx_ok rs';
  cw_boundary : Forall boundary rs';
  cw_capacity : ∀ c, capacity = Some c → zsum (ctx_compute <$> rs') ≤ c;
}.

(** Run the binds whose computations have been rewritten to values. *)
Ltac run := cbn beta iota zeta delta [mbind result_bind mret result_ret].

Section policies.
Context (self : PyMicroBatchScheduler) (unit_size : Z).
Context (unit_pos : 0 < unit_size).

(** *** Equal progress *)

(** The size one more unit would give. *)
Definition next_size (r : LlmRequest) : Z :=
  Z.min (chunk_size_field r + unit_size) (context_remaining_length r).

(** The request cannot take another unit within the budgets. *)
Definition stuck (capacity : option Z) (n : Z) (r : LlmRequest) : Prop :=
  chunk_size_field r = context_remaining_length r ∨
  exceeds capacity (n + (ctx_compute (with_chunk_size r (next_size r)) - ctx_compute r)) = true ∨
  exceeds (max_context_length self) (next_size r) = true.

Lemma next_size_bounds r :
  ctx_ok r → chunk_size_field r ≤ next_size r ≤ context_remaining_length r.
Proof. intros [_ _ ?]. unfold next_size. lia. Qed.

Lemma next_size_boundary r :
  ctx_ok r → unit_boundary unit_size r →
  unit_boundary unit_size (with_chunk_size r (next_size r)).
Proof.
  intros [_ _ Hc] Hb. unfold unit_boundary in *. cbn [chunk_size_field with_chunk_size].
  change (context_remaining_length (with_chunk_size _ _)) with (context_remaining_length r).
  unfold next_size.
  destruct (Z.le_gt_cases (context_remaining_length r) (chunk_size_field r + unit_size));
    [left; lia|].
  destruct Hb as [Hb|Hb]; [lia|]. right. rewrite Z.min_l by lia.
  apply Z.divide_add_r; [done|reflexivity].
Qed.

(** Undoing a tentative size gives the request back. *)
Lemma revert_chunk r n :
  ctx_ok r → 0 ≤ n ≤ context_remaining_length r →
  set_context_chunk_size (with_chunk_size r n) (chunk_size_field r) = Ok r.
Proof.
  intros Hr Hn. pose proof (ctx_chunk r Hr).
  rewrite set_chunk by (eauto with trtllm || lia).
  change (context_remaining_length (with_chunk_size r n)) with (context_remaining_length r).
  by rewrite Z.min_l, with_chunk_twice, with_chunk_same by lia.
Qed.

Lemma equal_progress_step_spec capacity r n s :
  ctx_ok r →
  ∃ r', equal_progress_step self capacity unit_size r n s =
          Ok (r', n + (ctx_compute r' - ctx_compute r),
              s + (chunk_size_field r' - chunk_size_field r)) ∧
    (r' = r ∧ stuck capacity n r ∨
     r' = with_chunk_size r (next_size r) ∧
     exceeds capacity (n + (ctx_compute r' - ctx_compute r)) = false).
Proof.
  intros Hr. pose proof (ctx_chunk r Hr) as Hc. pose proof (next_size_bounds r Hr) as Hn.
  unfold equal_progress_step. rewrite get_chunk by done. run. fold (next_size r).
  rewrite set_chunk by (done || lia). rewrite (Z.min_l (next_size r)) by lia. run.
  set (r1 := with_chunk_size r (next_size r)).
  rewrite (get_chunk r1) by (apply ctx_ok_with_chunk; [done|lia]). run.
  change (context_remaining_length r1) with (context_remaining_length r).
  change (first_chunk_reusable r1) with (first_chunk_reusable r).
  change (chunk_size_field r1) with (next_size r).
  rewrite !reuse_adjusted_min by lia. fold (ctx_compute r).
  change (reuse_adjusted_compute (next_size r) _ _) with (ctx_compute r1).
  assert (Hrev : set_context_chunk_size r1 (chunk_size_field r) = Ok r)
    by (apply revert_chunk; [done|lia]).
  rewrite !Hrev. run.
  destruct (exceeds capacity _) eqn:Hcap;
    [|destruct (exceeds (max_context_length self) _) eqn:Hmax].
  - exists r. rewrite !Z.sub_diag, !Z.add_0_r. split; [done|]. left. split; [done|]. right; by left.
  - exists r. rewrite !Z.sub_diag, !Z.add_0_r. split; [done|]. left. split; [done|]. right; by right.
  - exists r1. split; [done|]. by right.
Qed.

Lemma equal_progress_step_effect capacity r n s :
  ctx_ok r → unit_boundary unit_size r → (∀ c, capacity = Some c → n ≤ c) →
  ∃ r', equal_progress_step self capacity unit_size r n s =
          Ok (r', n + (ctx_compute r' - ctx_compute r),
              s + (chunk_size_field r' - chunk_size_field r)) ∧
    resized r r' ∧ ctx_ok r' ∧ unit_boundary unit_size r' ∧
    chunk_size_field r ≤ chunk_size_field r' ∧
    (∀ c, capacity = Some c → n + (ctx_compute r' - ctx_compute r) ≤ c) ∧
    (chunk_size_field r' = chunk_size_field r → r' = r ∧ stuck capacity n r).
Proof.
  intros Hr Hb Hcap. pose proof (ctx_chunk r Hr) as Hc. pose proof (next_size_bounds r Hr) as Hn.
  destruct (equal_progress_step_spec capacity r n s Hr) as (r' & Hstep & Hcase).
  exists r'. split; [done|]. destruct Hcase as [[-> Hst]|[-> Hex]].
  - split_and!; try done. intros c Hc'. specialize (Hcap c Hc'). lia.
  - split_and!; [apply resized_with_chunk|apply ctx_ok_with_chunk; [done|lia]
      |by apply next_size_boundary|simpl; lia| |].
    + intros c ->. simpl in Hex. lia.
    + cbn [chunk_size_field with_chunk_size]. intros Heq. rewrite Heq, with_chunk_same.
      split; [done|]. left. unfold next_size in Heq. lia.
Qed.

Lemma equal_progress_pass_spec capacity rs n s :
  Forall ctx_ok rs → Forall (unit_boundary unit_size) rs →
  (∀ c, capacity = Some c → n ≤ c) →
  ∃ rs', equal_progress_pass self capacity unit_size rs n s =
           Ok (rs', n + (zsum (ctx_compute <$> rs') - zsum (ctx_compute <$> rs)),
               s + (zsum (chunk_size_field <$> rs') - zsum (chunk_size_field <$> rs))) ∧
    Forall2 resized rs rs' ∧ Forall ctx_ok rs' ∧ Forall (unit_boundary unit_size) rs' ∧
    zsum (chunk_size_field <$> rs) ≤ zsum (chunk_size_field <$> rs') ∧
    (∀ c, capacity = Some c → n + (zsum (ctx_compute <$> rs') - zsum (ctx_compute <$> rs)) ≤ c) ∧
    (zsum (chunk_size_field <$> rs') = zsum (chunk_size_field <$> rs) →
     rs' = rs ∧ Forall (stuck capacity n) rs).
Proof.
  intros Hok Hbd. revert n s. induction rs as [|r rs IH]; intros n s Hn.
  { exists []. simpl. rewrite !Z.sub_diag, !Z.add_0_r. split_and!; try constructor; try done. }
  apply Forall_cons in Hok as [Hr Hok]. apply Forall_cons in Hbd as [Hb Hbd].
  destruct (equal_progress_step_effect capacity r n s Hr Hb Hn)
    as (r' & Hstep & Hres & Hr' & Hb' & Hle & Hcap & Hstk).
  destruct (IH Hok Hbd _ (s + (chunk_size_field r' - chunk_size_field r)) Hcap)
    as (rs' & Hpass & Hres' & Hok' & Hbd' & Hle' & Hcap' & Hstk').
  exists (r' :: rs'). cbn [equal_progress_pass]. rewrite Hstep. run. rewrite Hpass. run.
  rewrite !fmap_cons, !zsum_cons. split_and!; try (by constructor).
  - do 2 f_equal; [f_equal|]; lia.
  - lia.
  - intros c Hc. specialize (Hcap' c Hc). lia.
  - intros Heq. destruct Hstk as [-> Hst]; [lia|]. destruct Hstk' as [-> Hsts]; [lia|].
    rewrite Z.sub_diag, Z.add_0_r in Hsts. by split; [|constructor].
Qed.

Lemma chunk_sum_le rs :
  Forall ctx_ok rs →
  0 ≤ zsum (chunk_size_field <$> rs) ≤ zsum (context_remaining_length <$> rs).
Proof.
  induction 1 as [|r rs [_ _ ?] _ IH]; [done|]. rewrite !fmap_cons, !zsum_cons. lia.
Qed.

Lemma remaining_sum_resized rs rs' :
  Forall2 resized rs rs' →
  zsum (context_remaining_length <$> rs') = zsum (context_remaining_length <$> rs).
Proof.
  induction 1 as [|r r' rs rs' [H _] _ IH]; [done|].
  by rewrite !fmap_cons, !zsum_cons, IH, (rechunked_remaining r r').
Qed.

(** The loop ends within the fuel, with the budget spent or no request able
    to grow. *)
Lemma equal_progress_loop_spec fuel capacity rs n s :
  Forall ctx_ok rs → Forall (unit_boundary unit_size) rs →
  n = zsum (ctx_compute <$> rs) → (∀ c, capacity = Some c → n ≤ c) →
  (s = 0 → Forall (stuck capacity n) rs) →
  zsum (context_remaining_length <$> rs) - zsum (chunk_size_field <$> rs) < Z.of_nat fuel ∨ s = 0 →
  0 ≤ s →
  ∃ rs', equal_progress_loop self fuel capacity unit_size rs n s = Ok rs' ∧
    chunked_within (unit_boundary unit_size) capacity rs rs' ∧
    (capacity = Some (zsum (ctx_compute <$> rs')) ∨
     Forall (stuck capacity (zsum (ctx_compute <$> rs'))) rs').
Proof.
  revert rs n s. induction fuel as [|fuel IH]; intros rs n s Hok Hbd Hn Hcap Hs Hf Hs0;
    pose proof (chunk_sum_le rs Hok) as Hsum; cbn [equal_progress_loop];
    destruct (match capacity with Some c => n <? c | None => true end && (0 <? s)) eqn:Hcond.
  - apply andb_prop in Hcond as [_ ?]. lia.
  - exists rs. split; [done|]. split; [split; try done; subst n; done|].
    apply andb_false_iff in Hcond as [Hc|Hc]; [|right; subst n; apply Hs; lia].
    destruct capacity as [c|]; [|done]. specialize (Hcap c eq_refl). left. f_equal. lia.
  - destruct (equal_progress_pass_spec capacity rs n 0 Hok Hbd Hcap)
      as (rs1 & Hpass & Hres & Hok1 & Hbd1 & Hle & Hcap1 & Hstk).
    rewrite Hpass. run. rewrite Z.add_0_l.
    destruct (IH rs1 (n + (zsum (ctx_compute <$> rs1) - zsum (ctx_compute <$> rs)))
      (zsum (chunk_size_field <$> rs1) - zsum (chunk_size_field <$> rs)))
      as (rs' & Hloop & [Hsame Hok' Hbd' Hc'] & Hend); try done; try lia.
    + intros Heq. destruct Hstk as [-> Hst]; [lia|]. by rewrite Z.sub_diag, Z.add_0_r.
    + pose proof (remaining_sum_resized rs rs1 Hres). apply andb_prop in Hcond as [_ ?]. lia.
    + exists rs'. split; [done|]. split; [|done]. split; try done.
      by etrans.
  - exists rs. split; [done|]. split; [split; try done; subst n; done|].
    apply andb_false_iff in Hcond as [Hc|Hc]; [|right; subst n; apply Hs; lia].
    destruct capacity as [c|]; [|done]. specialize (Hcap c eq_refl). left. f_equal. lia.
Qed.

(** All chunk sizes zero, as at the start of a policy. *)
Definition zeroed (rs : list LlmRequest) : Prop :=
  Forall (λ r, ctx_ok r ∧ chunk_size_field r = 0) rs.

Lemma zeroed_ok rs : zeroed rs → Forall ctx_ok rs.
Proof. intros H. by apply (Forall_impl _ _ _ H); intros r []. Qed.

Lemma zeroed_compute rs : zeroed rs → zsum (ctx_compute <$> rs) = 0.
Proof.
  induction 1 as [|r rs [Hr Hz] _ IH]; [done|]. rewrite fmap_cons, zsum_cons, IH.
  unfold ctx_compute. rewrite Hz, reuse_adjusted_zero; [done|].
  destruct Hr as [_ Hwf _]. eauto with trtllm.
Qed.

Lemma chunk_equal_progress_spec rs capacity :
  zeroed rs → (∀ c, capacity = Some c → 0 ≤ c) →
  ∃ rs', chunk_equal_progress self rs capacity unit_size = Ok rs' ∧
    chunked_within (unit_boundary unit_size) capacity rs rs' ∧
    (capacity = Some (zsum (ctx_compute <$> rs')) ∨
     Forall (stuck capacity (zsum (ctx_compute <$> rs'))) rs').
Proof.
  intros Hz Hcap. pose proof (zeroed_ok rs Hz) as Hok. unfold chunk_equal_progress.
  apply equal_progress_loop_spec; try done; try lia.
  - apply (Forall_impl _ _ _ Hz). intros r [_ H]. right. rewrite H. apply Z.divide_0_r.
  - by rewrite zeroed_compute.
  - left. unfold equal_progress_fuel. pose proof (chunk_sum_le rs Hok). lia.
Qed.

(** *** First come, first served *)

Lemma round_down_boundary x r :
  x / unit_size * unit_size ≤ context_remaining_length r →
  unit_boundary unit_size
    (with_chunk_size r (Z.min (x / unit_size * unit_size) (context_remaining_length r))).
Proof. intros. right. simpl. rewrite Z.min_l by lia. apply Z.divide_factor_r. Qed.

(** One request gets what the budgets leave, and no more. *)
Lemma fcfs_step_spec r cap :
  ctx_ok r → (∀ m, max_context_length self = Some m → 0 ≤ m) →
  (∀ c, cap = Some c → 0 ≤ c) →
  ∃ r', fcfs_step self unit_size r cap = Ok (r', (λ c, c - ctx_compute r') <$> cap) ∧
    resized r r' ∧ ctx_ok r' ∧ unit_boundary unit_size r' ∧
    (∀ c, cap = Some c → ctx_compute r' ≤ c).
Proof.
  intros Hr Hm Hcap. pose proof (request_wf_remaining r (ctx_wf r Hr)) as Hrem.
  unfold fcfs_step. run.
  set (P := context_remaining_length r) in *. set (u := Z.min (first_chunk_reusable r) P).
  set (a0 := match cap with Some c => _ | None => P end).
  assert (Ha0 : 0 ≤ a0 ≤ P ∧ ∀ c, cap = Some c → reuse_adjusted_compute a0 u P ≤ c).
  { unfold a0. destruct cap as [c|]; [|by split; [lia|]]. specialize (Hcap c eq_refl).
    pose proof (reuse_adjusted_bounds P u P ltac:(lia)).
    destruct (c <? reuse_adjusted_compute P u P) eqn:E; (split; [lia|]); intros c' [= ->]; [|lia].
    pose proof (reuse_adjusted_bounds c' u P ltac:(lia)). lia. }
  set (a1 := match max_context_length self with Some m => _ | None => a0 end).
  assert (Ha1 : 0 ≤ a1 ≤ a0).
  { unfold a1. destruct (max_context_length self) as [m|]; [|lia]. specialize (Hm m eq_refl).
    destruct (m <? reuse_adjusted_compute a0 u P) eqn:E; [|lia].
    pose proof (reuse_adjusted_bounds a0 u P ltac:(lia)). lia. }
  set (a2 := if a1 <? P then _ else _).
  assert (Ha2 : ∃ a, a2 = Ok a ∧ 0 ≤ a ≤ a1 ∧ (a = P ∨ (unit_size | a))).
  { unfold a2. destruct (a1 <? P) eqn:E; [|exists a1; split_and!; [done|lia..|left; lia]].
    rewrite (proj2 (Z.eqb_neq unit_size 0)) by lia. eexists; split; [done|].
    split; [by apply round_down_bounds; lia|right; apply Z.divide_factor_r]. }
  destruct Ha2 as (a & -> & Ha & Hbd). run.
  rewrite set_chunk by (done || lia). fold P. rewrite Z.min_l by lia. run.
  assert (Hok : ctx_ok (with_chunk_size r a)) by (apply ctx_ok_with_chunk; [done|lia]).
  rewrite get_chunk by done. run. exists (with_chunk_size r a).
  assert (Hcost : reuse_adjusted_compute (chunk_size_field (with_chunk_size r a)) u P =
                  ctx_compute (with_chunk_size r a)).
  { unfold u. rewrite reuse_adjusted_min by (simpl; lia). done. }
  rewrite Hcost. split_and!; [done|apply resized_with_chunk|done|done|].
  intros c Hc. destruct Ha0 as [? Ha0]. specialize (Ha0 c Hc).
  rewrite <- Hcost. simpl. pose proof (reuse_adjusted_mono a a0 u P). lia.
Qed.

Lemma chunk_fcfs_spec rs cap :
  Forall ctx_ok rs → (∀ m, max_context_length self = Some m → 0 ≤ m) →
  (∀ c, cap = Some c → 0 ≤ c) →
  ∃ rs', chunk_fcfs self rs cap unit_size = Ok rs' ∧
    chunked_within (unit_boundary unit_size) cap rs rs'.
Proof.
  intros Hok Hm. unfold chunk_fcfs. revert cap.
  induction Hok as [|r rs Hr Hok IH]; intros cap Hcap; cbn [fcfs_loop].
  { exists []. split; [done|]. split; try constructor. intros c Hc. by apply Hcap. }
  destruct (fcfs_step_spec r cap Hr Hm Hcap) as (r' & -> & Hres & Hr' & Hb & Hfit). run.
  destruct (IH ((λ c, c - ctx_compute r') <$> cap)) as (rs' & -> & [Hs Ho Hbd Hc]).
  { destruct cap as [c|]; simpl; [|done]. intros ? [= <-]. specialize (Hfit c eq_refl). lia. }
  run. exists (r' :: rs'). split; [done|]. split; try by constructor.
  intros c ->. specialize (Hc _ eq_refl). rewrite fmap_cons, zsum_cons. lia.
Qed.

(** *** Forced chunks *)

Lemma foldr_min_elem (p : Z) ps : foldr Z.min p ps ∈ p :: ps.
Proof.
  induction ps as [|x ps IH]; simpl; [by left|].
  destruct (Z.min_spec x (foldr Z.min p ps)) as [[_ ->]|[_ ->]]; [right; left|].
  apply elem_of_cons in IH as [->|IH]; [by left|by right; right].
Qed.

Lemma forced_size_bounds r :
  request_wf r → 0 ≤ get_forced_context_chunk_size r ≤ context_remaining_length r.
Proof.
  intros [? _ _ _ _]. unfold get_forced_context_chunk_size, context_remaining_length.
  destruct (next_snapshot_point r); lia.
Qed.

Lemma forced_size_boundary r :
  request_wf r →
  get_forced_context_chunk_size r = context_remaining_length r ∨
  context_current_position r + get_forced_context_chunk_size r ∈ expect_snapshot_points r.
Proof.
  intros [? _ _ _ _]. unfold get_forced_context_chunk_size, context_remaining_length.
  destruct (next_snapshot_point r) as [p|] eqn:Hp; [|by left].
  assert (Hin : context_current_position r < p ∧ p ∈ expect_snapshot_points r).
  { revert Hp. unfold next_snapshot_point.
    destruct (filter _ _) as [|q ps] eqn:E; [done|]. intros [= <-].
    pose proof (foldr_min_elem q ps) as Hin. rewrite <- E in Hin.
    by apply list_elem_of_filter in Hin. }
  destruct (Z.le_gt_cases (prompt_len r) p); [left; lia|]. right.
  rewrite Z.min_l, Z.max_r by lia.
  replace (context_current_position r + (p - context_current_position r)) with p by lia.
  apply Hin.
Qed.

Lemma forced_step_spec r cap t :
  ctx_ok r → (∀ m, max_context_length self = Some m → 0 ≤ m) →
  (∀ c, cap = Some c → t ≤ c) →
  ∃ r', forced_step self cap unit_size r t = Ok (r', t + chunk_size_field r') ∧
    resized r r' ∧ ctx_ok r' ∧ snapshot_boundary unit_size r' ∧
    (∀ c, cap = Some c → t + chunk_size_field r' ≤ c).
Proof.
  intros Hr Hm Hcap. pose proof (forced_size_bounds r (ctx_wf r Hr)) as Hf.
  pose proof (forced_size_boundary r (ctx_wf r Hr)) as Hfb.
  unfold forced_step. run. rewrite (proj2 (Z.eqb_neq unit_size 0)) by lia.
  set (P := context_remaining_length r) in *. set (f := get_forced_context_chunk_size r) in *.
  set (k1 := match max_context_length self with Some _ => _ | None => _ end).
  assert (H1 : ∃ a, k1 = Ok a ∧ 0 ≤ a ≤ P ∧ (a = f ∨ (unit_size | a))).
  { unfold k1. destruct (max_context_length self) as [m|]; [|exists f; split_and!; done || lia || by left].
    specialize (Hm m eq_refl). destruct (m <? f) eqn:E; [|exists f; split_and!; done || lia || by left].
    pose proof (round_down_bounds m unit_size unit_pos Hm).
    eexists; split_and!; [done|lia..|]. right. apply Z.divide_factor_r. }
  destruct H1 as (a & -> & Ha & Hab). run.
  set (k2 := match cap with Some _ => _ | None => _ end).
  assert (H2 : ∃ b, k2 = Ok b ∧ 0 ≤ b ≤ P ∧ (b = f ∨ (unit_size | b)) ∧
                    ∀ c, cap = Some c → t + b ≤ c).
  { unfold k2. destruct cap as [c|]; [|exists a; split_and!; try lia; done].
    specialize (Hcap c eq_refl).
    destruct (c <? t + a) eqn:E; [|exists a; split_and!; try done; try lia; intros ? [= <-]; lia].
    pose proof (round_down_bounds (Z.min a (Z.max 0 (c - t))) unit_size unit_pos ltac:(lia)).
    eexists; split_and!; [done|lia..| |].
    - right. apply Z.divide_factor_r.
    - intros ? [= <-]. lia. }
  destruct H2 as (b & -> & Hb & Hbb & Hbc). run.
  rewrite set_chunk by (done || lia). fold P. rewrite Z.min_l by lia. run.
  assert (Hok : ctx_ok (with_chunk_size r b)) by (apply ctx_ok_with_chunk; done).
  rewrite get_chunk by done. run. exists (with_chunk_size r b).
  split_and!; [done|apply resized_with_chunk|done| |done].
  destruct Hbb as [->|Hbb]; [|by left; right].
  destruct Hfb as [Hfb|Hfb]; [by left; left|by right].
Qed.

Lemma chunk_compute_sum_le rs :
  Forall ctx_ok rs → zsum (ctx_compute <$> rs) ≤ zsum (chunk_size_field <$> rs).
Proof.
  intros Hok. apply zsum_le. intros r Hr. rewrite Forall_forall in Hok.
  apply ctx_compute_bounds. by apply Hok.
Qed.

Lemma forced_loop_spec rs cap t :
  Forall ctx_ok rs → (∀ m, max_context_length self = Some m → 0 ≤ m) →
  (∀ c, cap = Some c → t ≤ c) →
  ∃ rs', forced_loop self cap unit_size rs t = Ok (rs', t + zsum (chunk_size_field <$> rs')) ∧
    Forall2 resized rs rs' ∧ Forall ctx_ok rs' ∧ Forall (snapshot_boundary unit_size) rs' ∧
    (∀ c, cap = Some c → t + zsum (chunk_size_field <$> rs') ≤ c).
Proof.
  intros Hok Hm. revert t. induction Hok as [|r rs Hr Hok IH]; intros t Hcap; cbn [forced_loop].
  { exists []. split_and!; try constructor; [by rewrite fmap_nil, zsum_nil, Z.add_0_r|].
    intros c Hc. specialize (Hcap c Hc). rewrite fmap_nil, zsum_nil. lia. }
  destruct (forced_step_spec r cap t Hr Hm Hcap) as (r' & -> & Hres & Hr' & Hb & Hfit). run.
  destruct (IH _ Hfit) as (rs' & -> & Hs & Ho & Hbd & Hc). run.
  exists (r' :: rs'). rewrite fmap_cons, zsum_cons, Z.add_assoc. split_and!; by try constructor.
Qed.

Lemma chunk_forced_spec rs cap :
  Forall ctx_ok rs → (∀ m, max_context_length self = Some m → unit_size ≤ m) →
  (∀ c, cap = Some c → 0 ≤ c) →
  ∃ rs', chunk_forced self rs cap unit_size = Ok rs' ∧
    chunked_within (snapshot_boundary unit_size) cap rs rs'.
Proof.
  intros Hok Hm Hcap. unfold chunk_forced.
  assert (Hlim : match max_context_length self with Some m => m <? unit_size | None => false end
                 = false).
  { destruct (max_context_length self) as [m|]; [|done]. specialize (Hm m eq_refl). lia. }
  rewrite Hlim. destruct (forced_loop_spec rs cap 0 Hok) as (rs' & -> & Hs & Ho & Hbd & Hc); [|done|].
  { intros m E. specialize (Hm m E). lia. }
  run. rewrite Z.add_0_l in *.
  assert (exceeds cap (zsum (chunk_size_field <$> rs')) = false) as ->.
  { destruct cap as [c|]; [|done]. specialize (Hc c eq_refl). simpl. lia. }
  run. exists rs'. split; [done|]. split; try done.
  intros c E. specialize (Hc c E). pose proof (chunk_compute_sum_le rs' Ho). lia.
Qed.
End policies.

(** *** Draft tokens *)

Lemma map_result_ok {A B} (f : A → result B) (g : A → B) l :
  (∀ x, x ∈ l → f x = Ok (g x)) → map_result f l = Ok (g <$> l).
Proof.
  induction l as [|x l IH]; intros H; [done|]. cbn [map_result].
  rewrite (H x) by left. run. rewrite IH; [done|]. intros y Hy. apply H. by right.
Qed.

Lemma map_result_ctx {B} (f : LlmRequest → result B) (g : LlmRequest → B) rs :
  Forall ctx_ok rs → (∀ r, ctx_ok r → f r = Ok (g r)) → map_result f rs = Ok (g <$> rs).
Proof. intros Hok H. apply map_result_ok. rewrite Forall_forall in Hok. eauto. Qed.

(** The draft tokens kept with a last chunk stay inside its last unit. *)
Definition drafts_in_unit (unit_size : Z) (r : LlmRequest) : Prop :=
  ctx_last r = true → num_draft_tokens r ≤ (- chunk_size_field r) `mod` unit_size.

Lemma neg_mod_space c u :
  0 < u → (if c `mod` u =? 0 then 0 else u - c `mod` u) = (- c) `mod` u.
Proof.
  intros Hu. destruct (c `mod` u =? 0) eqn:E.
  - rewrite Z.mod_opp_l_z; lia.
  - rewrite Z.mod_opp_l_nz; lia.
Qed.

Lemma fit_draft_step_spec self u cap r n :
  0 < u → ctx_ok r →
  ∃ r' n', fit_draft_step self cap u r n = Ok (r', n') ∧
    rechunked r r' ∧ ctx_ok r' ∧ chunk_size_field r' = chunk_size_field r ∧
    drafts_in_unit u r' ∧
    (∀ c, cap = Some c → n ≤ c → n' = n + ctx_drafts r' ∧ n' ≤ c).
Proof.
  intros Hu Hr. destruct (ctx_wf r Hr) as [Hpos Hre Hd He Hb].
  unfold fit_draft_step. rewrite get_last by done. run.
  destruct (ctx_last r && has_draft_tokens r) eqn:Hlast.
  2:{ exists r, n. split; [done|].
      assert (Hz : ctx_last r = true → num_draft_tokens r = 0).
      { intros E. rewrite E in Hlast. unfold has_draft_tokens in Hlast. simpl in Hlast. lia. }
      split_and!; try done.
      - intros E. rewrite Hz by done. pose proof (Z.mod_pos_bound (- chunk_size_field r) u Hu). lia.
      - intros c _ Hn. unfold ctx_drafts. destruct (ctx_last r); [rewrite Hz by done|]; lia. }
  apply andb_prop in Hlast as [Hlast _].
  rewrite get_chunk by done. run. rewrite (proj2 (Z.eqb_neq u 0)) by lia. rewrite neg_mod_space by done.
  set (sp := (- chunk_size_field r) `mod` u).
  assert (0 ≤ sp) by (by apply Z.mod_pos_bound).
  set (room := match max_context_length self with Some m => _ | None => sp end).
  assert (room ≤ sp) by (unfold room; destruct (max_context_length self); lia).
  set (k := Z.min (num_draft_tokens r) (Z.max 0 room)).
  set (k' := match cap with Some c => Z.max 0 (Z.min k (c - n)) | None => k end).
  assert (0 ≤ k' ≤ num_draft_tokens r ∧ k' ≤ sp) by (unfold k', k; destruct cap; lia).
  set (n' := match cap with Some c => n + k' | None => n end).
  replace (match cap with Some c => _ | None => (k, n) end) with (k', n')
    by (unfold n', k'; by destruct cap).
  exists (with_num_draft_tokens r k'), n'.
  assert (Hok : ctx_ok (with_num_draft_tokens r k')).
  { destruct Hr as [? _ ?]. split; [done| |done]. split; simpl; done || lia. }
  split.
  { destruct (0 <? num_draft_tokens r - k') eqn:E.
    - unfold discard_draft_tokens.
      rewrite (proj2 (Z.leb_gt (num_draft_tokens r - k') 0)) by lia.
      rewrite (proj2 (Z.ltb_ge (num_draft_tokens r) (num_draft_tokens r - k'))) by lia. run.
      by replace (num_draft_tokens r - (num_draft_tokens r - k')) with k' by lia.
    - assert (k' = num_draft_tokens r) as -> by lia. by destruct r. }
  split_and!; [split; [by destruct r|simpl; lia]|done|done| |].
  - intros _. simpl. tauto.
  - intros c Hc Hn. unfold ctx_drafts.
    change (ctx_last (with_num_draft_tokens r k')) with (ctx_last r). rewrite Hlast. simpl.
    unfold n', k' in *. rewrite Hc in *. lia.
Qed.

Lemma fit_draft_loop_spec self u cap rs n :
  0 < u → Forall ctx_ok rs →
  ∃ rs', fit_draft_loop self cap u rs n = Ok rs' ∧
    Forall2 (λ r r', rechunked r r' ∧ chunk_size_field r' = chunk_size_field r) rs rs' ∧
    Forall ctx_ok rs' ∧ Forall (drafts_in_unit u) rs' ∧
    (∀ c, cap = Some c → n ≤ c → n + zsum (ctx_drafts <$> rs') ≤ c).
Proof.
  intros Hu Hok. revert n. induction Hok as [|r rs Hr Hok IH]; intros n; cbn [fit_draft_loop].
  { exists []. split_and!; try constructor. intros c _ ?. rewrite fmap_nil, zsum_nil. lia. }
  destruct (fit_draft_step_spec self u cap r n Hu Hr) as (r' & n' & -> & Hre & Hr' & Hch & Hdr & Hc).
  run. destruct (IH n') as (rs' & -> & Hres & Hok' & Hdrs & Hcs). run.
  exists (r' :: rs'). split_and!; try by constructor.
  intros c Ec Hn. destruct (Hc c Ec Hn) as [-> Hle]. specialize (Hcs c Ec Hle).
  rewrite fmap_cons, zsum_cons. lia.
Qed.

Lemma rechunked_compute r r' :
  rechunked r r' → chunk_size_field r' = chunk_size_field r → ctx_compute r' = ctx_compute r.
Proof. intros [E _] Hc. unfold ctx_compute. rewrite Hc. by rewrite E. Qed.

Lemma compute_sum_rechunked rs rs' :
  Forall2 (λ r r', rechunked r r' ∧ chunk_size_field r' = chunk_size_field r) rs rs' →
  zsum (ctx_compute <$> rs') = zsum (ctx_compute <$> rs).
Proof.
  induction 1 as [|r r' rs rs' [H1 H2] _ IH]; [done|].
  by rewrite !fmap_cons, !zsum_cons, IH, (rechunked_compute r r').
Qed.

(** ** [_set_ctx_requests_chunk_size] *)

(** Where the chunks of a policy end. *)
Definition policy_boundary (cfg : ContextChunkingConfig) : LlmRequest → Prop :=
  match chunking_policy cfg with
  | FORCE_CHUNK => snapshot_boundary (chunk_unit_size cfg)
  | _ => unit_boundary (chunk_unit_size cfg)
  end.

Lemma policy_boundary_rechunked cfg r r' :
  rechunked r r' → chunk_size_field r' = chunk_size_field r →
  policy_boundary cfg r → policy_boundary cfg r'.
Proof.
  intros [E _] Hc Hb. unfold policy_boundary, snapshot_boundary, unit_boundary in *.
  rewrite E, Hc. by destruct (chunking_policy cfg).
Qed.

Definition config_ok (self : PyMicroBatchScheduler) : Prop :=
  (∀ m, max_num_tokens self = Some m → 0 ≤ m) ∧
  (∀ cfg, ctx_chunk_config self = Some cfg →
     0 < chunk_unit_size cfg ∧
     (chunking_policy cfg = FORCE_CHUNK →
      ∀ m, max_num_tokens self = Some m → chunk_unit_size cfg ≤ m)).

Lemma set_chunk_zero rs :
  Forall ctx_ok rs →
  ∃ rs', map_result (λ r, set_context_chunk_size r 0) rs = Ok rs' ∧ zeroed rs' ∧
    Forall2 resized rs rs'.
Proof.
  intros Hok. exists ((λ r, with_chunk_size r 0) <$> rs). split_and!.
  - apply map_result_ctx; [done|]. intros r Hr. rewrite set_chunk by (done || lia).
    destruct Hr as [_ Hwf _]. apply request_wf_remaining in Hwf. by rewrite Z.min_l.
  - apply Forall_fmap. apply (Forall_impl _ _ _ Hok). intros r Hr. split; [|done].
    apply ctx_ok_with_chunk; [done|]. destruct Hr as [_ Hwf _].
    apply request_wf_remaining in Hwf. lia.
  - apply Forall2_fmap_r. clear. induction rs; constructor; [apply resized_with_chunk|done].
Qed.

Lemma policy_spec self cfg rs cap :
  config_ok self → ctx_chunk_config self = Some cfg → zeroed rs →
  (∀ c, cap = Some c → 0 ≤ c) →
  ∃ rs', match chunking_policy cfg with
         | EQUAL_PROGRESS => chunk_equal_progress self rs cap (chunk_unit_size cfg)
         | FIRST_COME_FIRST_SERVED => chunk_fcfs self rs cap (chunk_unit_size cfg)
         | FORCE_CHUNK => chunk_forced self rs cap (chunk_unit_size cfg)
         end = Ok rs' ∧ chunked_within (policy_boundary cfg) cap rs rs'.
Proof.
  intros [Hm Hcfg] Ecfg Hz Hcap. destruct (Hcfg cfg Ecfg) as [Hu Hf]. unfold policy_boundary.
  pose proof (zeroed_ok rs Hz). destruct (chunking_policy cfg).
  - destruct (chunk_equal_progress_spec self _ Hu rs cap Hz Hcap) as (rs' & ? & ? & _). eauto.
  - by apply chunk_fcfs_spec.
  - apply chunk_forced_spec; try done. intros m E. by apply Hf.
Qed.

(** Chunk sizes and draft tokens after the whole stage. *)
Record chunk_stage (cfg : ContextChunkingConfig) (capacity : option Z)
    (rs rs' : list LlmRequest) : Prop := {
  cs_same : Forall2 rechunked rs rs';
  cs_ok : Forall ctx_ok rs';
  cs_boundary : Forall (policy_boundary cfg) rs';
  cs_drafts : Forall (drafts_in_unit (chunk_unit_size cfg)) rs';
  cs_capacity : ∀ c, capacity = Some c →
    zsum (ctx_compute <$> rs') + zsum (ctx_drafts <$> rs') ≤ c;
}.

Lemma set_ctx_requests_chunk_size_spec self cfg rs cap :
  config_ok self → ctx_chunk_config self = Some cfg → Forall ctx_ok rs →
  (∀ c, cap = Some c → 0 ≤ c) →
  ∃ rs', set_ctx_requests_chunk_size self cfg rs cap = Ok rs' ∧ chunk_stage cfg cap rs rs'.
Proof.
  intros Hcfg Ecfg Hok Hcap. unfold set_ctx_requests_chunk_size.
  destruct (set_chunk_zero rs Hok) as (rs0 & -> & Hz & Hr0). run.
  destruct (policy_spec self cfg rs0 cap Hcfg Ecfg Hz Hcap) as (rs1 & -> & [Hr1 Hok1 Hb1 Hc1]). run.
  unfold fit_draft_tokens.
  rewrite (map_result_ctx _ ctx_compute rs1 Hok1).
  2:{ intros r Hr. unfold chunk_compute. rewrite get_chunk by done. run.
      rewrite reuse_adjusted_min; [done|apply Hr]. }
  run. destruct (proj2 Hcfg cfg Ecfg) as [Hu _].
  destruct (fit_draft_loop_spec self _ cap rs1 (zsum (ctx_compute <$> rs1)) Hu Hok1)
    as (rs2 & -> & Hr2 & Hok2 & Hd2 & Hc2).
  exists rs2. split; [done|]. split; try done.
  - trans rs1.
    + trans rs0; eapply Forall2_impl; eauto; intros ?? []; done.
    + eapply Forall2_impl; eauto; intros ?? []; done.
  - clear -Hb1 Hr2. induction Hr2 as [|r r' rs rs' [] _ IH]; inversion Hb1; subst; constructor.
    + by eapply policy_boundary_rechunked.
    + by apply IH.
  - intros c Ec. rewrite (compute_sum_rechunked rs1 rs2 Hr2). by apply Hc2, Hc1.
Qed.

(** ** The main loop *)

Lemma state_value_encoder r :
  (state_value r =? state_to_value ENCODER_INIT) = true ↔ state r = ENCODER_INIT.
Proof. unfold state_value. destruct (state r); simpl; naive_solver. Qed.

Lemma state_value_context r :
  (state_value r =? state_to_value CONTEXT_INIT) = true ↔ state r = CONTEXT_INIT.
Proof. unfold state_value. destruct (state r); simpl; naive_solver. Qed.

(** Tokens of compute a scheduled context request is charged for. *)
Definition context_tokens (self : PyMicroBatchScheduler) (r : LlmRequest) : Z :=
  match ctx_chunk_config self with
  | None => full_context_compute r
  | Some _ => ctx_compute r + ctx_drafts r
  end.

(** The requests [schedule] accepts without an assertion failing: a single
    encoder input, or a single unchunked prompt, fits the token limit. *)
Definition request_limits (self : PyMicroBatchScheduler) (r : LlmRequest) : Prop :=
  request_wf r ∧
  (state r = ENCODER_INIT → exceeds (max_num_tokens self) (encoder_output_len r) = false) ∧
  (state r = CONTEXT_INIT → ctx_chunk_config self = None →
   exceeds (max_num_tokens self) (full_context_compute r) = false).

Section loop.
Context (self : PyMicroBatchScheduler) (inflight : gset Z).
Context (cfg_ok : config_ok self).

Definition scheduled_ids (s : mb_state) : list Z :=
  request_id <$> encoder_requests s ++ context_requests s ++ contexts_to_be_chunked s ++
    generation_requests s.

(** The invariant of the main loop, after the requests [seen]. *)
Record mb_inv (seen : list LlmRequest) (s : mb_state) : Prop := {
  inv_ids : scheduled_ids s ⊆+ request_id <$> filter (λ r, mb_eligible self inflight r = true) seen;
  inv_enc : Forall (λ r, state r = ENCODER_INIT) (encoder_requests s);
  inv_gen : Forall (λ r, state r ≠ ENCODER_INIT ∧ state r ≠ CONTEXT_INIT ∧
    beam_width_by_iter r = scheduled_beam_width s) (generation_requests s);
  inv_beam : scheduled_beam_width s = 0 → generation_requests s = [];
  inv_ctx : Forall (λ r, state r = CONTEXT_INIT) (context_requests s);
  inv_chunk : Forall (λ r, ctx_ok r ∧ chunk_size_field r = context_remaining_length r)
    (contexts_to_be_chunked s);
  inv_tokens : batch_num_tokens s =
    zsum (encoder_output_len <$> encoder_requests s) +
    zsum (full_context_compute <$> context_requests s) +
    zsum (generation_tokens <$> generation_requests s);
  inv_budget : exceeds (max_num_tokens self) (batch_num_tokens s) = false;
  inv_size : scheduled_req_size s = Z.of_nat (length (scheduled_ids s));
  inv_fit : all_context_requests_fit s = true →
    num_chunked_compute_tokens s =
    zsum ((λ r, ctx_compute r + ctx_drafts r) <$> contexts_to_be_chunked s);
  inv_mode : match ctx_chunk_config self with
    | Some _ => context_requests s = []
    | None => contexts_to_be_chunked s = [] ∧ all_context_requests_fit s = true
    end;
}.

Lemma mb_inv_init : mb_inv [] mb_init.
Proof.
  split; try constructor; try done.
  - destruct cfg_ok as [Hm _]. destruct (max_num_tokens self) as [m|] eqn:E; simpl; [|done].
    specialize (Hm m eq_refl). lia.
  - by destruct (ctx_chunk_config self).
Qed.

Lemma mb_inv_skip seen r s : mb_inv seen s → mb_inv (seen ++ [r]) s.
Proof.
  intros [Hids]. split; try done. rewrite filter_app, fmap_app. by apply submseteq_inserts_r.
Qed.

Lemma mb_inv_skip_all seen l s : mb_inv seen s → mb_inv (seen ++ l) s.
Proof.
  intros Hinv. induction l as [|x l IH] using rev_ind; [by rewrite app_nil_r|].
  rewrite (assoc_L (++)). by apply mb_inv_skip.
Qed.

(** Taking [r] adds its id to the scheduled ones. *)
Lemma ids_take seen r ids ids' :
  mb_eligible self inflight r = true →
  ids ⊆+ request_id <$> filter (λ r, mb_eligible self inflight r = true) seen →
  ids' ≡ₚ request_id r :: ids →
  ids' ⊆+ request_id <$> filter (λ r, mb_eligible self inflight r = true) (seen ++ [r]).
Proof.
  intros He Hids ->. rewrite filter_app, fmap_app, filter_cons, decide_True by done.
  rewrite Permutation_app_comm. simpl. by apply submseteq_skip.
Qed.

(** What one iteration does to the invariant. *)
Definition mb_flow_ok (seen : list LlmRequest) (s : mb_state) (flow : mb_flow) : Prop :=
  match flow with
  | Continue s' | Break s' => s' = s
  | Scheduled s' => mb_inv seen (mb_bump s') ∧ scheduled_req_size s' = scheduled_req_size s
  end.

Lemma scheduled_ids_length s : length (scheduled_ids s) =
  (length (encoder_requests s) + (length (context_requests s) +
   (length (contexts_to_be_chunked s) + length (generation_requests s))))%nat.
Proof. unfold scheduled_ids. by rewrite length_fmap, !length_app. Qed.

Lemma zsum_fmap_snoc {A} (f : A → Z) l x : zsum (f <$> l ++ [x]) = zsum (f <$> l) + f x.
Proof. by rewrite fmap_app, zsum_app, fmap_cons, fmap_nil, zsum_cons, zsum_nil, Z.add_0_r. Qed.

Lemma exceeds_false limit x : exceeds limit x = false ↔ ∀ m, limit = Some m → x ≤ m.
Proof.
  destruct limit as [m|]; simpl; [|naive_solver]. rewrite Z.ltb_ge. naive_solver.
Qed.

Lemma inv_ids_snoc seen s r (e c k g : list LlmRequest) rid :
  mb_inv seen s → mb_eligible self inflight r = true → request_id rid = request_id r →
  e ++ c ++ k ++ g ≡ₚ rid :: encoder_requests s ++ context_requests s ++
    contexts_to_be_chunked s ++ generation_requests s →
  request_id <$> e ++ c ++ k ++ g ⊆+
  request_id <$> filter (λ r, mb_eligible self inflight r = true) (seen ++ [r]).
Proof.
  intros Hinv He Hid Hperm. eapply ids_take; [done|apply Hinv|].
  rewrite Hperm, fmap_cons, Hid. done.
Qed.

Lemma inv_len_snoc seen s (e c k g : list LlmRequest) r :
  mb_inv seen s →
  e ++ c ++ k ++ g ≡ₚ r :: encoder_requests s ++ context_requests s ++
    contexts_to_be_chunked s ++ generation_requests s →
  scheduled_req_size s + 1 = Z.of_nat (length (request_id <$> e ++ c ++ k ++ g)).
Proof.
  intros Hinv Hperm. rewrite (inv_size _ _ Hinv). unfold scheduled_ids.
  rewrite !length_fmap, Hperm. simpl length. lia.
Qed.

Section step.
Context (seen : list LlmRequest) (r : LlmRequest) (s : mb_state).
Context (Hinv : mb_inv seen s) (Hel : mb_eligible self inflight r = true).
Context (Hlim : request_limits self r).

Lemma schedule_encoder_spec :
  state r = ENCODER_INIT →
  ∃ flow, schedule_encoder self r s = Ok flow ∧ mb_flow_ok (seen ++ [r]) s flow.
Proof.
  intros Hst. unfold schedule_encoder. destruct Hlim as (Hwf & Hl & _).
  change (max_context_length self) with (max_num_tokens self). rewrite (Hl Hst). run.
  destruct (exceeds _ (batch_num_tokens s + _)) eqn:Hex; eexists; (split; [done|]); [done|].
  split; [|done].
  pose proof Hinv as [Hids He Hg Hb Hc Hk Ht Hbud Hsz Hfit Hmode]. split; cbn; try done.
  - eapply (inv_ids_snoc seen s r _ _ _ _ r); try done. solve_Permutation.
  - apply Forall_app. by repeat constructor.
  - rewrite zsum_fmap_snoc. lia.
  - unfold scheduled_ids. cbn. eapply (inv_len_snoc seen s _ _ _ _ r); [done|]. solve_Permutation.
Qed.

Lemma schedule_full_context_spec :
  state r = CONTEXT_INIT → ctx_chunk_config self = None →
  ∃ flow, schedule_full_context self r s = Ok flow ∧ mb_flow_ok (seen ++ [r]) s flow.
Proof.
  intros Hst Hcfg. unfold schedule_full_context. destruct Hlim as (Hwf & _ & Hl).
  change (max_context_length self) with (max_num_tokens self). rewrite (Hl Hst Hcfg). run.
  destruct (exceeds _ (batch_num_tokens s + _)) eqn:Hex; eexists; (split; [done|]); [done|].
  split; [|done].
  pose proof Hinv as [Hids He Hg Hb Hc Hk Ht Hbud Hsz Hfit Hmode]. split; cbn; try done.
  - eapply (inv_ids_snoc seen s r _ _ _ _ r); try done. solve_Permutation.
  - apply Forall_app. by repeat constructor.
  - rewrite zsum_fmap_snoc. lia.
  - unfold scheduled_ids. cbn. eapply (inv_len_snoc seen s _ _ _ _ r); [done|]. solve_Permutation.
  - by rewrite Hcfg in *.
Qed.

Lemma schedule_chunked_context_spec cfg :
  state r = CONTEXT_INIT → ctx_chunk_config self = Some cfg →
  ∃ flow, schedule_chunked_context self r s = Ok flow ∧ mb_flow_ok (seen ++ [r]) s flow.
Proof.
  intros Hst Hcfg. unfold schedule_chunked_context. destruct Hlim as (Hwf & _ & _).
  pose proof (request_wf_remaining r Hwf) as Hrem.
  set (r1 := with_chunk_size r (context_remaining_length r)).
  assert (set_context_chunk_size r (context_remaining_length r) = Ok r1) as ->.
  { unfold set_context_chunk_size, chunk_access, is_context_init_state. rewrite Hst. simpl.
    rewrite (proj2 (Z.ltb_ge _ _)) by done. by rewrite Z.min_id. }
  assert (Hr1 : ctx_ok r1).
  { split; [done|by destruct Hwf|]. split; [done|]. unfold r1. simpl. done. }
  run. rewrite get_last, get_chunk by done. run.
  assert (Hd : (if ctx_last r1 && has_draft_tokens r1 then num_draft_tokens r1 else 0) = ctx_drafts r1).
  { unfold ctx_drafts, has_draft_tokens. destruct (ctx_last r1); [|done]. cbn [andb].
    destruct (0 <? num_draft_tokens r1) eqn:E; [done|]. destruct (ctx_wf r1 Hr1). lia. }
  rewrite Hd. change (first_chunk_reusable r) with (first_chunk_reusable r1).
  fold (ctx_compute r1).
  set (k := ctx_compute r1 + ctx_drafts r1).
  set (p := match max_context_length self with Some m => _ | None => _ end).
  assert (Hp : p.2 = true → p.1 = k ∧ all_context_requests_fit s = true).
  { unfold p. destruct (max_context_length self) as [m|]; [|done].
    by destruct (m <? k). }
  destruct p as [k' fit]. eexists. split; [done|]. split; [|done].
  pose proof Hinv as [Hids He Hg Hb Hc Hk Ht Hbud Hsz Hfit Hmode]. split; cbn; try done.
  - eapply (inv_ids_snoc seen s r _ _ _ _ r1); try done. solve_Permutation.
  - apply Forall_app. split; [done|]. apply Forall_singleton. by split.
  - unfold scheduled_ids. cbn. eapply (inv_len_snoc seen s _ _ _ _ r1); [done|]. solve_Permutation.
  - intros ->. destruct (Hp eq_refl) as [Hk' Hf]. rewrite zsum_fmap_snoc, (Hfit Hf).
    simpl in Hk'. fold k. lia.
  - by rewrite Hcfg in *.
Qed.

Lemma schedule_generation_spec :
  state r ≠ ENCODER_INIT → state r ≠ CONTEXT_INIT →
  ∃ flow, schedule_generation self r s = Ok flow ∧ mb_flow_ok (seen ++ [r]) s flow.
Proof.
  intros Hne Hnc. unfold schedule_generation. run. destruct Hlim as ([_ _ _ _ Hbw] & _ & _).
  destruct (exceeds _ (batch_num_tokens s + _)) eqn:Hex; [eexists; by split|].
  destruct (_ && _) eqn:Hbeam; eexists; (split; [done|]); [done|]. split; [|done].
  pose proof Hinv as [Hids He Hg Hb Hc Hk Ht Hbud Hsz Hfit Hmode]. split; cbn; try done.
  - eapply (inv_ids_snoc seen s r _ _ _ _ r); try done. solve_Permutation.
  - destruct (scheduled_beam_width s =? 0) eqn:E.
    + rewrite Hb by lia. repeat constructor; done.
    + simpl in Hbeam. apply negb_false_iff in Hbeam. apply Forall_app. split; [done|].
      repeat constructor; try done. lia.
  - destruct (scheduled_beam_width s =? 0) eqn:E; lia.
  - rewrite zsum_fmap_snoc. lia.
  - unfold scheduled_ids. cbn. eapply (inv_len_snoc seen s _ _ _ _ r); [done|]. solve_Permutation.
Qed.
End step.

Lemma mb_step_spec seen r s :
  mb_inv seen s → request_limits self r →
  ∃ flow, mb_step self inflight r s = Ok flow ∧ mb_flow_ok (seen ++ [r]) s flow.
Proof.
  intros Hinv Hlim. unfold mb_step.
  destruct (mb_eligible self inflight r) eqn:Hel; simpl; [|eexists; by split].
  destruct (state_value r =? 1) eqn:E1.
  { eapply schedule_encoder_spec; eauto. by apply state_value_encoder. }
  destruct (state_value r =? 10) eqn:E2.
  { apply state_value_context in E2. destruct (ctx_chunk_config self) eqn:E.
    - by eapply schedule_chunked_context_spec.
    - by eapply schedule_full_context_spec. }
  apply schedule_generation_spec; try done.
  - intros H%state_value_encoder. simpl in H. congruence.
  - intros H%state_value_context. simpl in H. congruence.
Qed.

(** The loop ends with the invariant, and with at most [max_batch_size]
    requests chosen. *)
Lemma mb_loop_spec active seen s :
  mb_inv seen s → Forall (request_limits self) active →
  scheduled_req_size s < Z.max 1 (max_batch_size self) →
  ∃ s', mb_loop self inflight active s = Ok s' ∧ mb_inv (seen ++ active) s' ∧
    scheduled_req_size s' ≤ Z.max 1 (max_batch_size self).
Proof.
  intros Hinv Hall. revert seen s Hinv. induction Hall as [|r rs Hr Hall IH];
    intros seen s Hinv Hsz; cbn [mb_loop].
  { exists s. rewrite app_nil_r. split_and!; [done..|lia]. }
  destruct (mb_step_spec seen r s Hinv Hr) as (flow & -> & Hflow). run.
  assert (Happ : seen ++ r :: rs = (seen ++ [r]) ++ rs) by by rewrite <- (assoc_L (++)).
  destruct flow as [s'|s'|s']; cbn [mb_flow_ok] in Hflow.
  - subst s'. rewrite Happ. apply IH; [by apply mb_inv_skip|done].
  - subst s'. exists s. split; [done|]. split; [|lia].
    by apply mb_inv_skip_all.
  - destruct Hflow as [Hinv' Heq]. destruct (_ <=? _) eqn:E.
    + exists (mb_bump s'). split; [done|]. split; [|simpl; lia]. rewrite Happ.
      by apply mb_inv_skip_all.
    + rewrite Happ. apply IH; [done|lia].
Qed.
End loop.

(** ** The whole [schedule] *)

Lemma zip_filter_fst {A B} (g : A → B) (P : B → Prop)
    `{HP : ∀ p : A * B, Decision (P p.2)} `{HQ : ∀ x, Decision (P (g x))} l :
  (filter (λ p : A * B, P p.2) (zip l (g <$> l))).*1 = filter (λ x, P (g x)) l.
Proof.
  induction l as [|x l IH]; [done|]. rewrite fmap_cons. cbn [zip zip_with].
  rewrite !filter_cons. destruct (decide (P (x, g x).2)), (decide (P (g x))); try done.
  rewrite fmap_cons. by rewrite IH.
Qed.

Lemma pair_leb_total p q : pair_leb p q = true ∨ pair_leb q p = true.
Proof. unfold pair_leb. destruct p, q; simpl. lia. Qed.

Lemma pair_leb_trans p q o : pair_leb p q = true → pair_leb q o = true → pair_leb p o = true.
Proof. unfold pair_leb. destruct p, q, o; simpl. lia. Qed.

Lemma lora_sorted l : StronglySorted lora_leb (sort_by lora_leb l).
Proof.
  apply sort_by_sorted.
  - intros x y. apply pair_leb_total.
  - intros x y z. apply pair_leb_trans.
Qed.

(** The order of the context requests in a batch: chunks that do not finish
    their prompt first, each group by LoRA id. *)
Definition context_order (chunks_present : bool) (l : list LlmRequest) : list LlmRequest :=
  if chunks_present
  then sort_by lora_leb (filter (λ r, ctx_last r = false) l) ++
       sort_by lora_leb (filter (λ r, ctx_last r = true) l)
  else sort_by lora_leb l.

Lemma sort_context_requests_spec l b :
  (b = true → Forall ctx_ok l) → sort_context_requests l b = Ok (context_order b l).
Proof.
  intros Hok. unfold sort_context_requests, context_order. destruct b; [|done].
  rewrite (map_result_ctx _ ctx_last l (Hok eq_refl) get_last). run.
  f_equal. f_equal; f_equal; [apply (zip_filter_fst ctx_last (λ b, b = false))
                             |apply (zip_filter_fst ctx_last (λ b, b = true))].
Qed.

Lemma filter_bool_perm {A} (f : A → bool) (l : list A) :
  filter (λ x, f x = false) l ++ filter (λ x, f x = true) l ≡ₚ l.
Proof.
  induction l as [|x l IH]; [done|]. rewrite !filter_cons.
  destruct (f x) eqn:E; simpl.
  - by rewrite <- Permutation_middle, IH.
  - by rewrite IH.
Qed.

Lemma context_order_perm b l : context_order b l ≡ₚ l.
Proof.
  unfold context_order. destruct b; rewrite !sort_by_perm; [|done]. apply filter_bool_perm.
Qed.

Section schedule.
Context (self : PyMicroBatchScheduler) (inflight : gset Z).
Context (cfg_ok : config_ok self).

(** Chunks as the context requests of a batch have them. *)
Definition chunk_ok (r : LlmRequest) : Prop :=
  match ctx_chunk_config self with
  | None => state r = CONTEXT_INIT
  | Some cfg => ctx_ok r ∧ 0 < chunk_size_field r ∧ policy_boundary cfg r
  end.

Lemma full_chunk_boundary cfg r :
  chunk_size_field r = context_remaining_length r → policy_boundary cfg r.
Proof.
  intros H. unfold policy_boundary. destruct (chunking_policy cfg); [by left..|by left; left].
Qed.

(** The chunking stage of [schedule]. *)
Lemma mb_chunk_spec seen s :
  mb_inv self inflight seen s →
  ∃ ks, mb_chunk self s = Ok ks ∧ Forall2 rechunked (contexts_to_be_chunked s) ks ∧
    Forall (λ r, ctx_ok r ∧ ∀ cfg, ctx_chunk_config self = Some cfg → policy_boundary cfg r) ks ∧
    (∀ m, max_num_tokens self = Some m →
     batch_num_tokens s + zsum ((λ r, ctx_compute r + ctx_drafts r) <$> ks) ≤ m).
Proof.
  intros [_ _ _ _ _ Hk _ Hbud _ Hfit Hmode]. unfold mb_chunk.
  assert (Hks : Forall (λ r, ctx_ok r ∧ ∀ cfg, ctx_chunk_config self = Some cfg →
    policy_boundary cfg r) (contexts_to_be_chunked s)).
  { apply (Forall_impl _ _ _ Hk). intros r [? Hr]. split; [done|].
    intros cfg _. by apply full_chunk_boundary. }
  destruct (bool_decide (contexts_to_be_chunked s = [])) eqn:Hnil.
  { apply bool_decide_eq_true in Hnil. rewrite orb_true_r, Hnil. exists [].
    split_and!; try constructor. intros m Em. rewrite fmap_nil, zsum_nil.
    rewrite exceeds_false in Hbud. specialize (Hbud m Em). lia. }
  rewrite orb_false_r. destruct (mb_all_fit self s) eqn:Hall.
  { exists (contexts_to_be_chunked s). split_and!; [done|reflexivity|done|].
    intros m Em. unfold mb_all_fit in Hall. rewrite Em in Hall.
    apply andb_prop in Hall as [[Hf Hle]%andb_prop _]. rewrite <- (Hfit Hf).
    apply negb_true_iff in Hle. lia. }
  destruct (ctx_chunk_config self) as [cfg|] eqn:Ecfg.
  2:{ destruct Hmode as [Hm _]. rewrite Hm in Hnil. done. }
  destruct (set_ctx_requests_chunk_size_spec self cfg (contexts_to_be_chunked s)
    ((λ m, m - batch_num_tokens s) <$> max_num_tokens self) cfg_ok Ecfg)
    as (ks & -> & [Hsame Hok Hbd Hdr Hc]).
  { by apply (Forall_impl _ _ _ Hks); intros r []. }
  { intros c. destruct (max_num_tokens self) as [m|]; [|done]. simpl in *. intros [= <-]. lia. }
  exists ks. split_and!; [done|done| |].
  - rewrite Forall_forall in Hok. rewrite !Forall_forall in *. intros r Hr.
    split; [by apply Hok|]. intros ? [= <-]. by apply Hbd.
  - intros m Em. rewrite Em in Hc. specialize (Hc _ eq_refl).
    assert (Hsplit : zsum ((λ r, ctx_compute r + ctx_drafts r) <$> ks) =
      zsum (ctx_compute <$> ks) + zsum (ctx_drafts <$> ks)).
    { clear. induction ks; [done|]. rewrite !fmap_cons, !zsum_cons. lia. }
    lia.
Qed.

Lemma rechunked_ids rs rs' : Forall2 rechunked rs rs' → request_id <$> rs' = request_id <$> rs.
Proof.
  induction 1 as [|r r' rs rs' H _ IH]; [done|]. by rewrite !fmap_cons, IH, (rechunked_id r r').
Qed.

(** What [schedule] returns: the stored requests of the loop, with the chunks
    that have tokens. *)
Record batch_ok (active : list LlmRequest) (out : mb_output) : Prop := {
  batch_ids : request_id <$> out_encoder out ++ out_context out ++ out_generation out ⊆+
    request_id <$> filter (λ r, mb_eligible self inflight r = true) active;
  batch_size : Z.of_nat (length (out_encoder out ++ out_context out ++ out_generation out)) ≤
    Z.max 1 (max_batch_size self);
  batch_tokens : ∀ m, max_num_tokens self = Some m →
    zsum (encoder_output_len <$> out_encoder out) +
    zsum (context_tokens self <$> out_context out) +
    zsum (generation_tokens <$> out_generation out) ≤ m;
  batch_encoder : Forall (λ r, state r = ENCODER_INIT) (out_encoder out);
  batch_context : Forall chunk_ok (out_context out);
  batch_generation : ∃ w, Forall (λ r, state r ≠ ENCODER_INIT ∧ state r ≠ CONTEXT_INIT ∧
    beam_width_by_iter r = w) (out_generation out);
  batch_order : StronglySorted lora_leb (out_encoder out) ∧
    StronglySorted lora_leb (out_generation out) ∧
    ∃ b l, out_context out = context_order b l;
}.

Lemma zsum_filter_le {A} (f : A → Z) (P : A → Prop) `{∀ x, Decision (P x)} l :
  Forall (λ x, 0 ≤ f x) l → zsum (f <$> filter P l) ≤ zsum (f <$> l).
Proof.
  induction 1 as [|x l Hx _ IH]; [done|]. rewrite filter_cons, fmap_cons, zsum_cons.
  case_decide; rewrite ?fmap_cons, ?zsum_cons; lia.
Qed.

Lemma ctx_drafts_nonneg r : ctx_ok r → 0 ≤ ctx_drafts r.
Proof. intros [_ [] _]. unfold ctx_drafts. case_match; lia. Qed.

(** The context part of a batch, given the finished loop. *)
Lemma batch_context_part seen s ks :
  mb_inv self inflight seen s → Forall2 rechunked (contexts_to_be_chunked s) ks →
  Forall (λ r, ctx_ok r ∧ ∀ cfg, ctx_chunk_config self = Some cfg → policy_boundary cfg r) ks →
  let l := context_requests s ++ filter (λ r, 0 < chunk_size_field r) ks in
  Forall chunk_ok l ∧
  (mb_all_fit self s = false → Forall ctx_ok l) ∧
  request_id <$> l ⊆+ request_id <$> context_requests s ++ contexts_to_be_chunked s ∧
  zsum (context_tokens self <$> l) ≤
    zsum (full_context_compute <$> context_requests s) +
    zsum ((λ r, ctx_compute r + ctx_drafts r) <$> ks).
Proof.
  intros [_ _ _ _ Hc Hk _ Hbud _ Hfit Hmode] Hsame Hks. cbn zeta.
  rewrite !fmap_app, !zsum_app.
  assert (Hids : request_id <$> filter (λ r, 0 < chunk_size_field r) ks ⊆+
                 request_id <$> contexts_to_be_chunked s).
  { rewrite <- (rechunked_ids _ _ Hsame). apply fmap_submseteq, sublist_submseteq, sublist_filter. }
  unfold chunk_ok, context_tokens. destruct (ctx_chunk_config self) as [cfg|] eqn:Ecfg.
  - rewrite Hmode. cbn [app].
    assert (Hok : Forall ctx_ok (filter (λ r, 0 < chunk_size_field r) ks)).
    { apply Forall_forall. intros r [_ Hr]%list_elem_of_filter.
      rewrite Forall_forall in Hks. by destruct (Hks r Hr). }
    split_and!; [|done|done|].
    + apply Forall_forall. intros r [? Hr]%list_elem_of_filter.
      rewrite Forall_forall in Hks. destruct (Hks r Hr). auto.
    + pose proof (zsum_filter_le (λ r, ctx_compute r + ctx_drafts r)
        (λ r, 0 < chunk_size_field r) ks) as Hle.
      rewrite !fmap_nil, !zsum_nil. rewrite !Z.add_0_l. apply Hle.
      apply (Forall_impl _ _ _ Hks). intros r [Hr _].
      pose proof (ctx_compute_bounds r Hr). pose proof (ctx_drafts_nonneg r Hr). lia.
  - destruct Hmode as [Hm Haf]. rewrite Hm in *. apply Forall2_nil_inv_l in Hsame as ->.
    rewrite filter_nil, !app_nil_r. split_and!; [done| |done|by rewrite fmap_nil].
    unfold mb_all_fit. rewrite Haf, Ecfg, (Hfit Haf), fmap_nil, zsum_nil. cbn [andb].
    rewrite andb_true_r. intros E. destruct (max_num_tokens self) as [m|]; [|done].
    simpl in Hbud. apply negb_false_iff in E. lia.
Qed.

Lemma schedule_spec active :
  Forall (request_limits self) active →
  ∃ out, schedule self inflight active = Ok out ∧ batch_ok active out.
Proof.
  intros Hall. unfold schedule.
  destruct (mb_loop_spec self inflight active [] mb_init) as (s & -> & Hinv & Hsz);
    [by apply mb_inv_init|done|simpl; lia|]. run.
  destruct (mb_chunk_spec _ s Hinv) as (ks & -> & Hsame & Hks & Htok). run.
  assert (Hok : Forall ctx_ok ks) by by apply (Forall_impl _ _ _ Hks); intros r [].
  rewrite (map_result_ctx _ chunk_size_field ks Hok get_chunk). run.
  replace ((filter (λ p : LlmRequest * Z, 0 < p.2) (zip ks (chunk_size_field <$> ks))).*1)
    with (filter (λ r, 0 < chunk_size_field r) ks)
    by (symmetry; apply (zip_filter_fst chunk_size_field (λ z, 0 < z))).
  destruct (batch_context_part _ s ks Hinv Hsame Hks) as (Hch & Hctx & Hids & Hcost).
  set (l := context_requests s ++ _) in *.
  rewrite sort_context_requests_spec by (intros E; apply Hctx; by apply negb_true_iff). run.
  eexists. split; [done|].
  pose proof Hinv as [Hi He Hg Hb _ _ Ht _ Hn _ _].
  assert (Hsub : request_id <$> sort_by lora_leb (encoder_requests s) ++
    context_order (negb (mb_all_fit self s)) l ++ sort_by lora_leb (generation_requests s)
    ⊆+ scheduled_ids s).
  { rewrite !sort_by_perm, context_order_perm. unfold scheduled_ids. rewrite !fmap_app in *.
    apply submseteq_app; [done|]. rewrite (assoc_L (++) (request_id <$> context_requests s)).
    by apply submseteq_app. }
  split; cbn [out_encoder out_context out_generation].
  - by etrans.
  - apply submseteq_length in Hsub. rewrite length_fmap in Hsub. lia.
  - intros m Em. specialize (Htok m Em). rewrite !sort_by_perm, context_order_perm. lia.
  - by rewrite sort_by_perm.
  - by rewrite context_order_perm.
  - exists (scheduled_beam_width s). by rewrite sort_by_perm.
  - split_and!; [apply lora_sorted..|]. by eexists _, _.
Qed.
End schedule.

(** ** Properties *)

(** C2: the micro-batch budgets.  For every configuration and every list of
    well-formed requests whose single encoder input or unchunked prompt fits,
    [schedule] returns (no assertion fails, every loop ends); the tokens the
    batch computes (encoder inputs, context chunks less the reusable prefix
    plus draft tokens of last chunks, beams and drafts of generation
    requests) are at most [max_num_tokens]; there are at most
    [max_batch_size] requests; and the batch is drawn without repetition from
    the eligible requests that are not in flight. *)
Theorem schedule_respects_budgets (self : PyMicroBatchScheduler) (inflight : gset Z)
    (active : list LlmRequest) :
  config_ok self → Forall (request_limits self) active →
  ∃ out, schedule self inflight active = Ok out ∧
    (∀ m, max_num_tokens self = Some m →
      zsum (encoder_output_len <$> out_encoder out) +
      zsum (context_tokens self <$> out_context out) +
      zsum (generation_tokens <$> out_generation out) ≤ m) ∧
    Z.of_nat (length (out_encoder out ++ out_context out ++ out_generation out)) ≤
      Z.max 1 (max_batch_size self) ∧
    request_id <$> out_encoder out ++ out_context out ++ out_generation out ⊆+
      request_id <$> filter (λ r, mb_eligible self inflight r = true) active.
Proof.
  intros Hcfg Hall. destruct (schedule_spec self inflight Hcfg active Hall) as (out & Heq & []).
  by exists out.
Qed.

(** Phases, beams and order.  A batch keeps the phases apart: encoder
    requests are in the encoder state, context requests carry a chunk that
    is not empty, lies inside the prompt and ends at the prompt's end, at a
    multiple of the chunk unit or (forced policy) at a snapshot point;
    generation requests all have one beam width; every list is sorted by
    LoRA id, unfinished chunks ahead of last chunks. *)
Theorem schedule_separates_phases (self : PyMicroBatchScheduler) (inflight : gset Z)
    (active : list LlmRequest) :
  config_ok self → Forall (request_limits self) active →
  ∃ out, schedule self inflight active = Ok out ∧
    Forall (λ r, state r = ENCODER_INIT) (out_encoder out) ∧
    Forall (chunk_ok self) (out_context out) ∧
    (∃ w, Forall (λ r, state r ≠ ENCODER_INIT ∧ state r ≠ CONTEXT_INIT ∧
       beam_width_by_iter r = w) (out_generation out)) ∧
    StronglySorted lora_leb (out_encoder out) ∧
    StronglySorted lora_leb (out_generation out) ∧
    (∃ b l, out_context out = context_order b l).
Proof.
  intros Hcfg Hall. destruct (schedule_spec self inflight Hcfg active Hall)
    as (out & Heq & [_ _ _ ? ? ? (? & ? & ?)]).
  by exists out.
Qed.

(** C31: Equal progress ends, and ends only when it must.  From empty chunks
    the policy returns with the compute within capacity, every chunk a
    multiple of the unit or the whole remainder, and either the capacity is
    spent exactly or no request can take one more unit within the capacity
    and the context-length limit. *)
Theorem equal_progress_is_maximal (self : PyMicroBatchScheduler) (unit_size : Z)
    (rs : list LlmRequest) (capacity : option Z) :
  0 < unit_size → zeroed rs → (∀ c, capacity = Some c → 0 ≤ c) →
  ∃ rs', chunk_equal_progress self rs capacity unit_size = Ok rs' ∧
    chunked_within (unit_boundary unit_size) capacity rs rs' ∧
    (capacity = Some (zsum (ctx_compute <$> rs')) ∨
     Forall (stuck self unit_size capacity (zsum (ctx_compute <$> rs'))) rs').
Proof. intros Hu. by apply chunk_equal_progress_spec. Qed.

(** The chunking stage.  Whatever the policy, resetting, sizing and
    trimming leaves each request unchanged but for its chunk size and
    dropped draft tokens; chunks end at the policy's boundaries; the drafts
    kept with a last chunk fit in its last unit; and chunks and drafts
    together stay within the remaining capacity. *)
Theorem chunk_stage_fits_capacity (self : PyMicroBatchScheduler) (cfg : ContextChunkingConfig)
    (rs : list LlmRequest) (capacity : option Z) :
  config_ok self → ctx_chunk_config self = Some cfg → Forall ctx_ok rs →
  (∀ c, capacity = Some c → 0 ≤ c) →
  ∃ rs', set_ctx_requests_chunk_size self cfg rs capacity = Ok rs' ∧
    chunk_stage cfg capacity rs rs'.
Proof. apply set_ctx_requests_chunk_size_spec. Qed.

(** *** Witnesses *)

Definition demo_request (i : Z) (st : LlmRequestState) (len drafts : Z) : LlmRequest := {|
  request_id := i; state := st; prompt_len := len; context_current_position := 0;
  prepopulated_prompt_len := 0; chunk_size_field := 0; estimated_reusable_tokens := 0;
  num_draft_tokens := drafts; num_tokens := len; beam_width_by_iter := 1;
  encoder_output_len := 0; encoder_ready := None; lora_task_id := None;
  expect_snapshot_points := [] |}.

Definition demo_scheduler (policy : ChunkingPolicy) : PyMicroBatchScheduler := {|
  max_batch_size := 4; max_num_tokens := Some 10;
  ctx_chunk_config := Some {| chunking_policy := policy; chunk_unit_size := 4 |};
  no_schedule_until_state := CONTEXT_INIT; no_schedule_after_state := GENERATION_TO_COMPLETE |}.

Definition demo_active : list LlmRequest :=
  [demo_request 1 GENERATION_IN_PROGRESS 5 0; demo_request 2 CONTEXT_INIT 6 1;
   demo_request 3 CONTEXT_INIT 20 0].

Lemma demo_config_ok policy : config_ok (demo_scheduler policy).
Proof.
  split; simpl; [intros m [= <-]; lia|]. intros cfg [= <-]. simpl. split; [lia|].
  intros _ m [= <-]. lia.
Qed.

Lemma demo_limits policy : Forall (request_limits (demo_scheduler policy)) demo_active.
Proof. repeat constructor; simpl; done || lia. Qed.

Lemma schedule_budget_witness :
  ∃ out, schedule (demo_scheduler FIRST_COME_FIRST_SERVED) ∅ demo_active = Ok out ∧
    (request_id <$> out_context out) = [2] ∧
    zsum (context_tokens (demo_scheduler FIRST_COME_FIRST_SERVED) <$> out_context out) +
    zsum (generation_tokens <$> out_generation out) ≤ 10.
Proof.
  destruct (schedule_respects_budgets (demo_scheduler FIRST_COME_FIRST_SERVED) ∅ demo_active
    (demo_config_ok _) (demo_limits _)) as (out & Heq & Htok & _ & _).
  exists out. split; [exact Heq|]. split.
  - vm_compute in Heq. injection Heq as <-. reflexivity.
  - specialize (Htok 10 eq_refl).
    assert (out_encoder out = []) as E by (vm_compute in Heq; by injection Heq as <-).
    rewrite E in Htok. exact Htok.
Defined.

Lemma schedule_phases_witness :
  ∃ out, schedule (demo_scheduler EQUAL_PROGRESS) ∅ demo_active = Ok out ∧
    (request_id <$> out_generation out) = [1] ∧
    Forall (chunk_ok (demo_scheduler EQUAL_PROGRESS)) (out_context out).
Proof.
  destruct (schedule_separates_phases (demo_scheduler EQUAL_PROGRESS) ∅ demo_active
    (demo_config_ok _) (demo_limits _)) as (out & Heq & _ & Hch & _).
  exists out. split; [exact Heq|]. split; [|exact Hch].
  vm_compute in Heq. injection Heq as <-. reflexivity.
Defined.

Lemma equal_progress_witness :
  ∃ rs', chunk_equal_progress (demo_scheduler EQUAL_PROGRESS)
      [demo_request 2 CONTEXT_INIT 6 1; demo_request 3 CONTEXT_INIT 20 0] (Some 9) 4 = Ok rs' ∧
    (chunk_size_field <$> rs') = [4; 4].
Proof.
  destruct (equal_progress_is_maximal (demo_scheduler EQUAL_PROGRESS) 4
    [demo_request 2 CONTEXT_INIT 6 1; demo_request 3 CONTEXT_INIT 20 0] (Some 9))
    as (rs' & Heq & _); [lia|repeat constructor; simpl; done || lia|intros c [= <-]; lia|].
  exists rs'. split; [exact Heq|]. vm_compute in Heq. injection Heq as <-. reflexivity.
Defined.

Lemma chunk_stage_witness :
  ∃ rs', set_ctx_requests_chunk_size (demo_scheduler FORCE_CHUNK)
      {| chunking_policy := FORCE_CHUNK; chunk_unit_size := 4 |}
      [demo_request 2 CONTEXT_INIT 6 3; demo_request 3 CONTEXT_INIT 20 0] (Some 9) = Ok rs' ∧
    (num_draft_tokens <$> rs') = [2; 0].
Proof.
  destruct (chunk_stage_fits_capacity (demo_scheduler FORCE_CHUNK)
    {| chunking_policy := FORCE_CHUNK; chunk_unit_size := 4 |}
    [demo_request 2 CONTEXT_INIT 6 3; demo_request 3 CONTEXT_INIT 20 0] (Some 9))
    as (rs' & Heq & _);
    [apply demo_config_ok|reflexivity|repeat constructor; simpl; done || lia
    |intros c [= <-]; lia|].
  exists rs'. split; [exact Heq|]. vm_compute in Heq. injection Heq as <-. reflexivity.
Defined.
