(* ===== verification/Capacity.v ===== *)
(** * The capacity scheduler ([scheduler/scheduler.py], [PyCapacityScheduler])

    Which of the active requests may run this iteration, by the KV-cache
    blocks they need: the three policies ([MaxRequestsPolicy],
    [GuaranteedNoEvictPolicy], also as static batch, and
    [MaxUtilizationPolicy]) with their block bookkeeping.

    The KV-cache managers and the PEFT cache manager are C++ objects behind
    bindings: they are records of the operations the scheduler calls, over an
    abstract manager state [K].  The queries are pure here; the estimate of
    reusable tokens the C++ manager leaves on a request is a parameter of
    the unified scheduler, which is the only code that uses it. *)

From S2P Require Import Prelude Requests MicroBatch.

Local Open Scope Z_scope.

(** [PrefixReuseSummary]: its [first_new_block], and the default-constructed
    summary of [_zero_prefix_reuse_summary]. *)
Class PrefixReuse (Summary BlockKey : Type) := {
  first_new_block : Summary → option BlockKey;
  zero_prefix_reuse_summary : Summary;
}.

Section capacity.
Context {K Summary BlockKey : Type} `{Countable BlockKey} `{!PrefixReuse Summary BlockKey}.

(** ** The managers the scheduler calls *)

Record KVCacheManager := {
  num_free_blocks_per_window_size : K → gmap Z Z;
  max_attention_window_vec : list Z;
  enable_block_reuse : bool;
  is_variable_window : bool;
  get_remaining_blocks_to_completion : K → LlmRequest → Z → option Summary → Z;
  get_needed_blocks_one_step : K → LlmRequest → bool → Z → option Summary → Z;
  scheduling_has_free_blocks : K → Z → Z → bool;
  start_scheduling : K → K;
  scheduling_remove_sequence : K → Z → K;
  analyze_prefix_reuse : K → LlmRequest → Summary;
  (** [analyze_prefix_reuse] on the encoder's unique tokens, when there are any *)
  analyze_encoder_prefix_reuse : K → LlmRequest → option Summary;
}.

Record PeftCacheManager := {
  max_device_pages : Z;
  determine_num_pages : LlmRequest → Z;
}.

Inductive CapacitySchedulerPolicy := MAX_UTILIZATION | GUARANTEED_NO_EVICT | STATIC_BATCH.

Record PyCapacityScheduler := {
  max_num_requests : Z;
  kv_cache_manager : option KVCacheManager;
  peft_cache_manager : option PeftCacheManager;
  scheduler_policy : CapacitySchedulerPolicy;
  cross_kv_cache_manager : option KVCacheManager;
  two_step_lookahead : bool;
  cap_no_schedule_until_state : LlmRequestState;
  cap_no_schedule_after_state : LlmRequestState;
  enable_prefix_aware_scheduling : bool;
}.

(** The states of the two managers. *)
Record pools := mkPools { self_pool : K; cross_pool : K }.

(** ** [NoEvictScheduledBlocksManager] *)

Definition no_evict_blocks_init (mgr : KVCacheManager) (k : K) : gmap Z Z :=
  num_free_blocks_per_window_size mgr k.

Definition decrement_reserved_blocks (mgr : KVCacheManager) (k : K) (req : LlmRequest)
    (cached_summary : option Summary) (available_blocks : gmap Z Z) : gmap Z Z :=
  map_imap (λ window_size avail,
    Some (avail - get_remaining_blocks_to_completion mgr k req window_size cached_summary))
    available_blocks.

Definition enough_available_blocks (mgr : KVCacheManager) (k : K) (req : LlmRequest)
    (cached_summary : option Summary) (available_blocks : gmap Z Z) : bool :=
  bool_decide (map_Forall (λ ws avail,
    get_remaining_blocks_to_completion mgr k req ws cached_summary ≤ avail) available_blocks).

(** ** [MaxUtilizationScheduledBlocksManager] *)

Definition max_util_blocks_init (mgr : KVCacheManager) : gmap Z Z :=
  list_to_map ((λ ws, (ws, 0)) <$> remove_dups (max_attention_window_vec mgr)).

Definition scheduled_total (mgr : KVCacheManager) (k : K) (two_steps_look_ahead : bool)
    (req : LlmRequest) (cached_summary : option Summary) (window_size num_scheduled : Z) : Z :=
  num_scheduled +
  get_needed_blocks_one_step mgr k req two_steps_look_ahead window_size cached_summary.

Definition prepare_blocks_if_schedulable (mgr : KVCacheManager) (k : K)
    (two_steps_look_ahead : bool) (req : LlmRequest) (cached_summary : option Summary)
    (num_scheduled_blocks : gmap Z Z) : option (gmap Z Z) :=
  let total := scheduled_total mgr k two_steps_look_ahead req cached_summary in
  if bool_decide (map_Forall (λ ws n, scheduling_has_free_blocks mgr k (total ws n) ws = true)
       num_scheduled_blocks)
  then Some (map_imap (λ ws n, Some (total ws n)) num_scheduled_blocks)
  else None.

Definition update_scheduled_blocks (blocks num_scheduled_blocks : gmap Z Z) :
    result (gmap Z Z) :=
  _ ← py_assert (bool_decide (size blocks = size num_scheduled_blocks));
  Ok (blocks ∪ num_scheduled_blocks).

(** ** [PyCapacityScheduler]: helpers *)

Section helpers.
Context (self : PyCapacityScheduler).

(** [_can_be_scheduled] *)
Definition cap_can_be_scheduled (req : LlmRequest) : bool :=
  if is_decoder_context_request_waiting_for_encoder_output req then false
  else (state_to_value (cap_no_schedule_until_state self) <=? state_value req) &&
       (state_value req <? state_to_value (cap_no_schedule_after_state self)).

(** [_can_be_scheduled_with_disagg_exception] *)
Definition can_be_scheduled_with_disagg_exception (req : LlmRequest) : bool :=
  is_disagg_generation_init_state req || cap_can_be_scheduled req.

(** [_is_skipping_relevant] *)
Definition is_skipping_relevant : bool :=
  match kv_cache_manager self with
  | None => false
  | Some mgr =>
      enable_prefix_aware_scheduling self && negb (is_variable_window mgr) &&
      match cross_kv_cache_manager self with
      | Some cross => negb (is_variable_window cross)
      | None => true
      end
  end.

Definition add_block (b : option BlockKey) (s : gset BlockKey) : gset BlockKey :=
  match b with Some k => {[ k ]} ∪ s | None => s end.

(** [_prefill_contributed_blocks] *)
Definition prefill_contributed_blocks (p : pools) (active_requests : list LlmRequest) :
    gset BlockKey * gset BlockKey :=
  match kv_cache_manager self with
  | Some mgr =>
      if negb (enable_prefix_aware_scheduling self) then (∅, ∅)
      else
        foldl (λ '(ctx, crs) req,
          if is_context_init_state req && negb (is_first_context_chunk req) then
            let ctx' :=
              if enable_block_reuse mgr
              then add_block (first_new_block (analyze_prefix_reuse mgr (self_pool p) req)) ctx
              else ctx in
            let crs' :=
              match cross_kv_cache_manager self with
              | Some cross =>
                  if enable_block_reuse cross
                  then add_block (analyze_encoder_prefix_reuse cross (cross_pool p) req
                                    ≫= first_new_block) crs
                  else crs
              | None => crs
              end in
            (ctx', crs')
          else (ctx, crs)) (∅, ∅) active_requests
  | None => (∅, ∅)
  end.

(** The sets and caches [_beneficial_to_skip] updates.  [None] for a cache
    the caller does not pass. *)
Record skip_state := mkSkip {
  ctx_blocks : gset BlockKey;
  cross_blocks : gset BlockKey;
  summary_by_req : gmap Z Summary;
  cross_summary_by_req : option (gmap Z Summary);
}.

(** One manager's half of [_beneficial_to_skip]: the summary, cached or
    computed now, and the cache. *)
Definition cached_analysis (cache : gmap Z Summary) (req_id : Z) (analysis : option Summary) :
    option Summary * gmap Z Summary :=
  match cache !! req_id with
  | Some s => (Some s, cache)
  | None => match analysis with
            | Some s => (Some s, <[req_id := s]> cache)
            | None => (None, cache)
            end
  end.

(** [_beneficial_to_skip] *)
Definition beneficial_to_skip (p : pools) (req : LlmRequest) (s : skip_state) :
    bool * skip_state :=
  if negb (enable_prefix_aware_scheduling self) then (false, s)
  else if negb (is_context_init_state req && is_first_context_chunk req) then (false, s)
  else
    let req_id := py_request_id req in
    let '(summary, cache) :=
      match kv_cache_manager self with
      | Some mgr =>
          if enable_block_reuse mgr
          then cached_analysis (summary_by_req s) req_id
                 (Some (analyze_prefix_reuse mgr (self_pool p) req))
          else (None, summary_by_req s)
      | None => (None, summary_by_req s)
      end in
    let s1 := mkSkip (ctx_blocks s) (cross_blocks s) cache (cross_summary_by_req s) in
    let ctx_new_block := summary ≫= first_new_block in
    if match ctx_new_block with Some b => bool_decide (b ∈ ctx_blocks s1) | None => false end
    then (true, s1)
    else
      let '(cross_summary, cross_cache) :=
        match cross_kv_cache_manager self with
        | Some cross =>
            if enable_block_reuse cross
            then
              match cross_summary_by_req s1 with
              | Some c =>
                  let '(sm, c') := cached_analysis c req_id
                    (analyze_encoder_prefix_reuse cross (cross_pool p) req) in (sm, Some c')
              | None => (analyze_encoder_prefix_reuse cross (cross_pool p) req, None)
              end
            else (None, cross_summary_by_req s1)
        | None => (None, cross_summary_by_req s1)
        end in
      let s2 := mkSkip (ctx_blocks s1) (cross_blocks s1) cache cross_cache in
      let cross_new_block := cross_summary ≫= first_new_block in
      if match cross_new_block with Some b => bool_decide (b ∈ cross_blocks s2) | None => false end
      then (true, s2)
      else (false, mkSkip (add_block ctx_new_block (ctx_blocks s2))
                          (add_block cross_new_block (cross_blocks s2))
                          (summary_by_req s2) (cross_summary_by_req s2)).

(** [_disabled_prefix_summary] *)
Definition disabled_prefix_summary (req : LlmRequest) : option Summary :=
  if enable_prefix_aware_scheduling self then None
  else if is_context_init_state req && is_first_context_chunk req
  then Some zero_prefix_reuse_summary
  else None.

(** [cache.get(req_id) or scheduler._disabled_prefix_summary(req)] *)
Definition get_summary (cache : gmap Z Summary) (req : LlmRequest) : option Summary :=
  match cache !! py_request_id req with
  | Some s => Some s
  | None => disabled_prefix_summary req
  end.

(** [_get_max_peft_pages], [_get_peft_pages_for_request] *)
Definition get_max_peft_pages : Z :=
  match peft_cache_manager self with
  | None => 2 ^ 31 - 1
  | Some m => max_device_pages m
  end.

Definition get_peft_pages_for_request (req : LlmRequest) : Z :=
  match peft_cache_manager self with
  | None => 0
  | Some m => determine_num_pages m req
  end.

(** [_get_peft_task_info] *)
Definition get_peft_task_info (req : LlmRequest) (seen_task_ids : gset Z) :
    option Z * bool * Z :=
  let is_new_task :=
    match lora_task_id req with
    | Some t => bool_decide (t ∉ seen_task_ids)
    | None => false
    end in
  (lora_task_id req, is_new_task,
   if is_new_task then get_peft_pages_for_request req else 0).

(** [if is_new_task: seen.add(lora_task_id)] *)
Definition note_task (req : LlmRequest) (is_new_task : bool) (seen : gset Z) : gset Z :=
  match lora_task_id req with
  | Some t => if is_new_task then {[ t ]} ∪ seen else seen
  | None => seen
  end.

(** [_classify_output] *)
Definition classify_output (scheduled_requests : list LlmRequest) :
    list LlmRequest * list LlmRequest :=
  (filter (λ r, is_disagg_generation_init_state r = false) scheduled_requests,
   filter (λ r, is_disagg_generation_init_state r = true) scheduled_requests).

(** ** [MaxRequestsPolicy] *)

Fixpoint max_requests_loop (active_requests scheduled : list LlmRequest) : list LlmRequest :=
  match active_requests with
  | [] => scheduled
  | req :: reqs =>
      if negb (cap_can_be_scheduled req) then max_requests_loop reqs scheduled
      else if max_num_requests self <=? Z.of_nat (length scheduled) then scheduled
      else if is_encoder_init_state req || is_context_init_state req ||
              is_generation_in_progress_state req
      then max_requests_loop reqs (scheduled ++ [req])
      else max_requests_loop reqs scheduled
  end.

Definition max_requests_schedule (active_requests : list LlmRequest) :
    list LlmRequest * list LlmRequest :=
  (max_requests_loop active_requests [], []).

(** ** [GuaranteedNoEvictPolicy] *)

Record no_evict_state := mkNE {
  ne_scheduled : list LlmRequest;
  reserved_blocks : gmap Z Z;
  reserved_cross_blocks : option (gmap Z Z);
  claimed_peft_pages : Z;
  available_peft_pages : Z;
  uniq_task_ids : gset Z;
  pending_requests : list LlmRequest;
  pending_dis_gen_init_requests : list LlmRequest;
  ne_skip : skip_state;
}.

Section no_evict.
Context (static_batch : bool) (mgr : KVCacheManager) (p : pools).

(** Reserve a request's blocks to completion in both pools. *)
Definition reserve (req : LlmRequest) (cached cached_cross : option Summary)
    (blocks : gmap Z Z) (cross : option (gmap Z Z)) : gmap Z Z * option (gmap Z Z) :=
  (decrement_reserved_blocks mgr (self_pool p) req cached blocks,
   match cross_kv_cache_manager self, cross with
   | Some cm, Some cb =>
       Some (decrement_reserved_blocks cm (cross_pool p) req cached_cross cb)
   | _, _ => cross
   end).

Fixpoint no_evict_first_pass (active_requests : list LlmRequest) (s : no_evict_state) :
    no_evict_state :=
  match active_requests with
  | [] => s
  | req :: reqs =>
      if negb (can_be_scheduled_with_disagg_exception req) then no_evict_first_pass reqs s
      else if max_num_requests self <=? Z.of_nat (length (ne_scheduled s)) then s
      else if is_generation_in_progress_state req then
        let '(blocks, cross) := reserve req None None (reserved_blocks s) (reserved_cross_blocks s) in
        let '(claimed, uniq) :=
          match peft_cache_manager self with
          | Some _ =>
              let '(_, is_new_task, peft_pages) := get_peft_task_info req (uniq_task_ids s) in
              if is_new_task
              then (claimed_peft_pages s + peft_pages, note_task req true (uniq_task_ids s))
              else (claimed_peft_pages s, uniq_task_ids s)
          | None => (claimed_peft_pages s, uniq_task_ids s)
          end in
        no_evict_first_pass reqs
          (mkNE (ne_scheduled s ++ [req]) blocks cross claimed (available_peft_pages s) uniq
             (pending_requests s) (pending_dis_gen_init_requests s) (ne_skip s))
      else if is_disagg_generation_init_state req then
        no_evict_first_pass reqs
          (mkNE (ne_scheduled s) (reserved_blocks s) (reserved_cross_blocks s)
             (claimed_peft_pages s) (available_peft_pages s) (uniq_task_ids s)
             (pending_requests s) (pending_dis_gen_init_requests s ++ [req]) (ne_skip s))
      else
        no_evict_first_pass reqs
          (mkNE (ne_scheduled s) (reserved_blocks s) (reserved_cross_blocks s)
             (claimed_peft_pages s) (available_peft_pages s) (uniq_task_ids s)
             (pending_requests s ++ [req]) (pending_dis_gen_init_requests s) (ne_skip s))
  end.

(** The PEFT check of the second pass: [None] when the pages do not fit. *)
Definition claim_peft (req : LlmRequest) (s : no_evict_state) : option (Z * gset Z) :=
  match peft_cache_manager self with
  | None => Some (available_peft_pages s, uniq_task_ids s)
  | Some _ =>
      let '(_, is_new_task, needed_peft_pages) := get_peft_task_info req (uniq_task_ids s) in
      if available_peft_pages s <? needed_peft_pages then None
      else Some (available_peft_pages s - needed_peft_pages,
                 note_task req is_new_task (uniq_task_ids s))
  end.

(** How one pending request ends: the loop goes on, or the inner [for]
    breaks. *)
Inductive ne_flow := NeNext (s : no_evict_state) | NeBreak (s : no_evict_state).

Definition with_skip (s : no_evict_state) (k : skip_state) : no_evict_state :=
  mkNE (ne_scheduled s) (reserved_blocks s) (reserved_cross_blocks s) (claimed_peft_pages s)
    (available_peft_pages s) (uniq_task_ids s) (pending_requests s)
    (pending_dis_gen_init_requests s) k.

(** Admit [req] with the given block maps and PEFT account. *)
Definition ne_admit (req : LlmRequest) (blocks : gmap Z Z) (cross : option (gmap Z Z))
    (peft : Z * gset Z) (s : no_evict_state) : no_evict_state :=
  mkNE (ne_scheduled s ++ [req]) blocks cross (claimed_peft_pages s) peft.1 peft.2
    (pending_requests s) (pending_dis_gen_init_requests s) (ne_skip s).

Definition no_evict_pending (req : LlmRequest) (s : no_evict_state) : result ne_flow :=
  if is_encoder_init_state req && bool_decide (reserved_cross_blocks s = None)
  then Raise RuntimeError
  else
    let '(skip, k) :=
      if negb static_batch && is_skipping_relevant && negb (is_disagg_generation_init_state req)
      then beneficial_to_skip p req (ne_skip s) else (false, ne_skip s) in
    let s := with_skip s k in
    if (skip : bool) then Ok (NeNext s)
    else if max_num_requests self <=? Z.of_nat (length (ne_scheduled s)) then Ok (NeBreak s)
    else
      let cached := get_summary (summary_by_req k) req in
      let cached_cross := get_summary (default ∅ (cross_summary_by_req k)) req in
      if is_encoder_init_state req then
        match claim_peft req s with
        | None => Ok (NeNext s)
        | Some peft =>
            Ok (NeNext (ne_admit req (reserved_blocks s) (reserved_cross_blocks s) peft s))
        end
      else if is_context_init_state req || is_disagg_generation_init_state req then
        let enough :=
          enough_available_blocks mgr (self_pool p) req cached (reserved_blocks s) in
        let enough_cross :=
          match cross_kv_cache_manager self, reserved_cross_blocks s with
          | Some cm, Some cb =>
              enough_available_blocks cm (cross_pool p) req cached_cross cb
          | _, _ => true
          end in
        if negb enough || negb enough_cross then Ok (NeBreak s)
        else
          match claim_peft req s with
          | None => Ok (NeNext s)
          | Some peft =>
              let '(blocks, cross) :=
                reserve req cached cached_cross (reserved_blocks s) (reserved_cross_blocks s) in
              Ok (NeNext (ne_admit req blocks cross peft s))
          end
      else Ok (NeNext s).

Fixpoint no_evict_pending_loop (requests : list LlmRequest) (s : no_evict_state) :
    result no_evict_state :=
  match requests with
  | [] => Ok s
  | req :: reqs =>
      flow ← no_evict_pending req s;
      match flow with
      | NeNext s' => no_evict_pending_loop reqs s'
      | NeBreak s' => Ok s'
      end
  end.

(** The state before the first pass. *)
Definition no_evict_init (active_requests : list LlmRequest) : no_evict_state :=
  let '(ctx, crs) :=
    if negb static_batch && is_skipping_relevant
    then prefill_contributed_blocks p active_requests else (∅, ∅) in
  mkNE [] (no_evict_blocks_init mgr (self_pool p))
    ((λ cm, no_evict_blocks_init cm (cross_pool p)) <$> cross_kv_cache_manager self)
    0 (match peft_cache_manager self with Some _ => get_max_peft_pages | None => 0 end)
    ∅ [] [] (mkSkip ctx crs ∅ (Some ∅)).

Definition no_evict_run (active_requests : list LlmRequest) : result no_evict_state :=
  let s := no_evict_first_pass active_requests (no_evict_init active_requests) in
  if negb static_batch || bool_decide (ne_scheduled s = []) then
    let s :=
      match peft_cache_manager self with
      | Some _ =>
          mkNE (ne_scheduled s) (reserved_blocks s) (reserved_cross_blocks s)
            (claimed_peft_pages s) (available_peft_pages s - claimed_peft_pages s)
            (uniq_task_ids s) (pending_requests s) (pending_dis_gen_init_requests s) (ne_skip s)
      | None => s
      end in
    s ← no_evict_pending_loop (pending_dis_gen_init_requests s) s;
    no_evict_pending_loop (pending_requests s) s
  else Ok s.

Definition no_evict_schedule (active_requests : list LlmRequest) :
    result (list LlmRequest * list LlmRequest) :=
  s ← no_evict_run active_requests; Ok (ne_scheduled s, []).
End no_evict.

(** ** [MaxUtilizationPolicy] *)

Definition is_started_request (req : LlmRequest) : bool :=
  if negb (cap_can_be_scheduled req) then false
  else (is_context_init_state req && negb (is_first_context_chunk req)) ||
       is_generation_in_progress_state req.

Record max_util_state := mkMU {
  mu_pools : pools;
  mu_scheduled : list LlmRequest;
  mu_paused : list LlmRequest;
  mu_blocks : gmap Z Z;
  mu_cross_blocks : option (gmap Z Z);
  num_scheduled_peft_pages : Z;
  seen_task_ids : gset Z;
  mu_skip : skip_state;
}.

Section max_util.
Context (mgr : KVCacheManager).

(** [_try_scheduling_request] *)
Definition try_scheduling_request (req : LlmRequest) (cached_summary : option Summary)
    (s : max_util_state) : result (bool * max_util_state) :=
  if max_num_requests self <=? Z.of_nat (length (mu_scheduled s)) then Ok (false, s)
  else
    (** the blocks of both pools if scheduled: [None] when they do not fit *)
    let prepared :=
      if is_encoder_init_state req then Some (None, None)
      else
        blocks ← prepare_blocks_if_schedulable mgr (self_pool (mu_pools s))
          (two_step_lookahead self) req cached_summary (mu_blocks s);
        match cross_kv_cache_manager self, mu_cross_blocks s with
        | Some cm, Some cb =>
            cross ← prepare_blocks_if_schedulable cm (cross_pool (mu_pools s))
              (two_step_lookahead self) req None cb;
            Some (Some blocks, Some cross)
        | _, _ => Some (Some blocks, None)
        end in
    match prepared with
    | None => Ok (false, s)
    | Some (blocks_if_scheduled, cross_blocks_if_scheduled) =>
        let peft :=
          match peft_cache_manager self with
          | None => Some (num_scheduled_peft_pages s, seen_task_ids s)
          | Some _ =>
              let '(_, is_new_task, required) := get_peft_task_info req (seen_task_ids s) in
              if get_max_peft_pages <? required + num_scheduled_peft_pages s then None
              else Some (num_scheduled_peft_pages s + required,
                         note_task req is_new_task (seen_task_ids s))
          end in
        match peft with
        | None => Ok (false, s)
        | Some (pages, seen) =>
            blocks ← match blocks_if_scheduled with
                     | Some b => update_scheduled_blocks b (mu_blocks s)
                     | None => Ok (mu_blocks s)
                     end;
            cross ← match mu_cross_blocks s, cross_blocks_if_scheduled with
                    | Some cb, Some b => Some <$> update_scheduled_blocks b cb
                    | cb, _ => Ok cb
                    end;
            Ok (true, mkMU (mu_pools s) (mu_scheduled s ++ [req]) (mu_paused s) blocks cross
                        pages seen (mu_skip s))
        end
    end.

(** [for i in range(req_it_end - 1, req_it - 1, -1)]: the last started
    request of the window. *)
Fixpoint find_last_started (requests_list : list LlmRequest) (req_it n : nat) : option nat :=
  match n with
  | O => None
  | S n' =>
      match requests_list !! (req_it + n')%nat with
      | Some r => if is_started_request r then Some (req_it + n')%nat
                  else find_last_started requests_list req_it n'
      | None => find_last_started requests_list req_it n'
      end
  end.

(** Pause a request: drop its sequence from both pools. *)
Definition pause_request (req : LlmRequest) (s : max_util_state) : max_util_state :=
  let p := mu_pools s in
  mkMU (mkPools (scheduling_remove_sequence mgr (self_pool p) (py_request_id req))
          (match cross_kv_cache_manager self with
           | Some cm => scheduling_remove_sequence cm (cross_pool p) (py_request_id req)
           | None => cross_pool p
           end))
    (mu_scheduled s) (mu_paused s ++ [req]) (mu_blocks s) (mu_cross_blocks s)
    (num_scheduled_peft_pages s) (seen_task_ids s) (mu_skip s).

Definition mu_with_skip (s : max_util_state) (k : skip_state) : max_util_state :=
  mkMU (mu_pools s) (mu_scheduled s) (mu_paused s) (mu_blocks s) (mu_cross_blocks s)
    (num_scheduled_peft_pages s) (seen_task_ids s) k.

(** The [while req_it < req_it_end] loop. *)
Fixpoint max_util_loop (fuel : nat) (requests_list : list LlmRequest) (req_it req_it_end : nat)
    (s : max_util_state) : result max_util_state :=
  if bool_decide (req_it < req_it_end)%nat then
    match fuel with
    | O => Raise OutOfFuel
    | S fuel =>
        req ← of_option IndexError (requests_list !! req_it);
        if negb (can_be_scheduled_with_disagg_exception req)
        then max_util_loop fuel requests_list (S req_it) req_it_end s
        else if is_encoder_init_state req && bool_decide (mu_cross_blocks s = None)
        then Raise RuntimeError
        else
          let '(skip, k) :=
            if is_skipping_relevant
            then beneficial_to_skip (mu_pools s) req
                   (mkSkip (ctx_blocks (mu_skip s)) ∅ (summary_by_req (mu_skip s)) None)
            else (false, mu_skip s) in
          let s := mu_with_skip s k in
          if (skip : bool) then max_util_loop fuel requests_list (S req_it) req_it_end s
          else
            '(was_scheduled, s) ←
              try_scheduling_request req (get_summary (summary_by_req k) req) s;
            if (was_scheduled : bool)
            then max_util_loop fuel requests_list (S req_it) req_it_end s
            else
              match find_last_started requests_list req_it (req_it_end - req_it) with
              | Some last_started_idx =>
                  paused_req ← of_option IndexError (requests_list !! last_started_idx);
                  max_util_loop fuel requests_list req_it last_started_idx
                    (pause_request paused_req s)
              | None => Ok s
              end
    end
  else Ok s.

Definition max_util_init (p : pools) (active_requests : list LlmRequest) : max_util_state :=
  let p' := mkPools (start_scheduling mgr (self_pool p))
              (match cross_kv_cache_manager self with
               | Some cm => start_scheduling cm (cross_pool p)
               | None => cross_pool p
               end) in
  let '(ctx, _) := prefill_contributed_blocks p' active_requests in
  mkMU p' [] [] (max_util_blocks_init mgr)
    ((λ cm, max_util_blocks_init cm) <$> cross_kv_cache_manager self) 0 ∅
    (mkSkip ctx ∅ ∅ None).

Definition max_util_run (p : pools) (active_requests : list LlmRequest) :
    result max_util_state :=
  max_util_loop (length active_requests) active_requests 0 (length active_requests)
    (max_util_init p active_requests).
End max_util.

(** ** [schedule_request] *)

(** [_create_policy] and [self._policy.schedule]: the requests scheduled,
    those paused, and the pools afterwards. *)
Definition policy_schedule (p : pools) (active_requests : list LlmRequest) :
    result (list LlmRequest * list LlmRequest * pools) :=
  match kv_cache_manager self with
  | None => let '(scheduled, paused) := max_requests_schedule active_requests in
            Ok (scheduled, paused, p)
  | Some mgr =>
      match scheduler_policy self with
      | MAX_UTILIZATION =>
          s ← max_util_run mgr p active_requests;
          Ok (mu_scheduled s, mu_paused s, mu_pools s)
      | GUARANTEED_NO_EVICT =>
          '(scheduled, paused) ← no_evict_schedule false mgr p active_requests;
          Ok (scheduled, paused, p)
      | STATIC_BATCH =>
          '(scheduled, paused) ← no_evict_schedule true mgr p active_requests;
          Ok (scheduled, paused, p)
      end
  end.

(** (fitting requests, fitting disaggregated-generation inits, paused) *)
Definition capacity_schedule_request (p : pools) (active_requests : list LlmRequest) :
    result (list LlmRequest * list LlmRequest * list LlmRequest * pools) :=
  '(scheduled, paused, p') ← policy_schedule p active_requests;
  let '(fitting_requests, fitting_disagg_gen_init_requests) := classify_output scheduled in
  Ok (fitting_requests, fitting_disagg_gen_init_requests, paused, p').
End helpers.
End capacity.
