(* ===== verification/CapacityProps.v ===== *)
(** * Correctness of the capacity scheduler

    Guaranteed no-evict: what is admitted can run to completion in the free
    blocks of both pools and the adapter pages.  Maximum utilization: the
    loop ends, pauses only started requests from the back, and never plans
    more blocks than the manager says are free. *)

From S2P Require Import Prelude Requests MicroBatch Capacity.

Local Open Scope Z_scope.

Section props.
Context {K Summary BlockKey : Type} `{Countable BlockKey} `{!PrefixReuse Summary BlockKey}.
Context (self : PyCapacityScheduler (K:=K) (Summary:=Summary)).
Local Abbreviation kvm := (KVCacheManager (K:=K) (Summary:=Summary)).
Local Abbreviation ne_state := (no_evict_state (Summary:=Summary) (BlockKey:=BlockKey)).
Local Abbreviation mu_state :=
  (max_util_state (K:=K) (Summary:=Summary) (BlockKey:=BlockKey)).
Implicit Types (mgr : kvm) (r : LlmRequest)
  (m : gmap Z Z).

(** ** Block accounts *)

(** A request with the prefix summaries its blocks were computed with. *)
Record charge := mkCharge {
  ch_req : LlmRequest;
  ch_self : option Summary;
  ch_cross : option Summary;
}.

(** Blocks the charged requests need to complete, in one window. *)
Definition reserved_total mgr (k : K) (sel : charge → option Summary) (ws : Z)
    (l : list charge) : Z :=
  zsum ((λ c, get_remaining_blocks_to_completion mgr k (ch_req c) ws (sel c)) <$> l).

(** [m] holds, per window, the free blocks less those the charges need. *)
Definition account mgr (k : K) (sel : charge → option Summary) (l : list charge) m : Prop :=
  ∀ ws, m !! ws = (λ free, free - reserved_total mgr k sel ws l) <$>
                  num_free_blocks_per_window_size mgr k !! ws.

Definition nonneg m : Prop := map_Forall (λ _ v, 0 ≤ v) m.

Lemma reserved_total_snoc mgr k sel ws l c :
  reserved_total mgr k sel ws (l ++ [c]) =
  reserved_total mgr k sel ws l +
  get_remaining_blocks_to_completion mgr k (ch_req c) ws (sel c).
Proof.
  unfold reserved_total. rewrite fmap_app, zsum_app, fmap_cons, zsum_cons. cbn.
  rewrite zsum_nil. lia.
Qed.

Lemma account_init mgr k sel : account mgr k sel [] (no_evict_blocks_init mgr k).
Proof.
  intros ws. unfold no_evict_blocks_init, reserved_total. rewrite fmap_nil, zsum_nil.
  destruct (_ !! ws); simpl; [|done]. f_equal. lia.
Qed.

Lemma account_decrement mgr k sel l m c :
  account mgr k sel l m →
  account mgr k sel (l ++ [c]) (decrement_reserved_blocks mgr k (ch_req c) (sel c) m).
Proof.
  intros Hm ws. unfold decrement_reserved_blocks. rewrite map_lookup_imap, (Hm ws).
  rewrite reserved_total_snoc. destruct (_ !! ws); simpl; [|done]. f_equal. lia.
Qed.

Lemma enough_nonneg mgr k r cs m :
  enough_available_blocks mgr k r cs m = true →
  nonneg (decrement_reserved_blocks mgr k r cs m).
Proof.
  unfold enough_available_blocks, decrement_reserved_blocks.
  rewrite bool_decide_eq_true. intros Hall ws v. rewrite map_lookup_imap.
  destruct (m !! ws) as [a|] eqn:E; simpl; [|done]. intros [= <-].
  specialize (Hall ws a E). simpl in Hall. lia.
Qed.

(** An account that is not negative: the reservations fit in the free blocks. *)
Lemma account_nonneg mgr k sel l m :
  account mgr k sel l m → nonneg m →
  ∀ ws free, num_free_blocks_per_window_size mgr k !! ws = Some free →
    reserved_total mgr k sel ws l ≤ free.
Proof.
  intros Hm Hn ws free Hf. specialize (Hm ws). rewrite Hf in Hm. specialize (Hn ws _ Hm).
  simpl in Hn. lia.
Qed.

(** ** Adapter pages *)

(** The adapters a list of requests uses, and the pages they take: each
    adapter counted once, at its first request. *)
Fixpoint peft_tasks (seen : gset Z) (l : list LlmRequest) : gset Z :=
  match l with
  | [] => seen
  | r :: l' => let '(_, is_new, _) := get_peft_task_info self r seen in
               peft_tasks (note_task r is_new seen) l'
  end.

Fixpoint peft_total (seen : gset Z) (l : list LlmRequest) : Z :=
  match l with
  | [] => 0
  | r :: l' => let '(_, is_new, pages) := get_peft_task_info self r seen in
               pages + peft_total (note_task r is_new seen) l'
  end.

Lemma peft_tasks_snoc seen l r :
  peft_tasks seen (l ++ [r]) =
  note_task r (get_peft_task_info self r (peft_tasks seen l)).1.2 (peft_tasks seen l).
Proof.
  revert seen. induction l as [|x l IH]; intros seen.
  - done.
  - cbn [app peft_tasks]. destruct (get_peft_task_info self x seen) as [[? b] ?]. by rewrite IH.
Qed.

Lemma peft_total_snoc seen l r :
  peft_total seen (l ++ [r]) =
  peft_total seen l + (get_peft_task_info self r (peft_tasks seen l)).2.
Proof.
  revert seen. induction l as [|x l IH]; intros seen.
  - cbn. lia.
  - cbn [app peft_tasks peft_total].
    destruct (get_peft_task_info self x seen) as [[? b] pg]. rewrite IH. lia.
Qed.

Lemma note_task_false r seen : note_task r false seen = seen.
Proof. unfold note_task. by destruct (lora_task_id r). Qed.

Lemma old_task_pages r seen :
  (get_peft_task_info self r seen).1.2 = false → (get_peft_task_info self r seen).2 = 0.
Proof. unfold get_peft_task_info. simpl. by intros ->. Qed.

(** ** Guaranteed no-evict *)

Section no_evict.
Context (static_batch : bool) (mgr : kvm) (p : pools (K:=K)).

Definition cross_account (l : list charge) (o : option (gmap Z Z)) : Prop :=
  match cross_kv_cache_manager self with
  | Some cm => ∃ cb, o = Some cb ∧ account cm (cross_pool p) ch_cross l cb
  | None => o = None
  end.

Definition is_decoder (r : LlmRequest) : bool := negb (is_encoder_init_state r).

(** What every step keeps: the accounts describe the scheduled requests. *)
Record ne_inv (charged : list charge) (s : ne_state) : Prop := {
  nei_charged : ch_req <$> charged = filter (λ r, is_decoder r = true) (ne_scheduled s);
  nei_self : account mgr (self_pool p) ch_self charged (reserved_blocks s);
  nei_cross : cross_account charged (reserved_cross_blocks s);
  nei_count : Z.of_nat (length (ne_scheduled s)) ≤ Z.max 0 (max_num_requests self);
  nei_tasks : is_Some (peft_cache_manager self) → uniq_task_ids s = peft_tasks ∅ (ne_scheduled s);
}.

Lemma ne_inv_init active : ne_inv [] (no_evict_init (BlockKey:=BlockKey) self static_batch mgr p active).
Proof.
  unfold no_evict_init. case_match.
  split; simpl; try done; [apply account_init| |lia].
  unfold cross_account. destruct (cross_kv_cache_manager self) as [cm|]; simpl; [|done].
  eexists; split; [done|]. apply account_init.
Qed.

Lemma reserve_account charged (s : ne_state) r c1 c2 :
  ne_inv charged s →
  let '(b, cb) := reserve self mgr p r c1 c2 (reserved_blocks s) (reserved_cross_blocks s) in
  account mgr (self_pool p) ch_self (charged ++ [mkCharge r c1 c2]) b ∧
  cross_account (charged ++ [mkCharge r c1 c2]) cb.
Proof.
  intros [_ Hs Hc _ _]. simpl. split.
  - apply (account_decrement _ _ ch_self _ _ (mkCharge r c1 c2)). done.
  - unfold cross_account in *. destruct (cross_kv_cache_manager self) as [cm|]; [|done].
    destruct Hc as (cb & -> & Hcb). eexists; split; [done|].
    apply (account_decrement _ _ ch_cross _ _ (mkCharge r c1 c2)). done.
Qed.

Lemma filter_decoder_snoc l r :
  filter (λ r, is_decoder r = true) (l ++ [r]) =
  filter (λ r, is_decoder r = true) l ++ (if is_decoder r then [r] else []).
Proof. rewrite filter_app, filter_cons, filter_nil. by destruct (is_decoder r). Qed.

Lemma gen_is_decoder r : is_generation_in_progress_state r = true → is_decoder r = true.
Proof.
  unfold is_generation_in_progress_state, is_decoder, is_encoder_init_state.
  by destruct (state r).
Qed.

(** The first pass: running generations are charged, the rest is sorted out. *)
Record first_pass_ok (active : list LlmRequest) (s s' : ne_state)
    (gens dis pend : list LlmRequest) : Prop := {
  fp_sched : ne_scheduled s' = ne_scheduled s ++ gens;
  fp_dis : pending_dis_gen_init_requests s' = pending_dis_gen_init_requests s ++ dis;
  fp_pend : pending_requests s' = pending_requests s ++ pend;
  fp_sub : gens ++ dis ++ pend ⊆+
    filter (λ r, can_be_scheduled_with_disagg_exception self r = true) active;
  fp_order : sublist gens active ∧ sublist dis active ∧ sublist pend active;
  fp_gens : Forall (λ r, is_generation_in_progress_state r = true) gens;
  fp_avail : available_peft_pages s' = available_peft_pages s;
  fp_skip : ne_skip s' = ne_skip s;
}.

Definition peft_on : Prop := is_Some (peft_cache_manager self).

(** Charging one running generation. *)
Lemma first_pass_charge charged (s : ne_state) r b cb claimed uniq :
  ne_inv charged s → is_generation_in_progress_state r = true →
  (max_num_requests self <=? Z.of_nat (length (ne_scheduled s))) = false →
  reserve self mgr p r None None (reserved_blocks s) (reserved_cross_blocks s) = (b, cb) →
  (peft_on → uniq = peft_tasks ∅ (ne_scheduled s ++ [r])) →
  ne_inv (charged ++ [mkCharge r None None])
    (mkNE (ne_scheduled s ++ [r]) b cb claimed (available_peft_pages s) uniq
       (pending_requests s) (pending_dis_gen_init_requests s) (ne_skip s)).
Proof.
  intros Hinv Hgen Hlt Hres Huniq. pose proof (reserve_account charged s r None None Hinv) as Hacc.
  rewrite Hres in Hacc. destruct Hacc as [? ?], Hinv as [Hch _ _ Hn _]. split; simpl; try done.
  - by rewrite fmap_app, filter_decoder_snoc, Hch, gen_is_decoder.
  - rewrite length_app. simpl. lia.
Qed.

Lemma first_pass_spec active charged (s : ne_state) :
  ne_inv charged s →
  (peft_on → claimed_peft_pages s = peft_total ∅ (ne_scheduled s)) →
  let s' := no_evict_first_pass self mgr p active s in
  ∃ charged' gens dis pend,
    first_pass_ok active s s' gens dis pend ∧ ne_inv charged' s' ∧
    (peft_on → claimed_peft_pages s' = peft_total ∅ (ne_scheduled s')).
Proof.
  revert charged s. induction active as [|r rs IH]; intros charged s Hinv Hcl; cbn [no_evict_first_pass].
  { exists charged, [], [], []. split_and!; try done.
    split; rewrite ?app_nil_r; try done. }
  destruct (can_be_scheduled_with_disagg_exception self r) eqn:Hel; cbn [negb].
  2:{ destruct (IH charged s Hinv Hcl) as (c' & g & d & q & [] & ? & ?).
      exists c', g, d, q. split_and!; [|done..]. split; try done.
      - rewrite filter_cons_False by congruence. done.
      - destruct fp_order0 as (? & ? & ?). split_and!; by apply sublist_cons. }
  destruct (max_num_requests self <=? _) eqn:Hmax.
  { exists charged, [], [], []. split_and!; try done.
    split; rewrite ?app_nil_r; try done; [apply submseteq_nil_l|].
    split_and!; apply sublist_nil_l. }
  destruct (is_generation_in_progress_state r) eqn:Hgen.
  - destruct (reserve _ _ _ _ _ _ _ _) as [b cb] eqn:Hres.
    set (acct := match peft_cache_manager self with Some _ => _ | None => _ end).
    assert (Hacct : peft_on → acct = (peft_total ∅ (ne_scheduled s ++ [r]),
                                      peft_tasks ∅ (ne_scheduled s ++ [r]))).
    { intros Hp. unfold acct. rewrite peft_total_snoc, peft_tasks_snoc.
      rewrite <- (nei_tasks _ _ Hinv Hp), <- (Hcl Hp). destruct Hp as [? ->].
      pose proof (old_task_pages r (uniq_task_ids s)) as Hold.
      destruct (get_peft_task_info self r (uniq_task_ids s)) as [[? b'] pg]. simpl in *.
      destruct b'; [done|]. rewrite Hold, note_task_false by done. f_equal. lia. }
    destruct acct as [claimed uniq]. cbn [fst snd] in Hacct.
    edestruct (IH (charged ++ [mkCharge r None None])) as (c' & g & d & q & [] & ? & ?);
      [eapply (first_pass_charge charged s r b cb claimed uniq); try done|..].
    { intros Hp. by specialize (Hacct Hp) as [= _ ->]. }
    { intros Hp. by specialize (Hacct Hp) as [= -> _]. }
    exists c', (r :: g), d, q. split_and!; [|done..]. split; try done.
    + rewrite fp_sched0. cbn. by rewrite <- (assoc_L (++)).
    + rewrite filter_cons_True by done. simpl. by apply submseteq_skip.
    + destruct fp_order0 as (? & ? & ?). split_and!; by constructor.
    + by constructor.
  - destruct (is_disagg_generation_init_state r) eqn:Hdis.
    + match goal with |- context [no_evict_first_pass self mgr p rs ?t] => set (s1 := t) end.
      destruct (IH charged s1) as (c' & g & d & q & [] & ? & ?);
        [by destruct Hinv; split|by intros Hp; apply Hcl|].
      exists c', g, (r :: d), q. split_and!; [|done..]. split; try done.
      * rewrite fp_dis0. cbn. by rewrite <- (assoc_L (++)).
      * rewrite filter_cons_True by done. simpl. rewrite <- Permutation_middle.
        by apply submseteq_skip.
      * destruct fp_order0 as (? & ? & ?). split_and!; by constructor.
    + match goal with |- context [no_evict_first_pass self mgr p rs ?t] => set (s1 := t) end.
      destruct (IH charged s1) as (c' & g & d & q & [] & ? & ?);
        [by destruct Hinv; split|by intros Hp; apply Hcl|].
      exists c', g, d, (r :: q). split_and!; [|done..]. split; try done.
      * rewrite fp_pend0. cbn. by rewrite <- (assoc_L (++)).
      * rewrite filter_cons_True by done. rewrite (assoc_L (++)), <- Permutation_middle.
        rewrite <- (assoc_L (++)). by apply submseteq_skip.
      * destruct fp_order0 as (? & ? & ?). split_and!; by constructor.
Qed.

(** The second pass.  In addition to the accounts, the page budget is the
    maximum less the pages of the adapters scheduled. *)
Definition pages_inv (s : ne_state) : Prop :=
  peft_on → available_peft_pages s = get_max_peft_pages self - peft_total ∅ (ne_scheduled s).

Definition all_nonneg (s : ne_state) : Prop :=
  nonneg (reserved_blocks s) ∧ ∀ cb, reserved_cross_blocks s = Some cb → nonneg cb.

Lemma claim_peft_spec r (s : ne_state) pages seen charged :
  ne_inv charged s → pages_inv s → claim_peft self r s = Some (pages, seen) →
  peft_on →
  0 ≤ pages ∧ pages = get_max_peft_pages self - peft_total ∅ (ne_scheduled s ++ [r]) ∧
  seen = peft_tasks ∅ (ne_scheduled s ++ [r]).
Proof.
  intros Hinv Hp Hc Hon. specialize (Hp Hon). pose proof (nei_tasks _ _ Hinv Hon) as Ht.
  unfold claim_peft in Hc. rewrite peft_total_snoc, peft_tasks_snoc, <- Ht.
  destruct Hon as [pm Epm]. rewrite Epm in Hc.
  destruct (get_peft_task_info self r (uniq_task_ids s)) as [[? b] pg]. simpl in *.
  destruct (_ <? pg) eqn:E; [done|]. injection Hc as <- <-. split_and!; lia || done.
Qed.

(** Admitting a request keeps the invariants. *)
Lemma ne_admit_inv charged charged' (s : ne_state) r b cb peft :
  ne_inv charged s → pages_inv s → claim_peft self r s = Some peft →
  (max_num_requests self <=? Z.of_nat (length (ne_scheduled s))) = false →
  ch_req <$> charged' = (ch_req <$> charged) ++ (if is_decoder r then [r] else []) →
  account mgr (self_pool p) ch_self charged' b → cross_account charged' cb →
  ne_inv charged' (ne_admit r b cb peft s) ∧ pages_inv (ne_admit r b cb peft s) ∧
  (peft_on → 0 ≤ available_peft_pages (ne_admit r b cb peft s)).
Proof.
  intros Hinv Hp Hc Hlt Hch Hs Hcr. destruct peft as [pages seen].
  pose proof (claim_peft_spec r s pages seen charged Hinv Hp Hc) as Hpeft.
  split_and!; [split; simpl; try done| |]; simpl.
  - by rewrite filter_decoder_snoc, Hch, (nei_charged _ _ Hinv).
  - rewrite length_app. simpl. lia.
  - intros Hon. by destruct (Hpeft Hon) as (_ & _ & ?).
  - intros Hon. by destruct (Hpeft Hon) as (_ & ? & _).
  - intros Hon. by destruct (Hpeft Hon) as (? & _ & _).
Qed.

(** One pending request: it is admitted with room to complete, or nothing
    but the skip bookkeeping changes. *)
Definition pending_effect (r : LlmRequest) (s s' : ne_state) : Prop :=
  (∃ k, s' = with_skip s k) ∨
  ne_scheduled s' = ne_scheduled s ++ [r] ∧
  pending_requests s' = pending_requests s ∧
  (∃ charged', ne_inv charged' s') ∧ pages_inv s' ∧
  (peft_on → 0 ≤ available_peft_pages s') ∧
  (if is_decoder r then all_nonneg s'
   else reserved_blocks s' = reserved_blocks s ∧
        reserved_cross_blocks s' = reserved_cross_blocks s).

Lemma with_skip_inv charged (s : ne_state) k : ne_inv charged s → ne_inv charged (with_skip s k).
Proof. intros []. by split. Qed.

Lemma pending_context_spec charged (s : ne_state) r cached cached_cross peft b cb :
  ne_inv charged s → pages_inv s → is_decoder r = true →
  (max_num_requests self <=? Z.of_nat (length (ne_scheduled s))) = false →
  enough_available_blocks mgr (self_pool p) r cached (reserved_blocks s) = true →
  match cross_kv_cache_manager self, reserved_cross_blocks s with
  | Some cm, Some m => enough_available_blocks cm (cross_pool p) r cached_cross m
  | _, _ => true
  end = true →
  claim_peft self r s = Some peft →
  reserve self mgr p r cached cached_cross (reserved_blocks s) (reserved_cross_blocks s) = (b, cb) →
  pending_effect r s (ne_admit r b cb peft s).
Proof.
  intros Hinv Hp Hdec Hlt Hen Hencr Hpeft Hres.
  pose proof (reserve_account charged s r cached cached_cross Hinv) as Hacc.
  rewrite Hres in Hacc. destruct Hacc as [Hs Hc].
  destruct (ne_admit_inv charged (charged ++ [mkCharge r cached cached_cross]) s r b cb peft)
    as (? & ? & ?); try done.
  { rewrite fmap_app, Hdec. done. }
  right. split_and!; [done|done|by eexists|done|done|]. rewrite Hdec.
  pose proof (nei_cross _ _ Hinv) as Hcr. unfold cross_account in Hcr, Hc.
  unfold reserve in Hres. injection Hres as <- Hcb. split; simpl.
  - by apply enough_nonneg.
  - intros m Hm. destruct (cross_kv_cache_manager self) as [cm|].
    + destruct Hcr as (cb0 & E & _). rewrite E in *. subst cb. injection Hm as <-.
      by apply enough_nonneg.
    + rewrite Hcr in *. congruence.
Qed.

Lemma no_evict_pending_spec charged (s : ne_state) r flow :
  ne_inv charged s → pages_inv s →
  no_evict_pending self static_batch mgr p r s = Ok flow →
  pending_effect r s (match flow with NeNext s' | NeBreak s' => s' end).
Proof.
  intros Hinv Hp. unfold no_evict_pending.
  destruct (is_encoder_init_state r && _) eqn:Henc; [done|].
  destruct (if negb static_batch && _ && _ then _ else _) as [skip k].
  assert (Hinv' : ne_inv charged (with_skip s k)) by by apply with_skip_inv.
  assert (Hp' : pages_inv (with_skip s k)) by done.
  assert (Hlift : ∀ s', pending_effect r (with_skip s k) s' → pending_effect r s s').
  { intros s' [[k' ->]|Heff]; [left; by exists k'|by right]. }
  assert (Hsame : pending_effect r s (with_skip s k)) by (left; by exists k).
  destruct skip; [by intros [= <-]|].
  destruct (max_num_requests self <=? _) eqn:Hlt; [by intros [= <-]|].
  destruct (is_encoder_init_state r) eqn:Hst.
  - destruct (claim_peft self r (with_skip s k)) as [peft|] eqn:Hpeft; [|by intros [= <-]].
    intros [= <-]. right.
    assert (Hdec : is_decoder r = false) by (unfold is_decoder; by rewrite Hst).
    destruct (ne_admit_inv charged charged (with_skip s k) r (reserved_blocks s)
      (reserved_cross_blocks s) peft) as (? & ? & ?); try done.
    { by rewrite Hdec, app_nil_r. }
    { apply Hinv. } { apply Hinv. }
    rewrite Hdec. split_and!; try done. by eexists.
  - destruct (is_context_init_state r || _) eqn:Hctx; [|by intros [= <-]].
    destruct (negb _ || negb _) eqn:Hen; [by intros [= <-]|].
    apply orb_false_elim in Hen as [He1%negb_false_iff He2%negb_false_iff].
    destruct (claim_peft self r (with_skip s k)) as [peft|] eqn:Hpeft; [|by intros [= <-]].
    destruct (reserve _ _ _ _ _ _ _ _) as [b cb] eqn:Hres. intros [= <-].
    apply Hlift. eapply pending_context_spec; try done.
    unfold is_decoder. by rewrite Hst.
Qed.

(** The whole pending loop. *)
Record pending_ok (reqs : list LlmRequest) (s s' : ne_state) (admitted : list LlmRequest) : Prop := {
  po_sched : ne_scheduled s' = ne_scheduled s ++ admitted;
  po_pend : pending_requests s' = pending_requests s;
  po_sub : sublist admitted reqs;
  po_inv : ∃ charged, ne_inv charged s';
  po_pages : pages_inv s';
  po_peft : admitted ≠ [] → peft_on → 0 ≤ available_peft_pages s';
  po_room : Exists (λ r, is_decoder r = true) admitted → all_nonneg s';
  po_same : Forall (λ r, is_decoder r = false) admitted → all_nonneg s → all_nonneg s';
}.

Lemma pending_ok_refl reqs charged (s : ne_state) :
  ne_inv charged s → pages_inv s → pending_ok reqs s s [].
Proof.
  intros. split; rewrite ?app_nil_r; try done; [apply sublist_nil_l|by eexists|].
  by rewrite Exists_nil.
Qed.

Lemma pending_ok_skip reqs (s s' : ne_state) k admitted :
  pending_ok reqs (with_skip s k) s' admitted → pending_ok reqs s s' admitted.
Proof. intros []. by split. Qed.

Lemma no_decoder l :
  ¬ Exists (λ r, is_decoder r = true) l → Forall (λ r, is_decoder r = false) l.
Proof.
  intros He. apply Forall_forall. intros x Hx. destruct (is_decoder x) eqn:E; [|done].
  destruct He. apply Exists_exists. by exists x.
Qed.

Lemma pending_ok_step r reqs (s s1 s' : ne_state) ad charged :
  ne_inv charged s → pages_inv s → pending_effect r s s1 →
  (∀ ch, ne_inv ch s1 → pages_inv s1 → pending_ok reqs s1 s' ad) →
  ∃ ad', pending_ok (r :: reqs) s s' ad'.
Proof.
  intros Hinv Hp [[k ->]|(Hs & Hpe & (ch & Hi) & Hpg & Hpeft & Hroom)] Hrest.
  { destruct (Hrest charged) as []; [by apply with_skip_inv|done|].
    exists ad. split; try done. by apply sublist_cons. }
  destruct (Hrest ch Hi Hpg) as [E1 E2 E3 E4 E5 E6 E7 E8].
  assert (Hdec : ad = [] ∨ ad ≠ []) by (destruct ad; auto).
  exists (r :: ad). split; try done.
  - rewrite E1, Hs. by rewrite <- (assoc_L (++)).
  - congruence.
  - by apply sublist_skip.
  - intros _ Hon. destruct Hdec as [->|Hne]; [|by apply E6].
    rewrite (E5 Hon), E1, app_nil_r, <- (Hpg Hon). by apply Hpeft.
  - intros Hex. destruct (decide (Exists (λ r, is_decoder r = true) ad)) as [He|He];
      [by apply E7|].
    apply Exists_cons in Hex as [Hr|?]; [|done]. rewrite Hr in Hroom. apply E8; [|done].
    by apply no_decoder.
  - intros [Hr Hall]%Forall_cons [Hn Hnc]. rewrite Hr in Hroom. destruct Hroom as [R1 R2].
    apply E8; [done|]. split; [by rewrite R1|by rewrite R2].
Qed.

Lemma no_evict_pending_loop_spec reqs charged (s s' : ne_state) :
  ne_inv charged s → pages_inv s →
  no_evict_pending_loop self static_batch mgr p reqs s = Ok s' →
  ∃ admitted, pending_ok reqs s s' admitted.
Proof.
  revert charged s. induction reqs as [|r reqs IH]; intros charged s Hinv Hp;
    cbn [no_evict_pending_loop].
  { intros [= <-]. exists []. by eapply pending_ok_refl. }
  intros (flow & Hflow & Hrest)%result_bind_ok.
  pose proof (no_evict_pending_spec charged s r flow Hinv Hp Hflow) as Heff.
  assert (Hnext : ∃ ch, ne_inv ch (match flow with NeNext s1 | NeBreak s1 => s1 end) ∧
                        pages_inv (match flow with NeNext s1 | NeBreak s1 => s1 end)).
  { destruct Heff as [[k ->]|(_ & _ & (ch & ?) & ? & _)]; [exists charged|by exists ch].
    split; [by apply with_skip_inv|done]. }
  destruct Hnext as (ch & Hi1 & Hp1). destruct flow as [s1|s1].
  - destruct (IH ch s1 Hi1 Hp1 Hrest) as (ad & Hok).
    by eapply (pending_ok_step r reqs s s1 s' ad).
  - injection Hrest as <-. eapply (pending_ok_step r reqs s s1 s1 []); try done.
    intros ch'. by apply pending_ok_refl.
Qed.

Lemma pending_ok_trans reqs reqs' (s s1 s2 : ne_state) a1 a2 :
  pending_ok reqs s s1 a1 → pending_ok reqs' s1 s2 a2 →
  pending_ok (reqs ++ reqs') s s2 (a1 ++ a2).
Proof.
  intros [A1 A2 A3 A4 A5 A6 A7 A8] [B1 B2 B3 B4 B5 B6 B7 B8].
  assert (Hdec : a2 = [] ∨ a2 ≠ []) by (destruct a2; auto).
  split; try done.
  - by rewrite B1, A1, (assoc_L (++)).
  - congruence.
  - by apply sublist_app.
  - intros Hne Hon. destruct Hdec as [->|?]; [|by apply B6].
    rewrite app_nil_r in Hne. rewrite (B5 Hon), B1, app_nil_r, <- (A5 Hon). by apply A6.
  - intros [H1|H2]%Exists_app; [|by apply B7].
    destruct (decide (Exists (λ r, is_decoder r = true) a2)) as [He|He]; [by apply B7|].
    apply B8; [by apply no_decoder|by apply A7].
  - intros [? ?]%Forall_app ?. by apply B8, A8.
Qed.

(** The loop raises only for an encoder request without a cross pool. *)
Lemma no_evict_pending_total r (s : ne_state) :
  is_encoder_init_state r = false ∨ reserved_cross_blocks s ≠ None →
  ∃ flow, no_evict_pending self static_batch mgr p r s = Ok flow.
Proof.
  intros Hor. unfold no_evict_pending.
  assert (is_encoder_init_state r && bool_decide (reserved_cross_blocks s = None) = false) as ->.
  { destruct Hor as [->|Hn]; [done|]. rewrite (bool_decide_eq_false_2 _ Hn). apply andb_false_r. }
  destruct (if negb static_batch && _ && _ then _ else _) as [skip k].
  destruct skip; [by eexists|]. repeat (case_match; try by eexists).
Qed.

(** Encoder requests are only active when there is a cross pool. *)
Definition encoder_supported (l : list LlmRequest) : Prop :=
  is_Some (cross_kv_cache_manager self) ∨ Forall (λ r, is_encoder_init_state r = false) l.

Lemma no_evict_pending_loop_total reqs charged (s : ne_state) :
  ne_inv charged s → pages_inv s → encoder_supported reqs →
  ∃ s', no_evict_pending_loop self static_batch mgr p reqs s = Ok s'.
Proof.
  revert charged s. induction reqs as [|r reqs IH]; intros charged s Hinv Hp Henc;
    cbn [no_evict_pending_loop]; [by eexists|].
  destruct (no_evict_pending_total r s) as [flow Hflow].
  { destruct Henc as [[cm Ecm]|Henc]; [|left; by inversion Henc].
    right. pose proof (nei_cross _ _ Hinv) as Hc. unfold cross_account in Hc. rewrite Ecm in Hc.
    by destruct Hc as (? & -> & _). }
  rewrite Hflow. pose proof (no_evict_pending_spec charged s r flow Hinv Hp Hflow) as Heff.
  cbn. destruct flow as [s1|s1]; [|by eexists].
  assert (Henc' : encoder_supported reqs).
  { destruct Henc as [?|Henc]; [by left|right; by inversion Henc]. }
  destruct Heff as [[k ->]|(_ & _ & (ch & ?) & ? & _)]; [|by eapply IH].
  eapply IH; try done. by apply with_skip_inv.
Qed.

Definition free_blocks (m : kvm) (k : K) (ws : Z) : option Z :=
  num_free_blocks_per_window_size m k !! ws.

(** Every scheduled decoder request can run to completion in the free blocks
    of both pools. *)
Definition completes (charged : list charge) : Prop :=
  (∀ ws free, free_blocks mgr (self_pool p) ws = Some free →
     reserved_total mgr (self_pool p) ch_self ws charged ≤ free) ∧
  (∀ cm ws free, cross_kv_cache_manager self = Some cm →
     free_blocks cm (cross_pool p) ws = Some free →
     reserved_total cm (cross_pool p) ch_cross ws charged ≤ free).

Lemma ne_inv_completes charged (s : ne_state) :
  ne_inv charged s → all_nonneg s → completes charged.
Proof.
  intros Hinv [Hn Hnc]. split.
  - intros ws free Hf. by eapply account_nonneg; [apply Hinv|..].
  - intros cm ws free Ecm Hf. pose proof (nei_cross _ _ Hinv) as Hc. unfold cross_account in Hc.
    rewrite Ecm in Hc. destruct Hc as (cb & Ecb & Hacc).
    eapply account_nonneg; [apply Hacc|by apply Hnc|done].
Qed.

Record no_evict_ok (active : list LlmRequest) (s : ne_state) (charged : list charge)
    (gens admitted : list LlmRequest) : Prop := {
  no_sched : ne_scheduled s = gens ++ admitted;
  no_sub : gens ++ admitted ⊆+
    filter (λ r, can_be_scheduled_with_disagg_exception self r = true) active;
  no_gens : Forall (λ r, is_generation_in_progress_state r = true) gens;
  no_count : Z.of_nat (length (gens ++ admitted)) ≤ Z.max 0 (max_num_requests self);
  no_charged : ch_req <$> charged = filter (λ r, is_decoder r = true) (gens ++ admitted);
  no_room : Exists (λ r, is_decoder r = true) admitted → completes charged;
  no_pages : admitted ≠ [] → peft_on →
    peft_total ∅ (gens ++ admitted) ≤ get_max_peft_pages self;
  no_static : static_batch = true → gens ≠ [] → admitted = [];
}.

Lemma no_evict_ok_intro active (s : ne_state) gens ad reqs (s0 : ne_state) :
  pending_ok reqs s0 s ad → ne_scheduled s0 = gens →
  gens ++ reqs ⊆+ filter (λ r, can_be_scheduled_with_disagg_exception self r = true) active →
  Forall (λ r, is_generation_in_progress_state r = true) gens →
  (static_batch = true → gens ≠ [] → ad = []) →
  ∃ charged, no_evict_ok active s charged gens ad.
Proof.
  intros [E1 _ E3 (ch & Hi) E5 E6 E7 _] E0 Hsub Hg Hst. rewrite E0 in E1. exists ch.
  split; try done.
  - etrans; [|exact Hsub]. apply submseteq_app; [done|by apply sublist_submseteq].
  - rewrite <- E1. apply Hi.
  - rewrite <- E1. apply Hi.
  - intros Hex. eapply ne_inv_completes; eauto.
  - intros Hne Hon. specialize (E6 Hne Hon). rewrite (E5 Hon), E1 in E6. lia.
Qed.

Lemma no_evict_run_spec active :
  encoder_supported active →
  ∃ s charged gens admitted,
    no_evict_run self static_batch mgr p active = Ok s ∧
    no_evict_ok active s charged gens admitted.
Proof.
  intros Henc. unfold no_evict_run.
  destruct (first_pass_spec active [] (no_evict_init self static_batch mgr p active))
    as (ch & gens & dis & pend & [Hs Hd Hpd Hsub Hord Hgens Hav _] & Hi & Hcl).
  { apply ne_inv_init. }
  { unfold no_evict_init. by case_match. }
  set (s1 := no_evict_first_pass _ _ _ _ _) in *.
  assert (Hinit : let s0 := no_evict_init self static_batch mgr p active in
    ne_scheduled s0 = [] ∧ pending_dis_gen_init_requests s0 = [] ∧ pending_requests s0 = [] ∧
    (peft_on → available_peft_pages s0 = get_max_peft_pages self)).
  { unfold no_evict_init. case_match. split_and!; try done. intros [? E]. simpl. by rewrite E. }
  destruct Hinit as (I1 & I2 & I3 & I4). rewrite I1 in Hs. rewrite I2 in Hd. rewrite I3 in Hpd.
  cbn [app] in Hs, Hd, Hpd.
  destruct (negb static_batch || bool_decide (ne_scheduled s1 = [])) eqn:Hgo.
  2:{ exists s1, ch, gens, []. split; [done|]. split; rewrite ?app_nil_r; try done.
      - etrans; [|exact Hsub]. apply submseteq_inserts_r. done.
      - rewrite <- Hs. apply Hi.
      - rewrite <- Hs. apply Hi.
      - by rewrite Exists_nil. }
  set (s2 := match peft_cache_manager self with Some _ => _ | None => s1 end).
  assert (H2 : ne_inv ch s2 ∧ pages_inv s2 ∧ ne_scheduled s2 = gens ∧
    pending_dis_gen_init_requests s2 = dis ∧ pending_requests s2 = pend).
  { unfold s2, pages_inv, peft_on. destruct (peft_cache_manager self) eqn:E.
    - split_and!; try done; [by destruct Hi; split|]. intros Hon. simpl.
      rewrite Hav, I4, Hcl by (by exists p0). lia.
    - by split_and!; try done; intros [? ?]. }
  destruct H2 as (Hi2 & Hp2 & Hs2 & Hd2 & Hpd2). rewrite Hd2.
  assert (Hencs : encoder_supported dis ∧ encoder_supported pend).
  { destruct Henc as [?|Henc]; [by split; left|]. destruct Hord as (_ & ? & ?).
    split; right; by eapply Forall_sublist_sub. }
  destruct (no_evict_pending_loop_total dis ch s2) as [s3 E3]; [done..|apply Hencs|].
  destruct (no_evict_pending_loop_spec dis ch s2 s3) as (a1 & H3); [done..|].
  destruct (po_inv _ _ _ _ H3) as [ch3 Hi3]. rewrite E3. cbn [mbind result_bind].
  rewrite (po_pend _ _ _ _ H3), Hpd2.
  destruct (no_evict_pending_loop_total pend ch3 s3) as [s4 E4]; [done|apply H3|apply Hencs|].
  destruct (no_evict_pending_loop_spec pend ch3 s3 s4) as (a2 & H4); [done|apply H3|done|].
  rewrite E4. destruct (no_evict_ok_intro active s4 gens (a1 ++ a2) (dis ++ pend) s2) as [ch4 Hok];
    try done.
  - by eapply pending_ok_trans.
  - intros Hst Hne. rewrite Hst, Hs in Hgo. simpl in Hgo. by apply bool_decide_eq_true in Hgo.
  - by exists s4, ch4, gens, (a1 ++ a2).
Qed.
End no_evict.

(** ** Maximum utilization *)

Section max_util.
Context (mgr : kvm).

(** Pausing a sequence does not take blocks away from the others. *)
Definition removing_frees (m : kvm) : Prop :=
  ∀ k rid n ws, scheduling_has_free_blocks m k n ws = true →
    scheduling_has_free_blocks m (scheduling_remove_sequence m k rid) n ws = true.

Context (mgr_frees : removing_frees mgr).
Context (cross_frees : ∀ cm, cross_kv_cache_manager self = Some cm → removing_frees cm).

(** A request planned for one step: the manager state and summary its blocks
    were computed with. *)
Record plan := mkPlan { pl_req : LlmRequest; pl_pool : K; pl_summary : option Summary }.

Definition planned_total (m : kvm) (ws : Z)
    (l : list plan) : Z :=
  zsum ((λ c, get_needed_blocks_one_step m (pl_pool c) (pl_req c) (two_step_lookahead self)
                ws (pl_summary c)) <$> l).

(** The block counts are the planned needs, and the manager has them free. *)
Definition planned (m : kvm) (k : K) (l : list plan)
    (blocks : gmap Z Z) : Prop :=
  (∀ ws, blocks !! ws =
     if bool_decide (ws ∈ max_attention_window_vec m) then Some (planned_total m ws l) else None) ∧
  (l ≠ [] → map_Forall (λ ws n, scheduling_has_free_blocks m k n ws = true) blocks).

Lemma planned_init (m : kvm) k : planned m k [] (max_util_blocks_init m).
Proof.
  split; [|done]. intros ws. unfold max_util_blocks_init, planned_total. rewrite fmap_nil, zsum_nil.
  case_bool_decide as Hin.
  - apply elem_of_list_to_map_1.
    + rewrite <- list_fmap_compose. rewrite (list_fmap_ext _ (λ x, x)) by done.
      rewrite list_fmap_id. apply NoDup_remove_dups.
    + apply list_elem_of_fmap. exists ws. split; [done|]. by apply elem_of_remove_dups.
  - apply not_elem_of_list_to_map_1. rewrite <- list_fmap_compose.
    rewrite (list_fmap_ext _ (λ x, x)) by done. rewrite list_fmap_id.
    by rewrite elem_of_remove_dups.
Qed.

Lemma planned_total_snoc (m : kvm) ws l c :
  planned_total m ws (l ++ [c]) =
  planned_total m ws l +
  get_needed_blocks_one_step m (pl_pool c) (pl_req c) (two_step_lookahead self) ws (pl_summary c).
Proof.
  unfold planned_total. rewrite fmap_app, zsum_app, fmap_cons, zsum_cons. cbn. rewrite zsum_nil. lia.
Qed.

Lemma size_imap_total (f : Z → Z → Z) (m : gmap Z Z) :
  size (map_imap (λ ws n, Some (f ws n)) m) = size m.
Proof.
  rewrite <- !(size_dom (D:=gset Z)). f_equal. apply set_eq. intros ws.
  rewrite !elem_of_dom, map_lookup_imap. destruct (m !! ws); simpl; split; intros [? ?]; eauto; done.
Qed.

Lemma planned_step (m : kvm) k l blocks r cs blocks' :
  planned m k l blocks →
  prepare_blocks_if_schedulable m k (two_step_lookahead self) r cs blocks = Some blocks' →
  ∃ b, update_scheduled_blocks blocks' blocks = Ok b ∧ planned m k (l ++ [mkPlan r k cs]) b.
Proof.
  intros [Hb _]. unfold prepare_blocks_if_schedulable, update_scheduled_blocks.
  case_bool_decide as Hall; [|done]. intros [= <-].
  rewrite size_imap_total, bool_decide_eq_true_2 by done. cbn. eexists; split; [done|]. split.
  - intros ws. rewrite lookup_union, map_lookup_imap, (Hb ws), planned_total_snoc.
    case_bool_decide; done.
  - intros _ ws n. rewrite lookup_union, map_lookup_imap.
    destruct (blocks !! ws) as [v|] eqn:E; [|done]. intros [= <-]. by apply Hall.
Qed.

Lemma planned_remove (m : kvm) k l blocks rid :
  removing_frees m → planned m k l blocks →
  planned m (scheduling_remove_sequence m k rid) l blocks.
Proof.
  intros Hm [Hb Hf]. split; [done|]. intros Hne ws n E. apply Hm. by apply (Hf Hne).
Qed.

Definition cross_planned (k : K) (l : list plan) (o : option (gmap Z Z)) : Prop :=
  match cross_kv_cache_manager self with
  | Some cm => ∃ cb, o = Some cb ∧ planned cm k l cb
  | None => o = None
  end.

(** The pools once the requests [rs] are paused. *)
Definition after_pauses (p : pools (K:=K)) (rs : list LlmRequest) : pools :=
  foldl (λ p r, mkPools (scheduling_remove_sequence mgr (self_pool p) (py_request_id r))
    (match cross_kv_cache_manager self with
     | Some cm => scheduling_remove_sequence cm (cross_pool p) (py_request_id r)
     | None => cross_pool p
     end)) p rs.

(** The needs of a request are computed in the state the pauses so far have
    left. *)
Definition computed_at (pool : pools → K) (p : pools) (paused : list LlmRequest) (c : plan) : Prop :=
  ∃ ps, ps `prefix_of` paused ∧ pl_pool c = pool (after_pauses p ps).

Lemma computed_mono pool p paused paused' l :
  paused `prefix_of` paused' → Forall (computed_at pool p paused) l → Forall (computed_at pool p paused') l.
Proof. intros Hp Hl. eapply Forall_impl; [done|]. intros c (ps & ? & ?). exists ps. split; [by etrans|done]. Qed.

(** What the loop keeps about the plan, whatever the position: the requests
    planned in either pool are the scheduled decoder requests, from the
    pools [p] at the start. *)
Record mu_inv (p : pools) (l lc : list plan) (s : mu_state) : Prop := {
  mui_self : planned mgr (self_pool (mu_pools s)) l (mu_blocks s);
  mui_cross : cross_planned (cross_pool (mu_pools s)) lc (mu_cross_blocks s);
  mui_reqs : pl_req <$> l = filter (λ r, is_decoder r = true) (mu_scheduled s);
  mui_cross_reqs : is_Some (cross_kv_cache_manager self) →
    pl_req <$> lc = filter (λ r, is_decoder r = true) (mu_scheduled s);
  mui_cross_summary : Forall (λ c, pl_summary c = None) lc;
  mui_pools : mu_pools s = after_pauses p (mu_paused s);
  mui_state : Forall (computed_at self_pool p (mu_paused s)) l;
  mui_cross_state : Forall (computed_at cross_pool p (mu_paused s)) lc;
  mui_count : Z.of_nat (length (mu_scheduled s)) ≤ Z.max 0 (max_num_requests self);
  mui_tasks : peft_on → seen_task_ids s = peft_tasks ∅ (mu_scheduled s);
  mui_pages : peft_on → num_scheduled_peft_pages s = peft_total ∅ (mu_scheduled s);
  mui_pages_max : peft_on → mu_scheduled s ≠ [] →
    peft_total ∅ (mu_scheduled s) ≤ get_max_peft_pages self;
}.

(** What a request adds to the plans. *)
Definition self_plan (r : LlmRequest) (cs : option Summary) (s : mu_state) : list plan :=
  if is_decoder r then [mkPlan r (self_pool (mu_pools s)) cs] else [].

Definition cross_plan (r : LlmRequest) (s : mu_state) : list plan :=
  match cross_kv_cache_manager self with
  | Some _ => if is_decoder r then [mkPlan r (cross_pool (mu_pools s)) None] else []
  | None => []
  end.

(** A request that is scheduled extends the plan; one that is not changes
    nothing. *)
Definition try_effect p l lc (r : LlmRequest) cs (s s' : mu_state) : Prop :=
  mu_scheduled s' = mu_scheduled s ++ [r] ∧ mu_paused s' = mu_paused s ∧
  mu_pools s' = mu_pools s ∧ mu_skip s' = mu_skip s ∧
  mu_inv p (l ++ self_plan r cs s) (lc ++ cross_plan r s) s'.

(** The PEFT account of [_try_scheduling_request]. *)
Lemma try_peft p l lc (s : mu_state) r pages seen :
  mu_inv p l lc s →
  match peft_cache_manager self with
  | None => Some (num_scheduled_peft_pages s, seen_task_ids s)
  | Some _ =>
      let '(_, is_new_task, required) := get_peft_task_info self r (seen_task_ids s) in
      if get_max_peft_pages self <? required + num_scheduled_peft_pages s then None
      else Some (num_scheduled_peft_pages s + required, note_task r is_new_task (seen_task_ids s))
  end = Some (pages, seen) →
  peft_on →
  seen = peft_tasks ∅ (mu_scheduled s ++ [r]) ∧ pages = peft_total ∅ (mu_scheduled s ++ [r]) ∧
  pages ≤ get_max_peft_pages self.
Proof.
  intros Hinv Heq Hon. rewrite peft_tasks_snoc, peft_total_snoc.
  rewrite <- (mui_tasks _ _ _ _ Hinv Hon), <- (mui_pages _ _ _ _ Hinv Hon).
  destruct Hon as [? E]. rewrite E in Heq.
  destruct (get_peft_task_info self r (seen_task_ids s)) as [[? b] req]. simpl.
  destruct (_ <? _) eqn:Hlt; [done|]. injection Heq as <- <-. split_and!; [done..|lia].
Qed.

Lemma computed_now pool p (s : mu_state) r cs :
  mu_pools s = after_pauses p (mu_paused s) → computed_at pool p (mu_paused s) (mkPlan r (pool (mu_pools s)) cs).
Proof. intros Hp. exists (mu_paused s). split; [done|]. cbn. by rewrite Hp. Qed.

Lemma mu_inv_extend p l lc (s : mu_state) r cs blocks cross pages seen :
  mu_inv p l lc s →
  (max_num_requests self <=? Z.of_nat (length (mu_scheduled s))) = false →
  planned mgr (self_pool (mu_pools s)) (l ++ self_plan r cs s) blocks →
  cross_planned (cross_pool (mu_pools s)) (lc ++ cross_plan r s) cross →
  (peft_on → seen = peft_tasks ∅ (mu_scheduled s ++ [r]) ∧
     pages = peft_total ∅ (mu_scheduled s ++ [r]) ∧ pages ≤ get_max_peft_pages self) →
  try_effect p l lc r cs s
    (mkMU (mu_pools s) (mu_scheduled s ++ [r]) (mu_paused s) blocks cross pages seen (mu_skip s)).
Proof.
  clear mgr_frees cross_frees. intros Hinv Hlt Hs Hc Hp. pose proof (mui_pools _ _ _ _ Hinv) as Hpo. split_and!; try done. split; simpl; try done.
  - rewrite filter_decoder_snoc, fmap_app, (mui_reqs _ _ _ _ Hinv). unfold self_plan. by destruct (is_decoder r).
  - intros [cm Hcm]. rewrite filter_decoder_snoc, fmap_app, (mui_cross_reqs _ _ _ _ Hinv) by (by exists cm).
    unfold cross_plan. rewrite Hcm. by destruct (is_decoder r).
  - apply Forall_app. split; [apply Hinv|]. unfold cross_plan. repeat case_match; by repeat constructor.
  - apply Forall_app. split; [apply Hinv|]. unfold self_plan. case_match; [|done]. apply Forall_singleton. by apply computed_now.
  - apply Forall_app. split; [apply Hinv|]. unfold cross_plan. repeat case_match; [|done..]. apply Forall_singleton. by apply computed_now.
  - rewrite length_app. simpl. lia.
  - intros Hon. by destruct (Hp Hon) as (? & _).
  - intros Hon. by destruct (Hp Hon) as (_ & ? & _).
  - intros Hon _. by destruct (Hp Hon) as (_ & <- & ?).
Qed.

Lemma try_scheduling_request_spec p l lc (s : mu_state) r cs :
  mu_inv p l lc s →
  ∃ b s', try_scheduling_request self mgr r cs s = Ok (b, s') ∧
    if (b : bool) then try_effect p l lc r cs s s' else s' = s.
Proof.
  intros Hinv. unfold try_scheduling_request.
  destruct (max_num_requests self <=? _) eqn:Hlt; [by eexists false, _|].
  pose proof (try_peft p l lc s r) as Hpeft.
  set (peft := match peft_cache_manager self with Some _ => _ | None => _ end) in *.
  pose proof (mui_cross _ _ _ _ Hinv) as Hc. unfold cross_planned in Hc.
  destruct (is_encoder_init_state r) eqn:Hst.
  - destruct peft as [[pages seen]|]; [|by eexists false, _]. cbn.
    exists true, (mkMU (mu_pools s) (mu_scheduled s ++ [r]) (mu_paused s) (mu_blocks s)
                    (mu_cross_blocks s) pages seen (mu_skip s)).
    split; [by destruct (mu_cross_blocks s)|].
    assert (Hdec : is_decoder r = false) by (unfold is_decoder; by rewrite Hst).
    apply mu_inv_extend; try done; [..|by apply Hpeft].
    + unfold self_plan. rewrite Hdec, app_nil_r. apply Hinv.
    + unfold cross_plan. replace (match cross_kv_cache_manager self with Some _ => _ | None => _ end) with (@nil plan)
        by (rewrite Hdec; by destruct (cross_kv_cache_manager self)). rewrite app_nil_r. apply Hinv.
  - destruct (prepare_blocks_if_schedulable mgr _ _ r cs _) as [blocks|] eqn:Hprep;
      cbn [mbind option_bind]; [|by eexists false, _].
    destruct (planned_step mgr _ l _ r cs blocks (mui_self _ _ _ _ Hinv) Hprep) as (b & Hb & Hpl).
    assert (Hdec : is_decoder r = true) by (unfold is_decoder; by rewrite Hst).
    assert (Hself : self_plan r cs s = [mkPlan r (self_pool (mu_pools s)) cs]) by (unfold self_plan; by rewrite Hdec).
    destruct (cross_kv_cache_manager self) as [cm|] eqn:Ecm.
    + destruct Hc as (cb & -> & Hcb).
      destruct (prepare_blocks_if_schedulable cm _ _ r None cb) as [cross|] eqn:Hprepc;
        cbn [mbind option_bind]; [|by eexists false, _].
      destruct peft as [[pages seen]|]; [|by eexists false, _].
      destruct (planned_step cm _ lc _ r None cross Hcb Hprepc) as (b' & Hb' & Hpl').
      rewrite Hb. cbn. rewrite Hb'. cbn. eexists true, _. split; [done|].
      apply mu_inv_extend; try done; [by rewrite Hself| |by apply Hpeft].
      unfold cross_planned, cross_plan. rewrite Ecm, Hdec. by eexists.
    + rewrite Hc. destruct peft as [[pages seen]|]; [|by eexists false, _].
      rewrite Hb. cbn. eexists true, _. split; [done|].
      apply mu_inv_extend; try done; [by rewrite Hself| |by apply Hpeft].
      unfold cross_planned. by rewrite Ecm.
Qed.

Lemma find_last_started_spec rs i n j :
  find_last_started self rs i n = Some j →
  (i ≤ j < i + n)%nat ∧ ∃ r, rs !! j = Some r ∧ is_started_request self r = true.
Proof.
  induction n as [|n IH]; cbn [find_last_started]; [done|].
  destruct (rs !! (i + n)%nat) as [r|] eqn:E.
  - destruct (is_started_request self r) eqn:Hr.
    + intros [= <-]. split; [lia|by exists r].
    + intros Hj. destruct (IH Hj). split; [lia|done].
  - intros Hj. destruct (IH Hj). split; [lia|done].
Qed.

(** Where the scheduled and the paused requests come from. *)
Record mu_pos (rs : list LlmRequest) (i e : nat) (s : mu_state) : Prop := {
  mup_range : (i ≤ e ≤ length rs)%nat;
  mup_sched : sublist (mu_scheduled s) (take i rs);
  mup_paused : sublist (reverse (mu_paused s)) (drop e rs);
  mup_eligible : Forall (λ r, can_be_scheduled_with_disagg_exception self r = true) (mu_scheduled s);
  mup_started : Forall (λ r, is_started_request self r = true) (mu_paused s);
}.

Lemma mu_pos_next rs i e (s s' : mu_state) r :
  mu_pos rs i e s → rs !! i = Some r → (i < e)%nat →
  mu_paused s' = mu_paused s →
  mu_scheduled s' = mu_scheduled s ∨
  mu_scheduled s' = mu_scheduled s ++ [r] ∧ can_be_scheduled_with_disagg_exception self r = true →
  mu_pos rs (S i) e s'.
Proof.
  intros [Hr Hs Hp He Hst] Hi Hlt Hpe Hsc.
  split; [lia| |by rewrite Hpe| |by rewrite Hpe].
  - rewrite (take_S_r rs i r Hi). destruct Hsc as [->|[-> _]];
      [by apply sublist_inserts_r|by apply sublist_app].
  - destruct Hsc as [->|[-> ?]]; [done|]. apply Forall_app. by repeat constructor.
Qed.

Lemma mu_pos_pause rs i e j (s : mu_state) r :
  mu_pos rs i e s → (i ≤ j < e)%nat → rs !! j = Some r → is_started_request self r = true →
  mu_pos rs i j (pause_request self mgr r s).
Proof.
  intros [Hr Hs Hp He Hst] Hj Hl Hsr. split; simpl; try done; [lia| |].
  - rewrite reverse_snoc, (drop_S rs r j Hl). apply sublist_skip.
    etrans; [exact Hp|]. replace e with (S j + (e - S j))%nat by lia.
    rewrite <- drop_drop. apply sublist_drop.
  - apply Forall_app. by repeat constructor.
Qed.

Lemma mu_inv_pause p l lc (s : mu_state) r : mu_inv p l lc s → mu_inv p l lc (pause_request self mgr r s).
Proof.
  intros [Hs Hc ? ? ? Hp Hst Hcst]. split; simpl; try done; [by apply planned_remove|..].
  - unfold cross_planned in *. destruct (cross_kv_cache_manager self) as [cm|] eqn:E; [|done].
    destruct Hc as (cb & -> & Hcb). eexists; split; [done|]. apply planned_remove; [by apply cross_frees|done].
  - unfold after_pauses. rewrite foldl_app. cbn. unfold after_pauses in Hp. by rewrite <- Hp.
  - eapply computed_mono; [|done]. apply prefix_app_r. done.
  - eapply computed_mono; [|done]. apply prefix_app_r. done.
Qed.

Lemma mu_inv_skip p l lc (s : mu_state) k : mu_inv p l lc s → mu_inv p l lc (mu_with_skip s k).
Proof. intros []. by split. Qed.

(** The summaries the needs were computed with, in the cache of the loop. *)
Definition planned_summaries (s : mu_state) (l : list plan) : Prop :=
  Forall (λ c, pl_summary c = get_summary self (summary_by_req (mu_skip s)) (pl_req c)) l.

Lemma cached_analysis_other (cache : gmap Z Summary) rid o i :
  i ≠ rid → (cached_analysis cache rid o).2 !! i = cache !! i.
Proof.
  intros Hne. unfold cached_analysis. destruct (cache !! rid); [done|]. destruct o; cbn; [|done]. by rewrite lookup_insert_ne.
Qed.

(** [_beneficial_to_skip] adds the summary of the request it looks at, and
    no other. *)
Lemma skip_summaries pl r k i :
  i ≠ py_request_id r → summary_by_req (beneficial_to_skip self pl r k).2 !! i = summary_by_req k !! i.
Proof.
  intros Hne. unfold beneficial_to_skip. destruct (negb _); [done|]. destruct (negb _); [done|].
  set (self_half := match kv_cache_manager self with Some _ => _ | None => _ end).
  assert (Hc : self_half.2 !! i = summary_by_req k !! i).
  { unfold self_half. repeat case_match; try done. by apply cached_analysis_other. }
  destruct self_half as [summary cache]. cbn in Hc. cbn zeta. repeat case_match; done.
Qed.

Lemma mu_skip_step rs i e p l lc (s : mu_state) r k :
  mu_inv p l lc s → mu_pos rs i e s → rs !! i = Some r → NoDup (py_request_id <$> rs) →
  (∀ j, j ≠ py_request_id r → summary_by_req k !! j = summary_by_req (mu_skip s) !! j) →
  planned_summaries s l → planned_summaries (mu_with_skip s k) l.
Proof.
  intros Hinv Hpos Hr Hnd Hk Hl. unfold planned_summaries in *. rewrite Forall_forall in *. intros c Hc. rewrite (Hl c Hc).
  unfold get_summary. cbn. rewrite Hk; [done|]. intros Heq.
  assert (Hin : pl_req c ∈ take i rs).
  { eapply elem_of_submseteq; [|apply sublist_submseteq, (mup_sched _ _ _ _ Hpos)].
    apply (list_elem_of_fmap_2 pl_req) in Hc. rewrite (mui_reqs _ _ _ _ Hinv) in Hc. by apply list_elem_of_filter in Hc as [_ ?]. }
  apply list_elem_of_lookup in Hin as [j [Hj Hlt]%lookup_take_Some].
  assert (j = i) as ->; [|lia]. apply (NoDup_lookup _ _ _ (py_request_id r) Hnd); rewrite list_lookup_fmap.
  - rewrite Hj. cbn. by rewrite Heq.
  - by rewrite Hr.
Qed.

(** The loop ends within one step per request, raising only for an encoder
    request without a cross pool. *)
Lemma max_util_loop_spec fuel rs i e p l lc (s : mu_state) :
  mu_inv p l lc s → mu_pos rs i e s → (NoDup (py_request_id <$> rs) → planned_summaries s l) →
  encoder_supported rs → (e - i ≤ fuel)%nat →
  ∃ s' l' lc' i' e', max_util_loop self mgr fuel rs i e s = Ok s' ∧
    mu_inv p l' lc' s' ∧ mu_pos rs i' e' s' ∧ (NoDup (py_request_id <$> rs) → planned_summaries s' l').
Proof.
  revert i e l lc s. induction fuel as [|fuel IH]; intros i e l lc s Hinv Hpos Hsum Henc Hf;
    cbn [max_util_loop]; case_bool_decide as Hlt;
    try (by exists s, l, lc, i, e); try lia.
  destruct (lookup_lt_is_Some_2 rs i) as [r Hr]; [destruct Hpos; lia|]. rewrite Hr.
  cbn [of_option mbind result_bind].
  destruct (can_be_scheduled_with_disagg_exception self r) eqn:Hel; cbn [negb].
  2:{ eapply IH; try done; [|lia]. by eapply mu_pos_next; eauto. }
  assert (is_encoder_init_state r && bool_decide (mu_cross_blocks s = None) = false) as ->.
  { destruct Henc as [[cm Ecm]|Henc].
    - pose proof (mui_cross _ _ _ _ Hinv) as Hc. unfold cross_planned in Hc. rewrite Ecm in Hc.
      destruct Hc as (? & -> & _). rewrite bool_decide_eq_false_2 by done. apply andb_false_r.
    - rewrite Forall_forall in Henc. by rewrite (Henc r) by (by eapply list_elem_of_lookup_2). }
  assert (Hk : ∀ j, j ≠ py_request_id r → summary_by_req (if is_skipping_relevant self
      then beneficial_to_skip self (mu_pools s) r (mkSkip (ctx_blocks (mu_skip s)) ∅ (summary_by_req (mu_skip s)) None)
      else (false, mu_skip s)).2 !! j = summary_by_req (mu_skip s) !! j).
  { intros j Hj. destruct (is_skipping_relevant self); [|done]. by rewrite skip_summaries. }
  destruct (if is_skipping_relevant self then _ else _) as [skip k]. cbn [snd] in Hk.
  pose proof (mu_inv_skip p l lc s k Hinv) as Hinv'.
  assert (Hsum' : NoDup (py_request_id <$> rs) → planned_summaries (mu_with_skip s k) l)
    by (intros Hnd; by eapply mu_skip_step; eauto).
  destruct skip.
  { eapply IH; try done; [|lia]. by eapply mu_pos_next; eauto. }
  destruct (try_scheduling_request_spec p l lc (mu_with_skip s k) r
    (get_summary self (summary_by_req k) r) Hinv') as (b & s1 & -> & Heff).
  cbn [mbind result_bind]. destruct b.
  - destruct Heff as (Hs1 & Hp1 & _ & Hk1 & Hinv1).
    eapply IH; [done|eapply mu_pos_next; eauto| |done|lia].
    intros Hnd. unfold planned_summaries. rewrite Hk1. apply Forall_app. split; [by apply Hsum'|].
    unfold self_plan. case_match; [|done]. by apply Forall_singleton.
  - subst s1. destruct (find_last_started _ _ _ _) as [j|] eqn:Hfind.
    2:{ exists (mu_with_skip s k), l, lc, i, e. split_and!; try done. by destruct Hpos; split. }
    apply find_last_started_spec in Hfind as (Hj & r' & Hr' & Hst). rewrite Hr'.
    cbn [of_option mbind result_bind].
    eapply IH; [by apply mu_inv_pause| |done|done|lia].
    eapply mu_pos_pause; [|split; [apply Hj|]|done|done].
    + by destruct Hpos; split.
    + lia.
Qed.

Lemma mu_inv_init p active :
  let s := max_util_init self mgr p active in mu_inv (mu_pools s) [] [] s.
Proof.
  unfold max_util_init. case_match. cbn zeta. split; simpl; try done; [apply planned_init| |lia].
  unfold cross_planned. destruct (cross_kv_cache_manager self) as [cm|]; simpl; [|done].
  eexists; split; [done|]. apply planned_init.
Qed.

Record max_util_ok p (active : list LlmRequest) (s : mu_state) (l lc : list plan) : Prop := {
  mo_order : sublist (mu_scheduled s ++ reverse (mu_paused s)) active;
  mo_eligible : Forall (λ r, can_be_scheduled_with_disagg_exception self r = true) (mu_scheduled s);
  mo_started : Forall (λ r, is_started_request self r = true) (mu_paused s);
  mo_inv : mu_inv (mu_pools (max_util_init self mgr p active)) l lc s;
  mo_summaries : NoDup (py_request_id <$> active) → planned_summaries s l;
}.

Lemma max_util_run_spec p active :
  encoder_supported active →
  ∃ s l lc, max_util_run self mgr p active = Ok s ∧ max_util_ok p active s l lc.
Proof.
  intros Henc. unfold max_util_run.
  destruct (max_util_loop_spec (length active) active 0 (length active) _ [] []
    (max_util_init self mgr p active) (mu_inv_init p active)) as (s & l & lc & i & e & -> & Hinv & [Hr Hs Hp He Hst] & Hsum);
    [|by intros _; constructor|done|lia|].
  { unfold max_util_init. case_match. split; simpl; try done; [lia|]. apply sublist_nil_l. }
  exists s, l, lc. split; [done|]. split; try done.
  rewrite <- (take_drop i active). apply sublist_app; [done|].
  etrans; [exact Hp|]. replace e with (i + (e - i))%nat by lia.
  rewrite <- drop_drop. apply sublist_drop.
Qed.
End max_util.

(** ** All policies *)

Lemma max_requests_loop_spec active sched :
  Z.of_nat (length sched) ≤ Z.max 0 (max_num_requests self) →
  ∃ l, max_requests_loop self active sched = sched ++ l ∧ sublist l active ∧
    Forall (λ r, can_be_scheduled_with_disagg_exception self r = true) l ∧
    Z.of_nat (length (sched ++ l)) ≤ Z.max 0 (max_num_requests self).
Proof.
  revert sched. induction active as [|r rs IH]; intros sched Hn; cbn [max_requests_loop].
  { exists []. rewrite app_nil_r. by split_and!. }
  destruct (cap_can_be_scheduled self r) eqn:Hel; cbn [negb].
  2:{ destruct (IH sched Hn) as (l & ? & ? & ? & ?). exists l. split_and!; try done. by constructor. }
  destruct (_ <=? _) eqn:Hmax.
  { exists []. rewrite app_nil_r. split_and!; try done. apply sublist_nil_l. }
  destruct (_ || _ || _).
  - destruct (IH (sched ++ [r])) as (l & -> & ? & ? & ?); [rewrite length_app; simpl; lia|].
    exists (r :: l). rewrite <- (assoc_L (++)) in *. split_and!; try done; constructor; try done.
    unfold can_be_scheduled_with_disagg_exception. by rewrite Hel, orb_true_r.
  - destruct (IH sched Hn) as (l & ? & ? & ? & ?). exists l. split_and!; try done. by constructor.
Qed.

(** Pausing never takes free blocks away, in either pool. *)
Definition managers_free : Prop :=
  (∀ mgr, kv_cache_manager self = Some mgr → removing_frees mgr) ∧
  (∀ mgr, cross_kv_cache_manager self = Some mgr → removing_frees mgr).

Lemma submseteq_filter_forall {A} (P : A → Prop) `{∀ x, Decision (P x)} (l k : list A) :
  l ⊆+ filter P k → Forall P l ∧ l ⊆+ k.
Proof.
  intros Hsub. split.
  - apply Forall_forall. intros x Hx. eapply elem_of_submseteq in Hx; [|exact Hsub].
    apply list_elem_of_filter in Hx. apply Hx.
  - etrans; [exact Hsub|]. apply sublist_submseteq, sublist_filter.
Qed.

Lemma policy_schedule_spec p active :
  encoder_supported active → managers_free →
  ∃ sched paused p', policy_schedule self p active = Ok (sched, paused, p') ∧
    sched ++ paused ⊆+ active ∧
    Forall (λ r, can_be_scheduled_with_disagg_exception self r = true) sched ∧
    Forall (λ r, is_started_request self r = true) paused ∧
    Z.of_nat (length sched) ≤ Z.max 0 (max_num_requests self).
Proof.
  intros Henc [Hf Hcf]. unfold policy_schedule.
  destruct (kv_cache_manager self) as [mgr|] eqn:Emgr.
  2:{ destruct (max_requests_loop_spec active []) as (l & Hl & ? & ? & ?); [simpl; lia|].
      unfold max_requests_schedule. rewrite Hl. cbn. eexists _, _, _. split; [done|].
      rewrite app_nil_r. split_and!; try done. by apply sublist_submseteq. }
  assert (Hne : ∀ b, ∃ s, no_evict_run self b mgr p active = Ok s ∧
    ne_scheduled s ⊆+ active ∧
    Forall (λ r, can_be_scheduled_with_disagg_exception self r = true) (ne_scheduled s) ∧
    Z.of_nat (length (ne_scheduled s)) ≤ Z.max 0 (max_num_requests self)).
  { intros b. destruct (no_evict_run_spec b mgr p active Henc) as (s & ch & g & a & E & []).
    exists s. rewrite no_sched0. destruct (submseteq_filter_forall _ _ _ no_sub0). done. }
  destruct (scheduler_policy self).
  - destruct (max_util_run_spec mgr (Hf mgr eq_refl) Hcf p active Henc) as (s & l & lc & -> & []).
    cbn. eexists _, _, _. split; [done|]. split_and!; try done; [|apply mo_inv0].
    rewrite <- (reverse_Permutation (mu_paused s)). by apply sublist_submseteq.
  - destruct (Hne false) as (s & E & ? & ? & ?). unfold no_evict_schedule. rewrite E. cbn.
    eexists _, _, _. split; [done|]. by rewrite app_nil_r.
  - destruct (Hne true) as (s & E & ? & ? & ?). unfold no_evict_schedule. rewrite E. cbn.
    eexists _, _, _. split; [done|]. by rewrite app_nil_r.
Qed.

Lemma classify_output_perm l :
  (classify_output l).1 ++ (classify_output l).2 ≡ₚ l.
Proof.
  unfold classify_output. cbn [fst snd]. induction l as [|r l IH]; [done|].
  rewrite !filter_cons. destruct (is_disagg_generation_init_state r); simpl.
  - by rewrite <- Permutation_middle, IH.
  - by rewrite IH.
Qed.

Lemma capacity_schedule_request_spec p active :
  encoder_supported active → managers_free →
  ∃ fitting disagg paused p',
    capacity_schedule_request self p active = Ok (fitting, disagg, paused, p') ∧
    fitting ++ disagg ++ paused ⊆+ active ∧
    Forall (λ r, cap_can_be_scheduled self r = true ∧ is_disagg_generation_init_state r = false)
      fitting ∧
    Forall (λ r, is_disagg_generation_init_state r = true) disagg ∧
    Forall (λ r, is_started_request self r = true) paused ∧
    Z.of_nat (length (fitting ++ disagg)) ≤ Z.max 0 (max_num_requests self).
Proof.
  intros Henc Hfree. destruct (policy_schedule_spec p active Henc Hfree)
    as (sched & paused & p' & Heq & Hsub & Hel & Hst & Hn).
  unfold capacity_schedule_request. rewrite Heq. cbn [mbind result_bind].
  pose proof (classify_output_perm sched) as Hperm.
  assert (Hf : Forall (λ r, cap_can_be_scheduled self r = true ∧
      is_disagg_generation_init_state r = false) (classify_output sched).1 ∧
    Forall (λ r, is_disagg_generation_init_state r = true) (classify_output sched).2).
  { unfold classify_output. cbn [fst snd]. split; apply Forall_forall; intros r.
    - intros [Hr Hin]%list_elem_of_filter. split; [|done].
      rewrite Forall_forall in Hel. specialize (Hel r Hin).
      unfold can_be_scheduled_with_disagg_exception in Hel. by rewrite Hr in Hel.
    - by intros [? _]%list_elem_of_filter. }
  destruct (classify_output sched) as [fit dis]. cbn [fst snd] in *.
  eexists _, _, _, _. split; [done|]. split_and!; try done; [|apply Hf..|].
  - by rewrite (assoc_L (++)), Hperm.
  - by rewrite Hperm.
Qed.

(** ** Properties *)

(** C1: guaranteed no-evict.  With a cross pool for encoder requests, the
    policy returns; running generations come first and the admitted requests
    after them, all eligible and each at most once; there are at most
    [max_num_requests]; the block accounts charge exactly the scheduled
    decoder requests, and as soon as one of them was admitted now, all of
    them together can run to completion in the free blocks of every window
    of both pools; the adapters of all scheduled requests, counted once each,
    fit the PEFT pages as soon as anything was admitted; and a static batch
    admits nothing while generations are running. *)
Theorem no_evict_guarantees_completion (static_batch : bool) mgr (p : pools (K:=K))
    (active : list LlmRequest) :
  encoder_supported active →
  ∃ s charged gens admitted,
    no_evict_run self static_batch mgr p active = Ok s ∧
    no_evict_ok static_batch mgr p active s charged gens admitted.
Proof. apply no_evict_run_spec. Qed.

(** C24: maximum utilization.  The loop ends within one step per request;
    what is scheduled and what is paused are, in order, a subsequence of the
    active requests with every paused request behind every scheduled one;
    only started requests are paused; the planned blocks of each window, in
    the pool and in the cross pool, are the sum of the needs of exactly the
    scheduled decoder requests, each computed in the state the pauses before
    it left (and, when request ids are distinct, with the summary the loop has
    for it), and the managers report them free, also after the pauses; request
    count and PEFT pages stay within their limits. *)
Theorem max_util_plans_within_free_blocks mgr (p : pools (K:=K)) (active : list LlmRequest) :
  encoder_supported active → removing_frees mgr →
  (∀ cm, cross_kv_cache_manager self = Some cm → removing_frees cm) →
  ∃ s l lc, max_util_run self mgr p active = Ok s ∧ max_util_ok mgr p active s l lc.
Proof. intros Henc Hm Hc. by apply max_util_run_spec. Qed.

(** The capacity scheduler, whatever its policy, returns disjoint lists
    drawn from the active requests: fitting requests in the schedulable state
    range, disaggregated generation inits, and paused requests that had
    started; at most [max_num_requests] requests fit. *)
Theorem capacity_output_partitions_active (p : pools (K:=K)) (active : list LlmRequest) :
  encoder_supported active → managers_free →
  ∃ fitting disagg paused p',
    capacity_schedule_request self p active = Ok (fitting, disagg, paused, p') ∧
    fitting ++ disagg ++ paused ⊆+ active ∧
    Forall (λ r, cap_can_be_scheduled self r = true ∧ is_disagg_generation_init_state r = false)
      fitting ∧
    Forall (λ r, is_disagg_generation_init_state r = true) disagg ∧
    Forall (λ r, is_started_request self r = true) paused ∧
    Z.of_nat (length (fitting ++ disagg)) ≤ Z.max 0 (max_num_requests self).
Proof. apply capacity_schedule_request_spec. Qed.
End props.

(** *** Witnesses

    A manager whose state is its number of free blocks: one window of 1024,
    five blocks to completion and three per step for every request, and a
    paused sequence gives two blocks back. *)

#[local] Instance demo_prefix_reuse : PrefixReuse () Z := {|
  first_new_block _ := None; zero_prefix_reuse_summary := () |}.

Definition demo_manager : KVCacheManager (K:=Z) (Summary:=()) := {|
  num_free_blocks_per_window_size k := {[ 1024 := k ]};
  max_attention_window_vec := [1024]; enable_block_reuse := false; is_variable_window := false;
  get_remaining_blocks_to_completion _ _ _ _ := 5;
  get_needed_blocks_one_step _ _ _ _ _ := 3;
  scheduling_has_free_blocks k n _ := n <=? k;
  start_scheduling k := k; scheduling_remove_sequence k _ := k + 2;
  analyze_prefix_reuse _ _ := (); analyze_encoder_prefix_reuse _ _ := None |}.

Definition demo_capacity (policy : CapacitySchedulerPolicy) :
    PyCapacityScheduler (K:=Z) (Summary:=()) := {|
  max_num_requests := 8; kv_cache_manager := Some demo_manager; peft_cache_manager := None;
  scheduler_policy := policy; cross_kv_cache_manager := None; two_step_lookahead := false;
  cap_no_schedule_until_state := CONTEXT_INIT; cap_no_schedule_after_state := GENERATION_COMPLETE;
  enable_prefix_aware_scheduling := true |}.

Definition demo_llm_request (i : Z) (st : LlmRequestState) : LlmRequest := {|
  request_id := i; state := st; prompt_len := 8; context_current_position := 0;
  prepopulated_prompt_len := 0; chunk_size_field := 0; estimated_reusable_tokens := 0;
  num_draft_tokens := 0; num_tokens := 8; beam_width_by_iter := 1; encoder_output_len := 0;
  encoder_ready := None; lora_task_id := None; expect_snapshot_points := [] |}.

Definition demo_pool_requests : list LlmRequest :=
  [demo_llm_request 1 CONTEXT_INIT; demo_llm_request 2 CONTEXT_INIT;
   demo_llm_request 3 GENERATION_IN_PROGRESS].

Lemma demo_encoder_supported policy : encoder_supported (demo_capacity policy) demo_pool_requests.
Proof. right. by repeat constructor. Qed.

Lemma demo_removing_frees : removing_frees demo_manager.
Proof. intros k rid n ws. simpl. lia. Qed.

Lemma no_evict_witness :
  ∃ s charged gens admitted,
    no_evict_run (demo_capacity GUARANTEED_NO_EVICT) false demo_manager (mkPools 12 0)
      demo_pool_requests = Ok s ∧
    no_evict_ok (demo_capacity GUARANTEED_NO_EVICT) false demo_manager (mkPools 12 0)
      demo_pool_requests s charged gens admitted ∧
    (request_id <$> ne_scheduled s) = [3; 1].
Proof.
  destruct (no_evict_guarantees_completion (demo_capacity GUARANTEED_NO_EVICT) false demo_manager
    (mkPools 12 0) demo_pool_requests (demo_encoder_supported _)) as (s & ch & g & a & Heq & Hok).
  exists s, ch, g, a. split; [exact Heq|]. split; [exact Hok|].
  vm_compute in Heq. injection Heq as <-. reflexivity.
Defined.

(** The same with a cross pool. *)
Definition demo_cross_capacity : PyCapacityScheduler (K:=Z) (Summary:=()) := {|
  max_num_requests := 8; kv_cache_manager := Some demo_manager; peft_cache_manager := None;
  scheduler_policy := MAX_UTILIZATION; cross_kv_cache_manager := Some demo_manager; two_step_lookahead := false;
  cap_no_schedule_until_state := CONTEXT_INIT; cap_no_schedule_after_state := GENERATION_COMPLETE;
  enable_prefix_aware_scheduling := true |}.

Lemma max_util_witness :
  ∃ s l lc,
    max_util_run demo_cross_capacity demo_manager (mkPools 5 9) demo_pool_requests = Ok s ∧
    max_util_ok demo_cross_capacity demo_manager (mkPools 5 9) demo_pool_requests s l lc ∧
    (request_id <$> mu_scheduled s) = [1; 2] ∧ (request_id <$> mu_paused s) = [3] ∧
    (request_id ∘ pl_req <$> lc) = [1; 2].
Proof.
  destruct (max_util_plans_within_free_blocks demo_cross_capacity demo_manager
    (mkPools 5 9) demo_pool_requests ltac:(left; by eexists) demo_removing_frees
    ltac:(intros cm [= <-]; exact demo_removing_frees)) as (s & l & lc & Heq & Hok).
  exists s, l, lc. split; [exact Heq|]. split; [exact Hok|].
  pose proof (mui_cross_reqs _ _ _ _ _ _ (mo_inv _ _ _ _ _ _ _ Hok) ltac:(by eexists)) as Hlc.
  rewrite list_fmap_compose, Hlc. vm_compute in Heq. injection Heq as <-. split_and!; reflexivity.
Defined.

Lemma capacity_output_witness :
  ∃ fitting disagg paused p',
    capacity_schedule_request (demo_capacity STATIC_BATCH) (mkPools 12 0) demo_pool_requests
      = Ok (fitting, disagg, paused, p') ∧
    Z.of_nat (length (fitting ++ disagg)) ≤ 8 ∧ (request_id <$> fitting) = [3].
Proof.
  destruct (capacity_output_partitions_active (demo_capacity STATIC_BATCH) (mkPools 12 0)
    demo_pool_requests (demo_encoder_supported _)) as (f & d & pa & p' & Heq & _ & _ & _ & _ & Hn).
  { split; [intros m [= <-]; exact demo_removing_frees|discriminate]. }
  exists f, d, pa, p'. split; [exact Heq|]. split; [exact Hn|].
  vm_compute in Heq. injection Heq as <- _ _ _. reflexivity.
Defined.
