(* ===== verification/Unified.v ===== *)
(** * Putting the schedulers together ([scheduler/scheduler.py])

    [ScheduledRequests], [SerializableSchedulerOutput], [SimpleScheduler]
    over any capacity and micro-batch scheduler, and
    [SimpleUnifiedScheduler], which runs the two Python schedulers.  The
    unified scheduler inherits both guarantees: memory from the capacity
    scheduler, tokens and batch size from the micro-batch scheduler. *)

From S2P Require Import Prelude Requests MicroBatch MicroBatchProps Capacity CapacityProps.

Local Open Scope Z_scope.

(** ** [ScheduledRequests] *)

Record ScheduledRequests := mkScheduled {
  sr_encoder_requests : list LlmRequest;
  sr_context_requests_chunking : list LlmRequest;
  sr_context_requests_last_chunk : list LlmRequest;
  sr_generation_requests : list LlmRequest;
  sr_paused_requests : list LlmRequest;
}.

Definition sr_empty : ScheduledRequests := mkScheduled [] [] [] [] [].

Definition sr_num_context_requests (s : ScheduledRequests) : nat :=
  length (sr_context_requests_chunking s) + length (sr_context_requests_last_chunk s).

Definition sr_is_generation_only (s : ScheduledRequests) : bool :=
  bool_decide (sr_num_context_requests s = 0%nat) &&
  forallb (λ r, num_draft_tokens r =? 0) (sr_generation_requests s).

Definition sr_can_run_cuda_graph (s : ScheduledRequests) : bool :=
  bool_decide (sr_num_context_requests s = 0%nat).

Definition sr_batch_size (s : ScheduledRequests) : nat :=
  sr_num_context_requests s + length (sr_generation_requests s).

Definition sr_context_requests (s : ScheduledRequests) : list LlmRequest :=
  sr_context_requests_chunking s ++ sr_context_requests_last_chunk s.

Definition sr_all_requests (s : ScheduledRequests) : list LlmRequest :=
  sr_context_requests s ++ sr_generation_requests s.

Definition append_encoder_request (r : LlmRequest) (s : ScheduledRequests) : ScheduledRequests :=
  mkScheduled (sr_encoder_requests s ++ [r]) (sr_context_requests_chunking s)
    (sr_context_requests_last_chunk s) (sr_generation_requests s) (sr_paused_requests s).

Definition append_context_request (r : LlmRequest) (s : ScheduledRequests) :
    result ScheduledRequests :=
  last ← is_last_context_chunk r;
  if (last : bool)
  then Ok (mkScheduled (sr_encoder_requests s) (sr_context_requests_chunking s)
             (sr_context_requests_last_chunk s ++ [r]) (sr_generation_requests s)
             (sr_paused_requests s))
  else Ok (mkScheduled (sr_encoder_requests s) (sr_context_requests_chunking s ++ [r])
             (sr_context_requests_last_chunk s) (sr_generation_requests s)
             (sr_paused_requests s)).

Definition append_generation_request (r : LlmRequest) (s : ScheduledRequests) :
    ScheduledRequests :=
  mkScheduled (sr_encoder_requests s) (sr_context_requests_chunking s)
    (sr_context_requests_last_chunk s) (sr_generation_requests s ++ [r]) (sr_paused_requests s).

Fixpoint append_context_requests (rs : list LlmRequest) (s : ScheduledRequests) :
    result ScheduledRequests :=
  match rs with
  | [] => Ok s
  | r :: rs' => s' ← append_context_request r s; append_context_requests rs' s'
  end.

Definition reset_context_requests (context_requests : option (list LlmRequest))
    (s : ScheduledRequests) : result ScheduledRequests :=
  let rs := match context_requests with Some l => l | None => sr_context_requests s end in
  append_context_requests rs
    (mkScheduled (sr_encoder_requests s) [] [] (sr_generation_requests s) (sr_paused_requests s)).

(** ** [SerializableSchedulerOutput] *)

Record SerializableSchedulerOutput := mkSerializable {
  so_encoder_requests : list Z;
  so_context_requests_chunking : list Z;
  so_context_requests_last_chunk : list Z;
  so_generation_requests : list Z;
  so_paused_requests : list Z;
  so_fitting_disagg_gen_init_requests : list Z;
  so_num_fitting_requests : Z;
  so_wait_for_disagg_gen_transfer_progress : bool;
}.

Definition from_scheduler_result (scheduled_requests : ScheduledRequests)
    (fitting_disagg_gen_init_requests : list LlmRequest) (num_fitting_requests : Z)
    (wait_for_disagg_gen_transfer_progress : bool) : SerializableSchedulerOutput :=
  mkSerializable
    (request_id <$> sr_encoder_requests scheduled_requests)
    (request_id <$> sr_context_requests_chunking scheduled_requests)
    (request_id <$> sr_context_requests_last_chunk scheduled_requests)
    (request_id <$> sr_generation_requests scheduled_requests)
    (request_id <$> sr_paused_requests scheduled_requests)
    (request_id <$> fitting_disagg_gen_init_requests)
    num_fitting_requests wait_for_disagg_gen_transfer_progress.

(** [{req.request_id: req for req in active_requests}] *)
Definition id_to_request (active_requests : list LlmRequest) : gmap Z LlmRequest :=
  foldl (λ m r, <[request_id r := r]> m) ∅ active_requests.

(** [[id_to_request[req_id] for req_id in ids]] *)
Definition lookup_ids (m : gmap Z LlmRequest) (ids : list Z) : result (list LlmRequest) :=
  map_result (λ i, of_option KeyError (m !! i)) ids.

#[global] Arguments lookup_ids : simpl never.

Definition to_scheduler_result (o : SerializableSchedulerOutput)
    (active_requests : list LlmRequest) :
    result (ScheduledRequests * list LlmRequest * Z) :=
  let m := id_to_request active_requests in
  enc ← lookup_ids m (so_encoder_requests o);
  chunking ← lookup_ids m (so_context_requests_chunking o);
  last ← lookup_ids m (so_context_requests_last_chunk o);
  gen ← lookup_ids m (so_generation_requests o);
  paused ← lookup_ids m (so_paused_requests o);
  disagg ← lookup_ids m (so_fitting_disagg_gen_init_requests o);
  Ok (mkScheduled enc chunking last gen paused, disagg, so_num_fitting_requests o).

(** ** [SimpleScheduler] *)

Record SchedulerOutput := mkOutput {
  so_encoder : list LlmRequest;
  so_context : list LlmRequest;
  so_generation : list LlmRequest;
  so_paused : list LlmRequest;
  so_fitting_disagg_gen_init : list LlmRequest;
  so_num_fitting : Z;
}.

Section simple.
(** Any capacity scheduler over a state [P] and any micro-batch scheduler. *)
Context {P : Type}.
Context (capacity : P → list LlmRequest →
  result (list LlmRequest * list LlmRequest * list LlmRequest * P)).
Context (micro_batch : gset Z → list LlmRequest → result mb_output).

Definition simple_schedule_request (p : P) (active_requests : list LlmRequest)
    (inflight_request_ids : gset Z) : result (SchedulerOutput * P) :=
  let active_requests := drop_decoder_context_requests_waiting_for_encoder_output active_requests in
  '(fitting_requests, fitting_disagg, paused_requests, p') ← capacity p active_requests;
  out ← micro_batch inflight_request_ids fitting_requests;
  Ok (mkOutput (out_encoder out) (out_context out) (out_generation out) paused_requests
        fitting_disagg (Z.of_nat (length fitting_requests)), p').

Definition simple_can_schedule (p : P) (requests : list LlmRequest) : result (bool * P) :=
  let requests := drop_decoder_context_requests_waiting_for_encoder_output requests in
  '(fitting_requests, _, _, p') ← capacity p requests;
  Ok (bool_decide (length fitting_requests = length requests), p').
End simple.

(** ** [SimpleUnifiedScheduler] *)

Fixpoint is_prefix (s t : string) : bool :=
  match s, t with
  | EmptyString, _ => true
  | String a s', String b t' => bool_decide (a = b) && is_prefix s' t'
  | String _ _, EmptyString => false
  end.

(** [needle in haystack] on strings *)
Fixpoint py_contains (needle haystack : string) : bool :=
  is_prefix needle haystack ||
  match haystack with
  | EmptyString => false
  | String _ t => py_contains needle t
  end.

(** The constructor's choice of policy from [str(ctx_chunk_config[0])]. *)
Definition chunking_policy_of_name (name : string) : ChunkingPolicy :=
  if py_contains "EQUAL_PROGRESS" name then EQUAL_PROGRESS
  else if py_contains "FORCE_CHUNK" name then FORCE_CHUNK
  else FIRST_COME_FIRST_SERVED.

(** The estimate the C++ manager leaves on a request while its blocks are
    counted. *)
Definition with_estimate (credit : LlmRequest → Z) (r : LlmRequest) : LlmRequest :=
  {| request_id := request_id r; state := state r; prompt_len := prompt_len r;
     context_current_position := context_current_position r;
     prepopulated_prompt_len := prepopulated_prompt_len r;
     chunk_size_field := chunk_size_field r;
     estimated_reusable_tokens := credit r;
     num_draft_tokens := num_draft_tokens r; num_tokens := num_tokens r;
     beam_width_by_iter := beam_width_by_iter r;
     encoder_output_len := encoder_output_len r; encoder_ready := encoder_ready r;
     lora_task_id := lora_task_id r;
     expect_snapshot_points := expect_snapshot_points r |}.

Section unified.
Context {K Summary BlockKey : Type} `{Countable BlockKey} `{!PrefixReuse Summary BlockKey}.

Record SimpleUnifiedScheduler := {
  us_capacity_scheduler : PyCapacityScheduler (K:=K) (Summary:=Summary);
  us_micro_batch_scheduler : PyMicroBatchScheduler;
}.

(** [__init__] *)
Definition unified_init (max_batch_size : Z) (max_num_tokens : option Z)
    (kv_cache_manager cross_kv_cache_manager : option KVCacheManager)
    (peft_cache_manager : option PeftCacheManager) (scheduler_policy : CapacitySchedulerPolicy)
    (ctx_chunk_config : option (string * Z)) (two_step_lookahead : bool)
    (scheduler_capacity : option Z) (no_schedule_until_state : LlmRequestState)
    (enable_prefix_aware_scheduling : bool) : SimpleUnifiedScheduler :=
  let capacity := match scheduler_capacity with Some c => c | None => max_batch_size end in
  {| us_capacity_scheduler :=
       {| max_num_requests := capacity; kv_cache_manager := kv_cache_manager;
          peft_cache_manager := peft_cache_manager; scheduler_policy := scheduler_policy;
          cross_kv_cache_manager := cross_kv_cache_manager;
          two_step_lookahead := two_step_lookahead;
          cap_no_schedule_until_state := no_schedule_until_state;
          cap_no_schedule_after_state := GENERATION_COMPLETE;
          enable_prefix_aware_scheduling := enable_prefix_aware_scheduling |};
     us_micro_batch_scheduler :=
       {| max_batch_size := max_batch_size; max_num_tokens := max_num_tokens;
          ctx_chunk_config :=
            (λ c : string * Z, {| chunking_policy := chunking_policy_of_name c.1;
                                  chunk_unit_size := c.2 |}) <$> ctx_chunk_config;
          no_schedule_until_state := no_schedule_until_state;
          no_schedule_after_state := GENERATION_TO_COMPLETE |} |}.

(** [schedule_request] and [can_schedule]: those of [SimpleScheduler] over
    the two Python schedulers; [credit] is what the manager's block queries
    record on each request. *)
Definition unified_capacity (self : SimpleUnifiedScheduler) (credit : LlmRequest → Z)
    (p : pools (K:=K)) (rs : list LlmRequest) :
    result (list LlmRequest * list LlmRequest * list LlmRequest * pools (K:=K)) :=
  fmap (M:=result) (λ '(fitting, disagg, paused, p'),
    (with_estimate credit <$> fitting, disagg, paused, p'))
    (capacity_schedule_request (us_capacity_scheduler self) p rs).

Definition unified_schedule_request (self : SimpleUnifiedScheduler) (credit : LlmRequest → Z)
    (p : pools (K:=K)) (active_requests : list LlmRequest) (inflight_request_ids : gset Z) :
    result (SchedulerOutput * pools (K:=K)) :=
  simple_schedule_request (unified_capacity self credit)
    (schedule (us_micro_batch_scheduler self)) p active_requests inflight_request_ids.

Definition unified_can_schedule (self : SimpleUnifiedScheduler) (credit : LlmRequest → Z)
    (p : pools (K:=K)) (requests : list LlmRequest) : result (bool * pools (K:=K)) :=
  simple_can_schedule (unified_capacity self credit) p requests.
End unified.

(** ** Serialization of a schedule *)

Lemma id_to_request_snoc rs r :
  id_to_request (rs ++ [r]) = <[request_id r := r]> (id_to_request rs).
Proof. unfold id_to_request. by rewrite foldl_app. Qed.

(** With distinct ids every active request is found under its id. *)
Lemma id_to_request_lookup rs r :
  NoDup (request_id <$> rs) → r ∈ rs → id_to_request rs !! request_id r = Some r.
Proof.
  induction rs as [|x rs IH] using rev_ind; [intros _ Hr; by apply not_elem_of_nil in Hr|].
  rewrite fmap_app. intros (Hnd & Hdisj & _)%NoDup_app Hr.
  rewrite id_to_request_snoc. apply elem_of_app in Hr as [Hr|Hr].
  - rewrite lookup_insert_ne; [by apply IH|]. intros Heq.
    apply (Hdisj (request_id r)); [by apply list_elem_of_fmap_2|].
    simpl. rewrite Heq. by left.
  - apply list_elem_of_singleton in Hr as ->. by rewrite lookup_insert_eq.
Qed.

Lemma id_to_request_dom rs i : is_Some (id_to_request rs !! i) ↔ i ∈ request_id <$> rs.
Proof.
  induction rs as [|x rs IH] using rev_ind.
  { split; [by intros [? ?]|by intros ?%not_elem_of_nil]. }
  rewrite id_to_request_snoc, fmap_app, elem_of_app, lookup_insert_is_Some, IH. simpl.
  rewrite list_elem_of_singleton. destruct (decide (request_id x = i)) as [->|Hne]; [tauto|].
  split; [intros [?|[_ ?]]; [done|by left]|intros [?|?]; [by right|congruence]].
Qed.

Lemma lookup_ids_roundtrip active rs :
  NoDup (request_id <$> active) → rs ⊆ active →
  lookup_ids (id_to_request active) (request_id <$> rs) = Ok rs.
Proof.
  intros Hnd. induction rs as [|r rs IH]; intros Hsub; [done|].
  unfold lookup_ids in *. rewrite fmap_cons. cbn [map_result].
  rewrite (id_to_request_lookup active r) by (done || apply Hsub; left). cbn.
  rewrite IH; [done|]. intros x Hx. apply Hsub. by right.
Qed.

Lemma lookup_ids_ok active ids :
  (∃ rs, lookup_ids (id_to_request active) ids = Ok rs) ↔ ids ⊆ request_id <$> active.
Proof.
  unfold lookup_ids. induction ids as [|i ids IH].
  { split; [intros _ x Hx; by apply not_elem_of_nil in Hx|by eexists]. }
  cbn [map_result]. split.
  - intros (rs & (r & Hr%of_option_ok & (rs' & Hrs & _)%result_bind_ok)%result_bind_ok) x Hx.
    apply elem_of_cons in Hx as [->|Hx]; [apply id_to_request_dom; by eexists|].
    by apply (proj1 IH); [eexists|].
  - intros Hsub. assert (Hi : is_Some (id_to_request active !! i))
      by (apply id_to_request_dom, Hsub; left).
    destruct Hi as [r ->]. destruct (proj2 IH) as [rs Hrs]; [intros x Hx; apply Hsub; by right|].
    cbn. rewrite Hrs. by eexists.
Qed.

(** ** [ScheduledRequests] *)

Lemma filter_bool_twice {A} (f : A → bool) (b b' : bool) (l : list A) :
  filter (λ x, f x = b) (filter (λ x, f x = b') l) =
  if bool_decide (b = b') then filter (λ x, f x = b) l else [].
Proof.
  induction l as [|x l IH]; [by case_bool_decide|].
  rewrite !filter_cons. destruct (decide (f x = b')) as [Hb'|Hb'];
    rewrite ?filter_cons, IH; case_bool_decide; subst; repeat case_decide; congruence || done.
Qed.

Lemma append_context_requests_spec rs s :
  Forall ctx_ok rs →
  append_context_requests rs s = Ok (mkScheduled (sr_encoder_requests s)
    (sr_context_requests_chunking s ++ filter (λ r, ctx_last r = false) rs)
    (sr_context_requests_last_chunk s ++ filter (λ r, ctx_last r = true) rs)
    (sr_generation_requests s) (sr_paused_requests s)).
Proof.
  intros Hok. revert s. induction Hok as [|r rs Hr Hok IH]; intros s; cbn [append_context_requests].
  { rewrite !filter_nil, !app_nil_r. by destruct s. }
  unfold append_context_request. rewrite get_last by done. cbn [mbind result_bind].
  rewrite !filter_cons. destruct (ctx_last r); cbn; rewrite IH; cbn; by rewrite <- (assoc_L (++)).
Qed.

(** ** Properties *)

Definition serializable_all (s : ScheduledRequests) : list LlmRequest :=
  sr_encoder_requests s ++ sr_context_requests_chunking s ++ sr_context_requests_last_chunk s ++
  sr_generation_requests s ++ sr_paused_requests s.

(** Sending a schedule to another rank and rebuilding it there from that
    rank's active requests gives the same schedule, when ids are distinct and
    every request named is active there. *)
Theorem serialized_schedule_roundtrip (s : ScheduledRequests) (disagg active : list LlmRequest)
    (n : Z) (w : bool) :
  NoDup (request_id <$> active) → serializable_all s ++ disagg ⊆ active →
  to_scheduler_result (from_scheduler_result s disagg n w) active = Ok (s, disagg, n).
Proof.
  intros Hnd Hsub. unfold serializable_all in Hsub. unfold to_scheduler_result, from_scheduler_result.
  cbn. rewrite !lookup_ids_roundtrip by (done || set_solver). by destruct s.
Qed.

(** Rebuilding a schedule fails with a [KeyError] exactly when it names
    a request that is not active on the receiving rank. *)
Theorem deserialize_fails_iff_unknown (o : SerializableSchedulerOutput)
    (active : list LlmRequest) :
  let ids := so_encoder_requests o ++ so_context_requests_chunking o ++
    so_context_requests_last_chunk o ++ so_generation_requests o ++ so_paused_requests o ++
    so_fitting_disagg_gen_init_requests o in
  if bool_decide (ids ⊆ request_id <$> active)
  then ∃ r, to_scheduler_result o active = Ok r
  else to_scheduler_result o active = Raise KeyError.
Proof.
  assert (Hcase : ∀ l, lookup_ids (id_to_request active) l = Raise KeyError ∧
      ¬ l ⊆ request_id <$> active ∨
    ∃ rs, lookup_ids (id_to_request active) l = Ok rs ∧ l ⊆ request_id <$> active).
  { intros l. destruct (lookup_ids (id_to_request active) l) as [rs|e] eqn:E.
    - right. exists rs. split; [done|]. apply lookup_ids_ok. by eexists.
    - left. split.
      + f_equal. clear -E. unfold lookup_ids in E. revert E.
        induction l as [|i l IH]; cbn [map_result]; [done|].
        destruct (id_to_request active !! i); cbn; [|by intros [= <-]].
        destruct (map_result _ l); cbn; [done|]. intros [= ->]. by apply IH.
      + intros Hsub%lookup_ids_ok. destruct Hsub as [rs Hrs]. congruence. }
  cbn zeta. unfold to_scheduler_result.
  repeat match goal with
  | |- context [lookup_ids (id_to_request active) ?l] =>
      destruct (Hcase l) as [[-> ?]|(? & -> & ?)]; cbn [mbind result_bind];
      [rewrite bool_decide_eq_false_2 by (rewrite !list_subseteq_app_iff_l; tauto); done|]
  end.
  rewrite bool_decide_eq_true_2 by (rewrite !list_subseteq_app_iff_l; tauto). by eexists.
Qed.

(** Resetting the context requests of a batch keeps every one of them,
    splits them by whether their chunk is the last one, each part in the
    given order, and leaves the other lists alone. *)
Theorem reset_context_requests_splits (s : ScheduledRequests) (rs : list LlmRequest) :
  Forall ctx_ok rs →
  ∃ s', reset_context_requests (Some rs) s = Ok s' ∧
    sr_context_requests s' ≡ₚ rs ∧
    sr_context_requests_chunking s' = filter (λ r, ctx_last r = false) rs ∧
    sr_context_requests_last_chunk s' = filter (λ r, ctx_last r = true) rs ∧
    sr_generation_requests s' = sr_generation_requests s ∧
    reset_context_requests None s' = Ok s'.
Proof.
  intros Hok. unfold reset_context_requests. rewrite append_context_requests_spec by done.
  eexists; split; [done|]. cbn. split_and!; try done; [apply filter_bool_perm|].
  unfold sr_context_requests. cbn. rewrite append_context_requests_spec.
  - cbn. rewrite !filter_app, !filter_bool_twice. cbn. by rewrite app_nil_r.
  - by rewrite filter_bool_perm.
Qed.

Section unified_props.
Context {K Summary BlockKey : Type} `{Countable BlockKey} `{!PrefixReuse Summary BlockKey}.
Context (self : SimpleUnifiedScheduler (K:=K) (Summary:=Summary)).

Lemma drop_waiting_sublist rs :
  sublist (drop_decoder_context_requests_waiting_for_encoder_output rs) rs.
Proof. apply sublist_filter. Qed.

Lemma with_estimate_ids credit (rs : list LlmRequest) :
  request_id <$> (with_estimate credit <$> rs) = request_id <$> rs.
Proof. by rewrite <- list_fmap_compose. Qed.

Lemma encoder_supported_sublist (cs : PyCapacityScheduler (K:=K) (Summary:=Summary)) l k :
  sublist l k → encoder_supported cs k → encoder_supported cs l.
Proof. intros Hs [?|?]; [by left|right]. by eapply Forall_sublist_sub. Qed.

Lemma eligible_not_inflight (mb : PyMicroBatchScheduler) inflight (l : list LlmRequest) :
  request_id <$> filter (λ r, mb_eligible mb inflight r = true) l ⊆+
  filter (λ i, i ∉ inflight) (request_id <$> l).
Proof.
  rewrite list_filter_fmap. apply fmap_submseteq.
  induction l as [|r l IH]; [done|]. rewrite !filter_cons.
  destruct (decide (mb_eligible mb inflight r = true)) as [He|He];
    destruct (decide (request_id r ∉ inflight)) as [Hi|Hi]; [by apply submseteq_skip| | |done].
  - unfold mb_eligible in He. rewrite bool_decide_eq_true_2 in He; [done|].
    by destruct (decide (request_id r ∈ inflight)).
  - by apply submseteq_cons.
Qed.

Definition so_batch (out : SchedulerOutput) : list LlmRequest :=
  so_encoder out ++ so_context out ++ so_generation out.

(** C35: one scheduling step of the unified scheduler.  With well-formed
    requests and a sound configuration it returns; the batch, the paused
    requests and the disaggregated inits are disjoint and drawn from the
    active requests; nothing in the batch was in flight; at most
    [max_batch_size] requests run, computing at most [max_num_tokens]
    tokens; and at most the scheduler capacity fit. *)
Theorem unified_step_is_sound (credit : LlmRequest → Z) (p : pools (K:=K))
    (active : list LlmRequest) (inflight : gset Z) :
  encoder_supported (us_capacity_scheduler self) active →
  managers_free (us_capacity_scheduler self) →
  config_ok (us_micro_batch_scheduler self) →
  Forall (λ r, request_limits (us_micro_batch_scheduler self) (with_estimate credit r)) active →
  ∃ out p', unified_schedule_request self credit p active inflight = Ok (out, p') ∧
    request_id <$> so_batch out ++ so_fitting_disagg_gen_init out ++ so_paused out ⊆+
      request_id <$> active ∧
    Forall (λ r, request_id r ∉ inflight) (so_batch out) ∧
    Z.of_nat (length (so_batch out)) ≤
      Z.max 1 (max_batch_size (us_micro_batch_scheduler self)) ∧
    (∀ m, max_num_tokens (us_micro_batch_scheduler self) = Some m →
      zsum (encoder_output_len <$> so_encoder out) +
      zsum (context_tokens (us_micro_batch_scheduler self) <$> so_context out) +
      zsum (generation_tokens <$> so_generation out) ≤ m) ∧
    so_num_fitting out ≤ Z.max 0 (max_num_requests (us_capacity_scheduler self)).
Proof.
  intros Henc Hfree Hcfg Hlim.
  unfold unified_schedule_request, simple_schedule_request, unified_capacity.
  set (act := drop_decoder_context_requests_waiting_for_encoder_output active).
  pose proof (drop_waiting_sublist active) as Hdrop. fold act in Hdrop.
  destruct (capacity_schedule_request_spec (us_capacity_scheduler self) p act)
    as (fit & dis & pa & p' & -> & Hsub & _ & _ & _ & Hn);
    [by eapply encoder_supported_sublist|done|].
  cbn [fmap result_fmap mbind result_bind].
  assert (Hall : Forall (request_limits (us_micro_batch_scheduler self))
    (with_estimate credit <$> fit)).
  { apply Forall_fmap, Forall_forall. intros r Hr. rewrite Forall_forall in Hlim. apply Hlim.
    eapply elem_of_submseteq; [|by apply sublist_submseteq]. eapply elem_of_submseteq; [|exact Hsub].
    apply elem_of_app. by left. }
  destruct (schedule_spec _ inflight Hcfg _ Hall) as (out & -> & [Hids Hsz Htok _ _ _ _]).
  cbn [fmap result_fmap mbind result_bind]. eexists _, _. split; [done|].
  unfold so_batch. cbn [so_encoder so_context so_generation so_paused so_fitting_disagg_gen_init
    so_num_fitting]. rewrite fmap_app.
  destruct (submseteq_filter_forall (λ r, r ∉ inflight)
    (request_id <$> out_encoder out ++ out_context out ++ out_generation out)
    (request_id <$> (with_estimate credit <$> fit))) as [Hnot Hin].
  { etrans; [exact Hids|apply eligible_not_inflight]. }
  split_and!; [| |done|done|].
  - rewrite with_estimate_ids in Hin. etrans; [apply submseteq_app; [exact Hin|reflexivity]|].
    rewrite <- fmap_app. apply fmap_submseteq. etrans; [exact Hsub|by apply sublist_submseteq].
  - apply Forall_forall. intros r Hr. rewrite Forall_forall in Hnot.
    by apply Hnot, list_elem_of_fmap_2.
  - rewrite length_fmap. rewrite length_app in Hn. lia.
Qed.

(** When [can_schedule] answers yes, every request (none waiting for an
    encoder output) fits: the fitting requests are a rearrangement of them. *)
Theorem can_schedule_means_all_fit (credit : LlmRequest → Z) (p : pools (K:=K))
    (requests : list LlmRequest) :
  encoder_supported (us_capacity_scheduler self) requests →
  managers_free (us_capacity_scheduler self) →
  ∃ b p' fitting disagg paused,
    capacity_schedule_request (us_capacity_scheduler self) p
      (drop_decoder_context_requests_waiting_for_encoder_output requests)
      = Ok (fitting, disagg, paused, p') ∧
    unified_can_schedule self credit p requests = Ok (b, p') ∧
    (b = true ↔
     fitting ≡ₚ drop_decoder_context_requests_waiting_for_encoder_output requests).
Proof.
  intros Henc Hfree. unfold unified_can_schedule, simple_can_schedule, unified_capacity.
  set (act := drop_decoder_context_requests_waiting_for_encoder_output requests).
  destruct (capacity_schedule_request_spec (us_capacity_scheduler self) p act)
    as (fit & dis & pa & p' & E & Hsub & _);
    [eapply encoder_supported_sublist; [apply drop_waiting_sublist|done]|done|].
  rewrite E. cbn [fmap result_fmap mbind result_bind]. eexists _, _, _, _, _.
  split; [done|]. split; [done|]. rewrite bool_decide_eq_true, length_fmap. split.
  - intros Hlen. apply submseteq_length_Permutation; [|lia].
    etrans; [|exact Hsub]. by apply submseteq_inserts_r.
  - intros ->. done.
Qed.
End unified_props.

(** *** Witnesses *)

#[local] Existing Instance demo_prefix_reuse.

Definition demo_unified : SimpleUnifiedScheduler (K:=Z) (Summary:=()) :=
  unified_init 4 (Some 10) (Some demo_manager) None None GUARANTEED_NO_EVICT
    (Some ("ContextChunkingPolicy.FIRST_COME_FIRST_SERVED"%string, 4)) false None CONTEXT_INIT true.

Lemma demo_unified_free : managers_free (us_capacity_scheduler demo_unified).
Proof. split; [intros m [= <-]; apply demo_removing_frees|done]. Qed.

Lemma serialized_roundtrip_witness :
  to_scheduler_result (from_scheduler_result
    (mkScheduled [] [] [demo_llm_request 1 CONTEXT_INIT]
       [demo_llm_request 3 GENERATION_IN_PROGRESS] []) [] 2 false) demo_pool_requests =
  Ok (mkScheduled [] [] [demo_llm_request 1 CONTEXT_INIT]
       [demo_llm_request 3 GENERATION_IN_PROGRESS] [], [], 2).
Proof.
  apply serialized_schedule_roundtrip.
  - apply (bool_decide_unpack _). vm_compute. exact I.
  - apply (bool_decide_unpack _). vm_compute. exact I.
Defined.

Lemma reset_context_witness :
  ∃ s', reset_context_requests
      (Some [demo_request 2 CONTEXT_INIT 6 1; with_chunk_size (demo_request 3 CONTEXT_INIT 5 0) 5])
      sr_empty = Ok s' ∧
    (request_id <$> sr_context_requests_last_chunk s') = [3].
Proof.
  destruct (reset_context_requests_splits sr_empty
    [demo_request 2 CONTEXT_INIT 6 1; with_chunk_size (demo_request 3 CONTEXT_INIT 5 0) 5])
    as (s' & Heq & _ & _ & Hl & _); [repeat constructor; simpl; done || lia|].
  exists s'. split; [exact Heq|]. rewrite Hl. reflexivity.
Defined.

Lemma unified_step_witness :
  ∃ out p', unified_schedule_request demo_unified (λ _, 0) (mkPools 12 0) demo_pool_requests ∅
      = Ok (out, p') ∧
    Z.of_nat (length (so_batch out)) ≤ 4 ∧ (request_id <$> so_batch out) = [1; 3].
Proof.
  destruct (unified_step_is_sound demo_unified (λ _, 0) (mkPools 12 0) demo_pool_requests ∅)
    as (out & p' & Heq & _ & _ & Hn & _).
  - right. by repeat constructor.
  - exact demo_unified_free.
  - split; simpl; [intros m [= <-]; lia|]. intros cfg [= <-]. split; [simpl; lia|done].
  - repeat constructor; simpl; done || lia.
  - exists out, p'. split; [exact Heq|]. split; [exact Hn|].
    vm_compute in Heq. injection Heq as <- _. reflexivity.
Defined.

Lemma can_schedule_witness :
  ∃ p', unified_can_schedule demo_unified (λ _, 0) (mkPools 12 0) demo_pool_requests
    = Ok (false, p').
Proof.
  destruct (can_schedule_means_all_fit demo_unified (λ _, 0) (mkPools 12 0) demo_pool_requests)
    as (b & p' & f & d & pa & _ & Heq & _); [right; by repeat constructor|exact demo_unified_free|].
  exists p'. rewrite Heq. vm_compute in Heq. injection Heq as <- _. reflexivity.
Defined.
