(* ===== verification/KvUtils.v ===== *)
(** * Utilities of the KV-cache manager ([kv_cache_manager_v2/_utils.py])

    Integer helpers, half-open ranges with the equivalence of ranges that
    have the same members, and list helpers.  The bitset is in [Bitset]. *)

From S2P Require Import Prelude.

Local Open Scope Z_scope.

(** ** Integers *)

(** Python's [//] and [%] by zero raise; the callers below pass a positive
    divisor. *)
Definition div_up (x y : Z) : Z := (x + y - 1) / y.
Definition round_up (x y : Z) : Z := div_up x y * y.
Definition round_down (x y : Z) : Z := x / y * y.
Definition in_range (x lower upper : Z) : bool := (lower <=? x) && (x <? upper).
Definition exact_div (x y : Z) : result Z :=
  if y =? 0 then Raise ZeroDivisionError
  else _ ← py_assert (x `mod` y =? 0); Ok (x / y).

Lemma div_up_spec x y k : 0 < y → div_up x y ≤ k ↔ x ≤ k * y.
Proof.
  intros Hy. unfold div_up. pose proof (Z.div_mod (x + y - 1) y ltac:(lia)).
  pose proof (Z.mod_pos_bound (x + y - 1) y ltac:(lia)). split; intros; nia.
Qed.

Lemma div_up_bounds x y : 0 < y → x ≤ div_up x y * y < x + y.
Proof.
  intros Hy. unfold div_up. pose proof (Z.div_mod (x + y - 1) y ltac:(lia)).
  pose proof (Z.mod_pos_bound (x + y - 1) y ltac:(lia)). nia.
Qed.

Lemma div_up_mono x x' y : 0 < y → x ≤ x' → div_up x y ≤ div_up x' y.
Proof. intros. unfold div_up. apply Z.div_le_mono; lia. Qed.

Lemma div_up_nonneg x y : 0 < y → 0 ≤ x → 0 ≤ div_up x y.
Proof. intros. unfold div_up. apply Z.div_pos; lia. Qed.

(** ** Half-open ranges *)

Record HalfOpenRange := mkRange { beg : Z; end_ : Z }.

Definition range_bool (r : HalfOpenRange) : bool := beg r <? end_ r.
Definition range_len (r : HalfOpenRange) : Z := Z.max 0 (end_ r - beg r).
Definition range_contains (r : HalfOpenRange) (x : Z) : bool := (beg r <=? x) && (x <? end_ r).
Definition range_eq (a b : HalfOpenRange) : bool :=
  (negb (range_bool a) && negb (range_bool b)) || ((beg a =? beg b) && (end_ a =? end_ b)).
Definition intersect (a b : HalfOpenRange) : HalfOpenRange :=
  mkRange (Z.max (beg a) (beg b)) (Z.min (end_ a) (end_ b)).

(** [range_eq] is the equivalence "same members", and every operation
    respects it. *)
Lemma range_eq_spec a b :
  range_eq a b = true ↔ ∀ x, range_contains a x = range_contains b x.
Proof.
  unfold range_eq, range_contains, range_bool. split.
  - intros Heq x. apply eq_true_iff_eq. lia.
  - intros Heq. pose proof (Heq (beg a)) as H1. pose proof (Heq (beg b)) as H2.
    pose proof (Heq (end_ a - 1)) as H3. pose proof (Heq (end_ b - 1)) as H4.
    lia.
Qed.

Definition same_range (a b : HalfOpenRange) : Prop := range_eq a b = true.

#[global] Instance same_range_equiv : Equivalence same_range.
Proof.
  split.
  - intros a. by apply range_eq_spec.
  - intros a b Hab. apply range_eq_spec. intros x. symmetry. by apply range_eq_spec.
  - intros a b c Hab Hbc. apply range_eq_spec. intros x.
    etrans; [by apply range_eq_spec|by apply range_eq_spec].
Qed.

Lemma intersect_contains a b x :
  range_contains (intersect a b) x = range_contains a x && range_contains b x.
Proof. unfold range_contains. simpl. apply eq_true_iff_eq. lia. Qed.

#[global] Instance intersect_proper : Proper (same_range ==> same_range ==> same_range) intersect.
Proof.
  intros a a' Ha b b' Hb. apply range_eq_spec. intros x. rewrite !intersect_contains.
  by rewrite (proj1 (range_eq_spec a a') Ha x), (proj1 (range_eq_spec b b') Hb x).
Qed.

#[global] Instance range_len_proper : Proper (same_range ==> eq) range_len.
Proof. intros a b. unfold same_range, range_eq, range_len, range_bool. lia. Qed.

(** ** Lists *)

(** [remove_if]: the in-place compaction, with the write index [idx -
    len(removed)].  Returns the list left in place and the items removed. *)
Fixpoint remove_if_loop {A} (predicate : A → bool) (original : list A) (fuel idx : nat)
    (removed : list A) : list A * list A :=
  match fuel with
  | O => (take (length original - length removed) original, removed)
  | S fuel =>
      match original !! idx with
      | None => (take (length original - length removed) original, removed)
      | Some item =>
          if predicate item
          then remove_if_loop predicate original fuel (S idx) (removed ++ [item])
          else remove_if_loop predicate (<[(idx - length removed)%nat := item]> original)
                 fuel (S idx) removed
      end
  end.

Definition remove_if {A} (predicate : A → bool) (original : list A) : list A * list A :=
  remove_if_loop predicate original (length original) 0 [].

(** [chunked]: consecutive chunks of [size]. *)
Fixpoint chunked_fuel {A} (fuel size : nat) (l : list A) : list (list A) :=
  match fuel with
  | O => []
  | S fuel =>
      match take size l with
      | [] => []
      | chunk => chunk :: chunked_fuel fuel size (drop size l)
      end
  end.
Definition chunked {A} (size : nat) (l : list A) : list (list A) :=
  chunked_fuel (S (length l)) size l.

(** [partition]: a [defaultdict(list)], in the order of its keys' first items. *)
Fixpoint dict_append {A K} `{EqDecision K} (k : K) (x : A) (d : list (K * list A)) : list (K * list A) :=
  match d with
  | [] => [(k, [x])]
  | (k', l) :: d => if bool_decide (k' = k) then (k', l ++ [x]) :: d else (k', l) :: dict_append k x d
  end.

Fixpoint partition_loop {A K} `{EqDecision K} (classifier : A → result K) (original : list A)
    (ret : list (K * list A)) : result (list (K * list A)) :=
  match original with
  | [] => Ok ret
  | x :: original => k ← classifier x; partition_loop classifier original (dict_append k x ret)
  end.
Definition partition {A K} `{EqDecision K} (classifier : A → result K) (original : list A) :
    result (list (K * list A)) :=
  partition_loop classifier original [].

(** Invariant of the compaction: the kept items so far, then untouched ones. *)
Lemma remove_if_loop_spec {A} (predicate : A → bool) (kept junk rest removed : list A) fuel :
  length junk = length removed → (length rest ≤ fuel)%nat →
  remove_if_loop predicate (kept ++ junk ++ rest) fuel (length kept + length junk) removed =
  (kept ++ filter (λ x, predicate x = false) rest,
   removed ++ filter (λ x, predicate x = true) rest).
Proof.
  revert kept junk rest removed. induction fuel as [|fuel IH]; intros kept junk rest removed Hj Hf.
  { destruct rest; [|simpl in Hf; lia]. cbn [remove_if_loop].
    rewrite !filter_nil, !app_nil_r, !length_app, Hj, Nat.add_sub.
    by rewrite take_app_length. }
  cbn [remove_if_loop].
  assert (Hlk : (kept ++ junk ++ rest) !! (length kept + length junk)%nat = rest !! 0%nat).
  { rewrite (assoc_L (++)), lookup_app_r by (rewrite length_app; lia).
    f_equal. rewrite length_app. lia. }
  rewrite Hlk. destruct rest as [|x rest]; simpl in Hf |- *.
  { rewrite !app_nil_r, !length_app, Hj, Nat.add_sub. by rewrite take_app_length. }
  rewrite !filter_cons. destruct (predicate x) eqn:Hx; simpl.
  - specialize (IH kept (junk ++ [x]) rest (removed ++ [x])).
    rewrite !length_app in IH. simpl in IH.
    rewrite <- !(assoc_L (++)) in IH. simpl in IH.
    replace (S (length kept + length junk)) with (length kept + (length junk + 1))%nat by lia.
    apply IH; [lia|lia].
  - replace (length kept + length junk - length removed)%nat with (length kept) by lia.
    destruct junk as [|j junk].
    + simpl in Hj. rewrite Nat.add_0_r in *. simpl.
      rewrite (insert_app_r_alt kept) by lia. rewrite Nat.sub_diag. simpl.
      specialize (IH (kept ++ [x]) [] rest removed Hj ltac:(lia)). simpl in IH.
      rewrite length_app, <- !(assoc_L (++)) in IH. simpl in IH.
      replace (S (length kept)) with (length kept + 1 + 0)%nat by lia. exact IH.
    + rewrite (insert_app_r_alt kept) by lia. rewrite Nat.sub_diag. simpl.
      specialize (IH (kept ++ [x]) (junk ++ [x]) rest removed).
      rewrite !length_app, <- !(assoc_L (++)) in IH. simpl in IH, Hj.
      replace (S (length kept + S (length junk))) with (length kept + 1 + (length junk + 1))%nat by lia.
      apply IH; lia.
Qed.

Lemma remove_if_spec {A} (predicate : A → bool) (l : list A) :
  remove_if predicate l =
  (filter (λ x, predicate x = false) l, filter (λ x, predicate x = true) l).
Proof. apply (remove_if_loop_spec predicate [] [] l []); simpl; lia. Qed.

Lemma chunked_spec {A} size (l : list A) :
  (0 < size)%nat →
  concat (chunked size l) = l ∧
  Forall (λ c, (0 < length c ≤ size)%nat) (chunked size l).
Proof.
  intros Hs. unfold chunked. remember (S (length l)) as fuel eqn:Hf.
  assert (Hl : (length l < fuel)%nat) by lia. clear Hf. revert l Hl.
  induction fuel as [|fuel IH]; intros l Hl; [lia|]. cbn [chunked_fuel].
  destruct (take size l) as [|x c] eqn:Ht.
  - destruct l; [by split|]. destruct size; [lia|]. done.
  - assert (Hlen : length (x :: c) = (size `min` length l)%nat) by (by rewrite <- Ht, length_take).
    simpl in Hlen. destruct (IH (drop size l)) as [Hc Hall]; [rewrite length_drop; lia|].
    cbn [concat]. rewrite Hc, <- Ht, take_drop. split; [done|]. constructor; [|done].
    rewrite Ht. simpl. lia.
Qed.

(** ** Partition *)

Section partition.
Context {A K : Type} `{EqDecision K} (classifier : A → result K).

(** Every entry holds items, those of its key. *)
Definition classified (d : list (K * list A)) : Prop :=
  ∀ k l, (k, l) ∈ d → l ≠ [] ∧ ∀ x, x ∈ l → classifier x = Ok k.

Lemma dict_append_spec k x d :
  classified d → classifier x = Ok k →
  classified (dict_append k x d) ∧ concat (dict_append k x d).*2 ≡ₚ x :: concat d.*2.
Proof.
  intros Hd Hx. induction d as [|[k' l] d IH]; cbn.
  - split; [|done]. intros k1 l1 [[= -> ->]|?%not_elem_of_nil]%elem_of_cons; [|done].
    split; [done|]. by intros y ->%list_elem_of_singleton.
  - assert (Hd' : classified d) by (intros k1 l1 ?; apply (Hd k1 l1); by right).
    destruct (IH Hd') as [Hc Hp], (Hd k' l ltac:(left)) as [Hne Hl]. case_bool_decide as Hk; cbn.
    + subst. split; [|solve_Permutation]. intros k1 l1 [[= -> ->]|Hin]%elem_of_cons; [|by apply (Hd' k1 l1)].
      split; [by destruct l|]. intros y [Hy| ->%list_elem_of_singleton]%elem_of_app; auto.
    + split; [|rewrite Hp; solve_Permutation].
      intros k1 l1 [[= -> ->]|Hin]%elem_of_cons; [done|by apply (Hc k1 l1)].
Qed.

Lemma partition_spec l :
  (∀ x, x ∈ l → ∃ k, classifier x = Ok k) →
  ∃ d, partition classifier l = Ok d ∧ classified d ∧ concat d.*2 ≡ₚ l.
Proof.
  unfold partition. intros Hl. assert (Hnil : classified []) by (intros ?? ?%not_elem_of_nil; done).
  change l with (concat ([] : list (K * list A)).*2 ++ l) at 2.
  generalize dependent ([] : list (K * list A)). induction l as [|x l IH]; intros d Hd.
  - exists d. by rewrite app_nil_r.
  - destruct (Hl x ltac:(left)) as (k & Hk). cbn. rewrite Hk. cbn.
    destruct (dict_append_spec k x d Hd Hk) as [Hc Hp].
    destruct (IH (λ y Hy, Hl y (list_elem_of_further _ _ _ Hy)) _ Hc) as (d' & ? & ? & Hperm).
    exists d'. split_and!; try done. rewrite Hperm, Hp. solve_Permutation.
Qed.
End partition.
