(* ===== verification/Bitset.v ===== *)
(** * The resizable bitset ([_utils.py], [DynamicBitset])

    An array of 64-bit words with a count of the set bits.  Proved: it is a
    finite set of indices; [set], [clear] and [resize] do to that set what
    their names say, the count is its size after every operation, and
    [any_set] decides whether a range meets it. *)

From S2P Require Import Prelude KvUtils.

Local Open Scope Z_scope.

(** ** Operations *)

Record DynamicBitset := mkBitset { bits : list Z; num_set_bits : Z }.

Definition ALL_SET_MASK : Z := Z.shiftl 1 64 - 1.

(** [bin(w).count("1")] for a 64-bit word *)
Definition popcount (w : Z) : Z :=
  Z.of_nat (length (filter (λ k, Z.testbit w (Z.of_nat k) = true) (seq 0 64))).

Definition bitset_init (capacity : Z) : DynamicBitset :=
  mkBitset (replicate (Z.to_nat (div_up capacity 64)) 0) 0.

Definition bitset_get (b : DynamicBitset) (index : Z) : result bool :=
  w ← py_getitem (bits b) (index / 64);
  Ok (negb (Z.land w (Z.shiftl 1 (index `mod` 64)) =? 0)).

Definition bitset_set (b : DynamicBitset) (index : Z) : result DynamicBitset :=
  g ← bitset_get b index;
  if (g : bool) then Ok b
  else
    w ← py_getitem (bits b) (index / 64);
    ws ← py_setitem (bits b) (index / 64) (Z.lor w (Z.shiftl 1 (index `mod` 64)));
    Ok (mkBitset ws (num_set_bits b + 1)).

Definition bitset_clear (b : DynamicBitset) (index : Z) : result DynamicBitset :=
  g ← bitset_get b index;
  if (g : bool) then
    w ← py_getitem (bits b) (index / 64);
    ws ← py_setitem (bits b) (index / 64) (Z.land w (Z.lnot (Z.shiftl 1 (index `mod` 64))));
    Ok (mkBitset ws (num_set_bits b - 1))
  else Ok b.

(** The accounting of a shrink: whole words dropped, then the partial word. *)
Definition bitset_mask_tail (b : DynamicBitset) (new_capacity : Z) : result DynamicBitset :=
  let old_elems := Z.of_nat (length (bits b)) in
  let new_elems := div_up new_capacity 64 in
  if new_elems <=? old_elems then
    let n := num_set_bits b - zsum (popcount <$> drop (Z.to_nat new_elems) (bits b)) in
    if (1 <=? new_elems) && negb (new_capacity `mod` 64 =? 0) then
      let keep_mask := Z.shiftr ALL_SET_MASK (64 - new_capacity `mod` 64) in
      word ← py_getitem (bits b) (new_elems - 1);
      let dropped := Z.land (Z.land word (Z.lnot keep_mask)) ALL_SET_MASK in
      ws ← py_setitem (bits b) (new_elems - 1) (Z.land word keep_mask);
      Ok (mkBitset ws (n - popcount dropped))
    else Ok (mkBitset (bits b) n)
  else Ok b.

Definition bitset_resize (b : DynamicBitset) (new_capacity : Z) : result DynamicBitset :=
  let old_elems := Z.of_nat (length (bits b)) in
  let new_elems := div_up new_capacity 64 in
  b ← bitset_mask_tail b new_capacity;
  if old_elems <? new_elems
  then Ok (mkBitset (bits b ++ replicate (Z.to_nat (new_elems - old_elems)) 0) (num_set_bits b))
  else if new_elems <? old_elems
  then Ok (mkBitset (take (Z.to_nat new_elems) (bits b)) (num_set_bits b))
  else Ok b.

(** [any(self._bits[i] != 0 for i in range(lo, hi))] *)
Definition any_word (b : DynamicBitset) (lo hi : Z) : bool :=
  existsb (λ w, negb (w =? 0)) (take (Z.to_nat (hi - lo)) (drop (Z.to_nat lo) (bits b))).

Definition any_set (b : DynamicBitset) (start end_ : Z) : result bool :=
  if end_ <=? start then Ok false
  else
    let start_word_mask := Z.shiftl ALL_SET_MASK (start `mod` 64) in
    let end_word_mask := Z.shiftr ALL_SET_MASK (64 - end_ `mod` 64) in
    ws ← py_getitem (bits b) (start / 64);
    if start / 64 =? end_ / 64 then
      if negb (Z.land (Z.land start_word_mask end_word_mask) ws =? 0) then Ok true
      else Ok (any_word b (start / 64 + 1) (end_ / 64))
    else if negb (Z.land start_word_mask ws =? 0) then Ok true
    else
      at_end ← (if negb (end_ `mod` 64 =? 0)
                then we ← py_getitem (bits b) (end_ / 64);
                     Ok (negb (Z.land end_word_mask we =? 0))
                else Ok false);
      if (at_end : bool) then Ok true else Ok (any_word b (start / 64 + 1) (end_ / 64)).

(** ** The set of indices *)

Definition word_members (off : Z) (w : Z) : list Z :=
  (λ k, 64 * off + Z.of_nat k) <$> filter (λ k, Z.testbit w (Z.of_nat k) = true) (seq 0 64).

Fixpoint members_from (off : Z) (ws : list Z) : list Z :=
  match ws with
  | [] => []
  | w :: ws' => word_members off w ++ members_from (off + 1) ws'
  end.

Definition index_set (b : DynamicBitset) : gset Z := list_to_set (members_from 0 (bits b)).

Record bitset_wf (b : DynamicBitset) : Prop := {
  bwf_words : Forall (λ w, 0 ≤ w < 2 ^ 64) (bits b);
  bwf_count : num_set_bits b = zsum (popcount <$> bits b);
}.

Lemma elem_of_word_members off w i :
  i ∈ word_members off w ↔ 64 * off ≤ i < 64 * off + 64 ∧ Z.testbit w (i - 64 * off) = true.
Proof.
  unfold word_members. rewrite list_elem_of_fmap. split.
  - intros (k & -> & [Hk Hs%elem_of_seq]%list_elem_of_filter).
    replace (64 * off + Z.of_nat k - 64 * off) with (Z.of_nat k) by lia. split; [lia|done].
  - intros [Hr Ht]. exists (Z.to_nat (i - 64 * off)). split; [lia|].
    apply list_elem_of_filter. rewrite elem_of_seq, Z2Nat.id by lia. split; [done|lia].
Qed.

Lemma elem_of_members off ws i :
  i ∈ members_from off ws ↔
  64 * off ≤ i ∧ ∃ w, ws !! Z.to_nat (i / 64 - off) = Some w ∧ Z.testbit w (i `mod` 64) = true.
Proof.
  revert off. induction ws as [|w ws IH]; intros off; cbn [members_from].
  { rewrite elem_of_nil. split; [done|]. intros (_ & w & Hw & _). by rewrite lookup_nil in Hw. }
  rewrite elem_of_app, elem_of_word_members, IH.
  pose proof (Z.div_mod i 64 ltac:(lia)). pose proof (Z.mod_pos_bound i 64 ltac:(lia)).
  destruct (Z.lt_trichotomy (i / 64) off) as [Hlt|[Heq|Hgt]].
  - split; [intros [?|[? _]]; lia|intros [? _]; lia].
  - replace (i / 64 - off) with 0 by lia. replace (i - 64 * off) with (i `mod` 64) by lia.
    simpl. split.
    + intros [[? ?]|[? _]]; [|lia]. split; [lia|by exists w].
    + intros (_ & w' & [= ->] & ?). left. split; [lia|done].
  - replace (Z.to_nat (i / 64 - off)) with (S (Z.to_nat (i / 64 - (off + 1)))) by lia. simpl. split.
    + intros [[? _]|[? ?]]; [lia|]. split; [lia|done].
    + intros [? ?]. right. split; [lia|done].
Qed.

Lemma elem_of_index_set b i :
  i ∈ index_set b ↔
  0 ≤ i ∧ ∃ w, bits b !! Z.to_nat (i / 64) = Some w ∧ Z.testbit w (i `mod` 64) = true.
Proof.
  unfold index_set. rewrite elem_of_list_to_set, elem_of_members, Z.sub_0_r. done.
Qed.

Lemma NoDup_word_members off w : NoDup (word_members off w).
Proof.
  unfold word_members. apply NoDup_fmap_2_strong; [intros; lia|].
  apply NoDup_filter, NoDup_seq.
Qed.

Lemma NoDup_members off ws : NoDup (members_from off ws).
Proof.
  revert off. induction ws as [|w ws IH]; intros off; cbn [members_from]; [constructor|].
  apply NoDup_app. split_and!; [apply NoDup_word_members| |apply IH].
  intros i [? _]%elem_of_word_members [? _]%elem_of_members. lia.
Qed.

Lemma length_members off ws : Z.of_nat (length (members_from off ws)) = zsum (popcount <$> ws).
Proof.
  revert off. induction ws as [|w ws IH]; intros off; cbn [members_from]; [done|].
  rewrite length_app, fmap_cons, zsum_cons, <- (IH (off + 1)). unfold word_members, popcount.
  rewrite length_fmap. lia.
Qed.

(** The count is the number of indices. *)
Lemma bitset_count b : bitset_wf b → num_set_bits b = Z.of_nat (size (index_set b)).
Proof.
  intros [_ ->]. unfold index_set. rewrite size_list_to_set by apply NoDup_members.
  symmetry. apply length_members.
Qed.

(** A bitset is determined, for counting, by its set of indices. *)
Lemma bitset_wf_intro b :
  Forall (λ w, 0 ≤ w < 2 ^ 64) (bits b) → num_set_bits b = Z.of_nat (size (index_set b)) →
  bitset_wf b.
Proof.
  intros Hw Hn. split; [done|]. rewrite Hn. unfold index_set.
  rewrite size_list_to_set by apply NoDup_members. apply length_members.
Qed.

(** ** [get], [set], [clear] *)

Lemma land_bit w k : 0 ≤ k → negb (Z.land w (Z.shiftl 1 k) =? 0) = Z.testbit w k.
Proof.
  intros Hk. rewrite Z.shiftl_1_l. destruct (Z.testbit w k) eqn:E.
  - apply negb_true_iff, Z.eqb_neq. intros H0.
    assert (Ht : Z.testbit (Z.land w (2 ^ k)) k = true).
    { rewrite Z.land_spec, E, Z.pow2_bits_true by done. done. }
    by rewrite H0, Z.bits_0 in Ht.
  - apply negb_false_iff, Z.eqb_eq. apply Z.bits_inj'. intros j Hj.
    rewrite Z.land_spec, Z.bits_0. destruct (decide (j = k)) as [->|Hne]; [by rewrite E|].
    rewrite Z.pow2_bits_false by done. apply andb_false_r.
Qed.

(** [i] is inside the array. *)
Definition in_words (b : DynamicBitset) (i : Z) : Prop :=
  0 ≤ i < 64 * Z.of_nat (length (bits b)).

Lemma in_words_lookup b i :
  in_words b i → ∃ w, bits b !! Z.to_nat (i / 64) = Some w ∧ py_getitem (bits b) (i / 64) = Ok w.
Proof.
  intros Hi. unfold in_words in Hi. pose proof (Z.div_mod i 64 ltac:(lia)).
  pose proof (Z.mod_pos_bound i 64 ltac:(lia)).
  destruct (lookup_lt_is_Some_2 (bits b) (Z.to_nat (i / 64))) as [w Hw]; [lia|].
  exists w. split; [done|]. apply py_getitem_nonneg; [lia|done].
Qed.

Lemma in_words_setitem b i w :
  in_words b i → py_setitem (bits b) (i / 64) w = Ok (<[Z.to_nat (i / 64) := w]> (bits b)).
Proof.
  intros Hi. unfold in_words in Hi. pose proof (Z.div_mod i 64 ltac:(lia)).
  pose proof (Z.mod_pos_bound i 64 ltac:(lia)).
  unfold py_setitem. rewrite py_index_nonneg by lia. done.
Qed.

Lemma bitset_get_spec b i : in_words b i → bitset_get b i = Ok (bool_decide (i ∈ index_set b)).
Proof.
  intros Hi. destruct (in_words_lookup b i Hi) as (w & Hw & Hg). unfold bitset_get. rewrite Hg.
  cbn. rewrite land_bit by (apply Z.mod_pos_bound; lia). f_equal.
  apply eq_true_iff_eq. rewrite bool_decide_eq_true, elem_of_index_set, Hw.
  unfold in_words in Hi. split; [intros ?; split; [lia|by exists w]|].
  by intros (_ & w' & [= ->] & ?).
Qed.

(** Replacing one word changes membership of its own indices only. *)
Lemma index_set_insert b i w w' n :
  in_words b i → bits b !! Z.to_nat (i / 64) = Some w →
  (∀ k, 0 ≤ k < 64 → k ≠ i `mod` 64 → Z.testbit w' k = Z.testbit w k) →
  ∀ j, j ∈ index_set (mkBitset (<[Z.to_nat (i / 64) := w']> (bits b)) n) ↔
       if decide (j = i) then Z.testbit w' (i `mod` 64) = true else j ∈ index_set b.
Proof.
  intros Hi Hw Hk j. rewrite elem_of_index_set. cbn [bits]. unfold in_words in Hi.
  pose proof (Z.div_mod i 64 ltac:(lia)). pose proof (Z.mod_pos_bound i 64 ltac:(lia)).
  pose proof (Z.div_mod j 64 ltac:(lia)). pose proof (Z.mod_pos_bound j 64 ltac:(lia)).
  pose proof (lookup_lt_Some _ _ _ Hw) as Hlen.
  destruct (decide (j = i)) as [->|Hne].
  { rewrite list_lookup_insert_eq by done. split; [by intros (_ & ? & [= ->] & ?)|].
    intros ?. split; [lia|by exists w']. }
  rewrite elem_of_index_set.
  destruct (decide (j < 0)); [split; intros [? _]; lia|].
  destruct (decide (Z.to_nat (j / 64) = Z.to_nat (i / 64))) as [Heq|Hne'].
  - rewrite Heq, list_lookup_insert_eq, Hw by done.
    assert (j / 64 = i / 64) by (pose proof (Z.div_pos j 64); pose proof (Z.div_pos i 64); lia).
    specialize (Hk (j `mod` 64) ltac:(lia) ltac:(lia)).
    split; intros (Hj & x & Hx & Ht); injection Hx as <-; (split; [lia|]);
      eexists; (split; [done|congruence]).
  - by rewrite list_lookup_insert_ne by done.
Qed.

Lemma word_bound_bits w : 0 ≤ w → (∀ j, 64 ≤ j → Z.testbit w j = false) → 0 ≤ w < 2 ^ 64.
Proof.
  intros Hw Hb. split; [done|]. destruct (decide (w = 0)) as [->|]; [lia|].
  apply Z.log2_lt_pow2; [lia|]. destruct (Z.lt_ge_cases (Z.log2 w) 64); [done|].
  pose proof (Hb (Z.log2 w) ltac:(done)). rewrite Z.bit_log2 in *; [done|lia].
Qed.

Lemma word_high_bits w j : 0 ≤ w < 2 ^ 64 → 64 ≤ j → Z.testbit w j = false.
Proof.
  intros Hw Hj. rewrite <- (Z.mod_small w (2 ^ 64)) by lia. by apply Z.mod_pow2_bits_high.
Qed.

Lemma insert_word_wf b i w :
  Forall (λ w, 0 ≤ w < 2 ^ 64) (bits b) → 0 ≤ w < 2 ^ 64 →
  Forall (λ w, 0 ≤ w < 2 ^ 64) (<[i := w]> (bits b)).
Proof. intros. by apply Forall_insert. Qed.

Lemma bitset_set_spec b i :
  bitset_wf b → in_words b i →
  ∃ b', bitset_set b i = Ok b' ∧ bitset_wf b' ∧ length (bits b') = length (bits b) ∧
    index_set b' = {[ i ]} ∪ index_set b.
Proof.
  intros Hwf Hi. unfold bitset_set. rewrite bitset_get_spec by done. cbn [mbind result_bind].
  case_bool_decide as Hin.
  { exists b. split_and!; [done..|]. set_solver. }
  destruct (in_words_lookup b i Hi) as (w & Hw & Hg). rewrite Hg. cbn [mbind result_bind].
  rewrite in_words_setitem by done. cbn [mbind result_bind].
  pose proof (Z.mod_pos_bound i 64 ltac:(lia)) as Hm.
  set (w' := Z.lor w (Z.shiftl 1 (i `mod` 64))).
  assert (Hbits : ∀ k, 0 ≤ k → Z.testbit w' k = Z.testbit w k || bool_decide (k = i `mod` 64)).
  { intros k Hk. unfold w'. rewrite Z.shiftl_1_l, Z.lor_spec. f_equal.
    case_bool_decide as E; [subst; by rewrite Z.pow2_bits_true by lia|by apply Z.pow2_bits_false]. }
  set (b' := mkBitset _ _).
  assert (Hset : index_set b' = {[ i ]} ∪ index_set b).
  { apply set_eq. intros j. unfold b'. rewrite (index_set_insert b i w w') by
      (try done; intros k Hk Hne; rewrite Hbits, bool_decide_eq_false_2 by lia; apply orb_false_r).
    case_decide; [subst|set_solver]. rewrite Hbits, bool_decide_eq_true_2, orb_true_r by lia.
    set_solver. }
  exists b'. split; [done|]. split_and!; [|apply length_insert|done].
  assert (Hww : 0 ≤ w < 2 ^ 64).
  { destruct Hwf as [Hf _]. rewrite Forall_lookup in Hf. by apply (Hf _ _ Hw). }
  apply bitset_wf_intro.
  - apply insert_word_wf; [apply Hwf|]. apply word_bound_bits.
    + apply Z.lor_nonneg. rewrite Z.shiftl_1_l. split; [lia|]. apply Z.pow_nonneg. lia.
    + intros j Hj. rewrite Hbits, bool_decide_eq_false_2, orb_false_r by lia.
      by apply word_high_bits.
  - rewrite Hset, size_union, size_singleton by set_solver. cbn [num_set_bits b'].
    rewrite (bitset_count b Hwf). lia.
Qed.

Lemma bitset_clear_spec b i :
  bitset_wf b → in_words b i →
  ∃ b', bitset_clear b i = Ok b' ∧ bitset_wf b' ∧ length (bits b') = length (bits b) ∧
    index_set b' = index_set b ∖ {[ i ]}.
Proof.
  intros Hwf Hi. unfold bitset_clear. rewrite bitset_get_spec by done. cbn [mbind result_bind].
  case_bool_decide as Hin.
  2:{ exists b. split_and!; [done..|]. set_solver. }
  destruct (in_words_lookup b i Hi) as (w & Hw & Hg). rewrite Hg. cbn [mbind result_bind].
  rewrite in_words_setitem by done. cbn [mbind result_bind].
  pose proof (Z.mod_pos_bound i 64 ltac:(lia)) as Hm.
  set (w' := Z.land w (Z.lnot (Z.shiftl 1 (i `mod` 64)))).
  assert (Hbits : ∀ k, 0 ≤ k → Z.testbit w' k = Z.testbit w k && negb (bool_decide (k = i `mod` 64))).
  { intros k Hk. unfold w'. rewrite Z.shiftl_1_l, Z.land_spec, Z.lnot_spec by done. do 2 f_equal.
    case_bool_decide as E; [subst; by rewrite Z.pow2_bits_true by lia|by apply Z.pow2_bits_false]. }
  set (b' := mkBitset _ _).
  assert (Hset : index_set b' = index_set b ∖ {[ i ]}).
  { apply set_eq. intros j. unfold b'. rewrite (index_set_insert b i w w') by
      (try done; intros k Hk Hne; rewrite Hbits, bool_decide_eq_false_2 by lia; apply andb_true_r).
    case_decide; [subst|set_solver]. rewrite Hbits, bool_decide_eq_true_2, andb_false_r by lia.
    set_solver. }
  exists b'. split; [done|]. split_and!; [|apply length_insert|done].
  assert (Hww : 0 ≤ w < 2 ^ 64).
  { destruct Hwf as [Hf _]. rewrite Forall_lookup in Hf. by apply (Hf _ _ Hw). }
  apply bitset_wf_intro.
  - apply insert_word_wf; [apply Hwf|]. apply word_bound_bits.
    + apply Z.land_nonneg. left. lia.
    + intros j Hj. rewrite Hbits, word_high_bits by lia. done.
  - rewrite Hset, size_difference, size_singleton by set_solver. cbn [num_set_bits b'].
    rewrite (bitset_count b Hwf).
    pose proof (subseteq_size {[ i ]} (index_set b) ltac:(set_solver)) as Hsz.
    rewrite size_singleton in Hsz. lia.
Qed.

(** ** Initialization and [resize] *)

Lemma div_up_words c : 0 ≤ c → 64 * (div_up c 64 - 1) < c ∨ c = 0 ∧ div_up c 64 = 0.
Proof.
  intros Hc. destruct (decide (c = 0)) as [->|]; [by right|left].
  pose proof (div_up_bounds c 64 ltac:(lia)). lia.
Qed.

Lemma popcount_zero : popcount 0 = 0.
Proof. reflexivity. Qed.

Lemma zsum_replicate_zero n : zsum (popcount <$> replicate n 0) = 0.
Proof. induction n; simpl; [done|]. by rewrite zsum_cons, popcount_zero. Qed.

Lemma bitset_init_spec capacity :
  0 ≤ capacity →
  bitset_wf (bitset_init capacity) ∧ index_set (bitset_init capacity) = ∅ ∧
  Z.of_nat (length (bits (bitset_init capacity))) = div_up capacity 64.
Proof.
  intros Hc. unfold bitset_init. split_and!.
  - split; cbn [bits num_set_bits]; [apply Forall_replicate; lia|]. by rewrite zsum_replicate_zero.
  - apply set_eq. intros i. rewrite elem_of_index_set. split; [|set_solver].
    intros (_ & w & Hw & Ht). cbn [bits] in Hw. apply lookup_replicate in Hw as [-> _].
    by rewrite Z.bits_0 in Ht.
  - cbn [bits]. rewrite length_replicate. pose proof (div_up_nonneg capacity 64). lia.
Qed.

Lemma all_set_bit j : 0 ≤ j → Z.testbit ALL_SET_MASK j = (j <? 64).
Proof.
  intros Hj. change ALL_SET_MASK with (Z.ones 64). rewrite Z.testbit_ones by lia.
  by rewrite (proj2 (Z.leb_le 0 j) Hj).
Qed.

Lemma keep_mask_bit m j :
  0 ≤ m ≤ 64 → 0 ≤ j → Z.testbit (Z.shiftr ALL_SET_MASK (64 - m)) j = (j <? m).
Proof. intros Hm Hj. rewrite Z.shiftr_spec, all_set_bit by lia. apply eq_true_iff_eq. lia. Qed.

Lemma popcount_split w a c :
  (∀ k, 0 ≤ k < 64 → Z.testbit w k = xorb (Z.testbit a k) (Z.testbit c k) ∧
                     Z.testbit a k && Z.testbit c k = false) →
  popcount w = popcount a + popcount c.
Proof.
  intros H. unfold popcount.
  assert (Hl : Forall (λ k, (k < 64)%nat) (seq 0 64)) by (apply Forall_seq; lia).
  induction Hl as [|k l Hk _ IH]; [done|].
  destruct (H (Z.of_nat k) ltac:(lia)) as [Hx Ha]. rewrite !filter_cons.
  destruct (Z.testbit w (Z.of_nat k)), (Z.testbit a (Z.of_nat k)), (Z.testbit c (Z.of_nat k));
    try done; simpl; lia.
Qed.

Lemma zsum_insert {A} (f : A → Z) l k x y :
  l !! k = Some y → zsum (f <$> <[k := x]> l) = zsum (f <$> l) - f y + f x.
Proof.
  revert k. induction l as [|z l IH]; intros [|k] Hk; try done.
  - injection Hk as ->. change (<[0%nat := x]> (y :: l)) with (x :: l).
    rewrite !fmap_cons, !zsum_cons. lia.
  - change (<[S k := x]> (z :: l)) with (z :: <[k := x]> l).
    rewrite !fmap_cons, !zsum_cons, IH by done. lia.
Qed.

Lemma zsum_take_drop {A} (f : A → Z) n l :
  zsum (f <$> l) = zsum (f <$> take n l) + zsum (f <$> drop n l).
Proof. by rewrite <- zsum_app, <- fmap_app, take_drop. Qed.

(** The words kept by a shrink: whole ones, the last one masked. *)
Lemma bitset_mask_tail_spec b c :
  bitset_wf b → 0 ≤ c → div_up c 64 ≤ Z.of_nat (length (bits b)) →
  ∃ ws n, bitset_mask_tail b c = Ok (mkBitset ws n) ∧ length ws = length (bits b) ∧
    Forall (λ w, 0 ≤ w < 2 ^ 64) ws ∧
    n = zsum (popcount <$> take (Z.to_nat (div_up c 64)) ws) ∧
    ∀ i w, 0 ≤ i → i / 64 < div_up c 64 → bits b !! Z.to_nat (i / 64) = Some w →
      ∃ w', ws !! Z.to_nat (i / 64) = Some w' ∧
        Z.testbit w' (i `mod` 64) = (i <? c) && Z.testbit w (i `mod` 64).
Proof.
  intros [Hf Hn] Hc Hle. unfold bitset_mask_tail. rewrite (proj2 (Z.leb_le _ _) Hle).
  set (e := div_up c 64) in *. pose proof (div_up_bounds c 64 ltac:(lia)) as Hb. fold e in Hb.
  pose proof (Z.div_mod c 64 ltac:(lia)) as Hdm. pose proof (Z.mod_pos_bound c 64 ltac:(lia)) as Hm.
  rewrite (zsum_take_drop popcount (Z.to_nat e) (bits b)) in Hn.
  destruct ((1 <=? e) && negb (c `mod` 64 =? 0)) eqn:Hpart.
  2:{ eexists _, _. split; [done|]. split_and!; [done|done|lia|].
      intros i w Hi Hlt Hw. exists w. split; [done|].
      pose proof (Z.div_mod i 64 ltac:(lia)). pose proof (Z.mod_pos_bound i 64 ltac:(lia)).
      assert (i < c) by lia. by rewrite (proj2 (Z.ltb_lt _ _)). }
  apply andb_prop in Hpart as [He1 He2]. apply negb_true_iff in He2.
  assert (c / 64 = e - 1) as Hce by lia.
  destruct (lookup_lt_is_Some_2 (bits b) (Z.to_nat (e - 1))) as [w Hw]; [lia|].
  rewrite (py_getitem_nonneg (bits b) (e - 1) w) by (lia || done). cbn [mbind result_bind].
  unfold py_setitem. rewrite py_index_nonneg by lia. cbn [mbind result_bind].
  set (keep := Z.shiftr ALL_SET_MASK (64 - c `mod` 64)).
  assert (Hww : 0 ≤ w < 2 ^ 64) by (rewrite Forall_lookup in Hf; by apply (Hf _ _ Hw)).
  assert (Hkb : ∀ j, 0 ≤ j → Z.testbit keep j = (j <? c `mod` 64)).
  { intros j Hj. unfold keep. by rewrite keep_mask_bit by lia. }
  eexists _, _. split; [done|]. split_and!.
  - apply length_insert.
  - apply Forall_insert; [done|]. apply word_bound_bits; [apply Z.land_nonneg; lia|].
    intros j Hj. rewrite Z.land_spec, word_high_bits by done. done.
  - rewrite take_insert_lt by lia.
    rewrite (zsum_insert popcount _ _ _ w) by (rewrite lookup_take_lt by lia; done).
    assert (popcount w = popcount (Z.land w keep) +
      popcount (Z.land (Z.land w (Z.lnot keep)) ALL_SET_MASK)) as Hp; [|lia].
    apply popcount_split. intros k Hk.
    rewrite !Z.land_spec, Z.lnot_spec, Hkb, all_set_bit by lia.
    rewrite (proj2 (Z.ltb_lt k 64)) by lia.
    by destruct (Z.testbit w k), (k <? c `mod` 64).
  - intros i w0 Hi Hlt Hw0.
    pose proof (Z.div_mod i 64 ltac:(lia)). pose proof (Z.mod_pos_bound i 64 ltac:(lia)).
    destruct (decide (i / 64 = e - 1)) as [Heq|Hne].
    + rewrite Heq in *. rewrite list_lookup_insert_eq by lia.
      eexists; split; [done|]. rewrite Z.land_spec, Hkb by lia.
      assert (w0 = w) as -> by congruence. rewrite andb_comm. f_equal. apply eq_true_iff_eq. lia.
    + rewrite list_lookup_insert_ne by lia. exists w0. split; [done|].
      assert (i < c) by lia. by rewrite (proj2 (Z.ltb_lt _ _)).
Qed.

Lemma bitset_resize_spec b c :
  bitset_wf b → 0 ≤ c →
  ∃ b', bitset_resize b c = Ok b' ∧ bitset_wf b' ∧
    Z.of_nat (length (bits b')) = div_up c 64 ∧
    index_set b' = filter (λ i, i < c) (index_set b).
Proof.
  intros Hwf Hc. unfold bitset_resize. pose proof (div_up_nonneg c 64 ltac:(lia) Hc).
  destruct (Z.le_gt_cases (div_up c 64) (Z.of_nat (length (bits b)))) as [Hle|Hgt].
  - destruct (bitset_mask_tail_spec b c Hwf Hc Hle) as (ws & n & -> & Hlen & Hf & Hn & Hbits).
    cbn [mbind result_bind].
    assert (Hb' : (if Z.of_nat (length (bits b)) <? div_up c 64
      then Ok (mkBitset (bits (mkBitset ws n) ++ replicate (Z.to_nat (div_up c 64 - Z.of_nat (length (bits b)))) 0)
             (num_set_bits (mkBitset ws n)))
      else if div_up c 64 <? Z.of_nat (length (bits b))
      then Ok (mkBitset (take (Z.to_nat (div_up c 64)) (bits (mkBitset ws n))) (num_set_bits (mkBitset ws n)))
      else Ok (mkBitset ws n)) = Ok (mkBitset (take (Z.to_nat (div_up c 64)) ws) n)).
    { rewrite (proj2 (Z.ltb_ge _ _)) by lia. destruct (_ <? _) eqn:E; [done|].
      rewrite take_ge by lia. done. }
    rewrite Hb'. eexists; split; [done|]. split_and!.
    + split; cbn [bits num_set_bits]; [by apply Forall_take|done].
    + cbn [bits]. rewrite length_take. lia.
    + apply set_eq. intros i. rewrite elem_of_filter, !elem_of_index_set. cbn [bits].
      pose proof (Z.div_mod i 64 ltac:(lia)). pose proof (Z.mod_pos_bound i 64 ltac:(lia)).
      pose proof (div_up_bounds c 64 ltac:(lia)).
      destruct (decide (0 ≤ i)) as [Hi|Hi]; [|split; [intros [? _]; lia|intros (_ & ? & _); lia]].
      destruct (decide (i / 64 < div_up c 64)) as [Hlt|Hge].
      * pose proof (Z.div_pos i 64). rewrite lookup_take_lt by lia.
        destruct (lookup_lt_is_Some_2 (bits b) (Z.to_nat (i / 64))) as [w Hw]; [lia|].
        destruct (Hbits i w Hi Hlt Hw) as (w' & Hw' & Ht). rewrite Hw, Hw'. split.
        -- intros (_ & x & Hx & Hxt). injection Hx as <-. rewrite Ht in Hxt.
           apply andb_prop in Hxt as [? ?]. split; [lia|]. split; [done|]. by exists w.
        -- intros (Hic & _ & x & Hx & Hxt). injection Hx as <-. split; [done|]. exists w'.
           split; [done|]. rewrite Ht, (proj2 (Z.ltb_lt _ _) Hic). done.
      * split.
        -- intros (_ & x & Hx & _). apply lookup_lt_Some in Hx. rewrite length_take in Hx. lia.
        -- intros (Hic & _). lia.
  - unfold bitset_mask_tail. rewrite (proj2 (Z.leb_gt _ _)) by lia. cbn [mbind result_bind].
    rewrite (proj2 (Z.ltb_lt _ _)) by lia. eexists; split; [done|]. split_and!.
    + destruct Hwf as [Hf Hn]. split; cbn [bits num_set_bits].
      * apply Forall_app. split; [done|]. apply Forall_replicate. lia.
      * by rewrite fmap_app, zsum_app, zsum_replicate_zero, Z.add_0_r.
    + cbn [bits]. rewrite length_app, length_replicate. lia.
    + apply set_eq. intros i. rewrite elem_of_filter, !elem_of_index_set. cbn [bits].
      pose proof (Z.div_mod i 64 ltac:(lia)). pose proof (Z.mod_pos_bound i 64 ltac:(lia)).
      pose proof (div_up_bounds c 64 ltac:(lia)). split.
      * intros (Hi & w & [Hw|[Hge Hw]]%lookup_app_Some & Ht).
        -- split; [apply lookup_lt_Some in Hw; lia|]. split; [done|by exists w].
        -- apply lookup_replicate in Hw as [-> _]. by rewrite Z.bits_0 in Ht.
      * intros (_ & Hi & w & Hw & Ht). split; [done|]. exists w.
        by rewrite (lookup_app_l_Some _ _ _ _ Hw).
Qed.

(** ** [any_set] *)

Lemma nonzero_bit w : 0 ≤ w < 2 ^ 64 → w ≠ 0 ↔ ∃ k, 0 ≤ k < 64 ∧ Z.testbit w k = true.
Proof.
  intros Hw. split.
  - intros Hne. exists (Z.log2 w). split; [|apply Z.bit_log2; lia].
    split; [apply Z.log2_nonneg|]. apply Z.log2_lt_pow2; lia.
  - intros (k & _ & Hk) ->. by rewrite Z.bits_0 in Hk.
Qed.

Lemma masked_nonzero m w :
  0 ≤ w < 2 ^ 64 →
  negb (Z.land m w =? 0) = true ↔
  ∃ k, 0 ≤ k < 64 ∧ Z.testbit m k = true ∧ Z.testbit w k = true.
Proof.
  intros Hw. rewrite negb_true_iff, Z.eqb_neq. split.
  - intros Hne.
    assert (Hb : 0 ≤ Z.land m w < 2 ^ 64).
    { apply word_bound_bits; [apply Z.land_nonneg; lia|].
      intros j Hj. rewrite Z.land_spec, (word_high_bits w) by done. apply andb_false_r. }
    apply (nonzero_bit _ Hb) in Hne as (k & Hk & Ht). rewrite Z.land_spec in Ht.
    apply andb_prop in Ht as [? ?]. eauto.
  - intros (k & _ & Hm & Hk) H0. assert (Ht : Z.testbit (Z.land m w) k = true).
    { by rewrite Z.land_spec, Hm, Hk. }
    by rewrite H0, Z.bits_0 in Ht.
Qed.

Lemma start_mask_bit s j :
  0 ≤ s → 0 ≤ j < 64 → Z.testbit (Z.shiftl ALL_SET_MASK s) j = (s <=? j).
Proof.
  intros Hs Hj. rewrite Z.shiftl_spec by lia. destruct (s <=? j) eqn:E.
  - rewrite all_set_bit by lia. lia.
  - apply Z.testbit_neg_r. lia.
Qed.

Lemma any_word_spec b lo hi :
  bitset_wf b → 0 ≤ lo →
  any_word b lo hi = true ↔ ∃ i, lo ≤ i / 64 < hi ∧ i ∈ index_set b.
Proof.
  intros [Hf _] Hlo. unfold any_word. rewrite existsb_exists. split.
  - intros (w & Hw%list_elem_of_In & Hne). apply list_elem_of_lookup in Hw as [k Hk].
    apply lookup_take_Some in Hk as [Hk Hlt]. rewrite lookup_drop in Hk.
    assert (Hww : 0 ≤ w < 2 ^ 64) by (rewrite Forall_lookup in Hf; by apply (Hf _ _ Hk)).
    apply negb_true_iff, Z.eqb_neq, (nonzero_bit w Hww) in Hne as (j & Hj & Ht).
    exists (64 * (lo + Z.of_nat k) + j). rewrite elem_of_index_set.
    replace ((64 * (lo + Z.of_nat k) + j) / 64) with (lo + Z.of_nat k)
      by (apply (Z.div_unique _ _ _ j); lia).
    replace ((64 * (lo + Z.of_nat k) + j) `mod` 64) with j
      by (apply (Z.mod_unique _ _ (lo + Z.of_nat k)); lia).
    split; [lia|]. split; [lia|]. exists w. split; [|done].
    by replace (Z.to_nat (lo + Z.of_nat k)) with (Z.to_nat lo + k)%nat by lia.
  - intros (i & Hi & (Hi0 & w & Hw & Ht)%elem_of_index_set). exists w. split.
    + apply list_elem_of_In, list_elem_of_lookup. exists (Z.to_nat (i / 64) - Z.to_nat lo)%nat.
      rewrite lookup_take_lt by lia. rewrite lookup_drop.
      by replace (Z.to_nat lo + (Z.to_nat (i / 64) - Z.to_nat lo))%nat with (Z.to_nat (i / 64)) by lia.
    + apply negb_true_iff, Z.eqb_neq. intros ->. by rewrite Z.bits_0 in Ht.
Qed.

(** Members of one word between two bit positions. *)
Lemma word_range b q w (P : Z → Prop) :
  0 ≤ q → bits b !! Z.to_nat q = Some w →
  (∃ k, 0 ≤ k < 64 ∧ P k ∧ Z.testbit w k = true) ↔
  ∃ i, i / 64 = q ∧ P (i `mod` 64) ∧ i ∈ index_set b.
Proof.
  intros Hq Hw. split.
  - intros (k & Hk & HP & Ht). exists (64 * q + k). rewrite elem_of_index_set.
    replace ((64 * q + k) / 64) with q by (apply (Z.div_unique _ _ _ k); lia).
    replace ((64 * q + k) `mod` 64) with k by (apply (Z.mod_unique _ _ q); lia).
    split_and!; [done|done|lia|by exists w].
  - intros (i & <- & HP & (Hi & w' & Hw' & Ht)%elem_of_index_set).
    exists (i `mod` 64). pose proof (Z.mod_pos_bound i 64 ltac:(lia)).
    assert (w' = w) as -> by congruence. done.
Qed.

Lemma any_set_spec b s e :
  bitset_wf b → 0 ≤ s → e ≤ 64 * Z.of_nat (length (bits b)) →
  ∃ r, any_set b s e = Ok r ∧ (r = true ↔ ∃ i, s ≤ i < e ∧ i ∈ index_set b).
Proof.
  intros Hwf Hs He. unfold any_set. destruct (e <=? s) eqn:Hse.
  { exists false. split; [done|]. split; [done|]. intros (i & ? & _). lia. }
  pose proof (Z.div_mod s 64 ltac:(lia)). pose proof (Z.mod_pos_bound s 64 ltac:(lia)).
  pose proof (Z.div_mod e 64 ltac:(lia)). pose proof (Z.mod_pos_bound e 64 ltac:(lia)).
  destruct (lookup_lt_is_Some_2 (bits b) (Z.to_nat (s / 64))) as [ws Hws]; [lia|].
  rewrite (py_getitem_nonneg (bits b) (s / 64) ws) by (lia || done). cbn [mbind result_bind].
  assert (Hbound : ∀ k w, bits b !! k = Some w → 0 ≤ w < 2 ^ 64).
  { intros k w Hk. destruct Hwf as [Hf _]. rewrite Forall_lookup in Hf. by apply (Hf _ _ Hk). }
  pose proof (any_word_spec b (s / 64 + 1) (e / 64) Hwf ltac:(lia)) as Hmid.
  destruct (s / 64 =? e / 64) eqn:Heq.
  - apply Z.eqb_eq in Heq. exists (negb (Z.land (Z.land (Z.shiftl ALL_SET_MASK (s `mod` 64))
        (Z.shiftr ALL_SET_MASK (64 - e `mod` 64))) ws =? 0) ||
      any_word b (s / 64 + 1) (e / 64)).
    split; [by case_match|].
    rewrite orb_true_iff, masked_nonzero, Hmid by eauto.
    assert (Hword : (∃ k, 0 ≤ k < 64 ∧ Z.testbit (Z.land (Z.shiftl ALL_SET_MASK (s `mod` 64))
        (Z.shiftr ALL_SET_MASK (64 - e `mod` 64))) k = true ∧ Z.testbit ws k = true) ↔
      ∃ i, i / 64 = s / 64 ∧ s `mod` 64 ≤ i `mod` 64 < e `mod` 64 ∧ i ∈ index_set b).
    { rewrite <- (word_range b (s / 64) ws (λ k, s `mod` 64 ≤ k < e `mod` 64)) by (lia || done).
      split; intros (k & Hk & Hm & Ht); exists k; (split; [done|]); (split; [|done]).
      - rewrite Z.land_spec, start_mask_bit, keep_mask_bit in Hm by lia. lia.
      - rewrite Z.land_spec, start_mask_bit, keep_mask_bit by lia. lia. }
    rewrite Hword. split.
    + intros [(i & Hq & Hi & Hin)|(i & Hq & _)]; [|lia].
      pose proof (Z.div_mod i 64 ltac:(lia)). exists i. split; [lia|done].
    + intros (i & Hi & Hin). left. exists i. pose proof (Z.div_mod i 64 ltac:(lia)).
      pose proof (Z.mod_pos_bound i 64 ltac:(lia)). split_and!; [lia..|done].
  - apply Z.eqb_neq in Heq.
    assert (Hstart : negb (Z.land (Z.shiftl ALL_SET_MASK (s `mod` 64)) ws =? 0) = true ↔
      ∃ i, i / 64 = s / 64 ∧ s `mod` 64 ≤ i `mod` 64 ∧ i ∈ index_set b).
    { rewrite masked_nonzero by eauto.
      rewrite <- (word_range b (s / 64) ws (λ k, s `mod` 64 ≤ k)) by (lia || done).
      split; intros (k & Hk & Hm & Ht); exists k; (split; [done|]); (split; [|done]).
      - rewrite start_mask_bit in Hm by lia. lia.
      - rewrite start_mask_bit by lia. lia. }
    set (at_end := if negb (e `mod` 64 =? 0) then _ else _).
    assert (Hend : ∃ r, at_end = Ok r ∧
      (r = true ↔ ∃ i, i / 64 = e / 64 ∧ i `mod` 64 < e `mod` 64 ∧ i ∈ index_set b)).
    { unfold at_end. destruct (e `mod` 64 =? 0) eqn:Hz; cbn [negb].
      - exists false. split; [done|]. split; [done|]. intros (i & _ & ? & _).
        pose proof (Z.mod_pos_bound i 64 ltac:(lia)). lia.
      - destruct (lookup_lt_is_Some_2 (bits b) (Z.to_nat (e / 64))) as [we Hwe]; [lia|].
        rewrite (py_getitem_nonneg (bits b) (e / 64) we) by (lia || done). cbn [mbind result_bind].
        eexists; split; [done|]. rewrite masked_nonzero by eauto.
        rewrite <- (word_range b (e / 64) we (λ k, k < e `mod` 64)) by (lia || done).
        split; intros (k & Hk & Hm & Ht); exists k; (split; [done|]); (split; [|done]).
        + rewrite keep_mask_bit in Hm by lia. lia.
        + rewrite keep_mask_bit by lia. lia. }
    destruct Hend as (r & -> & Hr). cbn [mbind result_bind].
    exists (negb (Z.land (Z.shiftl ALL_SET_MASK (s `mod` 64)) ws =? 0) ||
            (r || any_word b (s / 64 + 1) (e / 64))).
    split; [by destruct (negb _), r|]. rewrite !orb_true_iff, Hstart, Hr, Hmid. split.
    + intros [(i & ? & ? & ?)|[(i & ? & ? & ?)|(i & ? & ?)]]; exists i;
        pose proof (Z.div_mod i 64 ltac:(lia)); pose proof (Z.mod_pos_bound i 64 ltac:(lia));
        (split; [lia|done]).
    + intros (i & Hi & Hin). pose proof (Z.div_mod i 64 ltac:(lia)).
      pose proof (Z.mod_pos_bound i 64 ltac:(lia)).
      destruct (decide (i / 64 = s / 64)); [left; exists i; split_and!; lia || done|].
      destruct (decide (i / 64 = e / 64)); [right; left; exists i; split_and!; lia || done|].
      right; right. exists i. split; [lia|done].
Qed.

(** ** Refinement of a finite set *)

Inductive bitset_op := OpSet (i : Z) | OpClear (i : Z) | OpResize (c : Z).

Definition bitset_step (op : bitset_op) (b : DynamicBitset) : result DynamicBitset :=
  match op with
  | OpSet i => bitset_set b i
  | OpClear i => bitset_clear b i
  | OpResize c => bitset_resize b c
  end.

Fixpoint bitset_run (ops : list bitset_op) (b : DynamicBitset) : result DynamicBitset :=
  match ops with
  | [] => Ok b
  | op :: ops' => b' ← bitset_step op b; bitset_run ops' b'
  end.

(** The abstract machine: a capacity and a set of indices below it; [None]
    when an index is out of range. *)
Definition set_step (op : bitset_op) (s : Z * gset Z) : option (Z * gset Z) :=
  match op with
  | OpSet i => if bool_decide (0 ≤ i < s.1) then Some (s.1, {[ i ]} ∪ s.2) else None
  | OpClear i => if bool_decide (0 ≤ i < s.1) then Some (s.1, s.2 ∖ {[ i ]}) else None
  | OpResize c => if bool_decide (0 ≤ c) then Some (c, filter (λ i, i < c) s.2) else None
  end.

Fixpoint set_run (ops : list bitset_op) (s : Z * gset Z) : option (Z * gset Z) :=
  match ops with
  | [] => Some s
  | op :: ops' => s' ← set_step op s; set_run ops' s'
  end.

(** The simulation relation. *)
Definition represents (b : DynamicBitset) (s : Z * gset Z) : Prop :=
  bitset_wf b ∧ 0 ≤ s.1 ∧ Z.of_nat (length (bits b)) = div_up s.1 64 ∧ index_set b = s.2.

Lemma represents_in_words b s i : represents b s → 0 ≤ i < s.1 → in_words b i.
Proof.
  intros (_ & Hc & Hlen & _) Hi. unfold in_words. rewrite Hlen.
  pose proof (div_up_bounds s.1 64 ltac:(lia)). lia.
Qed.

Lemma bitset_step_simulates op b s s' :
  represents b s → set_step op s = Some s' →
  ∃ b', bitset_step op b = Ok b' ∧ represents b' s'.
Proof.
  intros Hr. pose proof Hr as (Hwf & Hc & Hlen & Hset).
  destruct op as [i|i|c]; cbn [set_step bitset_step]; case_bool_decide as Hi; try done;
    intros [= <-].
  - destruct (bitset_set_spec b i Hwf (represents_in_words b s i Hr Hi)) as (b' & -> & ? & ? & ?).
    exists b'. split; [done|]. split_and!; simpl; try done; congruence.
  - destruct (bitset_clear_spec b i Hwf (represents_in_words b s i Hr Hi)) as (b' & -> & ? & ? & ?).
    exists b'. split; [done|]. split_and!; simpl; try done; congruence.
  - destruct (bitset_resize_spec b c Hwf Hi) as (b' & -> & ? & ? & ?).
    exists b'. split; [done|]. split_and!; simpl; try done; congruence.
Qed.

Lemma bitset_run_simulates ops b s s' :
  represents b s → set_run ops s = Some s' →
  ∃ b', bitset_run ops b = Ok b' ∧ represents b' s'.
Proof.
  revert b s. induction ops as [|op ops IH]; intros b s Hr; cbn [set_run bitset_run].
  { intros [= <-]. by exists b. }
  destruct (set_step op s) as [s1|] eqn:E; cbn; [|done]. intros Hrun.
  destruct (bitset_step_simulates op b s s1 Hr E) as (b1 & -> & Hr1). cbn. by eapply IH.
Qed.

(** ** Properties *)

(** The word array refines a finite set.  Any sequence of [set],
    [clear] and [resize] whose indices are within the capacity of the moment
    runs without an exception on the array of 64-bit words, and leaves
    exactly the indices of the corresponding set operations, with the count
    equal to the size of the set. *)
Theorem bitset_refines_finite_set (ops : list bitset_op) (capacity : Z) (s : Z * gset Z) :
  0 ≤ capacity → set_run ops (capacity, ∅) = Some s →
  ∃ b, bitset_run ops (bitset_init capacity) = Ok b ∧ index_set b = s.2 ∧
    num_set_bits b = Z.of_nat (size s.2).
Proof.
  intros Hc Hrun. destruct (bitset_init_spec capacity Hc) as (Hwf & Hset & Hlen).
  destruct (bitset_run_simulates ops (bitset_init capacity) (capacity, ∅) s)
    as (b & Hb & Hwf' & _ & _ & Hset'); [done|done|].
  exists b. split_and!; [done..|]. rewrite <- Hset'. by apply bitset_count.
Qed.

(** [any_set] decides whether some index of the range is set, for every
    range inside the array: across word boundaries, with partial first and
    last words, and for empty ranges. *)
Theorem any_set_decides_range (b : DynamicBitset) (s e : Z) :
  bitset_wf b → 0 ≤ s → e ≤ 64 * Z.of_nat (length (bits b)) →
  ∃ r, any_set b s e = Ok r ∧ (r = true ↔ ∃ i, s ≤ i < e ∧ i ∈ index_set b).
Proof. apply any_set_spec. Qed.

Lemma bitset_refines_witness :
  ∃ b, bitset_run [OpSet 3; OpSet 70; OpSet 100; OpClear 3; OpResize 80] (bitset_init 128) = Ok b ∧
    num_set_bits b = 1.
Proof.
  destruct (bitset_refines_finite_set [OpSet 3; OpSet 70; OpSet 100; OpClear 3; OpResize 80] 128
    (80, {[ 70 ]})) as (b & Hb & _ & Hn); [lia|vm_compute; reflexivity|].
  exists b. split; [exact Hb|]. rewrite Hn. vm_compute. reflexivity.
Defined.

Lemma any_set_witness :
  ∃ r, any_set (mkBitset [0; 64] 1) 60 71 = Ok r ∧ r = true.
Proof.
  destruct (any_set_decides_range (mkBitset [0; 64] 1) 60 71) as (r & Hr & _);
    [split; [repeat constructor; lia|vm_compute; reflexivity]|lia|simpl; lia|].
  exists r. split; [exact Hr|]. vm_compute in Hr. injection Hr as <-. reflexivity.
Defined.
