(* ===== verification/SlotAllocatorProps.v ===== *)
(** * Correctness of the slot allocator

    The conservation invariant of [SlotAllocator] and that every operation
    keeps it; the behaviour of each operation; and the refinement of an
    abstract allocator that is just a set of occupied ids. *)

From S2P Require Import Prelude KvUtils Bitset SlotAllocator.

Local Open Scope Z_scope.

(** ** The invariant *)

Definition occupied (s : SlotAllocator) : gset Z := index_set (_occupied_mask s).

(** The slots of a queue have these ids. *)
Definition has_ids (slots : list Slot) (ids : list Z) : Prop := _slot_id <$> slots = Some <$> ids.

Record sa_inv (s : SlotAllocator) : Prop := {
  sai_target : 0 ≤ _target_capacity s ≤ _capacity s;
  sai_active : 0 ≤ _num_active_slots s ≤ _capacity s;
  sai_ready : (_num_ready_recycled_slots s ≤ length (_recycled_slots s))%nat;
  sai_events : Forall (λ x, ready_event x = None)
    (take (_num_ready_recycled_slots s) (_recycled_slots s));
  sai_mask : bitset_wf (_occupied_mask s);
  sai_words : _capacity s ≤ 64 * Z.of_nat (length (bits (_occupied_mask s)));
  sai_ids : ∃ rs os, has_ids (_recycled_slots s) rs ∧ has_ids (_overflow_slots s) os ∧
    Forall (λ i, i < _target_capacity s) rs ∧
    Forall (λ i, _target_capacity s ≤ i < _capacity s) os ∧
    rs ++ os ++ elements (occupied s) ≡ₚ seqZ 0 (_num_active_slots s);
}.

Lemma has_ids_length slots ids : has_ids slots ids → length slots = length ids.
Proof. intros H. apply (f_equal length) in H. by rewrite !length_fmap in H. Qed.

Lemma has_ids_app l k i j : has_ids l i → has_ids k j → has_ids (l ++ k) (i ++ j).
Proof. unfold has_ids. intros H1 H2. by rewrite !fmap_app, H1, H2. Qed.

Lemma has_ids_cons_inv x l ids :
  has_ids (x :: l) ids → ∃ i ids', ids = i :: ids' ∧ _slot_id x = Some i ∧ has_ids l ids'.
Proof.
  unfold has_ids. destruct ids as [|i ids']; rewrite ?fmap_cons; [done|].
  intros [= H1 H2]. eauto.
Qed.

Lemma slot_id_ok x i : _slot_id x = Some i → slot_id x = Ok i.
Proof. intros H. unfold slot_id. by rewrite H. Qed.

Lemma slot_ids_ok l ids : has_ids l ids → slot_ids l = Ok ids.
Proof.
  revert ids. induction l as [|x l IH]; intros ids H.
  - unfold has_ids in H. by destruct ids.
  - apply has_ids_cons_inv in H as (i & ids' & -> & Hx & Hl). cbn [slot_ids].
    rewrite (slot_id_ok x i Hx). cbn. by rewrite (IH ids').
Qed.

Lemma occupied_count s : sa_inv s → num_occupied_slots s = Z.of_nat (size (occupied s)).
Proof. intros H. apply bitset_count, H. Qed.

Lemma length_seqZ_nonneg n : 0 ≤ n → Z.of_nat (length (seqZ 0 n)) = n.
Proof. intros. rewrite length_seqZ. lia. Qed.

Lemma sa_counts s rs os :
  sa_inv s → has_ids (_recycled_slots s) rs → has_ids (_overflow_slots s) os →
  rs ++ os ++ elements (occupied s) ≡ₚ seqZ 0 (_num_active_slots s) →
  Z.of_nat (length (_recycled_slots s)) + Z.of_nat (length (_overflow_slots s)) +
  num_occupied_slots s = _num_active_slots s.
Proof.
  intros Hinv Hr Ho Hp. apply Permutation_length in Hp. rewrite !length_app in Hp.
  rewrite (occupied_count s Hinv), (has_ids_length _ _ Hr), (has_ids_length _ _ Ho).
  pose proof (length_seqZ_nonneg (_num_active_slots s) ltac:(apply Hinv)).
  unfold size, set_size in *. simpl. lia.
Qed.

Lemma all_result_true {A} (f : A → result bool) l :
  (∀ x, x ∈ l → f x = Ok true) → all_result f l = Ok true.
Proof.
  induction l as [|x l IH]; intros H; [done|]. cbn [all_result].
  rewrite (H x) by left. cbn. apply IH. intros y Hy. apply H. by right.
Qed.

(** The debug check never fails on a state with the invariant. *)
Lemma check_true s : sa_inv s → check s = Ok true.
Proof.
  intros Hinv. pose proof Hinv as [Ht Ha _ _ _ _ (rs & os & Hr & Ho & Hrs & Hos & Hp)].
  unfold check, shrink_in_progress.
  rewrite (proj2 (Z.leb_le (_num_active_slots s) _)) by lia.
  rewrite !(proj2 (Z.leb_le (_target_capacity s) _)) by lia. cbn.
  assert (((_target_capacity s <? _capacity s) || bool_decide (_overflow_slots s = [])) = true) as ->.
  { destruct (_target_capacity s <? _capacity s) eqn:E; [done|]. cbn. apply bool_decide_eq_true.
    destruct os as [|i os]; [|apply Forall_cons in Hos as [? _]; lia].
    apply has_ids_length in Ho. by destruct (_overflow_slots s). }
  cbn. rewrite all_result_true.
  - cbn. f_equal. apply Z.eqb_eq. by eapply sa_counts.
  - intros x Hx. unfold id_in. apply list_elem_of_lookup in Hx as [k Hk].
    assert (Hi : (_slot_id <$> _overflow_slots s) !! k = Some (_slot_id x))
      by (by rewrite list_lookup_fmap, Hk).
    rewrite Ho, list_lookup_fmap in Hi. destruct (os !! k) as [i|] eqn:Ei; [|done].
    injection Hi as Hi. rewrite (slot_id_ok x i) by done. cbn.
    rewrite Forall_lookup in Hos. specialize (Hos k i Ei). f_equal. lia.
Qed.

Lemma assert_check_ok s : sa_inv s → assert_check s = (Ok (), s).
Proof. intros H. unfold assert_check. by rewrite check_true. Qed.

Lemma init_inv capacity : 0 ≤ capacity → sa_inv (allocator_init capacity).
Proof.
  intros Hc. destruct (bitset_init_spec capacity Hc) as (Hwf & Hset & Hlen).
  unfold allocator_init. split; cbn [_target_capacity _capacity _num_active_slots
    _num_ready_recycled_slots _recycled_slots _occupied_mask _overflow_slots]; try done; try lia.
  - rewrite Hlen. pose proof (div_up_bounds capacity 64 ltac:(lia)). lia.
  - exists [], []. split_and!; try done. unfold occupied. cbn [_occupied_mask].
    by rewrite Hset, elements_empty.
Qed.

(** ** Scrubbing *)

Lemma scrub_tail_ids complete l l' n :
  scrub_tail complete l = (l', n) →
  _slot_id <$> l' = _slot_id <$> l ∧ (n ≤ length l')%nat ∧
  Forall (λ x, ready_event x = None) (take n l').
Proof.
  revert l' n. induction l as [|x l IH]; intros l' n; cbn [scrub_tail].
  - intros [= <- <-]. by split_and!.
  - destruct (query_complete complete (ready_event x)).
    + destruct (scrub_tail complete l) as [k m]. intros [= <- <-].
      destruct (IH k m eq_refl) as (H1 & H2 & H3). split_and!; [|simpl; lia|by constructor].
      by rewrite !fmap_cons, H1.
    + intros [= <- <-]. split_and!; [done|lia|constructor].
Qed.

Lemma scrub_events_spec complete s :
  sa_inv s →
  ∃ l n, scrub_events complete s = (Ok (), with_recycled s l n) ∧
    sa_inv (with_recycled s l n) ∧ length l = length (_recycled_slots s) ∧
    (_num_ready_recycled_slots s ≤ n)%nat.
Proof.
  intros Hinv. pose proof Hinv as [Ht Ha Hrd Hev Hm Hw (rs & os & Hr & Ho & Hrs & Hos & Hp)].
  unfold scrub_events, scrub_events_impl. mrun.
  rewrite bool_decide_eq_true_2 by done. cbn [py_assert]. mrun.
  destruct (scrub_tail complete _) as [l n] eqn:E.
  destruct (scrub_tail_ids _ _ _ _ E) as (H1 & H2 & H3). mrun.
  set (q := take (_num_ready_recycled_slots s) (_recycled_slots s) ++ l).
  assert (Hq : _slot_id <$> q = _slot_id <$> _recycled_slots s).
  { unfold q. rewrite fmap_app, H1, <- fmap_app. by rewrite take_drop. }
  assert (Hql : length q = length (_recycled_slots s)).
  { apply (f_equal length) in Hq. by rewrite !length_fmap in Hq. }
  assert (Htl : length (take (_num_ready_recycled_slots s) (_recycled_slots s))
                = _num_ready_recycled_slots s) by (rewrite length_take; lia).
  eexists _, _. split; [done|]. split_and!; [|done|lia]. split; cbn [with_recycled
    _target_capacity _capacity _num_active_slots _num_ready_recycled_slots _recycled_slots
    _occupied_mask _overflow_slots]; try done.
  - rewrite Hql. unfold q in Hql. rewrite length_app, Htl in Hql. lia.
  - unfold q. rewrite take_app_ge by lia. rewrite Htl.
    replace (_num_ready_recycled_slots s + n - _num_ready_recycled_slots s)%nat with n by lia.
    by apply Forall_app.
  - exists rs, os. split_and!; try done. unfold has_ids. by rewrite Hq.
Qed.

(** ** Allocation *)

(** A slot has been taken from a queue or created; it is not yet marked. *)
Record taken (s s' : SlotAllocator) (x : Slot) (i : Z) : Prop := {
  tk_id : _slot_id x = Some i;
  tk_range : 0 ≤ i < _target_capacity s;
  tk_fresh : i ∉ occupied s;
  tk_mask : _occupied_mask s' = _occupied_mask s;
  tk_caps : _capacity s' = _capacity s ∧ _target_capacity s' = _target_capacity s;
  tk_ready : (_num_ready_recycled_slots s' ≤ length (_recycled_slots s'))%nat;
  tk_events : Forall (λ x, ready_event x = None)
    (take (_num_ready_recycled_slots s') (_recycled_slots s'));
  tk_active : 0 ≤ _num_active_slots s' ≤ _capacity s';
  tk_free : num_free_slots s' = num_free_slots s - 1;
  tk_ids : ∃ rs os, has_ids (_recycled_slots s') rs ∧ has_ids (_overflow_slots s') os ∧
    Forall (λ j, j < _target_capacity s') rs ∧
    Forall (λ j, _target_capacity s' ≤ j < _capacity s') os ∧
    rs ++ os ++ i :: elements (occupied s') ≡ₚ seqZ 0 (_num_active_slots s');
}.

Lemma perm_fresh (i : Z) l occ n : l ++ i :: elements occ ≡ₚ seqZ 0 n → 0 ≤ i < n ∧ i ∉ (occ : gset Z).
Proof.
  intros Hp. split.
  - assert (Hin : i ∈ seqZ 0 n) by (rewrite <- Hp; set_solver). apply elem_of_seqZ in Hin. lia.
  - assert (Hnd : NoDup (l ++ i :: elements occ)) by (rewrite Hp; apply NoDup_seqZ).
    apply NoDup_app in Hnd as (_ & _ & Hnd%NoDup_cons). destruct Hnd as [Hni _].
    by rewrite elem_of_elements in Hni.
Qed.

(** Taking the front of the recycled queue. *)
Lemma taken_recycled s x l ready' :
  sa_inv s → _recycled_slots s = x :: l → ready' = (_num_ready_recycled_slots s - 1)%nat →
  ∃ i, taken s (with_recycled s l ready') x i.
Proof.
  intros Hinv Hl ->. pose proof Hinv as [Ht Ha Hrd Hev Hm Hw (rs & os & Hr & Ho & Hrs & Hos & Hp)].
  rewrite Hl in Hr. apply has_ids_cons_inv in Hr as (i & rs' & -> & Hx & Hl').
  apply Forall_cons in Hrs as [Hi Hrs].
  assert (Hp' : (rs' ++ os) ++ i :: elements (occupied s) ≡ₚ seqZ 0 (_num_active_slots s)).
  { rewrite <- Hp. cbn [app]. rewrite <- Permutation_middle, <- (assoc_L (++)). done. }
  pose proof (perm_fresh _ _ _ _ Hp') as [Hir Hni].
  exists i. rewrite Hl in Hrd, Hev. split; cbn [with_recycled _target_capacity _capacity
    _num_active_slots _num_ready_recycled_slots _recycled_slots _occupied_mask _overflow_slots];
    try done.
  - lia.
  - simpl in Hrd. lia.
  - destruct (_num_ready_recycled_slots s) as [|k]; [constructor|]. cbn [take] in Hev.
    apply Forall_cons in Hev as [_ Hev]. by rewrite Nat.sub_succ, Nat.sub_0_r.
  - unfold num_free_slots. cbn. rewrite Hl. cbn [length]. lia.
  - exists rs', os. rewrite <- (assoc_L (++)) in Hp'. done.
Qed.

Lemma popleft_ok s x l :
  _recycled_slots s = x :: l →
  popleft s = (Ok x, with_recycled s l (_num_ready_recycled_slots s)).
Proof. intros Hl. unfold popleft. mrun. by rewrite Hl. Qed.

Lemma take_slot_spec s :
  sa_inv s → num_free_slots s ≠ 0 →
  ∃ x s' i, take_slot s = (Ok x, s') ∧ taken s s' x i.
Proof.
  intros Hinv Hfree. pose proof Hinv as [Ht Ha Hrd Hev _ _ _]. unfold take_slot. mrun.
  destruct (0 <? _num_ready_recycled_slots s)%nat eqn:Hr.
  - apply Nat.ltb_lt in Hr. destruct (_recycled_slots s) as [|x l] eqn:Hl; [simpl in Hrd; lia|].
    destruct (taken_recycled s x l _ Hinv Hl eq_refl) as (i & Htk).
    rewrite bool_decide_eq_false_2 by done. mrun. rewrite (popleft_ok s x l Hl). mrun.
    unfold has_valid_slot. rewrite bool_decide_eq_true_2 by (rewrite (tk_id _ _ _ _ Htk); by eexists).
    mrun. assert (Hx : ready_event x = None).
    { destruct (_num_ready_recycled_slots s); [lia|]. cbn [take] in Hev. by inversion Hev. }
    rewrite (bool_decide_eq_true_2 _ Hx). mrun. eexists _, _, _. split; [done|]. exact Htk.
  - apply Nat.ltb_ge in Hr. destruct (_num_active_slots s <? _) eqn:Hnew.
    + eexists _, _, (_num_active_slots s). split; [done|].
      destruct Hinv as [_ _ _ _ Hm Hw (rs & os & Hrr & Ho & Hrs & Hos & Hp)].
      assert (Hp' : rs ++ os ++ _num_active_slots s :: elements (occupied s) ≡ₚ
        seqZ 0 (_num_active_slots s + 1)).
      { rewrite seqZ_app, Z.add_0_l by lia.
        rewrite (seqZ_cons _ 1), (seqZ_nil _ (Z.pred 1)) by lia. rewrite <- Hp. solve_Permutation. }
      rewrite (assoc_L (++)) in Hp'. pose proof (perm_fresh _ _ _ _ Hp') as [_ Hni].
      rewrite <- (assoc_L (++)) in Hp'.
      split; cbn; try done; try lia.
      * unfold num_free_slots. cbn. lia.
      * by exists rs, os.
    + destruct (_recycled_slots s) as [|x l] eqn:Hl.
      { unfold num_free_slots in Hfree. rewrite Hl in Hfree. simpl in Hfree. lia. }
      destruct (taken_recycled s x l _ Hinv Hl eq_refl) as (i & Htk).
      replace (_num_ready_recycled_slots s - 1)%nat with (_num_ready_recycled_slots s) in Htk by lia.
      rewrite (popleft_ok s x l Hl). mrun. unfold has_valid_slot.
      rewrite bool_decide_eq_true_2 by (rewrite (tk_id _ _ _ _ Htk); by eexists). mrun.
      eexists _, _, _. split; [done|]. exact Htk.
Qed.

(** What a successful allocation does. *)
Record allocated (s s' : SlotAllocator) (x : Slot) (i : Z) : Prop := {
  al_inv : sa_inv s';
  al_id : _slot_id x = Some i;
  al_range : 0 ≤ i < _target_capacity s;
  al_fresh : i ∉ occupied s;
  al_occupied : occupied s' = {[ i ]} ∪ occupied s;
  al_free : num_free_slots s' = num_free_slots s - 1;
  al_caps : _capacity s' = _capacity s ∧ _target_capacity s' = _target_capacity s;
}.

Lemma allocate_spec complete s :
  sa_inv s →
  if num_free_slots s =? 0 then allocate complete s = (Raise OutOfPagesError, s)
  else ∃ x s' i, allocate complete s = (Ok x, s') ∧ allocated s s' x i.
Proof.
  intros Hinv. unfold allocate. mrun. destruct (num_free_slots s =? 0) eqn:Hfree; [done|].
  apply Z.eqb_neq in Hfree.
  destruct (scrub_events_spec complete s Hinv) as (l & n & -> & Hinv1 & Hlen & _). mrun.
  set (s1 := with_recycled s l n) in *.
  assert (Hfree1 : num_free_slots s1 = num_free_slots s).
  { unfold num_free_slots, s1. cbn. by rewrite Hlen. }
  destruct (take_slot_spec s1 Hinv1) as (x & s2 & i & -> & Htk); [lia|]. mrun.
  destruct Htk as [Hid Hrange Hni Hmask [Hc Ht] Hrd Hev Hact Hfree2 (rs & os & Hr & Ho & Hrs & Hos & Hp)].
  rewrite (slot_id_ok x i Hid). mrun. rewrite Hmask.
  destruct (bitset_set_spec (_occupied_mask s1) i) as (m & -> & Hm & Hlm & Hset).
  { apply Hinv1. } { unfold in_words. destruct Hinv1. lia. }
  mrun. eexists _, _, i. split; [done|].
  assert (Hocc : occupied (with_mask s2 m) = {[ i ]} ∪ occupied s1) by done.
  split; cbn [with_mask _target_capacity _capacity _num_active_slots _num_ready_recycled_slots
    _recycled_slots _occupied_mask _overflow_slots]; try done.
  - destruct Hinv1. split; cbn [with_mask _target_capacity _capacity _num_active_slots
      _num_ready_recycled_slots _recycled_slots _occupied_mask _overflow_slots]; try done.
    + rewrite Hc, Ht. done.
    + rewrite Hlm, Hc. done.
    + exists rs, os. split_and!; try done. rewrite Hocc, elements_union_singleton by done.
      rewrite <- Hp. unfold occupied. by rewrite Hmask.
  - unfold num_free_slots in *. cbn. lia.
Qed.

(** [allocate_multiple] is all or nothing. *)
Record allocated_many (s s' : SlotAllocator) (xs : list Slot) (ids : list Z) : Prop := {
  am_inv : sa_inv s';
  am_ids : has_ids xs ids;
  am_range : Forall (λ i, 0 ≤ i < _target_capacity s ∧ i ∉ occupied s) ids;
  am_nodup : NoDup ids;
  am_occupied : occupied s' = list_to_set ids ∪ occupied s;
  am_free : num_free_slots s' = num_free_slots s - Z.of_nat (length ids);
  am_caps : _capacity s' = _capacity s ∧ _target_capacity s' = _target_capacity s;
}.

Lemma allocate_n_spec complete n s :
  sa_inv s → Z.of_nat n ≤ num_free_slots s →
  ∃ xs s' ids, allocate_n complete n s = (Ok xs, s') ∧ allocated_many s s' xs ids ∧
    length ids = n.
Proof.
  revert s. induction n as [|n IH]; intros s Hinv Hn; cbn [allocate_n]; mrun.
  { eexists [], s, []. split; [done|]. split; [|done]. split; try done.
    - by constructor.
    - cbn. set_solver.
    - cbn. lia. }
  pose proof (allocate_spec complete s Hinv) as Hal.
  rewrite (proj2 (Z.eqb_neq (num_free_slots s) 0)) in Hal by lia.
  destruct Hal as (x & s1 & i & -> & [Hinv1 Hid Hrange Hni Hocc Hfree [Hc Ht]]). mrun.
  destruct (IH s1 Hinv1) as (xs & s2 & ids & -> & [Hinv2 Hids Hr Hnd Ho Hf [Hc2 Ht2]] & Hlen); [lia|]. mrun.
  exists (x :: xs), s2, (i :: ids). split; [done|]. split; [|simpl; lia]. split.
  - done.
  - unfold has_ids in *. by rewrite !fmap_cons, Hid, Hids.
  - constructor; [done|]. apply (Forall_impl _ _ _ Hr). intros j [? Hj]. rewrite Ht, Hocc in *.
    split; [lia|set_solver].
  - constructor; [|done]. intros Hin. rewrite Forall_forall in Hr. destruct (Hr i Hin) as [_ Hn'].
    rewrite Hocc in Hn'. set_solver.
  - rewrite Ho, Hocc. cbn. set_solver.
  - cbn [length]. lia.
  - by rewrite Hc2, Ht2.
Qed.

Lemma allocate_multiple_spec complete n s :
  sa_inv s →
  if n <? 0 then allocate_multiple complete n s = (Raise LogicError, s)
  else if num_free_slots s <? n then allocate_multiple complete n s = (Raise OutOfPagesError, s)
  else ∃ xs s' ids, allocate_multiple complete n s = (Ok xs, s') ∧
         allocated_many s s' xs ids ∧ Z.of_nat (length ids) = n.
Proof.
  intros Hinv. unfold allocate_multiple. destruct (n <? 0) eqn:Hn; [done|]. mrun.
  destruct (num_free_slots s <? n) eqn:Hf; [done|].
  destruct (allocate_n_spec complete (Z.to_nat n) s Hinv) as (xs & s' & ids & -> & ? & ?); [lia|].
  eexists _, _, _. split; [done|]. split; [done|lia].
Qed.

(** ** Release *)

Lemma occupied_range s i : sa_inv s → i ∈ occupied s → 0 ≤ i < _num_active_slots s.
Proof.
  intros [_ _ _ _ _ _ (rs & os & _ & _ & _ & _ & Hp)] Hi.
  assert (Hin : i ∈ seqZ 0 (_num_active_slots s)).
  { rewrite <- Hp, !elem_of_app. right; right. by apply elem_of_elements. }
  apply elem_of_seqZ in Hin. lia.
Qed.

Lemma elements_remove (X : gset Z) i : i ∈ X → elements X ≡ₚ i :: elements (X ∖ {[ i ]}).
Proof.
  intros Hi. rewrite <- elements_union_singleton by set_solver.
  f_equiv. intros j. destruct (decide (j = i)); set_solver.
Qed.

(** The state after the slot is queued, before its mask bit is cleared. *)
Definition queued (s : SlotAllocator) (x : Slot) (i : Z) : SlotAllocator :=
  if i <? _target_capacity s
  then with_recycled s (_recycled_slots s ++ [x]) (_num_ready_recycled_slots s)
  else mkAlloc (_capacity s) (_num_active_slots s) (_recycled_slots s)
         (_num_ready_recycled_slots s) (_occupied_mask s) (_target_capacity s)
         (_overflow_slots s ++ [x]).

Lemma queued_inv s x i m :
  sa_inv s → _slot_id x = Some i → i ∈ occupied s → bitset_wf m →
  length (bits m) = length (bits (_occupied_mask s)) → index_set m = occupied s ∖ {[ i ]} →
  sa_inv (with_mask (queued s x i) m).
Proof.
  intros Hinv Hx Hi Hm Hlen Hset. pose proof (occupied_range s i Hinv Hi) as Hir.
  pose proof Hinv as [Ht Ha Hrd Hev _ Hw (rs & os & Hr & Ho & Hrs & Hos & Hp)].
  assert (Hocc : occupied (with_mask (queued s x i) m) = occupied s ∖ {[ i ]}) by done.
  pose proof (elements_remove (occupied s) i Hi) as Hel. rewrite Hel in Hp.
  assert (Hx1 : has_ids [x] [i]) by (unfold has_ids; by rewrite fmap_cons, Hx).
  unfold queued in *. destruct (i <? _target_capacity s) eqn:E; split; cbn [with_mask with_recycled
    _target_capacity _capacity _num_active_slots _num_ready_recycled_slots _recycled_slots
    _occupied_mask _overflow_slots]; try done; rewrite ?Hlen; try done; try lia.
  - rewrite length_app. lia.
  - by rewrite take_app_le by lia.
  - exists (rs ++ [i]), os. split_and!; try done; [by apply has_ids_app| |].
    + apply Forall_app. split; [done|]. repeat constructor. lia.
    + rewrite Hocc, <- Hp. solve_Permutation.
  - exists rs, (os ++ [i]). split_and!; try done; [by apply has_ids_app| |].
    + apply Forall_app. split; [done|]. repeat constructor; lia.
    + rewrite Hocc, <- Hp. solve_Permutation.
Qed.

Record released (s s' : SlotAllocator) (i : Z) : Prop := {
  re_inv : sa_inv s';
  re_occupied : occupied s' = occupied s ∖ {[ i ]};
  re_caps : _capacity s' = _capacity s ∧ _target_capacity s' = _target_capacity s;
  re_free : num_free_slots s' =
    num_free_slots s + (if i <? _target_capacity s then 1 else 0);
}.

Lemma release_spec complete s x i :
  sa_inv s → _slot_id x = Some i → 0 ≤ i →
  if bool_decide (i ∈ occupied s)
  then ∃ s', release complete x s = (Ok (mkSlot None None), s') ∧ released s s' i
  else release complete x s = (Raise LogicError, s).
Proof.
  intros Hinv Hx Hi. unfold release. mrun. unfold has_valid_slot.
  rewrite (bool_decide_eq_true_2 (is_Some (_slot_id x))) by (rewrite Hx; by eexists). mrun.
  assert (move_to_new_slot x = Ok (mkSlot (Some i) (ready_event x), mkSlot None None)) as ->.
  { unfold move_to_new_slot, set_slot, has_valid_slot. cbn [_slot_id].
    rewrite bool_decide_eq_false_2 by (by intros [? ?]). by rewrite (slot_id_ok x i Hx). }
  mrun. set (y := mkSlot (Some i) (ready_event x)). rewrite (slot_id_ok y i eq_refl). mrun.
  assert (Hocc : (if _capacity s <=? i then Ok false else bitset_get (_occupied_mask s) i) =
    Ok (bool_decide (i ∈ occupied s))).
  { destruct (_capacity s <=? i) eqn:E.
    - rewrite bool_decide_eq_false_2; [done|]. intros Hin.
      pose proof (occupied_range s i Hinv Hin). destruct Hinv. lia.
    - apply bitset_get_spec. unfold in_words. destruct Hinv. lia. }
  rewrite Hocc. mrun. case_bool_decide as Hin; cbn [negb]; mrun; [|done].
  fold (queued s y i). mrun.
  assert (Hqm : _occupied_mask (queued s y i) = _occupied_mask s) by (unfold queued; by destruct (i <? _)).
  rewrite Hqm. destruct (bitset_clear_spec (_occupied_mask s) i) as (m & -> & Hm & Hlm & Hset).
  { apply Hinv. } 
  { unfold in_words. pose proof (occupied_range s i Hinv Hin). destruct Hinv. lia. }
  mrun. assert (Hinv1 : sa_inv (with_mask (queued s y i) m)) by by apply queued_inv.
  destruct (scrub_events_spec complete _ Hinv1) as (l & n & -> & Hinv2 & Hlen & _). mrun.
  rewrite assert_check_ok by done. mrun. eexists; split; [done|]. split; [done|..].
  - done.
  - unfold queued. by destruct (i <? _).
  - unfold num_free_slots. cbn. rewrite Hlen. unfold queued.
    destruct (i <? _target_capacity s); cbn; rewrite ?length_app; simpl; lia.
Qed.

(** ** Resizing *)

Lemma expand_spec n s :
  sa_inv s → _target_capacity s = _capacity s → _capacity s < n →
  ∃ s', expand n s = (Ok (), s') ∧ sa_inv s' ∧ occupied s' = occupied s ∧
    _capacity s' = n ∧ _target_capacity s' = n ∧
    _num_active_slots s' = _num_active_slots s.
Proof.
  intros Hinv Heq Hn. unfold expand. mrun. rewrite assert_check_ok by done. mrun.
  rewrite (proj2 (Z.eqb_eq _ _) Heq), (proj2 (Z.ltb_lt _ _) Hn). mrun.
  pose proof Hinv as [Ht Ha Hrd Hev Hm Hw (rs & os & Hr & Ho & Hrs & Hos & Hp)].
  destruct (bitset_resize_spec (_occupied_mask s) n Hm ltac:(lia)) as (m & -> & Hm' & Hl & Hset). mrun.
  assert (Hocc : index_set m = occupied s).
  { rewrite Hset. apply set_eq. intros i. rewrite elem_of_filter. split; [naive_solver|].
    intros Hi. split; [|done]. pose proof (occupied_range s i Hinv Hi). lia. }
  set (s' := mkAlloc _ _ _ _ _ _ _).
  assert (Hinv' : sa_inv s').
  { split; unfold s'; cbn [_target_capacity _capacity _num_active_slots _num_ready_recycled_slots
      _recycled_slots _occupied_mask _overflow_slots]; try done; try lia.
    - rewrite Hl. pose proof (div_up_bounds n 64 ltac:(lia)). lia.
    - exists rs, os. split_and!; try done.
      + apply (Forall_impl _ _ _ Hrs). lia.
      + destruct os as [|i os]; [constructor|]. apply Forall_cons in Hos as [? _]. lia.
      + unfold occupied. cbn [_occupied_mask]. by rewrite Hocc. }
  rewrite assert_check_ok by done. by exists s'.
Qed.

Lemma split_recycled_spec n ready slots rs :
  has_ids slots rs → (ready ≤ length slots)%nat →
  Forall (λ x, ready_event x = None) (take ready slots) →
  ∃ kept m over, split_recycled n ready slots = Ok (kept, m, over) ∧
    has_ids kept (filter (λ i, i < n) rs) ∧ has_ids over (filter (λ i, ¬ i < n) rs) ∧
    (m ≤ length kept)%nat ∧ (m ≤ ready)%nat ∧
    Forall (λ x, ready_event x = None) (take m kept).
Proof.
  revert ready rs. induction slots as [|x slots IH]; intros ready rs Hids Hrd Hev.
  { unfold has_ids in Hids. destruct rs; [|done]. exists [], 0%nat, [].
    split_and!; [done|done|done|simpl; lia|lia|constructor]. }
  apply has_ids_cons_inv in Hids as (i & rs' & -> & Hx & Hids). cbn [split_recycled].
  rewrite (slot_id_ok x i Hx). cbn [mbind result_bind].
  assert (Hev' : Forall (λ x, ready_event x = None) (take (ready - 1) slots)).
  { destruct ready as [|k]; [constructor|]. rewrite Nat.sub_succ, Nat.sub_0_r.
    cbn [take] in Hev. by apply Forall_cons in Hev as [_ ?]. }
  destruct (IH (ready - 1)%nat rs' Hids) as (kept & m & over & -> & Hk & Ho & Hm & Hmr & Hme);
    [simpl in Hrd; lia|done|]. cbn [mbind result_bind].
  rewrite !filter_cons. destruct (i <? n) eqn:E.
  - rewrite decide_True by lia. rewrite decide_False by lia. eexists _, _, _. split; [done|].
    split_and!; [|done|destruct (0 <? ready)%nat; simpl; lia
                |destruct (0 <? ready)%nat eqn:Er; [apply Nat.ltb_lt in Er|]; lia|].
    + unfold has_ids in *. by rewrite !fmap_cons, Hk, Hx.
    + destruct (0 <? ready)%nat eqn:Er.
      * destruct ready; [done|]. cbn [take] in Hev |- *. constructor; [by inversion Hev|done].
      * destruct ready; [|done]. destruct m; [constructor|lia].
  - rewrite decide_False by lia. rewrite decide_True by lia. eexists _, _, _. split; [done|].
    split_and!; try done; [|lia]. unfold has_ids in *. by rewrite !fmap_cons, Ho, Hx.
Qed.

Lemma filter_ids_perm (P : Z → Prop) `{∀ i, Decision (P i)} l :
  filter P l ++ filter (λ i, ¬ P i) l ≡ₚ l.
Proof.
  induction l as [|i l IH]; [done|]. rewrite !filter_cons. destruct (decide (P i)).
  - rewrite decide_False by naive_solver. simpl. by rewrite IH.
  - rewrite decide_True by done. by rewrite <- Permutation_middle, IH.
Qed.

Lemma prepare_for_shrink_spec n s :
  sa_inv s → _target_capacity s = _capacity s → 0 ≤ n < _capacity s →
  ∃ s', prepare_for_shrink n s = (Ok (), s') ∧ sa_inv s' ∧ occupied s' = occupied s ∧
    _capacity s' = _capacity s ∧ _target_capacity s' = n ∧
    _num_active_slots s' = _num_active_slots s.
Proof.
  intros Hinv Heq Hn. unfold prepare_for_shrink. mrun. rewrite assert_check_ok by done. mrun.
  rewrite (proj2 (Z.eqb_eq _ _) Heq), (proj2 (Z.ltb_lt n (_capacity s))) by lia. mrun.
  pose proof Hinv as [Ht Ha Hrd Hev Hm Hw (rs & os & Hr & Ho & Hrs & Hos & Hp)].
  destruct (split_recycled_spec n _ _ rs Hr Hrd Hev) as (kept & k & over & -> & Hk & Hov & Hkl & _ & Hke).
  mrun. set (s' := mkAlloc _ _ _ _ _ _ _).
  assert (Hnil : os = []).
  { destruct os as [|i os]; [done|]. apply Forall_cons in Hos as [? _]. lia. }
  subst os.
  assert (Hinv' : sa_inv s').
  { split; unfold s'; cbn [_target_capacity _capacity _num_active_slots _num_ready_recycled_slots
      _recycled_slots _occupied_mask _overflow_slots]; try done; try lia.
    exists (filter (λ i, i < n) rs), (filter (λ i, ¬ i < n) rs). split_and!; try done.
    - apply (has_ids_app _ _ [] _ Ho Hov).
    - apply Forall_forall. by intros i [? _]%list_elem_of_filter.
    - apply Forall_forall. intros i [? Hi]%list_elem_of_filter.
      rewrite Forall_forall in Hrs. specialize (Hrs i Hi). lia.
    - rewrite (assoc_L (++)), filter_ids_perm. exact Hp. }
  rewrite assert_check_ok by done. by exists s'.
Qed.

Lemma filter_seqZ_lt n k : 0 ≤ k → filter (λ i, i < k) (seqZ 0 n) = seqZ 0 (Z.min n k).
Proof.
  intros Hk. destruct (Z.le_gt_cases n k) as [Hle|Hgt].
  - rewrite Z.min_l by done. apply list_filter_all. apply Forall_forall.
    intros i Hi%elem_of_seqZ. lia.
  - rewrite Z.min_r by lia. replace n with (k + (n - k)) by lia.
    rewrite seqZ_app, filter_app by lia.
    rewrite (list_filter_all _ (seqZ 0 k)) by (apply Forall_forall; intros i Hi%elem_of_seqZ; lia).
    rewrite (list_filter_none _ (seqZ _ _)), app_nil_r; [done|].
    apply Forall_forall. intros i Hi%elem_of_seqZ. lia.
Qed.

Lemma remove_dups_nodup (l : list Z) : NoDup l → remove_dups l = l.
Proof.
  induction 1 as [|i l Hi _ IH]; [done|]. cbn [remove_dups].
  destruct (decide_rel _ i l); [done|by rewrite IH].
Qed.

(** The overflow list is complete exactly when no occupied slot is above the
    target. *)
Lemma overflow_complete s rs os :
  sa_inv s → has_ids (_overflow_slots s) os → Forall (λ i, i < _target_capacity s) rs →
  Forall (λ i, _target_capacity s ≤ i < _capacity s) os →
  rs ++ os ++ elements (occupied s) ≡ₚ seqZ 0 (_num_active_slots s) →
  Z.of_nat (length (_overflow_slots s)) = Z.max 0 (_num_active_slots s - _target_capacity s) ↔
  ∀ i, i ∈ occupied s → i < _target_capacity s.
Proof.
  intros Hinv Ho Hrs Hos Hp. destruct Hinv as [Ht Ha _ _ _ _ _].
  set (t := _target_capacity s) in *.
  assert (Hlow : filter (λ i, i < t) (rs ++ os ++ elements (occupied s)) ≡ₚ
                 seqZ 0 (Z.min (_num_active_slots s) t)).
  { rewrite Hp. by rewrite filter_seqZ_lt by lia. }
  rewrite !filter_app, (list_filter_all _ rs) in Hlow by done.
  rewrite (list_filter_none _ os) in Hlow by (apply (Forall_impl _ _ _ Hos); lia).
  cbn [app] in Hlow.
  apply Permutation_length in Hp. apply Permutation_length in Hlow.
  rewrite !length_app, length_seqZ in *. pose proof (has_ids_length _ _ Ho).
  pose proof (Permutation_length (filter_ids_perm (λ i, i < t) (elements (occupied s)))) as Hsplit.
  rewrite length_app in Hsplit. split.
  - intros Heq i Hi. destruct (decide (i < t)) as [|Hge]; [done|].
    assert (Hin : i ∈ filter (λ i, ¬ i < t) (elements (occupied s))).
    { apply list_elem_of_filter. by rewrite elem_of_elements. }
    destruct (filter (λ i, ¬ i < t) (elements (occupied s))); [by apply not_elem_of_nil in Hin|].
    simpl in Hsplit. lia.
  - intros Hall. rewrite (list_filter_none (λ i, ¬ i < t)) in Hsplit.
    + simpl in Hsplit. lia.
    + apply Forall_forall. intros i Hi%elem_of_elements. specialize (Hall i Hi). lia.
Qed.

Lemma finish_shrink_spec complete s :
  sa_inv s →
  if bool_decide (_target_capacity s < _capacity s ∧
                  set_Forall (λ i, i < _target_capacity s) (occupied s))
  then ∃ s', finish_shrink complete s = (Ok true, s') ∧ sa_inv s' ∧ occupied s' = occupied s ∧
         _capacity s' = _target_capacity s ∧ _target_capacity s' = _target_capacity s ∧
         _overflow_slots s' = []
  else finish_shrink complete s = (Raise RuntimeError, s).
Proof.
  intros Hinv. pose proof Hinv as [Ht Ha Hrd Hev Hm Hw (rs & os & Hr & Ho & Hrs & Hos & Hp)].
  pose proof (overflow_complete s rs os Hinv Ho Hrs Hos Hp) as Hcomp.
  unfold finish_shrink, shrink_in_progress. mrun. rewrite assert_check_ok by done. mrun.
  rewrite (proj2 (Z.leb_le (_target_capacity s) _)) by lia. mrun.
  assert (Hcond : (_target_capacity s <? _capacity s) &&
    (Z.of_nat (length (_overflow_slots s)) =? Z.max 0 (_num_active_slots s - _target_capacity s)) =
    bool_decide (_target_capacity s < _capacity s ∧
                 set_Forall (λ i, i < _target_capacity s) (occupied s))).
  { apply eq_true_iff_eq. rewrite bool_decide_eq_true, andb_true_iff, Z.ltb_lt, Z.eqb_eq, Hcomp.
    done. }
  rewrite Hcond. case_bool_decide as Hdone; mrun; [|done]. destruct Hdone as [Hlt Hall].
  rewrite (slot_ids_ok _ _ Ho). mrun.
  assert (Hnd : NoDup os).
  { assert (Hnd : NoDup (rs ++ os ++ elements (occupied s))) by (rewrite Hp; apply NoDup_seqZ).
    by apply NoDup_app in Hnd as (_ & _ & (? & _ & _)%NoDup_app). }
  rewrite remove_dups_nodup by done.
  rewrite (bool_decide_eq_true_2 (length os = _)) by (symmetry; by apply has_ids_length). mrun.
  set (s1 := mkAlloc _ _ _ _ _ _ _).
  assert (Hinv1 : sa_inv s1).
  { split; unfold s1; cbn [_target_capacity _capacity _num_active_slots _num_ready_recycled_slots
      _recycled_slots _occupied_mask _overflow_slots]; try done; try lia.
    exists rs, []. split_and!; try done. cbn [app]. rewrite <- filter_seqZ_lt, <- Hp by lia.
    rewrite !filter_app, (list_filter_all _ rs) by done.
    rewrite (list_filter_none _ os) by (apply (Forall_impl _ _ _ Hos); lia).
    rewrite (list_filter_all _ (elements (occupied s))); [done|].
    apply Forall_forall. intros i Hi%elem_of_elements. by apply Hall. }
  destruct (scrub_events_spec complete s1 Hinv1) as (l & n & -> & Hinv2 & _ & _). mrun.
  rewrite assert_check_ok by done. mrun. by eexists.
Qed.

(** ** The abstract allocator

    What a client may rely on: a capacity, a target capacity and the set of
    ids in use.  Which free id an allocation returns is not specified. *)

Record pool_abs := mkAbs { pa_capacity : Z; pa_target : Z; pa_occupied : gset Z }.

Definition abs (s : SlotAllocator) : pool_abs :=
  mkAbs (_capacity s) (_target_capacity s) (occupied s).

(** The ids an allocation may return. *)
Definition free_ids (a : pool_abs) : list Z :=
  filter (λ i, i ∉ pa_occupied a) (seqZ 0 (pa_target a)).

Inductive op :=
| Allocate (complete : nat → bool)
| AllocateMultiple (complete : nat → bool) (n : Z)
| Release (complete : nat → bool) (i : Z) (ev : event)
| Expand (n : Z)
| PrepareForShrink (n : Z)
| FinishShrink (complete : nat → bool).

(** Slot counts and the ids of slots given back are natural numbers. *)
Definition op_ok (o : op) : Prop :=
  match o with
  | Release _ i _ => 0 ≤ i
  | PrepareForShrink n => 0 ≤ n
  | _ => True
  end.

Definition step (o : op) : M SlotAllocator (list Z) :=
  match o with
  | Allocate c => x ← allocate c; i ← lift (slot_id x); mret [i]
  | AllocateMultiple c n => xs ← allocate_multiple c n; lift (slot_ids xs)
  | Release c i ev => _ ← release c (mkSlot (Some i) ev); mret []
  | Expand n => _ ← expand n; mret []
  | PrepareForShrink n => _ ← prepare_for_shrink n; mret []
  | FinishShrink c => _ ← finish_shrink c; mret []
  end.

(** One operation of the abstract allocator: its result and the new state. *)
Inductive spec_step (a : pool_abs) : op → result (list Z) → pool_abs → Prop :=
| spec_allocate c i : i ∈ free_ids a →
    spec_step a (Allocate c) (Ok [i]) (mkAbs (pa_capacity a) (pa_target a) ({[i]} ∪ pa_occupied a))
| spec_allocate_full c : free_ids a = [] →
    spec_step a (Allocate c) (Raise OutOfPagesError) a
| spec_multiple c n ids : Z.of_nat (length ids) = n → NoDup ids → ids ⊆ free_ids a →
    spec_step a (AllocateMultiple c n) (Ok ids)
      (mkAbs (pa_capacity a) (pa_target a) (list_to_set ids ∪ pa_occupied a))
| spec_multiple_negative c n : n < 0 →
    spec_step a (AllocateMultiple c n) (Raise LogicError) a
| spec_multiple_full c n : Z.of_nat (length (free_ids a)) < n →
    spec_step a (AllocateMultiple c n) (Raise OutOfPagesError) a
| spec_release c i ev : i ∈ pa_occupied a →
    spec_step a (Release c i ev) (Ok [])
      (mkAbs (pa_capacity a) (pa_target a) (pa_occupied a ∖ {[i]}))
| spec_release_free c i ev : i ∉ pa_occupied a →
    spec_step a (Release c i ev) (Raise LogicError) a
| spec_expand n : pa_target a = pa_capacity a → pa_capacity a < n →
    spec_step a (Expand n) (Ok []) (mkAbs n n (pa_occupied a))
| spec_expand_refused n : ¬ (pa_target a = pa_capacity a ∧ pa_capacity a < n) →
    spec_step a (Expand n) (Raise AssertionError) a
| spec_prepare n : pa_target a = pa_capacity a → n < pa_capacity a →
    spec_step a (PrepareForShrink n) (Ok []) (mkAbs (pa_capacity a) n (pa_occupied a))
| spec_prepare_refused n : ¬ (pa_target a = pa_capacity a ∧ n < pa_capacity a) →
    spec_step a (PrepareForShrink n) (Raise AssertionError) a
| spec_finish c : pa_target a < pa_capacity a → set_Forall (λ i, i < pa_target a) (pa_occupied a) →
    spec_step a (FinishShrink c) (Ok []) (mkAbs (pa_target a) (pa_target a) (pa_occupied a))
| spec_finish_refused c :
    ¬ (pa_target a < pa_capacity a ∧ set_Forall (λ i, i < pa_target a) (pa_occupied a)) →
    spec_step a (FinishShrink c) (Raise RuntimeError) a.

(** The count the code keeps is the number of free ids. *)
Lemma num_free_slots_spec s :
  sa_inv s → num_free_slots s = Z.of_nat (length (free_ids (abs s))).
Proof.
  intros Hinv. pose proof Hinv as [Ht Ha _ _ _ _ (rs & os & Hr & _ & Hrs & Hos & Hp)].
  set (t := _target_capacity s) in *. unfold num_free_slots, free_ids. fold t. cbn [pa_target abs].
  fold t. pose proof (Permutation_length (filter_ids_perm (λ i, i ∉ occupied s) (seqZ 0 t))) as Hf.
  assert (Hin : filter (λ i, ¬ (i ∉ occupied s)) (seqZ 0 t) ≡ₚ
                filter (λ i, i < t) (elements (occupied s))).
  { apply NoDup_Permutation; [apply NoDup_filter, NoDup_seqZ|apply NoDup_filter, NoDup_elements|].
    intros i. rewrite !list_elem_of_filter, elem_of_seqZ, elem_of_elements. split.
    - intros [Hi ?]. split; [lia|]. by apply dec_stable.
    - intros [? Hi]. pose proof (occupied_range s i Hinv Hi). split; [by intros ?|lia]. }
  apply Permutation_length in Hin.
  assert (Hlow : filter (λ i, i < t) (rs ++ os ++ elements (occupied s)) ≡ₚ
                 seqZ 0 (Z.min (_num_active_slots s) t)).
  { rewrite Hp. by rewrite filter_seqZ_lt by lia. }
  rewrite !filter_app, (list_filter_all _ rs) in Hlow by done.
  rewrite (list_filter_none _ os) in Hlow by (apply (Forall_impl _ _ _ Hos); lia).
  apply Permutation_length in Hlow. rewrite !length_app, !length_seqZ in *. simpl in Hlow.
  rewrite (has_ids_length _ _ Hr). unfold abs in *. cbn [pa_occupied]. lia.
Qed.

Lemma free_ids_elem s i : i ∈ free_ids (abs s) ↔ 0 ≤ i < _target_capacity s ∧ i ∉ occupied s.
Proof.
  unfold free_ids. rewrite list_elem_of_filter, elem_of_seqZ. cbn [pa_occupied pa_target abs].
  naive_solver lia.
Qed.

Lemma resize_refused_asserts n s :
  sa_inv s →
  (¬ (_target_capacity s = _capacity s ∧ _capacity s < n) → expand n s = (Raise AssertionError, s)) ∧
  (¬ (_target_capacity s = _capacity s ∧ n < _capacity s) →
   prepare_for_shrink n s = (Raise AssertionError, s)).
Proof.
  intros Hinv. unfold expand, prepare_for_shrink. mrun. rewrite assert_check_ok by done. mrun.
  split; intros Hn; destruct (_target_capacity s =? _capacity s) eqn:E1; try done.
  - destruct (_capacity s <? n) eqn:E2; [lia|done].
  - destruct (n <? _capacity s) eqn:E2; [lia|done].
Qed.

Lemma step_refines o s :
  sa_inv s → op_ok o →
  sa_inv (step o s).2 ∧ spec_step (abs s) o (step o s).1 (abs (step o s).2).
Proof.
  intros Hinv Hok. pose proof (num_free_slots_spec s Hinv) as Hfree.
  destruct o as [c|c n|c i ev|n|n|c]; cbn [step].
  - pose proof (allocate_spec c s Hinv) as H. destruct (num_free_slots s =? 0) eqn:E.
    + rewrite (bind_raise _ _ _ _ _ H). cbn [fst snd]. split; [done|]. constructor. apply length_zero_iff_nil. lia.
    + destruct H as (x & s' & i & Hx & [Hi Hid Hr Hn Ho _ [Hc Ht]]).
      rewrite (bind_ok _ _ _ _ _ Hx), (slot_id_ok x i Hid). mrun. split; [done|].
      cbn [fst snd]. unfold abs at 2. rewrite Hc, Ht, Ho. constructor. by apply free_ids_elem.
  - pose proof (allocate_multiple_spec c n s Hinv) as H. destruct (n <? 0) eqn:E.
    { rewrite (bind_raise _ _ _ _ _ H). cbn [fst snd]. split; [done|]. constructor. lia. }
    destruct (num_free_slots s <? n) eqn:E2.
    { rewrite (bind_raise _ _ _ _ _ H). cbn [fst snd]. split; [done|]. constructor. lia. }
    destruct H as (xs & s' & ids & Hx & [Hi Hids Hr Hnd Ho _ [Hc Ht]] & Hlen).
    rewrite (bind_ok _ _ _ _ _ Hx), (slot_ids_ok xs ids Hids). mrun. split; [done|].
    cbn [fst snd]. unfold abs at 2. rewrite Hc, Ht, Ho. constructor; [done..|].
    rewrite Forall_forall in Hr. intros i Hin. by apply free_ids_elem, Hr.
  - pose proof (release_spec c s (mkSlot (Some i) ev) i Hinv eq_refl Hok) as H.
    case_bool_decide as Hin.
    + destruct H as (s' & Hx & [Hi Ho [Hc Ht] _]). rewrite (bind_ok _ _ _ _ _ Hx). mrun.
      split; [done|]. cbn [fst snd]. unfold abs at 2. rewrite Hc, Ht, Ho. by constructor.
    + rewrite (bind_raise _ _ _ _ _ H). cbn [fst snd]. split; [done|]. by constructor.
  - destruct (decide (_target_capacity s = _capacity s ∧ _capacity s < n)) as [[He Hn]|Hn].
    + destruct (expand_spec n s Hinv He Hn) as (s' & Hx & Hi & Ho & Hc & Ht & _).
      rewrite (bind_ok _ _ _ _ _ Hx). mrun. split; [done|]. cbn [fst snd]. unfold abs at 2.
      rewrite Hc, Ht, Ho. by constructor.
    + rewrite (bind_raise _ _ _ _ _ (proj1 (resize_refused_asserts n s Hinv) Hn)).
      cbn [fst snd]. split; [done|]. by constructor.
  - destruct (decide (_target_capacity s = _capacity s ∧ n < _capacity s)) as [[He Hn]|Hn].
    + destruct (prepare_for_shrink_spec n s Hinv He (conj Hok Hn)) as (s' & Hx & Hi & Ho & Hc & Ht & _).
      rewrite (bind_ok _ _ _ _ _ Hx). mrun. split; [done|]. cbn [fst snd]. unfold abs at 2.
      rewrite Hc, Ht, Ho. by constructor.
    + rewrite (bind_raise _ _ _ _ _ (proj2 (resize_refused_asserts n s Hinv) Hn)).
      cbn [fst snd]. split; [done|]. by constructor.
  - pose proof (finish_shrink_spec c s Hinv) as H. case_bool_decide as Hd.
    + destruct H as (s' & Hx & Hi & Ho & Hc & Ht & _). destruct Hd.
      rewrite (bind_ok _ _ _ _ _ Hx). mrun. split; [done|]. cbn [fst snd]. unfold abs at 2.
      rewrite Hc, Ht, Ho. by constructor.
    + rewrite (bind_raise _ _ _ _ _ H). cbn [fst snd]. split; [done|]. by constructor.
Qed.

(** A sequence of calls; a raised exception is caught by the caller and the
    next call is made. *)
Fixpoint run_ops (os : list op) (s : SlotAllocator) : list (result (list Z)) * SlotAllocator :=
  match os with
  | [] => ([], s)
  | o :: os => let '(r, s') := step o s in let '(rs, s'') := run_ops os s' in (r :: rs, s'')
  end.

Inductive spec_run (a : pool_abs) : list op → list (result (list Z)) → pool_abs → Prop :=
| spec_run_nil : spec_run a [] [] a
| spec_run_cons o os r rs a' a'' :
    spec_step a o r a' → spec_run a' os rs a'' → spec_run a (o :: os) (r :: rs) a''.

Lemma run_refines os s :
  sa_inv s → Forall op_ok os →
  let '(rs, s') := run_ops os s in sa_inv s' ∧ spec_run (abs s) os rs (abs s').
Proof.
  intros Hinv Hos. revert s Hinv.
  induction Hos as [|o os Ho _ IH]; intros s Hinv; cbn [run_ops]; [split; [done|constructor]|].
  destruct (step_refines o s Hinv Ho) as [Hi Hs]. destruct (step o s) as [r s'].
  specialize (IH s' Hi). destruct (run_ops os s') as [rs s'']. destruct IH as [? ?].
  split; [done|]. by econstructor.
Qed.

(** C6: any sequence of allocator operations on a new [SlotAllocator], with
    CUDA events completing whenever the device decides, gives results the
    abstract allocator allows: an allocation returns an id that is below the
    target capacity and not in use, and raises [OutOfPagesError] exactly when
    there is none; a batch allocation is all or nothing; a release gives back
    an id in use and raises on any other; the pool is resized only between
    shrinks, and a shrink finishes exactly when no slot above the target is
    in use.  No debug assertion fails, and the bookkeeping invariant holds at
    the end. *)
Theorem slot_allocator_refines_id_set capacity os :
  0 ≤ capacity → Forall op_ok os →
  let '(rs, s) := run_ops os (allocator_init capacity) in
  sa_inv s ∧ spec_run (mkAbs capacity capacity ∅) os rs (abs s).
Proof.
  intros Hc Hos. pose proof (init_inv capacity Hc) as Hinv.
  assert (mkAbs capacity capacity ∅ = abs (allocator_init capacity)) as ->.
  { unfold abs, occupied, allocator_init. cbn [_capacity _target_capacity _occupied_mask].
    by rewrite (proj1 (proj2 (bitset_init_spec capacity Hc))). }
  by apply run_refines.
Qed.

(** Three slots are taken, one of them above a later target, which blocks
    the shrink until it is given back. *)
Definition demo_ops : list op :=
  let c (_ : nat) := true in
  [AllocateMultiple c 3; Allocate c; PrepareForShrink 2; Allocate c; FinishShrink c;
   Release c 2 (Some 7%nat); Release c 2 None; FinishShrink c; Release c 0 None; Allocate c].

Lemma slot_allocator_witness :
  (run_ops demo_ops (allocator_init 3)).1 =
    [Ok [0; 1; 2]; Raise OutOfPagesError; Ok []; Raise OutOfPagesError; Raise RuntimeError;
     Ok []; Raise LogicError; Ok []; Ok []; Ok [0]] ∧
  (let '(rs, s) := run_ops demo_ops (allocator_init 3) in
   sa_inv s ∧ spec_run (mkAbs 3 3 ∅) demo_ops rs (abs s)).
Proof.
  split; [vm_compute; reflexivity|]. apply (slot_allocator_refines_id_set 3 demo_ops); [lia|].
  unfold demo_ops. repeat constructor; cbn; lia.
Defined.

Lemma seqZ_sorted a n : StronglySorted Z.lt (seqZ a n).
Proof.
  unfold seqZ. revert a. induction (Z.to_nat n) as [|k IH]; intros a; [constructor|].
  cbn [seq fmap list_fmap]. rewrite <- fmap_S_seq, <- list_fmap_compose. constructor.
  - rewrite (list_fmap_ext _ (λ i : nat, Z.of_nat i + (a + 1)) (seq 0 k)); [apply IH|].
    intros. cbn. lia.
  - apply Forall_fmap, Forall_forall. intros i _. cbn. lia.
Qed.

Lemma StronglySorted_filter {A} (R : A → A → Prop) (P : A → Prop) `{∀ x, Decision (P x)} l :
  StronglySorted R l → StronglySorted R (filter P l).
Proof.
  induction 1 as [|x l _ IH Hx]; [constructor|]. rewrite filter_cons. case_decide; [|done].
  constructor; [done|]. apply (Forall_sublist_sub _ _ l); [apply sublist_filter|done].
Qed.

Lemma bitset_scan s l :
  sa_inv s → Forall (λ i, 0 ≤ i < _capacity s) l →
  ids_set_in (_occupied_mask s) l = Ok (filter (λ i, i ∈ occupied s) l).
Proof.
  intros Hinv. induction 1 as [|i l Hi _ IH]; [done|]. cbn [ids_set_in].
  rewrite bitset_get_spec by (unfold in_words; destruct Hinv; lia). mrun. rewrite IH.
  rewrite filter_cons. unfold occupied in *. case_bool_decide; by case_decide.
Qed.

(** [get_slots_blocking_shrink] lists, in increasing order, the ids at
    or above the target capacity that are in use, and a shrink in progress
    can be finished exactly when that list is empty. *)
Theorem shrink_blocked_by_listed_slots complete s :
  sa_inv s → _target_capacity s < _capacity s →
  ∃ ids, get_slots_blocking_shrink s = Ok ids ∧ StronglySorted Z.lt ids ∧
    (∀ i, i ∈ ids ↔ i ∈ occupied s ∧ _target_capacity s ≤ i) ∧
    (ids = [] ↔ (finish_shrink complete s).1 = Ok true).
Proof.
  intros Hinv Hlt. set (l := seqZ (_target_capacity s) (_capacity s - _target_capacity s)).
  assert (Hmem : ∀ i, i ∈ filter (λ i, i ∈ occupied s) l ↔ i ∈ occupied s ∧ _target_capacity s ≤ i).
  { intros i. unfold l. rewrite list_elem_of_filter, elem_of_seqZ. split; [naive_solver lia|].
    intros [Hi ?]. pose proof (occupied_range s i Hinv Hi). destruct Hinv. split; [done|lia]. }
  exists (filter (λ i, i ∈ occupied s) l). split_and!.
  - apply bitset_scan; [done|]. apply Forall_forall. intros i Hi%elem_of_seqZ. destruct Hinv. lia.
  - apply StronglySorted_filter, seqZ_sorted.
  - done.
  - pose proof (finish_shrink_spec complete s Hinv) as H. case_bool_decide as Hd.
    + destruct H as (s' & -> & _). split; [done|]. intros _. destruct Hd as [_ Hd].
      apply elem_of_nil_inv. intros i [Hi Hge]%Hmem. specialize (Hd i Hi). cbn in Hd. lia.
    + rewrite H. split; [|done]. intros Hnil. exfalso. apply Hd. split; [done|]. intros i Hi.
      destruct (decide (i < _target_capacity s)); [done|]. exfalso.
      apply (not_elem_of_nil i). rewrite <- Hnil. apply Hmem. split; [done|lia].
Qed.

Definition shrinking : SlotAllocator :=
  (run_ops [AllocateMultiple (λ _, true) 3; PrepareForShrink 1] (allocator_init 4)).2.

Lemma shrinking_inv : sa_inv shrinking.
Proof.
  unfold shrinking. set (os := [_; _]).
  pose proof (run_refines os (allocator_init 4) (init_inv 4 ltac:(lia))) as H.
  destruct (run_ops os (allocator_init 4)). apply H. unfold os. repeat constructor. cbn. lia.
Qed.

Lemma shrink_blocked_witness :
  get_slots_blocking_shrink shrinking = Ok [1; 2] ∧
  ∃ ids, get_slots_blocking_shrink shrinking = Ok ids ∧ StronglySorted Z.lt ids ∧
    (∀ i, i ∈ ids ↔ i ∈ occupied shrinking ∧ _target_capacity shrinking ≤ i) ∧
    (ids = [] ↔ (finish_shrink (λ _, true) shrinking).1 = Ok true).
Proof.
  split; [vm_compute; reflexivity|].
  apply (shrink_blocked_by_listed_slots (λ _, true) shrinking shrinking_inv).
  vm_compute. reflexivity.
Defined.
