(* ===== verification/PyFloat.v ===== *)
(** * Python floats

    A Python [float] is an IEEE-754 binary64 number; the operations are those
    of the standard library's executable specification [SpecFloat] at
    precision 53 and maximal exponent 1024.  Added here: the conversions
    between [int] and [float], the true division of integers, [round] and
    [math.ceil], with the exceptions Python raises.

    Proved: multiplying an integer below [2^53] by a factor of at least one
    and rounding up never goes below the integer. *)

From Stdlib Require Export Floats.SpecFloat.
From S2P Require Import Prelude.

Local Open Scope Z_scope.

Definition float : Type := spec_float.

Definition float_mul : float → float → float := SFmul 53 1024.
Definition float_add : float → float → float := SFadd 53 1024.
Definition float_ltb : float → float → bool := SFltb.
Definition float_eqb : float → float → bool := SFeqb.
Definition float_inf : float := S754_infinity false.

(** [float(z)], also what mixed arithmetic does to its integer operand. *)
Definition float_of_Z (z : Z) : result float :=
  match binary_normalize 53 1024 z 0 false with
  | S754_infinity _ => Raise OverflowError
  | f => Ok f
  end.

(** [x / y] on floats. *)
Definition float_div (x y : float) : result float :=
  match y with
  | S754_zero _ => Raise ZeroDivisionError
  | _ => Ok (SFdiv 53 1024 x y)
  end.

(** [a / b] on integers: the exact quotient, rounded once. *)
Definition int_truediv (a b : Z) : result float :=
  if b =? 0 then Raise ZeroDivisionError
  else if a =? 0 then Ok (S754_zero false)
  else
    let '(q, e, l) := SFdiv_core_binary 53 1024 (Z.abs a) 0 (Z.abs b) 0 in
    match binary_round_aux 53 1024 (xorb (a <? 0) (b <? 0)) q e l with
    | S754_infinity _ => Raise OverflowError
    | f => Ok f
    end.

Definition signed (s : bool) (m : positive) : Z := if s then - Z.pos m else Z.pos m.

(** [math.ceil(x)] *)
Definition float_ceil (x : float) : result Z :=
  match x with
  | S754_zero _ => Ok 0
  | S754_infinity _ => Raise OverflowError
  | S754_nan => Raise ValueError
  | S754_finite s m e =>
      if 0 <=? e then Ok (signed s m * 2 ^ e) else Ok (- (- signed s m / 2 ^ (- e)))
  end.

(** [n / d] rounded to the nearest integer, ties to even. *)
Definition div_half_even (n d : Z) : Z :=
  let q := n / d in
  let r := n `mod` d in
  if 2 * r <? d then q
  else if d <? 2 * r then q + 1
  else if Z.even q then q else q + 1.

(** [round(x)] *)
Definition float_round (x : float) : result Z :=
  match x with
  | S754_zero _ => Ok 0
  | S754_infinity _ => Raise OverflowError
  | S754_nan => Raise ValueError
  | S754_finite s m e =>
      if 0 <=? e then Ok (signed s m * 2 ^ e) else Ok (div_half_even (signed s m) (2 ^ (- e)))
  end.

(** Literals of the source. *)
Definition float_1 : float := S754_finite false (2 ^ 52) (-52).
Definition float_2 : float := S754_finite false (2 ^ 52) (-51).

Example float_of_Z_1 : float_of_Z 1 = Ok float_1.
Proof. reflexivity. Qed.

Example one_third : int_truediv 1 3 = Ok (S754_finite false 6004799503160661 (-54)).
Proof. reflexivity. Qed.

Example round_ties : float_round (S754_finite false 5 (-1)) = Ok 2 ∧
  float_round (S754_finite false 7 (-1)) = Ok 4 ∧ float_round (S754_finite true 5 (-1)) = Ok (-2).
Proof. by vm_compute. Qed.

(** ** Rounding from below *)

Lemma digits_bounds m : 2 ^ (Z.pos (digits2_pos m) - 1) ≤ Z.pos m < 2 ^ Z.pos (digits2_pos m).
Proof.
  induction m as [m IH|m IH|]; cbn [digits2_pos]; [..|lia];
    rewrite Pos2Z.inj_succ; replace (Z.succ (Z.pos (digits2_pos m)) - 1) with
      (Z.succ (Z.pos (digits2_pos m) - 1)) by lia;
    rewrite !Z.pow_succ_r by lia; lia.
Qed.

(** The number of digits is fixed by the power-of-two interval. *)
Lemma digits_unique m k : 0 ≤ k → 2 ^ k ≤ Z.pos m < 2 ^ (k + 1) → Z.pos (digits2_pos m) = k + 1.
Proof.
  intros Hk [H1 H2]. pose proof (digits_bounds m) as [H3 H4].
  assert (k < Z.pos (digits2_pos m)) by (apply (Z.pow_lt_mono_r_iff 2); lia).
  assert (Z.pos (digits2_pos m) - 1 < k + 1) by (apply (Z.pow_lt_mono_r_iff 2); lia).
  lia.
Qed.

Lemma shr_1_half r : 0 ≤ shr_m r → shr_m (shr_1 r) = shr_m r / 2.
Proof.
  destruct r as [m rb sb]. cbn [shr_m]. intros Hm.
  rewrite <- Z.div2_div. by destruct m as [|[p|p|]|p].
Qed.

(** Shifting right [p] times floors the quotient by [2^p]. *)
Lemma shr_iter p r :
  0 ≤ shr_m r → shr_m (SpecFloat.iter_pos shr_1 p r) = shr_m r / 2 ^ Z.pos p.
Proof.
  intros Hr. cut (0 ≤ shr_m (SpecFloat.iter_pos shr_1 p r) ∧
    shr_m (SpecFloat.iter_pos shr_1 p r) = shr_m r / 2 ^ Z.pos p); [tauto|].
  revert r Hr. induction p as [p IH|p IH|]; intros r Hr; cbn [SpecFloat.iter_pos].
  - pose proof (shr_1_half r Hr) as H1. assert (H0 : 0 ≤ shr_m (shr_1 r)) by (rewrite H1; apply Z.div_pos; lia).
    destruct (IH _ H0) as [H2 H3]. destruct (IH _ H2) as [H4 H5]. split; [done|].
    rewrite H5, H3, H1, !Z.div_div by lia. f_equal.
    replace (Z.pos p~1) with (1 + Z.pos p + Z.pos p) by lia. rewrite !Z.pow_add_r by lia. lia.
  - destruct (IH _ Hr) as [H2 H3]. destruct (IH _ H2) as [H4 H5]. split; [done|].
    rewrite H5, H3, !Z.div_div by lia. f_equal.
    replace (Z.pos p~0) with (Z.pos p + Z.pos p) by lia. by rewrite Z.pow_add_r by lia.
  - rewrite (shr_1_half r Hr). split; [apply Z.div_pos; lia|done].
Qed.

Lemma shr_spec m e l n :
  0 ≤ m → ∃ r, shr (shr_record_of_loc m l) e n = (r, e + Z.max 0 n) ∧
    shr_m r = m / 2 ^ Z.max 0 n ∧ (n ≤ 0 → r = shr_record_of_loc m l).
Proof.
  intros Hm. assert (Hs : shr_m (shr_record_of_loc m l) = m) by (by destruct l as [|[]]).
  destruct n as [|p|p]; cbn [shr].
  - eexists. split; [f_equal; lia|]. by rewrite Hs, Z.div_1_r.
  - eexists. split; [f_equal; lia|]. split; [|lia]. rewrite shr_iter by (rewrite Hs; done).
    by rewrite Hs, Z.max_r by lia.
  - eexists. split; [f_equal; lia|]. rewrite Z.max_l by lia. by rewrite Hs, Z.div_1_r.
Qed.

Lemma round_choice q l : round_nearest_even q l = q ∨ round_nearest_even q l = q + 1.
Proof. destruct l as [|[]]; cbn; try case_match; lia. Qed.

(** [x] is at most the value [m * 2^e]. *)
Definition below (x m e : Z) : Prop := x * 2 ^ Z.max 0 (- e) ≤ m * 2 ^ Z.max 0 e.

Lemma below_pos x m e : 1 ≤ x → below x (Z.pos m) e → 1 ≤ Z.pos (digits2_pos m) + e.
Proof.
  unfold below. intros Hx Hb. pose proof (digits_bounds m) as Hd.
  set (d := Z.pos (digits2_pos m)) in *. destruct (Z.le_gt_cases 1 (d + e)); [done|exfalso].
  rewrite (Z.max_l 0 e), (Z.max_r 0 (- e)) in Hb by lia.
  assert (2 ^ d ≤ 2 ^ (- e)) by (apply Z.pow_le_mono_r; lia). nia.
Qed.

(** A mantissa of at most 53 bits is kept. *)
Lemma round_exact m e :
  let d := Z.pos (digits2_pos m) in
  d ≤ 53 → 1 ≤ d + e ≤ 1023 → e ≤ 971 →
  binary_round_aux 53 1024 false (Z.pos m) e loc_Exact = S754_finite false m e.
Proof.
  intros d Hd He He'. unfold binary_round_aux, shr_fexp. cbn [Zdigits2]. fold d.
  assert (Hf : fexp 53 1024 (d + e) = d + e - 53) by (unfold fexp, emin; lia). rewrite Hf.
  destruct (shr_spec (Z.pos m) e loc_Exact (d + e - 53 - e)) as (r & -> & _ & Hr0); [lia|].
  rewrite (Hr0 ltac:(lia)), Z.max_l, Z.add_0_r by lia.
  assert (round_nearest_even (shr_m (shr_record_of_loc (Z.pos m) loc_Exact))
    (loc_of_shr_record (shr_record_of_loc (Z.pos m) loc_Exact)) = Z.pos m) as -> by done.
  cbn [Zdigits2]. fold d. rewrite Hf.
  destruct (shr_spec (Z.pos m) e loc_Exact (d + e - 53 - e)) as (r2 & -> & Hr2 & _); [lia|].
  rewrite Z.max_l in Hr2 |- * by lia. rewrite Z.div_1_r in Hr2. rewrite Hr2, Z.add_0_r.
  by rewrite (proj2 (Z.leb_le _ _)) by lia.
Qed.

(** The second normalisation, after the mantissa has been rounded up. *)
Lemma renormalize y e x :
  2 ^ 52 ≤ Z.pos y ≤ 2 ^ 53 → -1074 ≤ e → 1 ≤ x ≤ 2 ^ 53 → below x (Z.pos y) e →
  ∃ r e' m', shr_fexp 53 1024 (Z.pos y) e loc_Exact = (r, e') ∧ shr_m r = Z.pos m' ∧
    e' ≤ e + 1 ∧ below x (Z.pos m') e'.
Proof.
  intros Hy He Hx Hb. unfold shr_fexp. destruct (decide (Z.pos y = 2 ^ 53)) as [H53|H53].
  - rewrite H53 in *. assert (Zdigits2 (2 ^ 53) = 54) as -> by done.
    assert (fexp 53 1024 (54 + e) = e + 1) as -> by (unfold fexp, emin; lia).
    destruct (shr_spec (2 ^ 53) e loc_Exact (e + 1 - e)) as (r2 & -> & Hr2 & _); [lia|].
    replace (e + 1 - e) with 1 in * by lia. rewrite Z.max_r in Hr2 |- * by lia.
    assert (H52 : 2 ^ 53 / 2 ^ 1 = Z.pos (2 ^ 52)) by done. rewrite H52 in Hr2.
    eexists _, _, _. split; [done|]. split; [done|]. split; [lia|].
    unfold below in *. destruct (Z.le_gt_cases e (-1)) as [Hneg|Hpos].
    + rewrite (Z.max_l 0 (e + 1)), (Z.max_r 0 (- (e + 1))) by lia.
      rewrite (Z.max_l 0 e), (Z.max_r 0 (- e)) in Hb by lia.
      replace (- e) with (- (e + 1) + 1) in Hb by lia. rewrite Z.pow_add_r in Hb by lia. lia.
    + rewrite (Z.max_r 0 (e + 1)), (Z.max_l 0 (- (e + 1))) by lia.
      assert (2 ^ 1 ≤ 2 ^ (e + 1)) by (apply Z.pow_le_mono_r; lia). lia.
  - cbn [Zdigits2]. rewrite (digits_unique y 52) by lia.
    assert (fexp 53 1024 (52 + 1 + e) = e) as -> by (unfold fexp, emin; lia).
    destruct (shr_spec (Z.pos y) e loc_Exact (e - e)) as (r2 & -> & Hr2 & _); [lia|].
    rewrite Z.max_l in Hr2 |- * by lia. rewrite Z.div_1_r in Hr2.
    eexists _, _, _. split; [done|]. split; [done|]. rewrite Z.add_0_r. split; [lia|done].
Qed.

(** Dropping low bits keeps the integers below. *)
Lemma truncate_below m e x :
  let d := Z.pos (digits2_pos m) in
  let q := Z.pos m / 2 ^ (d - 53) in
  53 < d → x ≤ 2 ^ 53 → below x (Z.pos m) e →
  2 ^ 52 ≤ q < 2 ^ 53 ∧ below x q (e + (d - 53)).
Proof.
  intros d q Hd Hx Hb. pose proof (digits_bounds m) as Hm. fold d in Hm.
  assert (Hq : 2 ^ 52 ≤ q < 2 ^ 53).
  { unfold q. split.
    - apply Z.div_le_lower_bound; [lia|]. rewrite <- Z.pow_add_r by lia.
      replace (d - 53 + 52) with (d - 1) by lia. lia.
    - apply Z.div_lt_upper_bound; [lia|]. rewrite <- Z.pow_add_r by lia.
      replace (d - 53 + 53) with d by lia. lia. }
  split; [done|]. unfold below in *. destruct (Z.le_gt_cases (e + (d - 53)) 0) as [Hneg|Hpos].
  - rewrite (Z.max_l 0 (e + _)), (Z.max_r 0 (- (e + _))), Z.mul_1_r by lia.
    rewrite (Z.max_l 0 e), (Z.max_r 0 (- e)) in Hb by lia. unfold q.
    apply Z.div_le_lower_bound; [lia|].
    replace (- e) with (- (e + (d - 53)) + (d - 53)) in Hb by lia.
    rewrite Z.pow_add_r in Hb by lia. lia.
  - rewrite (Z.max_r 0 (e + _)), (Z.max_l 0 (- (e + _))) by lia.
    assert (2 ^ 1 ≤ 2 ^ (e + (d - 53))) by (apply Z.pow_le_mono_r; lia). nia.
Qed.

(** A value in [[1, 2^1022)] rounds to a finite double that is at least every
    integer up to [2^53] below it. *)
Lemma round_from_below m e x :
  1 ≤ x ≤ 2 ^ 53 → below x (Z.pos m) e → Z.pos (digits2_pos m) + e ≤ 1022 → e ≤ 971 →
  ∃ m' e', binary_round_aux 53 1024 false (Z.pos m) e loc_Exact = S754_finite false m' e' ∧
    below x (Z.pos m') e'.
Proof.
  intros Hx Hb Hfin He. pose proof (below_pos x m e ltac:(lia) Hb) as Hde.
  set (d := Z.pos (digits2_pos m)) in *. destruct (Z.le_gt_cases d 53) as [Hsmall|Hlarge].
  { exists m, e. split; [|done]. apply round_exact; fold d; lia. }
  destruct (truncate_below m e x Hlarge ltac:(lia) Hb) as [Hq Hqb]. fold d in Hq, Hqb.
  unfold binary_round_aux. unfold shr_fexp at 1. cbn [Zdigits2]. fold d.
  assert (fexp 53 1024 (d + e) - e = d - 53) as -> by (unfold fexp, emin; lia).
  destruct (shr_spec (Z.pos m) e loc_Exact (d - 53)) as (r & -> & Hr & _); [lia|].
  rewrite (Z.max_r 0 (d - 53)) in Hr |- * by lia. rewrite Hr.
  set (q := Z.pos m / 2 ^ (d - 53)) in *.
  destruct (round_choice q (loc_of_shr_record r)) as [Hy|Hy]; rewrite Hy;
    (destruct q as [|q0|q0] eqn:Eq; [lia| |lia]).
  - destruct (renormalize q0 (e + (d - 53)) x) as (r2 & e2 & m2 & -> & -> & He2 & Hb2); try lia; [done|].
    rewrite (proj2 (Z.leb_le _ _)) by lia. eauto.
  - change (Z.pos q0 + 1) with (Z.pos (q0 + 1)).
    destruct (renormalize (q0 + 1) (e + (d - 53)) x) as (r2 & e2 & m2 & -> & -> & He2 & Hb2); try lia.
    { unfold below in *. nia. }
    rewrite (proj2 (Z.leb_le _ _)) by lia. eauto.
Qed.

(** ** Rounding a product up *)

(** A double in [[1, 2^53)]. *)
Definition is_factor (f : float) : Prop :=
  ∃ m e, f = S754_finite false m e ∧ 2 ^ 52 ≤ Z.pos m < 2 ^ 53 ∧ -52 ≤ e ≤ 0.

Lemma float_of_Z_pos z :
  0 < z < 2 ^ 53 →
  ∃ m e, float_of_Z z = Ok (S754_finite false m e) ∧ Z.pos m = z * 2 ^ (- e) ∧ -52 ≤ e ≤ 0 ∧
    Z.pos m < 2 ^ 53.
Proof.
  intros Hz. destruct z as [|p|p]; [lia| |lia]. unfold float_of_Z, binary_normalize, binary_round.
  pose proof (digits_bounds p) as Hd. set (d := Z.pos (digits2_pos p)) in *.
  assert (Hd53 : 1 ≤ d ≤ 53).
  { split; [lia|]. assert (d - 1 < 53) by (apply (Z.pow_lt_mono_r_iff 2); lia). lia. }
  assert (fexp 53 1024 (d + 0) = d - 53) as -> by (unfold fexp, emin; lia).
  assert (Hshl : ∃ m, shl_align p 0 (d - 53) = (m, d - 53) ∧ Z.pos m = Z.pos p * 2 ^ (53 - d)).
  { unfold shl_align. rewrite Z.sub_0_r. destruct (d - 53) as [|k|k] eqn:Ek; [|lia|].
    - exists p. split; [done|]. replace (53 - d) with 0 by lia. lia.
    - exists (Pos.iter xO p k). split; [done|]. replace (53 - d) with (Z.pos k) by lia.
      clear. induction k as [|k IH] using Pos.peano_ind; [cbn; lia|].
      rewrite Pos.iter_succ, Pos2Z.inj_succ, Z.pow_succ_r by lia. lia. }
  destruct Hshl as (m & -> & Hm).
  assert (Hm53 : 2 ^ 52 ≤ Z.pos m < 2 ^ 53).
  { rewrite Hm. assert (2 ^ 52 = 2 ^ (d - 1) * 2 ^ (53 - d)) by (rewrite <- Z.pow_add_r by lia; f_equal; lia).
    assert (2 ^ 53 = 2 ^ d * 2 ^ (53 - d)) by (rewrite <- Z.pow_add_r by lia; f_equal; lia).
    assert (0 < 2 ^ (53 - d)) by lia. nia. }
  pose proof (digits_unique m 52 ltac:(lia) Hm53) as Hdm.
  rewrite round_exact by lia. exists m, (d - 53). split; [done|].
  split; [by replace (- (d - 53)) with (53 - d) by lia|]. lia.
Qed.

(** [math.ceil(factor * z)] is at least [z]. *)
Lemma ceil_mul_factor f z :
  is_factor f → 0 ≤ z < 2 ^ 53 →
  ∃ c, (x ← float_of_Z z; float_ceil (float_mul f x)) = Ok c ∧ z ≤ c.
Proof.
  intros (mf & ef & -> & Hmf & Hef) Hz. destruct (decide (z = 0)) as [->|Hnz]; [by exists 0|].
  destruct (float_of_Z_pos z ltac:(lia)) as (m & e & -> & Hm & He & Hm53).
  unfold mbind, result_bind, float_mul. cbn [SFmul xorb].
  assert (Hb : below z (Z.pos (mf * m)) (ef + e)).
  { unfold below. rewrite (Z.max_l 0 (ef + e)), (Z.max_r 0 (- (ef + e))), Pos2Z.inj_mul, Hm by lia.
    replace (- (ef + e)) with (- ef + - e) by lia. rewrite Z.pow_add_r by lia.
    assert (2 ^ (- ef) ≤ 2 ^ 52) by (apply Z.pow_le_mono_r; lia).
    assert (0 < 2 ^ (- e)) by lia. nia. }
  assert (Hd : Z.pos (digits2_pos (mf * m)) - 1 < 106).
  { apply (Z.pow_lt_mono_r_iff 2); [lia..|]. pose proof (digits_bounds (mf * m)) as [Hd _].
    change (2 ^ 106) with (2 ^ 53 * 2 ^ 53). nia. }
  destruct (round_from_below (mf * m) (ef + e) z) as (m' & e' & -> & Hb'); [lia|done|lia..|].
  cbn [float_ceil signed]. unfold below in Hb'. destruct (0 <=? e') eqn:E'.
  - eexists. split; [done|]. rewrite (Z.max_r 0 e'), (Z.max_l 0 (- e')) in Hb' by lia. lia.
  - eexists. split; [done|]. rewrite (Z.max_l 0 e'), (Z.max_r 0 (- e')) in Hb' by lia.
    enough (- Z.pos m' / 2 ^ (- e') ≤ - z) by lia. apply Z.div_le_upper_bound; [lia|]. lia.
Qed.

(** ** No overflow *)

Lemma digits_le m k : 0 ≤ k → m ≤ 2 ^ k → 0 ≤ m → Zdigits2 m ≤ k + 1.
Proof.
  intros Hk Hm Hpos. destruct m as [|p|p]; cbn [Zdigits2]; [lia| |lia].
  pose proof (digits_bounds p) as [Hd _].
  destruct (Z.le_gt_cases (Z.pos (digits2_pos p)) (k + 1)); [done|].
  assert (2 ^ (k + 1) ≤ 2 ^ (Z.pos (digits2_pos p) - 1)) by (apply Z.pow_le_mono_r; lia).
  rewrite Z.pow_add_r in * by lia. lia.
Qed.

Lemma digits_lt m : 0 ≤ m → m < 2 ^ Zdigits2 m.
Proof.
  destruct m as [|p|p]; cbn [Zdigits2]; [lia| |lia]. intros _. apply digits_bounds.
Qed.

(** Rounding a value below [2^900] gives a finite result. *)
Lemma round_finite s m e l :
  0 ≤ m → e ≤ 0 → Zdigits2 m + e ≤ 900 →
  ∀ b, binary_round_aux 53 1024 s m e l ≠ S754_infinity b.
Proof.
  intros Hm He HD b. unfold binary_round_aux, shr_fexp. set (D := Zdigits2 m) in *.
  pose proof (digits_lt m Hm) as HmD. fold D in HmD.
  assert (HD0 : 0 ≤ D) by (unfold D; destruct m; cbn; lia).
  destruct (shr_spec m e l (fexp 53 1024 (D + e) - e)) as (r & -> & Hr & _); [done|].
  set (k := Z.max 0 (fexp 53 1024 (D + e) - e)) in *.
  assert (Hk : 0 ≤ k ∧ e + k ≤ 900 ∧ -2000 < D + e + 2000 + k) by (unfold k, fexp, emin; lia).
  rewrite Hr. set (q := m / 2 ^ k). assert (Hq0 : 0 ≤ q) by (apply Z.div_pos; lia).
  set (y := round_nearest_even q (loc_of_shr_record r)).
  assert (Hy : y = q ∨ y = q + 1) by apply round_choice.
  assert (Hdy : Zdigits2 y ≤ Z.max 0 (D - k) + 1).
  { apply digits_le; [lia| |lia]. enough (q + 1 ≤ 2 ^ Z.max 0 (D - k)) by lia.
    destruct (Z.le_gt_cases k D) as [HkD|HkD].
    - rewrite Z.max_r by lia. enough (q < 2 ^ (D - k)) by lia. apply Z.div_lt_upper_bound; [lia|].
      rewrite <- Z.pow_add_r by lia. by replace (k + (D - k)) with D by lia.
    - assert (q = 0) as ->; [|lia]. apply Z.div_small. split; [done|].
      assert (2 ^ D ≤ 2 ^ k) by (apply Z.pow_le_mono_r; lia). lia. }
  destruct (shr_spec y (e + k) loc_Exact (fexp 53 1024 (Zdigits2 y + (e + k)) - (e + k)))
    as (r2 & -> & _ & _); [lia|].
  destruct (shr_m r2) as [|p|p]; [done| |done].
  rewrite (proj2 (Z.leb_le _ _)); [done|]. unfold fexp, emin. lia.
Qed.

Lemma float_of_Z_ok z : - 2 ^ 53 < z < 2 ^ 53 → ∃ f, float_of_Z z = Ok f.
Proof.
  intros Hz. unfold float_of_Z.
  destruct (binary_normalize 53 1024 z 0 false) as [s|s| |s m e] eqn:E; try by eexists.
  exfalso. assert (Hpos : ∀ sg p, Z.pos p < 2 ^ 53 → binary_round 53 1024 sg p 0 ≠ S754_infinity s).
  { intros sg p Hp. unfold binary_round. pose proof (digits_bounds p) as [Hd _].
    set (d := Z.pos (digits2_pos p)) in *.
    assert (Hd53 : d - 1 < 53) by (apply (Z.pow_lt_mono_r_iff 2); lia).
    assert (fexp 53 1024 (d + 0) = d - 53) as -> by (unfold fexp, emin; lia).
    unfold shl_align. rewrite Z.sub_0_r. destruct (d - 53) as [|k|k] eqn:Ek; [..|];
      apply round_finite; cbn [Zdigits2]; try lia.
    assert (Hit : Z.pos (Pos.iter xO p k) = Z.pos p * 2 ^ Z.pos k).
    { clear. induction k as [|k IH] using Pos.peano_ind; [cbn; lia|].
      rewrite Pos.iter_succ, Pos2Z.inj_succ, Z.pow_succ_r by lia. lia. }
    change (Z.pos (digits2_pos (Pos.iter xO p k))) with (Zdigits2 (Z.pos (Pos.iter xO p k))).
    pose proof (digits_le (Z.pos (Pos.iter xO p k)) (53 + Z.pos k)) as H.
    rewrite Hit, Z.pow_add_r in H by lia. rewrite Hit. nia. }
  destruct z as [|p|p]; cbn [binary_normalize] in E; [done|by apply (Hpos false p); [lia|]|].
  apply (Hpos true p); [lia|done].
Qed.

Lemma int_truediv_ok a b : 0 ≤ a < 2 ^ 53 → 0 < b < 2 ^ 53 → ∃ f, int_truediv a b = Ok f.
Proof.
  intros Ha Hb. unfold int_truediv. rewrite (proj2 (Z.eqb_neq b 0)) by lia.
  destruct (a =? 0) eqn:E0; [by eexists|].
  destruct (SFdiv_core_binary 53 1024 (Z.abs a) 0 (Z.abs b) 0) as [[q e] l] eqn:E.
  enough (Hf : ∀ s c, binary_round_aux 53 1024 s q e l ≠ S754_infinity c).
  { specialize (Hf (xorb (a <? 0) (b <? 0))).
    destruct (binary_round_aux _ _ _ _ _ _) as [| s | |]; try by eexists. by destruct (Hf s). }
  intros s c. unfold SFdiv_core_binary in E. rewrite !Z.abs_eq in E by lia. cbn [Z.sub] in E.
  pose proof (digits_le a 53 ltac:(lia) ltac:(lia) ltac:(lia)) as Hda.
  pose proof (digits_le b 53 ltac:(lia) ltac:(lia) ltac:(lia)) as Hdb.
  assert (0 ≤ Zdigits2 a) by (destruct a; cbn; lia). assert (0 ≤ Zdigits2 b) by (destruct b; cbn; lia).
  set (e' := Z.min (fexp 53 1024 (Zdigits2 a + 0 - (Zdigits2 b + 0))) (0 - 0)) in E.
  assert (He' : -200 ≤ e' ≤ 0) by (unfold e', fexp, emin; lia).
  assert (Hshift : ∃ a', 0 ≤ a' < 2 ^ 300 ∧
    (let '(q, r) := Z.div_eucl a' b in (q, e', new_location b r)) = (q, e, l)).
  { destruct (0 - 0 - e') as [|k|k] eqn:Ek; [|exists (Z.shiftl a (Z.pos k))|lia].
    - exists a. split; [|done]. split; [lia|]. apply (Z.lt_le_trans _ (2 ^ 53)); [lia|done].
    - split; [|done]. rewrite Z.shiftl_mul_pow2 by lia.
      assert (2 ^ Z.pos k ≤ 2 ^ 200) by (apply Z.pow_le_mono_r; lia).
      assert (0 < 2 ^ Z.pos k) by lia. change (2 ^ 300) with (2 ^ 100 * 2 ^ 200). split; [nia|].
      assert (2 ^ 53 < 2 ^ 100) by done. nia. }
  destruct Hshift as (a' & Ha' & Heq). pose proof (Z.div_mod a' b ltac:(lia)) as Hdm.
  unfold Z.div, Z.modulo in Hdm. destruct (Z.div_eucl a' b) as [q' r'] eqn:Ed.
  injection Heq as <- <- _. assert (Hq : q' = a' / b) by (unfold Z.div; by rewrite Ed).
  assert (0 ≤ q' ≤ 2 ^ 300).
  { rewrite Hq. split; [apply Z.div_pos; lia|]. apply Z.div_le_upper_bound; [lia|]. nia. }
  apply round_finite; [lia|lia|]. pose proof (digits_le q' 300 ltac:(lia) ltac:(lia) ltac:(lia)). lia.
Qed.

(** The larger of a float and a positive one is not zero. *)
Lemma float_div_denominator x t m e :
  ∃ f, float_div x (if float_ltb t (S754_finite false m e) then S754_finite false m e else t) = Ok f.
Proof. destruct t as [[]|[]| |[] mt et]; cbn; try by eexists. case_match; by eexists. Qed.
