(* ===== verification/RequestQueue.v ===== *)
(** * Request ids and the executor request queue

    [llmapi/disagg_utils.py] (the id spaces of local and disaggregated
    requests) and [executor_request_queue.py] ([ExecutorRequestQueue], the
    thread-safe queue between the API threads and the executor loop).

    Other threads put items while the executor waits.  The field [env] is the
    schedule of the environment: each access of the executor to the queue
    consumes one entry, the items that were put by then; once it is used up
    nothing more arrives.  The wall clock and the monotonic clock are
    functions of the number of readings. *)

From S2P Require Import Prelude Requests PyFloat.

Local Open Scope Z_scope.

(** ** Id spaces *)

Definition DISAGG_TIMESTAMP_BITS : Z := 39.
Definition DISAGG_NODE_ID_BITS : Z := 8.
Definition DISAGG_PROCESS_ID_BITS : Z := 6.
Definition DISAGG_COUNTER_BITS : Z := 10.
Definition MIN_GLOBAL_ID : Z := Z.shiftl 1 40.
Definition MAX_INT64 : Z := Z.shiftl 1 63 - 1.

(** The fields side by side:
    [timestamp_ms(39) | node_id(8) | process_id(6) | counter(10)]. *)
Definition pack_id (timestamp_ms node_id process_id counter : Z) : Z :=
  Z.lor (Z.lor (Z.lor
    (Z.shiftl timestamp_ms (DISAGG_NODE_ID_BITS + DISAGG_PROCESS_ID_BITS + DISAGG_COUNTER_BITS))
    (Z.shiftl node_id (DISAGG_PROCESS_ID_BITS + DISAGG_COUNTER_BITS)))
    (Z.shiftl process_id DISAGG_COUNTER_BITS))
    counter.

(** The state is the process-wide counter; [now_ms] is
    [int(time.monotonic() * 1000)]. *)
Definition get_global_disagg_request_id (now_ms node_id process_id : Z) : M Z Z :=
  let NODE_ID_SPACE := Z.shiftl 1 DISAGG_NODE_ID_BITS in
  let PROCESS_ID_SPACE := Z.shiftl 1 DISAGG_PROCESS_ID_BITS in
  let COUNTER_MASK := Z.shiftl 1 DISAGG_COUNTER_BITS - 1 in
  let TIMESTAMP_MASK := Z.shiftl 1 DISAGG_TIMESTAMP_BITS - 1 in
  if negb ((0 <=? node_id) && (node_id <? NODE_ID_SPACE)) then raise ValueError
  else if negb ((0 <=? process_id) && (process_id <? PROCESS_ID_SPACE)) then raise ValueError
  else
    let timestamp_ms := Z.land now_ms TIMESTAMP_MASK in
    c ← get;
    let counter := Z.land c COUNTER_MASK in
    put (c + 1);;
    let global_id := pack_id timestamp_ms node_id process_id counter in
    mret (global_id `mod` (MAX_INT64 - MIN_GLOBAL_ID) + MIN_GLOBAL_ID).

Definition get_local_request_id (last_id : Z) : Z :=
  Z.land (last_id + 1) (MIN_GLOBAL_ID - 1).

Definition disagg_process_id_space : Z := Z.shiftl 1 DISAGG_PROCESS_ID_BITS.

(** ** The queue object *)

Record ExecutorRequestQueue := mkERQ {
  request_queue : list RequestQueueItem;
  next_request_id : Z;
  start_times : gmap Z float;
  active : bool;
  env : list (list RequestQueueItem);
  ticks : nat;
}.

Definition with_queue (s : ExecutorRequestQueue) q : ExecutorRequestQueue :=
  mkERQ q (next_request_id s) (start_times s) (active s) (env s) (ticks s).
Definition with_next_id (s : ExecutorRequestQueue) i : ExecutorRequestQueue :=
  mkERQ (request_queue s) i (start_times s) (active s) (env s) (ticks s).
Definition with_start_times (s : ExecutorRequestQueue) m : ExecutorRequestQueue :=
  mkERQ (request_queue s) (next_request_id s) m (active s) (env s) (ticks s).
Definition with_active (s : ExecutorRequestQueue) b : ExecutorRequestQueue :=
  mkERQ (request_queue s) (next_request_id s) (start_times s) b (env s) (ticks s).
Definition with_env (s : ExecutorRequestQueue) q e : ExecutorRequestQueue :=
  mkERQ q (next_request_id s) (start_times s) (active s) e (ticks s).
Definition with_ticks (s : ExecutorRequestQueue) n : ExecutorRequestQueue :=
  mkERQ (request_queue s) (next_request_id s) (start_times s) (active s) (env s) n.

(** [RequestQueueItem(req_id, ...)] with the defaults of the class. *)
Definition queue_item (i : Z) : RequestQueueItem :=
  {| id := i; request := None; child_req_ids := None; is_canceled_request := false;
     query := None; control_requires_drain := true; control_id := None |}.

(** [get_num_child_requests] of [request_utils.py]; [x or 1] replaces [None]
    and 0 by 1. *)
Definition get_num_child_requests (r : ExecutorRequest) : Z :=
  if 1 <? sampling_beam_width r then 0
  else match num_return_sequences r with
       | Some n => if n =? 0 then 1 else n
       | None => 1
       end - 1.

(** [timeout] arguments: no limit, do not wait, or a limit. *)
Inductive timeout := NoTimeout | TimeoutSecs (s : float).

Definition float_0 : float := S754_zero false.
Definition float_sub : float → float → float := SFsub 53 1024.
Definition float_1000 : float := S754_finite false 8796093022208000 (-43).

Section executor_request_queue.
Context (rank max_batch_size : Z) (enable_iter_perf_stats : bool)
        (batch_wait_timeout_ms : float) (time monotonic : nat → float).
#[local] Abbreviation ERQ := ExecutorRequestQueue.

(** [__init__], in an environment that will put [e]. *)
Definition erq_init (e : list (list RequestQueueItem)) : ERQ :=
  mkERQ [] max_batch_size ∅ true e 0.

Definition read_clock (clock : nat → float) : M ERQ float :=
  s ← get; put (with_ticks s (S (ticks s)));; mret (clock (ticks s)).

Definition fresh_id : M ERQ Z :=
  s ← get;
  put (with_next_id s (get_local_request_id (next_request_id s)));;
  mret (next_request_id s).

Definition _get_request_id (r : option ExecutorRequest) : M ERQ Z :=
  match r ≫= disagg_request_id with
  | Some d => if d =? 0 then fresh_id else mret d
  | None => fresh_id
  end.

Definition set_start_time (i : Z) (t : float) : M ERQ () :=
  modify (λ s, with_start_times s (<[i := t]> (start_times s))).

Fixpoint child_ids_loop (n : nat) (child_req_ids : list Z) : M ERQ (list Z) :=
  match n with
  | O => mret child_req_ids
  | S n =>
      child_req_id ← _get_request_id None;
      (if enable_iter_perf_stats
       then t ← read_clock time; set_start_time child_req_id t else mret ());;
      child_ids_loop n (child_req_ids ++ [child_req_id])
  end.

Definition _generate_child_request_ids (r : ExecutorRequest) : M ERQ (option (list Z)) :=
  let num_children := get_num_child_requests r in
  if 0 <? num_children
  then l ← child_ids_loop (Z.to_nat num_children) []; mret (Some l)
  else mret None.

Definition put_item (x : RequestQueueItem) : M ERQ () :=
  modify (λ s, with_queue s (request_queue s ++ [x])).

Definition enqueue_one (start_time : float) (r : ExecutorRequest) (q : option (list Z)) :
    M ERQ Z :=
  req_id ← _get_request_id (Some r);
  (if enable_iter_perf_stats then set_start_time req_id start_time else mret ());;
  child_req_ids ← _generate_child_request_ids r;
  put_item {| id := req_id; request := Some r; child_req_ids := child_req_ids;
              is_canceled_request := false; query := q;
              control_requires_drain := true; control_id := None |};;
  mret req_id.

Fixpoint enqueue_loop (start_time : float)
    (requests_and_queries : list (ExecutorRequest * option (list Z))) (req_ids : list Z) :
    M ERQ (list Z) :=
  match requests_and_queries with
  | [] => mret req_ids
  | (r, q) :: l =>
      req_id ← enqueue_one start_time r q;
      enqueue_loop start_time l (req_ids ++ [req_id])
  end.

Definition _enqueue_impl (requests_and_queries : list (ExecutorRequest * option (list Z))) :
    M ERQ (list Z) :=
  s ← get;
  assert_ (active s);;
  start_time ← read_clock time;
  enqueue_loop start_time requests_and_queries [].

Definition enqueue_requests (requests : list ExecutorRequest) : M ERQ (list Z) :=
  _enqueue_impl ((λ r, (r, None)) <$> requests).

Definition enqueue_request (r : ExecutorRequest) (q : option (list Z)) : M ERQ Z :=
  l ← _enqueue_impl [(r, q)]; lift (py_getitem l 0).

Definition enqueue_cancel_request (req_id : Z) : M ERQ () :=
  put_item {| id := req_id; request := None; child_req_ids := None;
              is_canceled_request := true; query := None;
              control_requires_drain := true; control_id := None |}.

Definition enqueue_control_request (drain : bool) (cid : option string) : M ERQ () :=
  put_item {| id := CONTROL_REQUEST_ID; request := None; child_req_ids := None;
              is_canceled_request := false; query := None;
              control_requires_drain := drain; control_id := cid |}.

Definition enqueue_shutdown_request : M ERQ () :=
  put_item (queue_item SHUTDOWN_REQUEST_ID);;
  modify (λ s, with_active s false).

Definition can_enqueue_request : M ERQ bool := gets (λ s, active s && (rank =? 0)).

(** ** Taking items out *)

(** What the other threads have put by the next access to the queue. *)
Definition arrive : M ERQ () :=
  modify (λ s, match env s with
               | [] => s
               | a :: e => with_env s (request_queue s ++ a) e
               end).

(** [self.request_queue.empty()] *)
Definition queue_empty : M ERQ bool :=
  arrive;; gets (λ s, bool_decide (request_queue s = [])).

(** [get_nowait()], and [get(timeout=...)] with a limit, during which the
    items of one entry of [env] arrive; [None] is [queue.Empty]. *)
Definition try_get : M ERQ (option RequestQueueItem) :=
  arrive;;
  s ← get;
  match request_queue s with
  | [] => mret None
  | x :: q => put (with_queue s q);; mret (Some x)
  end.

(** [get(timeout=None)]: waits until there is an item; [OutOfFuel] when none
    ever comes. *)
Fixpoint get_forever (fuel : nat) : M ERQ RequestQueueItem :=
  match fuel with
  | O => raise OutOfFuel
  | S fuel => o ← try_get; match o with Some x => mret x | None => get_forever fuel end
  end.

(** [while True: items.append(get_nowait())] *)
Fixpoint drain_loop (fuel : nat) (items : list RequestQueueItem) :
    M ERQ (list RequestQueueItem) :=
  match fuel with
  | O => raise OutOfFuel
  | S fuel =>
      o ← try_get;
      match o with Some x => drain_loop fuel (items ++ [x]) | None => mret items end
  end.

(** [while len(items) < self.max_batch_size]; each turn takes an item or
    stops, so as many turns as items are missing are enough. *)
Fixpoint wait_loop (fuel : nat) (deadline : float) (items : list RequestQueueItem) :
    M ERQ (list RequestQueueItem) :=
  match fuel with
  | O => mret items
  | S fuel =>
      if Z.of_nat (length items) <? max_batch_size then
        now ← read_clock monotonic;
        let remaining_timeout := float_sub deadline now in
        if SFleb remaining_timeout float_0 then mret items
        else
          o ← try_get;
          match o with
          | Some item => wait_loop fuel deadline (items ++ [item])
          | None => mret items
          end
      else mret items
  end.

(** How many items there are and will ever be. *)
Definition supply (s : ERQ) : nat := length (request_queue s ++ concat (env s)).

Definition may_wait (t : timeout) : bool :=
  match t with NoTimeout => true | TimeoutSecs x => float_ltb float_0 x end.

Definition first_items (t : timeout) : M ERQ (list RequestQueueItem) :=
  empty ← queue_empty;
  s ← get;
  if (empty && may_wait t)%bool then
    match t with
    | NoTimeout => x ← get_forever (S (length (env s))); mret [x]
    | TimeoutSecs _ => o ← try_get; mret (match o with Some x => [x] | None => [] end)
    end
  else drain_loop (S (supply s)) [].

Definition get_from_request_queue (t : timeout) : M ERQ (list RequestQueueItem) :=
  items ← first_items t;
  if float_eqb batch_wait_timeout_ms float_0 then mret items
  else if max_batch_size <=? Z.of_nat (length items) then mret items
  else
    now ← read_clock monotonic;
    wait_secs ← lift (float_div batch_wait_timeout_ms float_1000);
    let deadline := float_add now wait_secs in
    wait_loop (Z.to_nat (max_batch_size - Z.of_nat (length items))) deadline items.

Definition get_request_queue_size : M ERQ nat := gets (λ s, length (request_queue s)).

(** ** Queue latency *)

(** One id of [calculate_queue_latency]: its start time leaves the table. *)
Definition pop_latency (now : float) (i : Z) (total : float) : M ERQ float :=
  s ← get;
  match start_times s !! i with
  | Some t =>
      put (with_start_times s (delete i (start_times s)));;
      mret (float_add total (float_sub now t))
  | None => mret total
  end.

Fixpoint pop_latencies (now : float) (ids : list Z) (total : float) : M ERQ float :=
  match ids with
  | [] => mret total
  | i :: ids => total ← pop_latency now i total; pop_latencies now ids total
  end.

(** The ids an item stands for: its own, then its children's. *)
Definition item_ids (r : RequestQueueItem) : list Z := id r :: default [] (child_req_ids r).

Definition calculate_queue_latency (items : list RequestQueueItem) (now : float) :
    M ERQ float :=
  if negb enable_iter_perf_stats then mret float_0
  else pop_latencies now (items ≫= item_ids) float_0.
End executor_request_queue.
