(* ===== verification/RequestQueueProps.v ===== *)
(** * The executor request queue: proofs

    The id spaces are disjoint and ids are unique within their range; what the
    executor takes out of the queue is what was put in, in order; enqueueing
    numbers requests and children consecutively and refuses after shutdown. *)

From S2P Require Import Prelude Requests PyFloat RequestQueue.

Local Open Scope Z_scope.

(** ** Id spaces *)

Lemma land_ones_shiftl a k : 0 ≤ k → Z.land a (Z.shiftl 1 k - 1) = a `mod` 2 ^ k.
Proof.
  intros Hk. rewrite Z.shiftl_1_l, <- Z.land_ones by done. by rewrite Z.ones_equiv, Z.sub_1_r.
Qed.

Lemma lor_shiftl_add a b k : 0 ≤ k → 0 ≤ b < 2 ^ k → Z.lor (Z.shiftl a k) b = a * 2 ^ k + b.
Proof.
  intros Hk Hb.
  assert (Hl : Z.land (Z.shiftl a k) b = 0).
  { apply Z.bits_inj'. intros n Hn. rewrite Z.land_spec, Z.bits_0, Z.shiftl_spec by done.
    destruct (Z.lt_ge_cases n k).
    - by rewrite Z.testbit_neg_r by lia.
    - rewrite <- (Z.mod_small b (2 ^ k)) by done. by rewrite Z.mod_pow2_bits_high, andb_false_r by lia. }
  rewrite <- Z.lxor_lor by done. rewrite <- Z.add_nocarry_lxor by done.
  by rewrite Z.shiftl_mul_pow2.
Qed.

(** The packed id is a positional number with digits below 2^8, 2^6, 2^10. *)
Lemma pack_id_sum t n p c :
  0 ≤ n < 2 ^ 8 → 0 ≤ p < 2 ^ 6 → 0 ≤ c < 2 ^ 10 →
  pack_id t n p c = t * 2 ^ 24 + n * 2 ^ 16 + p * 2 ^ 10 + c.
Proof.
  intros Hn Hp Hc. unfold pack_id, DISAGG_NODE_ID_BITS, DISAGG_PROCESS_ID_BITS,
    DISAGG_COUNTER_BITS.
  change (8 + 6 + 10) with 24. change (6 + 10) with 16.
  rewrite (Z.shiftl_mul_pow2 n) by lia.
  rewrite (lor_shiftl_add t (n * 2 ^ 16)) by lia.
  replace (t * 2 ^ 24 + n * 2 ^ 16) with (Z.shiftl (t * 2 ^ 8 + n) 16)
    by (rewrite Z.shiftl_mul_pow2 by lia; lia).
  rewrite (Z.shiftl_mul_pow2 p) by lia.
  rewrite (lor_shiftl_add _ (p * 2 ^ 10)) by lia.
  replace ((t * 2 ^ 8 + n) * 2 ^ 16 + p * 2 ^ 10) with
    (Z.shiftl ((t * 2 ^ 8 + n) * 2 ^ 6 + p) 10) by (rewrite Z.shiftl_mul_pow2 by lia; lia).
  rewrite lor_shiftl_add, ?Z.shiftl_mul_pow2 by lia. lia.
Qed.

Lemma get_global_id_value now n p s :
  0 ≤ n < 2 ^ 8 → 0 ≤ p < 2 ^ 6 →
  get_global_disagg_request_id now n p s =
  (Ok (((now `mod` 2 ^ 39) * 2 ^ 24 + n * 2 ^ 16 + p * 2 ^ 10 + s `mod` 2 ^ 10)
         `mod` (2 ^ 63 - 1 - 2 ^ 40) + 2 ^ 40), s + 1).
Proof.
  intros Hn Hp. unfold get_global_disagg_request_id.
  change (Z.shiftl 1 DISAGG_NODE_ID_BITS) with (2 ^ 8).
  change (Z.shiftl 1 DISAGG_PROCESS_ID_BITS) with (2 ^ 6).
  rewrite (proj2 (Z.leb_le 0 n)), (proj2 (Z.ltb_lt n _)), (proj2 (Z.leb_le 0 p)),
    (proj2 (Z.ltb_lt p _)) by lia.
  cbn [andb negb]. mrun. rewrite !land_ones_shiftl by (unfold DISAGG_TIMESTAMP_BITS,
    DISAGG_COUNTER_BITS; lia).
  rewrite pack_id_sum; [done|done|done|]. apply Z.mod_pos_bound. lia.
Qed.

(** ** Taking items out *)

(** From [s] to [s'] the executor took exactly [items] off the front of what
    was queued and what arrived meanwhile; nothing else changed. *)
Record consumed (s s' : ExecutorRequestQueue) (items : list RequestQueueItem) : Prop := {
  consumed_fifo : ∃ e, env s = e ++ env s' ∧
                    request_queue s ++ concat e = items ++ request_queue s';
  consumed_next_id : next_request_id s' = next_request_id s;
  consumed_start_times : start_times s' = start_times s;
  consumed_active : active s' = active s;
}.

Lemma consumed_refl s : consumed s s [].
Proof. split; try done. by exists []; simpl; rewrite app_nil_r. Qed.

Lemma consumed_trans s1 s2 s3 l1 l2 :
  consumed s1 s2 l1 → consumed s2 s3 l2 → consumed s1 s3 (l1 ++ l2).
Proof.
  intros [(e1 & He1 & Hq1) ? ? ?] [(e2 & He2 & Hq2) ? ? ?]. split; try congruence.
  exists (e1 ++ e2). rewrite He1, He2, concat_app. split; [by rewrite (assoc_L (++))|].
  by rewrite (assoc_L (++)), Hq1, <- !(assoc_L (++)), Hq2.
Qed.

Lemma consumed_ticks s n : consumed s (with_ticks s n) [].
Proof. split; try done. exists []. simpl. by rewrite app_nil_r. Qed.

Lemma consumed_supply s s' items :
  consumed s s' items → request_queue s ++ concat (env s) =
                        items ++ request_queue s' ++ concat (env s').
Proof.
  intros [(e & He & Hq) _ _ _]. rewrite He, concat_app, (assoc_L (++)), Hq.
  by rewrite <- (assoc_L (++)).
Qed.

Lemma arrive_spec s :
  ∃ s1, arrive s = (Ok (), s1) ∧ consumed s s1 [] ∧ request_queue s `prefix_of` request_queue s1 ∧
        env s1 = tail (env s).
Proof.
  unfold arrive. mrun. eexists. split; [done|]. destruct (env s) as [|a e] eqn:He.
  { split_and!; [apply consumed_refl|done|by rewrite He]. }
  split_and!; [|by eexists|done]. split; try done. exists [a]. rewrite He. simpl.
  by rewrite app_nil_r.
Qed.

Lemma try_get_spec s :
  ∃ o s1, try_get s = (Ok o, s1) ∧ env s1 = tail (env s) ∧
    match o with
    | Some x => consumed s s1 [x] ∧
                ∀ y l, request_queue s = y :: l → x = y ∧ l `prefix_of` request_queue s1
    | None => consumed s s1 [] ∧ request_queue s = [] ∧ request_queue s1 = [] ∧
              (head (env s) = None ∨ head (env s) = Some [])
    end.
Proof.
  unfold try_get. destruct (arrive_spec s) as (s1 & Ha & Hc & [k Hk] & He).
  rewrite (bind_ok _ _ _ _ _ Ha). mrun.
  destruct (request_queue s1) as [|x q] eqn:Hq.
  - exists None, s1. symmetry in Hk. apply app_nil in Hk as [Hk ->].
    split_and!; [done..|]. destruct (env s) as [|a e] eqn:Hes; [by left|]. right.
    apply consumed_fifo in Hc as (e' & He' & Hf). simpl in He. rewrite Hes, He in He'.
    apply (app_inv_tail e [a] e') in He' as <-.
    rewrite Hk, Hq in Hf. simpl in Hf. rewrite app_nil_r in Hf. by rewrite Hf.
  - exists (Some x), (with_queue s1 q). split_and!; [done|done| |].
    + eapply (consumed_trans _ _ _ [] [x]); [exact Hc|]. split; try done.
      exists []. simpl. by rewrite app_nil_r.
    + intros y l Hyl. rewrite Hyl in Hk. simplify_eq/=. split; [done|]. by eexists.
Qed.

Lemma supply_cons s s1 x : consumed s s1 [x] → supply s = S (supply s1).
Proof. intros H%consumed_supply. unfold supply. by rewrite H. Qed.

(** The draining loop ends when nothing is left, having taken everything. *)
Lemma drain_loop_spec fuel items s :
  (supply s < fuel)%nat →
  ∃ items' s', drain_loop fuel items s = (Ok (items ++ items'), s') ∧
    consumed s s' items' ∧ request_queue s' = [] ∧ request_queue s `prefix_of` items'.
Proof.
  revert items s. induction fuel as [|fuel IH]; intros items s Hf; [lia|]. cbn [drain_loop].
  destruct (try_get_spec s) as (o & s1 & Ht & _ & Ho). rewrite (bind_ok _ _ _ _ _ Ht).
  destruct o as [x|].
  - destruct Ho as [Hc Hx]. rewrite (supply_cons _ _ _ Hc) in Hf.
    destruct (IH (items ++ [x]) s1) as (it & s' & -> & Hc' & Hq & Hp); [lia|].
    exists (x :: it), s'. rewrite <- (assoc_L (++)). split_and!; [done| |done|].
    + by apply (consumed_trans _ s1 _ [x]).
    + destruct (request_queue s) as [|y l] eqn:Hs; [apply prefix_nil|].
      destruct (Hx y l eq_refl) as [<- Hl]. apply prefix_cons. by etrans.
  - destruct Ho as (Hc & Hs & Hq & _). exists [], s1. rewrite app_nil_r.
    split_and!; [done..|]. by rewrite Hs.
Qed.

Lemma get_forever_spec fuel s :
  (length (env s) < fuel)%nat → request_queue s ++ concat (env s) ≠ [] →
  ∃ x s', get_forever fuel s = (Ok x, s') ∧ consumed s s' [x].
Proof.
  revert s. induction fuel as [|fuel IH]; intros s Hf Hne; [lia|]. cbn [get_forever].
  destruct (try_get_spec s) as (o & s1 & Ht & He & Ho). rewrite (bind_ok _ _ _ _ _ Ht).
  destruct o as [x|]; [by exists x, s1; destruct Ho|]. destruct Ho as (Hc & Hs & Hq & Hh).
  assert (Hne1 : request_queue s1 ++ concat (env s1) ≠ []).
  { by rewrite (consumed_supply _ _ _ Hc) in Hne. }
  destruct (env s) as [|a e] eqn:Hes; [by rewrite Hs in Hne|].
  destruct (IH s1) as (x & s' & -> & Hc'); [rewrite He; simpl in *; lia|done|].
  exists x, s'. split; [done|]. by apply (consumed_trans _ s1 _ [] [x]).
Qed.

(** With nothing queued and nothing to come the untimed [get] never returns. *)
Lemma get_forever_hangs fuel s :
  request_queue s ++ concat (env s) = [] → ∃ s', get_forever fuel s = (Raise OutOfFuel, s').
Proof.
  revert s. induction fuel as [|fuel IH]; intros s Hn; [by eexists|]. cbn [get_forever].
  destruct (try_get_spec s) as (o & s1 & Ht & _ & Ho). rewrite (bind_ok _ _ _ _ _ Ht).
  destruct o as [x|].
  - destruct Ho as [Hc%consumed_supply _]. by rewrite Hn in Hc.
  - destruct Ho as [Hc%consumed_supply _]. rewrite Hn in Hc. by apply IH.
Qed.

Section get_requests.
Context (max_batch_size : Z) (batch_wait_timeout_ms : float) (monotonic : nat → float).
#[local] Abbreviation get_requests :=
  (get_from_request_queue max_batch_size batch_wait_timeout_ms monotonic).
#[local] Abbreviation wait := (wait_loop max_batch_size monotonic).

Lemma wait_loop_spec fuel deadline items s :
  ∃ items' s', wait fuel deadline items s = (Ok (items ++ items'), s') ∧
    consumed s s' items' ∧ (length items' ≤ fuel)%nat.
Proof.
  assert (Hstop : ∀ n, ∃ items' s', (Ok items, with_ticks s n) = (Ok (items ++ items'), s') ∧
    consumed s s' items' ∧ (length items' ≤ fuel)%nat).
  { intros n. eexists [], _. rewrite app_nil_r. split_and!; [done|apply consumed_ticks|simpl; lia]. }
  revert items s Hstop. induction fuel as [|fuel IH]; intros items s Hstop; cbn [wait_loop].
  { destruct (Hstop (ticks s)) as (it & s' & Heq & Hr). exists it, s'. split; [|done].
    rewrite <- Heq. by destruct s. }
  destruct (_ <? _).
  2:{ exists [], s. rewrite app_nil_r. split_and!; [done|apply consumed_refl|simpl; lia]. }
  unfold read_clock. mrun. destruct (SFleb _ _); [apply Hstop|].
  destruct (try_get_spec (with_ticks s (S (ticks s)))) as (o & s2 & Ht & _ & Ho).
  rewrite Ht. destruct o as [x|].
  - destruct Ho as [Hc _].
    destruct (IH (items ++ [x]) s2) as (it & s' & -> & Hc' & Hlen).
    { intros n. eexists [], _. rewrite app_nil_r.
      split_and!; [done|apply consumed_ticks|simpl; lia]. }
    exists (x :: it), s'. rewrite <- (assoc_L (++)). split_and!; [done| |simpl; lia].
    apply (consumed_trans _ s2 _ [x]); [|done].
    by apply (consumed_trans _ _ _ [] [x] (consumed_ticks s (S (ticks s)))).
  - destruct Ho as [Hc _]. exists [], s2. rewrite app_nil_r. split_and!; [done| |simpl; lia].
    by apply (consumed_trans _ _ _ [] [] (consumed_ticks s (S (ticks s)))).
Qed.

Lemma queue_empty_spec s :
  ∃ s1, queue_empty s = (Ok (bool_decide (request_queue s1 = [])), s1) ∧ consumed s s1 [] ∧
        request_queue s `prefix_of` request_queue s1.
Proof.
  unfold queue_empty. destruct (arrive_spec s) as (s1 & Ha & Hc & Hp & _).
  rewrite (bind_ok _ _ _ _ _ Ha). by exists s1.
Qed.

Lemma first_items_spec t s :
  (t = NoTimeout → request_queue s ++ concat (env s) ≠ []) →
  ∃ items s', first_items t s = (Ok items, s') ∧ consumed s s' items ∧
    (may_wait t = false ∨ request_queue s ≠ [] → request_queue s `prefix_of` items) ∧
    (t = NoTimeout → items ≠ []).
Proof.
  intros Ht. unfold first_items. destruct (queue_empty_spec s) as (s1 & He & Hc1 & Hp).
  rewrite (bind_ok _ _ _ _ _ He). pose proof (consumed_supply _ _ _ Hc1) as Hsup.
  unfold mbind at 1, M_bind at 1, get at 1. cbv beta iota.
  case_bool_decide as Hq; cbn [andb]; [destruct (may_wait t) eqn:Hw|].
  - assert (Hs : request_queue s = []) by (rewrite Hq in Hp; by apply prefix_nil_inv).
    destruct t as [|x].
    + destruct (get_forever_spec (S (length (env s1))) s1) as (y & s' & Hg & Hc');
        [lia|rewrite <- (app_nil_l (_ ++ _)), <- Hsup; by apply Ht|].
      rewrite (bind_ok _ _ _ _ _ Hg). mrun. exists [y], s'.
      split_and!; [done|by apply (consumed_trans _ s1 _ [] [y])| |done].
      intros _. rewrite Hs. apply prefix_nil.
    + destruct (try_get_spec s1) as (o & s' & Hg & _ & Ho). rewrite (bind_ok _ _ _ _ _ Hg). mrun.
      eexists _, s'. split_and!; [done| |intros _; rewrite Hs; apply prefix_nil|done].
      destruct o as [y|]; [apply (consumed_trans _ s1 _ [] [y])|apply (consumed_trans _ s1 _ [] [])];
        tauto.
  - destruct (drain_loop_spec (S (supply s1)) [] s1) as (it & s' & -> & Hc' & _ & Hp'); [lia|].
    exists it, s'. split_and!; [done|by apply (consumed_trans _ s1 _ [] it)|intros _; by etrans|].
    by intros ->.
  - destruct (drain_loop_spec (S (supply s1)) [] s1) as (it & s' & -> & Hc' & _ & Hp'); [lia|].
    exists it, s'. split_and!; [done|by apply (consumed_trans _ s1 _ [] it)|intros _; by etrans|].
    intros _ ->. by apply prefix_nil_inv in Hp'.
Qed.

Lemma get_from_request_queue_spec t s :
  (t = NoTimeout → request_queue s ++ concat (env s) ≠ []) →
  ∃ items s', get_requests t s = (Ok items, s') ∧ consumed s s' items ∧
    (may_wait t = false ∨ request_queue s ≠ [] → request_queue s `prefix_of` items) ∧
    (t = NoTimeout → items ≠ []).
Proof.
  intros Ht. unfold get_from_request_queue.
  destruct (first_items_spec t s Ht) as (it & s1 & Hf & Hc & Hp & Hne).
  rewrite (bind_ok _ _ _ _ _ Hf). destruct (float_eqb _ _); [by exists it, s1|].
  destruct (max_batch_size <=? _); [by exists it, s1|].
  set (fuel := Z.to_nat _). unfold read_clock, float_div. mrun. cbn [float_1000].
  destruct (wait_loop_spec fuel
    (float_add (monotonic (ticks s1)) (SFdiv 53 1024 batch_wait_timeout_ms float_1000)) it
    (with_ticks s1 (S (ticks s1)))) as (it' & s' & -> & Hc' & _).
  exists (it ++ it'), s'. split_and!; [done| | |].
  - apply (consumed_trans _ s1 _ it); [done|].
    by apply (consumed_trans _ _ _ [] it' (consumed_ticks s1 (S (ticks s1)))).
  - intros H. apply prefix_app_r. by apply Hp.
  - intros E [-> _]%app_nil. by apply (Hne E).
Qed.

Lemma get_from_request_queue_hangs s :
  request_queue s ++ concat (env s) = [] →
  ∃ s', get_requests NoTimeout s = (Raise OutOfFuel, s').
Proof.
  intros Hn. unfold get_from_request_queue, first_items.
  destruct (queue_empty_spec s) as (s1 & He & Hc & Hp).
  rewrite (consumed_supply _ _ _ Hc) in Hn. simpl in Hn.
  destruct (get_forever_hangs (S (length (env s1))) s1 Hn) as [s' Hg].
  exists s'. apply bind_raise. rewrite (bind_ok _ _ _ _ _ He).
  rewrite (bind_ok get _ _ _ _ eq_refl).
  apply app_nil in Hn as [Hn _]. rewrite bool_decide_eq_true_2 by done. by apply bind_raise.
Qed.
End get_requests.

(** ** Enqueueing *)

(** [n] consecutive local ids from [a]. *)
Definition local_ids (a : Z) (n : nat) : list Z :=
  (λ i, (a + Z.of_nat i) `mod` 2 ^ 40) <$> seq 0 n.

(** The request brings its own id. *)
Definition own_id (r : ExecutorRequest) : option Z :=
  d ← disagg_request_id r; if d =? 0 then None else Some d.

(** The local ids given out for an item. *)
Definition issued (x : RequestQueueItem) : list Z :=
  (if bool_decide (is_Some (request x ≫= own_id)) then [] else [id x]) ++
  default [] (child_req_ids x).

(** The item stands for the request as it was handed in. *)
Record item_for (rq : ExecutorRequest * option (list Z)) (x : RequestQueueItem) : Prop := {
  item_request : request x = Some rq.1;
  item_query : query x = rq.2;
  item_own_id : ∀ d, own_id rq.1 = Some d → id x = d;
  item_children : Z.of_nat (length (default [] (child_req_ids x))) =
                  Z.max 0 (get_num_child_requests rq.1);
  item_uncanceled : is_canceled_request x = false;
}.

Lemma length_local_ids a n : length (local_ids a n) = n.
Proof. unfold local_ids. by rewrite length_fmap, length_seq. Qed.

Lemma local_ids_add a n m :
  local_ids a (n + m) = local_ids a n ++ local_ids ((a + Z.of_nat n) `mod` 2 ^ 40) m.
Proof.
  unfold local_ids. rewrite seq_app, fmap_app. f_equal.
  replace (seq (0 + n) m) with (Nat.add n <$> seq 0 m) by (rewrite fmap_add_seq; f_equal; lia).
  rewrite <- list_fmap_compose. apply list_fmap_ext. intros k i _. simpl.
  rewrite Z.add_mod_idemp_l by lia. f_equal. lia.
Qed.

Lemma local_ids_1 a : 0 ≤ a < 2 ^ 40 → local_ids a 1 = [a].
Proof. intros Ha. unfold local_ids. simpl. rewrite Z.add_0_r. by rewrite Z.mod_small. Qed.

Lemma local_ids_nodup a n : Z.of_nat n ≤ 2 ^ 40 → NoDup (local_ids a n).
Proof.
  intros Hn. apply NoDup_fmap_2_strong; [|apply NoDup_seq].
  intros i j Hi%elem_of_seq Hj%elem_of_seq Heq.
  assert (Hd : (Z.of_nat i - Z.of_nat j) `mod` 2 ^ 40 = 0).
  { replace (Z.of_nat i - Z.of_nat j) with ((a + Z.of_nat i) - (a + Z.of_nat j)) by lia.
    rewrite Zminus_mod, Heq, Z.sub_diag. done. }
  apply Z.mod_divide in Hd as [k Hk]; [|lia]. nia.
Qed.

Lemma local_id_range a : 0 ≤ get_local_request_id a < MIN_GLOBAL_ID.
Proof.
  unfold get_local_request_id, MIN_GLOBAL_ID. rewrite land_ones_shiftl by lia.
  apply Z.mod_pos_bound. done.
Qed.

(** The part of the state enqueueing has in hand: ids from [next_request_id],
    items to the back of the queue. *)
Record enqueued (s s' : ExecutorRequestQueue) (items : list RequestQueueItem) (n : nat) : Prop := {
  enqueued_queue : request_queue s' = request_queue s ++ items;
  enqueued_next : next_request_id s' = (next_request_id s + Z.of_nat n) `mod` 2 ^ 40;
  enqueued_env : env s' = env s;
  enqueued_active : active s' = active s;
}.

Lemma enqueued_refl s : 0 ≤ next_request_id s < 2 ^ 40 → enqueued s s [] 0.
Proof. intros. split; try done; [by rewrite app_nil_r|]. rewrite Z.mod_small; lia. Qed.

Lemma enqueued_trans s1 s2 s3 l1 l2 n m :
  enqueued s1 s2 l1 n → enqueued s2 s3 l2 m → enqueued s1 s3 (l1 ++ l2) (n + m).
Proof.
  intros [Hq1 Hn1 ? ?] [Hq2 Hn2 ? ?]. split; try congruence.
  - by rewrite Hq2, Hq1, (assoc_L (++)).
  - rewrite Hn2, Hn1, Z.add_mod_idemp_l by lia. f_equal. lia.
Qed.

Lemma enqueued_range s s' l n : enqueued s s' l n → 0 ≤ next_request_id s' < 2 ^ 40.
Proof. intros [_ -> _ _]. apply Z.mod_pos_bound. lia. Qed.

Lemma enqueued_start_times s m : 0 ≤ next_request_id s < 2 ^ 40 → enqueued s (with_start_times s m) [] 0.
Proof. intros H. destruct (enqueued_refl s H). by split. Qed.

Lemma enqueued_ticks s n : 0 ≤ next_request_id s < 2 ^ 40 → enqueued s (with_ticks s n) [] 0.
Proof. intros H. destruct (enqueued_refl s H). by split. Qed.

Lemma fresh_id_spec s :
  ∃ s', fresh_id s = (Ok (next_request_id s), s') ∧ enqueued s s' [] 1.
Proof.
  unfold fresh_id. mrun. eexists. split; [done|]. split; try done; cbn.
  - by rewrite app_nil_r.
  - unfold get_local_request_id. by rewrite (land_ones_shiftl _ 40) by lia.
Qed.

Section enqueue.
Context (stats : bool) (time : nat → float).

Lemma child_ids_loop_spec n acc s :
  0 ≤ next_request_id s < 2 ^ 40 →
  ∃ s', child_ids_loop stats time n acc s = (Ok (acc ++ local_ids (next_request_id s) n), s') ∧
        enqueued s s' [] n.
Proof.
  revert acc s. induction n as [|n IH]; intros acc s Hs; cbn [child_ids_loop].
  { exists s. rewrite app_nil_r. split; [done|]. by apply enqueued_refl. }
  destruct (fresh_id_spec s) as (s1 & Hf & H1). pose proof (enqueued_range _ _ _ _ H1) as R1.
  unfold _get_request_id. cbn [mbind option_bind]. rewrite (bind_ok _ _ _ _ _ Hf).
  assert (∃ s2, (if stats then t ← read_clock time; set_start_time (next_request_id s) t
                 else mret ()) s1 = (Ok (), s2) ∧ enqueued s1 s2 [] 0) as (s2 & H2 & E2).
  { destruct stats; [|exists s1; split; [done|by apply enqueued_refl]].
    eexists. split; [done|]. eapply (enqueued_trans _ _ _ [] [] 0 0);
      [apply (enqueued_ticks _ (S (ticks s1)) R1)|by apply enqueued_start_times]. }
  rewrite (bind_ok _ _ _ _ _ H2). pose proof (enqueued_trans _ _ _ _ _ _ _ H1 E2) as E12.
  destruct (IH (acc ++ [next_request_id s]) s2 (enqueued_range _ _ _ _ E12)) as (s' & -> & E3).
  exists s'. split; [|by apply (enqueued_trans _ _ _ _ _ _ _ E12 E3)].
  do 2 f_equal. rewrite <- (assoc_L (++)). f_equal. rewrite (enqueued_next _ _ _ _ E12).
  change (S n) with (1 + n)%nat. by rewrite local_ids_add, local_ids_1.
Qed.

Lemma enqueue_one_spec st r q s :
  0 ≤ next_request_id s < 2 ^ 40 →
  ∃ x s' n, enqueue_one stats time st r q s = (Ok (id x), s') ∧ enqueued s s' [x] n ∧
    item_for (r, q) x ∧ issued x = local_ids (next_request_id s) n.
Proof.
  intros Hs. unfold enqueue_one.
  assert (∃ i s1 n1, _get_request_id (Some r) s = (Ok i, s1) ∧ enqueued s s1 [] n1 ∧
    (∀ d, own_id r = Some d → i = d) ∧
    (if bool_decide (is_Some (own_id r)) then [] else [i]) = local_ids (next_request_id s) n1)
    as (i & s1 & n1 & H1 & E1 & Hown & Hi).
  { unfold _get_request_id, own_id. cbn [mbind option_bind].
    destruct (fresh_id_spec s) as (s1 & Hf & E1).
    destruct (disagg_request_id r) as [d|]; cbn [mbind option_bind]; [destruct (d =? 0)|].
    1,3: exists (next_request_id s), s1, 1%nat; rewrite local_ids_1 by done; by split_and!.
    exists d, s, 0%nat. split_and!; [done|by apply enqueued_refl|by intros ? [= ->]|done]. }
  rewrite (bind_ok _ _ _ _ _ H1). pose proof (enqueued_range _ _ _ _ E1) as R1.
  assert (∃ s2, (if stats then set_start_time i st else mret ()) s1 = (Ok (), s2) ∧
    enqueued s1 s2 [] 0) as (s2 & H2 & E2).
  { destruct stats; eexists; (split; [done|]); [by apply enqueued_start_times|by apply enqueued_refl]. }
  rewrite (bind_ok _ _ _ _ _ H2). pose proof (enqueued_trans _ _ _ _ _ _ _ E1 E2) as E12.
  pose proof (enqueued_range _ _ _ _ E12) as R2. rewrite Nat.add_0_r in E12.
  assert (∃ ch s3 n2, _generate_child_request_ids stats time r s2 = (Ok ch, s3) ∧
    enqueued s2 s3 [] n2 ∧ default [] ch = local_ids (next_request_id s2) n2 ∧
    Z.of_nat n2 = Z.max 0 (get_num_child_requests r)) as (ch & s3 & n2 & H3 & E3 & Hch & Hn2).
  { unfold _generate_child_request_ids. destruct (0 <? get_num_child_requests r) eqn:Hn.
    - destruct (child_ids_loop_spec (Z.to_nat (get_num_child_requests r)) [] s2 R2) as (s3 & Hl & E3).
      rewrite (bind_ok _ _ _ _ _ Hl). eexists _, s3, _. split_and!; [done..|]. lia.
    - exists None, s2, 0%nat. split_and!; [done|by apply enqueued_refl|done|lia]. }
  rewrite (bind_ok _ _ _ _ _ H3). unfold put_item. mrun.
  pose proof (enqueued_trans _ _ _ _ _ _ _ E12 E3) as [Hq Hnx He Ha].
  eexists {| id := i |}, _, (n1 + n2)%nat. split_and!; [done| | |].
  - split; cbn; [by rewrite Hq, app_nil_r|done..].
  - split; cbn; try done. by rewrite Hch, length_local_ids.
  - unfold issued. cbn. rewrite Hi, Hch, (enqueued_next _ _ _ _ E12). by rewrite local_ids_add.
Qed.

Lemma enqueue_loop_spec st rqs acc s :
  0 ≤ next_request_id s < 2 ^ 40 →
  ∃ items s' n, enqueue_loop stats time st rqs acc s = (Ok (acc ++ (id <$> items)), s') ∧
    enqueued s s' items n ∧ Forall2 item_for rqs items ∧
    items ≫= issued = local_ids (next_request_id s) n.
Proof.
  revert acc s. induction rqs as [|[r q] rqs IH]; intros acc s Hs; cbn [enqueue_loop].
  { exists [], s, 0%nat. rewrite app_nil_r. split_and!; [done|by apply enqueued_refl|done|done]. }
  destruct (enqueue_one_spec st r q s Hs) as (x & s1 & n1 & H1 & E1 & Hx & Hi1).
  rewrite (bind_ok _ _ _ _ _ H1).
  destruct (IH (acc ++ [id x]) s1 (enqueued_range _ _ _ _ E1)) as (items & s' & n & -> & E & Hf & Hi).
  exists (x :: items), s', (n1 + n)%nat. rewrite <- (assoc_L (++)).
  split_and!; [done|by apply (enqueued_trans _ _ _ _ _ _ _ E1 E)|by constructor|].
  rewrite local_ids_add, bind_cons, Hi1, Hi. by rewrite (enqueued_next _ _ _ _ E1).
Qed.
End enqueue.

(** ** Properties *)

(** [get_from_request_queue] is first in, first out across threads.
    Unless it is told to wait without limit while nothing is queued and
    nothing will come (then, and only then, it never returns), it returns
    items that, followed by what is left in the queue, are exactly what was
    queued followed by what other threads put meanwhile: nothing is lost,
    duplicated or reordered, whatever the waits and the batching time-out do.
    When something is queued at the call, or the call may not wait, everything
    queued at the call is returned, and an untimed call returns something. *)
Theorem requests_are_fetched_in_order (max_batch_size : Z) (batch_wait_timeout_ms : float)
    (monotonic : nat → float) (t : timeout) (s : ExecutorRequestQueue) :
  let call := get_from_request_queue max_batch_size batch_wait_timeout_ms monotonic t s in
  if bool_decide (request_queue s ++ concat (env s) = []) &&
     match t with NoTimeout => true | TimeoutSecs _ => false end
  then ∃ s', call = (Raise OutOfFuel, s')
  else ∃ items s' e,
    call = (Ok items, s') ∧
    env s = e ++ env s' ∧ request_queue s ++ concat e = items ++ request_queue s' ∧
    next_request_id s' = next_request_id s ∧ start_times s' = start_times s ∧
    active s' = active s ∧
    (may_wait t = false ∨ request_queue s ≠ [] → request_queue s `prefix_of` items) ∧
    (t = NoTimeout → items ≠ []).
Proof.
  simpl. destruct (bool_decide _ && _)%bool eqn:Hb.
  - apply andb_prop in Hb as [Hb%bool_decide_eq_true Ht]. destruct t; [|done].
    by apply get_from_request_queue_hangs.
  - destruct (get_from_request_queue_spec max_batch_size batch_wait_timeout_ms monotonic t s)
      as (items & s' & -> & [(e & He & Hq) ? ? ?] & ? & ?); [|by exists items, s', e].
    intros -> Hn. by rewrite bool_decide_eq_true_2 in Hb.
Qed.

(** [enqueue_requests] and [enqueue_request] number requests uniquely.
    On a queue that is still active the call puts one item per request at the
    back of the queue, in order, with the request, the query and as many child
    ids as the sampling configuration asks for, and returns the ids of the
    items.  A request that brings a disaggregated id keeps it; all other ids,
    children included, are consecutive local ids, so that up to [2^40] of them
    are distinct and below every disaggregated id.  After
    [enqueue_shutdown_request] the call raises [AssertionError] and changes
    nothing. *)
Theorem enqueue_numbers_requests (stats : bool) (time : nat → float)
    (rqs : list (ExecutorRequest * option (list Z))) (s : ExecutorRequestQueue) :
  0 ≤ next_request_id s < MIN_GLOBAL_ID →
  if active s then
    ∃ items s' n,
      _enqueue_impl stats time rqs s = (Ok (id <$> items), s') ∧
      request_queue s' = request_queue s ++ items ∧
      Forall2 item_for rqs items ∧
      items ≫= issued = local_ids (next_request_id s) n ∧
      (Z.of_nat n ≤ MIN_GLOBAL_ID → NoDup (items ≫= issued)) ∧
      Forall (λ i, 0 ≤ i < MIN_GLOBAL_ID) (items ≫= issued) ∧
      0 ≤ next_request_id s' < MIN_GLOBAL_ID ∧ active s' = true
  else _enqueue_impl stats time rqs s = (Raise AssertionError, s).
Proof.
  change MIN_GLOBAL_ID with (2 ^ 40). intros Hs.
  destruct (active s) eqn:Ha; [|unfold _enqueue_impl; mrun; by rewrite Ha].
  destruct (enqueue_loop_spec stats time (time (ticks s)) rqs [] (with_ticks s (S (ticks s))))
    as (items & s' & n & Heq & E & Hf & Hi); [done|].
  exists items, s', n. rewrite Hi.
  assert (Hrun : _enqueue_impl stats time rqs s = (Ok (id <$> items), s')).
  { unfold _enqueue_impl, read_clock. mrun. rewrite Ha. exact Heq. }
  pose proof (enqueued_range _ _ _ _ E).
  split_and!; [done|by rewrite (enqueued_queue _ _ _ _ E)|done|done| | |lia|lia|].
  - apply local_ids_nodup.
  - unfold local_ids. rewrite Forall_fmap. apply Forall_true. intros i. cbn.
    apply Z.mod_pos_bound. lia.
  - rewrite (enqueued_active _ _ _ _ E). done.
Qed.

(** C40: disaggregated request ids.  For nodes, processes and clocks in range
    (the clock runs 17 years before it leaves it) the id lies in the global
    space, above every local id and within 63 bits, and two ids are equal
    exactly when they come from the same millisecond, node and process and
    from counter values equal modulo 1024.  A node or process out of range
    raises [ValueError] and uses up no counter value. *)
Theorem disagg_ids_are_unique (now1 now2 n1 n2 p1 p2 s1 s2 : Z) :
  0 ≤ now1 < 2 ^ 39 - 2 ^ 16 - 1 → 0 ≤ now2 < 2 ^ 39 - 2 ^ 16 - 1 →
  0 ≤ n2 < 2 ^ 8 → 0 ≤ p2 < 2 ^ 6 →
  if bool_decide (0 ≤ n1 < 2 ^ 8 ∧ 0 ≤ p1 < 2 ^ 6) then
    ∃ g1 g2,
      get_global_disagg_request_id now1 n1 p1 s1 = (Ok g1, s1 + 1) ∧
      get_global_disagg_request_id now2 n2 p2 s2 = (Ok g2, s2 + 1) ∧
      MIN_GLOBAL_ID ≤ g1 < MAX_INT64 ∧
      (∀ last, 0 ≤ get_local_request_id last < g1) ∧
      (g1 = g2 ↔ now1 = now2 ∧ n1 = n2 ∧ p1 = p2 ∧ s1 `mod` 1024 = s2 `mod` 1024)
  else get_global_disagg_request_id now1 n1 p1 s1 = (Raise ValueError, s1).
Proof.
  intros H1 H2 Hn2 Hp2. case_bool_decide as Hr.
  - destruct Hr as [Hn1 Hp1]. rewrite !get_global_id_value by done.
    rewrite !(Z.mod_small _ (2 ^ 39)) by lia. change 1024 with (2 ^ 10).
    pose proof (Z.mod_pos_bound s1 (2 ^ 10) ltac:(lia)).
    pose proof (Z.mod_pos_bound s2 (2 ^ 10) ltac:(lia)).
    set (c1 := s1 `mod` 2 ^ 10) in *. set (c2 := s2 `mod` 2 ^ 10) in *.
    rewrite !(Z.mod_small _ (2 ^ 63 - 1 - 2 ^ 40)) by lia.
    change MIN_GLOBAL_ID with (2 ^ 40). change MAX_INT64 with (2 ^ 63 - 1).
    eexists _, _. split_and!; [done|done|lia|lia| |lia].
    intros last. pose proof (local_id_range last). change MIN_GLOBAL_ID with (2 ^ 40) in *. lia.
  - unfold get_global_disagg_request_id.
    change (Z.shiftl 1 DISAGG_NODE_ID_BITS) with (2 ^ 8).
    change (Z.shiftl 1 DISAGG_PROCESS_ID_BITS) with (2 ^ 6).
    destruct ((0 <=? n1) && (n1 <? 2 ^ 8))%bool eqn:E1; [|done]. cbn [negb].
    destruct ((0 <=? p1) && (p1 <? 2 ^ 6))%bool eqn:E2; [|done]. destruct Hr. lia.
Qed.

(** At the end of the range the reduction modulo the size of the id space
    wraps onto the first id. *)
Example disagg_ids_wrap :
  (get_global_disagg_request_id (2 ^ 39 - 2 ^ 16 - 1) 255 63 1023).1 =
  (get_global_disagg_request_id 0 0 0 0).1.
Proof. vm_compute. reflexivity. Qed.

(** A request with two children, then one with a disaggregated id, on a queue
    whose next local id is the last one before the wrap. *)
Definition demo_request (d n : option Z) : ExecutorRequest :=
  {| priority := DEFAULT_REQUEST_PRIORITY; num_input_tokens := Some 4; input_token_ids := [];
     py_scheduling_params := None; conversation_id := None; disagg_request_id := d;
     sampling_beam_width := 1; num_return_sequences := n |}.

Lemma enqueue_numbers_requests_witness :
  let s := with_next_id (erq_init 8 []) (2 ^ 40 - 1) in
  ∃ items s', _enqueue_impl true (λ _, float_0)
      [(demo_request None (Some 3), None); (demo_request (Some (2 ^ 41)) None, None)] s =
      (Ok (id <$> items), s') ∧
    (id <$> items) = [2 ^ 40 - 1; 2 ^ 41] ∧ (items ≫= issued) = [2 ^ 40 - 1; 0; 1].
Proof.
  intros s.
  destruct (enqueue_numbers_requests true (λ _, float_0)
    [(demo_request None (Some 3), None); (demo_request (Some (2 ^ 41)) None, None)] s)
    as (items & s' & n & Heq & Hq & _); [vm_compute; split; [discriminate|reflexivity]|].
  exists items, s'. split; [exact Heq|].
  assert (items = request_queue (_enqueue_impl true (λ _, float_0)
    [(demo_request None (Some 3), None); (demo_request (Some (2 ^ 41)) None, None)] s).2) as ->
    by (rewrite Heq; simpl; rewrite Hq; reflexivity).
  vm_compute. split; reflexivity.
Defined.

Lemma disagg_ids_are_unique_witness :
  ∃ g1 g2, get_global_disagg_request_id 1000 3 1 5 = (Ok g1, 6) ∧
    get_global_disagg_request_id 1000 3 1 1029 = (Ok g2, 1030) ∧ g1 = g2.
Proof.
  destruct (disagg_ids_are_unique 1000 1000 3 3 1 1 5 1029) as (g1 & g2 & H1 & H2 & _ & _ & Heq);
    [lia..|].
  exists g1, g2. split; [exact H1|]. split; [exact H2|]. apply Heq. repeat split.
Defined.
