(* ===== verification/Intake.v ===== *)
(** * Request intake of the executor ([py_executor.py])

    The part of [PyExecutor] between the executor request queue and the
    active requests: fetching and broadcasting new items, sorting out
    shutdown, cancel and control items, admission from the waiting queue with
    the benchmark ramp, firing control actions and cancelling requests.

    The active requests belong to the rest of the loop: operations that only
    count them take the count, cancellation takes the list.  What a rank other
    than 0 receives from the broadcast is an argument.  The KV-cache
    transceiver is compiled code; what cancellation asks of it is the record
    [Transceiver]. *)

From S2P Require Import Prelude PySort Requests PyFloat WaitingQueue Admission RequestQueue.

Local Open Scope Z_scope.

(** ** State *)

Record PyExecutor (Q : Type) := mkPyExecutor {
  waiting_queue : Q;
  executor_request_queue : ExecutorRequestQueue;
  control_requests : list RequestQueueItem;
  canceled_req_ids : list Z;
  request_accumulated : list RequestQueueItem;
  is_shutdown : bool;
  benchmark_fill_phase_active : bool;
  fill_admit_cap : Z;
  num_fetch_requests : Z;
  sleep_wakeup_pending_aborts : gmap string string;
}.
Arguments mkPyExecutor {Q}.
Arguments waiting_queue {Q}.
Arguments executor_request_queue {Q}.
Arguments control_requests {Q}.
Arguments canceled_req_ids {Q}.
Arguments request_accumulated {Q}.
Arguments is_shutdown {Q}.
Arguments benchmark_fill_phase_active {Q}.
Arguments fill_admit_cap {Q}.
Arguments num_fetch_requests {Q}.
Arguments sleep_wakeup_pending_aborts {Q}.

(** The fields of the constructor the operations below read. *)
Record ExecutorConfig := {
  rank : Z;
  tp_size : Z;
  enable_attention_dp : bool;
  max_num_active_requests : Z;
  disable_mpi : bool;
  is_benchmark_disagg : bool;
  is_warmup : bool;
  max_batch_size : Z;
  batch_wait_timeout_ms : float;
  monotonic : nat → float;
}.

(** What cancellation reads and writes of an active [LlmRequest]. *)
Record ActiveRequest := {
  ar_request_id : Z;
  ar_is_child : bool;
  ar_parent_request_id : Z;
  ar_cancelled : bool;
  ar_kv_transfer_timed_out : bool;
  ar_decoding_iter : Z;
  ar_py_decoding_iter : Z;
  ar_state : LlmRequestState;
  ar_is_context_only : bool;
}.

(** The KV-cache transceiver as cancellation sees it: whether transfers in
    flight can be cancelled, the ids in an asynchronous transfer, and what
    [cancel_request] answers (an exception counts as [False]). *)
Record Transceiver := {
  inflight_cancel_active : bool;
  requests_in_transfer : gset Z;
  cancel_request : ActiveRequest → bool;
}.

(** How [_handle_control_request] ends. *)
Inductive control_outcome :=
| NoControl
| Parked
| Aborted (c : RequestQueueItem)
| Fired (c : RequestQueueItem).

(** [datetime.timedelta(0)] and [datetime.timedelta(seconds=1200)] *)
Definition timeout_0 : timeout := TimeoutSecs float_0.
Definition timeout_1200 : timeout := TimeoutSecs (S754_finite false 5277655813324800 (-42)).

Section intake.
Context {Q : Type} `{!WaitingQueue Q} (self : ExecutorConfig).
#[local] Abbreviation PyEx := (PyExecutor Q).

Definition set_waiting (s : PyEx) (q : Q) : PyEx :=
  mkPyExecutor q (executor_request_queue s) (control_requests s) (canceled_req_ids s)
    (request_accumulated s) (is_shutdown s) (benchmark_fill_phase_active s)
    (fill_admit_cap s) (num_fetch_requests s) (sleep_wakeup_pending_aborts s).
Definition set_erq (s : PyEx) (e : ExecutorRequestQueue) : PyEx :=
  mkPyExecutor (waiting_queue s) e (control_requests s) (canceled_req_ids s)
    (request_accumulated s) (is_shutdown s) (benchmark_fill_phase_active s)
    (fill_admit_cap s) (num_fetch_requests s) (sleep_wakeup_pending_aborts s).
Definition set_control (s : PyEx) (l : list RequestQueueItem) : PyEx :=
  mkPyExecutor (waiting_queue s) (executor_request_queue s) l (canceled_req_ids s)
    (request_accumulated s) (is_shutdown s) (benchmark_fill_phase_active s)
    (fill_admit_cap s) (num_fetch_requests s) (sleep_wakeup_pending_aborts s).
Definition set_canceled (s : PyEx) (l : list Z) : PyEx :=
  mkPyExecutor (waiting_queue s) (executor_request_queue s) (control_requests s) l
    (request_accumulated s) (is_shutdown s) (benchmark_fill_phase_active s)
    (fill_admit_cap s) (num_fetch_requests s) (sleep_wakeup_pending_aborts s).
Definition set_accumulated (s : PyEx) (l : list RequestQueueItem) : PyEx :=
  mkPyExecutor (waiting_queue s) (executor_request_queue s) (control_requests s)
    (canceled_req_ids s) l (is_shutdown s) (benchmark_fill_phase_active s)
    (fill_admit_cap s) (num_fetch_requests s) (sleep_wakeup_pending_aborts s).
Definition set_shutdown (s : PyEx) : PyEx :=
  mkPyExecutor (waiting_queue s) (executor_request_queue s) (control_requests s)
    (canceled_req_ids s) (request_accumulated s) true (benchmark_fill_phase_active s)
    (fill_admit_cap s) (num_fetch_requests s) (sleep_wakeup_pending_aborts s).
Definition set_fill_cap (s : PyEx) (n : Z) : PyEx :=
  mkPyExecutor (waiting_queue s) (executor_request_queue s) (control_requests s)
    (canceled_req_ids s) (request_accumulated s) (is_shutdown s)
    (benchmark_fill_phase_active s) n (num_fetch_requests s) (sleep_wakeup_pending_aborts s).
Definition set_num_fetch (s : PyEx) (n : Z) : PyEx :=
  mkPyExecutor (waiting_queue s) (executor_request_queue s) (control_requests s)
    (canceled_req_ids s) (request_accumulated s) (is_shutdown s)
    (benchmark_fill_phase_active s) (fill_admit_cap s) n (sleep_wakeup_pending_aborts s).
Definition set_aborts (s : PyEx) (m : gmap string string) : PyEx :=
  mkPyExecutor (waiting_queue s) (executor_request_queue s) (control_requests s)
    (canceled_req_ids s) (request_accumulated s) (is_shutdown s)
    (benchmark_fill_phase_active s) (fill_admit_cap s) (num_fetch_requests s) m.

(** A call on the waiting queue, or on the request queue, of the executor. *)
Definition on_waiting {A} (m : M Q A) : M PyEx A := λ s,
  let '(a, q) := m (waiting_queue s) in (a, set_waiting s q).
Definition on_erq {A} (m : M ExecutorRequestQueue A) : M PyEx A := λ s,
  let '(a, e) := m (executor_request_queue s) in (a, set_erq s e).

(** ** Fetching *)

(** The [for] loop of [_handle_special_queue_items]; the tail of the list is
    [new_requests[idx + 1:]]. *)
Fixpoint handle_special_loop (new_requests accepted : list RequestQueueItem) :
    M PyEx (list RequestQueueItem) :=
  match new_requests with
  | [] => mret accepted
  | req_item :: rest =>
      if is_shutdown_request req_item then modify set_shutdown;; mret accepted
      else if is_canceled_request req_item then
        modify (λ s, set_canceled s (canceled_req_ids s ++ [id req_item]));;
        handle_special_loop rest accepted
      else if is_control_request req_item then
        modify (λ s, set_control s (control_requests s ++ [req_item]));;
        (if rank self =? 0
         then modify (λ s, set_accumulated s (request_accumulated s ++ rest))
         else mret ());;
        mret accepted
      else handle_special_loop rest (accepted ++ [req_item])
  end.

Definition _handle_special_queue_items (new_requests : list RequestQueueItem) :
    M PyEx (list RequestQueueItem) :=
  handle_special_loop new_requests [].

(** How long to wait for the first item. *)
Definition fetch_timeout (total_num_active_requests : Z) (s : PyEx) : timeout :=
  if (total_num_active_requests =? 0) && (queue_len (waiting_queue s) =? 0)%nat
  then if disable_mpi self then timeout_1200 else NoTimeout
  else timeout_0.

(** What rank 0 has to hand out: the items set aside behind a control
    request, then the request queue. *)
Definition gather_new_requests (total_num_active_requests : Z) :
    M PyEx (list RequestQueueItem) :=
  s ← get;
  let t := fetch_timeout total_num_active_requests s in
  if rank self =? 0 then
    let accumulated := request_accumulated s in
    let t := match accumulated with [] => t | _ => timeout_0 end in
    put (set_accumulated s []);;
    fetched ← on_erq (get_from_request_queue (max_batch_size self)
                        (batch_wait_timeout_ms self) (monotonic self) t);
    mret (accumulated ++ fetched)
  else mret [].

(** [request_broadcaster.broadcast]: rank 0 keeps its list, the other ranks
    get what they receive. *)
Definition broadcast (new_requests received : list RequestQueueItem) : list RequestQueueItem :=
  if rank self =? 0 then new_requests else received.

Definition _fetch_and_enqueue_requests (received : list RequestQueueItem)
    (total_num_active_requests : Z) : M PyEx () :=
  s ← get;
  match control_requests s with
  | _ :: _ => mret ()
  | [] =>
      new_requests ← gather_new_requests total_num_active_requests;
      let new_requests := broadcast new_requests received in
      new_requests ← _handle_special_queue_items new_requests;
      modify (λ s, set_waiting s (add_requests new_requests (waiting_queue s)))
  end.

(** ** Admission *)

Definition _get_request_admission_capacity : Z :=
  if enable_attention_dp self then tp_size self * max_num_active_requests self
  else max_num_active_requests self.

(** The new value of [benchmark_req_queues_size]. *)
Definition _configure_benchmark_req_queues_size (requested_fill_target : Z) : Z :=
  Z.min requested_fill_target _get_request_admission_capacity.

(** The slow-start ramp of the benchmark fill phase. *)
Definition next_fill_admit_cap (s : PyEx) : Z :=
  if fill_admit_cap s =? 0 then tp_size self
  else Z.min (fill_admit_cap s * 2) _get_request_admission_capacity.

Definition _pop_from_waiting_queue (total_num_active_requests : Z)
    (all_ranks_num_active_requests : list Z) : M PyEx (list RequestQueueItem) :=
  let admission_capacity := _get_request_admission_capacity in
  let max_new_requests := admission_capacity - total_num_active_requests in
  s ← get;
  max_new_requests ←
    (if is_benchmark_disagg self && benchmark_fill_phase_active s && negb (is_warmup self)
     then let cap := next_fill_admit_cap s in
          put (set_fill_cap s cap);; mret (Z.min max_new_requests cap)
     else mret max_new_requests);
  on_waiting (get_from_waiting_queue max_new_requests (enable_attention_dp self)
                (max_num_active_requests self) all_ranks_num_active_requests).

(** [_fetch_new_requests] up to the routing over ranks: [num_active] is
    [len(active_requests)], [all_ranks_num_active_requests] what the ranks
    report under attention DP. *)
Definition _fetch_new_requests (received : list RequestQueueItem) (num_active : Z)
    (all_ranks_num_active_requests : list Z) : M PyEx (list RequestQueueItem) :=
  let total_num_active_requests :=
    if enable_attention_dp self then zsum all_ranks_num_active_requests else num_active in
  _fetch_and_enqueue_requests received total_num_active_requests;;
  new_requests ← _pop_from_waiting_queue total_num_active_requests
                   (if enable_attention_dp self then all_ranks_num_active_requests else []);
  modify (λ s, set_num_fetch s (num_fetch_requests s + Z.of_nat (length new_requests)));;
  mret new_requests.

Definition should_stop_processing (num_active : Z) (s : PyEx) : bool :=
  is_shutdown s && (num_active =? 0) && (queue_len (waiting_queue s) =? 0)%nat.

(** ** Control actions *)

Definition _record_sleep_wakeup_abort (cid error_msg : string) : M PyEx () :=
  modify (λ s, set_aborts s (<[cid := error_msg]> (sleep_wakeup_pending_aborts s))).

Definition _pop_sleep_wakeup_abort (cid : option string) : M PyEx (option string) :=
  match cid with
  | None => mret None
  | Some c =>
      s ← get;
      put (set_aborts s (delete c (sleep_wakeup_pending_aborts s)));;
      mret (sleep_wakeup_pending_aborts s !! c)
  end.

Definition _handle_control_request (num_active : Z) : M PyEx control_outcome :=
  s ← get;
  match control_requests s with
  | [] => mret NoControl
  | pending :: others =>
      assert_ (bool_decide (length (control_requests s) = 1%nat));;
      if control_requires_drain pending &&
         (negb (num_active =? 0) || negb (queue_len (waiting_queue s) =? 0)%nat)
      then mret Parked
      else
        put (set_control s others);;
        pending_abort ← _pop_sleep_wakeup_abort (control_id pending);
        match pending_abort with
        | Some _ => mret (Aborted pending)
        | None => mret (Fired pending)
        end
  end.

(** ** Cancellation *)

Definition cancel_id (r : ActiveRequest) : Z :=
  if ar_is_child r then ar_parent_request_id r else ar_request_id r.

Definition mark_cancelled (r : ActiveRequest) : ActiveRequest :=
  {| ar_request_id := ar_request_id r; ar_is_child := ar_is_child r;
     ar_parent_request_id := ar_parent_request_id r; ar_cancelled := true;
     ar_kv_transfer_timed_out := false; ar_decoding_iter := ar_py_decoding_iter r;
     ar_py_decoding_iter := ar_py_decoding_iter r; ar_state := ar_state r;
     ar_is_context_only := ar_is_context_only r |}.

Definition _is_request_in_transmission (r : ActiveRequest) : bool :=
  bool_decide (ar_state r = DISAGG_CONTEXT_TRANS_IN_PROGRESS) ||
  bool_decide (ar_state r = DISAGG_GENERATION_TRANS_IN_PROGRESS).

(** The answer, and whether the transceiver was asked to cancel. *)
Definition _try_cancel_request (kv_cache_transceiver : option Transceiver)
    (r : ActiveRequest) : bool * bool :=
  match kv_cache_transceiver with
  | None => (true, false)
  | Some tr =>
      if ar_is_context_only r && bool_decide (ar_request_id r ∈ requests_in_transfer tr)
      then (false, inflight_cancel_active tr)
      else if negb (_is_request_in_transmission r) then (true, false)
      else if inflight_cancel_active tr then (false, true)
      else (cancel_request tr r, true)
  end.

(** The [for] loop over the active requests: the requests after it,
    [still_pending_canceled_ids], and the requests the transceiver was asked
    to cancel. *)
Fixpoint cancel_loop (kv_cache_transceiver : option Transceiver) (canceled : gset Z)
    (l : list ActiveRequest) : list ActiveRequest * list Z * list ActiveRequest :=
  match l with
  | [] => ([], [], [])
  | r :: l =>
      let '(l', pending, asked) := cancel_loop kv_cache_transceiver canceled l in
      if negb (bool_decide (cancel_id r ∈ canceled)) then (r :: l', pending, asked)
      else
        let '(is_cancelled, ask) := _try_cancel_request kv_cache_transceiver r in
        let asked := if ask : bool then r :: asked else asked in
        if is_cancelled then (mark_cancelled r :: l', pending, asked)
        else (r :: l', cancel_id r :: pending, asked)
  end.

Definition _handle_canceled_requests (kv_cache_transceiver : option Transceiver)
    (active_requests : list ActiveRequest) :
    M PyEx (list ActiveRequest * list ActiveRequest) :=
  s ← get;
  match canceled_req_ids s with
  | [] => mret (active_requests, [])
  | ids =>
      let canceled_req_ids_set : gset Z := list_to_set ids in
      modify (λ s, set_waiting s (remove_by_ids canceled_req_ids_set (waiting_queue s)));;
      let '(active_requests, still_pending_canceled_ids, asked) :=
        cancel_loop kv_cache_transceiver canceled_req_ids_set active_requests in
      modify (λ s, set_canceled s still_pending_canceled_ids);;
      mret (active_requests, asked)
  end.
End intake.
