(* ===== verification/IntakeProps.v ===== *)
(** * Request intake: proofs

    What one fetch does with the items it gets, that a control request is a
    barrier, what cancellation reaches, and that all ranks make the same
    decisions. *)

From S2P Require Import Prelude PySort Requests PyFloat WaitingQueue Admission RequestQueue.
From S2P Require Import RequestQueueProps Intake.

Local Open Scope Z_scope.

(** ** Special items *)

(** The item ends the batch: shutdown, or a control request. *)
Definition stops (x : RequestQueueItem) : bool :=
  is_shutdown_request x || negb (is_canceled_request x) && is_control_request x.

(** A batch up to the first item that ends it. *)
Fixpoint upto_stop (l : list RequestQueueItem) : list RequestQueueItem :=
  match l with
  | [] => []
  | x :: l => if stops x then [] else x :: upto_stop l
  end.

(** The rest, from the item that ends it. *)
Fixpoint from_stop (l : list RequestQueueItem) : list RequestQueueItem :=
  match l with
  | [] => []
  | x :: l' => if stops x then l else from_stop l'
  end.

Definition normals (l : list RequestQueueItem) : list RequestQueueItem :=
  filter (λ x, is_canceled_request x = false) l.
Definition cancels (l : list RequestQueueItem) : list Z :=
  id <$> filter (λ x, is_canceled_request x = true) l.

Lemma upto_from_stop l : l = upto_stop l ++ from_stop l.
Proof. induction l as [|x l IH]; simpl; [done|]. destruct (stops x); simpl; congruence. Qed.

Lemma upto_stop_none l : Forall (λ x, stops x = false) (upto_stop l).
Proof. induction l as [|x l IH]; simpl; [done|]. destruct (stops x) eqn:?; by constructor. Qed.

Lemma from_stop_head l c rest : from_stop l = c :: rest → stops c = true.
Proof.
  induction l as [|x l IH]; simpl; [done|].
  destruct (stops x) eqn:?; [by intros [= <- _]|done].
Qed.

(** Accepted items are normal requests. *)
Lemma normals_normal l : Forall (λ x, stops x = false) l →
  Forall (λ x, is_normal_request x = true) (normals l).
Proof.
  intros Hl. apply Forall_forall. intros x [Hx Hin]%list_elem_of_filter.
  rewrite Forall_forall in Hl. specialize (Hl x Hin). unfold stops, is_normal_request in *.
  rewrite Hx in *. simpl in *. by destruct (is_shutdown_request x), (is_control_request x).
Qed.

Section intake_props.
Context `{WaitingQueueSpec Q queue_wf before} (self : ExecutorConfig).
Implicit Types (s : PyExecutor Q) (l : list RequestQueueItem).

(** What the item that ends the batch does to the executor. *)
Definition apply_stop (post : list RequestQueueItem) s : PyExecutor Q :=
  match post with
  | [] => s
  | c :: rest =>
      if is_shutdown_request c then set_shutdown s
      else let s := set_control s (control_requests s ++ [c]) in
           if rank self =? 0 then set_accumulated s (request_accumulated s ++ rest) else s
  end.

Lemma handle_special_loop_spec l acc s :
  handle_special_loop self l acc s =
  (Ok (acc ++ normals (upto_stop l)),
   apply_stop (from_stop l) (set_canceled s (canceled_req_ids s ++ cancels (upto_stop l)))).
Proof.
  revert acc s. induction l as [|x l IH]; intros acc s; cbn [handle_special_loop upto_stop from_stop].
  { unfold normals, cancels. simpl. rewrite !app_nil_r. by destruct s. }
  unfold stops. destruct (is_shutdown_request x) eqn:Hs.
  { simpl. rewrite Hs, !app_nil_r. by destruct s. }
  destruct (is_canceled_request x) eqn:Hc; simpl.
  { mrun. rewrite IH. unfold normals, cancels. rewrite !filter_cons, Hc. simpl.
    by rewrite <- (assoc_L (++)). }
  destruct (is_control_request x); simpl.
  - rewrite Hs, !app_nil_r. mrun. by destruct (rank self =? 0), s.
  - rewrite IH. unfold normals, cancels. rewrite !filter_cons, Hc. simpl.
    by rewrite <- (assoc_L (++)).
Qed.

(** ** Fetching on rank 0 *)

(** There is something to fetch, or the fetch may return empty-handed. *)
Definition fetch_returns (total : Z) s : Prop :=
  fetch_timeout self total s = NoTimeout →
  request_accumulated s ≠ [] ∨
  request_queue (executor_request_queue s) ++ concat (env (executor_request_queue s)) ≠ [].

Lemma gather_spec total s :
  rank self = 0 → fetch_returns total s →
  ∃ fetched e', gather_new_requests self total s =
      (Ok (request_accumulated s ++ fetched), set_erq (set_accumulated s []) e') ∧
    consumed (executor_request_queue s) e' fetched.
Proof.
  intros Hr Hret. unfold gather_new_requests. mrun. rewrite (proj2 (Z.eqb_eq _ _) Hr).
  set (t := match request_accumulated s with [] => _ | _ => _ end).
  destruct (get_from_request_queue_spec (max_batch_size self) (batch_wait_timeout_ms self)
    (monotonic self) t (executor_request_queue s)) as (items & e' & Hg & Hc & _).
  { unfold t. intros Ht. destruct (request_accumulated s) eqn:Ha; [|done].
    destruct (Hret Ht); [by destruct Ha|done]. }
  exists items, e'. split; [|done]. unfold on_erq. cbn [executor_request_queue set_accumulated].
  by rewrite Hg.
Qed.

(** The state after one fetch that found [new] to hand out. *)
Definition after_fetch (new : list RequestQueueItem) s : PyExecutor Q :=
  let s := apply_stop (from_stop new)
             (set_canceled s (canceled_req_ids s ++ cancels (upto_stop new))) in
  set_waiting s (add_requests (normals (upto_stop new)) (waiting_queue s)).

Lemma fetch_pending received total s :
  control_requests s ≠ [] → _fetch_and_enqueue_requests self received total s = (Ok (), s).
Proof. intros Hc. unfold _fetch_and_enqueue_requests. mrun. by destruct (control_requests s). Qed.

Lemma fetch_gathered received total s new s1 :
  control_requests s = [] → gather_new_requests self total s = (Ok new, s1) →
  _fetch_and_enqueue_requests self received total s =
    (Ok (), after_fetch (broadcast self new received) s1).
Proof.
  intros Hc Hg. unfold _fetch_and_enqueue_requests. mrun. rewrite Hc, Hg.
  unfold _handle_special_queue_items. by rewrite handle_special_loop_spec.
Qed.

(** ** Control requests *)

Lemma handle_control_spec n s :
  (length (control_requests s) ≤ 1)%nat →
  ∃ o s', _handle_control_request n s = (Ok o, s') ∧
    waiting_queue s' = waiting_queue s ∧ request_accumulated s' = request_accumulated s ∧
    executor_request_queue s' = executor_request_queue s ∧
    canceled_req_ids s' = canceled_req_ids s ∧ is_shutdown s' = is_shutdown s ∧
    match o with
    | NoControl => control_requests s = [] ∧ s' = s
    | Parked => s' = s ∧ ∃ c, control_requests s = [c] ∧ control_requires_drain c = true ∧
                  (n ≠ 0 ∨ queue_len (waiting_queue s) ≠ 0%nat)
    | Aborted c | Fired c =>
        control_requests s = [c] ∧ control_requests s' = [] ∧
        (control_requires_drain c = true → n = 0 ∧ queue_len (waiting_queue s) = 0%nat)
    end.
Proof.
  intros Hlen. unfold _handle_control_request. mrun.
  destruct (control_requests s) as [|c others] eqn:Hc; [by exists NoControl, s|].
  destruct others; [|simpl in Hlen; lia].
  rewrite bool_decide_eq_true_2 by (by rewrite ?Hc).
  destruct (control_requires_drain c && _)%bool eqn:Hd.
  - apply andb_prop in Hd as [Hdr Hd].
    exists Parked, s. split_and!; try done. exists c. split_and!; [done..|].
    apply orb_prop in Hd as [Hd|Hd]; apply negb_true_iff in Hd;
      [left; lia|right]. by apply Nat.eqb_neq.
  - assert (Hdr : control_requires_drain c = true → n = 0 ∧ queue_len (waiting_queue s) = 0%nat).
    { intros E. rewrite E in Hd. simpl in Hd. apply orb_false_elim in Hd as [H1 H2].
      apply negb_false_iff in H1, H2. split; [lia|by apply Nat.eqb_eq]. }
    unfold _pop_sleep_wakeup_abort. destruct (control_id c) as [cid|]; [|by exists (Fired c), (set_control s [])].
    mrun. destruct (_ !! cid); [eexists (Aborted c), _|eexists (Fired c), _]; by split_and!.
Qed.

(** ** Admission *)

(** The budget of one call, and the executor after the ramp moved on. *)
Definition pop_budget (total : Z) s : Z * PyExecutor Q :=
  let free := _get_request_admission_capacity self - total in
  if is_benchmark_disagg self && benchmark_fill_phase_active s && negb (is_warmup self)
  then (Z.min free (next_fill_admit_cap self s), set_fill_cap s (next_fill_admit_cap self s))
  else (free, s).

Lemma pop_unfold total counts s :
  _pop_from_waiting_queue self total counts s =
  let '(budget, s1) := pop_budget total s in
  let '(o, q) := get_from_waiting_queue budget (enable_attention_dp self)
                   (max_num_active_requests self) counts (waiting_queue s) in
  (o, set_waiting s1 q).
Proof.
  unfold _pop_from_waiting_queue, pop_budget, on_waiting. mrun.
  by destruct (_ && _ && _)%bool.
Qed.

(** ** Cancellation *)

(** What one active request looks like after [_handle_canceled_requests]. *)
Definition after_cancel (tr : option Transceiver) (ids : list Z) (r : ActiveRequest) :
    ActiveRequest :=
  if bool_decide (cancel_id r ∈ ids) && (_try_cancel_request tr r).1
  then mark_cancelled r else r.

(** The request has to wait for its transfer. *)
Definition cancel_deferred (tr : option Transceiver) (ids : list Z) (r : ActiveRequest) : Prop :=
  cancel_id r ∈ ids ∧ (_try_cancel_request tr r).1 = false.
#[export] Instance cancel_deferred_dec tr ids r : Decision (cancel_deferred tr ids r).
Proof. unfold cancel_deferred. apply _. Defined.

(** The transceiver is asked to stop its transfer. *)
Definition cancel_asked (tr : option Transceiver) (ids : list Z) (r : ActiveRequest) : Prop :=
  cancel_id r ∈ ids ∧ (_try_cancel_request tr r).2 = true.
#[export] Instance cancel_asked_dec tr ids r : Decision (cancel_asked tr ids r).
Proof. unfold cancel_asked. apply _. Defined.

Lemma cancel_loop_spec tr ids active :
  cancel_loop tr (list_to_set ids) active =
  (after_cancel tr ids <$> active, cancel_id <$> filter (cancel_deferred tr ids) active,
   filter (cancel_asked tr ids) active).
Proof.
  induction active as [|r l IH]; [done|]. cbn [cancel_loop]. rewrite IH, fmap_cons, !filter_cons. clear IH.
  replace (after_cancel tr ids r) with
    (if bool_decide (cancel_id r ∈ ids) && (_try_cancel_request tr r).1 then mark_cancelled r else r) by done.
  rewrite (bool_decide_ext _ _ (elem_of_list_to_set (C:=gset Z) (cancel_id r) ids)).
  destruct (decide (cancel_id r ∈ ids)) as [Hin|Hni]; last first.
  { rewrite bool_decide_eq_false_2 by done. rewrite !decide_False by (by intros [? _]). done. }
  rewrite bool_decide_eq_true_2 by done.
  assert (Hd : cancel_deferred tr ids r ↔ (_try_cancel_request tr r).1 = false) by (unfold cancel_deferred; tauto).
  assert (Ha : cancel_asked tr ids r ↔ (_try_cancel_request tr r).2 = true) by (unfold cancel_asked; tauto).
  repeat case_decide; destruct (_try_cancel_request tr r) as [[] []]; cbn in *; naive_solver.
Qed.
End intake_props.

(** ** Events *)

(** One call of the executor loop on a rank. *)
Inductive intake_event :=
| EvFetch (num_active : Z) (counts : list Z)
| EvControl (num_active : Z)
| EvCancel (tr : option Transceiver) (active : list ActiveRequest)
| EvAbort (cid msg : string).

Inductive intake_output :=
| OutAdmitted (items : list RequestQueueItem)
| OutControl (o : control_outcome)
| OutCancel (active asked : list ActiveRequest)
| OutNone.

Section events.
Context {Q : Type} `{!WaitingQueue Q}.
Implicit Types (s : PyExecutor Q).

Definition intake_step (self : ExecutorConfig) (received : list RequestQueueItem)
    (ev : intake_event) : M (PyExecutor Q) intake_output :=
  match ev with
  | EvFetch n counts =>
      items ← _fetch_new_requests self received n counts; mret (OutAdmitted items)
  | EvControl n => o ← _handle_control_request n; mret (OutControl o)
  | EvCancel tr active =>
      '(active, asked) ← _handle_canceled_requests tr active; mret (OutCancel active asked)
  | EvAbort cid msg => _record_sleep_wakeup_abort cid msg;; mret OutNone
  end.

(** What rank 0 broadcasts during the event. *)
Definition batch_of (self : ExecutorConfig) (ev : intake_event) s : list RequestQueueItem :=
  match ev with
  | EvFetch n counts =>
      match (gather_new_requests self
               (if enable_attention_dp self then zsum counts else n) s).1 with
      | Ok l => l | Raise _ => [] end
  | _ => []
  end.

Definition with_rank (self : ExecutorConfig) (r : Z) : ExecutorConfig :=
  {| rank := r; tp_size := tp_size self; enable_attention_dp := enable_attention_dp self;
     max_num_active_requests := max_num_active_requests self; disable_mpi := disable_mpi self;
     is_benchmark_disagg := is_benchmark_disagg self; is_warmup := is_warmup self;
     max_batch_size := max_batch_size self; batch_wait_timeout_ms := batch_wait_timeout_ms self;
     monotonic := monotonic self |}.

(** Rank 0 and rank [r] go through the same events; rank [r] receives what
    rank 0 broadcasts. *)
Fixpoint run_pair (self : ExecutorConfig) (r : Z) (evs : list intake_event) s0 sr :
    list (result intake_output * result intake_output) * PyExecutor Q * PyExecutor Q :=
  match evs with
  | [] => ([], s0, sr)
  | ev :: evs =>
      let '(o0, s0') := intake_step self [] ev s0 in
      let '(or, sr') := intake_step (with_rank self r) (batch_of self ev s0) ev sr in
      let '(os, s0'', sr'') := run_pair self r evs s0' sr' in
      ((o0, or) :: os, s0'', sr'')
  end.

(** The state all ranks share: everything but the request queue and the items
    set aside, which only rank 0 has. *)
Definition shared s : PyExecutor Q :=
  set_accumulated (set_erq s (mkERQ [] 0 ∅ true [] 0)) [].

Lemma shared_control n s s' :
  shared s = shared s' →
  (_handle_control_request n s).1 = (_handle_control_request n s').1 ∧
  shared (_handle_control_request n s).2 = shared (_handle_control_request n s').2.
Proof.
  destruct s, s'. unfold shared; cbn. intros [= -> -> -> -> -> -> -> ->].
  unfold _handle_control_request, _pop_sleep_wakeup_abort. mrun. cbn.
  destruct control_requests0 as [|c l]; [done|].
  destruct (bool_decide _); [|done]. destruct (_ && _)%bool; [done|].
  destruct (control_id c) as [cid|]; [|done]. by destruct (_ !! cid).
Qed.

Lemma shared_cancel tr active s s' :
  shared s = shared s' →
  (_handle_canceled_requests tr active s).1 = (_handle_canceled_requests tr active s').1 ∧
  shared (_handle_canceled_requests tr active s).2 = shared (_handle_canceled_requests tr active s').2.
Proof.
  destruct s, s'. unfold shared; cbn. intros [= -> -> -> -> -> -> -> ->].
  unfold _handle_canceled_requests. mrun. cbn. destruct canceled_req_ids0; [done|].
  by destruct (cancel_loop _ _ _) as [[l p] a].
Qed.

Lemma shared_pop self r total counts s s' :
  shared s = shared s' →
  (_pop_from_waiting_queue self total counts s).1 =
    (_pop_from_waiting_queue (with_rank self r) total counts s').1 ∧
  shared (_pop_from_waiting_queue self total counts s).2 =
    shared (_pop_from_waiting_queue (with_rank self r) total counts s').2.
Proof.
  destruct s, s'. unfold shared; cbn. intros [= -> -> -> -> -> -> -> ->].
  rewrite !pop_unfold. unfold pop_budget. cbn.
  by destruct (_ && _ && _)%bool; destruct (get_from_waiting_queue _ _ _ _ _).
Qed.

Lemma shared_after_fetch self self' new s s' :
  shared s = shared s' →
  shared (after_fetch self new s) = shared (after_fetch self' new s').
Proof.
  destruct s, s'. unfold shared; cbn. intros [= -> -> -> -> -> -> -> ->].
  unfold after_fetch, apply_stop. cbn. destruct (from_stop new) as [|c rest]; [done|].
  destruct (is_shutdown_request c); [done|]. by destruct (rank self =? 0), (rank self' =? 0).
Qed.

Lemma gather_ok self total s new s1 :
  rank self = 0 → gather_new_requests self total s = (Ok new, s1) → shared s1 = shared s.
Proof.
  intros Hr. unfold gather_new_requests, on_erq. mrun. rewrite (proj2 (Z.eqb_eq _ _) Hr).
  destruct (get_from_request_queue _ _ _ _ _) as [[l|e] q]; [|done]. by intros [= <- <-].
Qed.

(** The fetch of rank 0 and of rank [r], which receives the same batch. *)
Lemma shared_fetch self r total received s s' u s1 :
  rank self = 0 → r ≠ 0 → shared s = shared s' →
  received = match (gather_new_requests self total s).1 with Ok l => l | Raise _ => [] end →
  _fetch_and_enqueue_requests self [] total s = (Ok u, s1) →
  ∃ s1', _fetch_and_enqueue_requests (with_rank self r) received total s' = (Ok u, s1') ∧
         shared s1 = shared s1'.
Proof.
  intros Hr Hr' Hsh Hrec Hf.
  assert (Hc : control_requests s = control_requests s') by (by apply (f_equal control_requests) in Hsh).
  destruct (control_requests s) as [|c l] eqn:Hcs.
  2:{ rewrite fetch_pending in Hf by (by rewrite Hcs). injection Hf as <- <-.
      exists s'. rewrite fetch_pending; [done|]. by rewrite <- Hc. }
  destruct (gather_new_requests self total s) as [[new|e] g] eqn:Hg.
  2:{ unfold _fetch_and_enqueue_requests in Hf. revert Hf. mrun. by rewrite Hcs, Hg. }
  rewrite (fetch_gathered _ _ _ _ _ _ Hcs Hg) in Hf. injection Hf as <- <-.
  assert (Hg' : gather_new_requests (with_rank self r) total s' = (Ok [], s')).
  { unfold gather_new_requests. mrun. cbn. by rewrite (proj2 (Z.eqb_neq _ _)). }
  rewrite (fetch_gathered _ _ _ _ _ _ (eq_sym Hc) Hg'). eexists. split; [done|].
  simpl in Hrec. subst received. unfold broadcast. cbn.
  rewrite (proj2 (Z.eqb_eq _ _) Hr), (proj2 (Z.eqb_neq _ _) Hr').
  apply shared_after_fetch. by rewrite (gather_ok _ _ _ _ _ Hr Hg).
Qed.

Lemma shared_step self r ev s s' o s1 :
  rank self = 0 → r ≠ 0 → shared s = shared s' →
  intake_step self [] ev s = (Ok o, s1) →
  ∃ s1', intake_step (with_rank self r) (batch_of self ev s) ev s' = (Ok o, s1') ∧
         shared s1 = shared s1'.
Proof.
  intros Hr Hr' Hsh. destruct ev as [n counts|n|tr active|cid msg]; cbn [intake_step].
  - unfold _fetch_new_requests. cbn [enable_attention_dp with_rank batch_of].
    set (total := if enable_attention_dp self then _ else _).
    set (cs := if enable_attention_dp self then counts else []).
    intros Hs. mrun. revert Hs. mrun.
    destruct (_fetch_and_enqueue_requests self [] total s) as [[u|e] s2] eqn:Hf; [|done].
    destruct (shared_fetch self r total _ s s' u s2 Hr Hr' Hsh eq_refl Hf) as (s2' & -> & Hsh2).
    destruct (shared_pop self r total cs s2 s2' Hsh2) as [Hp1 Hp2].
    destruct (_pop_from_waiting_queue self total cs s2) as [[l|e] s3]; [|done].
    destruct (_pop_from_waiting_queue _ total cs s2') as [[l'|e] s3']; [|done].
    simpl in *. injection Hp1 as ->. intros [= <- <-]. eexists. split; [done|].
    revert Hp2. destruct s3, s3'. unfold shared; cbn. by intros [= -> -> -> -> -> -> -> ->].
  - destruct (shared_control n s s' Hsh) as [H1 H2]. mrun.
    destruct (_handle_control_request n s) as [[x|e] s2], (_handle_control_request n s') as [[x'|e'] s2'];
      simpl in *; try done. injection H1 as ->. intros [= <- <-]. by eexists.
  - destruct (shared_cancel tr active s s' Hsh) as [H1 H2]. mrun.
    destruct (_handle_canceled_requests tr active s) as [[[x y]|e] s2],
      (_handle_canceled_requests tr active s') as [[[x' y']|e'] s2']; simpl in *; try done.
    injection H1 as -> ->. intros [= <- <-]. by eexists.
  - unfold _record_sleep_wakeup_abort. mrun. intros [= <- <-]. eexists. split; [done|].
    revert Hsh. destruct s, s'. unfold shared; cbn. by intros [= -> -> -> -> -> -> -> ->].
Qed.
End events.

(** ** One fetch *)

Lemma fetch_spec `{WaitingQueueSpec Q queue_wf before}
    (self : ExecutorConfig) (received : list RequestQueueItem) (total : Z) (s : PyExecutor Q) :
  rank self = 0 → queue_wf (waiting_queue s) → fetch_returns self total s →
  ∃ s', _fetch_and_enqueue_requests self received total s = (Ok (), s') ∧
  match control_requests s with
  | _ :: _ => s' = s
  | [] =>
      ∃ fetched pre post,
        consumed (executor_request_queue s) (executor_request_queue s') fetched ∧
        request_accumulated s ++ fetched = pre ++ post ∧
        Forall (λ x, stops x = false) pre ∧
        Forall (λ x, is_normal_request x = true) (normals pre) ∧
        queue_wf (waiting_queue s') ∧
        queue_iter (waiting_queue s') =
          sort_by before (queue_iter (waiting_queue s) ++ normals pre) ∧
        canceled_req_ids s' = canceled_req_ids s ++ cancels pre ∧
        match post with
        | [] => control_requests s' = [] ∧ request_accumulated s' = [] ∧
                is_shutdown s' = is_shutdown s
        | c :: rest =>
            stops c = true ∧
            if is_shutdown_request c
            then is_shutdown s' = true ∧ control_requests s' = [] ∧ request_accumulated s' = []
            else control_requests s' = [c] ∧ request_accumulated s' = rest ∧
                 is_shutdown s' = is_shutdown s
        end
  end.
Proof.
  intros Hr Hwf Hret. destruct (control_requests s) as [|c l] eqn:Hc.
  2:{ exists s. split; [|done]. apply fetch_pending. by rewrite Hc. }
  destruct (gather_spec self total s Hr Hret) as (fetched & e' & Hg & Hcons).
  rewrite (fetch_gathered _ _ _ _ _ _ Hc Hg). eexists. split; [done|].
  unfold broadcast. rewrite (proj2 (Z.eqb_eq _ _) Hr).
  set (new := request_accumulated s ++ fetched). set (s1 := set_erq _ _).
  assert (Hw : waiting_queue (apply_stop self (from_stop new)
    (set_canceled s1 (canceled_req_ids s1 ++ cancels (upto_stop new)))) = waiting_queue s).
  { unfold apply_stop. destruct (from_stop new) as [|c rest]; [done|].
    destruct (is_shutdown_request c); [done|]. by destruct (rank self =? 0). }
  destruct (spec_add (waiting_queue s) (normals (upto_stop new)) Hwf) as [Hwf' Hit].
  exists fetched, (upto_stop new), (from_stop new). unfold after_fetch. rewrite Hw.
  cbn [waiting_queue set_waiting]. pose proof (upto_from_stop new) as Hsplit.
  pose proof (upto_stop_none new) as Hpre.
  split_and!; [|done|done|by apply normals_normal|done|done|..];
    unfold apply_stop; destruct (from_stop new) as [|c rest] eqn:Hpost; cbn; try done;
    destruct (is_shutdown_request c) eqn:Hs; cbn; rewrite ?Hr, ?Hs; cbn; rewrite ?Hc; try done;
    by eapply from_stop_head in Hpost.
Qed.

Lemma handle_canceled_spec `{WaitingQueueSpec Q queue_wf before}
    (tr : option Transceiver) (active : list ActiveRequest) (s : PyExecutor Q) :
  queue_wf (waiting_queue s) →
  let ids := canceled_req_ids s in
  ∃ s',
    _handle_canceled_requests tr active s =
      (Ok (after_cancel tr ids <$> active, filter (cancel_asked tr ids) active), s') ∧
    queue_wf (waiting_queue s') ∧
    queue_iter (waiting_queue s') = filter (λ x, id x ∉ ids) (queue_iter (waiting_queue s)) ∧
    canceled_req_ids s' = cancel_id <$> filter (cancel_deferred tr ids) active ∧
    (tr = None → canceled_req_ids s' = []) ∧
    control_requests s' = control_requests s ∧
    request_accumulated s' = request_accumulated s ∧ is_shutdown s' = is_shutdown s ∧
    executor_request_queue s' = executor_request_queue s.
Proof.
  intros Hwf. simpl. unfold _handle_canceled_requests.
  assert (Hnone : ∀ ids, tr = None → filter (cancel_deferred tr ids) active = []).
  { intros ids ->. apply list_filter_none, Forall_true. by intros r [_ ?]. }
  destruct (canceled_req_ids s) as [|i ids'] eqn:Hids.
  - exists s. mrun. rewrite Hids. split_and!; try done.
    + rewrite (list_filter_none (cancel_asked tr [])); [by rewrite list_fmap_id|].
      apply Forall_true. by intros r [?%not_elem_of_nil _].
    + symmetry. apply list_filter_all, Forall_true. intros x. apply not_elem_of_nil.
    + rewrite list_filter_none; [done|]. apply Forall_true. by intros r [?%not_elem_of_nil _].
  - pose proof (cancel_loop_spec tr (i :: ids') active) as Hcl.
    destruct (spec_remove (waiting_queue s) (list_to_set (i :: ids')) Hwf) as [Hwf' Hit].
    eexists. mrun. rewrite Hids, Hcl. split_and!; [done|done| |done| |done..].
    + cbn [waiting_queue set_waiting set_canceled]. rewrite Hit. apply list_filter_iff.
      intros x. by rewrite elem_of_list_to_set.
    + intros Htr. cbn [canceled_req_ids set_canceled]. by rewrite Hnone.
Qed.

(** ** Properties *)

(** C8: one fetch on rank 0, over any waiting queue that meets the interface.
    When no control request is pending and there is something to wait for, the
    fetch returns; it hands out the items set aside earlier followed by items
    taken off the front of the request queue, in that order.  Up to the first
    shutdown or control item, normal requests enter the waiting queue behind
    the ones already there and cancelled ids are noted, each in order.  A
    control item becomes the one pending control request and everything behind
    it is set aside; behind a shutdown item the rest of the batch is dropped.
    While a control request is pending the fetch changes nothing. *)
Theorem fetch_dispatches_in_order `{WaitingQueueSpec Q queue_wf before}
    (self : ExecutorConfig) (received : list RequestQueueItem) (total : Z) (s : PyExecutor Q) :
  rank self = 0 → queue_wf (waiting_queue s) → fetch_returns self total s →
  ∃ s', _fetch_and_enqueue_requests self received total s = (Ok (), s') ∧
  match control_requests s with
  | _ :: _ => s' = s
  | [] =>
      ∃ fetched pre post,
        consumed (executor_request_queue s) (executor_request_queue s') fetched ∧
        request_accumulated s ++ fetched = pre ++ post ∧
        Forall (λ x, stops x = false) pre ∧
        Forall (λ x, is_normal_request x = true) (normals pre) ∧
        queue_wf (waiting_queue s') ∧
        queue_iter (waiting_queue s') =
          sort_by before (queue_iter (waiting_queue s) ++ normals pre) ∧
        canceled_req_ids s' = canceled_req_ids s ++ cancels pre ∧
        match post with
        | [] => control_requests s' = [] ∧ request_accumulated s' = [] ∧
                is_shutdown s' = is_shutdown s
        | c :: rest =>
            stops c = true ∧
            if is_shutdown_request c
            then is_shutdown s' = true ∧ control_requests s' = [] ∧ request_accumulated s' = []
            else control_requests s' = [c] ∧ request_accumulated s' = rest ∧
                 is_shutdown s' = is_shutdown s
        end
  end.
Proof. apply fetch_spec. Qed.

(** The executor at start, in an environment that will put [e]. *)
Definition executor_init {Q} (self : ExecutorConfig) (q : Q)
    (e : list (list RequestQueueItem)) : PyExecutor Q :=
  mkPyExecutor q (erq_init (max_batch_size self) e) [] [] [] false
    (is_benchmark_disagg self) 0 0 ∅.

(** The executor after a sequence of events, failed ones included. *)
Definition intake_run {Q} `{!WaitingQueue Q} (self : ExecutorConfig)
    (evs : list (list RequestQueueItem * intake_event)) (s : PyExecutor Q) : PyExecutor Q :=
  foldl (λ s '(received, ev), (intake_step self received ev s).2) s evs.

Lemma control_fetch_le {Q} `{!WaitingQueue Q} self received total (s : PyExecutor Q) :
  (length (control_requests s) ≤ 1)%nat →
  (length (control_requests (_fetch_and_enqueue_requests self received total s).2) ≤ 1)%nat.
Proof.
  intros Hl. destruct (control_requests s) as [|c l] eqn:Hc.
  2:{ rewrite fetch_pending by (by rewrite Hc). simpl. by rewrite Hc. }
  destruct (gather_new_requests self total s) as [[new|e] g] eqn:Hg.
  - rewrite (fetch_gathered _ _ _ _ _ _ Hc Hg). simpl.
    assert (Hcg : control_requests g = []).
    { revert Hg. unfold gather_new_requests, on_erq. mrun.
      destruct (rank self =? 0); [|by intros [= <- <-]].
      destruct (get_from_request_queue _ _ _ _ _) as [[]]; by intros [= <- <-]. }
    unfold apply_stop. destruct (from_stop _) as [|c rest]; cbn; [by rewrite Hcg|].
    destruct (is_shutdown_request c); cbn; [by rewrite Hcg|].
    destruct (rank self =? 0); cbn; rewrite Hcg; simpl; lia.
  - unfold _fetch_and_enqueue_requests. mrun. rewrite Hc, Hg. simpl.
    revert Hg. unfold gather_new_requests, on_erq. mrun. destruct (rank self =? 0); [|done].
    destruct (get_from_request_queue _ _ _ _ _) as [[]]; intros [= <- <-]. cbn. by rewrite Hc.
Qed.

Lemma control_step_le {Q} `{!WaitingQueue Q} self received ev (s : PyExecutor Q) :
  (length (control_requests s) ≤ 1)%nat →
  (length (control_requests (intake_step self received ev s).2) ≤ 1)%nat.
Proof.
  intros Hl. destruct ev as [n counts|n|tr active|cid msg]; cbn [intake_step].
  - unfold _fetch_new_requests. set (total := if enable_attention_dp self then _ else _). mrun.
    pose proof (control_fetch_le self received total s Hl) as H1.
    destruct (_fetch_and_enqueue_requests self received total s) as [[u|e] s1]; [|done].
    rewrite pop_unfold. unfold pop_budget. simpl in H1.
    by destruct (_ && _ && _)%bool; destruct (get_from_waiting_queue _ _ _ _ _) as [[] ?].
  - destruct (handle_control_spec n s Hl) as (o & s' & Heq & _ & _ & _ & _ & _ & Ho). mrun.
    rewrite Heq. destruct o; simpl; [by destruct Ho as [_ ->]|by destruct Ho as [-> _]|..];
      destruct Ho as (_ & -> & _); simpl; lia.
  - unfold _handle_canceled_requests. mrun. destruct (canceled_req_ids s); [done|].
    by destruct (cancel_loop _ _ _) as [[]].
  - done.
Qed.

Lemma control_run_le {Q} `{!WaitingQueue Q} self evs (s : PyExecutor Q) :
  (length (control_requests s) ≤ 1)%nat →
  (length (control_requests (intake_run self evs s)) ≤ 1)%nat.
Proof.
  revert s. induction evs as [|[received ev] evs IH]; intros s Hl; [done|].
  by apply IH, control_step_le.
Qed.



(** C39: all ranks make the same decisions.  Rank 0 alone reads the request
    queue and keeps the items set aside behind a control request; another rank
    gets its items from the broadcast.  If the two ranks start with the same
    waiting queue, control requests, cancelled ids and flags and go through
    the same events, then as long as the events return on rank 0 they return
    the same on the other rank (the same admitted requests, the same control
    action, the same cancellations), and the shared state stays equal. *)
Theorem ranks_stay_in_step {Q} `{!WaitingQueue Q} (self : ExecutorConfig) (r : Z)
    (evs : list intake_event) (s0 sr : PyExecutor Q) :
  rank self = 0 → r ≠ 0 → shared s0 = shared sr →
  let '(outs, s0', sr') := run_pair self r evs s0 sr in
  Forall (λ o, is_ok o.1 = true) outs → Forall (λ o, o.1 = o.2) outs ∧ shared s0' = shared sr'.
Proof.
  intros Hr Hr'. revert s0 sr. induction evs as [|ev evs IH]; intros s0 sr Hsh; [done|].
  cbn [run_pair]. destruct (intake_step self [] ev s0) as [[o|e] s1] eqn:Hs.
  - destruct (shared_step self r ev s0 sr o s1 Hr Hr' Hsh Hs) as (s1' & -> & Hsh').
    specialize (IH s1 s1' Hsh'). destruct (run_pair self r evs s1 s1') as [[os sa] sb].
    intros [_ Hok]%Forall_cons. destruct (IH Hok) as [Hall ?]. split; [|done]. by constructor.
  - destruct (intake_step (with_rank self r) _ ev sr) as [o' s1'].
    destruct (run_pair self r evs s1 s1') as [[os sa] sb]. by intros [? _]%Forall_cons.
Qed.

(** ** Examples *)

(** Three requests wait, a control request and one more request are on their
    way. *)
Definition demo_config : ExecutorConfig := {|
  rank := 0; tp_size := 1; enable_attention_dp := false; max_num_active_requests := 4;
  disable_mpi := false; is_benchmark_disagg := false; is_warmup := false;
  max_batch_size := 8; batch_wait_timeout_ms := float_0; monotonic := λ _, float_0 |}.

Definition demo_env : list (list RequestQueueItem) :=
  [[queue_item CONTROL_REQUEST_ID; demo_item 11 5]; []; [demo_item 12 5]].

Definition demo_executor : PyExecutor FCFS.t :=
  set_waiting (executor_init demo_config FCFS.init demo_env)
    [demo_item 8 5; demo_item 9 5; demo_item 10 5].

Lemma fetch_dispatches_witness :
  ∃ s', _fetch_and_enqueue_requests demo_config [] 3 demo_executor = (Ok (), s') ∧
    control_requests s' = [queue_item CONTROL_REQUEST_ID] ∧
    request_accumulated s' = [demo_item 11 5; demo_item 12 5].
Proof.
  destruct (fetch_dispatches_in_order (queue_wf:=FCFS.wf) (before:=FCFS.before)
    demo_config [] 3 demo_executor) as (s' & Heq & _); [reflexivity|exact I|discriminate|].
  exists s'. split; [exact Heq|].
  assert (s' = (_fetch_and_enqueue_requests demo_config [] 3 demo_executor).2) as ->
    by (rewrite Heq; reflexivity).
  vm_compute. split; reflexivity.
Defined.

(** Request 9 is cancelled while it waits, 20 while it runs; 21 is a child of
    20 and 22 is not cancelled. *)
Definition demo_active (i : Z) (child : bool) (parent : Z) : ActiveRequest :=
  {| ar_request_id := i; ar_is_child := child; ar_parent_request_id := parent;
     ar_cancelled := false; ar_kv_transfer_timed_out := true; ar_decoding_iter := 0;
     ar_py_decoding_iter := 3; ar_state := GENERATION_IN_PROGRESS;
     ar_is_context_only := false |}.


(** Rank 1 follows rank 0 through a control request and behind it. *)
Definition demo_events : list intake_event :=
  [EvFetch 3 []; EvControl 4; EvCancel None []; EvFetch 2 []; EvControl 0; EvFetch 1 [];
   EvFetch 3 []].

Lemma ranks_stay_in_step_witness :
  let '(outs, s0, s1) := run_pair demo_config 1 demo_events demo_executor demo_executor in
  Forall (λ o, o.1 = o.2) outs ∧ shared s0 = shared s1 ∧
  num_fetch_requests s0 = 5.
Proof.
  pose proof (ranks_stay_in_step demo_config 1 demo_events demo_executor demo_executor
    eq_refl ltac:(discriminate) eq_refl) as H.
  destruct (run_pair demo_config 1 demo_events demo_executor demo_executor) as [[outs s0] s1] eqn:E.
  destruct H as [H1 H2].
  - replace outs with (run_pair demo_config 1 demo_events demo_executor demo_executor).1.1
      by (rewrite E; reflexivity). vm_compute. repeat constructor.
  - split; [exact H1|]. split; [exact H2|].
    replace s0 with (run_pair demo_config 1 demo_events demo_executor demo_executor).1.2
      by (rewrite E; reflexivity). vm_compute. reflexivity.
Defined.
