(* ===== verification/IntakeLive.v ===== *)
(** * No request starves under first-come, first-served

    Iterations of the executor loop on rank 0, with a first-come,
    first-served waiting queue and without attention DP: a waiting request is
    admitted, in its turn, once enough iterations had room for a request. *)

From S2P Require Import Prelude PySort Requests PyFloat WaitingQueue Admission RequestQueue.
From S2P Require Import RequestQueueProps Intake IntakeProps.

Local Open Scope Z_scope.

(** The intake part of one iteration: fetch with [it_active] active requests,
    the control request with [it_active_after], and cancellation among
    [it_requests]. *)
Record iteration := {
  it_active : Z;
  it_active_after : Z;
  it_transceiver : option Transceiver;
  it_requests : list ActiveRequest;
}.

Definition iterate (self : ExecutorConfig) (it : iteration) :
    M (PyExecutor FCFS.t) (list RequestQueueItem) :=
  items ← _fetch_new_requests self [] (it_active it) [];
  _handle_control_request (it_active_after it);;
  _handle_canceled_requests (it_transceiver it) (it_requests it);;
  mret items.

Fixpoint iterations (self : ExecutorConfig) (its : list iteration) :
    M (PyExecutor FCFS.t) (list (list RequestQueueItem)) :=
  match its with
  | [] => mret []
  | it :: its => items ← iterate self it; rest ← iterations self its; mret (items :: rest)
  end.

(** The iteration has room for a request of weight [w]. *)
Definition roomy (self : ExecutorConfig) (w : Z) (it : iteration) : Prop :=
  it_active it + w ≤ max_num_active_requests self.
#[export] Instance roomy_dec self w it : Decision (roomy self w it).
Proof. unfold roomy. apply _. Defined.

(** Everything that waits or will come. *)
Definition all_items (s : PyExecutor FCFS.t) : list RequestQueueItem :=
  waiting_queue s ++ request_accumulated s ++
  request_queue (executor_request_queue s) ++ concat (env (executor_request_queue s)).

(** Without attention DP admission takes a prefix of the queue. *)
Lemma sublist_same_length {A} (l k : list A) : sublist l k → length k = length l → l = k.
Proof.
  induction 1 as [|x l k Hs IH|x l k Hs IH]; simpl; intros Hl; [done|f_equal; apply IH; lia|].
  apply sublist_length in Hs. lia.
Qed.

Lemma admission_takes_prefix budget m (q : FCFS.t) :
  ∃ q', get_from_waiting_queue budget false m [] q = (Ok (take_fitting budget q), q') ∧
        q = take_fitting budget q ++ q'.
Proof.
  unfold get_from_waiting_queue. destruct (budget <=? 0) eqn:Hb.
  { exists q. by rewrite (take_fitting_nil budget q) by lia. }
  destruct (admit_loop_spec (Q:=FCFS.t) (queue_wf:=FCFS.wf) (before:=FCFS.before)
    budget false m (length q) 0 [] [] [] q) as (items & pending & q1 & Heq & Htk);
    [done|done|lia|done|].
  destruct Htk as [_ (l1 & Hl & Hperm & Hs1 & _) _ _ Hpre].
  destruct (Hpre eq_refl) as [-> Hit]. rewrite Z.sub_0_r in Hit. simpl in Hit, Hl.
  rewrite app_nil_r in Hperm. apply Permutation_length in Hperm.
  apply sublist_same_length in Hs1; [|done].
  exists q1. mrun. cbn [queue_len FCFSWaitingQueue]. rewrite Heq. simpl. subst l1 items.
  unfold FCFS.prepend_requests. by rewrite extendleft_spec, reverse_involutive.
Qed.

Lemma filter_lookup_le {A} (P : A → Prop) `{∀ x, Decision (P x)} (l : list A) k r :
  l !! k = Some r → P r → ∃ j, (j ≤ k)%nat ∧ filter P l !! j = Some r.
Proof.
  revert k. induction l as [|x l IH]; intros k Hk Hr; [done|]. rewrite filter_cons.
  destruct k as [|k]; simpl in Hk.
  - simplify_eq. rewrite decide_True by done. by exists 0%nat.
  - destruct (IH k Hk Hr) as (j & Hj & Hl). destruct (decide (P x)); [exists (S j)|exists j];
      (split; [lia|done]).
Qed.

Section live.
Context (self : ExecutorConfig) (w i : Z).
Context (Hrank : rank self = 0) (Hadp : enable_attention_dp self = false)
        (Hbench : is_benchmark_disagg self = false).
Implicit Types (s : PyExecutor FCFS.t).

Record live_inv s : Prop := {
  live_control : (length (control_requests s) ≤ 1)%nat;
  live_items : Forall (λ x, item_weight x ≤ w ∧ (is_canceled_request x = true → id x ≠ i))
                 (all_items s);
  live_canceled : i ∉ canceled_req_ids s;
}.

(** The fetch appends to the queue, and the invariant is kept. *)
Lemma fetch_live total s :
  live_inv s → waiting_queue s ≠ [] →
  ∃ new s1, _fetch_and_enqueue_requests self [] total s = (Ok (), s1) ∧
    waiting_queue s1 = waiting_queue s ++ new ∧ live_inv s1.
Proof.
  intros [Hctl Hw Hcan] Hne.
  destruct (fetch_spec (Q:=FCFS.t) (queue_wf:=FCFS.wf) (before:=FCFS.before)
    self [] total s) as (s1 & Hf & Hcase); [done|done| |].
  { unfold fetch_returns, fetch_timeout. cbn [queue_len FCFSWaitingQueue].
    destruct (waiting_queue s); [done|]. simpl. by rewrite andb_false_r. }
  destruct (control_requests s) as [|c l] eqn:Hc.
  2:{ subst s1. exists [], s. rewrite app_nil_r. split_and!; [done|done|]. by split; [rewrite Hc|..]. }
  destruct Hcase as (fetched & pre & post & Hcons & Hsplit & Hpre & _ & _ & Hit & Hcan1 & Hpost).
  simpl in Hit. rewrite sort_fcfs in Hit. exists (normals pre), s1. split_and!; [done|done|].
  apply consumed_supply in Hcons.
  assert (Hrest : (length (control_requests s1) ≤ 1)%nat ∧
    (request_accumulated s1 = [] ∨ ∃ c, post = c :: request_accumulated s1)).
  { destruct post as [|c rest]; [destruct Hpost as (-> & -> & _); simpl; auto with lia|].
    destruct Hpost as [_ Hpost]. destruct (is_shutdown_request c).
    - destruct Hpost as (_ & -> & ->). simpl. auto with lia.
    - destruct Hpost as (-> & -> & _). simpl. eauto with lia. }
  destruct Hrest as [Hctl1 Hrest].
  unfold all_items in *. rewrite Hcons, (assoc_L (++) _ fetched), Hsplit in Hw.
  rewrite !Forall_app in Hw. destruct Hw as (H1 & (H2 & H3) & H4 & H5).
  split; [done| |]; [unfold all_items; rewrite Hit, !Forall_app; split_and!; try done|].
  - by apply Forall_sublist_sub with pre; [apply sublist_filter|].
  - destruct Hrest as [->|[c Hc']]; [done|]. rewrite Hc' in H3. by inversion H3.
  - rewrite Hcan1. unfold cancels. intros [?|(x & -> & Hx)%list_elem_of_fmap]%elem_of_app; [done|].
    apply list_elem_of_filter in Hx as [Hx1 Hx2]. rewrite Forall_forall in H2. by apply (H2 x).
Qed.

(** Admission and the control request take a prefix of the queue. *)
Lemma pop_live total n s1 :
  live_inv s1 → ∃ items s3,
    (new_requests ← _pop_from_waiting_queue self total [];
     modify (λ s, set_num_fetch s (num_fetch_requests s + Z.of_nat (length new_requests)));;
     _handle_control_request n;;
     mret new_requests) s1 = (Ok items, s3) ∧ live_inv s3 ∧
    waiting_queue s1 = items ++ waiting_queue s3 ∧
    (total + w ≤ max_num_active_requests self → waiting_queue s1 ≠ [] → items ≠ []).
Proof.
  intros [Hctl1 Hw1 Hcan1]. set (budget := max_num_active_requests self - total).
  destruct (admission_takes_prefix budget (max_num_active_requests self) (waiting_queue s1))
    as (q' & Hget & Hq').
  assert (Hpop : _pop_from_waiting_queue self total [] s1 =
    (Ok (take_fitting budget (waiting_queue s1)), set_waiting s1 q')).
  { rewrite pop_unfold. unfold pop_budget, _get_request_admission_capacity.
    rewrite Hbench, Hadp. cbn [andb]. fold budget. by rewrite Hget. }
  set (items := take_fitting budget (waiting_queue s1)) in *.
  set (s2 := set_num_fetch (set_waiting s1 q')
    (num_fetch_requests (set_waiting s1 q') + Z.of_nat (length items))).
  destruct (handle_control_spec n s2 Hctl1)
    as (o & s3 & Hh & Hw3 & Ha3 & He3 & Hc3 & _ & Ho).
  exists items, s3. split_and!; [mrun; rewrite Hpop; fold s2; by rewrite Hh| |by rewrite Hw3|].
  - split; [|unfold all_items in *; rewrite Hw3, Ha3, He3; cbn|by rewrite Hc3].
    + destruct o; [destruct Ho as [_ ->]|destruct Ho as [-> _]|..]; try done;
        destruct Ho as (_ & -> & _); simpl; lia.
    + rewrite Hq' in Hw1. rewrite !Forall_app in *. tauto.
  - intros Hroom Hne. unfold items, all_items in *. destruct (waiting_queue s1) as [|x l]; [done|].
    apply Forall_cons in Hw1 as [[Hxw _] _]. simpl.
    by rewrite (proj2 (Z.leb_le _ _)) by (unfold budget; lia).
Qed.

(** What one iteration does to the waiting queue. *)
Lemma iterate_spec it s :
  live_inv s → waiting_queue s ≠ [] →
  ∃ items new rest (ids : list Z) s', iterate self it s = (Ok items, s') ∧ live_inv s' ∧
    waiting_queue s ++ new = items ++ rest ∧
    waiting_queue s' = filter (λ x, id x ∉ ids) rest ∧ (i ∉ ids) ∧
    (roomy self w it → items ≠ []).
Proof.
  intros Hinv Hne.
  destruct (fetch_live (it_active it) s Hinv Hne) as (new & s1 & Hf & Hnew & Hinv1).
  destruct (pop_live (it_active it) (it_active_after it) s1 Hinv1)
    as (items & s3 & Hpop & [Hctl Hw Hcan] & Hq & Hroom).
  destruct (handle_canceled_spec (Q:=FCFS.t) (queue_wf:=FCFS.wf) (before:=FCFS.before)
    (it_transceiver it) (it_requests it) s3 I)
    as (s4 & Hc & _ & Hw4 & Hids & _ & Hctl4 & Hacc4 & _ & Herq4).
  exists items, new, (waiting_queue s3), (canceled_req_ids s3), s4. split_and!; try done.
  - unfold iterate, _fetch_new_requests. rewrite Hadp. revert Hpop. mrun. rewrite Hf.
    destruct (_pop_from_waiting_queue _ _ _ _) as [[l|e] s2]; [|done].
    destruct (_handle_control_request _ _) as [[o|e] s2']; [|done].
    intros [= -> ->]. by rewrite Hc.
  - split; [by rewrite Hctl4|unfold all_items in *; rewrite Hacc4, Herq4|].
    + simpl in Hw4. rewrite Hw4, !Forall_app in *. destruct Hw as (? & ? & ?). split_and!; try tauto.
      by eapply Forall_sublist_sub; [apply sublist_filter|].
    + rewrite Hids. intros (x & -> & Hx)%list_elem_of_fmap.
      by apply list_elem_of_filter in Hx as [[? _] _].
  - by rewrite <- Hnew.
  - intros Hr. apply Hroom; [done|]. rewrite Hnew. by intros [? _]%app_nil.
Qed.

(** The request at position [k] is among the next [k+1] admitted ones. *)
Lemma no_starvation its k r s :
  live_inv s → id r = i → waiting_queue s !! k = Some r →
  (k < length (filter (roomy self w) its))%nat →
  ∃ n batches s' j, (n ≤ length its)%nat ∧ iterations self (take n its) s = (Ok batches, s') ∧
    (j ≤ k)%nat ∧ concat batches !! j = Some r.
Proof.
  intros Hinv Hi. revert k s Hinv.
  induction its as [|it its IH]; intros k s Hinv Hk Hcount; [simpl in Hcount; lia|].
  destruct (iterate_spec it s Hinv) as (items & new & rest & ids & s1 & Hit & Hinv1 & Hq & Hw & Hid & Hroom).
  { by intros E; rewrite E in Hk. }
  assert (Hk' : (items ++ rest) !! k = Some r).
  { rewrite <- Hq. by apply lookup_app_l_Some. }
  destruct (decide (k < length items)%nat) as [Hlt|Hge].
  { exists 1%nat, [items], s1, k. split_and!; [simpl; lia| |lia|].
    - cbn [take iterations]. by rewrite (bind_ok _ _ _ _ _ Hit), take_0.
    - simpl. rewrite app_nil_r. by rewrite lookup_app_l in Hk'. }
  rewrite lookup_app_r in Hk' by lia.
  destruct (filter_lookup_le (λ x, id x ∉ ids) rest _ r Hk') as (k1 & Hk1 & Hl1); [by rewrite Hi|].
  rewrite <- Hw in Hl1.
  destruct (IH k1 s1 Hinv1 Hl1) as (n & batches & s' & j & Hn & Hrun & Hj & Hl).
  { rewrite filter_cons in Hcount. destruct (decide (roomy self w it)) as [Hr|Hr].
    - specialize (Hroom Hr). simpl in Hcount. destruct items; [done|]. simpl in *. lia.
    - lia. }
  exists (S n), (items :: batches), s', (length items + j)%nat. split_and!; [simpl; lia| |lia|].
  - cbn [take iterations]. rewrite (bind_ok _ _ _ _ _ Hit), (bind_ok _ _ _ _ _ Hrun). done.
  - simpl. rewrite lookup_app_r by lia. by replace (length items + j - length items)%nat with j by lia.
Qed.
End live.

(** ** Property *)

(** C12: no request starves.  On rank 0, first come, first served, without
    attention DP and outside the benchmark fill phase, let no item that waits
    or will ever come weigh more than [w] sequences.  Whatever arrives in the
    meantime (requests, cancellations of other requests, control requests,
    shutdown), a request that has [k] requests in front of it and is not
    cancelled is among the next [k+1] requests admitted, at the latest in the
    iteration that is the [k+1]-st one with room for [w] more sequences; until
    then every iteration returns. *)
Theorem fcfs_admits_every_request (self : ExecutorConfig) (w : Z) (its : list iteration)
    (k : nat) (r : RequestQueueItem) (s : PyExecutor FCFS.t) :
  rank self = 0 → enable_attention_dp self = false → is_benchmark_disagg self = false →
  (length (control_requests s) ≤ 1)%nat →
  Forall (λ x, item_weight x ≤ w ∧ (is_canceled_request x = true → id x ≠ id r)) (all_items s) →
  id r ∉ canceled_req_ids s →
  waiting_queue s !! k = Some r →
  (k < length (filter (roomy self w) its))%nat →
  ∃ n batches s' j, (n ≤ length its)%nat ∧ iterations self (take n its) s = (Ok batches, s') ∧
    (j ≤ k)%nat ∧ concat batches !! j = Some r.
Proof. intros. by apply (no_starvation self w (id r)). Qed.

(** The demo executor is full in the second iteration. *)
Definition demo_iteration (n m : Z) : iteration :=
  {| it_active := n; it_active_after := m; it_transceiver := None; it_requests := [] |}.

Definition demo_iterations : list iteration :=
  [demo_iteration 3 4; demo_iteration 4 4; demo_iteration 3 4; demo_iteration 3 0].

Lemma fcfs_admits_every_request_witness :
  ∃ n batches s' j, (n ≤ 4)%nat ∧
    iterations demo_config (take n demo_iterations) demo_executor = (Ok batches, s') ∧
    (j ≤ 2)%nat ∧ concat batches !! j = Some (demo_item 10 5).
Proof.
  apply (fcfs_admits_every_request demo_config 1 demo_iterations 2 (demo_item 10 5) demo_executor);
    [reflexivity|reflexivity|reflexivity|simpl; lia| |apply not_elem_of_nil|reflexivity|
     vm_compute; lia].
  repeat constructor; vm_compute; discriminate.
Defined.

Example demo_iterations_run :
  match iterations demo_config demo_iterations demo_executor with
  | (Ok batches, s) =>
      ((λ b : list RequestQueueItem, id <$> b) <$> batches, id <$> (waiting_queue s : list _),
       id <$> request_accumulated s) = ([[8]; []; [9]; [10]], [], [11; 12])
  | _ => False
  end.
Proof. vm_compute. reflexivity. Qed.
