(* ===== verification/Batching.v ===== *)
(** * Holding back context requests ([py_executor.py])

    Between the schedulers and the forward step the executor may hold back
    the context requests of an iteration: to balance them over the
    attention-DP ranks, to wait for a fuller batch, or to keep the attended
    KV length within a workspace.  [_schedule] composes the three on the
    output of the scheduler.

    The numbers the ranks gather are an argument; [orig_prompt_len] is an
    accessor of the C++ request. *)

From S2P Require Import Prelude Requests PyFloat MicroBatch Unified.

Local Open Scope Z_scope.

(** The counters, and the cached cap ([None] is ["unset"]). *)
Record BatchState := mkBatch {
  adp_ctx_waiting_iters_count : Z;
  adp_ctx_batching_wait_iters_count : Z;
  batch_wait_iters_count : Z;
  _ctx_mla_kv_len_cap : option (option Z);
}.

Record BatchConfig := {
  bc_enable_attention_dp : bool;
  attention_dp_enable_balance : bool;
  attention_dp_time_out_iters : Z;
  attention_dp_batching_wait_iters : Z;
  batch_wait_timeout_iters : Z;
  batch_wait_max_tokens_ratio : float;
  bc_max_num_tokens : Z;
  bc_max_batch_size : Z;
  bc_is_warmup : bool;
  fp8_ctx_mla_kv_len_cap : option Z;
  orig_prompt_len : LlmRequest → Z;
}.

(** One entry of [tp_allgather]: the context requests, generation requests
    and tokens a rank has scheduled. *)
Record rank_report := { rp_context : Z; rp_generation : Z; rp_tokens : Z }.

Definition set_waiting_iters (s : BatchState) (n : Z) : BatchState :=
  mkBatch n (adp_ctx_batching_wait_iters_count s) (batch_wait_iters_count s)
    (_ctx_mla_kv_len_cap s).
Definition set_batching_iters (s : BatchState) (n : Z) : BatchState :=
  mkBatch (adp_ctx_waiting_iters_count s) n (batch_wait_iters_count s) (_ctx_mla_kv_len_cap s).
Definition set_batch_wait (s : BatchState) (n : Z) : BatchState :=
  mkBatch (adp_ctx_waiting_iters_count s) (adp_ctx_batching_wait_iters_count s) n
    (_ctx_mla_kv_len_cap s).
Definition set_cap (s : BatchState) (c : option Z) : BatchState :=
  mkBatch (adp_ctx_waiting_iters_count s) (adp_ctx_batching_wait_iters_count s)
    (batch_wait_iters_count s) (Some c).

Definition init_batch : BatchState := mkBatch 0 0 0 None.

(** [n < x] for an integer and a float: Python compares exactly. *)
Definition int_ltb_float (n : Z) (x : float) : bool :=
  match x with
  | S754_zero _ => n <? 0
  | S754_infinity s => negb s
  | S754_nan => false
  | S754_finite s m e =>
      if 0 <=? e then n <? signed s m * 2 ^ e else n * 2 ^ (- e) <? signed s m
  end.

Section batching.
Context (self : BatchConfig).

(** ** Balancing over the ranks *)

Definition all_ranks_have_free_ctx_slots (rs : list rank_report) : bool :=
  forallb (λ r, rp_generation r <? bc_max_batch_size self) rs.
Definition all_ranks_have_ctx_requests (rs : list rank_report) : bool :=
  forallb (λ r, 0 <? rp_context r) rs.
Definition all_ranks_have_gen_requests (rs : list rank_report) : bool :=
  forallb (λ r, 0 <? rp_generation r) rs.

Definition _balance_adp_requests (responses_list : list rank_report)
    (context_requests : list LlmRequest) : M BatchState (list LlmRequest) :=
  if negb (attention_dp_enable_balance self) then mret context_requests
  else
    if all_ranks_have_free_ctx_slots responses_list && all_ranks_have_ctx_requests responses_list
    then
      modify (λ s, set_waiting_iters s 0);;
      s ← get;
      if all_ranks_have_gen_requests responses_list then
        if adp_ctx_batching_wait_iters_count s <? attention_dp_batching_wait_iters self
        then put (set_batching_iters s (adp_ctx_batching_wait_iters_count s + 1));; mret []
        else put (set_batching_iters s 0);; mret context_requests
      else mret context_requests
    else
      modify (λ s, set_waiting_iters s (adp_ctx_waiting_iters_count s + 1));;
      s ← get;
      let timeout_reached :=
        attention_dp_time_out_iters self <=? adp_ctx_waiting_iters_count s in
      if timeout_reached || negb (all_ranks_have_gen_requests responses_list)
      then put (set_waiting_iters s 0);; mret context_requests
      else mret [].

(** ** Waiting for a fuller batch *)

Definition context_compute (r : LlmRequest) : result Z :=
  let reusable := first_chunk_reusable r in
  let reusable_in_chunk := Z.max 0 (reusable - context_current_position r) in
  let remaining := context_remaining_length r in
  chunk ← context_chunk_size r;
  if reusable_in_chunk <=? 0 then Ok chunk
  else if reusable_in_chunk + chunk <? remaining then Ok chunk
  else Ok (Z.max 1 (remaining - reusable_in_chunk)).

Fixpoint sum_results {A} (f : A → result Z) (l : list A) : result Z :=
  match l with
  | [] => Ok 0
  | x :: l => n ← f x; m ← sum_results f l; Ok (n + m)
  end.

Definition _compute_scheduled_tokens (context_requests generation_requests : list LlmRequest) :
    result Z :=
  ctx ← sum_results context_compute context_requests;
  Ok (ctx + zsum ((λ r, 1 + num_draft_tokens r) <$> generation_requests)).

(** [self.batch_wait_timeout_iters > 0 or self.batch_wait_max_tokens_ratio > 0] *)
Definition enable_batch_waiting : bool :=
  (0 <? batch_wait_timeout_iters self) ||
  float_ltb (S754_zero false) (batch_wait_max_tokens_ratio self).

Definition _waiting_requests (context_requests generation_requests : list LlmRequest) :
    M BatchState (list LlmRequest) :=
  num_scheduled_tokens ← lift (_compute_scheduled_tokens context_requests generation_requests);
  s ← get;
  should_waiting ←
    (if batch_wait_iters_count s <? batch_wait_timeout_iters self then
       m ← lift (float_of_Z (bc_max_num_tokens self));
       mret (int_ltb_float num_scheduled_tokens (float_mul (batch_wait_max_tokens_ratio self) m))
     else mret false);
  if (should_waiting : bool)
  then put (set_batch_wait s (batch_wait_iters_count s + 1));; mret []
  else put (set_batch_wait s 0);; mret context_requests.

(** ** The attended-length cap *)

Definition _get_ctx_mla_kv_len_cap : M BatchState (option Z) :=
  s ← get;
  match _ctx_mla_kv_len_cap s with
  | Some cap => mret cap
  | None =>
      if bc_is_warmup self then mret None
      else
        let cap := c ← fp8_ctx_mla_kv_len_cap self; if c =? 0 then None else Some c in
        put (set_cap s cap);; mret cap
  end.

Definition _context_attended_kv_len (r : LlmRequest) : result Z :=
  let begin := context_current_position r in
  let begin := if is_first_context_chunk r
               then Z.max begin (estimated_reusable_tokens r) else begin in
  chunk ← context_chunk_size r;
  Ok (Z.min (begin + chunk) (orig_prompt_len self r)).

(** The [for] loop from index [i]: how many requests are kept from there. *)
Fixpoint cap_loop (cap : Z) (i : nat) (cumulative : Z) (l : list LlmRequest) : result nat :=
  match l with
  | [] => Ok i
  | r :: l =>
      n ← _context_attended_kv_len r;
      if (0 <? Z.of_nat i) && (cap <? cumulative + n) then Ok i
      else cap_loop cap (S i) (cumulative + n) l
  end.

Definition _cap_context_by_total_kv_len (context_requests : list LlmRequest) :
    M BatchState (list LlmRequest) :=
  cap ← _get_ctx_mla_kv_len_cap;
  match cap with
  | None => mret context_requests
  | Some cap =>
      if bool_decide (length context_requests ≤ 1)%nat then mret context_requests
      else i ← lift (cap_loop cap 0 0 context_requests); mret (take i context_requests)
  end.

(** ** [_schedule]

    From the scheduler's output on; the Mamba work-around is left out.
    [scheduled_context] is the first part: balancing and batch waiting. *)
Definition scheduled_context (responses_list : list rank_report) (out : SchedulerOutput) :
    M BatchState (list LlmRequest) :=
  scheduled_context_requests ←
    (if bc_enable_attention_dp self && attention_dp_enable_balance self
     then _balance_adp_requests responses_list (so_context out)
     else mret (so_context out));
  let should_check_waiting :=
    negb (bc_enable_attention_dp self) && enable_batch_waiting &&
    (0 <? length (so_context out))%nat && (0 <? length (so_generation out))%nat in
  if should_check_waiting
  then _waiting_requests (so_context out) (so_generation out)
  else mret scheduled_context_requests.

Definition _schedule (responses_list : list rank_report) (out : SchedulerOutput) :
    M BatchState (ScheduledRequests * list LlmRequest * Z) :=
  scheduled_context_requests ← scheduled_context responses_list out;
  scheduled_context_requests ← _cap_context_by_total_kv_len scheduled_context_requests;
  scheduled ← lift (reset_context_requests (Some scheduled_context_requests)
                      (mkScheduled (so_encoder out) [] [] [] []));
  mret (mkScheduled (sr_encoder_requests scheduled) (sr_context_requests_chunking scheduled)
          (sr_context_requests_last_chunk scheduled) (so_generation out) (so_paused out),
        so_fitting_disagg_gen_init out, so_num_fitting out).
End batching.
