(* ===== verification/BatchingProps.v ===== *)
(** * Holding back context requests: proofs

    However the waiting conditions turn out, context requests are held back
    for a bounded number of iterations; all ranks hold and release together;
    the attended-length cap trims as little as possible and never everything. *)

From S2P Require Import Prelude Requests PyFloat MicroBatch MicroBatchProps Unified Batching.

Local Open Scope Z_scope.

Section batching_props.
Context (self : BatchConfig).
Implicit Types (s : BatchState) (ctx gen : list LlmRequest).

(** The bounds of the counters, at least one iteration and none. *)
Definition patience : Z := Z.max 1 (attention_dp_time_out_iters self).
Definition batching : Z := Z.max 0 (attention_dp_batching_wait_iters self).
Definition batch_patience : Z := Z.max 0 (batch_wait_timeout_iters self).

Record counters_ok s : Prop := {
  waiting_range : 0 ≤ adp_ctx_waiting_iters_count s < patience;
  batching_range : 0 ≤ adp_ctx_batching_wait_iters_count s ≤ batching;
  batch_wait_range : 0 ≤ batch_wait_iters_count s ≤ batch_patience;
}.

Lemma init_counters_ok : counters_ok init_batch.
Proof. split; unfold patience, batching, batch_patience; simpl; lia. Qed.

(** How often balancing, or batch waiting, can still hold back. *)
Definition balance_left s : Z :=
  (batching - adp_ctx_batching_wait_iters_count s) * patience +
  (patience - 1 - adp_ctx_waiting_iters_count s).
Definition wait_left s : Z := batch_patience - batch_wait_iters_count s.

Lemma balance_left_range s : counters_ok s → 0 ≤ balance_left s < (batching + 1) * patience.
Proof. intros [Hw Hb _]. unfold balance_left. nia. Qed.

Lemma balance_spec rs ctx s :
  counters_ok s →
  ∃ out s', _balance_adp_requests self rs ctx s = (Ok out, s') ∧ counters_ok s' ∧
    batch_wait_iters_count s' = batch_wait_iters_count s ∧
    (out = ctx ∨ out = [] ∧ balance_left s' < balance_left s).
Proof.
  intros [Hw Hb Hq]. unfold _balance_adp_requests.
  destruct (attention_dp_enable_balance self); cbn [negb].
  2:{ exists ctx, s. split_and!; [done|done|done|by left]. }
  destruct (_ && _)%bool.
  - mrun. cbn [adp_ctx_batching_wait_iters_count set_waiting_iters].
    destruct (all_ranks_have_gen_requests rs).
    2:{ eexists ctx, _. split_and!; [done| |done|by left]. split; cbn; unfold patience; lia. }
    destruct (_ <? _) eqn:Hlt; eexists _, _; (split; [done|]);
      (split; [split; cbn; unfold patience, batching in *; lia|]); (split; [done|]).
    + right. split; [done|]. unfold balance_left. cbn. nia.
    + by left.
  - mrun. cbn [adp_ctx_waiting_iters_count set_waiting_iters].
    destruct (_ || _)%bool eqn:Hto; eexists _, _; (split; [done|]).
    + split; [split; cbn; unfold patience; lia|]. split; [done|by left].
    + apply orb_false_elim in Hto as [Hto _].
      split; [split; cbn; unfold patience in *; lia|]. split; [done|].
      right. split; [done|]. unfold balance_left. cbn. lia.
Qed.

Lemma sum_results_ok {A} (f : A → result Z) l :
  Forall (λ x, ∃ n, f x = Ok n) l → ∃ n, sum_results f l = Ok n.
Proof.
  induction 1 as [|x l [n Hn] _ [m Hm]]; simpl; [by eexists|]. rewrite Hn. simpl. rewrite Hm.
  by eexists.
Qed.

Lemma scheduled_tokens_ok ctx gen :
  Forall ctx_ok ctx → ∃ n, _compute_scheduled_tokens ctx gen = Ok n.
Proof.
  intros Hok. unfold _compute_scheduled_tokens.
  destruct (sum_results_ok context_compute ctx) as [n ->]; [|by eexists].
  apply (Forall_impl _ _ _ Hok). intros r Hr. unfold context_compute. rewrite get_chunk by done.
  simpl. destruct (_ <=? 0); [by eexists|]. destruct (_ <? _); by eexists.
Qed.

Context (Hfloat : ∃ m, float_of_Z (bc_max_num_tokens self) = Ok m).

Lemma waiting_spec ctx gen s :
  counters_ok s → Forall ctx_ok ctx →
  ∃ out s', _waiting_requests self ctx gen s = (Ok out, s') ∧ counters_ok s' ∧
    (out = ctx ∨ out = [] ∧ wait_left s' < wait_left s).
Proof.
  intros [Hw Hb Hq] Hok. destruct (scheduled_tokens_ok ctx gen Hok) as [n Hn].
  destruct Hfloat as [m Hm]. unfold _waiting_requests. mrun. rewrite Hn.
  assert (Hrelease : ∃ out s', (Ok ctx, set_batch_wait s 0) = (Ok out, s') ∧ counters_ok s' ∧
    (out = ctx ∨ out = [] ∧ wait_left s' < wait_left s)).
  { eexists _, _. split; [done|]. split; [|by left]. split; cbn; unfold batch_patience; lia. }
  destruct (_ <? _) eqn:Hlt; [rewrite Hm|done]. destruct (int_ltb_float _ _); [|done].
  eexists _, _. split; [done|]. unfold wait_left, batch_patience in *.
  split; [split; cbn; unfold batch_patience; lia|]. right. cbn. split; [done|lia].
Qed.

(** ** The cap *)

(** [_context_attended_kv_len] of a well-formed request. *)
Definition attended (r : LlmRequest) : Z :=
  Z.min ((if is_first_context_chunk r
          then Z.max (context_current_position r) (estimated_reusable_tokens r)
          else context_current_position r) + chunk_size_field r)
        (orig_prompt_len self r).

Lemma attended_spec r : ctx_ok r → _context_attended_kv_len self r = Ok (attended r).
Proof. intros H. unfold _context_attended_kv_len. by rewrite get_chunk. Qed.

Lemma cap_loop_spec cap i cum l :
  Forall ctx_ok l →
  ∃ j, cap_loop self cap i cum l = Ok (i + j)%nat ∧ (j ≤ length l)%nat ∧
    (i = 0%nat → l ≠ [] → (1 ≤ j)%nat) ∧
    ((0 < j)%nat → (2 ≤ i + j)%nat → cum + zsum (attended <$> take j l) ≤ cap) ∧
    ((j < length l)%nat → cap < cum + zsum (attended <$> take (S j) l)).
Proof.
  intros Hok. revert i cum. induction Hok as [|r l Hr Hok IH]; intros i cum; cbn [cap_loop].
  { exists 0%nat. rewrite Nat.add_0_r. simpl. split_and!; [done|lia|done|lia|lia]. }
  rewrite attended_spec by done. cbn [mbind result_bind].
  destruct (_ && _)%bool eqn:Hstop.
  { exists 0%nat. rewrite Nat.add_0_r. apply andb_prop in Hstop as [Hi Hc].
    split_and!; [done|simpl; lia|lia|lia|]. intros _. simpl.
    rewrite zsum_cons, zsum_nil. lia. }
  destruct (IH (S i) (cum + attended r)) as (j & -> & Hj & _ & Hle & Hgt).
  exists (S j). split_and!; [f_equal; lia|simpl; lia|intros; lia| |].
  - intros _ H2. rewrite firstn_cons, fmap_cons, zsum_cons. destruct j as [|j].
    + rewrite take_0, fmap_nil, zsum_nil. apply andb_false_iff in Hstop as [?|?]; lia.
    + specialize (Hle ltac:(lia) ltac:(lia)). lia.
  - intros H2. simpl in H2. specialize (Hgt ltac:(lia)).
    rewrite firstn_cons, fmap_cons, zsum_cons. lia.
Qed.

Lemma get_cap_spec s :
  ∃ cap s', _get_ctx_mla_kv_len_cap self s = (Ok cap, s') ∧
    adp_ctx_waiting_iters_count s' = adp_ctx_waiting_iters_count s ∧
    adp_ctx_batching_wait_iters_count s' = adp_ctx_batching_wait_iters_count s ∧
    batch_wait_iters_count s' = batch_wait_iters_count s ∧
    (_get_ctx_mla_kv_len_cap self s').1 = Ok cap.
Proof.
  unfold _get_ctx_mla_kv_len_cap. mrun. destruct (_ctx_mla_kv_len_cap s) as [cap|] eqn:Hc.
  { exists cap, s. by rewrite Hc. }
  destruct (bc_is_warmup self); [exists None, s; by rewrite Hc|].
  eexists _, _. split; [done|]. by cbn.
Qed.

Lemma cap_context_spec ctx s :
  Forall ctx_ok ctx →
  ∃ cap n s', _cap_context_by_total_kv_len self ctx s = (Ok (take n ctx), s') ∧
    (_get_ctx_mla_kv_len_cap self s).1 = Ok cap ∧
    adp_ctx_waiting_iters_count s' = adp_ctx_waiting_iters_count s ∧
    adp_ctx_batching_wait_iters_count s' = adp_ctx_batching_wait_iters_count s ∧
    batch_wait_iters_count s' = batch_wait_iters_count s ∧
    (n ≤ length ctx)%nat ∧ (ctx ≠ [] → (1 ≤ n)%nat) ∧
    match cap with
    | None => n = length ctx
    | Some c =>
        ((2 ≤ n)%nat → zsum (attended <$> take n ctx) ≤ c) ∧
        ((n < length ctx)%nat → c < zsum (attended <$> take (S n) ctx))
    end.
Proof.
  intros Hok. unfold _cap_context_by_total_kv_len.
  destruct (get_cap_spec s) as (cap & s1 & Hg & H1 & H2 & H3 & _).
  rewrite (bind_ok _ _ _ _ _ Hg), Hg. exists cap.
  assert (Hne : ctx ≠ [] → (1 ≤ length ctx)%nat) by (destruct ctx; simpl; [done|lia]).
  destruct cap as [c|].
  2:{ exists (length ctx), s1. rewrite firstn_all. by split_and!. }
  case_bool_decide as Hlen.
  { exists (length ctx), s1. rewrite firstn_all. split_and!; try done; lia. }
  destruct (cap_loop_spec c 0 0 ctx Hok) as (j & Hj & Hle & Hpos & Hsum & Hgt).
  exists j, s1. mrun. rewrite Hj. simpl in *. split_and!; try done.
  - by apply Hpos.
  - intros H. apply Hsum; lia.
Qed.

(** ** [_schedule] *)

Definition schedule_left s : Z :=
  if bc_enable_attention_dp self then balance_left s else wait_left s.

(** More iterations than context requests can be held back for. *)
Definition hold_bound : Z :=
  if bc_enable_attention_dp self then (batching + 1) * patience else batch_patience + 1.

Lemma schedule_left_range s : counters_ok s → 0 ≤ schedule_left s < hold_bound.
Proof.
  intros Hs. unfold schedule_left, hold_bound. destruct (bc_enable_attention_dp self).
  - by apply balance_left_range.
  - destruct Hs as [_ _ Hq]. unfold wait_left. lia.
Qed.

(** Balancing and batch waiting together release or use up patience. *)
Lemma hold_spec rs out s :
  counters_ok s → Forall ctx_ok (so_context out) →
  ∃ ctx s', scheduled_context self rs out s = (Ok ctx, s') ∧ counters_ok s' ∧
    (ctx = so_context out ∨ ctx = [] ∧ schedule_left s' < schedule_left s).
Proof.
  intros Hs Hok. unfold schedule_left, scheduled_context. destruct (bc_enable_attention_dp self); cbn [negb andb].
  - destruct (attention_dp_enable_balance self); [|exists (so_context out), s; by auto].
    destruct (balance_spec rs (so_context out) s Hs) as (ctx & s' & Hb & Hs' & _ & Hor).
    rewrite (bind_ok _ _ _ _ _ Hb). by exists ctx, s'.
  - destruct (_ && _ && _)%bool; [|exists (so_context out), s; by auto].
    destruct (waiting_spec (so_context out) (so_generation out) s Hs Hok) as (ctx & s' & Hw & Hr).
    rewrite (bind_ok (mret _) _ _ _ _ eq_refl). by exists ctx, s'.
Qed.

Lemma schedule_step_spec rs out s :
  counters_ok s → Forall ctx_ok (so_context out) →
  ∃ sched n s', _schedule self rs out s =
      (Ok (sched, so_fitting_disagg_gen_init out, so_num_fitting out), s') ∧ counters_ok s' ∧
    sr_context_requests sched ≡ₚ take n (so_context out) ∧
    sr_generation_requests sched = so_generation out ∧
    sr_paused_requests sched = so_paused out ∧ sr_encoder_requests sched = so_encoder out ∧
    ((1 ≤ n)%nat ∨ so_context out = [] ∨ schedule_left s' < schedule_left s).
Proof.
  intros Hs Hok. destruct (hold_spec rs out s Hs Hok) as (ctx & s1 & Hh & Hs1 & Hor).
  assert (Hctx : Forall ctx_ok ctx) by (destruct Hor as [->|[-> _]]; [done|constructor]).
  destruct (cap_context_spec ctx s1 Hctx)
    as (cap & n & s2 & Hcap & _ & H1 & H2 & H3 & Hn & Hpos & _).
  assert (Htake : Forall ctx_ok (take n ctx)) by (by apply Forall_take).
  eexists _, (if decide (ctx = []) then 0%nat else n), s2. split.
  { unfold _schedule. rewrite (bind_ok _ _ _ _ _ Hh), (bind_ok _ _ _ _ _ Hcap).
    mrun. unfold reset_context_requests. by rewrite (append_context_requests_spec _ _ Htake). }
  split; [destruct Hs1; split; by rewrite ?H1, ?H2, ?H3|]. split_and!; cbn; try done.
  - unfold sr_context_requests. cbn. rewrite filter_bool_perm.
    destruct Hor as [->|[-> _]]; [|by rewrite take_nil].
    destruct (decide _) as [->|]; [by rewrite take_nil|done].
  - destruct Hor as [->|[-> Hlt]].
    + destruct (decide _); [by auto|]. left. by apply Hpos.
    + right; right. unfold schedule_left, balance_left, wait_left in *. by rewrite H1, H2, H3.
Qed.

(** Iterations, each with what the ranks report and what the scheduler
    returns. *)
Fixpoint schedule_run (its : list (list rank_report * SchedulerOutput)) :
    M BatchState (list ScheduledRequests) :=
  match its with
  | [] => mret []
  | (rs, out) :: its =>
      '(sched, _, _) ← _schedule self rs out;
      rest ← schedule_run its;
      mret (sched :: rest)
  end.

Definition input_ok (it : list rank_report * SchedulerOutput) : Prop :=
  Forall ctx_ok (so_context it.2).

Lemma schedule_run_ok its s :
  counters_ok s → Forall input_ok its →
  ∃ outs s', schedule_run its s = (Ok outs, s') ∧ counters_ok s' ∧ length outs = length its.
Proof.
  intros Hs Hok. revert s Hs. induction Hok as [|[rs out] its Hi _ IH]; intros s Hs.
  { by exists [], s. }
  cbn [schedule_run]. destruct (schedule_step_spec rs out s Hs Hi) as (sched & n & s1 & Hsc & Hs1 & _).
  rewrite (bind_ok _ _ _ _ _ Hsc). destruct (IH s1 Hs1) as (outs & s' & Hr & Hs' & Hl).
  rewrite (bind_ok _ _ _ _ _ Hr). exists (sched :: outs), s'. split_and!; [done..|].
  simpl. by rewrite Hl.
Qed.

(** The first context request of one of the iterations is in its batch. *)
Definition progress (its : list (list rank_report * SchedulerOutput))
    (outs : list ScheduledRequests) : Prop :=
  ∃ i rs out sched r, its !! i = Some (rs, out) ∧ outs !! i = Some sched ∧
    head (so_context out) = Some r ∧ r ∈ sr_context_requests sched.

Lemma schedule_run_progress its s outs s' :
  counters_ok s → Forall input_ok its → Forall (λ it, so_context it.2 ≠ []) its →
  schedule_left s < Z.of_nat (length its) →
  schedule_run its s = (Ok outs, s') → progress its outs.
Proof.
  intros Hs Hok Hne. revert s outs s' Hs Hok.
  induction Hne as [|[rs out] its Hi _ IH]; intros s outs s' Hs Hok Hlen.
  { pose proof (schedule_left_range s Hs). simpl in Hlen. lia. }
  apply Forall_cons in Hok as [Hok1 Hok]. cbn [schedule_run]. simpl in Hlen, Hi.
  destruct (schedule_step_spec rs out s Hs Hok1) as (sched & n & s1 & Hsc & Hs1 & Hperm & _ & _ & _ & Hor).
  rewrite (bind_ok _ _ _ _ _ Hsc). destruct (schedule_run_ok its s1 Hs1 Hok) as (outs1 & s2 & Hr & _).
  rewrite (bind_ok _ _ _ _ _ Hr). intros [= <- <-]. destruct Hor as [Hn|[?|Hlt]]; [|done|].
  - destruct (so_context out) as [|r l] eqn:Hc; [done|].
    exists 0%nat, rs, out, sched, r. rewrite Hc. split_and!; [done..|]. rewrite Hperm.
    destruct n; [lia|]. simpl. left.
  - destruct (IH s1 outs1 s2 Hs1 Hok ltac:(lia) Hr) as (i & rs' & out' & sched' & r & ? & ? & ? & ?).
    by exists (S i), rs', out', sched', r.
Qed.

Lemma schedule_run_app its1 its2 s outs1 s1 outs2 s2 :
  schedule_run its1 s = (Ok outs1, s1) → schedule_run its2 s1 = (Ok outs2, s2) →
  schedule_run (its1 ++ its2) s = (Ok (outs1 ++ outs2), s2).
Proof.
  revert s outs1. induction its1 as [|[rs out] its1 IH]; intros s outs1; cbn [schedule_run app].
  { by intros [= <- <-]. }
  mrun. destruct (_schedule self rs out s) as [[[[sched fit] num]|e] sx]; [|done].
  destruct (schedule_run its1 sx) as [[l|e] sy] eqn:E; [|done].
  intros [= <- <-] H2. by rewrite (IH sx l E H2).
Qed.
End batching_props.

(** ** Properties *)

(** C14: holding back context requests is bounded.  Run [_schedule] from the
    start of the executor, whatever the ranks report and whatever well-formed
    output the scheduler gives.  It always returns, and in any stretch of
    iterations that all have context requests and that is as long as the bound
    ([timeout_iters] times [batching_wait_iters + 1] under attention DP,
    [batch_wait_timeout_iters + 1] otherwise), at least one iteration runs the
    first context request of the scheduler, even though balancing, batch
    waiting and the attended-length cap may each hold requests back. *)
Theorem context_requests_make_progress (self : BatchConfig)
    (before_ its : list (list rank_report * SchedulerOutput)) :
  (∃ m, float_of_Z (bc_max_num_tokens self) = Ok m) →
  Forall input_ok (before_ ++ its) →
  Forall (λ it, so_context it.2 ≠ []) its →
  hold_bound self ≤ Z.of_nat (length its) →
  ∃ outs1 outs2 s, schedule_run self (before_ ++ its) init_batch = (Ok (outs1 ++ outs2), s) ∧
    length outs1 = length before_ ∧ progress its outs2.
Proof.
  intros Hf Hok Hne Hlen. apply Forall_app in Hok as [Hok1 Hok2].
  destruct (schedule_run_ok self Hf before_ init_batch (init_counters_ok self) Hok1)
    as (outs1 & s1 & H1 & Hs1 & Hl1).
  destruct (schedule_run_ok self Hf its s1 Hs1 Hok2) as (outs2 & s2 & H2 & _).
  exists outs1, outs2, s2. split_and!; [by eapply schedule_run_app|done|].
  eapply (schedule_run_progress self Hf); [exact Hs1|done|done| |done].
  pose proof (schedule_left_range self s1 Hs1). lia.
Qed.

(** The attended-length cap.  [_cap_context_by_total_kv_len] keeps a
    prefix of the context requests, never an empty one when there are any;
    without a cap it keeps all.  With a cap, two or more kept requests attend
    to at most the cap together, and a request is deferred only when the kept
    ones and the next one would exceed it. *)
Theorem context_cap_is_tight (self : BatchConfig) (ctx : list LlmRequest) (s : BatchState) :
  Forall ctx_ok ctx →
  ∃ cap n s', _cap_context_by_total_kv_len self ctx s = (Ok (take n ctx), s') ∧
    (_get_ctx_mla_kv_len_cap self s).1 = Ok cap ∧
    (n ≤ length ctx)%nat ∧ (ctx ≠ [] → (1 ≤ n)%nat) ∧
    match cap with
    | None => n = length ctx
    | Some c =>
        ((2 ≤ n)%nat → zsum (attended self <$> take n ctx) ≤ c) ∧
        ((n < length ctx)%nat → c < zsum (attended self <$> take (S n) ctx))
    end.
Proof.
  intros Hok. destruct (cap_context_spec self ctx s Hok)
    as (cap & n & s' & ? & ? & _ & _ & _ & ? & ? & ?). by exists cap, n, s'.
Qed.

(** All ranks hold back, or release, in the same iteration: the decision and
    the counters depend on the gathered reports only. *)
Theorem ranks_release_together (self : BatchConfig) (rs : list rank_report)
    (ctx1 ctx2 : list LlmRequest) (s : BatchState) :
  ∃ s', (_balance_adp_requests self rs ctx1 s = (Ok ctx1, s') ∧
         _balance_adp_requests self rs ctx2 s = (Ok ctx2, s')) ∨
        (_balance_adp_requests self rs ctx1 s = (Ok [], s') ∧
         _balance_adp_requests self rs ctx2 s = (Ok [], s')).
Proof.
  unfold _balance_adp_requests. mrun.
  repeat match goal with |- context [if ?b then _ else _] => destruct b end;
    (eexists; first [by left|by right]).
Qed.

(** ** Examples *)

(** Two ranks; every second iteration one of them has no context request, so
    both ways of waiting are used. *)
Definition demo_batch_config : BatchConfig := {|
  bc_enable_attention_dp := true; attention_dp_enable_balance := true;
  attention_dp_time_out_iters := 2; attention_dp_batching_wait_iters := 1;
  batch_wait_timeout_iters := 0; batch_wait_max_tokens_ratio := S754_zero false;
  bc_max_num_tokens := 8; bc_max_batch_size := 4; bc_is_warmup := false;
  fp8_ctx_mla_kv_len_cap := Some 9; orig_prompt_len := prompt_len |}.

Definition demo_context : list LlmRequest :=
  [with_chunk_size (demo_request 2 CONTEXT_INIT 6 0) 6;
   with_chunk_size (demo_request 3 CONTEXT_INIT 5 0) 5].

Definition demo_its : list (list rank_report * SchedulerOutput) :=
  let out := mkOutput [] demo_context [demo_request 4 GENERATION_IN_PROGRESS 3 0] [] [] 3 in
  let report n := {| rp_context := n; rp_generation := 1; rp_tokens := 12 |} in
  [([report 2; report 0], out); ([report 2; report 1], out);
   ([report 2; report 0], out); ([report 2; report 1], out)].

Lemma demo_context_ok : Forall ctx_ok demo_context.
Proof. repeat constructor; vm_compute; congruence. Qed.

Lemma context_requests_make_progress_witness :
  ∃ outs1 outs2 s, schedule_run demo_batch_config ([] ++ demo_its) init_batch =
      (Ok (outs1 ++ outs2), s) ∧ length outs1 = 0%nat ∧ progress demo_its outs2.
Proof.
  apply (context_requests_make_progress demo_batch_config [] demo_its).
  - eexists. vm_compute. reflexivity.
  - repeat constructor; vm_compute; congruence.
  - repeat constructor; discriminate.
  - vm_compute. discriminate.
Defined.

Lemma context_cap_is_tight_witness :
  ∃ cap n s', _cap_context_by_total_kv_len demo_batch_config demo_context init_batch =
      (Ok (take n demo_context), s') ∧ cap = Some 9 ∧ n = 1%nat.
Proof.
  destruct (context_cap_is_tight demo_batch_config demo_context init_batch demo_context_ok)
    as (cap & n & s' & Heq & Hcap & Hle & Hpos & Hc).
  exists cap, n, s'. split; [exact Heq|].
  assert (cap = Some 9) as -> by (injection Hcap as <-; reflexivity). split; [reflexivity|].
  destruct n as [|[|n]]; [|reflexivity|].
  - destruct (Nat.nle_succ_0 0). apply Hpos. discriminate.
  - destruct n; [|simpl in Hle; lia]. destruct Hc as [Hc _].
    specialize (Hc ltac:(lia)). vm_compute in Hc. congruence.
Defined.

Example demo_schedule_run :
  match schedule_run demo_batch_config demo_its init_batch with
  | (Ok outs, _) => (λ o, request_id <$> sr_context_requests o) <$> outs = [[]; []; []; [2]]
  | _ => False
  end.
Proof. vm_compute. reflexivity. Qed.
