(* ===== verification/AdpRouter.v ===== *)
(** * Attention-DP request routing ([pyexecutor/scheduler/adp_router.py])

    Each attention-DP rank gathers the load of every rank, and every rank
    then runs the same routing function on the same new requests, with no
    further exchange.  Modelled: the states the ranks exchange and their
    transport, the three routers ([DefaultADPRouter], a min-heap on token
    load; [KVCacheAwareADPRouter], a floating-point score of cached prefix
    against load; [ConversationAwareADPRouter], sticky conversations with an
    LRU map), and the factory that picks one.

    The allgather, the radix-tree probe and the seeded shuffle are parameters
    of the operations that use them. *)

From S2P Require Import Prelude PySort Heapq PyFloat Requests Admission.

Local Open Scope Z_scope.

(** [getattr(request, "num_input_tokens", None)], else the token ids. *)
Definition num_input_tokens_of (r : option ExecutorRequest) : Z :=
  match r with
  | None => 0
  | Some r =>
      match num_input_tokens r with
      | Some n => n
      | None => Z.of_nat (length (input_token_ids r))
      end
  end.

(** ** Rank states *)

Record RankIterStatsPayload := mkPayload {
  has_iter_stats : Z;
  iter_stats_iter : Z;
  num_context_requests : Z;
  num_ctx_tokens : Z;
  num_ctx_kv_tokens : Z;
  num_gen_requests : Z;
  num_gen_kv_tokens : Z;
  num_paused_requests : Z;
  num_paused_kv_tokens : Z;
}.

Definition payload_defaults : list Z := [0; -1; 0; 0; 0; 0; 0; 0; 0].

Definition default_payload : RankIterStatsPayload := mkPayload 0 (-1) 0 0 0 0 0 0 0.

Definition payload_serialize (p : RankIterStatsPayload) : list Z :=
  [has_iter_stats p; iter_stats_iter p; num_context_requests p; num_ctx_tokens p;
   num_ctx_kv_tokens p; num_gen_requests p; num_gen_kv_tokens p; num_paused_requests p;
   num_paused_kv_tokens p].

(** [cls( *values)]: a wrong number of arguments is a [TypeError]. *)
Definition payload_of_values (values : list Z) : result RankIterStatsPayload :=
  match values with
  | [a; b; c; d; e; f; g; h; i] => Ok (mkPayload a b c d e f g h i)
  | _ => Raise TypeError
  end.

Definition payload_deserialize (data : list Z) : result RankIterStatsPayload :=
  if bool_decide (length payload_defaults < length data)%nat then Raise ValueError
  else payload_of_values (data ++ drop (length data) payload_defaults).

Record RankState := mkRankState {
  rank : Z;
  num_active_requests : Z;
  num_active_tokens : Z;
  iter_stats : RankIterStatsPayload;
}.

Definition copy_iter_stats_from (p : option RankIterStatsPayload) (s : RankState) : RankState :=
  match p with
  | None => s
  | Some p => mkRankState (rank s) (num_active_requests s) (num_active_tokens s) p
  end.

Definition serialize (s : RankState) : list Z :=
  [rank s; num_active_requests s; num_active_tokens s] ++ payload_serialize (iter_stats s).

(** The defaults of the two optional fields of the prefix. *)
Definition rank_prefix_defaults : list Z := [0; 0].

Definition deserialize (data : list Z) : result RankState :=
  if bool_decide (length data < 1)%nat then Raise ValueError
  else if bool_decide (3 + length payload_defaults < length data)%nat then Raise ValueError
  else
    let rank_values := take 3 data in
    match rank_values ++ drop (length rank_values - 1) rank_prefix_defaults with
    | [r; n; t] => p ← payload_deserialize (drop 3 data); Ok (mkRankState r n t p)
    | _ => Raise TypeError
    end.

(** ** Local load *)

(** The fields of an active [LlmRequest] the routers read. *)
Record ActiveRequest := {
  total_input_len_cp : Z;
  py_orig_prompt_len : Z;
  cached_tokens : Z;
}.

Record Dist := { has_cp_helix : bool; tp_rank : Z; dp_size : Z }.

(** [create_rank_state] of the default and conversation routers. *)
Definition create_rank_state (dist : Dist) (active_requests : list ActiveRequest) : RankState :=
  let tokens :=
    if has_cp_helix dist then zsum (total_input_len_cp <$> active_requests)
    else zsum (py_orig_prompt_len <$> active_requests) in
  mkRankState (tp_rank dist) (Z.of_nat (length active_requests)) tokens default_payload.

(** [gather_all_rank_states], over the collective operation. *)
Definition gather_all_rank_states (tp_allgather : list Z → list (list Z))
    (local_state : RankState) (iter_stats_payload : option RankIterStatsPayload) :
    result (list RankState) :=
  mapM (M:=result) deserialize
    (tp_allgather (serialize (copy_iter_stats_from iter_stats_payload local_state))).

(** ** Shared routing steps *)

(** The accumulators that routing mutates: the requests given to each rank
    and the number of active requests of each rank. *)
Record RouteAcc := mkAcc {
  new_of_rank : gmap Z (list RequestQueueItem);
  num_active : list Z;
}.

Definition acc_init (all_rank_states : list RankState) : RouteAcc :=
  mkAcc (foldl (λ m s, <[rank s := []]> m) ∅ all_rank_states)
    (num_active_requests <$> all_rank_states).

(** [all_ranks_new_requests[r].append(item)] *)
Definition append_to (r : Z) (item : RequestQueueItem) (m : gmap Z (list RequestQueueItem)) :
    result (gmap Z (list RequestQueueItem)) :=
  l ← of_option KeyError (m !! r);
  Ok (<[r := l ++ [item]]> m).

(** The requested rank, if the request names one. *)
Definition target_dp_rank (item : RequestQueueItem) : option Z :=
  sp ← scheduling_params_of item; attention_dp_rank sp.

(** Count a request on a rank and give it the request. *)
Definition place (r : Z) (item : RequestQueueItem) (a : RouteAcc) : result RouteAcc :=
  n ← py_getitem (num_active a) r;
  counts ← py_setitem (num_active a) r (n + 1);
  m ← append_to r item (new_of_rank a);
  Ok (mkAcc m counts).

(** The test [target is not None and counts[target] < max]. *)
Definition has_room (max_num_active_requests : Z) (target : option Z) (a : RouteAcc) :
    result bool :=
  match target with
  | None => Ok false
  | Some t => n ← py_getitem (num_active a) t; Ok (n <? max_num_active_requests)
  end.

Fixpoint assign_explicit_dp_ranks (max_num_active_requests : Z)
    (requests : list RequestQueueItem) (a : RouteAcc) :
    result (list RequestQueueItem * RouteAcc) :=
  match requests with
  | [] => Ok ([], a)
  | item :: requests =>
      b ← has_room max_num_active_requests (target_dp_rank item) a;
      if (b : bool) then
        a' ← place (default 0 (target_dp_rank item)) item a;
        assign_explicit_dp_ranks max_num_active_requests requests a'
      else
        '(remaining, a') ← assign_explicit_dp_ranks max_num_active_requests requests a;
        Ok (item :: remaining, a')
  end.

(** [max(l)] *)
Definition py_max (l : list Z) : result Z :=
  match l with [] => Raise ValueError | x :: l => Ok (foldl Z.max x l) end.

Definition expected_num_active_requests (counts : list Z) (num_new_requests tp_size : Z)
    (multiplier : float) (hard_cap : option Z) : result Z :=
  if tp_size =? 0 then Raise ZeroDivisionError
  else
    let fair_share := (zsum counts + num_new_requests + tp_size - 1) / tp_size in
    share ← (x ← float_of_Z fair_share; float_ceil (float_mul multiplier x));
    busiest ← py_max counts;
    let expected := Z.max share busiest in
    Ok (match hard_cap with Some c => Z.min expected c | None => expected end).

(** [get_relax_value] of the default and KV-cache-aware routers. *)
Definition get_relax_value (item : RequestQueueItem) : bool :=
  match scheduling_params_of item with
  | None => true
  | Some sp =>
      match attention_dp_rank sp with None => true | Some _ => attention_dp_relax sp end
  end.

(** ** The default router *)

(** [HeapVal] without its list: the list of a heap entry is shared with
    [all_ranks_new_scheduled_requests[rank]], where it is kept here. *)
Record HeapVal := mkHeapVal { hv_tokens : Z; hv_requests : Z; hv_rank : Z }.

(** Tuple order; the ranks of a heap are distinct, so the lists are never
    compared. *)
Definition heapval_ltb (x y : HeapVal) : bool :=
  (hv_tokens x <? hv_tokens y) ||
  ((hv_tokens x =? hv_tokens y) &&
   ((hv_requests x <? hv_requests y) ||
    ((hv_requests x =? hv_requests y) && (hv_rank x <? hv_rank y)))).

(** [HeapVal(all_ranks_num_active_tokens[r], val, r, [])] for each rank. *)
Definition heap_entries (tokens counts : list Z) : result (list HeapVal) :=
  mapM (M:=result)
    (λ '(r, n), t ← py_getitem tokens (Z.of_nat r); Ok (mkHeapVal t n (Z.of_nat r)))
    (imap pair counts).

(** The loop that pops the least loaded rank for each request. *)
Fixpoint balance_loop (expected : Z) (counted : list (Z * RequestQueueItem))
    (heap : list HeapVal) (scheduled : gmap Z (list RequestQueueItem)) :
    result (gmap Z (list RequestQueueItem)) :=
  match counted with
  | [] => Ok scheduled
  | (token_count, item) :: counted =>
      '(val, heap) ← of_option IndexError (heappop heapval_ltb heap);
      let val := mkHeapVal (hv_tokens val + token_count) (hv_requests val + 1) (hv_rank val) in
      scheduled ← append_to (hv_rank val) item scheduled;
      balance_loop expected counted
        (if hv_requests val <? expected then heappush heapval_ltb heap val else heap) scheduled
  end.

(** [for rank, reqs in scheduled.items(): new[rank].extend(reqs)] *)
Fixpoint extend_all (ranks : list Z) (scheduled m : gmap Z (list RequestQueueItem)) :
    result (gmap Z (list RequestQueueItem)) :=
  match ranks with
  | [] => Ok m
  | r :: ranks =>
      l ← of_option KeyError (m !! r);
      extend_all ranks scheduled (<[r := l ++ default [] (scheduled !! r)]> m)
  end.

(** [counted]: the requests with their token counts, heaviest first. *)
Definition counted_requests (new_requests : list RequestQueueItem) :
    list (Z * RequestQueueItem) :=
  sort_by (λ x y, y.1 <=? x.1)
    ((λ item, (num_input_tokens_of (request item), item)) <$> new_requests).

Definition balance_requests_across_ranks (new_requests : list RequestQueueItem) (a : RouteAcc)
    (tokens : list Z) (expected : Z) : result RouteAcc :=
  if bool_decide (new_requests = []) then Ok a
  else
    entries ← heap_entries tokens (num_active a);
    let heap := filter (λ v, hv_requests v <? expected) entries in
    let ranks := hv_rank <$> heap in
    scheduled ← balance_loop expected (counted_requests new_requests)
                  (heapify heapval_ltb heap) (list_to_map ((λ r, (r, [])) <$> ranks));
    m ← extend_all ranks scheduled (new_of_rank a);
    Ok (mkAcc m (num_active a)).

Definition default_route_requests (all_rank_states : list RankState)
    (new_requests : list RequestQueueItem) (max_num_active_requests : Z) :
    result (gmap Z (list RequestQueueItem) * Z) :=
  let sorted_requests := sort_by (key_leb (λ i, Z.b2z (get_relax_value i))) new_requests in
  '(remaining, a) ←
    assign_explicit_dp_ranks max_num_active_requests sorted_requests (acc_init all_rank_states);
  expected ← expected_num_active_requests (num_active a) (Z.of_nat (length remaining))
               (Z.of_nat (length all_rank_states)) float_1 (Some max_num_active_requests);
  a ← balance_requests_across_ranks remaining a (num_active_tokens <$> all_rank_states) expected;
  Ok (new_of_rank a, expected).

(** ** The KV-cache-aware router *)

Record KVCacheAwareADPRouter := mkKvRouter {
  load_balance_weight : float;
  match_rate_threshold : float;
  kv_fair_share_multiplier : float;
  account_for_in_transfer : bool;
  all_ranks_prefix_matches : list (gmap Z Z);
  pending_warmup_ranks : gset Z;
}.

Definition kv_router_init (dist : Dist) (weight threshold multiplier : float)
    (cold_start_warmup account_for_in_transfer : bool) : KVCacheAwareADPRouter :=
  mkKvRouter weight threshold multiplier account_for_in_transfer []
    (if cold_start_warmup then list_to_set (seqZ 0 (dp_size dist)) else ∅).

(** [create_rank_state]; [in_transfer] is what the transfer manager reports,
    [None] without one. *)
Definition kv_create_rank_state (dist : Dist) (self : KVCacheAwareADPRouter)
    (in_transfer : option (list ActiveRequest)) (active_requests : list ActiveRequest) :
    RankState :=
  let active_tokens (r : ActiveRequest) : Z :=
    if has_cp_helix dist then Z.max (total_input_len_cp r - cached_tokens r) 0
    else Z.max (py_orig_prompt_len r - cached_tokens r) 0 in
  let tokens := zsum (active_tokens <$> active_requests) in
  let n := Z.of_nat (length active_requests) in
  match account_for_in_transfer self, in_transfer with
  | true, Some l =>
      mkRankState (tp_rank dist) (n + Z.of_nat (length l)) (tokens + zsum (active_tokens <$> l))
        default_payload
  | _, _ => mkRankState (tp_rank dist) n tokens default_payload
  end.

(** [gather_prefix_matches]: the probe of the local radix tree gives the
    cached prefix length of a token list. *)
Definition local_prefix_matches (probe_prefix_match_length : ExecutorRequest → list Z → Z)
    (new_requests : list RequestQueueItem) : list Z :=
  concat ((λ item,
    match request item with
    | None => [id item; 0]
    | Some req =>
        let input_tokens := input_token_ids req in
        let probe_tokens :=
          if bool_decide (1 < length input_tokens)%nat
          then take (length input_tokens - 1) input_tokens else [] in
        [id item; probe_prefix_match_length req probe_tokens]
    end) <$> new_requests).

(** [for i in range(0, len(rank_data), 2): matches[data[i]] = data[i + 1]] *)
Fixpoint parse_matches (rank_data : list Z) (matches : gmap Z Z) : result (gmap Z Z) :=
  match rank_data with
  | [] => Ok matches
  | [_] => Raise IndexError
  | req_id :: n :: rank_data => parse_matches rank_data (<[req_id := n]> matches)
  end.

Definition gather_prefix_matches (tp_allgather : list Z → list (list Z))
    (probe_prefix_match_length : ExecutorRequest → list Z → Z)
    (new_requests : list RequestQueueItem) (self : KVCacheAwareADPRouter) :
    result KVCacheAwareADPRouter :=
  matches ← mapM (M:=result) (λ d, parse_matches d ∅)
    (tp_allgather (local_prefix_matches probe_prefix_match_length new_requests));
  Ok (mkKvRouter (load_balance_weight self) (match_rate_threshold self)
        (kv_fair_share_multiplier self) (account_for_in_transfer self) matches
        (pending_warmup_ranks self)).

Definition score_rank (self : KVCacheAwareADPRouter) (req_tokens match_len : Z)
    (rank_active_tokens load_denom : float) : result float :=
  let effective := req_tokens - match_len in
  ratio ← float_div rank_active_tokens load_denom;
  rt ← float_of_Z req_tokens;
  let normalized_load := float_mul ratio rt in
  e ← float_of_Z effective;
  Ok (float_add e (float_mul (load_balance_weight self) normalized_load)).

Definition prefix_fingerprint (token_ids : list Z) : list Z := take 64 token_ids.

(** Tuple order on integer tuples. *)
Fixpoint tuple_leb (x y : list Z) : bool :=
  match x, y with
  | [], _ => true
  | _ :: _, [] => false
  | a :: x, b :: y => (a <? b) || ((a =? b) && tuple_leb x y)
  end.

Definition match_len (self : KVCacheAwareADPRouter) (r req_id : Z) : result Z :=
  let matches := all_ranks_prefix_matches self in
  if r <? Z.of_nat (length matches) then
    m ← py_getitem matches r;
    Ok (default 0 (m !! req_id))
  else Ok 0.

(** The order of [_sort_key]: by fingerprint, then longest first. *)
Definition sort_key_leb (x y : RequestQueueItem) : bool :=
  let tokens i := match request i with Some r => input_token_ids r | None => [] end in
  let fx := prefix_fingerprint (tokens x) in
  let fy := prefix_fingerprint (tokens y) in
  if bool_decide (fx = fy) then (length (tokens y) <=? length (tokens x))%nat
  else tuple_leb fx fy.

(** [min(ranks)] of a non-empty set. *)
Definition set_min (X : gset Z) : option Z :=
  match elements X with [] => None | x :: l => Some (foldl Z.min x l) end.

(** Routing state: the accumulators, the float token tally of each rank and
    the router's own warm-up set. *)
Record KvAcc := mkKvAcc {
  kv_acc : RouteAcc;
  kv_tokens : list float;
  kv_pending : gset Z;
}.

(** [tokens[r] += n] *)
Definition add_tokens (r n : Z) (tokens : list float) : result (list float) :=
  t ← py_getitem tokens r;
  x ← float_of_Z n;
  py_setitem tokens r (float_add t x).

(** The first phase: explicit ranks, and warm-up of ranks not yet used. *)
Fixpoint kv_assign_explicit (self : KVCacheAwareADPRouter) (max_num_active_requests : Z)
    (requests : list RequestQueueItem) : M KvAcc (list RequestQueueItem) :=
  match requests with
  | [] => mret []
  | item :: requests =>
      s ← get;
      let target :=
        match target_dp_rank item with
        | Some t => Some t
        | None => set_min (kv_pending s)
        end in
      b ← lift (has_room max_num_active_requests target (kv_acc s));
      if (b : bool) then
        let t := default 0 target in
        a ← lift (place t item (kv_acc s));
        n ← lift (match_len self t (id item));
        tokens ← lift (add_tokens t
                         (Z.max (num_input_tokens_of (request item) - n) 0) (kv_tokens s));
        put (mkKvAcc a tokens (kv_pending s ∖ {[t]}));;
        kv_assign_explicit self max_num_active_requests requests
      else
        remaining ← kv_assign_explicit self max_num_active_requests requests;
        mret (item :: remaining)
  end.

(** The scan for the lowest score; ties fall to the lighter rank, then to the
    earlier one in the shuffled order. *)
Fixpoint best_rank_loop (self : KVCacheAwareADPRouter) (tokens : list float) (req_tokens : Z)
    (match_lens : Z → Z) (affinity : bool) (load_denom : float) (iter_ranks : list Z)
    (best_rank : Z) (best_score : float) : result Z :=
  match iter_ranks with
  | [] => Ok best_rank
  | r :: iter_ranks =>
      t ← py_getitem tokens r;
      score ← score_rank self req_tokens (if affinity then match_lens r else 0) t load_denom;
      tb ← py_getitem tokens best_rank;
      if float_ltb score best_score || (float_eqb score best_score && float_ltb t tb)
      then best_rank_loop self tokens req_tokens match_lens affinity load_denom iter_ranks r score
      else best_rank_loop self tokens req_tokens match_lens affinity load_denom iter_ranks
             best_rank best_score
  end.

(** [max(x, y)] on floats: the first unless the second is greater. *)
Definition float_max (x y : float) : float := if float_ltb x y then y else x.

(** [sum(tokens[r] for r in eligible_ranks)], from left to right.  The loads
    are whole numbers, so a compensated sum gives the same below [2^53]. *)
Fixpoint sum_tokens (tokens : list float) (ranks : list Z) (acc : float) : result float :=
  match ranks with
  | [] => Ok acc
  | r :: ranks => t ← py_getitem tokens r; sum_tokens tokens ranks (float_add acc t)
  end.

(** The rank one request goes to. *)
Definition choose_rank (self : KVCacheAwareADPRouter) (shuffle : Z → list Z → list Z)
    (tokens : list float) (eligible_ranks : list Z) (item : RequestQueueItem) : result Z :=
  let req_tokens := num_input_tokens_of (request item) in
  let iter_ranks := shuffle (id item) eligible_ranks in
  best_rank ← py_getitem iter_ranks 0;
  total_load ← sum_tokens tokens eligible_ranks (S754_zero false);
  rt ← float_of_Z req_tokens;
  let load_denom := float_max total_load rt in
  lens ← mapM (M:=result) (λ r, match_len self r (id item)) eligible_ranks;
  max_match ← py_max lens;
  ratio ← int_truediv max_match (Z.max req_tokens 1);
  let affinity := float_ltb (match_rate_threshold self) ratio in
  let match_lens (r : Z) := default 0 ((list_to_map (zip eligible_ranks lens) : gmap Z Z) !! r) in
  best_rank_loop self tokens req_tokens match_lens affinity load_denom iter_ranks best_rank float_inf.

(** The second phase: requests that no rank has room for are left out. *)
Fixpoint kv_assign_loop (self : KVCacheAwareADPRouter) (shuffle : Z → list Z → list Z)
    (expected : Z) (requests : list RequestQueueItem) (eligible_ranks : list Z) :
    M KvAcc () :=
  match requests with
  | [] => mret ()
  | item :: requests =>
      if bool_decide (eligible_ranks = []) then mret ()
      else
        s ← get;
        r ← lift (choose_rank self shuffle (kv_tokens s) eligible_ranks item);
        a ← lift (place r item (kv_acc s));
        n ← lift (match_len self r (id item));
        tokens ← lift (add_tokens r
                         (Z.max (num_input_tokens_of (request item) - n) 0) (kv_tokens s));
        put (mkKvAcc a tokens (kv_pending s));;
        count ← lift (py_getitem (num_active a) r);
        kv_assign_loop self shuffle expected requests
          (if expected <=? count then filter (λ x, x ≠ r) eligible_ranks else eligible_ranks)
  end.

(** [[r for r in range(tp_size) if counts[r] < cap]]; there is a count for
    every rank. *)
Definition ranks_under (cap : Z) (counts : list Z) (tp_size : Z) : list Z :=
  filter (λ r, default cap (counts !! Z.to_nat r) < cap) (seqZ 0 tp_size).

Definition kv_route_body (self : KVCacheAwareADPRouter) (shuffle : Z → list Z → list Z)
    (tp_size : Z) (new_requests : list RequestQueueItem) (max_num_active_requests : Z) :
    M KvAcc Z :=
  let sorted_requests := sort_by (key_leb (λ i, Z.b2z (get_relax_value i))) new_requests in
  remaining ← kv_assign_explicit self max_num_active_requests sorted_requests;
  let remaining := sort_by sort_key_leb remaining in
  s ← get;
  expected ← lift (expected_num_active_requests (num_active (kv_acc s))
                     (Z.of_nat (length remaining)) tp_size (kv_fair_share_multiplier self)
                     (Some max_num_active_requests));
  kv_assign_loop self shuffle expected remaining
    (ranks_under expected (num_active (kv_acc s)) tp_size);;
  mret expected.

(** [route_requests]; the router keeps its warm-up set also when the call
    raises. *)
Definition kv_route_requests (shuffle : Z → list Z → list Z) (all_rank_states : list RankState)
    (new_requests : list RequestQueueItem) (max_num_active_requests : Z) :
    M KVCacheAwareADPRouter (gmap Z (list RequestQueueItem) * Z) := λ self,
  match mapM (M:=result) (λ s, float_of_Z (num_active_tokens s)) all_rank_states with
  | Raise e => (Raise e, self)
  | Ok tokens =>
      let '(r, s) :=
        kv_route_body self shuffle (Z.of_nat (length all_rank_states)) new_requests
          max_num_active_requests
          (mkKvAcc (acc_init all_rank_states) tokens (pending_warmup_ranks self)) in
      let self' :=
        mkKvRouter (load_balance_weight self) (match_rate_threshold self)
          (kv_fair_share_multiplier self) (account_for_in_transfer self)
          (all_ranks_prefix_matches self) (kv_pending s) in
      (expected ← r; Ok (new_of_rank (kv_acc s), expected), self')
  end.

(** ** The conversation-aware router *)

Inductive placement := round_robin | least_queued.

(** [_conv_to_rank] is an [OrderedDict]: an association list, least recently
    used first. *)
Record ConversationAwareADPRouter := mkConvRouter {
  conv_to_rank : list (string * Z);
  max_sessions : Z;
  conv_fair_share_multiplier : float;
  new_conv_placement : placement;
  round_robin_cursor : Z;
}.

Definition conv_router_init (max_sessions : Z) (multiplier : float) (p : string) :
    ConversationAwareADPRouter :=
  mkConvRouter [] (Z.max 1 max_sessions) (float_max float_1 multiplier)
    (if bool_decide (p = "least_queued"%string) then least_queued else round_robin) 0.

(** [_conversation_id] *)
Definition conversation_id_of (item : RequestQueueItem) : option string :=
  req ← request item; conversation_id req.

(** [self._conv_to_rank.get(conv_id)] *)
Definition conv_lookup (conv_id : string) (l : list (string * Z)) : option Z :=
  snd <$> head (filter (λ e : string * Z, e.1 = conv_id) l).

(** The rank the request's conversation is bound to. *)
Definition bound_rank (self : ConversationAwareADPRouter) (item : RequestQueueItem) : option Z :=
  c ← conversation_id_of item; conv_lookup c (conv_to_rank self).

(** [while len(d) > max_sessions: d.popitem(last=False)] *)
Fixpoint evict_oldest (max_sessions : Z) (l : list (string * Z)) : list (string * Z) :=
  match l with
  | [] => []
  | e :: l' =>
      if max_sessions <? Z.of_nat (length l) then evict_oldest max_sessions l' else l
  end.

(** Binding a conversation moves it to the recent end. *)
Definition record_target_rank (conv_id : string) (r : Z) (self : ConversationAwareADPRouter) :
    ConversationAwareADPRouter :=
  mkConvRouter
    (evict_oldest (max_sessions self)
       (filter (λ e : string * Z, e.1 ≠ conv_id) (conv_to_rank self) ++ [(conv_id, r)]))
    (max_sessions self) (conv_fair_share_multiplier self) (new_conv_placement self)
    (round_robin_cursor self).

Record ConvAcc := mkConvAcc { conv_acc : RouteAcc; conv_self : ConversationAwareADPRouter }.

Fixpoint assign_new_conversation_explicit_dp_ranks (max_num_active_requests : Z)
    (requests : list RequestQueueItem) : M ConvAcc (list RequestQueueItem) :=
  match requests with
  | [] => mret []
  | item :: requests =>
      s ← get;
      let conv_id := conversation_id_of item in
      let bound := bound_rank (conv_self s) item in
      b ← lift (if bool_decide (is_Some bound) then Ok false
                else has_room max_num_active_requests (target_dp_rank item) (conv_acc s));
      if (b : bool) then
        let t := default 0 (target_dp_rank item) in
        a ← lift (place t item (conv_acc s));
        put (mkConvAcc a
               (match conv_id with
                | Some c => record_target_rank c t (conv_self s)
                | None => conv_self s
                end));;
        assign_new_conversation_explicit_dp_ranks max_num_active_requests requests
      else
        remaining ← assign_new_conversation_explicit_dp_ranks max_num_active_requests requests;
        mret (item :: remaining)
  end.

(** [min(cands, key=lambda r: (counts[r], r))] *)
Definition least_of (counts : list Z) (cands : list Z) : result Z :=
  match cands with
  | [] => Raise ValueError
  | r :: cands =>
      let count x := default 0 (counts !! Z.to_nat x) in
      Ok (foldl (λ b x, if (count x <? count b) || ((count x =? count b) && (x <? b)) then x else b)
            r cands)
  end.

(** [_least_loaded] *)
Definition least_loaded (counts : list Z) (tp_size soft_cap : Z) : result Z :=
  let cands := ranks_under soft_cap counts tp_size in
  least_of counts (if bool_decide (cands = []) then seqZ 0 tp_size else cands).

(** The scan of [_next_rr]: the rank found, if any, and the cursor. *)
Fixpoint next_rr_scan (n : nat) (counts : list Z) (tp_size soft_cap cursor : Z) :
    option Z * Z :=
  match n with
  | O => (None, cursor)
  | S n =>
      let r := cursor `mod` tp_size in
      let cursor' := (cursor + 1) `mod` tp_size in
      if default soft_cap (counts !! Z.to_nat r) <? soft_cap then (Some r, cursor')
      else next_rr_scan n counts tp_size soft_cap cursor'
  end.

Definition next_rr (counts : list Z) (tp_size soft_cap cursor : Z) : result Z * Z :=
  match next_rr_scan (Z.to_nat tp_size) counts tp_size soft_cap cursor with
  | (Some r, cursor') => (Ok r, cursor')
  | (None, cursor') => (least_loaded counts tp_size soft_cap, cursor')
  end.

Definition with_cursor (c : Z) (self : ConversationAwareADPRouter) : ConversationAwareADPRouter :=
  mkConvRouter (conv_to_rank self) (max_sessions self) (conv_fair_share_multiplier self)
    (new_conv_placement self) c.

(** Placement of a request without a usable binding. *)
Definition place_new (tp_size expected : Z) : M ConvAcc Z := λ s,
  let counts := num_active (conv_acc s) in
  match new_conv_placement (conv_self s) with
  | least_queued => (least_loaded counts tp_size expected, s)
  | round_robin =>
      let '(r, c) := next_rr counts tp_size expected (round_robin_cursor (conv_self s)) in
      (r, mkConvAcc (conv_acc s) (with_cursor c (conv_self s)))
  end.

Definition bind_conversation (conv_id : option string) (r : Z) : M ConvAcc () :=
  modify (λ s, match conv_id with
               | Some c => mkConvAcc (conv_acc s) (record_target_rank c r (conv_self s))
               | None => s
               end).

(** The rank of one request: its conversation's, or a new placement. *)
Definition conv_choose (tp_size max_num_active_requests expected : Z) (item : RequestQueueItem) :
    M ConvAcc Z :=
  let conv_id := conversation_id_of item in
  s ← get;
  let bound := bound_rank (conv_self s) item in
  b ← lift (has_room max_num_active_requests bound (conv_acc s));
  if (b : bool) then
    let t := default 0 bound in
    bind_conversation conv_id t;;
    mret t
  else
    r ← place_new tp_size expected;
    (if bool_decide (is_Some bound) then mret () else bind_conversation conv_id r);;
    mret r.

Fixpoint conv_loop (tp_size max_num_active_requests expected : Z)
    (requests : list RequestQueueItem) : M ConvAcc () :=
  match requests with
  | [] => mret ()
  | item :: requests =>
      r ← conv_choose tp_size max_num_active_requests expected item;
      s ← get;
      a ← lift (place r item (conv_acc s));
      put (mkConvAcc a (conv_self s));;
      conv_loop tp_size max_num_active_requests expected requests
  end.

(** [get_relax_value] of this router. *)
Definition conv_relax_value (item : RequestQueueItem) : bool :=
  match scheduling_params_of item with None => true | Some sp => attention_dp_relax sp end.

Definition conv_route_body (tp_size : Z) (new_requests : list RequestQueueItem)
    (max_num_active_requests : Z) : M ConvAcc Z :=
  let sorted_requests := sort_by (key_leb (λ i, Z.b2z (conv_relax_value i))) new_requests in
  remaining ← assign_new_conversation_explicit_dp_ranks max_num_active_requests sorted_requests;
  s ← get;
  expected ← lift (expected_num_active_requests (num_active (conv_acc s))
                     (Z.of_nat (length remaining)) tp_size
                     (conv_fair_share_multiplier (conv_self s)) None);
  conv_loop tp_size max_num_active_requests expected remaining;;
  s ← get;
  busiest ← lift (py_max (num_active (conv_acc s)));
  mret (Z.max expected busiest).

Definition conv_route_requests (all_rank_states : list RankState)
    (new_requests : list RequestQueueItem) (max_num_active_requests : Z) :
    M ConversationAwareADPRouter (gmap Z (list RequestQueueItem) * Z) := λ self,
  let '(r, s) :=
    conv_route_body (Z.of_nat (length all_rank_states)) new_requests max_num_active_requests
      (mkConvAcc (acc_init all_rank_states) self) in
  (expected ← r; Ok (new_of_rank (conv_acc s), expected), conv_self s).

(** ** The factory *)

Record AttentionDpConfig := {
  kv_cache_routing_conversation_affinity : bool;
  enable_kv_cache_aware_routing : bool;
  kv_cache_routing_load_balance_weight : float;
  kv_cache_routing_match_rate_threshold : float;
  kv_cache_routing_fair_share_multiplier : float;
  kv_cache_routing_cold_start_warmup : bool;
  kv_cache_routing_account_for_in_transfer : bool;
  kv_cache_routing_max_sessions : Z;
  kv_cache_routing_new_conv_placement : string;
}.

Inductive ADPRouter :=
| DefaultRouter
| KvRouter (r : KVCacheAwareADPRouter)
| ConvRouter (r : ConversationAwareADPRouter).

(** [ADPRouter.create]; [enable_block_reuse] is [None] without a KV cache
    manager. *)
Definition create (dist : Dist) (enable_block_reuse : option bool)
    (attention_dp_config : option AttentionDpConfig) : ADPRouter :=
  match attention_dp_config with
  | None => DefaultRouter
  | Some c =>
      if kv_cache_routing_conversation_affinity c then
        ConvRouter (conv_router_init (kv_cache_routing_max_sessions c)
                      (kv_cache_routing_fair_share_multiplier c)
                      (kv_cache_routing_new_conv_placement c))
      else if enable_kv_cache_aware_routing c && default false enable_block_reuse then
        KvRouter (kv_router_init dist (kv_cache_routing_load_balance_weight c)
                    (kv_cache_routing_match_rate_threshold c)
                    (kv_cache_routing_fair_share_multiplier c)
                    (kv_cache_routing_cold_start_warmup c)
                    (kv_cache_routing_account_for_in_transfer c))
      else DefaultRouter
  end.

(** [route_requests] of whichever router is in use. *)
Definition route_requests (shuffle : Z → list Z → list Z) (all_rank_states : list RankState)
    (new_requests : list RequestQueueItem) (max_num_active_requests : Z) :
    M ADPRouter (gmap Z (list RequestQueueItem) * Z) := λ r,
  match r with
  | DefaultRouter =>
      (default_route_requests all_rank_states new_requests max_num_active_requests, r)
  | KvRouter k =>
      let '(res, k') :=
        kv_route_requests shuffle all_rank_states new_requests max_num_active_requests k in
      (res, KvRouter k')
  | ConvRouter c =>
      let '(res, c') :=
        conv_route_requests all_rank_states new_requests max_num_active_requests c in
      (res, ConvRouter c')
  end.
