(* ===== verification/AdpRouterProps.v ===== *)
(** * Correctness of attention-DP routing

    The transport of rank states round-trips; every router places every new
    request on exactly one rank and keeps the per-rank loads within the caps
    it announces; the heap of the default router is an implementation of
    least-loaded placement. *)

From S2P Require Import Prelude PySort Heapq PyFloat Requests Admission AdpRouter.

Local Open Scope Z_scope.

(** Run the error monad on rewritten calls. *)
Ltac rrun :=
  cbv beta iota zeta delta [mbind M_bind mret M_ret result_bind result_ret get gets put modify
    lift raise of_option].

(** ** Transport *)

Lemma payload_roundtrip p : payload_deserialize (payload_serialize p) = Ok p.
Proof. by destruct p. Qed.

(** Decoding pads the omitted trailing fields with their defaults. *)
Lemma payload_deserialize_pads data :
  (length data ≤ 9)%nat →
  ∃ p, payload_deserialize data = Ok p ∧
    payload_serialize p = data ++ drop (length data) payload_defaults.
Proof.
  intros Hl. unfold payload_deserialize. rewrite bool_decide_eq_false_2 by (cbn; lia).
  do 10 (destruct data as [|? data]; [by eexists|]). simpl in Hl. lia.
Qed.

(** A [RankState] survives the allgather transport unchanged; a shorter
    message (from a sender that omits trailing fields) decodes to the state
    with the defaults in the omitted places, and decoding fails exactly on an
    empty message and on one longer than the twelve known fields. *)
Theorem rank_state_transport_roundtrip :
  (∀ s, deserialize (serialize s) = Ok s) ∧
  (∀ data, (1 ≤ length data ≤ 12)%nat →
     ∃ s, deserialize data = Ok s ∧
       serialize s = data ++ drop (length data) (0 :: rank_prefix_defaults ++ payload_defaults)) ∧
  (∀ data, (length data < 1 ∨ 12 < length data)%nat → deserialize data = Raise ValueError).
Proof.
  split_and!.
  - intros [r n t []]. done.
  - intros data Hl. do 3 (destruct data as [|? data]; [try (simpl in Hl; lia); by eexists|]).
    destruct (payload_deserialize_pads data) as (p & Hp & Hs); [simpl in Hl; lia|].
    unfold deserialize. rewrite !bool_decide_eq_false_2 by (simpl in *; lia).
    cbn [take drop length app rank_prefix_defaults Nat.sub]. rewrite ?take_0, ?drop_0. cbn [app]. rewrite Hp. eexists. split; [done|].
    unfold serialize. cbn [rank num_active_requests num_active_tokens iter_stats app].
    rewrite Hs. done.
  - intros data Hl. unfold deserialize. case_bool_decide; [done|].
    rewrite bool_decide_eq_true_2; [done|]. cbn. lia.
Qed.

Lemma rank_state_transport_witness :
  deserialize [3; 2] = Ok (mkRankState 3 2 0 default_payload) ∧
  (∃ s, deserialize [3; 2] = Ok s ∧
     serialize s = [3; 2] ++ drop (length [3; 2]) (0 :: rank_prefix_defaults ++ payload_defaults)) ∧
  deserialize [] = Raise ValueError.
Proof.
  split; [reflexivity|].
  destruct rank_state_transport_roundtrip as (_ & Hpad & Herr). split.
  - apply Hpad. cbn. lia.
  - apply Herr. cbn. lia.
Defined.

Lemma mapM_ok {A B} (f : A → result B) (g : A → B) l :
  (∀ x, x ∈ l → f x = Ok (g x)) → mapM (M:=result) f l = Ok (g <$> l).
Proof.
  induction l as [|x l IH]; intros H; [done|]. apply result_bind_ok.
  exists (g x). split; [apply H; left|]. apply result_bind_ok. exists (g <$> l).
  split; [|done]. apply IH. intros y Hy. apply H. by right.
Qed.

(** When the collective hands every rank the contributions of all ranks in
    rank order, each rank ends up with the same list: the states all ranks
    built, statistics payload included. *)
Theorem gathered_states_agree (states : list RankState)
    (payloads : Z → option RankIterStatsPayload) (allgather : Z → list Z → list (list Z)) :
  let sent s := copy_iter_stats_from (payloads (rank s)) s in
  (∀ r x, allgather r x = serialize ∘ sent <$> states) →
  ∀ s, s ∈ states →
    gather_all_rank_states (allgather (rank s)) s (payloads (rank s)) = Ok (sent <$> states).
Proof.
  intros sent Hall s _. unfold gather_all_rank_states. rewrite Hall.
  rewrite (mapM_ok _ (λ d, match deserialize d with Ok s => s | Raise _ => s end)).
  - f_equal. rewrite <- list_fmap_compose. apply list_fmap_ext. intros i x _. cbn.
    by destruct (sent x) as [? ? ? []].
  - intros d (x & -> & _)%list_elem_of_fmap. cbn. by destruct (sent x) as [? ? ? []].
Qed.

Lemma gathered_states_witness :
  let s0 := mkRankState 0 3 100 default_payload in
  let s1 := mkRankState 1 5 70 default_payload in
  let p (r : Z) := if r =? 1 then Some (mkPayload 1 7 2 30 60 3 90 0 0) else None in
  gather_all_rank_states (λ _, [serialize s0; serialize (copy_iter_stats_from (p 1) s1)]) s0 (p 0) =
  Ok [s0; copy_iter_stats_from (p 1) s1].
Proof.
  intros s0 s1 p.
  apply (gathered_states_agree [s0; s1] p
           (λ _ _, [serialize s0; serialize (copy_iter_stats_from (p 1) s1)])); [done|left].
Defined.

(** ** Loads *)

(** The requests given to a rank. *)
Definition items_of (m : gmap Z (list RequestQueueItem)) (r : Z) : list RequestQueueItem :=
  default [] (m !! r).

Lemma items_of_insert m r l x :
  items_of (<[r := l]> m) x = if bool_decide (x = r) then l else items_of m x.
Proof.
  unfold items_of. case_bool_decide as Hx; [by rewrite Hx, lookup_insert_eq|].
  by rewrite lookup_insert_ne by done.
Qed.

Section loads.
Context (base : list Z).

Local Abbreviation n := (Z.of_nat (length base)).

(** The requests active on a rank before routing, plus those given to it. *)
Definition load (m : gmap Z (list RequestQueueItem)) (r : Z) : Z :=
  default 0 (base !! Z.to_nat r) + Z.of_nat (length (items_of m r)).

(** All requests given out, rank by rank. *)
Definition placed (m : gmap Z (list RequestQueueItem)) : list RequestQueueItem :=
  seqZ 0 n ≫= items_of m.

Record map_ok (m : gmap Z (list RequestQueueItem)) : Prop := {
  mo_dom : ∀ r, is_Some (m !! r) ↔ 0 ≤ r < n;
}.

(** The counts are the loads. *)
Record acc_ok (a : RouteAcc) : Prop := {
  ao_map : map_ok (new_of_rank a);
  ao_len : length (num_active a) = length base;
  ao_count : ∀ r, 0 ≤ r < n → num_active a !! Z.to_nat r = Some (load (new_of_rank a) r);
}.

Lemma bind_insert_perm (ranks : list Z) (m : gmap Z (list RequestQueueItem)) r k :
  NoDup ranks → r ∈ ranks →
  (ranks ≫= items_of (<[r := items_of m r ++ k]> m)) ≡ₚ k ++ (ranks ≫= items_of m).
Proof.
  assert (Hne : ∀ l : list Z, r ∉ l →
    (l ≫= items_of (<[r := items_of m r ++ k]> m)) = (l ≫= items_of m)).
  { induction l as [|x l IH]; [done|]. intros [? ?]%not_elem_of_cons.
    rewrite !bind_cons, items_of_insert, IH by done. by rewrite bool_decide_eq_false_2 by done. }
  induction 1 as [|x ranks Hx Hnd IH]; intros Hr; [by apply not_elem_of_nil in Hr|].
  rewrite !bind_cons, items_of_insert. case_bool_decide as Hxr.
  - subst x. rewrite Hne by done. rewrite (Permutation_app_comm _ k). by rewrite <- (assoc_L (++)).
  - apply elem_of_cons in Hr as [|Hr]; [done|].
    rewrite (IH Hr), !(assoc_L (++)). by rewrite (Permutation_app_comm _ k).
Qed.

Lemma placed_insert m r k :
  0 ≤ r < n → placed (<[r := items_of m r ++ k]> m) ≡ₚ k ++ placed m.
Proof. intros Hr. apply bind_insert_perm; [apply NoDup_seqZ|]. apply elem_of_seqZ. lia. Qed.

Lemma load_insert m r k x :
  load (<[r := items_of m r ++ k]> m) x =
  load m x + (if bool_decide (x = r) then Z.of_nat (length k) else 0).
Proof.
  unfold load. rewrite items_of_insert. case_bool_decide; [|lia]. subst x. rewrite length_app. lia.
Qed.

Lemma map_ok_insert m r l : map_ok m → 0 ≤ r < n → map_ok (<[r := l]> m).
Proof.
  intros [Hd] Hr. split. intros x. rewrite lookup_insert_is_Some. rewrite Hd.
  destruct (decide (r = x)) as [->|]; naive_solver.
Qed.

Lemma append_to_ok m r x :
  map_ok m → 0 ≤ r < n → append_to r x m = Ok (<[r := items_of m r ++ [x]]> m).
Proof.
  intros [Hd] Hr. unfold append_to. destruct (proj2 (Hd r) Hr) as [l Hl]. unfold items_of. by rewrite Hl.
Qed.

Lemma place_ok a r x :
  acc_ok a → 0 ≤ r < n →
  ∃ a', place r x a = Ok a' ∧ acc_ok a' ∧
    new_of_rank a' = <[r := items_of (new_of_rank a) r ++ [x]]> (new_of_rank a).
Proof.
  intros [Hm Hl Hc] Hr. unfold place.
  rewrite (py_getitem_nonneg _ _ (load (new_of_rank a) r)) by (try apply Hc; lia). rrun.
  unfold py_setitem. rewrite py_index_nonneg by lia. rrun. rewrite append_to_ok by done. rrun.
  eexists. split; [done|]. split; [|done]. split; cbn [new_of_rank num_active].
  - by apply map_ok_insert.
  - by rewrite length_insert.
  - intros x' Hx'. rewrite load_insert. destruct (decide (x' = r)) as [->|Hne].
    + rewrite list_lookup_insert_eq by lia. rewrite bool_decide_eq_true_2 by done. simpl. f_equal; lia.
    + rewrite list_lookup_insert_ne by lia. rewrite bool_decide_eq_false_2 by done.
      rewrite Z.add_0_r. by apply Hc.
Qed.

Lemma has_room_ok cap t a :
  acc_ok a → (∀ r, t = Some r → 0 ≤ r < n) →
  has_room cap t a = Ok (match t with Some r => load (new_of_rank a) r <? cap | None => false end).
Proof.
  intros [Hm Hl Hc] Ht. destruct t as [r|]; [|done]. cbn [has_room].
  specialize (Ht r eq_refl). rewrite (py_getitem_nonneg _ _ (load (new_of_rank a) r)); [done|lia|].
  by apply Hc.
Qed.

(** ** Room under a cap *)

(** How many more requests the ranks take before each has [cap]. *)
Definition room (cap : Z) (m : gmap Z (list RequestQueueItem)) : Z :=
  zsum ((λ r, Z.max 0 (cap - load m r)) <$> seqZ 0 n).

Lemma room_insert cap m r x :
  0 ≤ r < n → load m r < cap → room cap (<[r := items_of m r ++ [x]]> m) = room cap m - 1.
Proof.
  intros Hr Hl. unfold room. rewrite <- (zsum_update (λ y, Z.max 0 (cap - load m y)) _ (seqZ 0 n) r (-1)).
  - lia.
  - apply NoDup_seqZ.
  - apply elem_of_seqZ. lia.
  - intros y _ Hy. rewrite load_insert, bool_decide_eq_false_2 by done. f_equal. lia.
  - rewrite load_insert, bool_decide_eq_true_2 by done. simpl. lia.
Qed.

Lemma base_sum : zsum ((λ r, default 0 (base !! Z.to_nat r)) <$> seqZ 0 n) = zsum base.
Proof.
  f_equal. apply list_eq. intros i. rewrite list_lookup_fmap.
  destruct (decide (i < length base)%nat) as [Hi|Hi].
  - rewrite lookup_seqZ_lt, Z.add_0_l by lia. cbn [fmap option_fmap option_map]. rewrite Nat2Z.id.
    destruct (lookup_lt_is_Some_2 base i Hi) as [x Hx]. by rewrite Hx.
  - rewrite lookup_seqZ_ge by lia. by rewrite lookup_ge_None_2 by lia.
Qed.

Lemma load_sum m : zsum (load m <$> seqZ 0 n) = zsum base + Z.of_nat (length (placed m)).
Proof.
  rewrite <- base_sum. unfold placed, load. generalize (seqZ 0 n). intros l.
  induction l as [|r l IH]; [done|]. rewrite !fmap_cons, !zsum_cons, bind_cons, length_app, IH. lia.
Qed.

Lemma counts_are_loads a : acc_ok a → num_active a = load (new_of_rank a) <$> seqZ 0 n.
Proof.
  intros [_ Hl Hc]. apply list_eq. intros i. rewrite list_lookup_fmap.
  destruct (decide (i < length base)%nat) as [Hi|Hi].
  - rewrite lookup_seqZ_lt, Z.add_0_l by lia. cbn [fmap option_fmap option_map]. rewrite <- Hc by lia. by rewrite Nat2Z.id.
  - rewrite lookup_seqZ_ge by lia. by rewrite lookup_ge_None_2 by lia.
Qed.

(** A cap that no rank exceeds leaves at least [cap * n] minus the load. *)
Lemma room_bound cap m :
  cap * n - zsum base - Z.of_nat (length (placed m)) ≤ room cap m.
Proof.
  rewrite <- Z.sub_add_distr, <- load_sum. unfold room.
  assert (∀ l : list Z, cap * Z.of_nat (length l) - zsum (load m <$> l) ≤
    zsum ((λ r, Z.max 0 (cap - load m r)) <$> l)) as Hall.
  { induction l as [|r l IH]; [simpl; rewrite zsum_nil; lia|].
    rewrite !fmap_cons, !zsum_cons. simpl length. lia. }
  specialize (Hall (seqZ 0 n)). rewrite length_seqZ, Nat2Z.id in Hall. lia.
Qed.

Lemma room_mono cap cap' m : cap ≤ cap' → room cap m ≤ room cap' m.
Proof. intros Hc. apply zsum_le. intros r _. lia. Qed.

Lemma room_nonneg cap m : 0 ≤ room cap m.
Proof. apply zsum_nonneg, Forall_fmap, Forall_forall. intros. cbn. lia. Qed.

(** ** Explicit ranks *)

Definition under (cap : Z) (m : gmap Z (list RequestQueueItem)) : Prop :=
  ∀ r, 0 ≤ r < n → load m r ≤ cap.

Lemma under_insert cap m r x :
  under cap m → load m r < cap → under cap (<[r := items_of m r ++ [x]]> m).
Proof.
  intros Hu Hr y Hy. rewrite load_insert. specialize (Hu y Hy). case_bool_decide; [subst|]; simpl; lia.
Qed.

(** What the explicit phase leaves: every request that names a rank is on that
    rank, or the rank is full. *)
Record explicit_phase (cap : Z) (requests : list RequestQueueItem)
    (m : gmap Z (list RequestQueueItem)) (remaining : list RequestQueueItem)
    (m' : gmap Z (list RequestQueueItem)) : Prop := {
  ep_split : remaining ++ placed m' ≡ₚ requests ++ placed m;
  ep_under : under cap m';
  ep_room : room cap m' - Z.of_nat (length remaining) =
    room cap m - Z.of_nat (length requests);
  ep_mono : ∀ r, load m r ≤ load m' r;
  ep_target : ∀ x t, x ∈ requests → target_dp_rank x = Some t →
    x ∈ items_of m' t ∨ load m' t = cap;
  ep_sub : ∀ r x, x ∈ items_of m r → x ∈ items_of m' r;
}.

Lemma explicit_phase_placed cap m r x requests remaining m' :
  0 ≤ r < n → load m r < cap → (∀ t, target_dp_rank x = Some t → t = r) →
  explicit_phase cap requests (<[r := items_of m r ++ [x]]> m) remaining m' →
  explicit_phase cap (x :: requests) m remaining m'.
Proof.
  intros Hr Hl Ht [Hs Hu Hrm Hm Hf Hsub]. split; try done.
  - rewrite Hs, placed_insert by done. simpl. symmetry. apply Permutation_middle.
  - rewrite Hrm, room_insert by done. simpl length. lia.
  - intros y. specialize (Hm y). rewrite load_insert in Hm. case_bool_decide; simpl in Hm; lia.
  - intros y t [->|Hy]%elem_of_cons Hyt; [|by apply Hf]. left. rewrite (Ht t Hyt).
    apply Hsub. rewrite items_of_insert, bool_decide_eq_true_2 by done.
    apply elem_of_app. right. by left.
  - intros y z Hz. apply Hsub. rewrite items_of_insert. case_bool_decide; [|done].
    subst. apply elem_of_app. by left.
Qed.

Lemma target_valid requests x t :
  targets_valid (length base) requests → x ∈ requests → target_dp_rank x = Some t → 0 ≤ t < n.
Proof.
  unfold targets_valid. rewrite Forall_forall. intros H Hx Ht. specialize (H x Hx).
  unfold target_dp_rank in Ht. destruct (scheduling_params_of x) as [sp|]; [|done].
  by apply (H sp t).
Qed.

Lemma explicit_phase_skipped cap m x requests remaining m' :
  under cap m → (∀ t, target_dp_rank x = Some t → 0 ≤ t < n ∧ cap ≤ load m t) →
  explicit_phase cap requests m remaining m' →
  explicit_phase cap (x :: requests) m (x :: remaining) m'.
Proof.
  intros Hu Hx [Hs Hu' Hrm Hm Hf Hsub]. split; try done.
  - simpl. by rewrite Hs.
  - simpl length. lia.
  - intros y t [->|Hy]%elem_of_cons Ht; [|by eapply Hf]. right.
    destruct (Hx t Ht) as [Htr Hfull]. specialize (Hm t). specialize (Hu' t Htr). lia.
Qed.

Lemma assign_explicit_ok cap requests a :
  acc_ok a → targets_valid (length base) requests → under cap (new_of_rank a) →
  ∃ remaining a', assign_explicit_dp_ranks cap requests a = Ok (remaining, a') ∧ acc_ok a' ∧
    explicit_phase cap requests (new_of_rank a) remaining (new_of_rank a').
Proof.
  revert a. induction requests as [|x requests IH]; intros a Ha Hv Hu; cbn [assign_explicit_dp_ranks].
  { exists [], a. split; [done|]. split; [done|]. split; try done.
    intros y t Hy. by apply not_elem_of_nil in Hy. }
  assert (Hvx : ∀ t, target_dp_rank x = Some t → 0 ≤ t < n)
    by (intros t Ht; eapply (target_valid _ x t Hv); [left|done]).
  rewrite (has_room_ok cap _ a) by done. apply Forall_cons in Hv as [_ Hv].
  destruct (target_dp_rank x) as [t|] eqn:Ht; rrun.
  - destruct (load (new_of_rank a) t <? cap) eqn:Hl.
    + destruct (place_ok a t x Ha (Hvx t eq_refl)) as (a1 & Hp & Ha1 & Hn1).
      change (default 0 (Some t)) with t. rewrite Hp. destruct (IH a1 Ha1 Hv) as (rem & a2 & -> & Ha2 & Hep).
      { rewrite Hn1. apply under_insert; [done|lia]. }
      exists rem, a2. split; [done|]. split; [done|]. rewrite Hn1 in Hep.
      eapply explicit_phase_placed; [by apply Hvx|lia| |done]. rewrite Ht. by intros ? [= <-].
    + destruct (IH a Ha Hv Hu) as (rem & a2 & -> & Ha2 & Hep). exists (x :: rem), a2.
      split; [done|]. split; [done|]. apply explicit_phase_skipped; [done| |done].
      rewrite Ht. intros ? [= <-]. split; [by apply Hvx|lia].
  - destruct (IH a Ha Hv Hu) as (rem & a2 & -> & Ha2 & Hep). exists (x :: rem), a2.
    split; [done|]. split; [done|]. apply explicit_phase_skipped; [done| |done]. by rewrite Ht.
Qed.
End loads.

(** ** The soft cap *)

Lemma foldl_max_spec l x : (x ≤ foldl Z.max x l) ∧ (∀ y, y ∈ l → y ≤ foldl Z.max x l) ∧
  (foldl Z.max x l = x ∨ foldl Z.max x l ∈ l).
Proof.
  revert x. induction l as [|z l IH]; intros x; cbn [foldl].
  { split; [lia|]. split; [|by left]. intros y Hy. by apply not_elem_of_nil in Hy. }
  destruct (IH (Z.max x z)) as (H1 & H2 & H3). split_and!.
  - lia.
  - intros y [->|Hy]%elem_of_cons; [lia|by apply H2].
  - destruct H3 as [->|H3]; [|right; by right].
    destruct (Z.max_spec x z) as [[_ ->]|[_ ->]]; [right; left|by left].
Qed.

Lemma py_max_ok l : l ≠ [] → ∃ x, py_max l = Ok x ∧ x ∈ l ∧ ∀ y, y ∈ l → y ≤ x.
Proof.
  destruct l as [|x l]; [done|]. intros _. destruct (foldl_max_spec l x) as (H1 & H2 & H3).
  eexists. split; [done|]. split.
  - destruct H3 as [->|H3]; [left|by right].
  - intros y [->|Hy]%elem_of_cons; [lia|by apply H2].
Qed.

(** The uncapped soft cap. *)
Lemma soft_cap_ok counts k multiplier :
  counts ≠ [] → 0 ≤ zsum counts + k → zsum counts + k + Z.of_nat (length counts) < 2 ^ 53 →
  is_factor multiplier →
  ∃ share, zsum counts + k ≤ share * Z.of_nat (length counts) ∧ (∀ x, x ∈ counts → x ≤ share) ∧
    ∀ hard_cap, expected_num_active_requests counts k (Z.of_nat (length counts)) multiplier hard_cap =
      Ok (match hard_cap with Some c => Z.min share c | None => share end).
Proof.
  intros Hne H0 Hbig Hf. set (tp := Z.of_nat (length counts)) in *.
  assert (Htp : 0 < tp) by (destruct counts; [done|simpl in tp; lia]).
  set (fs := (zsum counts + k + tp - 1) / tp).
  assert (Hfs : 0 ≤ fs ∧ zsum counts + k ≤ fs * tp ∧ fs < 2 ^ 53).
  { unfold fs. split; [apply Z.div_pos; lia|]. split.
    - pose proof (Z.mod_pos_bound (zsum counts + k + tp - 1) tp Htp).
      pose proof (Z.div_mod (zsum counts + k + tp - 1) tp). lia.
    - apply Z.div_lt_upper_bound; [done|]. nia. }
  destruct (ceil_mul_factor multiplier fs Hf) as (c & Hc & Hle); [lia|].
  destruct (py_max_ok counts Hne) as (b & Hb & _ & Hmax).
  exists (Z.max c b). split_and!.
  - nia.
  - intros x Hx. specialize (Hmax x Hx). lia.
  - intros cap. unfold expected_num_active_requests. rewrite (proj2 (Z.eqb_neq tp 0)) by lia.
    fold fs. rewrite Hc. rrun. by rewrite Hb.
Qed.

(** ** The heap loop of the default router *)

Lemma heapval_ltb_asym x y : heapval_ltb x y = true → heapval_ltb y x = false.
Proof. unfold heapval_ltb. lia. Qed.

Lemma heapval_ltb_negtrans x y z :
  heapval_ltb y x = false → heapval_ltb z y = false → heapval_ltb z x = false.
Proof. unfold heapval_ltb. lia. Qed.

#[export] Hint Resolve heapval_ltb_asym heapval_ltb_negtrans : trtllm.

Section balance.
Context (expected : Z) (count : Z → Z) (ranks : list Z).
Context (Hranks : NoDup ranks).

Definition assigned (m : gmap Z (list RequestQueueItem)) (r : Z) : Z :=
  count r + Z.of_nat (length (items_of m r)).

(** The heap holds, with its current load, each rank below the cap. *)
Record balance_inv (heap : list HeapVal) (m : gmap Z (list RequestQueueItem)) : Prop := {
  bi_nodup : NoDup (hv_rank <$> heap);
  bi_entry : ∀ v, v ∈ heap → hv_rank v ∈ ranks ∧ hv_requests v = assigned m (hv_rank v) ∧
    hv_requests v < expected;
  bi_dom : ∀ r, r ∈ ranks → is_Some (m !! r);
  bi_cap : ∀ r, r ∈ ranks → assigned m r ≤ expected;
}.

(** The requests the heap still has room for. *)
Definition heap_room (heap : list HeapVal) : Z := zsum ((λ v, expected - hv_requests v) <$> heap).

#[global] Instance heap_room_perm : Proper (Permutation ==> eq) heap_room.
Proof. intros h k H. unfold heap_room. by rewrite H. Qed.

Lemma balance_step v rest tc x m :
  let v' := mkHeapVal (hv_tokens v + tc) (hv_requests v + 1) (hv_rank v) in
  let m' := <[hv_rank v := items_of m (hv_rank v) ++ [x]]> m in
  balance_inv (v :: rest) m →
  append_to (hv_rank v) x m = Ok m' ∧
  balance_inv (if hv_requests v' <? expected then v' :: rest else rest) m' ∧
  heap_room (if hv_requests v' <? expected then v' :: rest else rest) = heap_room (v :: rest) - 1 ∧
  (ranks ≫= items_of m') ≡ₚ x :: (ranks ≫= items_of m).
Proof.
  intros v' m' [Hnd He Hd Hc]. destruct (He v ltac:(left)) as (Hr & Hq & Hlt).
  assert (Hass : ∀ r, assigned m' r = assigned m r + (if bool_decide (r = hv_rank v) then 1 else 0)).
  { intros r. unfold assigned, m'. rewrite items_of_insert. case_bool_decide; [|lia]. subst.
    rewrite length_app. simpl. lia. }
  rewrite fmap_cons in Hnd. apply NoDup_cons in Hnd as [Hni Hnd].
  assert (Hrest : ∀ w, w ∈ rest → hv_rank w ∈ ranks ∧ hv_requests w = assigned m' (hv_rank w) ∧
    hv_requests w < expected).
  { intros w Hw. destruct (He w) as (? & Hw2 & ?); [by right|]. rewrite Hass.
    rewrite bool_decide_eq_false_2, Z.add_0_r; [done|]. intros Heq. apply Hni. rewrite <- Heq.
    by apply list_elem_of_fmap_2. }
  assert (Hdom : ∀ r, r ∈ ranks → is_Some (m' !! r)).
  { intros r Hin. unfold m'. apply lookup_insert_is_Some. destruct (decide (hv_rank v = r)); [by left|].
    right. split; [done|]. by apply Hd. }
  assert (Hcap : ∀ r, r ∈ ranks → assigned m' r ≤ expected).
  { intros r Hin. rewrite Hass. specialize (Hc r Hin). case_bool_decide; [subst; lia|lia]. }
  split_and!.
  - unfold append_to. destruct (Hd _ Hr) as [l Hl]. unfold m', items_of. by rewrite Hl.
  - destruct (hv_requests v' <? expected) eqn:E; split; try done.
    + rewrite fmap_cons. by apply NoDup_cons.
    + intros w [->|Hw]%elem_of_cons; [|by apply Hrest]. cbn [hv_rank hv_requests v'].
      split; [done|]. rewrite Hass, bool_decide_eq_true_2 by done. cbn in E. lia.
  - unfold heap_room. destruct (hv_requests v' <? expected) eqn:E; cbn [hv_requests v'] in E;
      rewrite ?fmap_cons, ?zsum_cons; cbn [hv_requests v']; lia.
  - by apply bind_insert_perm.
Qed.

#[global] Instance balance_inv_perm : Proper (Permutation ==> eq ==> iff) balance_inv.
Proof.
  intros h k Hp m ? <-. split; intros [Hnd He Hd Hc]; split; try done.
  - by rewrite <- Hp.
  - intros v Hv. apply He. by rewrite Hp.
  - by rewrite Hp.
  - intros v Hv. apply He. by rewrite <- Hp.
Qed.

Lemma heap_room_nonneg heap m : balance_inv heap m → 0 ≤ heap_room heap.
Proof.
  intros [_ He _ _]. apply zsum_nonneg, Forall_fmap, Forall_forall. intros v Hv. cbn.
  destruct (He v Hv) as (_ & _ & ?). lia.
Qed.

(** Every request finds a rank below the cap when the heap has the room;
    otherwise the pop of the empty heap raises. *)
Lemma balance_loop_ok counted heap m :
  balance_inv heap m →
  if Z.of_nat (length counted) <=? heap_room heap
  then ∃ m', balance_loop expected counted heap m = Ok m' ∧
         (∀ r, r ∈ ranks → is_Some (m' !! r) ∧ assigned m' r ≤ expected) ∧
         (ranks ≫= items_of m') ≡ₚ counted.*2 ++ (ranks ≫= items_of m)
  else balance_loop expected counted heap m = Raise IndexError.
Proof.
  revert heap m. induction counted as [|[tc x] counted IH]; intros heap m Hinv; cbn [balance_loop].
  { pose proof (heap_room_nonneg heap m Hinv). rewrite (proj2 (Z.leb_le _ _)) by (simpl; lia).
    exists m. split; [done|]. split; [|done]. intros r Hr. destruct Hinv as [_ _ Hd Hc].
    split; [by apply Hd|by apply Hc]. }
  destruct (heappop heapval_ltb heap) as [[v rest]|] eqn:Hpop; rrun.
  2:{ apply heappop_None in Hpop as ->. done. }
  apply heappop_perm in Hpop as Hp. rewrite Hp in Hinv.
  destruct (balance_step v rest tc x m Hinv) as (Happ & Hinv' & Hroom & Hperm).
  set (v' := mkHeapVal _ _ _) in *. set (m' := <[_ := _]> m) in *. cbv zeta in Hinv', Hroom.
  change (hv_rank v') with (hv_rank v). rewrite Happ.
  assert (Hh : (if hv_requests v' <? expected then heappush heapval_ltb rest v' else rest) ≡ₚ
               (if hv_requests v' <? expected then v' :: rest else rest)).
  { destruct (hv_requests v' <? expected); [apply heappush_perm|done]. }
  rewrite <- Hh in Hinv', Hroom. specialize (IH _ m' Hinv').
  rewrite Hroom in IH. pose proof (heap_room_perm _ _ Hp) as Hr. rewrite <- Hr in IH. simpl length.
  destruct (Z.of_nat (length counted) <=? heap_room heap - 1) eqn:E.
  - rewrite (proj2 (Z.leb_le _ _)) by lia. destruct IH as (m2 & -> & Hall & Hpm).
    exists m2. split; [done|]. split; [done|]. rewrite Hpm, Hperm. simpl.
    symmetry. apply Permutation_middle.
  - rewrite (proj2 (Z.leb_gt _ _)) by lia. exact IH.
Qed.
End balance.

Section balance_requests.
Context (base : list Z).

Local Abbreviation n := (Z.of_nat (length base)).

Lemma room_filter cap m :
  room base cap m =
  zsum ((λ r, cap - load base m r) <$> filter (λ r, load base m r <? cap) (seqZ 0 n)).
Proof.
  unfold room. generalize (seqZ 0 n). intros l. induction l as [|r l IH]; [done|].
  rewrite fmap_cons, zsum_cons, IH, filter_cons. case_decide as Hd.
  - apply Is_true_true in Hd. rewrite fmap_cons, zsum_cons. lia.
  - apply Is_true_false in Hd. lia.
Qed.

Lemma heap_entries_ok a (tokens : list Z) :
  acc_ok base a → length tokens = length base →
  heap_entries tokens (num_active a) =
  Ok ((λ r, mkHeapVal (default 0 (tokens !! Z.to_nat r)) (load base (new_of_rank a) r) r) <$> seqZ 0 n).
Proof.
  intros Ha Ht. unfold heap_entries.
  rewrite (mapM_ok _ (λ '(r, k), mkHeapVal (default 0 (tokens !! r)) k (Z.of_nat r))).
  - f_equal. rewrite (counts_are_loads base a Ha), imap_fmap. apply list_eq. intros i.
    rewrite !list_lookup_fmap, list_lookup_imap. destruct (decide (i < length base)%nat) as [Hi|Hi].
    + rewrite lookup_seqZ_lt, Z.add_0_l by lia. cbn. by rewrite Nat2Z.id.
    + by rewrite lookup_seqZ_ge by lia.
  - intros [r k] Hin. apply list_elem_of_lookup in Hin as [i Hi].
    rewrite list_lookup_imap in Hi. destruct (num_active a !! i) as [c|] eqn:Ec; [|done].
    cbn in Hi. injection Hi as -> ->. apply lookup_lt_Some in Ec. destruct Ha as [_ Hl _].
    destruct (lookup_lt_is_Some_2 tokens r ltac:(lia)) as [t Htk].
    rewrite (py_getitem_nonneg _ _ t) by (try lia; by rewrite Nat2Z.id). by rewrite Htk.
Qed.

Lemma extend_all_ok ranks sch m :
  map_ok base m → NoDup ranks → (∀ r, r ∈ ranks → 0 ≤ r < n) →
  ∃ m', extend_all ranks sch m = Ok m' ∧ map_ok base m' ∧
    placed base m' ≡ₚ (ranks ≫= items_of sch) ++ placed base m ∧
    ∀ r, items_of m' r = items_of m r ++ (if decide (r ∈ ranks) then items_of sch r else []).
Proof.
  intros Hm Hnd. revert m Hm. induction Hnd as [|r ranks Hr _ IH]; intros m Hm Hin; cbn [extend_all].
  { exists m. split; [done|]. split; [done|]. split; [done|]. intros r. by rewrite app_nil_r. }
  destruct (proj2 (mo_dom _ _ Hm r) (Hin r ltac:(left))) as [l Hl]. rewrite Hl. rrun.
  assert (Hil : l = items_of m r) by (unfold items_of; by rewrite Hl).
  change (default [] (sch !! r)) with (items_of sch r). rewrite Hil.
  destruct (IH (<[r := items_of m r ++ items_of sch r]> m)) as (m' & -> & Hm' & Hp & Hi).
  { apply map_ok_insert; [done|]. apply Hin. left. }
  { intros x Hx. apply Hin. by right. }
  exists m'. split; [done|]. split; [done|]. split.
  - rewrite Hp, placed_insert, bind_cons by (apply Hin; left). rewrite !(assoc_L (++)).
    by rewrite (Permutation_app_comm (items_of sch r)).
  - intros x. rewrite Hi, items_of_insert. case_bool_decide as Hx.
    + subst x. rewrite decide_False by done. rewrite decide_True by left. by rewrite app_nil_r.
    + destruct (decide (x ∈ ranks)) as [Hxr|Hxr].
      * by rewrite decide_True by (by right).
      * rewrite decide_False; [done|]. by intros [|]%elem_of_cons.
Qed.

(** What balancing achieves when there is room for all. *)
Record balanced (cap : Z) (new : list RequestQueueItem) (m m' : gmap Z (list RequestQueueItem)) :
    Prop := {
  ba_map : map_ok base m';
  ba_placed : placed base m' ≡ₚ new ++ placed base m;
  ba_under : under base cap m';
  ba_sub : ∀ r x, x ∈ items_of m r → x ∈ items_of m' r;
  ba_mono : ∀ r, load base m r ≤ load base m' r;
}.

Lemma balance_start expected a (tokens : list Z) :
  let m := new_of_rank a in
  let entry r := mkHeapVal (default 0 (tokens !! Z.to_nat r)) (load base m r) r in
  let ranks := filter (λ r, load base m r <? expected) (seqZ 0 n) in
  acc_ok base a →
  balance_inv expected (load base m) ranks (heapify heapval_ltb (entry <$> ranks))
    (list_to_map ((λ r, (r, [])) <$> ranks)) ∧
  heap_room expected (heapify heapval_ltb (entry <$> ranks)) = room base expected m ∧
  (ranks ≫= items_of (list_to_map ((λ r, (r, [])) <$> ranks))) = [].
Proof.
  intros m entry ranks Ha.
  assert (Hnd : NoDup ranks) by (apply NoDup_filter, NoDup_seqZ).
  assert (Hsch : ∀ r, r ∈ ranks →
    (list_to_map ((λ r, (r, [])) <$> ranks) : gmap Z (list RequestQueueItem)) !! r = Some []).
  { intros r Hr. apply elem_of_list_to_map_1.
    - rewrite <- list_fmap_compose. by rewrite list_fmap_id.
    - by apply list_elem_of_fmap_2' with r. }
  assert (Hlt : ∀ r, r ∈ ranks → load base m r < expected).
  { intros r [Hd _]%list_elem_of_filter. apply Is_true_true in Hd. lia. }
  assert (Hzero : ∀ r, r ∈ ranks →
    assigned (load base m) (list_to_map ((λ r, (r, [])) <$> ranks)) r = load base m r).
  { intros r Hr. unfold assigned, items_of. rewrite (Hsch r Hr). cbn. lia. }
  split; [|split].
  - rewrite heapify_perm. split.
    + rewrite <- list_fmap_compose. by rewrite (list_fmap_ext _ (λ r, r)), list_fmap_id.
    + intros v (r & -> & Hr)%list_elem_of_fmap. cbn [hv_rank hv_requests entry].
      rewrite (Hzero r Hr). split; [done|]. split; [done|]. by apply Hlt.
    + intros r Hr. rewrite (Hsch r Hr). by eexists.
    + intros r Hr. rewrite (Hzero r Hr). specialize (Hlt r Hr). lia.
  - rewrite (heap_room_perm expected _ _ (heapify_perm heapval_ltb _)). unfold heap_room.
    rewrite room_filter, <- list_fmap_compose. done.
  - fold ranks. clear -Hsch. set (sch := list_to_map _) in *. revert Hsch. generalize ranks at 1 2.
    intros l. induction l as [|r l IH]; intros H; [done|]. rewrite bind_cons, IH.
    + unfold items_of. rewrite (H r) by left. done.
    + intros x Hx. apply H. by right.
Qed.

Lemma counted_perm new : (counted_requests new).*2 ≡ₚ new.
Proof.
  unfold counted_requests. rewrite sort_by_perm, <- list_fmap_compose. by rewrite list_fmap_id.
Qed.

Lemma balance_requests_ok new a (tokens : list Z) expected :
  acc_ok base a → length tokens = length base → under base expected (new_of_rank a) →
  if Z.of_nat (length new) <=? room base expected (new_of_rank a)
  then ∃ a', balance_requests_across_ranks new a tokens expected = Ok a' ∧
         balanced expected new (new_of_rank a) (new_of_rank a')
  else balance_requests_across_ranks new a tokens expected = Raise IndexError.
Proof.
  intros Ha Ht Hu. unfold balance_requests_across_ranks.
  pose proof (room_nonneg base expected (new_of_rank a)) as Hroom. case_bool_decide as Hnew.
  { subst new. rewrite (proj2 (Z.leb_le _ _)) by (simpl; lia). exists a. split; [done|].
    destruct Ha as [? _ _]. by split. }
  rewrite heap_entries_ok by done. rrun.
  set (m := new_of_rank a) in *. set (entry := λ r, mkHeapVal _ (load base m r) r).
  set (ranks := filter (λ r, load base m r <? expected) (seqZ 0 n)).
  assert (filter (λ v, hv_requests v <? expected) (entry <$> seqZ 0 n) = entry <$> ranks) as ->
    by (by rewrite list_filter_fmap).
  assert (hv_rank <$> (entry <$> ranks) = ranks) as ->.
  { rewrite <- list_fmap_compose. by rewrite (list_fmap_ext _ (λ r, r)), list_fmap_id. }
  destruct (balance_start expected a tokens Ha) as (Hinv & Hhr & Hnil).
  assert (Hnd : NoDup ranks) by (apply NoDup_filter, NoDup_seqZ).
  pose proof (balance_loop_ok expected (load base m) ranks Hnd (counted_requests new) _ _ Hinv) as H.
  assert (Hlen : length (counted_requests new) = length new).
  { unfold counted_requests. by rewrite length_sort_by, length_fmap. }
  fold m in Hhr, H, Hnil. fold entry ranks in Hhr, H, Hnil. rewrite Hhr, Hlen in H.
  destruct (Z.of_nat (length new) <=? room base expected m); [|by rewrite H].
  destruct H as (sch & -> & Hall & Hperm). rewrite Hnil, app_nil_r in Hperm.
  destruct (extend_all_ok ranks sch m) as (m' & -> & Hm' & Hp & Hi).
  { apply Ha. } { done. } { intros r [_ Hr]%list_elem_of_filter. apply elem_of_seqZ in Hr. lia. }
  eexists. split; [done|]. cbn [new_of_rank]. split; [done|..].
  - by rewrite Hp, Hperm, counted_perm.
  - intros r Hr. unfold load. rewrite Hi. rewrite length_app. case_decide as Hd.
    + destruct (Hall r Hd) as [_ Hle]. unfold assigned, load in Hle. lia.
    + specialize (Hu r Hr). unfold load in Hu. simpl. lia.
  - intros r x Hx. rewrite Hi. apply elem_of_app. by left.
  - intros r. unfold load. rewrite Hi, length_app. lia.
Qed.
End balance_requests.

(** ** The default router *)

(** The states are those of ranks [0 .. n-1], in order, none of them above the
    limit, and small enough for exact floats. *)
Record states_ok (states : list RankState) (num_new cap : Z) : Prop := {
  so_ranks : rank <$> states = seqZ 0 (Z.of_nat (length states));
  so_nonempty : states ≠ [];
  so_bounds : Forall (λ s, 0 ≤ num_active_requests s ≤ cap) states;
  so_small : zsum (num_active_requests <$> states) + num_new + Z.of_nat (length states) < 2 ^ 53;
}.

(** The load before routing. *)
Definition base_of (states : list RankState) : list Z := num_active_requests <$> states.

(** What routing promises to the executor. *)
Record routed (states : list RankState) (new : list RequestQueueItem) (cap : Z)
    (m : gmap Z (list RequestQueueItem)) (expected : Z) : Prop := {
  rt_ranks : ∀ r, is_Some (m !! r) ↔ 0 ≤ r < Z.of_nat (length states);
  rt_all : placed (base_of states) m ≡ₚ new;
  rt_under : ∀ r, 0 ≤ r < Z.of_nat (length states) → load (base_of states) m r ≤ expected;
  rt_cap : expected ≤ cap;
  rt_target : ∀ x t, x ∈ new → target_dp_rank x = Some t →
    x ∈ items_of m t ∨ load (base_of states) m t = cap;
}.

Lemma acc_init_map states r :
  (foldl (λ m s, <[rank s := []]> m) (∅ : gmap Z (list RequestQueueItem)) states) !! r =
  if decide (r ∈ rank <$> states) then Some [] else None.
Proof.
  induction states as [|s states IH] using rev_ind; [done|].
  rewrite foldl_app, fmap_app. cbn [foldl]. destruct (decide (rank s = r)) as [<-|Hne].
  - rewrite lookup_insert_eq, decide_True; [done|]. apply elem_of_app. right. by left.
  - rewrite lookup_insert_ne, IH by done. apply decide_ext. rewrite elem_of_app. cbn.
    rewrite list_elem_of_singleton. naive_solver.
Qed.

Lemma acc_init_ok states num_new cap :
  states_ok states num_new cap →
  acc_ok (base_of states) (acc_init states) ∧ placed (base_of states) (new_of_rank (acc_init states)) = [] ∧
  (∀ r, items_of (new_of_rank (acc_init states)) r = []) ∧
  under (base_of states) cap (new_of_rank (acc_init states)).
Proof.
  intros [Hr Hne Hb _]. set (m := new_of_rank (acc_init states)).
  assert (Hitems : ∀ r, items_of m r = []).
  { intros r. unfold items_of, m, acc_init. cbn [new_of_rank]. rewrite acc_init_map. by case_decide. }
  assert (Hlen : length (base_of states) = length states) by apply length_fmap.
  assert (Hload : ∀ r, load (base_of states) m r = default 0 (base_of states !! Z.to_nat r)).
  { intros r. unfold load. rewrite Hitems. simpl. lia. }
  split_and!; [split|..|].
  - split. intros r. unfold acc_init. cbn [new_of_rank]. rewrite acc_init_map, Hr, Hlen.
    case_decide as Hd; rewrite elem_of_seqZ in Hd.
    + split; [lia|by eexists].
    + split; [by intros [??]|lia].
  - by rewrite Hlen.
  - intros r Hrr. fold m. rewrite Hload. change (num_active (acc_init states)) with (base_of states).
    destruct (lookup_lt_is_Some_2 (base_of states) (Z.to_nat r)) as [x Hx]; [lia|]. by rewrite Hx.
  - unfold placed. generalize (seqZ 0 (Z.of_nat (length (base_of states)))). intros l.
    induction l as [|r l IH]; [done|]. by rewrite bind_cons, Hitems, IH.
  - done.
  - intros r Hrr. rewrite Hload.
    destruct (lookup_lt_is_Some_2 (base_of states) (Z.to_nat r)) as [x Hx]; [lia|]. rewrite Hx. cbn.
    unfold base_of in Hx. rewrite list_lookup_fmap in Hx.
    destruct (states !! Z.to_nat r) as [s|] eqn:Es; [|done]. injection Hx as <-.
    rewrite Forall_lookup in Hb. apply (Hb _ _ Es).
Qed.

(** The free places of all ranks. *)
Definition free_places (states : list RankState) (cap : Z) : Z :=
  zsum ((λ s, cap - num_active_requests s) <$> states).

Lemma init_room states num_new cap :
  states_ok states num_new cap →
  room (base_of states) cap (new_of_rank (acc_init states)) = free_places states cap.
Proof.
  intros Hs. destruct (acc_init_ok states num_new cap Hs) as (Ha & _ & _ & Hu).
  unfold room. set (m := new_of_rank (acc_init states)) in *.
  assert (Hfree : ∀ l, Forall (λ x, x ≤ cap) l →
    zsum ((λ x, Z.max 0 (cap - x)) <$> l) = zsum ((λ x, cap - x) <$> l)).
  { induction 1 as [|x l Hx _ IH]; [done|]. rewrite !fmap_cons, !zsum_cons, IH. lia. }
  rewrite (list_fmap_compose (load (base_of states) m) (λ x, Z.max 0 (cap - x)) (seqZ _ _)).
  pose proof (counts_are_loads _ _ Ha) as Hc. fold m in Hc. rewrite <- Hc.
  change (num_active (acc_init states)) with (base_of states). rewrite Hfree.
  - unfold free_places, base_of. by rewrite <- list_fmap_compose.
  - destruct Hs as [_ _ Hb _]. unfold base_of. apply Forall_fmap. apply (Forall_impl _ _ _ Hb). cbn. lia.
Qed.

(** The explicit phase from the start, on the sorted requests. *)
Lemma explicit_from_start states new cap sorted :
  states_ok states (Z.of_nat (length new)) cap → targets_valid (length states) new → sorted ≡ₚ new →
  ∃ remaining a, assign_explicit_dp_ranks cap sorted (acc_init states) = Ok (remaining, a) ∧
    acc_ok (base_of states) a ∧
    explicit_phase (base_of states) cap sorted (new_of_rank (acc_init states)) remaining
      (new_of_rank a) ∧
    remaining ++ placed (base_of states) (new_of_rank a) ≡ₚ new ∧
    room (base_of states) cap (new_of_rank a) - Z.of_nat (length remaining) =
      free_places states cap - Z.of_nat (length new).
Proof.
  intros Hs Hv Hp. destruct (acc_init_ok _ _ _ Hs) as (Ha & Hnil & Hi & Hu).
  assert (Hlen : length (base_of states) = length states) by apply length_fmap.
  destruct (assign_explicit_ok (base_of states) cap sorted (acc_init states) Ha)
    as (rem & a & Heq & Ha' & Hep); [|done|].
  { unfold targets_valid in *. by rewrite Hlen, Hp. }
  exists rem, a. split; [done|]. split; [done|]. split; [done|]. destruct Hep as [Hsp _ Hr _ _ _].
  rewrite Hnil, app_nil_r, Hp in Hsp. split; [done|].
  by rewrite Hr, (init_room _ _ _ Hs), Hp.
Qed.

(** The soft cap on the counts of a routing state. *)
Lemma soft_cap_of_acc states new remaining cap a multiplier :
  states_ok states (Z.of_nat (length new)) cap → acc_ok (base_of states) a →
  remaining ++ placed (base_of states) (new_of_rank a) ≡ₚ new → is_factor multiplier →
  ∃ share,
    Z.of_nat (length remaining) ≤ room (base_of states) share (new_of_rank a) ∧
    under (base_of states) share (new_of_rank a) ∧
    ∀ hard_cap, expected_num_active_requests (num_active a) (Z.of_nat (length remaining))
                  (Z.of_nat (length states)) multiplier hard_cap =
      Ok (match hard_cap with Some c => Z.min share c | None => share end).
Proof.
  intros [Hr Hne Hb Hbig] Ha Hp Hf. pose proof (counts_are_loads _ _ Ha) as Hc.
  assert (Hlen : length (base_of states) = length states) by apply length_fmap.
  pose proof Ha as [_ Hla _]. apply Permutation_length in Hp. rewrite length_app in Hp.
  assert (Hsum : zsum (num_active a) =
    zsum (base_of states) + Z.of_nat (length (placed (base_of states) (new_of_rank a)))).
  { rewrite Hc. apply load_sum. }
  assert (0 ≤ zsum (base_of states)).
  { apply zsum_nonneg. unfold base_of. apply Forall_fmap. apply (Forall_impl _ _ _ Hb). cbn. lia. }
  destruct (soft_cap_ok (num_active a) (Z.of_nat (length remaining)) multiplier)
    as (share & Hshare & Hmax & Heq); [|lia| |done|].
  { intros Hn. rewrite Hn in Hla. destruct states; [done|]. simpl in Hla. lia. }
  { fold (base_of states) in Hbig. lia. }
  rewrite Hla, Hlen in Hshare, Heq. exists share. split; [|split; [|done]].
  - pose proof (room_bound (base_of states) share (new_of_rank a)). rewrite Hlen in *. lia.
  - intros r Hrr. apply Hmax. rewrite Hc. apply list_elem_of_fmap_2.
    apply elem_of_seqZ. lia.
Qed.

Lemma room_cap_min base share cap m k :
  k ≤ room base share m → k ≤ room base cap m → k ≤ room base (Z.min share cap) m.
Proof. intros. by destruct (Z.min_spec share cap) as [[_ ->]|[_ ->]]. Qed.

Lemma routed_from_balanced states new cap remaining taken sorted m m' expected :
  (∀ x, x ∈ new → x ∈ sorted) → targets_valid (length states) sorted →
  taken ++ placed (base_of states) m ≡ₚ new →
  explicit_phase (base_of states) cap sorted (new_of_rank (acc_init states)) remaining m →
  expected ≤ cap → balanced (base_of states) expected taken m m' →
  routed states new cap m' expected.
Proof.
  intros Hp Hv Hsplit Hep Hcap [Hm Hpl Hu Hsub Hmono].
  assert (Hlen : length (base_of states) = length states) by apply length_fmap.
  split.
  - intros r. destruct Hm as [Hm]. by rewrite Hm, Hlen.
  - by rewrite Hpl.
  - intros r Hr. apply Hu. lia.
  - done.
  - intros x t Hx%Hp Ht. destruct (ep_target _ _ _ _ _ _ Hep x t Hx Ht) as [Hin|Hf].
    + left. by apply Hsub.
    + right. rewrite <- Hlen in Hv. pose proof (target_valid _ _ x t Hv Hx Ht) as Htr.
      specialize (Hu t Htr). specialize (Hmono t). lia.
Qed.

Lemma targets_valid_perm k l l' : l ≡ₚ l' → targets_valid k l' → targets_valid k l.
Proof. unfold targets_valid. by intros ->. Qed.

Lemma float_1_factor : is_factor float_1.
Proof. exists (2 ^ 52)%positive, (-52). split; [done|]. lia. Qed.

(** C17: [DefaultADPRouter.route_requests], with no more new requests than
    the ranks have free places, gives every new request to exactly one rank
    and keeps each rank's load within the returned target, which is within
    the per-rank limit; a request that names a rank is on that rank unless
    the rank is filled to the limit. *)
Theorem default_router_places_all states new cap :
  states_ok states (Z.of_nat (length new)) cap → targets_valid (length states) new →
  Z.of_nat (length new) ≤ free_places states cap →
  ∃ m expected, default_route_requests states new cap = Ok (m, expected) ∧
    routed states new cap m expected.
Proof.
  intros Hs Hv Hfree. set (sorted := sort_by (key_leb (λ i, Z.b2z (get_relax_value i))) new).
  assert (Hp : sorted ≡ₚ new) by apply sort_by_perm.
  destruct (explicit_from_start states new cap sorted Hs Hv Hp)
    as (rem & a & Heq & Ha & Hep & Hsplit & Hroom).
  destruct (soft_cap_of_acc states new rem cap a float_1 Hs Ha Hsplit float_1_factor)
    as (share & Hshare & Hun & Hexp).
  unfold default_route_requests. fold sorted. rewrite Heq. rrun. rewrite Hexp.
  set (E := Z.min share cap). assert (HuE : under (base_of states) E (new_of_rank a)).
  { intros r Hr. specialize (Hun r Hr). pose proof (ep_under _ _ _ _ _ _ Hep r Hr). lia. }
  pose proof (balance_requests_ok (base_of states) rem a (num_active_tokens <$> states) E Ha) as Hb.
  rewrite (proj2 (Z.leb_le _ _)) in Hb by (apply room_cap_min; lia).
  destruct Hb as (a' & -> & Hbal); [unfold base_of; by rewrite !length_fmap|done|].
  eexists _, _. split; [done|]. apply (routed_from_balanced states new cap rem rem sorted (new_of_rank a)); try done.
  - intros x. by rewrite Hp.
  - by apply (targets_valid_perm _ _ new).
  - lia.
Qed.

(** With more new requests than free places, [DefaultADPRouter] runs out
    of ranks and raises [IndexError] from the heap: admission has to bound
    the number of requests, and this router does not leave any for later. *)
Theorem default_router_overload_raises states new cap :
  states_ok states (Z.of_nat (length new)) cap → targets_valid (length states) new →
  free_places states cap < Z.of_nat (length new) →
  default_route_requests states new cap = Raise IndexError.
Proof.
  intros Hs Hv Hfree. set (sorted := sort_by (key_leb (λ i, Z.b2z (get_relax_value i))) new).
  assert (Hp : sorted ≡ₚ new) by apply sort_by_perm.
  destruct (explicit_from_start states new cap sorted Hs Hv Hp)
    as (rem & a & Heq & Ha & Hep & Hsplit & Hroom).
  destruct (soft_cap_of_acc states new rem cap a float_1 Hs Ha Hsplit float_1_factor)
    as (share & Hshare & Hun & Hexp).
  unfold default_route_requests. fold sorted. rewrite Heq. rrun. rewrite Hexp.
  assert (Hle : cap ≤ share).
  { destruct (Z.le_gt_cases cap share) as [|Hlt]; [done|exfalso].
    pose proof (room_mono (base_of states) share cap (new_of_rank a)). lia. }
  rewrite Z.min_r by done.
  pose proof (balance_requests_ok (base_of states) rem a (num_active_tokens <$> states) cap Ha) as Hb.
  rewrite (proj2 (Z.leb_gt _ _)) in Hb by lia.
  rewrite Hb; [done|unfold base_of; by rewrite !length_fmap|apply Hep].
Qed.

(** Four requests for two ranks with room for four: the second one insists on
    rank 1, and the heaviest goes to the lighter rank first. *)
Definition demo_item (i tokens : Z) (target : option Z) : RequestQueueItem :=
  {| id := i;
     request := Some {| priority := DEFAULT_REQUEST_PRIORITY; num_input_tokens := Some tokens;
                        input_token_ids := [];
                        py_scheduling_params := Some {| attention_dp_rank := target;
                                                        attention_dp_relax := false |};
                        conversation_id := None; disagg_request_id := None;
                        sampling_beam_width := 1; num_return_sequences := None |};
     child_req_ids := None; is_canceled_request := false;
     query := None; control_requires_drain := true; control_id := None |}.

Definition demo_states : list RankState :=
  [mkRankState 0 1 50 default_payload; mkRankState 1 3 20 default_payload].

Definition demo_new : list RequestQueueItem :=
  [demo_item 10 5 None; demo_item 11 7 (Some 1); demo_item 12 40 None; demo_item 13 9 None].

Lemma demo_states_ok k cap : 0 ≤ k < 1000 → 3 ≤ cap → states_ok demo_states k cap.
Proof.
  intros Hk Hcap. split; [done|done| |].
  - repeat constructor; cbn; lia.
  - cbn. rewrite zsum_cons, zsum_cons, zsum_nil. lia.
Qed.

Ltac targets_valid_tac :=
  unfold targets_valid;
  repeat (apply Forall_cons; split;
    [let H := fresh in intros ? ? [= <-] H; cbn in H;
     first [discriminate H|injection H as <-; cbn; lia]|]);
  constructor.

Lemma default_router_witness :
  (λ p, (id <$> items_of p.1 0, id <$> items_of p.1 1, p.2)) <$>
    default_route_requests demo_states demo_new 4 = Ok ([12; 13; 10], [11], 4) ∧
  ∃ m expected, default_route_requests demo_states demo_new 4 = Ok (m, expected) ∧
    routed demo_states demo_new 4 m expected.
Proof.
  split; [vm_compute; reflexivity|].
  apply (default_router_places_all demo_states demo_new 4).
  - by apply demo_states_ok.
  - targets_valid_tac.
  - cbn. unfold free_places. cbn. rewrite !zsum_cons, zsum_nil. lia.
Defined.

Lemma default_router_overload_witness :
  default_route_requests demo_states (demo_item 14 1 None :: demo_new) 4 = Raise IndexError.
Proof.
  apply (default_router_overload_raises demo_states (demo_item 14 1 None :: demo_new) 4).
  - by apply demo_states_ok.
  - targets_valid_tac.
  - unfold free_places. cbn. rewrite !zsum_cons, zsum_nil. lia.
Defined.

(** ** The heap is least-loaded placement *)

Definition lighter (x y : HeapVal) : HeapVal := if heapval_ltb y x then y else x.

(** The least loaded entry, by a scan. *)
Definition least_entry (l : list HeapVal) : option HeapVal :=
  match l with [] => None | x :: l => Some (foldl lighter x l) end.

(** The loop without a heap: each request goes to the rank with the fewest
    tokens, then the fewest requests, then the lowest number. *)
Fixpoint least_loaded_placement (expected : Z) (counted : list (Z * RequestQueueItem))
    (entries : list HeapVal) (scheduled : gmap Z (list RequestQueueItem)) :
    result (gmap Z (list RequestQueueItem)) :=
  match counted with
  | [] => Ok scheduled
  | (token_count, item) :: counted =>
      match least_entry entries with
      | None => Raise IndexError
      | Some v =>
          let v' := mkHeapVal (hv_tokens v + token_count) (hv_requests v + 1) (hv_rank v) in
          let others := filter (λ w, hv_rank w ≠ hv_rank v) entries in
          scheduled ← append_to (hv_rank v) item scheduled;
          least_loaded_placement expected counted
            (if hv_requests v' <? expected then v' :: others else others) scheduled
      end
  end.

Lemma foldl_lighter l x :
  let v := foldl lighter x l in
  (v = x ∨ v ∈ l) ∧ heapval_ltb x v = false ∧ ∀ y, y ∈ l → heapval_ltb y v = false.
Proof.
  revert x. induction l as [|z l IH]; intros x; cbn [foldl].
  { split; [by left|]. split; [unfold heapval_ltb; lia|]. intros y Hy. by apply not_elem_of_nil in Hy. }
  destruct (IH (lighter x z)) as (H1 & H2 & H3). set (v := foldl lighter (lighter x z) l) in *.
  unfold lighter in H1, H2. split_and!.
  - destruct H1 as [->|H1]; [|right; by right]. destruct (heapval_ltb z x); [right; left|by left].
  - destruct (heapval_ltb z x) eqn:E; [|done]. revert E H2. unfold heapval_ltb. lia.
  - intros y [->|Hy]%elem_of_cons; [|by apply H3].
    destruct (heapval_ltb z x) eqn:E; [done|]. revert E H2. unfold heapval_ltb. lia.
Qed.

Lemma least_entry_min l v :
  least_entry l = Some v → v ∈ l ∧ ∀ y, y ∈ l → heapval_ltb y v = false.
Proof.
  destruct l as [|x l]; [done|]. intros [= <-]. destruct (foldl_lighter l x) as (H1 & H2 & H3).
  split; [destruct H1 as [->|]; [left|by right]|].
  intros y [->|Hy]%elem_of_cons; [done|by apply H3].
Qed.

Lemma heapval_antisym x y : heapval_ltb x y = false → heapval_ltb y x = false → x = y.
Proof. destruct x as [a b c], y as [d e f]. unfold heapval_ltb. cbn. intros. f_equal; lia. Qed.

Lemma filter_other_ranks v (rest : list HeapVal) :
  hv_rank v ∉ hv_rank <$> rest → filter (λ w, hv_rank w ≠ hv_rank v) (v :: rest) = rest.
Proof.
  intros Hni. rewrite filter_cons_False by (intros H; by apply H). apply list_filter_all.
  apply Forall_forall. intros w Hw Heq. apply Hni. rewrite <- Heq. by apply list_elem_of_fmap_2.
Qed.

Lemma balance_loop_placement expected counted heap entries m :
  heap ≡ₚ entries → is_heap heapval_ltb heap → NoDup (hv_rank <$> entries) →
  balance_loop expected counted heap m = least_loaded_placement expected counted entries m.
Proof.
  revert heap entries m. induction counted as [|[tc x] counted IH]; intros heap entries m Hp Hh Hnd;
    cbn [balance_loop least_loaded_placement]; [done|].
  destruct (heappop heapval_ltb heap) as [[v rest]|] eqn:Hpop; rrun.
  2:{ apply heappop_None in Hpop as ->. by apply Permutation_nil in Hp as ->. }
  pose proof (heappop_perm _ _ _ _ Hpop) as Hpr. rewrite Hp in Hpr.
  destruct (least_entry entries) as [w|] eqn:Hw.
  2:{ destruct entries; [|done]. by apply Permutation_nil_cons in Hpr. }
  destruct (least_entry_min entries w Hw) as [Hwin Hwmin].
  assert (v = w) as <-.
  { apply heapval_antisym.
    - apply Hwmin. rewrite Hpr. left.
    - apply (heappop_min _ heapval_ltb_asym heapval_ltb_negtrans heap v rest w Hh Hpop).
      by rewrite Hp. }
  cbn [hv_rank]. destruct (append_to (hv_rank v) x m) as [m'|]; [|done].
  rewrite Hpr in Hnd. rewrite fmap_cons in Hnd. apply NoDup_cons in Hnd as [Hni Hnd].
  assert (Hrest : filter (λ w, hv_rank w ≠ hv_rank v) entries ≡ₚ rest).
  { rewrite Hpr, filter_other_ranks by done. done. }
  assert (Hhr : is_heap heapval_ltb rest)
    by (eapply heappop_heap; eauto using heapval_ltb_asym, heapval_ltb_negtrans).
  cbn [hv_requests]. apply IH.
  - destruct (hv_requests v + 1 <? expected); [|by rewrite Hrest]. by rewrite heappush_perm, Hrest.
  - destruct (hv_requests v + 1 <? expected); [|done].
    apply heappush_heap; eauto using heapval_ltb_asym, heapval_ltb_negtrans.
  - destruct (hv_requests v + 1 <? expected); rewrite Hrest; [|done].
    rewrite fmap_cons. by apply NoDup_cons.
Qed.

(** The min-heap of [_balance_requests_across_ranks] is an optimisation
    only: on any set of distinct ranks the heap loop returns what a scan for
    the rank with the fewest tokens (then requests, then the lowest number)
    returns, request by request, including the [IndexError] when no rank is
    left. *)
Theorem heap_balancing_is_least_loaded expected counted entries m :
  NoDup (hv_rank <$> entries) →
  balance_loop expected counted (heapify heapval_ltb entries) m =
  least_loaded_placement expected counted entries m.
Proof.
  intros Hnd. apply balance_loop_placement; [apply heapify_perm| |done].
  apply heapify_heap; eauto using heapval_ltb_asym, heapval_ltb_negtrans.
Qed.

Definition demo_entries : list HeapVal := [mkHeapVal 50 1 0; mkHeapVal 20 3 1; mkHeapVal 20 2 2].

Lemma heap_balancing_witness :
  (λ m, (id <$> items_of m 0, id <$> items_of m 1, id <$> items_of m 2)) <$>
    least_loaded_placement 4 (counted_requests demo_new) demo_entries (acc_init
      (mkRankState 2 0 0 default_payload :: demo_states)).(new_of_rank) = Ok ([11; 10], [13], [12]) ∧
  balance_loop 4 (counted_requests demo_new) (heapify heapval_ltb demo_entries) (acc_init
      (mkRankState 2 0 0 default_payload :: demo_states)).(new_of_rank) =
  least_loaded_placement 4 (counted_requests demo_new) demo_entries (acc_init
      (mkRankState 2 0 0 default_payload :: demo_states)).(new_of_rank).
Proof.
  split; [vm_compute; reflexivity|]. apply heap_balancing_is_least_loaded.
  apply (bool_decide_unpack _). vm_compute. reflexivity.
Defined.
