(* ===== verification/AdpKvProps.v ===== *)
(** * Correctness of the KV-cache-aware router

    Whatever the floating-point scores, the cached prefixes and the shuffle
    decide, the router places every request within the caps; the scores only
    choose among ranks that have room.  Also: the one input on which the
    score divides by zero. *)

From S2P Require Import Prelude PySort PyFloat Requests Admission AdpRouter AdpRouterProps.

Local Open Scope Z_scope.

Section kv_router.
Context (self : KVCacheAwareADPRouter) (base : list Z).

Local Abbreviation n := (Z.of_nat (length base)).

(** A request's token count, and the cached prefix found for it. *)
Definition item_tokens (x : RequestQueueItem) : Z := num_input_tokens_of (request x).

(** The request is not empty, and no more of it is cached than it has. *)
Definition item_ok (x : RequestQueueItem) : Prop :=
  0 < item_tokens x < 2 ^ 53 ∧
  ∀ r, 0 ≤ r < n → ∃ k, match_len self r (id x) = Ok k ∧ 0 ≤ k ≤ item_tokens x.

Record kv_ok (s : KvAcc) : Prop := {
  ko_acc : acc_ok base (kv_acc s);
  ko_tokens : length (kv_tokens s) = length base;
  ko_pending : ∀ r, r ∈ kv_pending s → 0 ≤ r < n;
}.

Lemma tokens_lookup s r : kv_ok s → 0 ≤ r < n → ∃ t, py_getitem (kv_tokens s) r = Ok t.
Proof.
  intros [_ Hl _] Hr. destruct (lookup_lt_is_Some_2 (kv_tokens s) (Z.to_nat r)) as [t Ht]; [lia|].
  exists t. by apply py_getitem_nonneg; [lia|].
Qed.

Lemma add_tokens_ok s r k :
  kv_ok s → 0 ≤ r < n → - 2 ^ 53 < k < 2 ^ 53 →
  ∃ ts, add_tokens r k (kv_tokens s) = Ok ts ∧ length ts = length base.
Proof.
  intros Hs Hr Hk. unfold add_tokens. destruct (tokens_lookup s r Hs Hr) as [t ->]. rrun.
  destruct (float_of_Z_ok k Hk) as [f ->]. unfold py_setitem. destruct Hs as [_ Hl _].
  rewrite py_index_nonneg by lia. eexists. split; [done|]. by rewrite length_insert.
Qed.

Lemma set_min_spec X t : set_min X = Some t → t ∈ X ∧ ∀ r, r ∈ X → t ≤ r.
Proof.
  unfold set_min. intros H. assert (Hel : ∀ r, r ∈ X ↔ r ∈ elements X)
    by (intros; by rewrite elem_of_elements).
  destruct (elements X) as [|x l]; [done|]. injection H as <-.
  assert (Hf : (foldl Z.min x l = x ∨ foldl Z.min x l ∈ l) ∧
    foldl Z.min x l ≤ x ∧ ∀ y, y ∈ l → foldl Z.min x l ≤ y).
  { clear. revert x. induction l as [|z l IH]; intros x; cbn [foldl].
    { split; [by left|]. split; [lia|]. intros y Hy. by apply not_elem_of_nil in Hy. }
    destruct (IH (Z.min x z)) as (H1 & H2 & H3). split_and!.
    - destruct H1 as [->|]; [|right; by right].
      destruct (Z.min_spec x z) as [[_ ->]|[_ ->]]; [by left|right; left].
    - lia.
    - intros y [->|Hy]%elem_of_cons; [lia|by apply H3]. }
  destruct Hf as (H1 & H2 & H3). split.
  - apply Hel. destruct H1 as [->|]; [left|by right].
  - intros r Hr%Hel. apply elem_of_cons in Hr as [->|Hr]; [done|by apply H3].
Qed.

(** ** Phase one *)

Lemma kv_assign_explicit_ok cap requests s :
  kv_ok s → targets_valid (length base) requests → Forall item_ok requests →
  under base cap (new_of_rank (kv_acc s)) →
  ∃ remaining s', kv_assign_explicit self cap requests s = (Ok remaining, s') ∧ kv_ok s' ∧
    explicit_phase base cap requests (new_of_rank (kv_acc s)) remaining (new_of_rank (kv_acc s')) ∧
    kv_pending s' ⊆ kv_pending s.
Proof.
  revert s. induction requests as [|x requests IH]; intros s Hs Hv Hit Hu; cbn [kv_assign_explicit].
  { exists [], s. split; [done|]. split; [done|]. split; [|done]. split; try done.
    intros y t Hy. by apply not_elem_of_nil in Hy. }
  rrun. set (target := match target_dp_rank x with Some t => Some t | None => _ end).
  assert (Htx : ∀ t, target_dp_rank x = Some t → target = Some t) by (unfold target; by intros ? ->).
  assert (Htr : ∀ t, target = Some t → 0 ≤ t < n).
  { unfold target. destruct (target_dp_rank x) as [t0|] eqn:Ht0; intros t.
    - intros [= <-]. eapply (target_valid _ _ x); [done|left|done].
    - intros [Ht _]%set_min_spec. by apply (ko_pending _ Hs). }
  apply Forall_cons in Hv as [_ Hv]. apply Forall_cons in Hit as [[Hxt Hxm] Hit].
  rewrite (has_room_ok base cap target _ (ko_acc _ Hs) Htr).
  assert (Hskip : (∀ t, target = Some t → cap ≤ load base (new_of_rank (kv_acc s)) t) →
    ∃ remaining s', (let '(r, s') := kv_assign_explicit self cap requests s in
        match r with Ok a => (Ok (x :: a), s') | Raise e => (Raise e, s') end) = (Ok remaining, s') ∧
      kv_ok s' ∧ explicit_phase base cap (x :: requests) (new_of_rank (kv_acc s)) remaining
        (new_of_rank (kv_acc s')) ∧ kv_pending s' ⊆ kv_pending s).
  { intros Hfull. destruct (IH s Hs Hv Hit Hu) as (rem & s' & -> & Hs' & Hep & Hsub).
    exists (x :: rem), s'. split; [done|]. split; [done|]. split; [|done].
    apply explicit_phase_skipped; [done| |done]. intros t Ht. split; [by apply Htr, Htx|by apply Hfull, Htx]. }
  destruct target as [t|] eqn:Et.
  2:{ destruct Hskip as (rem & s' & Heq & Hrest); [done|]. exists rem, s'. split; [|done].
      rewrite <- Heq. by destruct (kv_assign_explicit self cap requests s) as [[?|?] ?]. }
  destruct (load base (new_of_rank (kv_acc s)) t <? cap) eqn:Hl.
  2:{ destruct Hskip as (rem & s' & Heq & Hrest); [intros ? [= <-]; lia|]. exists rem, s'. split; [|done].
      rewrite <- Heq. by destruct (kv_assign_explicit self cap requests s) as [[?|?] ?]. }
  change (default 0 (Some t)) with t. specialize (Htr t eq_refl).
  destruct (place_ok base (kv_acc s) t x (ko_acc _ Hs) Htr) as (a & -> & Ha & Hna).
  destruct (Hxm t Htr) as (k & -> & Hk).
  destruct (add_tokens_ok s t (Z.max (num_input_tokens_of (request x) - k) 0) Hs Htr) as (ts & -> & Hts).
  { fold (item_tokens x). lia. }
  set (s1 := mkKvAcc _ _ _).
  destruct (IH s1) as (rem & s' & Heq & Hs' & Hep & Hsub).
  - split; [done|done|]. cbn. intros r [Hr _]%elem_of_difference. by apply (ko_pending _ Hs).
  - done.
  - done.
  - cbn. rewrite Hna. apply under_insert; [done|lia].
  - rewrite Heq. exists rem, s'. split; [done|]. split; [done|]. cbn in Hep, Hsub. rewrite Hna in Hep.
    split; [|set_solver]. eapply explicit_phase_placed; [done|lia| |done].
    intros t' Ht'%Htx. congruence.
Qed.

(** ** The choice of a rank *)

Lemma mapM_exists {A B} (f : A → result B) (P : B → Prop) l :
  (∀ x, x ∈ l → ∃ y, f x = Ok y ∧ P y) →
  ∃ ys, mapM (M:=result) f l = Ok ys ∧ length ys = length l ∧ Forall P ys.
Proof.
  induction l as [|x l IH]; intros H; [by exists []|].
  destruct (H x ltac:(left)) as (y & Hy & HP). destruct IH as (ys & Hys & Hl & HPs).
  { intros z Hz. apply H. by right. }
  exists (y :: ys). split; [|split; [simpl; lia|by constructor]].
  apply result_bind_ok. exists y. split; [done|]. apply result_bind_ok. by exists ys.
Qed.

Lemma sum_tokens_ok s ranks acc :
  kv_ok s → (∀ r, r ∈ ranks → 0 ≤ r < n) → ∃ f, sum_tokens (kv_tokens s) ranks acc = Ok f.
Proof.
  intros Hs. revert acc. induction ranks as [|r ranks IH]; intros acc Hr; cbn [sum_tokens]; [by eexists|].
  destruct (tokens_lookup s r Hs) as [t ->]; [apply Hr; left|]. rrun. apply IH.
  intros x Hx. apply Hr. by right.
Qed.

Lemma score_rank_ok req_tokens k t total m e :
  float_of_Z req_tokens = Ok (S754_finite false m e) → - 2 ^ 53 < req_tokens - k < 2 ^ 53 →
  ∃ f, score_rank self req_tokens k t (float_max total (S754_finite false m e)) = Ok f.
Proof.
  intros Hrt Hk. unfold score_rank, float_max. destruct (float_div_denominator t total m e) as [f ->].
  rrun. rewrite Hrt. destruct (float_of_Z_ok _ Hk) as [g ->]. by eexists.
Qed.

(** The scan returns one of the candidates. *)
Lemma best_rank_loop_ok s req_tokens match_lens affinity total m e iter best score :
  kv_ok s → float_of_Z req_tokens = Ok (S754_finite false m e) → 0 < req_tokens < 2 ^ 53 →
  (∀ r, 0 ≤ match_lens r ≤ req_tokens) → (∀ r, r ∈ best :: iter → 0 ≤ r < n) →
  ∃ r, best_rank_loop self (kv_tokens s) req_tokens match_lens affinity
         (float_max total (S754_finite false m e)) iter best score = Ok r ∧ r ∈ best :: iter.
Proof.
  intros Hs Hrt Hreq Hml. revert best score.
  induction iter as [|r iter IH]; intros best score Hin; cbn [best_rank_loop].
  { exists best. split; [done|left]. }
  destruct (tokens_lookup s r Hs) as [t ->]; [apply Hin; right; left|]. rrun.
  destruct (score_rank_ok req_tokens (if affinity then match_lens r else 0) t total m e Hrt) as [f ->].
  { specialize (Hml r). destruct affinity; lia. }
  destruct (tokens_lookup s best Hs) as [tb ->]; [apply Hin; left|].
  case_match.
  - destruct (IH r f) as (r' & -> & Hr'); [intros y Hy; apply Hin; by right|].
    exists r'. split; [done|]. by right.
  - destruct (IH best score) as (r' & -> & Hr').
    { intros y [->|Hy]%elem_of_cons; apply Hin; [left|right; by right]. }
    exists r'. split; [done|]. apply elem_of_cons in Hr' as [->|Hr']; [left|right; by right].
Qed.

Context (shuffle : Z → list Z → list Z).
Context (shuffle_perm : ∀ seed l, shuffle seed l ≡ₚ l).

Lemma choose_rank_ok s eligible x :
  kv_ok s → item_ok x → eligible ≠ [] → (∀ r, r ∈ eligible → 0 ≤ r < n) →
  ∃ r, choose_rank self shuffle (kv_tokens s) eligible x = Ok r ∧ r ∈ eligible.
Proof.
  intros Hs [Hx Hm] Hne Hin. unfold choose_rank. fold (item_tokens x).
  pose proof (shuffle_perm (id x) eligible) as Hsh.
  destruct (shuffle (id x) eligible) as [|b iter] eqn:Esh.
  { by apply Permutation_nil in Hsh. }
  rewrite (py_getitem_nonneg (b :: iter) 0 b) by done. rrun.
  destruct (sum_tokens_ok s eligible (S754_zero false) Hs Hin) as [total ->].
  destruct (float_of_Z_pos (item_tokens x) Hx) as (mm & e & Hrt & _). rewrite Hrt.
  destruct (mapM_exists (λ r, match_len self r (id x)) (λ k, 0 ≤ k ≤ item_tokens x) eligible)
    as (lens & Hlens & Hll & HP). { intros r Hr. by apply Hm, Hin. }
  cbv beta iota zeta delta [mbind mret result_bind result_ret] in Hlens. rewrite Hlens. rewrite Forall_forall in HP.
  destruct (py_max_ok lens) as (mx & -> & Hmx & _).
  { intros ->. destruct eligible; [done|]. simpl in Hll. lia. }
  destruct (int_truediv_ok mx (Z.max (item_tokens x) 1)) as [ratio ->].
  { specialize (HP mx Hmx). lia. } { lia. }
  destruct (best_rank_loop_ok s (item_tokens x)
    (λ r, default 0 ((list_to_map (zip eligible lens) : gmap Z Z) !! r))
    (float_ltb (match_rate_threshold self) ratio) total mm e (b :: iter) b float_inf Hs Hrt Hx)
    as (r & -> & Hr).
  - intros r. destruct ((list_to_map (zip eligible lens) : gmap Z Z) !! r) as [k|] eqn:Ek; cbn; [|lia].
    apply elem_of_list_to_map_2 in Ek. apply HP. by apply elem_of_zip_r in Ek.
  - intros r Hr. apply Hin. rewrite <- Hsh. apply elem_of_cons in Hr as [->|Hr]; [left|done].
  - exists r. split; [done|]. rewrite <- Hsh. apply elem_of_cons in Hr as [->|Hr]; [left|done].
Qed.

(** ** Phase two *)

Lemma room_zero cap m : (∀ r, 0 ≤ r < n → cap ≤ load base m r) → room base cap m = 0.
Proof.
  intros H. unfold room. assert (Hall : ∀ l, (∀ r, r ∈ l → 0 ≤ r < n) →
    zsum ((λ r, Z.max 0 (cap - load base m r)) <$> l) = 0).
  { induction l as [|r l IH]; intros Hl; [done|]. rewrite fmap_cons, zsum_cons, IH.
    - specialize (H r (Hl r ltac:(left))). lia.
    - intros y Hy. apply Hl. by right. }
  apply Hall. intros r Hr%elem_of_seqZ. lia.
Qed.

Record eligible_ok (expected : Z) (m : gmap Z (list RequestQueueItem)) (l : list Z) : Prop := {
  el_in : ∀ r, r ∈ l ↔ 0 ≤ r < n ∧ load base m r < expected;
}.

Lemma balanced_refl expected m : map_ok base m → under base expected m → balanced base expected [] m m.
Proof. by split. Qed.

Lemma balanced_cons expected x taken m m' r :
  0 ≤ r < n → balanced base expected taken (<[r := items_of m r ++ [x]]> m) m' →
  balanced base expected (x :: taken) m m'.
Proof.
  intros Hr [Hm Hp Hu Hs Hmo]. split; try done.
  - rewrite Hp, placed_insert by done. simpl. symmetry. apply Permutation_middle.
  - intros y z Hz. apply Hs. rewrite items_of_insert. case_bool_decide; [subst|done].
    apply elem_of_app. by left.
  - intros y. specialize (Hmo y). rewrite load_insert in Hmo. case_bool_decide; simpl in Hmo; lia.
Qed.

Lemma kv_assign_loop_ok expected requests eligible s :
  kv_ok s → Forall item_ok requests → under base expected (new_of_rank (kv_acc s)) →
  eligible_ok expected (new_of_rank (kv_acc s)) eligible →
  ∃ taken dropped s',
    kv_assign_loop self shuffle expected requests eligible s = (Ok (), s') ∧
    requests = taken ++ dropped ∧ kv_pending s' = kv_pending s ∧
    balanced base expected taken (new_of_rank (kv_acc s)) (new_of_rank (kv_acc s')) ∧
    room base expected (new_of_rank (kv_acc s')) =
      room base expected (new_of_rank (kv_acc s)) - Z.of_nat (length taken) ∧
    (dropped = [] ∨ room base expected (new_of_rank (kv_acc s')) = 0).
Proof.
  revert eligible s. induction requests as [|x requests IH];
    intros eligible s Hs Hit Hu [Hel]; cbn [kv_assign_loop].
  { exists [], [], s. split; [done|]. split; [done|]. split; [done|].
    split; [apply balanced_refl; [apply (ko_acc _ Hs)|done]|]. simpl. split; [lia|by left]. }
  case_bool_decide as Hne.
  { exists [], (x :: requests), s. split; [done|]. split; [done|]. split; [done|].
    split; [apply balanced_refl; [apply (ko_acc _ Hs)|done]|]. simpl. split; [lia|]. right.
    apply room_zero. intros r Hr. destruct (Z.le_gt_cases expected (load base (new_of_rank (kv_acc s)) r));
      [done|]. subst eligible. exfalso. apply (not_elem_of_nil r), Hel. lia. }
  apply Forall_cons in Hit as [Hx Hit]. rrun.
  destruct (choose_rank_ok s eligible x Hs Hx Hne) as (r & -> & Hr); [intros y Hy; by apply Hel|].
  apply Hel in Hr as [Hr Hlt].
  destruct (place_ok base (kv_acc s) r x (ko_acc _ Hs) Hr) as (a & -> & Ha & Hna).
  destruct Hx as [Hxt Hxm]. destruct (Hxm r Hr) as (k & -> & Hk).
  destruct (add_tokens_ok s r (Z.max (num_input_tokens_of (request x) - k) 0) Hs Hr) as (ts & -> & Hts).
  { fold (item_tokens x). lia. }
  rewrite (py_getitem_nonneg _ _ (load base (new_of_rank a) r)) by (try apply (ao_count _ _ Ha); lia).
  set (s1 := mkKvAcc a ts (kv_pending s)).
  assert (Hs1 : kv_ok s1) by (split; [done|done|apply (ko_pending _ Hs)]).
  assert (Hu1 : under base expected (new_of_rank (kv_acc s1))) by (cbn; rewrite Hna; by apply under_insert).
  assert (Hel1 : eligible_ok expected (new_of_rank (kv_acc s1))
    (if expected <=? load base (new_of_rank a) r then filter (λ y, y ≠ r) eligible else eligible)).
  { split. intros y. cbn. assert (Hly : load base (new_of_rank a) y =
      load base (new_of_rank (kv_acc s)) y + (if bool_decide (y = r) then 1 else 0)).
    { rewrite Hna, load_insert. done. }
    destruct (expected <=? load base (new_of_rank a) r) eqn:E.
    - rewrite list_elem_of_filter, Hel, Hly. case_bool_decide as Hy; [subst y|rewrite Z.add_0_r; tauto].
      rewrite Hly in E. split; [by intros [? _]|intros; lia].
    - rewrite Hel, Hly. case_bool_decide; [subst y|rewrite Z.add_0_r; done].
      rewrite Hly in E. lia. }
  destruct (IH _ s1 Hs1 Hit Hu1 Hel1) as (taken & dropped & s' & -> & -> & Hpd & Hbal & Hroom & Hdrop).
  exists (x :: taken), dropped, s'. split; [done|]. split; [done|]. split; [done|].
  cbn in Hbal, Hroom. rewrite Hna in Hbal, Hroom. split; [by eapply balanced_cons|].
  rewrite room_insert in Hroom by done. split; [simpl length; lia|done].
Qed.
End kv_router.

(** ** The router *)

Section kv_router_claims.
Context (shuffle : Z → list Z → list Z).
Context (shuffle_perm : ∀ seed l, shuffle seed l ≡ₚ l).

(** What the router is given: token counts that are exact as floats, requests
    with a cached prefix no longer than themselves, warm-up ranks that
    exist, and a soft-cap multiplier of at least one. *)
Record kv_inputs_ok (self : KVCacheAwareADPRouter) (states : list RankState)
    (new : list RequestQueueItem) : Prop := {
  ki_factor : is_factor (kv_fair_share_multiplier self);
  ki_tokens : Forall (λ s, - 2 ^ 53 < num_active_tokens s < 2 ^ 53) states;
  ki_items : Forall (item_ok self (base_of states)) new;
  ki_pending : ∀ r, r ∈ pending_warmup_ranks self → 0 ≤ r < Z.of_nat (length states);
}.

Lemma eligible_start states s expected :
  kv_ok (base_of states) s →
  eligible_ok (base_of states) expected (new_of_rank (kv_acc s))
    (ranks_under expected (num_active (kv_acc s)) (Z.of_nat (length states))).
Proof.
  intros [Ha _ _]. assert (Hlen : length (base_of states) = length states) by apply length_fmap.
  split. intros r. unfold ranks_under. rewrite list_elem_of_filter, elem_of_seqZ, Hlen, Z.add_0_l.
  split.
  - intros [Hd Hr]. rewrite (ao_count _ _ Ha) in Hd by lia. done.
  - intros [Hr Hd]. rewrite (ao_count _ _ Ha) by lia. done.
Qed.

Lemma kv_start states new cap self :
  states_ok states (Z.of_nat (length new)) cap → kv_inputs_ok self states new →
  ∃ ts, mapM (M:=result) (λ s, float_of_Z (num_active_tokens s)) states = Ok ts ∧
    kv_ok (base_of states) (mkKvAcc (acc_init states) ts (pending_warmup_ranks self)).
Proof.
  intros Hs [_ Ht _ Hp]. rewrite Forall_forall in Ht.
  destruct (mapM_exists (λ s, float_of_Z (num_active_tokens s)) (λ _, True) states) as (ts & Hts & Hl & _).
  { intros s Hin. destruct (float_of_Z_ok _ (Ht s Hin)) as [f Hf]. by exists f. }
  assert (Hlen : length (base_of states) = length states) by apply length_fmap.
  exists ts. split; [done|]. split; [by apply (acc_init_ok _ _ _ Hs)|cbn; lia|].
  intros r Hr. rewrite Hlen. by apply Hp.
Qed.

(** C23: [KVCacheAwareADPRouter.route_requests] never raises on well-formed
    input, whatever the scores and the shuffle: it gives each request to at
    most one rank, keeps every rank's load within the returned target and the
    target within the limit, puts a request that names a rank on that rank
    unless the rank is full, and leaves out exactly the requests that exceed
    the free places of all ranks (none when admission has bounded them). *)
Theorem kv_router_places_within_caps states new cap self :
  states_ok states (Z.of_nat (length new)) cap → targets_valid (length states) new →
  kv_inputs_ok self states new →
  ∃ m expected self' kept dropped,
    kv_route_requests shuffle states new cap self = (Ok (m, expected), self') ∧
    new ≡ₚ kept ++ dropped ∧ routed states kept cap m expected ∧
    Z.of_nat (length dropped) = Z.max 0 (Z.of_nat (length new) - free_places states cap) ∧
    pending_warmup_ranks self' ⊆ pending_warmup_ranks self.
Proof.
  intros Hs Hv Hin. destruct (kv_start states new cap self Hs Hin) as (ts & Hts & Hok).
  unfold kv_route_requests. rewrite Hts. set (s0 := mkKvAcc _ _ _) in *.
  destruct (acc_init_ok _ _ _ Hs) as (_ & Hnil & _ & Hu).
  set (sorted := sort_by (key_leb (λ i, Z.b2z (get_relax_value i))) new).
  assert (Hp : sorted ≡ₚ new) by apply sort_by_perm.
  assert (Hlen : length (base_of states) = length states) by apply length_fmap.
  assert (Hvs : targets_valid (length states) sorted) by (by apply (targets_valid_perm _ _ new)).
  destruct (kv_assign_explicit_ok self (base_of states) cap sorted s0 Hok) as
    (rem & s1 & He & Hok1 & Hep & Hsub); [by rewrite Hlen|rewrite Hp; by apply Hin|done|].
  cbn [s0 kv_acc] in Hep. pose proof (ep_split _ _ _ _ _ _ Hep) as Hsplit.
  rewrite Hnil, app_nil_r, Hp in Hsplit.
  set (rem' := sort_by sort_key_leb rem). assert (Hr' : rem' ≡ₚ rem) by apply sort_by_perm.
  destruct (soft_cap_of_acc states new rem' cap (kv_acc s1) (kv_fair_share_multiplier self))
    as (share & Hshare & Hun & Hexp); [done|apply Hok1|by rewrite Hr'|apply Hin|].
  set (E := Z.min share cap). pose proof (ep_room _ _ _ _ _ _ Hep) as Hroom.
  rewrite (init_room _ _ _ Hs), Hp in Hroom.
  destruct (kv_assign_loop_ok self (base_of states) shuffle shuffle_perm E rem'
    (ranks_under E (num_active (kv_acc s1)) (Z.of_nat (length states))) s1 Hok1)
    as (taken & dropped & s2 & Hl & Hsp & Hpd & Hbal & Hr2 & Hdrop).
  { rewrite Hr'. apply Forall_forall. intros x Hx. pose proof (ki_items _ _ _ Hin) as Hit.
    rewrite Forall_forall in Hit. apply Hit. rewrite <- Hsplit. apply elem_of_app. by left. }
  { intros r Hr. specialize (Hun r Hr). pose proof (ep_under _ _ _ _ _ _ Hep r Hr). lia. }
  { by apply eligible_start. }
  assert (Hbody : kv_route_body self shuffle (Z.of_nat (length states)) new cap s0 = (Ok E, s2)).
  { unfold kv_route_body. fold sorted. rrun. rewrite He. fold rem'. rewrite Hexp. fold E. by rewrite Hl. }
  rewrite Hbody. rrun. eexists _, E, _, (taken ++ placed (base_of states) (new_of_rank (kv_acc s1))), dropped.
  assert (Hnew : new ≡ₚ (taken ++ placed (base_of states) (new_of_rank (kv_acc s1))) ++ dropped).
  { rewrite <- Hsplit, <- Hr', Hsp, <- !(assoc_L (++)). f_equiv. apply Permutation_app_comm. }
  split; [done|]. split; [done|]. split_and!.
  - apply (routed_from_balanced states _ cap rem taken sorted (new_of_rank (kv_acc s1))); try done; [|lia].
    intros x Hx. rewrite Hp, Hnew. apply elem_of_app. by left.
  - pose proof (room_nonneg (base_of states) E (new_of_rank (kv_acc s2))).
    pose proof (room_mono (base_of states) E cap (new_of_rank (kv_acc s1)) ltac:(lia)).
    assert (length rem' = length rem) by (by rewrite Hr').
    assert (Hl' : length rem' = (length taken + length dropped)%nat) by (by rewrite Hsp, length_app).
    destruct Hdrop as [->|Hz]; [simpl in *; lia|].
    destruct (Z.min_spec share cap) as [[Hlt Hm]|[Hle Hm]]; fold E in Hm; rewrite Hm in *; lia.
  - cbn. by rewrite Hpd.
Qed.

Lemma sum_of_zeros (ts : list float) ranks :
  (∀ r, r ∈ ranks → py_getitem ts r = Ok (S754_zero false)) →
  sum_tokens ts ranks (S754_zero false) = Ok (S754_zero false).
Proof.
  induction ranks as [|r ranks IH]; intros H; [done|]. cbn [sum_tokens].
  rewrite (H r) by left. rrun. apply IH. intros x Hx. apply H. by right.
Qed.

(** An empty request on idle ranks: the load is divided by zero. *)
Lemma choose_rank_zero self (ts : list float) eligible x :
  eligible ≠ [] → num_input_tokens_of (request x) = 0 → all_ranks_prefix_matches self = [] →
  (∀ r, r ∈ eligible → 0 ≤ r ∧ py_getitem ts r = Ok (S754_zero false)) →
  choose_rank self shuffle ts eligible x = Raise ZeroDivisionError.
Proof.
  intros Hne Hx Hm Hts. unfold choose_rank. rewrite Hx.
  pose proof (shuffle_perm (id x) eligible) as Hsh.
  destruct (shuffle (id x) eligible) as [|b iter] eqn:Esh; [by apply Permutation_nil in Hsh|].
  rewrite (py_getitem_nonneg (b :: iter) 0 b) by done. rrun.
  rewrite sum_of_zeros by (intros r Hr; by apply Hts). change (float_of_Z 0) with (Ok (S754_zero false)).
  assert (Hlens : mapM (M:=result) (λ r, match_len self r (id x)) eligible = Ok ((λ _, 0) <$> eligible)).
  { apply mapM_ok. intros r Hr. unfold match_len. rewrite Hm. destruct (Hts r Hr) as [Hr0 _].
    by rewrite (proj2 (Z.ltb_ge _ _)) by (cbn; lia). }
  cbv beta iota zeta delta [mbind mret result_bind result_ret] in Hlens. rewrite Hlens.
  assert (Hmax : py_max ((λ _ : Z, 0) <$> eligible) = Ok 0).
  { destruct (py_max_ok ((λ _ : Z, 0) <$> eligible)) as (y & -> & Hy & _).
    - by destruct eligible.
    - apply list_elem_of_fmap in Hy as (? & -> & _). done. }
  rewrite Hmax. change (int_truediv 0 (Z.max 0 1)) with (Ok (S754_zero false)).
  cbn [best_rank_loop]. destruct (Hts b) as [_ Hb]; [rewrite <- Hsh; left|]. rewrite Hb. done.
Qed.

(** When every rank is idle (no active tokens) and no warm-up rank is
    left, a request without input tokens and without a target rank makes
    [KVCacheAwareADPRouter.route_requests] raise [ZeroDivisionError]: the
    score divides the rank's tokens by the larger of the total load and the
    request's tokens, both zero. *)
Theorem kv_router_empty_request_raises states x cap self :
  states_ok states 1 cap → is_factor (kv_fair_share_multiplier self) →
  Forall (λ s, num_active_tokens s = 0) states → pending_warmup_ranks self = ∅ →
  all_ranks_prefix_matches self = [] → num_input_tokens_of (request x) = 0 →
  target_dp_rank x = None → 0 < free_places states cap →
  (kv_route_requests shuffle states [x] cap self).1 = Raise ZeroDivisionError.
Proof.
  intros Hs Hf Ht Hpd Hm Hx Hnt Hfree. unfold kv_route_requests.
  rewrite (mapM_ok _ (λ _, S754_zero false)); last first.
  { rewrite Forall_forall in Ht. intros s Hin. by rewrite (Ht s Hin). }
  set (s0 := mkKvAcc _ _ _). destruct (acc_init_ok _ _ _ Hs) as (Ha & Hnil & _ & Hu).
  assert (Hlen : length (base_of states) = length states) by apply length_fmap.
  destruct (soft_cap_of_acc states [x] [x] cap (acc_init states) (kv_fair_share_multiplier self) Hs Ha)
    as (share & Hshare & Hun & Hexp); [by rewrite Hnil|done|].
  assert (Hok : kv_ok (base_of states) s0).
  { split; [done|cbn; rewrite length_fmap; lia|]. cbn. rewrite Hpd. set_solver. }
  assert (Hbody : (kv_route_body self shuffle (Z.of_nat (length states)) [x] cap s0).1 =
                  Raise ZeroDivisionError); [|by destruct (kv_route_body _ _ _ _ _ _) as [[?|?] ?]; simpl in *; simplify_eq].
  unfold kv_route_body. change (sort_by _ [x]) with [x]. rrun. cbn [kv_assign_explicit]. rrun.
  rewrite Hnt. cbn [s0 kv_pending]. rewrite Hpd. change (set_min ∅) with (@None Z). cbn [has_room].
  change (sort_by sort_key_leb [x]) with [x]. cbn [s0 kv_acc]. rewrite Hexp. set (E := Z.min share cap).
  cbn [kv_assign_loop]. pose proof (eligible_start states s0 E Hok) as [Hel]. cbn [s0 kv_acc] in Hel.
  set (eligible := ranks_under _ _ _) in *. case_bool_decide as Hne.
  - exfalso. assert (1 ≤ room (base_of states) E (new_of_rank (acc_init states))) as Hroom.
    { apply room_cap_min; [exact Hshare|]. rewrite (init_room _ _ _ Hs). lia. }
    rewrite (room_zero (base_of states)) in Hroom; [lia|]. intros r Hr.
    destruct (Z.le_gt_cases E (load (base_of states) (new_of_rank (acc_init states)) r)); [done|].
    exfalso. apply (not_elem_of_nil r). rewrite <- Hne. apply Hel. split; [done|lia].
  - rrun. rewrite choose_rank_zero; try done. intros r Hr%Hel. split; [lia|]. cbn [s0 kv_tokens].
    destruct (lookup_lt_is_Some_2 states (Z.to_nat r)) as [s Hsr]; [lia|].
    apply py_getitem_nonneg; [lia|]. by rewrite list_lookup_fmap, Hsr.
Qed.
End kv_router_claims.

(** Two ranks, the second with most of the prompt of the first request
    cached; the shuffle is taken to be reversal. *)
Definition demo_kv : KVCacheAwareADPRouter :=
  mkKvRouter float_1 (S754_zero false) float_2 false [{[10 := 0]}; {[10 := 4; 13 := 2]}] ∅.

Definition demo_kv_new : list RequestQueueItem :=
  [demo_item 10 5 None; demo_item 11 7 (Some 1); demo_item 13 9 None].

Lemma float_2_factor : is_factor float_2.
Proof. exists (2 ^ 52)%positive, (-51). split; [done|]. lia. Qed.

Lemma demo_kv_inputs : kv_inputs_ok demo_kv demo_states demo_kv_new.
Proof.
  split.
  - apply float_2_factor.
  - repeat constructor; cbn; lia.
  - assert (Hr : ∀ r, 0 ≤ r < 2 → r = 0 ∨ r = 1) by lia.
    repeat (apply Forall_cons; split); [..|constructor]; (split; [cbn; lia|]);
      intros r [->| ->]%Hr; eexists; (split; [vm_compute; reflexivity|cbn; lia]).
  - cbn. set_solver.
Qed.

Lemma kv_router_witness :
  (λ p, (id <$> items_of p.1 0, id <$> items_of p.1 1, p.2)) <$>
    (kv_route_requests (λ _ l, reverse l) demo_states demo_kv_new 5 demo_kv).1 =
    Ok ([13], [11; 10], 5) ∧
  ∃ m expected self' kept dropped,
    kv_route_requests (λ _ l, reverse l) demo_states demo_kv_new 5 demo_kv =
      (Ok (m, expected), self') ∧
    demo_kv_new ≡ₚ kept ++ dropped ∧ routed demo_states kept 5 m expected ∧
    Z.of_nat (length dropped) =
      Z.max 0 (Z.of_nat (length demo_kv_new) - free_places demo_states 5) ∧
    pending_warmup_ranks self' ⊆ pending_warmup_ranks demo_kv.
Proof.
  split; [vm_compute; reflexivity|].
  apply (kv_router_places_within_caps (λ _ l, reverse l) (λ _ l, reverse_Permutation l)).
  - apply demo_states_ok; cbn; lia.
  - targets_valid_tac.
  - apply demo_kv_inputs.
Defined.

Lemma kv_router_empty_request_witness :
  let idle := [mkRankState 0 0 0 default_payload; mkRankState 1 0 0 default_payload] in
  let self := mkKvRouter float_1 (S754_zero false) float_2 false [] ∅ in
  (kv_route_requests (λ _ l, l) idle [demo_item 1 0 None] 4 self).1 = Raise ZeroDivisionError.
Proof.
  apply (kv_router_empty_request_raises (λ _ l, l) (λ _ l, Permutation_refl l)); try done.
  - split; [done|done| |cbn; rewrite !zsum_cons, zsum_nil; lia]. repeat constructor; cbn; lia.
  - apply float_2_factor.
  - by repeat constructor.
Defined.
