(* ===== verification/AdpConvProps.v ===== *)
(** * Correctness of the conversation-aware router

    The conversation map is an LRU cache of the given size; every request is
    placed and the returned target covers every rank; a conversation stays on
    its rank while the rank has room.  Also: the soft cap of this router is
    not limited by the per-rank maximum. *)

From S2P Require Import Prelude PySort PyFloat Requests Admission AdpRouter AdpRouterProps.

Local Open Scope Z_scope.

(** ** The conversation map *)

Lemma evict_oldest_drop k l :
  0 ≤ k → evict_oldest k l = drop (length l - Z.to_nat k) l.
Proof.
  intros Hk. induction l as [|e l IH]; [done|]. cbn [evict_oldest].
  change (length (e :: l)) with (S (length l)). destruct (k <? Z.of_nat (S (length l))) eqn:E.
  - rewrite IH. apply Z.ltb_lt in E. assert (Z.to_nat k ≤ length l)%nat by lia. rewrite Nat.sub_succ_l by done. done.
  - apply Z.ltb_ge in E. by replace (S (length l) - Z.to_nat k)%nat with 0%nat by lia.
Qed.

Lemma length_evict k l : 0 ≤ k → Z.of_nat (length (evict_oldest k l)) = Z.min k (Z.of_nat (length l)).
Proof. intros Hk. rewrite evict_oldest_drop, length_drop by done. lia. Qed.

Lemma evict_suffix k l : ∃ l1, l = l1 ++ evict_oldest k l.
Proof.
  induction l as [|e l [l1 IH]]; [by exists []|]. cbn [evict_oldest].
  destruct (_ <? _); [exists (e :: l1); simpl; by f_equal|by exists []].
Qed.

(** The bindings ever made, each conversation at the place of its last one. *)
Definition history (l : list (string * Z)) : list (string * Z) :=
  foldl (λ h e, filter (λ x : string * Z, x.1 ≠ e.1) h ++ [e]) [] l.

Definition record_all (l : list (string * Z)) (self : ConversationAwareADPRouter) :
    ConversationAwareADPRouter :=
  foldl (λ s e, record_target_rank e.1 e.2 s) self l.

Lemma filter_keys_none c (l : list (string * Z)) :
  c ∉ l.*1 → filter (λ x : string * Z, x.1 ≠ c) l = l.
Proof.
  intros Hc. apply list_filter_all, Forall_forall. intros x Hx Heq. apply Hc. rewrite <- Heq.
  by apply list_elem_of_fmap_2.
Qed.

Lemma filter_keys_some c (l : list (string * Z)) :
  NoDup l.*1 → c ∈ l.*1 → S (length (filter (λ x : string * Z, x.1 ≠ c) l)) = length l.
Proof.
  induction l as [|x l IH]; intros Hnd Hc; [by apply not_elem_of_nil in Hc|].
  rewrite fmap_cons in *. apply NoDup_cons in Hnd as [Hx Hnd]. rewrite filter_cons.
  apply elem_of_cons in Hc as [->|Hc].
  - rewrite decide_False by (intros H; by apply H). by rewrite filter_keys_none.
  - rewrite decide_True by (intros <-; done). cbn [length]. by rewrite IH.
Qed.

Lemma history_nodup l : NoDup (history l).*1.
Proof.
  unfold history. induction l as [|e l IH] using rev_ind; [constructor|].
  rewrite foldl_app. cbn [foldl]. rewrite fmap_app. apply NoDup_app. split_and!.
  - clear -IH. set (h := foldl _ _ _) in *. clearbody h. induction h as [|x h IHh]; [constructor|].
    rewrite fmap_cons in IH. apply NoDup_cons in IH as [Hx IH]. rewrite filter_cons.
    case_decide; [|by apply IHh]. rewrite fmap_cons. apply NoDup_cons. split; [|by apply IHh].
    intros (y & Hy & Hin)%list_elem_of_fmap. apply Hx. rewrite Hy.
    apply list_elem_of_filter in Hin as [_ ?]. by apply list_elem_of_fmap_2.
  - intros c (x & -> & Hx)%list_elem_of_fmap Hc. apply list_elem_of_filter in Hx as [Hne _].
    cbn in Hc. by apply list_elem_of_singleton in Hc.
  - cbn. apply NoDup_singleton.
Qed.

(** Forgetting the old bindings first changes nothing. *)
Lemma drop_filter_app (k : nat) c e (h : list (string * Z)) :
  (1 ≤ k)%nat → NoDup h.*1 →
  let lastn (l : list (string * Z)) := drop (length l - k) l in
  lastn (filter (λ x : string * Z, x.1 ≠ c) (lastn h) ++ [e]) =
  lastn (filter (λ x : string * Z, x.1 ≠ c) h ++ [e]).
Proof.
  intros Hk Hnd lastn. unfold lastn. destruct (decide (length h ≤ k)%nat) as [Hle|Hgt].
  { by replace (length h - k)%nat with 0%nat by lia. }
  set (j := (length h - k)%nat). rewrite <- (take_drop j h) in Hnd |- * at 3 4.
  set (f := take j h) in *. set (b := drop j h) in *.
  assert (Hb : length b = k) by (unfold b; rewrite length_drop; lia).
  rewrite fmap_app in Hnd. apply NoDup_app in Hnd as (Hf & Hfb & Hbn).
  rewrite !filter_app. set (F := filter (λ x : string * Z, x.1 ≠ c)).
  rewrite <- (assoc_L (++)). destruct (decide (c ∈ b.*1)) as [Hc|Hc].
  - pose proof (filter_keys_some c b Hbn Hc) as Hl. fold F in Hl.
    assert (HFf : F f = f) by (apply filter_keys_none; intros Hin; by apply (Hfb c)). rewrite HFf.
    replace (length (F b ++ [e]) - k)%nat with 0%nat by (rewrite length_app; simpl; lia). rewrite drop_0.
    replace (length (f ++ F b ++ [e]) - k)%nat with (length f) by (rewrite !length_app; simpl; lia).
    by rewrite drop_app_length.
  - assert (HFb : F b = b) by (by apply filter_keys_none). rewrite HFb.
    rewrite !length_app. simpl length.
    replace (length (F f) + (length b + 1) - k)%nat with (length (F f) + 1)%nat by lia.
    replace (length b + 1 - k)%nat with 1%nat by lia.
    by rewrite <- drop_drop, drop_app_length.
Qed.

Lemma record_all_const l self :
  max_sessions (record_all l self) = max_sessions self.
Proof.
  unfold record_all. revert self. induction l as [|e l IH]; intros self; [done|]. cbn [foldl]. by rewrite IH.
Qed.

(** The conversation map is an LRU cache: after any sequence of bindings
    and touches it holds the most recent conversations, in the order of their
    last use and each with its last rank, as many as fit the limit (at least
    one). *)
Theorem conversation_map_is_lru limit multiplier p l :
  conv_to_rank (record_all l (conv_router_init limit multiplier p)) =
  drop (length (history l) - Z.to_nat (Z.max 1 limit)) (history l).
Proof.
  induction l as [|[c r] l IH] using rev_ind; [done|].
  unfold record_all at 1, history. rewrite !foldl_app. cbn [foldl fst snd].
  fold (record_all l (conv_router_init limit multiplier p)). fold (history l).
  unfold record_target_rank at 1. cbn [conv_to_rank].
  rewrite record_all_const, IH, evict_oldest_drop by (cbn; lia). cbn [conv_router_init max_sessions].
  apply (drop_filter_app (Z.to_nat (Z.max 1 limit)) c (c, r) (history l)); [lia|apply history_nodup].
Qed.

(** ** The router *)

Section conv_router.
Context (base : list Z).
Context (base_nonempty : base ≠ []).

Local Abbreviation n := (Z.of_nat (length base)).

Lemma n_pos : 0 < n.
Proof using base_nonempty. destruct base; [done|]. simpl. lia. Qed.

(** Conversations are bound to existing ranks. *)
Definition bindings_ok (self : ConversationAwareADPRouter) : Prop :=
  Forall (λ e : string * Z, 0 ≤ e.2 < n) (conv_to_rank self).

Record conv_ok (s : ConvAcc) : Prop := {
  co_acc : acc_ok base (conv_acc s);
  co_bind : bindings_ok (conv_self s);
}.

Lemma record_bindings c r self :
  bindings_ok self → 0 ≤ r < n → bindings_ok (record_target_rank c r self).
Proof.
  unfold bindings_ok, record_target_rank. cbn [conv_to_rank]. intros Hb Hr.
  set (l := filter _ _ ++ _). destruct (evict_suffix (max_sessions self) l) as [l1 Hl].
  assert (Hall : Forall (λ e : string * Z, 0 ≤ e.2 < n) l).
  { apply Forall_app. split; [|by apply Forall_singleton].
    apply (Forall_sublist_sub _ _ (conv_to_rank self)); [apply sublist_filter|done]. }
  rewrite Hl in Hall. by apply Forall_app in Hall as [_ ?].
Qed.

Lemma lookup_binding c r self :
  bindings_ok self → conv_lookup c (conv_to_rank self) = Some r → 0 ≤ r < n.
Proof.
  unfold bindings_ok, conv_lookup. rewrite Forall_forall. intros Hb H.
  destruct (filter _ _) as [|e l] eqn:E; [done|]. injection H as <-. apply Hb.
  apply (list_elem_of_filter (λ x : string * Z, x.1 = c)). rewrite E. left.
Qed.

Lemma least_of_in counts cands : cands ≠ [] → ∃ r, least_of counts cands = Ok r ∧ r ∈ cands.
Proof.
  destruct cands as [|r cands]; [done|]. intros _. cbn [least_of]. eexists. split; [done|].
  set (pick := λ b x : Z, if (_ : bool) then x else b). generalize r.
  induction cands as [|x cands IH]; intros b; cbn [foldl]; [left|].
  specialize (IH (pick b x)). apply elem_of_cons in IH as [Heq|Hin]; [|right; by right].
  rewrite Heq. unfold pick. case_match; [right; left|left].
Qed.

Lemma ranks_under_range cap counts r : r ∈ ranks_under cap counts n → 0 ≤ r < n.
Proof. unfold ranks_under. intros [_ Hr]%list_elem_of_filter. apply elem_of_seqZ in Hr. lia. Qed.

Lemma least_loaded_ok counts cap : ∃ r, least_loaded counts n cap = Ok r ∧ 0 ≤ r < n.
Proof using base_nonempty.
  pose proof n_pos as Hn. unfold least_loaded. case_bool_decide as Hc.
  - destruct (least_of_in counts (seqZ 0 n)) as (r & -> & Hr).
    { intros H. apply (f_equal length) in H. rewrite length_seqZ in H. simpl in H. lia. }
    exists r. split; [done|]. apply elem_of_seqZ in Hr. lia.
  - destruct (least_of_in counts _ Hc) as (r & -> & Hr). exists r. split; [done|].
    by eapply ranks_under_range.
Qed.

Lemma next_rr_ok counts cap cursor :
  ∃ r c, next_rr counts n cap cursor = (Ok r, c) ∧ 0 ≤ r < n.
Proof using base_nonempty.
  pose proof n_pos as Hn. unfold next_rr.
  assert (Hscan : ∀ k cur, match (next_rr_scan k counts n cap cur).1 with
                           | Some r => 0 ≤ r < n | None => True end).
  { induction k as [|k IH]; intros cur; cbn [next_rr_scan]; [done|].
    destruct (default cap _ <? cap); [|apply IH]. cbn. by apply Z.mod_pos_bound. }
  specialize (Hscan (Z.to_nat n) cursor).
  destruct (next_rr_scan _ _ _ _ _) as [[r|] c]; [by eexists _, _|].
  destruct (least_loaded_ok counts cap) as (r & -> & Hr). by eexists _, _.
Qed.

(** Placement changes neither the loads nor the bindings. *)
Lemma place_new_ok cap s :
  ∃ r c, place_new n cap s = (Ok r, mkConvAcc (conv_acc s) (with_cursor c (conv_self s))) ∧ 0 ≤ r < n.
Proof using base_nonempty.
  unfold place_new. destruct (new_conv_placement (conv_self s)).
  - destruct (next_rr_ok (num_active (conv_acc s)) cap (round_robin_cursor (conv_self s)))
      as (r & c & -> & Hr). by eexists _, _.
  - destruct (least_loaded_ok (num_active (conv_acc s)) cap) as (r & -> & Hr).
    exists r, (round_robin_cursor (conv_self s)). by destruct s as [? []].
Qed.

(** How the map changes when a request goes to a rank. *)
Inductive rebound (self : ConversationAwareADPRouter) (x : RequestQueueItem) (r : Z) :
    ConversationAwareADPRouter → Prop :=
| rebound_none : conversation_id_of x = None ∨ is_Some (bound_rank self x) → rebound self x r self
| rebound_bind c : conversation_id_of x = Some c → (∀ t, bound_rank self x = Some t → t = r) →
    rebound self x r (record_target_rank c r self).

Lemma rebound_bindings self x r self' :
  bindings_ok self → 0 ≤ r < n → rebound self x r self' → bindings_ok self'.
Proof. intros Hb Hr [|]; [done|by apply record_bindings]. Qed.

Lemma bound_rank_range self x t : bindings_ok self → bound_rank self x = Some t → 0 ≤ t < n.
Proof.
  unfold bound_rank. intros Hb. destruct (conversation_id_of x) as [c|]; [|done].
  by apply lookup_binding.
Qed.

(** A request goes to its conversation's rank when that has room, else to a
    new placement; only an unbound conversation is bound by that. *)
Lemma conv_choose_ok cap expected x s :
  conv_ok s →
  ∃ r s' cur, conv_choose n cap expected x s = (Ok r, s') ∧ 0 ≤ r < n ∧
    conv_acc s' = conv_acc s ∧ rebound (with_cursor cur (conv_self s)) x r (conv_self s') ∧
    (∀ t, bound_rank (conv_self s) x = Some t → load base (new_of_rank (conv_acc s)) t < cap → r = t).
Proof using base_nonempty.
  intros [Ha Hb]. unfold conv_choose. rrun.
  rewrite (has_room_ok base cap _ _ Ha) by (intros t Ht; by eapply bound_rank_range).
  destruct (bound_rank (conv_self s) x) as [t|] eqn:Et.
  - pose proof (bound_rank_range _ _ _ Hb Et) as Htr.
    destruct (load base (new_of_rank (conv_acc s)) t <? cap) eqn:El.
    + change (default 0 (Some t)) with t. unfold bind_conversation. rrun.
      pose proof Et as Et'. unfold bound_rank in Et'.
      destruct (conversation_id_of x) as [c|] eqn:Ec; [|done].
      eexists t, _, (round_robin_cursor (conv_self s)). split; [done|]. split; [done|]. split; [done|].
      split; [|by intros ? [= <-]]. cbn. destruct s as [sa [? ? ? ? ?]]. cbn in *.
      apply (rebound_bind _ x t c Ec). intros t'. unfold bound_rank. rewrite Ec. cbn in *. congruence.
    + destruct (place_new_ok expected s) as (r & c & -> & Hr). rewrite bool_decide_eq_true_2 by by eexists.
      eexists r, _, c. split; [done|]. split; [done|]. split; [done|]. split.
      * apply rebound_none. right. exists t. exact Et.
      * intros ? [= <-] ?. lia.
  - destruct (place_new_ok expected s) as (r & c & -> & Hr).
    rewrite bool_decide_eq_false_2 by (by intros [? ?]). unfold bind_conversation. rrun.
    eexists r, _, c. split; [done|]. split; [done|].
    destruct (conversation_id_of x) as [cv|] eqn:Ec; (split; [done|]); (split; [|done]); cbn.
    + apply (rebound_bind _ x r cv Ec). intros t. unfold bound_rank in *. rewrite Ec in *. cbn in *. congruence.
    + apply rebound_none. by left.
Qed.

(** ** Runs of the router *)

(** Requests placed one after another; [cap] is the hard cap below which a
    bound conversation gets its rank. *)
Inductive steps (cap : Z) : list RequestQueueItem → ConvAcc → ConvAcc → Prop :=
| steps_nil s : steps cap [] s s
| steps_cons x l r cur a s self1 s' :
    0 ≤ r < n → place r x (conv_acc s) = Ok a →
    rebound (with_cursor cur (conv_self s)) x r self1 →
    (∀ t, bound_rank (conv_self s) x = Some t → load base (new_of_rank (conv_acc s)) t < cap → r = t) →
    steps cap l (mkConvAcc a self1) s' → steps cap (x :: l) s s'.

Lemma steps_app cap l k s1 s2 s3 : steps cap l s1 s2 → steps cap k s2 s3 → steps cap (l ++ k) s1 s3.
Proof. induction 1; [done|]. intros. simpl. econstructor; eauto. Qed.

Lemma steps_one_ok x r cur a self1 s :
  conv_ok s → 0 ≤ r < n → place r x (conv_acc s) = Ok a →
  rebound (with_cursor cur (conv_self s)) x r self1 →
  conv_ok (mkConvAcc a self1) ∧
  new_of_rank a = <[r := items_of (new_of_rank (conv_acc s)) r ++ [x]]> (new_of_rank (conv_acc s)).
Proof.
  intros [Ha Hb] Hr Hp Hreb. destruct (place_ok base (conv_acc s) r x Ha Hr) as (a' & Hp' & Ha' & Hn).
  rewrite Hp in Hp'. injection Hp' as <-. split; [|done]. split; [done|].
  by eapply (rebound_bindings (with_cursor cur (conv_self s))).
Qed.

(** Every request of a run is on some rank; loads only grow. *)
Lemma steps_placed cap l s s' :
  steps cap l s s' → conv_ok s →
  conv_ok s' ∧ placed base (new_of_rank (conv_acc s')) ≡ₚ l ++ placed base (new_of_rank (conv_acc s)) ∧
  (∀ r, load base (new_of_rank (conv_acc s)) r ≤ load base (new_of_rank (conv_acc s')) r) ∧
  (∀ r x, x ∈ items_of (new_of_rank (conv_acc s)) r → x ∈ items_of (new_of_rank (conv_acc s')) r).
Proof.
  induction 1 as [|x l r cur a s self1 s' Hr Hp Hreb _ _ IH]; intros Hs; [done|].
  destruct (steps_one_ok _ _ _ _ _ _ Hs Hr Hp Hreb) as [Hs1 Hn].
  destruct (IH Hs1) as (Hs' & Hpl & Hmono & Hsub). cbn [conv_acc] in *. rewrite Hn in *.
  split; [done|]. split_and!.
  - rewrite Hpl, placed_insert by done. simpl. symmetry. apply Permutation_middle.
  - intros y. specialize (Hmono y). rewrite load_insert in Hmono. case_bool_decide; simpl in Hmono; lia.
  - intros y z Hz. apply Hsub. rewrite items_of_insert. case_bool_decide; [subst|done].
    apply elem_of_app. by left.
Qed.

Lemma conv_loop_ok cap expected requests s :
  conv_ok s →
  ∃ s', conv_loop n cap expected requests s = (Ok (), s') ∧ steps cap requests s s'.
Proof using base_nonempty.
  revert s. induction requests as [|x requests IH]; intros s Hs; cbn [conv_loop].
  { exists s. split; [done|constructor]. }
  rrun. destruct (conv_choose_ok cap expected x s Hs) as (r & s1 & cur & -> & Hr & Hacc & Hreb & Hst).
  destruct (place_ok base (conv_acc s) r x (co_acc _ Hs) Hr) as (a & Hp & _). rewrite Hacc, Hp.
  destruct (steps_one_ok x r cur a (conv_self s1) s Hs Hr Hp Hreb) as [Hs1 _].
  destruct (IH _ Hs1) as (s' & -> & Hsteps). exists s'. split; [done|]. by econstructor.
Qed.

Lemma explicit_new_ok cap requests s :
  conv_ok s → targets_valid (length base) requests →
  ∃ first remaining s', assign_new_conversation_explicit_dp_ranks cap requests s = (Ok remaining, s') ∧
    first ++ remaining ≡ₚ requests ∧ steps cap first s s'.
Proof.
  revert s. induction requests as [|x requests IH]; intros s Hs Hv;
    cbn [assign_new_conversation_explicit_dp_ranks].
  { exists [], [], s. split; [done|]. split; [done|constructor]. }
  assert (Hvx : ∀ t, target_dp_rank x = Some t → 0 ≤ t < n)
    by (intros t Ht; eapply (target_valid _ _ x t Hv); [left|done]).
  apply Forall_cons in Hv as [_ Hv]. rrun.
  assert (Hskip : ∃ first remaining s', (let '(r, s') :=
      assign_new_conversation_explicit_dp_ranks cap requests s in
      match r with Ok a => (Ok (x :: a), s') | Raise e => (Raise e, s') end) = (Ok remaining, s') ∧
      first ++ remaining ≡ₚ x :: requests ∧ steps cap first s s').
  { destruct (IH s Hs Hv) as (f & rem & s' & -> & Hp & Hst). exists f, (x :: rem), s'.
    split; [done|]. split; [|done]. rewrite <- Hp. symmetry. apply Permutation_middle. }
  destruct (bound_rank (conv_self s) x) as [t0|] eqn:Eb.
  { rewrite bool_decide_eq_true_2 by by eexists. destruct Hskip as (f & rem & s' & Heq & Hrest).
    exists f, rem, s'. split; [|done]. rewrite <- Heq.
    by destruct (assign_new_conversation_explicit_dp_ranks cap requests s) as [[?|?] ?]. }
  rewrite bool_decide_eq_false_2 by (by intros [? ?]). rewrite (has_room_ok base cap _ _ (co_acc _ Hs)) by done.
  destruct (match target_dp_rank x with Some r => _ | None => false end) eqn:Eroom.
  2:{ destruct Hskip as (f & rem & s' & Heq & Hrest). exists f, rem, s'. split; [|done]. rewrite <- Heq.
      by destruct (assign_new_conversation_explicit_dp_ranks cap requests s) as [[?|?] ?]. }
  destruct (target_dp_rank x) as [t|] eqn:Et; [|done]. change (default 0 (Some t)) with t.
  destruct (place_ok base (conv_acc s) t x (co_acc _ Hs) (Hvx t eq_refl)) as (a & Hp & _). rewrite Hp.
  set (self1 := match conversation_id_of x with Some c => _ | None => conv_self s end).
  assert (Hreb : rebound (with_cursor (round_robin_cursor (conv_self s)) (conv_self s)) x t self1).
  { assert (with_cursor (round_robin_cursor (conv_self s)) (conv_self s) = conv_self s) as ->
      by (by destruct (conv_self s)).
    unfold self1. destruct (conversation_id_of x) as [c|] eqn:Ec.
    - apply rebound_bind; [done|]. by rewrite Eb.
    - apply rebound_none. by left. }
  destruct (steps_one_ok x t _ a self1 s Hs (Hvx t eq_refl) Hp Hreb) as [Hs1 _].
  destruct (IH _ Hs1 Hv) as (f & rem & s' & -> & Hperm & Hst).
  exists (x :: f), rem, s'. split; [done|]. split; [simpl; by rewrite Hperm|].
  econstructor; [by apply Hvx|done|done|by rewrite Eb|done].
Qed.
End conv_router.

(** ** The whole call *)

Section conv_claims.
Context (states : list RankState) (new : list RequestQueueItem) (cap : Z).
Context (self : ConversationAwareADPRouter).
Context (Hstates : states_ok states (Z.of_nat (length new)) cap).
Context (Htargets : targets_valid (length states) new).
Context (Hfactor : is_factor (conv_fair_share_multiplier self)).
Context (Hbound : bindings_ok (base_of states) self).

(** Recording and placing keep the multiplier. *)
Lemma steps_multiplier base l s s' :
  steps base cap l s s' →
  conv_fair_share_multiplier (conv_self s') = conv_fair_share_multiplier (conv_self s).
Proof.
  induction 1 as [|x l r cur a s self1 s' _ _ Hreb _ _ IH]; [done|]. rewrite IH. cbn.
  by destruct Hreb.
Qed.

(** A call is a run over all new requests in some order; the value returned
    is at least every final load. *)
Lemma conv_route_steps :
  ∃ order s' expected,
    order ≡ₚ new ∧
    steps (base_of states) cap order (mkConvAcc (acc_init states) self) s' ∧
    conv_route_requests states new cap self =
      (Ok (new_of_rank (conv_acc s'), expected), conv_self s') ∧
    under (base_of states) expected (new_of_rank (conv_acc s')).
Proof using All.
  assert (Hlen : length (base_of states) = length states) by apply length_fmap.
  assert (Hne : base_of states ≠ []).
  { intros H. apply (so_nonempty _ _ _ Hstates). by apply fmap_nil_inv in H. }
  destruct (acc_init_ok _ _ _ Hstates) as (Ha & Hnil & _ & _).
  set (s0 := mkConvAcc (acc_init states) self). assert (Hok : conv_ok (base_of states) s0) by done.
  set (sorted := sort_by (key_leb (λ i, Z.b2z (conv_relax_value i))) new).
  assert (Hp : sorted ≡ₚ new) by apply sort_by_perm.
  destruct (explicit_new_ok (base_of states) cap sorted s0 Hok) as (first & rem & s1 & He & Hsplit & Hst1).
  { rewrite Hlen. by apply (targets_valid_perm _ _ new). }
  destruct (steps_placed _ _ _ _ _ Hst1 Hok) as (Hok1 & Hpl1 & _). cbn [s0 conv_acc] in Hpl1.
  rewrite Hnil, app_nil_r in Hpl1.
  destruct (soft_cap_of_acc states new rem cap (conv_acc s1) (conv_fair_share_multiplier (conv_self s1)))
    as (share & _ & _ & Hexp); [done|apply Hok1| |by rewrite (steps_multiplier _ _ _ _ Hst1)|].
  { by rewrite Hpl1, Permutation_app_comm, Hsplit. }
  destruct (conv_loop_ok (base_of states) Hne cap share rem s1 Hok1) as (s2 & Hl & Hst2).
  destruct (steps_placed _ _ _ _ _ Hst2 Hok1) as ([Ha2 _] & _).
  pose proof (counts_are_loads _ _ Ha2) as Hc.
  destruct (py_max_ok (num_active (conv_acc s2))) as (b & Hb & _ & Hmax).
  { intros H. pose proof (ao_len _ _ Ha2) as Hl2. rewrite H in Hl2. by destruct (base_of states). }
  exists (first ++ rem), s2, (Z.max share b). split; [by rewrite Hsplit|].
  split; [by eapply steps_app|]. rewrite Hlen in Hl. split.
  - unfold conv_route_requests, conv_route_body. fold sorted s0. rrun. rewrite He, (Hexp None), Hl, Hb. done.
  - intros r Hr. enough (load (base_of states) (new_of_rank (conv_acc s2)) r ≤ b) by lia.
    apply Hmax. rewrite Hc. apply list_elem_of_fmap_2, elem_of_seqZ. lia.
Qed.

(** [ConversationAwareADPRouter.route_requests] places every new request
    on exactly one existing rank, however many there are; the value it
    returns covers every rank's final load (what the executor's padding
    asserts), and conversations stay bound to existing ranks. *)
Theorem conv_router_places_all :
  ∃ m expected self', conv_route_requests states new cap self = (Ok (m, expected), self') ∧
    (∀ r, is_Some (m !! r) ↔ 0 ≤ r < Z.of_nat (length states)) ∧
    placed (base_of states) m ≡ₚ new ∧
    (∀ r, 0 ≤ r < Z.of_nat (length states) → load (base_of states) m r ≤ expected) ∧
    bindings_ok (base_of states) self'.
Proof using All.
  destruct conv_route_steps as (order & s' & E & Hord & Hst & Heq & Hu).
  destruct (acc_init_ok _ _ _ Hstates) as (Ha & Hnil & _ & _).
  assert (Hlen : length (base_of states) = length states) by apply length_fmap.
  destruct (steps_placed _ _ _ _ _ Hst) as ([Ha' Hb'] & Hpl & _); [done|].
  cbn [conv_acc] in Hpl. rewrite Hnil, app_nil_r, Hord in Hpl.
  eexists _, _, _. split; [done|]. split_and!; [|done| |done].
  - intros r. rewrite (mo_dom _ _ (ao_map _ _ Ha')). by rewrite Hlen.
  - intros r Hr. apply Hu. lia.
Qed.

(** ** Stickiness *)

(** A binding that no later request can push out of the map. *)
Record kept_binding (c : string) (t : Z) (k : nat) (r : ConversationAwareADPRouter) : Prop := {
  kb_lookup : conv_lookup c (conv_to_rank r) = Some t;
  kb_room : Z.of_nat (length (conv_to_rank r)) + Z.of_nat k ≤ max_sessions r;
}.

Lemma lookup_record c c' r r' :
  Z.of_nat (length (conv_to_rank r')) + 1 ≤ max_sessions r' →
  conv_lookup c (conv_to_rank (record_target_rank c' r r')) =
    (if bool_decide (c = c') then Some r else conv_lookup c (conv_to_rank r')) ∧
  Z.of_nat (length (conv_to_rank (record_target_rank c' r r'))) ≤ Z.of_nat (length (conv_to_rank r')) + 1.
Proof.
  intros Hroom. unfold record_target_rank. cbn [conv_to_rank]. set (l := conv_to_rank r') in *.
  set (l' := filter (λ e : string * Z, e.1 ≠ c') l ++ [(c', r)]).
  assert (Hl' : (length l' ≤ length l + 1)%nat).
  { unfold l'. rewrite length_app. pose proof (length_filter (λ e : string * Z, e.1 ≠ c') l).
    simpl. lia. }
  rewrite evict_oldest_drop by lia.
  replace (length l' - Z.to_nat (max_sessions r'))%nat with 0%nat by lia. rewrite drop_0.
  split; [|lia]. unfold conv_lookup, l'. rewrite filter_app, list_filter_filter.
  case_bool_decide as Hc.
  - subst c'. rewrite (list_filter_none (λ x : string * Z, x.1 = c ∧ x.1 ≠ c)); [|apply Forall_forall; naive_solver].
    simpl. by rewrite filter_cons_True.
  - rewrite (list_filter_iff _ (λ x : string * Z, x.1 = c)) by naive_solver.
    rewrite filter_cons_False by (cbn; congruence). by rewrite app_nil_r.
Qed.

Lemma rebound_keeps c t k r cur x q r' :
  kept_binding c t (S k) r → rebound (with_cursor cur r) x q r' → kept_binding c t k r'.
Proof.
  intros [Hl Hr] [_|c' Hc Hq]; [split; [done|cbn in *; lia]|].
  destruct (lookup_record c c' q (with_cursor cur r)) as [H1 H2]; [cbn; lia|].
  split; [|cbn in *; lia]. rewrite H1. case_bool_decide as E; [|done]. subst c'. f_equal.
  symmetry. apply Hq. unfold bound_rank. by rewrite Hc.
Qed.

Lemma steps_sticky base c t l s s' :
  steps base cap l s s' → conv_ok base s → kept_binding c t (length l) (conv_self s) →
  kept_binding c t 0 (conv_self s') ∧
  ∀ x, x ∈ l → conversation_id_of x = Some c →
    x ∈ items_of (new_of_rank (conv_acc s')) t ∨ cap ≤ load base (new_of_rank (conv_acc s')) t.
Proof.
  induction 1 as [|x l r cur a s self1 s' Hr Hp Hreb Hst Hrest IH]; intros Hs Hk.
  { split; [done|]. intros x Hx. by apply not_elem_of_nil in Hx. }
  destruct (steps_one_ok _ _ _ _ _ _ _ Hs Hr Hp Hreb) as [Hs1 Hn].
  assert (Hk1 : kept_binding c t (length l) self1) by (by eapply rebound_keeps).
  destruct (IH Hs1 Hk1) as [Hk' Hall]. split; [done|].
  intros y [->|Hy]%elem_of_cons Hc; [|by apply Hall].
  destruct (steps_placed _ _ _ _ _ Hrest Hs1) as (_ & _ & Hmono & Hsub). cbn [conv_acc] in *.
  assert (Hb : bound_rank (conv_self s) x = Some t) by (unfold bound_rank; rewrite Hc; apply Hk).
  destruct (Z.le_gt_cases cap (load base (new_of_rank (conv_acc s)) t)) as [Hfull|Hroom].
  - right. specialize (Hmono t). rewrite Hn, load_insert in Hmono. case_bool_decide; simpl in Hmono; lia.
  - left. apply Hsub. rewrite (Hst t Hb Hroom) in *. rewrite Hn, items_of_insert, bool_decide_eq_true_2 by done.
    apply elem_of_app. right. by left.
Qed.

(** C29: While the conversation map has room for the new requests, every
    request of a conversation already bound to rank [t] goes to rank [t], or
    rank [t] is filled to the per-rank limit; and the conversation is still
    bound to [t] afterwards. *)
Theorem conv_router_is_sticky c t :
  conv_lookup c (conv_to_rank self) = Some t →
  Z.of_nat (length (conv_to_rank self)) + Z.of_nat (length new) ≤ max_sessions self →
  ∃ m expected self', conv_route_requests states new cap self = (Ok (m, expected), self') ∧
    conv_lookup c (conv_to_rank self') = Some t ∧
    ∀ x, x ∈ new → conversation_id_of x = Some c →
      x ∈ items_of m t ∨ cap ≤ load (base_of states) m t.
Proof using All.
  intros Hc Hroom. destruct conv_route_steps as (order & s' & E & Hord & Hst & Heq & _).
  destruct (acc_init_ok _ _ _ Hstates) as (Ha & _ & _ & _).
  destruct (steps_sticky _ c t _ _ _ Hst) as [[Hl _] Hall]; [done| |].
  { split; [done|]. cbn. rewrite Hord. done. }
  eexists _, _, _. split; [done|]. split; [done|]. intros x Hx. apply Hall. by rewrite Hord.
Qed.
End conv_claims.

(** ** Examples *)

Definition conv_item (i : Z) (c : string) : RequestQueueItem :=
  {| id := i;
     request := Some {| priority := DEFAULT_REQUEST_PRIORITY; num_input_tokens := Some 8;
                        input_token_ids := []; py_scheduling_params := None;
                        conversation_id := Some c; disagg_request_id := None;
                        sampling_beam_width := 1; num_return_sequences := None |};
     child_req_ids := None; is_canceled_request := false;
     query := None; control_requires_drain := true; control_id := None |}.

(** Conversation ["a"] is bound to rank 1, which has one free place. *)
Definition demo_conv : ConversationAwareADPRouter :=
  record_target_rank "a" 1 (conv_router_init 16 float_2 "round_robin").

Definition demo_conv_new : list RequestQueueItem :=
  [conv_item 20 "b"; conv_item 21 "a"; conv_item 22 "a"].

Lemma demo_conv_factor : is_factor (conv_fair_share_multiplier demo_conv).
Proof. exists (2 ^ 52)%positive, (-51). split; [done|]. lia. Qed.

Lemma demo_conv_bindings : bindings_ok (base_of demo_states) demo_conv.
Proof. unfold bindings_ok. cbn. apply Forall_singleton. cbn. lia. Qed.

Lemma conv_router_witness :
  ∃ m expected self', conv_route_requests demo_states demo_conv_new 4 demo_conv =
      (Ok (m, expected), self') ∧
    (∀ r, is_Some (m !! r) ↔ 0 ≤ r < Z.of_nat (length demo_states)) ∧
    placed (base_of demo_states) m ≡ₚ demo_conv_new ∧
    (∀ r, 0 ≤ r < Z.of_nat (length demo_states) → load (base_of demo_states) m r ≤ expected) ∧
    bindings_ok (base_of demo_states) self'.
Proof.
  apply (conv_router_places_all demo_states demo_conv_new 4 demo_conv).
  - apply demo_states_ok; cbn; lia.
  - unfold targets_valid. by repeat (apply Forall_cons; split; [done|]).
  - apply demo_conv_factor.
  - apply demo_conv_bindings.
Defined.

Lemma conv_sticky_witness :
  (λ p, (id <$> items_of p.1 0, id <$> items_of p.1 1, p.2)) <$>
    (conv_route_requests demo_states demo_conv_new 4 demo_conv).1 = Ok ([20], [21; 22], 8) ∧
  ∃ m expected self', conv_route_requests demo_states demo_conv_new 4 demo_conv =
      (Ok (m, expected), self') ∧
    conv_lookup "a" (conv_to_rank self') = Some 1 ∧
    ∀ x, x ∈ demo_conv_new → conversation_id_of x = Some "a"%string →
      x ∈ items_of m 1 ∨ 4 ≤ load (base_of demo_states) m 1.
Proof.
  split; [vm_compute; reflexivity|].
  apply (conv_router_is_sticky demo_states demo_conv_new 4 demo_conv).
  - apply demo_states_ok; cbn; lia.
  - unfold targets_valid. by repeat (apply Forall_cons; split; [done|]).
  - apply demo_conv_factor.
  - apply demo_conv_bindings.
  - done.
  - by vm_compute.
Defined.

(** The soft cap that spreads new conversations is not limited by
    [max_num_active_requests], so this router can push a full rank past the
    limit while another rank is idle: with the limit 4, loads 4 and 0 and one
    new request, the request goes to the full rank, and the returned target
    is 6. *)
Example conv_router_exceeds_limit :
  let states := [mkRankState 0 4 100 default_payload; mkRankState 1 0 0 default_payload] in
  let self := conv_router_init 16 float_2 "round_robin" in
  ∃ m self', conv_route_requests states [conv_item 30 "new"] 4 self = (Ok (m, 6), self') ∧
    load (base_of states) m 0 = 5 ∧ load (base_of states) m 1 = 0.
Proof.
  intros states self. eexists _, _. split; [vm_compute; reflexivity|]. by vm_compute.
Qed.
