(* ===== verification/EvictionProps.v ===== *)
(** * Correctness of the eviction controller

    What [evict] returns and how a failing call puts every page back; that
    all operations keep the controller well formed; and the evictions that
    the emptied front queue makes fail. *)

From S2P Require Import Prelude PySort Eviction.

Local Open Scope Z_scope.

Section eviction_props.
Context {Q : Type} `{!Dllist Q, !DllistSpec Q}.

(** ** Views: what the queues hold *)

Definition group_view : Type := list (Z * list EvictablePage).

Definition policy_view (pol : policy Q) : group_view := (λ e, (e.1, dl_items e.2)) <$> pol.

Definition views (c : PerLevelEvictionController Q) : list group_view := policy_view <$> _policies c.

(** The queue of the lowest priority in the dict. *)
Definition front (v : group_view) : list EvictablePage :=
  match v with [] => [] | (_, l) :: _ => l end.

Definition drop_front (m : nat) (v : group_view) : group_view :=
  match v with [] => [] | (pr, l) :: v' => (pr, drop m l) :: v' end.

(** Pages put back in front of that queue. *)
Definition undo (r : list EvictablePage) (v : group_view) : group_view :=
  match v with [] => [] | (pr, l) :: v' => (pr, r ++ l) :: v' end.

Lemma undo_drop_front m v : undo (take m (front v)) (drop_front m v) = v.
Proof. destruct v as [|[pr l] v]; [done|]. cbn. by rewrite take_drop. Qed.

Lemma policy_len_view pol :
  policy_len pol = zsum ((λ e, Z.of_nat (length e.2)) <$> policy_view pol).
Proof. unfold policy_len, lru_len, policy_view. by rewrite <- list_fmap_compose. Qed.

Lemma pop_front_ok pol pr p l v :
  policy_view pol = (pr, p :: l) :: v → NoDup (p :: l) →
  ∃ pol', policy_pop pol = Ok (p, pol') ∧ policy_view pol' = (pr, l) :: v.
Proof.
  destruct pol as [|[pr' q] pol]; [done|]. cbn. intros [= -> Hq <-] Hnd.
  unfold policy_pop, lru_pop, lru_remove. cbn. rewrite dl_first_items, Hq. cbn.
  eexists. split; [done|]. unfold policy_view. cbn. f_equal. f_equal.
  rewrite dl_items_remove, Hq. apply NoDup_cons in Hnd as [Hp _].
  rewrite filter_cons_False by (intros H; by apply H). apply list_filter_all, Forall_forall.
  intros x Hx ->. done.
Qed.

Lemma pop_front_empty pol pr v :
  policy_view pol = (pr, []) :: v → policy_pop pol = Raise AssertionError.
Proof.
  destruct pol as [|[pr' q] pol]; [done|]. cbn. intros [= -> Hq <-].
  unfold policy_pop, lru_pop. cbn. by rewrite dl_first_items, Hq.
Qed.

Lemma update_policy_view pr f g pol :
  (∀ q, dl_items (f q) = g (dl_items q)) →
  policy_view (update_policy pr f pol) =
  (λ e, if e.1 =? pr then (e.1, g e.2) else e) <$> policy_view pol.
Proof.
  intros Hf. unfold policy_view, update_policy. rewrite <- !list_fmap_compose.
  apply list_fmap_ext. intros i [pr' q] _. cbn. destruct (pr' =? pr); cbn; by rewrite ?Hf.
Qed.

Lemma policy_view_keys pol : (policy_view pol).*1 = pol.*1.
Proof. unfold policy_view. by rewrite <- list_fmap_compose. Qed.

Lemma update_miss pr (g : list EvictablePage → list EvictablePage) (v : group_view) :
  pr ∉ v.*1 → (λ e : Z * list EvictablePage, if e.1 =? pr then (e.1, g e.2) else e) <$> v = v.
Proof.
  intros Hpr. rewrite <- (list_fmap_id v) at 2. apply list_fmap_ext. intros i e He.
  destruct (e.1 =? pr) eqn:E; [|done]. exfalso. apply Hpr.
  apply Z.eqb_eq in E as <-. apply list_elem_of_fmap_2, list_elem_of_lookup. by exists i.
Qed.

(** Pushing back a page of the front priority. *)
Lemma push_front_view pol p l v :
  policy_view pol = (page_priority p, l) :: v → page_priority p ∉ v.*1 →
  policy_view (policy_push p true pol) = (page_priority p, p :: l) :: v.
Proof.
  intros Hv Hni. unfold policy_push, get_policy.
  rewrite bool_decide_eq_true_2 by (rewrite <- policy_view_keys, Hv; left).
  rewrite (update_policy_view _ _ (cons p)) by (intros; apply dl_items_appendleft).
  rewrite Hv, fmap_cons, Z.eqb_refl. by rewrite update_miss.
Qed.

(** ** Well-formed controllers *)

(** The pages of a group are in the queue of their priority, and belong to
    the group and the level. *)
Record group_wf (c : PerLevelEvictionController Q) (i : nat) (v : group_view) : Prop := {
  gw_sorted : StronglySorted Z.lt v.*1;
  gw_pages : ∀ pr l p, (pr, l) ∈ v → p ∈ l →
    page_priority p = pr ∧ group_of (page_life_cycle p) c = Ok (Z.of_nat i) ∧
    page_cache_level p = _cache_level c;
}.

(** All pages of the controller, group by group in eviction order. *)
Definition all_pages (vs : list group_view) : list EvictablePage := vs ≫= λ v, v ≫= snd.

Record ctl_wf (c : PerLevelEvictionController Q) : Prop := {
  cw_grouping : Forall (λ g, 0 ≤ g < num_pool_groups c) (_life_cycle_grouping c);
  cw_groups : ∀ i v, views c !! i = Some v → group_wf c i v;
  cw_ids : NoDup (page_id <$> all_pages (views c));
  cw_refs : list_to_set (page_id <$> all_pages (views c)) = node_refs c;
}.

(** Same queues, same bookkeeping. *)
Definition same_state (c c' : PerLevelEvictionController Q) : Prop :=
  views c = views c' ∧ node_refs c = node_refs c' ∧
  _life_cycle_grouping c = _life_cycle_grouping c' ∧ _cache_level c = _cache_level c'.

Lemma views_lookup c i v :
  views c !! i = Some v → ∃ pol, _policies c !! i = Some pol ∧ policy_view pol = v ∧
    py_getitem (_policies c) (Z.of_nat i) = Ok pol.
Proof.
  unfold views. rewrite list_lookup_fmap. destruct (_policies c !! i) as [pol|] eqn:E; [|done].
  intros [= <-]. exists pol. split; [done|]. split; [done|].
  apply py_getitem_nonneg; [lia|]. by rewrite Nat2Z.id.
Qed.

Lemma with_policy_ok c i v pol refs :
  views c !! i = Some v →
  ∃ c', with_policy (Z.of_nat i) pol refs c = Ok c' ∧ views c' = <[i := policy_view pol]> (views c) ∧
    node_refs c' = refs ∧ _life_cycle_grouping c' = _life_cycle_grouping c ∧
    _cache_level c' = _cache_level c.
Proof.
  intros Hv. unfold with_policy, py_setitem.
  assert (i < length (_policies c))%nat.
  { apply lookup_lt_Some in Hv. unfold views in Hv. by rewrite length_fmap in Hv. }
  rewrite py_index_nonneg by lia. mrun. eexists. split; [done|]. cbn. unfold views. cbn.
  rewrite Nat2Z.id, list_fmap_insert. done.
Qed.

(** ** Taking pages *)

(** [c'] is [c] with the pages [r] taken from the front of group [i]. *)
Record taken (c c' : PerLevelEvictionController Q) (i : nat) (m : nat) (v : group_view) : Prop := {
  tk_views : views c' = <[i := drop_front m v]> (views c);
  tk_refs : node_refs c' = node_refs c ∖ list_to_set (page_id <$> take m (front v));
  tk_grouping : _life_cycle_grouping c' = _life_cycle_grouping c;
  tk_level : _cache_level c' = _cache_level c;
}.

Lemma taken_0 c i v : views c !! i = Some v → taken c c i 0 v.
Proof.
  intros Hv. split; try done; cbn.
  - rewrite list_insert_id; [done|]. rewrite Hv. f_equal. destruct v as [|[pr l] v]; [done|].
    cbn. by rewrite drop_0.
  - rewrite take_0. cbn. set_solver.
Qed.

Lemma ret_lookup (ret : list (list EvictablePage)) i r :
  ret !! i = Some r → py_getitem ret (Z.of_nat i) = Ok r ∧
    ∀ x, py_setitem ret (Z.of_nat i) x = Ok (<[i := x]> ret).
Proof.
  intros Hr. pose proof (lookup_lt_Some _ _ _ Hr). split.
  - apply py_getitem_nonneg; [lia|]. by rewrite Nat2Z.id.
  - intros x. unfold py_setitem. rewrite py_index_nonneg by lia. by rewrite Nat2Z.id.
Qed.

Lemma evict_one_ok c ret i pr p l v r :
  views c !! i = Some ((pr, p :: l) :: v) → NoDup (p :: l) → page_id p ∈ node_refs c →
  ret !! i = Some r →
  ∃ c', evict_one (Z.of_nat i) (c, ret) = (Ok (), (c', <[i := r ++ [p]]> ret)) ∧
    taken c c' i 1 ((pr, p :: l) :: v).
Proof.
  intros Hv Hnd Hid Hr. destruct (views_lookup _ _ _ Hv) as (pol & _ & Hpv & Hget).
  destruct (pop_front_ok _ _ _ _ _ Hpv Hnd) as (pol' & Hpop & Hpv').
  destruct (with_policy_ok c i _ pol' (node_refs c ∖ {[page_id p]}) Hv) as (c' & Hw & H1 & H2 & H3 & H4).
  destruct (ret_lookup _ _ _ Hr) as [Hg Hs].
  exists c'. unfold evict_one. mrun. rewrite Hget, Hpop, bool_decide_eq_true_2 by done.
  rewrite Hw, Hg, Hs. split; [done|]. split; try done.
  - rewrite H1, Hpv'. cbn. by rewrite drop_0.
  - rewrite H2. cbn. rewrite take_0. cbn. set_solver.
Qed.

Lemma evict_one_empty c ret i pr v :
  views c !! i = Some ((pr, []) :: v) → evict_one (Z.of_nat i) (c, ret) = (Raise AssertionError, (c, ret)).
Proof.
  intros Hv. destruct (views_lookup _ _ _ Hv) as (pol & _ & Hpv & Hget).
  unfold evict_one. mrun. by rewrite Hget, (pop_front_empty _ _ _ Hpv).
Qed.

Lemma taken_step c c1 c2 i m pr p l v :
  views c !! i = Some ((pr, p :: l) :: v) →
  taken c c1 i 1 ((pr, p :: l) :: v) → taken c1 c2 i m ((pr, l) :: v) →
  taken c c2 i (S m) ((pr, p :: l) :: v).
Proof.
  intros Hv [H1 H2 H3 H4] [K1 K2 K3 K4]. split; try congruence.
  - rewrite K1, H1. by rewrite list_insert_insert_eq.
  - rewrite K2, H2. cbn. rewrite take_0. cbn. set_solver.
Qed.

(** The pages [l] are distinct and all have their node. *)
Definition held (c : PerLevelEvictionController Q) (l : list EvictablePage) : Prop :=
  NoDup (page_id <$> l) ∧ Forall (λ p, page_id p ∈ node_refs c) l.

(** Pages still held once the first ones of the list have left. *)
Lemma held_app c c' l k :
  held c (l ++ k) → node_refs c' = node_refs c ∖ list_to_set (page_id <$> l) → held c' k.
Proof.
  intros [Hnd Hin] Hr. rewrite fmap_app in Hnd. apply NoDup_app in Hnd as (_ & Hdis & Hnd).
  apply Forall_app in Hin as [_ Hin]. split; [done|]. rewrite Forall_forall in Hin |- *.
  intros p Hp. rewrite Hr. apply elem_of_difference. split; [by apply Hin|].
  rewrite elem_of_list_to_set. intros Hl. apply (Hdis _ Hl). by apply list_elem_of_fmap_2.
Qed.

Lemma held_sublist c l k : held c l → sublist k l → held c k.
Proof.
  intros [Hnd Hin] Hs. split; [by eapply sublist_NoDup; [|apply fmap_sublist]|].
  by eapply Forall_sublist_sub.
Qed.

(** The inner loop takes the whole request from the front queue, or runs it
    empty and fails. *)
Lemma evict_n_ok k c ret i pr l v r :
  views c !! i = Some ((pr, l) :: v) → held c l → ret !! i = Some r →
  let m := Nat.min k (length l) in
  ∃ c', evict_n k (Z.of_nat i) (c, ret) =
      (if decide (k ≤ length l)%nat then Ok () else Raise AssertionError,
       (c', <[i := r ++ take m l]> ret)) ∧
    taken c c' i m ((pr, l) :: v).
Proof.
  revert c ret l r. induction k as [|k IH]; intros c ret l r Hv Hnd Hr; cbn [evict_n].
  { exists c. rewrite decide_True by lia. cbn [Nat.min]. rewrite take_0, app_nil_r, list_insert_id by done.
    split; [done|]. by apply taken_0. }
  destruct l as [|p l].
  { exists c. rewrite decide_False by (simpl; lia). rewrite (bind_raise _ _ _ _ _ (evict_one_empty c ret i pr v Hv)).
    cbn [length Nat.min]. rewrite take_0, app_nil_r, list_insert_id by done. split; [done|]. by apply taken_0. }
  pose proof Hnd as [Hnd' Hin']. apply NoDup_fmap_1 in Hnd'. apply Forall_cons in Hin' as [Hid _].
  destruct (evict_one_ok c ret i pr p l v r Hv Hnd' Hid Hr) as (c1 & H1 & Ht1).
  rewrite (bind_ok _ _ _ _ _ H1).
  assert (Hi : (i < length (views c))%nat) by (by eapply lookup_lt_Some).
  assert (Hir : (i < length ret)%nat) by (by eapply lookup_lt_Some).
  destruct (IH c1 (<[i := r ++ [p]]> ret) l (r ++ [p])) as (c2 & H2 & Ht2).
  - rewrite (tk_views _ _ _ _ _ Ht1). cbn. rewrite drop_0. by rewrite list_lookup_insert_eq.
  - apply (held_app c c1 [p] l Hnd). rewrite (tk_refs _ _ _ _ _ Ht1). cbn. by rewrite take_0.
  - by rewrite list_lookup_insert_eq.
  - exists c2. rewrite H2. cbn [length Nat.min take]. rewrite list_insert_insert_eq.
    rewrite <- (assoc_L (++)). split; [|by eapply taken_step]. f_equal.
    apply decide_ext. lia.
Qed.

(** Why a group's request fails, if it does. *)
Definition group_error (v : group_view) (count : Z) : option py_exc :=
  if count <? 0 then Some ValueError
  else if zsum ((λ e, Z.of_nat (length e.2)) <$> v) <? count then Some OutOfPagesError
  else if Z.of_nat (length (front v)) <? count then Some AssertionError
  else None.

Lemma front_len_le (v : group_view) :
  0 ≤ zsum ((λ e, Z.of_nat (length e.2)) <$> v).
Proof. apply zsum_nonneg, Forall_fmap, Forall_forall. intros. cbn. lia. Qed.

Lemma evict_group_ok c ret i count v :
  views c !! i = Some v → held c (front v) → ret !! i = Some [] →
  ∃ c' m, (m ≤ length (front v))%nat ∧
    evict_group (Z.of_nat i) count (c, ret) =
      (match group_error v count with Some e => Raise e | None => Ok () end,
       (c', <[i := take m (front v)]> ret)) ∧
    taken c c' i m v ∧ (group_error v count = None → m = Z.to_nat count).
Proof.
  intros Hv Hnd Hr. destruct (views_lookup _ _ _ Hv) as (pol & _ & Hpv & Hget).
  destruct (ret_lookup _ _ _ Hr) as [Hg _]. unfold evict_group, group_error.
  destruct (count <? 0) eqn:E0.
  { exists c, 0%nat. rewrite take_0, list_insert_id by done. split; [lia|].
    split; [done|]. split; [by apply taken_0|done]. }
  mrun. rewrite Hget, Hg. rewrite policy_len_view, Hpv. cbn [length]. rewrite Z.add_0_r, Z.sub_0_r.
  destruct (zsum _ <? count) eqn:E1.
  { exists c, 0%nat. rewrite take_0, list_insert_id by done. split; [lia|].
    split; [done|]. split; [by apply taken_0|done]. }
  destruct v as [|[pr l] v].
  { cbn in E1. rewrite zsum_nil in E1. assert (count = 0) as -> by lia. exists c, 0%nat. cbn.
    rewrite list_insert_id by done. split; [done|]. split; [done|]. split; [by apply taken_0|done]. }
  destruct (evict_n_ok (Z.to_nat count) c ret i pr l v [] Hv Hnd Hr) as (c' & H & Ht).
  rewrite H. exists c', (Nat.min (Z.to_nat count) (length l)). cbn [front app]. split; [lia|].
  split; [|split; [done|]].
  - f_equal. destruct (Z.of_nat (length l) <? count) eqn:E2; case_decide; try done; lia.
  - destruct (Z.of_nat (length l) <? count) eqn:E2; [done|]. lia.
Qed.

(** ** Taking pages from all groups *)

Definition first_error (vs : list group_view) (counts : list Z) : option py_exc :=
  head (omap (λ '(v, k), group_error v k) (zip vs counts)).

Lemma take_none (V : list group_view) :
  zip_with (λ m v, take m (front v)) (replicate (length V) 0%nat) V = replicate (length V) [].
Proof. induction V as [|v V IH]; [done|]. cbn. by rewrite take_0, IH. Qed.

Lemma drop_none (V : list group_view) : zip_with drop_front (replicate (length V) 0%nat) V = V.
Proof.
  induction V as [|v V IH]; [done|]. cbn. rewrite IH. f_equal.
  destruct v as [|[pr l] v]; [done|]. cbn. by rewrite drop_0.
Qed.

Lemma concat_nils n : concat (replicate n []) = ([] : list EvictablePage).
Proof. by induction n. Qed.

(** The groups from [i] on, none of them visited yet: each loses some pages
    from its front, all it was asked for when no group fails. *)
Lemma evict_groups_ok counts c ret V1 V2 i :
  views c = V1 ++ V2 → i = length V1 → length counts = length V2 →
  ret = take i ret ++ replicate (length V2) [] → length ret = length (views c) →
  held c (V2 ≫= front) →
  ∃ c' ms, length ms = length V2 ∧
    evict_groups (Z.of_nat i) counts (c, ret) =
      (match first_error V2 counts with Some e => Raise e | None => Ok () end,
       (c', take i ret ++ zip_with (λ m v, take m (front v)) ms V2)) ∧
    views c' = V1 ++ zip_with drop_front ms V2 ∧
    node_refs c' = node_refs c ∖
      list_to_set (page_id <$> concat (zip_with (λ m v, take m (front v)) ms V2)) ∧
    _life_cycle_grouping c' = _life_cycle_grouping c ∧ _cache_level c' = _cache_level c ∧
    (first_error V2 counts = None → ms = Z.to_nat <$> counts).
Proof.
  revert c ret V1 V2 i. induction counts as [|k counts IH]; intros c ret V1 V2 i HV Hi Hlen Hret Hrl Hnd.
  { destruct V2; [|done]. exists c, []. cbn in *. rewrite app_nil_r in Hret. rewrite app_nil_r, <- Hret.
    split; [done|]. split; [done|]. split; [done|]. split; [set_solver|done]. }
  destruct V2 as [|v V2]; [done|]. cbn [evict_groups]. rewrite bind_cons in Hnd.
  assert (Hndv : held c (front v)) by (eapply held_sublist; [done|by apply sublist_inserts_r]).
  assert (Hvi : views c !! i = Some v) by (rewrite HV, Hi; by apply list_lookup_middle).
  assert (Hti : length (take i ret) = i).
  { rewrite length_take, Hrl, HV, length_app. simpl. lia. }
  assert (Hri : ret !! i = Some []).
  { rewrite Hret. cbn [length replicate]. apply list_lookup_middle. done. }
  destruct (evict_group_ok c ret i k v Hvi Hndv Hri) as (c1 & m & Hm & Hg & [T1 T2 T3 T4] & Hk).
  assert (Hins : <[i := take m (front v)]> ret =
    (take i ret ++ [take m (front v)]) ++ replicate (length V2) []).
  { rewrite Hret at 1. cbn [length replicate].
    rewrite insert_app_r_alt by lia. rewrite Hti, Nat.sub_diag. cbn. by rewrite <- (assoc_L (++)). }
  assert (HV1 : views c1 = (V1 ++ [drop_front m v]) ++ V2).
  { rewrite T1, HV, insert_app_r_alt by lia. rewrite Hi, Nat.sub_diag. cbn. by rewrite <- (assoc_L (++)). }
  unfold first_error. cbn [zip zip_with omap list_omap]. fold (zip V2 counts).
  destruct (group_error v k) as [e|] eqn:Ee.
  - exists c1, (m :: replicate (length V2) 0%nat). cbn [head]. rewrite (bind_raise _ _ _ _ _ Hg).
    split; [simpl; by rewrite length_replicate|]. cbn [zip_with]. rewrite take_none, drop_none.
    split; [rewrite Hins; by rewrite <- (assoc_L (++))|].
    split; [rewrite HV1; by rewrite <- (assoc_L (++))|]. split; [|done].
    rewrite T2. cbn [concat]. by rewrite concat_nils, app_nil_r.
  - rewrite (bind_ok _ _ _ _ _ Hg). replace (Z.of_nat i + 1) with (Z.of_nat (S i)) by lia.
    destruct (IH c1 (<[i := take m (front v)]> ret) (V1 ++ [drop_front m v]) V2 (S i))
      as (c2 & ms & Hml & He & Hv2 & Hr2 & Hg2 & Hl2 & Hms).
    + done.
    + rewrite length_app. simpl. lia.
    + by injection Hlen.
    + rewrite Hins. rewrite take_app_length'; [done|]. rewrite length_app, Hti. simpl. lia.
    + rewrite length_insert, Hrl, HV, HV1, !length_app. simpl. lia.
    + apply (held_app c c1 (take m (front v))); [|done]. apply (held_sublist c (front v ++ (V2 ≫= front)));
        [done|]. by apply sublist_app; [apply sublist_take|].
    + assert (Htk : take (S i) (<[i := take m (front v)]> ret) = take i ret ++ [take m (front v)]).
      { rewrite Hins. apply take_app_length'. rewrite length_app, Hti. simpl. lia. }
      exists c2, (m :: ms). split; [simpl; lia|]. rewrite He, Htk. cbn [zip_with].
      split; [by rewrite <- (assoc_L (++))|]. split; [rewrite Hv2; by rewrite <- (assoc_L (++))|].
      split; [rewrite Hr2, T2; cbn [concat]; rewrite fmap_app, list_to_set_app_L; set_solver|].
      split; [congruence|]. split; [congruence|]. intros Hn. rewrite (Hms Hn), (Hk eq_refl). done.
Qed.

(** ** Putting pages back *)

Record restored (c c' : PerLevelEvictionController Q) (i : nat) (r : list EvictablePage)
    (v : group_view) : Prop := {
  rs_views : views c' = <[i := undo r v]> (views c);
  rs_refs : node_refs c' = list_to_set (page_id <$> r) ∪ node_refs c;
  rs_grouping : _life_cycle_grouping c' = _life_cycle_grouping c;
  rs_level : _cache_level c' = _cache_level c;
}.

(** The pages [r] belong in front of group [i], whose queues are [v]. *)
Definition belongs (c : PerLevelEvictionController Q) (i : nat) (v : group_view)
    (p : EvictablePage) : Prop :=
  (∃ l v', v = (page_priority p, l) :: v' ∧ page_priority p ∉ v'.*1) ∧
  group_of (page_life_cycle p) c = Ok (Z.of_nat i) ∧ page_cache_level p = _cache_level c.

Lemma belongs_undo c c' i v r p :
  _life_cycle_grouping c' = _life_cycle_grouping c → _cache_level c' = _cache_level c →
  belongs c i v p → belongs c' i (undo r v) p.
Proof.
  intros Hg Hl ((l & v' & -> & Hni) & H2 & H3). unfold belongs, group_of in *. rewrite Hg, Hl.
  split; [|done]. cbn. eauto.
Qed.

Lemma undo_undo r r' v : undo r (undo r' v) = undo (r ++ r') v.
Proof. destruct v as [|[pr l] v]; [done|]. cbn. by rewrite (assoc_L (++)). Qed.

Lemma undo_nil v : undo [] v = v.
Proof. by destruct v as [|[pr l] v]. Qed.

Lemma schedule_front c i p v :
  views c !! i = Some v → belongs c i v p → page_id p ∉ node_refs c →
  ∃ c', schedule_for_eviction p true c = (Ok (), c') ∧ restored c c' i [p] v.
Proof.
  intros Hv ((l & v' & -> & Hni) & Hg & Hl) Hr.
  destruct (views_lookup _ _ _ Hv) as (pol & _ & Hpv & Hget).
  destruct (with_policy_ok c i _ (policy_push p true pol) ({[page_id p]} ∪ node_refs c) Hv)
    as (c' & Hw & H1 & H2 & H3 & H4).
  exists c'. unfold schedule_for_eviction. mrun. rewrite bool_decide_eq_true_2 by done.
  rewrite Hl, Z.eqb_refl. mrun. rewrite Hg, Hget, Hw. split; [done|]. split; try done.
  - rewrite H1. by rewrite (push_front_view _ _ _ _ Hpv Hni).
  - rewrite H2. cbn. set_solver.
Qed.

Lemma put_back_app l1 l2 c c' :
  put_back l1 c = (Ok (), c') → put_back (l1 ++ l2) c = put_back l2 c'.
Proof.
  revert c. induction l1 as [|p l1 IH]; intros c; cbn [put_back app]; [by intros [= <-]|].
  mrun. destruct (schedule_for_eviction p true c) as [[[]|e] c1]; [apply IH|done].
Qed.

Lemma put_back_group r c i v :
  views c !! i = Some v → Forall (belongs c i v) r → NoDup (page_id <$> r) →
  list_to_set (page_id <$> r) ## node_refs c →
  ∃ c', put_back (reverse r) c = (Ok (), c') ∧ restored c c' i r v.
Proof.
  revert c v. induction r as [|p r IH] using rev_ind; intros c v Hv Hb Hnd Hdis.
  { exists c. split; [done|]. split; try done; [|set_solver].
    by rewrite undo_nil, list_insert_id. }
  apply Forall_app in Hb as [Hb Hp]. rewrite Forall_singleton in Hp.
  rewrite fmap_app in Hnd, Hdis. apply NoDup_app in Hnd as (Hnd & Hnp & _).
  destruct (schedule_front c i p v Hv Hp) as (c1 & H1 & [R1 R2 R3 R4]); [set_solver|].
  assert (Hi : (i < length (views c))%nat) by (by eapply lookup_lt_Some).
  destruct (IH c1 (undo [p] v)) as (c2 & H2 & [K1 K2 K3 K4]).
  - rewrite R1. by rewrite list_lookup_insert_eq.
  - eapply Forall_impl; [exact Hb|]. intros q. by apply belongs_undo.
  - done.
  - rewrite R2. set_solver.
  - exists c2. rewrite reverse_app. cbn [reverse rev_append app put_back].
    rewrite (bind_ok _ _ _ _ _ H1). split; [exact H2|]. split; try congruence.
    + rewrite K1, R1, list_insert_insert_eq. by rewrite undo_undo.
    + rewrite K2, R2, fmap_app. set_solver.
Qed.

Lemma put_back_groups rs : ∀ Vs V3 c,
  length rs = length Vs → views c = Vs ++ V3 →
  (∀ i r v, rs !! i = Some r → Vs !! i = Some v → Forall (belongs c i v) r) →
  NoDup (page_id <$> concat rs) → list_to_set (page_id <$> concat rs) ## node_refs c →
  ∃ c', put_back (reverse (concat rs)) c = (Ok (), c') ∧
    views c' = zip_with undo rs Vs ++ V3 ∧
    node_refs c' = list_to_set (page_id <$> concat rs) ∪ node_refs c ∧
    _life_cycle_grouping c' = _life_cycle_grouping c ∧ _cache_level c' = _cache_level c.
Proof.
  induction rs as [|r rs IH] using rev_ind; intros Vs V3 c Hlen HV Hb Hnd Hdis.
  { destruct Vs; [|done]. exists c. split; [done|]. split; [done|]. split; [set_solver|done]. }
  destruct Vs as [|v Vs _] using rev_ind; [rewrite length_app in Hlen; simpl in Hlen; lia|].
  rewrite !length_app in Hlen. simpl in Hlen. assert (length rs = length Vs) as Hl by lia.
  rewrite concat_app in *. cbn [concat] in *. rewrite app_nil_r in *.
  rewrite fmap_app in *. apply NoDup_app in Hnd as (Hnd1 & Hnn & Hnd2).
  rewrite <- (assoc_L (++)) in HV.
  destruct (put_back_group r c (length Vs) v) as (c1 & H1 & [R1 R2 R3 R4]).
  - rewrite HV. by apply list_lookup_middle.
  - apply Hb; [rewrite <- Hl|]; by apply list_lookup_middle.
  - done.
  - set_solver.
  - destruct (IH Vs (undo r v :: V3) c1) as (c2 & H2 & K1 & K2 & K3 & K4).
    + done.
    + rewrite R1, HV. rewrite insert_app_r_alt by lia. by rewrite Nat.sub_diag.
    + intros i r' v' Hr Hv. assert (Forall (belongs c i v') r') as HF.
      { apply Hb; by apply lookup_app_l_Some. }
      eapply Forall_impl; [exact HF|]. intros q Hq.
      rewrite <- (undo_nil v'). by eapply belongs_undo.
    + done.
    + rewrite R2. set_solver.
    + exists c2. rewrite reverse_app, (put_back_app _ _ _ _ H1). split; [done|].
      split; [|split; [rewrite K2, R2; set_solver|split; congruence]].
      rewrite K1, zip_with_app by done. cbn. by rewrite <- (assoc_L (++)).
Qed.

(** ** [evict] on well-formed controllers *)

Definition taken_pages (ms : list nat) (vs : list group_view) : list (list EvictablePage) :=
  zip_with (λ m v, take m (front v)) ms vs.

Lemma pages_split ms vs :
  length ms = length vs →
  all_pages vs ≡ₚ concat (taken_pages ms vs) ++ all_pages (zip_with drop_front ms vs).
Proof.
  revert vs. induction ms as [|m ms IH]; intros [|v vs] Hl; try done.
  unfold all_pages, taken_pages in *. cbn. rewrite (IH vs) by (by injection Hl).
  destruct v as [|[pr l] v]; cbn; [by rewrite take_nil|].
  rewrite <- (take_drop m l) at 1. solve_Permutation.
Qed.

Lemma undo_taken ms vs :
  length ms = length vs → zip_with undo (taken_pages ms vs) (zip_with drop_front ms vs) = vs.
Proof.
  unfold taken_pages. revert vs. induction ms as [|m ms IH]; intros [|v vs] Hl; try done.
  cbn. rewrite undo_drop_front, IH; [done|]. by injection Hl.
Qed.

Lemma taken_lookup ms vs i r v :
  taken_pages ms vs !! i = Some r → zip_with drop_front ms vs !! i = Some v →
  ∃ m v0, vs !! i = Some v0 ∧ r = take m (front v0) ∧ v = drop_front m v0.
Proof.
  unfold taken_pages. rewrite !lookup_zip_with.
  destruct (ms !! i) as [m|], (vs !! i) as [v0|]; cbn; try done.
  intros [= <-] [= <-]. eauto.
Qed.

Lemma front_held c : ctl_wf c → held c (views c ≫= front).
Proof.
  intros [_ _ Hnd Hrefs]. apply (held_sublist c (all_pages (views c))).
  - split; [done|]. apply Forall_forall. intros p Hp. rewrite <- Hrefs.
    by apply elem_of_list_to_set, list_elem_of_fmap_2.
  - clear. unfold all_pages. induction (views c) as [|v vs IH]; [done|]. rewrite !bind_cons.
    apply sublist_app; [|apply IH]. destruct v as [|[pr l] v]; [done|]. by apply sublist_inserts_r.
Qed.

Lemma front_belongs c i v m p :
  group_wf c i v → p ∈ take m (front v) → belongs c i (drop_front m v) p.
Proof.
  intros [Hs Hp] Hin. destruct v as [|[pr l] v]; cbn in *; [by rewrite take_nil in Hin; apply not_elem_of_nil in Hin|].
  destruct (Hp pr l p) as (<- & Hg & Hl); [left|by eapply elem_of_take in Hin as (k & Hk & _); eapply list_elem_of_lookup_2|].
  split; [|done]. exists (drop m l), v. split; [done|]. intros Hv.
  apply StronglySorted_inv in Hs as [_ Hall]. rewrite Forall_forall in Hall.
  specialize (Hall _ Hv). lia.
Qed.

Lemma put_back_restores c c' ms :
  ctl_wf c → length ms = length (views c) →
  views c' = zip_with drop_front ms (views c) →
  node_refs c' = node_refs c ∖ list_to_set (page_id <$> concat (taken_pages ms (views c))) →
  _life_cycle_grouping c' = _life_cycle_grouping c → _cache_level c' = _cache_level c →
  ∃ c'', put_back (reverse (concat (taken_pages ms (views c)))) c' = (Ok (), c'') ∧ same_state c c''.
Proof.
  intros Hwf Hl Hv Hr Hg Hc.
  pose proof (pages_split _ _ Hl) as Hperm. pose proof (cw_ids _ Hwf) as Hnd.
  pose proof (cw_refs _ Hwf) as Hrefs. rewrite Hperm, fmap_app in Hnd, Hrefs.
  apply NoDup_app in Hnd as (Hnd & _ & _).
  destruct (put_back_groups (taken_pages ms (views c)) (zip_with drop_front ms (views c)) [] c')
    as (c2 & H2 & K1 & K2 & K3 & K4).
  - unfold taken_pages. rewrite !length_zip_with. lia.
  - by rewrite app_nil_r.
  - intros i r v Hri Hvi. destruct (taken_lookup _ _ _ _ _ Hri Hvi) as (m & v0 & Hv0 & -> & ->).
    apply Forall_forall. intros p Hp. rewrite <- (undo_nil (drop_front m v0)).
    apply (belongs_undo c); [done..|]. apply front_belongs; [|done]. by apply (cw_groups _ Hwf).
  - done.
  - rewrite Hr. set_solver.
  - exists c2. split; [done|]. split; [|split; [|split; congruence]].
    + rewrite K1, app_nil_r. symmetry. by apply undo_taken.
    + rewrite K2, Hr, <- Hrefs. rewrite list_to_set_app_L. apply set_eq. intros x.
      destruct (decide (x ∈ (list_to_set (page_id <$> concat (taken_pages ms (views c))) : gset Z)));
        set_solver.
Qed.

Lemma length_views c : length (views c) = length (_policies c).
Proof. unfold views. by rewrite length_fmap. Qed.

Lemma evict_groups_all c counts :
  ctl_wf c → length counts = length (_policies c) →
  ∃ c' ms, length ms = length (views c) ∧
    evict_groups 0 counts (c, replicate (length (_policies c)) []) =
      (match first_error (views c) counts with Some e => Raise e | None => Ok () end,
       (c', taken_pages ms (views c))) ∧
    views c' = zip_with drop_front ms (views c) ∧
    node_refs c' = node_refs c ∖ list_to_set (page_id <$> concat (taken_pages ms (views c))) ∧
    _life_cycle_grouping c' = _life_cycle_grouping c ∧ _cache_level c' = _cache_level c ∧
    (first_error (views c) counts = None → ms = Z.to_nat <$> counts).
Proof.
  intros Hwf Hl. rewrite <- length_views.
  apply (evict_groups_ok counts c (replicate (length (views c)) []) [] (views c) 0); try done.
  - by rewrite length_views.
  - by rewrite length_replicate.
  - by apply front_held.
Qed.

Lemma drop_front_keys m v : (drop_front m v).*1 = v.*1.
Proof. by destruct v as [|[pr l] v]. Qed.

Lemma drop_front_entry m v pr l :
  (pr, l) ∈ drop_front m v → ∃ l0, (pr, l0) ∈ v ∧ l ⊆ l0.
Proof.
  destruct v as [|[pr0 l0] v]; cbn; [by intros ?%not_elem_of_nil|].
  intros [[= -> ->]|H]%elem_of_cons.
  - exists l0. split; [left|]. apply subseteq_drop.
  - exists l. split; [by right|done].
Qed.

Lemma num_pool_groups_views c : num_pool_groups c = Z.of_nat (length (views c)).
Proof. unfold num_pool_groups. by rewrite length_views. Qed.

Lemma union_minus (X Y : gset Z) : X ## Y → (X ∪ Y) ∖ X = Y.
Proof. set_solver. Qed.

Lemma taken_wf c c' ms :
  ctl_wf c → length ms = length (views c) →
  views c' = zip_with drop_front ms (views c) →
  node_refs c' = node_refs c ∖ list_to_set (page_id <$> concat (taken_pages ms (views c))) →
  _life_cycle_grouping c' = _life_cycle_grouping c → _cache_level c' = _cache_level c →
  ctl_wf c'.
Proof.
  intros [Hgr Hw Hnd Hrefs] Hl Hv Hr Hg Hc.
  rewrite (pages_split _ _ Hl), fmap_app in Hnd, Hrefs. apply NoDup_app in Hnd as (_ & Hdis & Hnd).
  split.
  - rewrite num_pool_groups_views, Hg, Hv, length_zip_with, Hl, Nat.min_id.
    by rewrite num_pool_groups_views in Hgr.
  - intros i v. rewrite Hv, lookup_zip_with.
    destruct (ms !! i) as [m|]; [|done]. destruct (views c !! i) as [v0|] eqn:E; [|done].
    cbn. intros [= <-]. destruct (Hw i v0 E) as [Hs Hp]. split; [by rewrite drop_front_keys|].
    intros pr l p (l0 & Hin & Hsub)%drop_front_entry Hpl. unfold group_of. rewrite Hg, Hc.
    by apply (Hp pr l0); [|apply Hsub].
  - by rewrite Hv.
  - rewrite Hv, Hr, <- Hrefs, list_to_set_app_L. symmetry. apply union_minus. intros x.
    rewrite !elem_of_list_to_set. apply Hdis.
Qed.

Lemma taken_levels c ms :
  ctl_wf c → length ms = length (views c) →
  forallb (λ p, page_cache_level p =? _cache_level c) (concat (taken_pages ms (views c))) = true.
Proof.
  intros Hwf Hl. apply forallb_forall. intros p Hp%list_elem_of_In. apply Z.eqb_eq.
  assert (Hin : p ∈ all_pages (views c)).
  { rewrite (pages_split _ _ Hl). by apply elem_of_app; left. }
  unfold all_pages in Hin. apply list_elem_of_bind in Hin as (v & Hin & [i Hi]%list_elem_of_lookup).
  apply list_elem_of_bind in Hin as ([pr l] & Hin & He).
  by destruct (gw_pages _ _ _ (cw_groups _ Hwf i v Hi) pr l p He Hin) as (_ & _ & ?).
Qed.

Lemma evict_raises c counts e :
  ctl_wf c → length counts = length (_policies c) → first_error (views c) counts = Some e →
  ∃ c', evict counts c = (Raise e, c') ∧ same_state c c'.
Proof.
  intros Hwf Hl Hf. destruct (evict_groups_all c counts Hwf Hl) as (c1 & ms & Hml & He & Hv & Hr & Hg & Hc & _).
  unfold evict. rewrite Hl. unfold num_pool_groups. rewrite Z.eqb_refl. cbn [negb]. rewrite He, Hf.
  destruct (put_back_restores c c1 ms Hwf Hml Hv Hr Hg Hc) as (c2 & -> & Hs). eauto.
Qed.

Lemma evict_returns c counts :
  ctl_wf c → length counts = length (_policies c) → first_error (views c) counts = None →
  let pages := taken_pages (Z.to_nat <$> counts) (views c) in
  ∃ c', evict counts c = (Ok pages, c') ∧
    views c' = zip_with drop_front (Z.to_nat <$> counts) (views c) ∧
    node_refs c' = node_refs c ∖ list_to_set (page_id <$> concat pages) ∧ ctl_wf c'.
Proof.
  intros Hwf Hl Hf. destruct (evict_groups_all c counts Hwf Hl) as (c1 & ms & Hml & He & Hv & Hr & Hg & Hc & Hms).
  unfold evict. rewrite Hl. unfold num_pool_groups. rewrite Z.eqb_refl. cbn [negb]. rewrite He, Hf.
  rewrite Hc, taken_levels by done. rewrite (Hms Hf) in *. exists c1.
  split; [done|]. split; [done|]. split; [done|]. by apply (taken_wf c c1 (Z.to_nat <$> counts)).
Qed.

(** C19: [evict] is all or nothing.  When every group can give the pages it is
    asked for from its front queue, it returns exactly those pages, in queue
    order, and removes them; otherwise it raises the error of the first group
    that cannot and every queue, and every page's node, is as it was. *)
Theorem evict_all_or_nothing c counts :
  ctl_wf c → length counts = length (_policies c) →
  match first_error (views c) counts with
  | Some e => ∃ c', evict counts c = (Raise e, c') ∧ same_state c c'
  | None =>
      let pages := taken_pages (Z.to_nat <$> counts) (views c) in
      ∃ c', evict counts c = (Ok pages, c') ∧
        views c' = zip_with drop_front (Z.to_nat <$> counts) (views c) ∧
        node_refs c' = node_refs c ∖ list_to_set (page_id <$> concat pages) ∧ ctl_wf c'
  end.
Proof.
  intros Hwf Hl. destruct (first_error (views c) counts) as [e|] eqn:E.
  - by apply evict_raises.
  - by apply evict_returns.
Qed.
End eviction_props.
