(* ===== verification/EvictionInv.v ===== *)
(** * The eviction controller's invariant

    Scheduling, removing and evicting pages keep a controller well formed;
    and the evictions that an emptied front queue makes fail. *)

From S2P Require Import Prelude PySort Eviction EvictionProps.

Local Open Scope Z_scope.

Section eviction_inv.
Context {Q : Type} `{!Dllist Q, !DllistSpec Q}.
Implicit Types c : PerLevelEvictionController Q.

Definition group_pages (v : group_view) : list EvictablePage := v ≫= snd.

(** ** Strictly sorted keys *)

Lemma sorted_lt_keys {A} (l : list (Z * A)) :
  StronglySorted (key_leb fst) l → NoDup l.*1 → StronglySorted Z.lt l.*1.
Proof.
  induction 1 as [|[k a] l Hs IH Hall]; intros Hnd; [constructor|].
  apply NoDup_cons in Hnd as [Hk Hnd]. constructor; [by apply IH|].
  apply Forall_forall. intros k' Hk'. apply list_elem_of_fmap in Hk' as ([k2 a2] & -> & Hin).
  rewrite Forall_forall in Hall. specialize (Hall _ Hin). unfold key_leb in Hall. cbn in *.
  apply Is_true_true, Z.leb_le in Hall. assert (k ≠ k2); [|lia].
  intros ->. apply Hk. by apply (list_elem_of_fmap_2 fst l (k2, a2)).
Qed.

Lemma sorted_lt_NoDup l : StronglySorted Z.lt l → NoDup l.
Proof.
  induction 1 as [|x l Hs IH Hall]; [constructor|]. constructor; [|done].
  rewrite Forall_forall in Hall. intros Hx. specialize (Hall _ Hx). lia.
Qed.

Lemma sorted_lt_sublist k l : sublist k l → StronglySorted Z.lt l → StronglySorted Z.lt k.
Proof.
  induction 1; intros Hs; [done|..]; apply StronglySorted_inv in Hs as [Hs Hall].
  - constructor; [auto|]. by eapply Forall_sublist_sub.
  - auto.
Qed.

(** ** Pushing a page *)

Lemma get_policy_view pr (pol : policy Q) :
  StronglySorted Z.lt pol.*1 →
  let v := policy_view (get_policy pr pol) in
  StronglySorted Z.lt v.*1 ∧ pr ∈ v.*1 ∧ group_pages v ≡ₚ group_pages (policy_view pol) ∧
  ∀ e, e ∈ v → e ∈ policy_view pol ∨ e = (pr, []).
Proof.
  intros Hs. unfold get_policy. case_bool_decide as Hin; cbn.
  { rewrite policy_view_keys. split; [done|]. split; [done|]. split; [done|]. by left. }
  rewrite policy_view_keys. split; [|split; [|split]].
  - apply sorted_lt_keys; [apply sort_by_sorted; [apply key_leb_total|apply key_leb_trans]|].
    rewrite sort_by_perm, fmap_app. apply NoDup_app. split; [by apply sorted_lt_NoDup|].
    split; [|apply NoDup_singleton]. intros x Hx ->%list_elem_of_singleton. done.
  - rewrite sort_by_perm, fmap_app. apply elem_of_app. right. left.
  - unfold group_pages, policy_view. rewrite sort_by_perm, fmap_app, bind_app. cbn.
    by rewrite dl_items_new, app_nil_r.
  - intros e. unfold policy_view. rewrite sort_by_perm, fmap_app.
    intros [?|He]%elem_of_app; [by left|right]. apply list_elem_of_singleton in He as ->. cbn. by rewrite dl_items_new.
Qed.

Lemma update_pages pr g p (v : group_view) :
  (∀ l, g l ≡ₚ p :: l) → NoDup v.*1 → pr ∈ v.*1 →
  group_pages ((λ e, if e.1 =? pr then (e.1, g e.2) else e) <$> v) ≡ₚ p :: group_pages v.
Proof.
  intros Hg. unfold group_pages. induction v as [|[k l] v IH]; cbn; [by intros _ ?%not_elem_of_nil|].
  intros [Hk Hnd]%NoDup_cons Hin. destruct (Z.eqb_spec k pr) as [->|Hne]; cbn.
  - rewrite update_miss by done. by rewrite Hg.
  - apply elem_of_cons in Hin as [->|Hin]; [done|]. rewrite IH by done. solve_Permutation.
Qed.

Definition push_items (ef : bool) (p : EvictablePage) (l : list EvictablePage) :=
  if ef then p :: l else l ++ [p].

Lemma push_items_perm ef p l : push_items ef p l ≡ₚ p :: l.
Proof. destruct ef; cbn; [done|]. solve_Permutation. Qed.

Lemma push_view p ef (pol : policy Q) :
  StronglySorted Z.lt pol.*1 →
  let v := policy_view (policy_push p ef pol) in
  StronglySorted Z.lt v.*1 ∧ group_pages v ≡ₚ p :: group_pages (policy_view pol) ∧
  ∀ pr l q, (pr, l) ∈ v → q ∈ l →
    (q = p ∧ pr = page_priority p) ∨ ∃ l0, (pr, l0) ∈ policy_view pol ∧ q ∈ l0.
Proof.
  intros Hs. destruct (get_policy_view (page_priority p) pol Hs) as (H1 & H2 & H3 & H4).
  unfold policy_push. rewrite (update_policy_view _ _ (push_items ef p))
    by (intros q; destruct ef; [apply dl_items_appendleft|apply dl_items_append]).
  set (v := policy_view (get_policy _ _)) in *. cbv zeta. split; [|split].
  - replace (_ <$> (_ <$> v)) with v.*1; [done|]. rewrite <- list_fmap_compose.
    apply list_fmap_ext. intros i [k l] _. cbn. by destruct (k =? _).
  - rewrite update_pages; [by rewrite H3|intros; apply push_items_perm|by apply sorted_lt_NoDup|done].
  - intros pr l q ([k l0] & He & Hv)%list_elem_of_fmap Hq. cbn in He.
    destruct (Z.eqb_spec k (page_priority p)) as [->|Hne]; injection He as -> ->.
    + rewrite push_items_perm in Hq. apply elem_of_cons in Hq as [->|Hq]; [by left|right].
      destruct (H4 _ Hv) as [Hin|[= ->]]; [eauto|by apply not_elem_of_nil in Hq].
    + right. destruct (H4 _ Hv) as [Hin|[= _ ->]]; [eauto|by apply not_elem_of_nil in Hq].
Qed.

(** ** Replacing one group *)

Lemma all_pages_insert (vs : list group_view) i v v' :
  vs !! i = Some v →
  ∃ V1 V2, all_pages vs = V1 ++ group_pages v ++ V2 ∧
    all_pages (<[i := v']> vs) = V1 ++ group_pages v' ++ V2.
Proof.
  intros Hi. exists (all_pages (take i vs)), (all_pages (drop (S i) vs)).
  pose proof (lookup_lt_Some _ _ _ Hi) as Hlt.
  split.
  - rewrite <- (take_drop_middle _ _ _ Hi) at 1. unfold all_pages. rewrite bind_app. done.
  - rewrite insert_take_drop by done. unfold all_pages. rewrite bind_app. done.
Qed.

Lemma group_wf_other c c' i v :
  _life_cycle_grouping c' = _life_cycle_grouping c → _cache_level c' = _cache_level c →
  group_wf c i v → group_wf c' i v.
Proof.
  intros Hg Hc [Hs Hp]. split; [done|]. unfold group_of in *. rewrite Hg, Hc. done.
Qed.

Lemma insert_wf c c' i v v' :
  ctl_wf c → views c !! i = Some v → views c' = <[i := v']> (views c) →
  _life_cycle_grouping c' = _life_cycle_grouping c → _cache_level c' = _cache_level c →
  group_wf c i v' → NoDup (page_id <$> all_pages (views c')) →
  list_to_set (page_id <$> all_pages (views c')) = node_refs c' → ctl_wf c'.
Proof.
  intros [Hgr Hw _ _] Hv Hv' Hg Hc Hwf Hnd Hrefs. split; [|..|done|done].
  - rewrite num_pool_groups_views, Hg, Hv', length_insert. by rewrite num_pool_groups_views in Hgr.
  - intros j u. rewrite Hv'. destruct (decide (i = j)) as [->|Hne].
    + rewrite list_lookup_insert_eq by (by eapply lookup_lt_Some). intros [= <-].
      by apply (group_wf_other c).
    + rewrite list_lookup_insert_ne by done. intros Hu. apply (group_wf_other c); auto.
Qed.

Lemma group_of_lookup c lc pg :
  ctl_wf c → group_of lc c = Ok pg →
  ∃ i v, pg = Z.of_nat i ∧ views c !! i = Some v.
Proof.
  intros Hwf H. unfold group_of, py_getitem in H. apply of_option_ok in H.
  apply bind_Some in H as (k & _ & Hk). pose proof (cw_grouping _ Hwf) as Hg.
  rewrite Forall_lookup in Hg. specialize (Hg _ _ Hk). rewrite num_pool_groups_views in Hg.
  destruct (lookup_lt_is_Some_2 (views c) (Z.to_nat pg)) as [v Hv]; [lia|].
  exists (Z.to_nat pg), v. split; [lia|done].
Qed.

(** ** Scheduling *)

Lemma schedule_wf c c' p ef r :
  ctl_wf c → schedule_for_eviction p ef c = (r, c') → ctl_wf c'.
Proof.
  intros Hwf. unfold schedule_for_eviction. mrun.
  destruct (bool_decide _ && _) eqn:Ha; [|by intros [= _ <-]].
  apply andb_prop in Ha as [Hid Hl]. apply bool_decide_eq_true in Hid. apply Z.eqb_eq in Hl.
  destruct (group_of _ c) as [pg|] eqn:Hg; [|by intros [= _ <-]].
  destruct (group_of_lookup _ _ _ Hwf Hg) as (i & v & -> & Hv).
  destruct (views_lookup _ _ _ Hv) as (pol & _ & Hpv & ->).
  destruct (with_policy_ok c i _ (policy_push p ef pol) ({[page_id p]} ∪ node_refs c) Hv)
    as (c1 & -> & H1 & H2 & H3 & H4). intros [= _ <-].
  pose proof (cw_groups _ Hwf i v Hv) as [Hs Hp].
  destruct (push_view p ef pol) as (K1 & K2 & K3); [by rewrite <- policy_view_keys, Hpv|].
  destruct (all_pages_insert (views c) i v (policy_view (policy_push p ef pol)) Hv) as (V1 & V2 & E1 & E2).
  assert (Hperm : all_pages (views c1) ≡ₚ p :: all_pages (views c)).
  { rewrite H1, E2, E1, K2, Hpv. solve_Permutation. }
  apply (insert_wf c c1 i v _ Hwf Hv H1 H3 H4).
  - split; [done|]. intros pr l q Hin Hq.
    destruct (K3 pr l q Hin Hq) as [[-> ->]|(l0 & Hl0 & Hq0)]; [done|]. rewrite Hpv in Hl0. by apply (Hp pr l0).
  - rewrite Hperm, fmap_cons. apply NoDup_cons. split; [|apply Hwf].
    intros Hin. apply Hid. rewrite <- (cw_refs _ Hwf). by apply elem_of_list_to_set.
  - rewrite H2, Hperm, fmap_cons, list_to_set_cons. by rewrite (cw_refs _ Hwf).
Qed.

(** ** Removing *)

Lemma remove_view p (pol pol' : policy Q) :
  policy_remove p pol = Ok pol' →
  sublist (policy_view pol').*1 (policy_view pol).*1 ∧
  (∀ pr l, (pr, l) ∈ policy_view pol' → ∃ l0, (pr, l0) ∈ policy_view pol ∧ l ⊆ l0).
Proof.
  unfold policy_remove. case_bool_decide; [|done]. intros [= <-]. split.
  - rewrite !policy_view_keys. eapply transitivity; [apply fmap_sublist, sublist_filter|].
    unfold update_policy. rewrite <- list_fmap_compose. apply reflexive_eq, list_fmap_ext.
    intros i [k q] _. cbn. by destruct (k =? _).
  - intros pr l Hin. unfold policy_view in Hin. apply list_elem_of_fmap in Hin as ([k q] & [= -> ->] & Hin).
    apply list_elem_of_filter in Hin as [_ Hin]. unfold update_policy in Hin.
    apply list_elem_of_fmap in Hin as ([k0 q0] & Heq & Hin). exists (dl_items q0). cbn in Heq.
    assert (Hv : (k0, dl_items q0) ∈ policy_view pol) 
      by (by apply (list_elem_of_fmap_2 (λ e, (e.1, dl_items e.2)) pol (k0, q0))).
    destruct (k0 =? page_priority p); injection Heq as -> ->; [|done]. split; [done|].
    rewrite dl_items_remove. intros x Hx. by apply list_elem_of_filter in Hx as [_ Hx].
Qed.

Lemma remove_pages p (pol : policy Q) :
  StronglySorted Z.lt pol.*1 →
  (∀ pr l q, (pr, l) ∈ policy_view pol → q ∈ l → page_priority q = pr) →
  p ∈ group_pages (policy_view pol) →
  ∃ pol', policy_remove p pol = Ok pol' ∧
    group_pages (policy_view pol') = filter (λ x, x ≠ p) (group_pages (policy_view pol)).
Proof.
  intros Hs Hp Hin. unfold policy_remove, group_pages in *.
  apply list_elem_of_bind in Hin as ([k l] & Hl & Hk). pose proof (Hp _ _ _ Hk Hl) as <-.
  rewrite bool_decide_eq_true_2.
  2:{ rewrite <- policy_view_keys. by apply (list_elem_of_fmap_2 fst _ (page_priority p, l)). }
  eexists. split; [done|]. clear Hk Hl Hs. induction pol as [|[pr q] pol IH]; [done|].
  unfold policy_view, update_policy, policy in *. rewrite !fmap_cons in *. rewrite filter_cons, bind_cons, filter_app.
  rewrite <- IH by (intros; eapply Hp; [by right|done]).
  cbn [fst snd] in *. destruct (Z.eqb_spec pr (page_priority p)) as [->|Hne].
  - case_decide as Hd; [by rewrite fmap_cons, bind_cons; cbn [fst snd]; rewrite dl_items_remove|].
    destruct Hd as [_ Hd]. cbn [snd] in Hd. unfold lru_len in Hd.
    rewrite <- dl_items_remove. by rewrite (nil_length_inv (dl_items (dl_remove p q))) by (unfold lru_remove in Hd; lia).
  - rewrite decide_True by naive_solver. rewrite fmap_cons, bind_cons. cbn [fst snd]. f_equal.
    symmetry. apply list_filter_all, Forall_forall.
    intros x Hx ->. apply Hne. symmetry. apply (Hp pr (dl_items q)); [left|done].
Qed.

Lemma all_pages_group c p :
  p ∈ all_pages (views c) → ∃ i v, views c !! i = Some v ∧ p ∈ group_pages v.
Proof.
  intros (v & Hp & [i Hi]%list_elem_of_lookup)%list_elem_of_bind. eauto.
Qed.

Lemma id_inj (l : list EvictablePage) p q :
  NoDup (page_id <$> l) → p ∈ l → q ∈ l → page_id p = page_id q → p = q.
Proof.
  intros Hnd [i Hi]%list_elem_of_lookup [j Hj]%list_elem_of_lookup He.
  assert (i = j) as ->; [|congruence].
  apply (NoDup_lookup _ _ _ (page_id p) Hnd); rewrite list_lookup_fmap; [by rewrite Hi|by rewrite Hj, He].
Qed.

Lemma ids_filter (l : list EvictablePage) p :
  NoDup (page_id <$> l) → p ∈ l →
  (list_to_set (page_id <$> filter (λ x, x ≠ p) l) : gset Z) = list_to_set (page_id <$> l) ∖ {[page_id p]}.
Proof.
  intros Hnd Hp. apply set_eq. intros x. rewrite elem_of_difference, !elem_of_list_to_set, elem_of_singleton.
  rewrite !list_elem_of_fmap. split.
  - intros (q & -> & [Hne Hq]%list_elem_of_filter). split; [by eauto|].
    intros He. apply Hne. by eapply id_inj.
  - intros [(q & -> & Hq) Hne]. exists q. split; [done|]. apply list_elem_of_filter. split; [|done].
    by intros ->.
Qed.

Lemma remove_ok c p :
  ctl_wf c → p ∈ all_pages (views c) →
  ∃ c', remove p c = (Ok (), c') ∧ ctl_wf c' ∧
    all_pages (views c') = filter (λ x, x ≠ p) (all_pages (views c)).
Proof.
  intros Hwf Hp. destruct (all_pages_group _ _ Hp) as (i & v & Hv & Hpv).
  pose proof (cw_groups _ Hwf i v Hv) as [Hs Hpg]. pose proof (cw_ids _ Hwf) as Hnd.
  destruct (views_lookup _ _ _ Hv) as (pol & _ & <- & Hget).
  destruct (remove_pages p pol) as (pol' & Hrm & Hpages); [by rewrite <- policy_view_keys|naive_solver|done|].
  destruct (remove_view p pol pol' Hrm) as [Hsub Hent].
  destruct (with_policy_ok c i _ pol' (node_refs c ∖ {[page_id p]}) Hv) as (c1 & Hw & H1 & H2 & H3 & H4).
  exists c1. unfold remove. mrun. rewrite bool_decide_eq_true_2
    by (rewrite <- (cw_refs _ Hwf); by apply elem_of_list_to_set, list_elem_of_fmap_2).
  assert (Hg : group_of (page_life_cycle p) c = Ok (Z.of_nat i)).
  { apply list_elem_of_bind in Hpv as ([pr l] & Hl & Hk). by apply (Hpg pr l). }
  rewrite Hg, Hget, Hrm, Hw. split; [done|].
  destruct (all_pages_insert (views c) i _ (policy_view pol') Hv) as (V1 & V2 & E1 & E2).
  assert (Hall : all_pages (views c1) = filter (λ x, x ≠ p) (all_pages (views c))).
  { rewrite H1, E2, E1, Hpages, !filter_app. rewrite E1 in Hnd. apply NoDup_fmap_1 in Hnd.
    apply NoDup_app in Hnd as (_ & Hd1 & Hnd). apply NoDup_app in Hnd as (_ & Hd2 & _).
    f_equal; [|f_equal]; symmetry; apply list_filter_all, Forall_forall; intros x Hx ->.
    - apply (Hd1 _ Hx). by apply elem_of_app; left.
    - by apply (Hd2 _ Hpv). }
  split; [|done]. apply (insert_wf c c1 i _ _ Hwf Hv H1 H3 H4).
  - split; [by eapply sorted_lt_sublist|]. intros pr l q (l0 & Hl0 & Hss)%Hent Hq.
    by apply (Hpg pr l0), Hss.
  - rewrite Hall. by eapply sublist_NoDup; [|apply fmap_sublist, sublist_filter].
  - rewrite Hall, H2, <- (cw_refs _ Hwf). by apply ids_filter.
Qed.

(** ** All reachable controllers *)

Lemma same_state_wf c c' : same_state c c' → ctl_wf c → ctl_wf c'.
Proof.
  intros (Hv & Hr & Hg & Hc) [Hgr Hw Hnd Hrefs]. rewrite num_pool_groups_views in Hgr. split.
  - by rewrite num_pool_groups_views, <- Hg, <- Hv.
  - intros i v. rewrite <- Hv. intros Hi. apply (group_wf_other c); auto.
  - by rewrite <- Hv.
  - by rewrite <- Hv, <- Hr.
Qed.

Lemma evict_wf c c' counts r : ctl_wf c → evict counts c = (r, c') → ctl_wf c'.
Proof.
  intros Hwf. destruct (decide (length counts = length (_policies c))) as [Hl|Hl].
  - destruct (first_error (views c) counts) as [e|] eqn:E.
    + destruct (evict_raises c counts e Hwf Hl E) as (c2 & -> & Hs).
      intros [= _ <-]. by eapply same_state_wf.
    + destruct (evict_returns c counts Hwf Hl E) as (c2 & -> & _ & _ & Hs). by intros [= _ <-].
  - unfold evict, num_pool_groups.
    destruct (Z.eqb_spec (Z.of_nat (length counts)) (Z.of_nat (length (_policies c)))); [lia|].
    by intros [= _ <-].
Qed.

Lemma foldl_max_le l g x : x ≤ g ∨ x ∈ l → x ≤ foldl Z.max g l.
Proof.
  revert g. induction l as [|y l IH]; intros g; cbn.
  - intros [?|?%not_elem_of_nil]; done.
  - intros [Hx|[->|Hx]%elem_of_cons]; apply IH; [left; lia|left; lia|by right].
Qed.

Lemma init_wf grouping level c :
  Forall (λ g, 0 ≤ g) grouping → controller_init grouping level = Ok c → ctl_wf c.
Proof.
  intros Hpos Hi. destruct grouping as [|g l]; [done|]. unfold controller_init in Hi. inv_ok.
  set (n := foldl Z.max g l + 1) in *.
  assert (Hvs : views (mkController (Q := Q) (g :: l) (replicate (Z.to_nat n) []) level ∅) =
    replicate (Z.to_nat n) []).
  { unfold views. cbn. by rewrite fmap_replicate. }
  assert (Hap : ∀ k, all_pages (replicate k []) = []) by (by induction k).
  split.
  - unfold num_pool_groups. cbn [_policies _life_cycle_grouping]. rewrite length_replicate.
    rewrite Forall_forall in Hpos |- *. intros x Hx. specialize (Hpos _ Hx).
    assert (x ≤ foldl Z.max g l); [|lia]. apply foldl_max_le.
    apply elem_of_cons in Hx as [->|Hx]; [by left|by right].
  - intros i w. rewrite Hvs. intros [-> _]%lookup_replicate. split; [constructor|].
    by intros ? ? ? ?%not_elem_of_nil.
  - rewrite Hvs, Hap. constructor.
  - by rewrite Hvs, Hap.
Qed.

(** One call of the controller, whether or not it raises. *)
Inductive ctl_step : PerLevelEvictionController Q → PerLevelEvictionController Q → Prop :=
| step_schedule p ef r c c' : schedule_for_eviction p ef c = (r, c') → ctl_step c c'
| step_remove p r c c' : p ∈ all_pages (views c) → remove p c = (r, c') → ctl_step c c'
| step_evict counts r c c' : evict counts c = (r, c') → ctl_step c c'.

(** After any sequence of calls, failed ones included, the controller is
    well formed: the queues of every group are in increasing order of
    priority, every page is in the queue of its priority, group and cache
    level, no page is queued twice, and the pages whose [node_ref] is set are
    exactly those in a queue. *)
Theorem reachable_wf grouping level c0 c :
  Forall (λ g, 0 ≤ g) grouping → controller_init grouping level = Ok c0 →
  rtc ctl_step c0 c → ctl_wf c.
Proof.
  intros Hpos Hi Hr. assert (Hwf : ctl_wf c0) by (by eapply init_wf). clear Hi.
  induction Hr as [|c1 c2 c3 Hs _ IH]; [done|]. apply IH.
  destruct Hs as [p ef r c c' H|p r c c' Hp H|counts r c c' H].
  - by eapply schedule_wf.
  - destruct (remove_ok c p Hwf Hp) as (c4 & H4 & Hwf4 & _). rewrite H in H4. by injection H4 as _ ->.
  - by eapply evict_wf.
Qed.

(** ** The priority boundary *)

Lemma group_error_0 v : group_error v 0 = None.
Proof.
  unfold group_error. cbn. pose proof (front_len_le v).
  destruct (Z.ltb_spec (zsum ((λ e, Z.of_nat (length e.2)) <$> v)) 0); [lia|].
  by destruct (Z.ltb_spec (Z.of_nat (length (front v))) 0); [lia|].
Qed.

Lemma first_error_cons v vs k counts :
  first_error (v :: vs) (k :: counts) =
  match group_error v k with Some e => Some e | None => first_error vs counts end.
Proof. unfold first_error. cbn. by destruct (group_error v k). Qed.

Lemma first_error_zeros vs : first_error vs (replicate (length vs) 0) = None.
Proof.
  induction vs as [|v vs IH]; [done|]. cbn [length replicate].
  by rewrite first_error_cons, group_error_0.
Qed.

Lemma first_error_single vs i v k :
  vs !! i = Some v →
  first_error vs (<[i := k]> (replicate (length vs) 0)) = group_error v k.
Proof.
  revert i. induction vs as [|w vs IH]; intros i Hi; [done|].
  destruct i as [|i]; cbn [length replicate]; cbn in Hi.
  - injection Hi as ->. cbn [insert list_insert]. rewrite first_error_cons, first_error_zeros. by destruct (group_error v k).
  - cbn [insert list_insert]. rewrite first_error_cons, group_error_0. by apply IH.
Qed.

(** C37: pages of a lower-priority queue cannot be reached: asking one group
    for more pages than its front queue holds fails with an [AssertionError],
    although the group has that many evictable pages, and every page stays. *)
Theorem evict_priority_boundary c i v k :
  ctl_wf c → views c !! i = Some v →
  Z.of_nat (length (front v)) < k ≤ zsum ((λ e, Z.of_nat (length e.2)) <$> v) →
  num_evictable_pages (Z.of_nat i) c = Ok (zsum ((λ e, Z.of_nat (length e.2)) <$> v)) ∧
  ∃ c', evict (<[i := k]> (replicate (length (_policies c)) 0)) c = (Raise AssertionError, c') ∧
    same_state c c'.
Proof.
  intros Hwf Hv Hk. destruct (views_lookup _ _ _ Hv) as (pol & _ & Hpv & Hget). split.
  { unfold num_evictable_pages. rewrite Hget. cbn. by rewrite policy_len_view, Hpv. }
  pose proof (evict_raises c (<[i := k]> (replicate (length (_policies c)) 0)) AssertionError Hwf) as H.
  apply H; [by rewrite length_insert, length_replicate|].
  rewrite <- length_views, first_error_single with (v := v) by done.
  unfold group_error. destruct (Z.ltb_spec k 0); [lia|].
  destruct (Z.ltb_spec (zsum ((λ e, Z.of_nat (length e.2)) <$> v)) k); [lia|].
  by destruct (Z.ltb_spec (Z.of_nat (length (front v))) k); [|lia].
Qed.
End eviction_inv.

(** ** Witnesses *)

Definition pg (i pr lc : Z) : EvictablePage := mkPage i 0 pr lc.

(** Two groups: the first with priorities 35 and 50, the second with one page. *)
Definition ex_ctl : PerLevelEvictionController (list EvictablePage) :=
  mkController [0; 1; 0]
    [[(35, [pg 1 35 0; pg 2 35 2]); (50, [pg 3 50 0])]; [(35, [pg 4 35 1])]] 0 {[1; 2; 3; 4]}.

Definition ex_init : PerLevelEvictionController (list EvictablePage) :=
  mkController [0; 1; 0] [[]; []] 0 ∅.

Definition ex_after (p : EvictablePage) (c : PerLevelEvictionController (list EvictablePage)) :=
  (schedule_for_eviction p false c).2.

Lemma ex_step p c : ctl_step c (ex_after p c).
Proof. eapply (step_schedule p false). apply surjective_pairing. Qed.

Lemma ex_steps : rtc ctl_step ex_init (ex_after (pg 4 35 1) (ex_after (pg 3 50 0)
  (ex_after (pg 2 35 2) (ex_after (pg 1 35 0) ex_init)))).
Proof. do 3 (eapply rtc_l; [apply ex_step|]). apply rtc_once, ex_step. Qed.

Lemma ex_reached : ex_ctl = ex_after (pg 4 35 1) (ex_after (pg 3 50 0)
  (ex_after (pg 2 35 2) (ex_after (pg 1 35 0) ex_init))).
Proof. vm_compute. done. Qed.

Lemma reachable_wf_witness : ctl_wf ex_ctl.
Proof.
  apply (reachable_wf [0; 1; 0] 0 ex_init); [by repeat constructor|reflexivity|].
  rewrite ex_reached. exact ex_steps.
Defined.

Lemma ex_ctl_wf : ctl_wf ex_ctl.
Proof.
  assert (H : ctl_wf ex_init) by (apply (init_wf [0; 1; 0] 0); [by repeat constructor|reflexivity]).
  rewrite ex_reached. do 4 (eapply schedule_wf; [|apply surjective_pairing]). exact H.
Qed.

Lemma evict_priority_boundary_witness :
  num_evictable_pages 0 ex_ctl = Ok 3 ∧
  ∃ c', evict [3; 0] ex_ctl = (Raise AssertionError, c') ∧ same_state ex_ctl c'.
Proof.
  apply (evict_priority_boundary ex_ctl 0
    [(35, [pg 1 35 0; pg 2 35 2]); (50, [pg 3 50 0])] 3); [exact ex_ctl_wf|reflexivity|].
  split; vm_compute; congruence.
Defined.

Lemma evict_all_or_nothing_witness :
  (∃ c', evict [2; 1] ex_ctl = (Ok [[pg 1 35 0; pg 2 35 2]; [pg 4 35 1]], c') ∧
     views c' = [[(35, []); (50, [pg 3 50 0])]; [(35, [])]] ∧ node_refs c' = {[3]} ∧ ctl_wf c').
Proof.
  destruct (evict_all_or_nothing ex_ctl [2; 1] ex_ctl_wf eq_refl) as (c' & H1 & H2 & H3 & H4).
  exists c'. split; [exact H1|]. split; [exact H2|]. split; [|exact H4]. rewrite H3. vm_compute. done.
Defined.
