(* ===== verification/Sizing.v ===== *)
(** * Sizing the cache pools ([CacheLevelStorage] of [_storage/_core.py])

    A cache level divides its memory quota, counted in grains, over its pool
    groups in given ratios; within a group every slot takes one place in each
    of the group's pools.  Ratios and shares are floats, as in the source.

    Python's [sum] of floats rounds differently from one version to the next,
    so it is a parameter here: no theorem depends on it. *)

From S2P Require Import Prelude PySort PyFloat KvUtils.

Local Open Scope Z_scope.

(** ** Loops with a bound on their length *)

Fixpoint loop_pos {S A} (p : positive) (f : S → S + A) (s : S) : S + A :=
  match p with
  | xH => f s
  | xO p => match loop_pos p f s with inl s' => loop_pos p f s' | inr a => inr a end
  | xI p =>
      match f s with
      | inl s1 => match loop_pos p f s1 with inl s2 => loop_pos p f s2 | inr a => inr a end
      | inr a => inr a
      end
  end.

(** [while] with at most [bound] turns. *)
Definition while_ {S A} (bound : Z) (f : S → S + A) (s : S) : result A :=
  match loop_pos (Z.to_pos bound) f s with inr a => Ok a | inl _ => Raise OutOfFuel end.

Lemma loop_pos_rule {S A} (I : S → Prop) (m : S → Z) (Post : A → Prop) (f : S → S + A) p s :
  (∀ s, I s → match f s with inl s' => I s' ∧ 0 ≤ m s' < m s | inr a => Post a end) →
  I s → match loop_pos p f s with inl s' => I s' ∧ 0 ≤ m s' ≤ m s - Z.pos p | inr a => Post a end.
Proof.
  intros Hf. revert s. induction p as [p IH|p IH|]; intros s HI; cbn [loop_pos].
  - pose proof (Hf s HI) as H0. destruct (f s) as [s1|a]; [|done]. destruct H0 as [I1 M1].
    pose proof (IH s1 I1) as H1. destruct (loop_pos p f s1) as [s2|a]; [|done]. destruct H1 as [I2 M2].
    pose proof (IH s2 I2) as H2. destruct (loop_pos p f s2) as [s3|a]; [|done]. destruct H2. split; [done|lia].
  - pose proof (IH s HI) as H1. destruct (loop_pos p f s) as [s2|a]; [|done]. destruct H1 as [I2 M2].
    pose proof (IH s2 I2) as H2. destruct (loop_pos p f s2) as [s3|a]; [|done]. destruct H2. split; [done|lia].
  - pose proof (Hf s HI) as H0. destruct (f s) as [s1|a]; [|done]. destruct H0. split; [done|lia].
Qed.

(** A loop whose measure stays below its bound returns. *)
Lemma while_rule {S A} (I : S → Prop) (m : S → Z) (Post : A → Prop) (f : S → S + A) bound s :
  (∀ s, I s → match f s with inl s' => I s' ∧ 0 ≤ m s' < m s | inr a => Post a end) →
  I s → m s < bound → 0 < bound → ∃ a, while_ bound f s = Ok a ∧ Post a.
Proof.
  intros Hf HI Hm Hb. unfold while_. pose proof (loop_pos_rule I m Post f (Z.to_pos bound) s Hf HI) as H.
  destruct (loop_pos _ f s) as [s'|a]; [|by eauto]. destruct H as [_ H]. lia.
Qed.

(** ** Slots of one pool group *)

Definition grains_for_slots (num_slots : Z) (slot_size_list : list Z) (granularity : Z) : Z :=
  zsum ((λ s, div_up (num_slots * s) granularity) <$> slot_size_list).

(** The loop over [pool_idx_lst]: the pools' sizes in increasing order; gives
    [num_slots] and [remaining_pg_grains]. *)
Fixpoint distribute_grains (sizes : list Z) (granularity num_slots remaining_pg_grains : Z) :
    result (Z * Z) :=
  match sizes with
  | [] => Ok (num_slots, remaining_pg_grains)
  | slot_size :: rest =>
      pct ← int_truediv slot_size (zsum (slot_size :: rest));
      r ← float_of_Z remaining_pg_grains;
      share ← float_round (float_mul r pct);
      let pool_grains := Z.max (div_up slot_size granularity) share in
      distribute_grains rest granularity (Z.min num_slots (pool_grains * granularity / slot_size))
        (remaining_pg_grains - pool_grains)
  end.

(** [while _s2g(hi) <= pg_grains], from [(lo, step)] to [(lo, hi)]. *)
Definition grow_step (s2g : Z → Z) (pg_grains : Z) (st : Z * Z) : (Z * Z) + (Z * Z) :=
  let '(lo, step) := st in
  let hi := lo + step in
  if s2g hi <=? pg_grains then inl (hi, step * 2) else inr (lo, hi).

(** [while lo + 1 < hi] *)
Definition bisect_step (s2g : Z → Z) (pg_grains : Z) (st : Z * Z) : (Z * Z) + Z :=
  let '(lo, hi) := st in
  if lo + 1 <? hi then
    let mid := (lo + hi) / 2 in
    if s2g mid <=? pg_grains then inl (mid, hi) else inl (lo, mid)
  else inr lo.

Definition grains_to_slots (pg_grains : Z) (slot_size_list : list Z) (granularity : Z) :
    result (Z * Z) :=
  let min_pool_grains := (λ s, div_up s granularity) <$> slot_size_list in
  if pg_grains <? zsum min_pool_grains then Ok (0, 0)
  else
    '(num_slots, remaining_pg_grains) ←
      distribute_grains (sort_by (key_leb id) slot_size_list) granularity (2 ^ 63) pg_grains;
    py_assert (remaining_pg_grains =? 0) ≫= λ _,
    py_assert (0 <? num_slots) ≫= λ _,
    let s2g n := grains_for_slots n slot_size_list granularity in
    '(lo, hi) ← while_ (pg_grains * granularity + 1) (grow_step s2g pg_grains) (num_slots, 1);
    lo ← while_ (hi - lo + 1) (bisect_step s2g pg_grains) (lo, hi);
    let used := s2g lo in
    py_assert (used <=? pg_grains) ≫= λ _,
    py_assert (pg_grains <? s2g (lo + 1)) ≫= λ _,
    Ok (lo, used).

(** ** Dividing the quota over the pool groups *)

Section ratio.
Context (float_sum : list float → float).
Context (slot_size_lists : list (list Z)) (ratio_list : list float) (min_slots : list Z).
Context (g : Z).

Definition getitem {A} (l : list A) (i : nat) : result A := of_option IndexError (l !! i).

Definition ratio_leb (ratios : list float) (i j : nat) : bool :=
  match ratios !! i, ratios !! j with
  | Some x, Some y => negb (float_ltb y x)
  | _, _ => true
  end.

(** [for i, idx in enumerate(idx_lst)]: gives [slots_for_active] and
    [budget]; [grains_for_active] is never read. *)
Fixpoint share_loop (active_pgs : list nat) (active_ratio : list float) (idx_lst : list nat)
    (slots_for_active : list Z) (budget : Z) : result (list Z * Z) :=
  match idx_lst with
  | [] => Ok (slots_for_active, budget)
  | idx :: rest =>
      r ← getitem active_ratio idx;
      pct ← float_div r (float_sum (omap (active_ratio !!.) idx_lst));
      b ← float_of_Z budget;
      grains ← float_round (float_mul b pct);
      pg ← getitem active_pgs idx;
      sizes ← getitem slot_size_lists pg;
      '(slots, used) ← grains_to_slots grains sizes g;
      share_loop active_pgs active_ratio rest (<[idx := slots]> slots_for_active) (budget - used)
  end.

(** [slot_cnt_list[active_pgs[idx]] = slots_for_active[idx]] *)
Fixpoint accept (entries : list (nat * Z * Z)) (slot_cnt_list : list Z) : list Z :=
  match entries with
  | [] => slot_cnt_list
  | (pg, _, slots) :: rest => accept rest (<[pg := slots]> slot_cnt_list)
  end.

(** [for idx in constrained]; gives [slot_cnt_list] and [remaining_grains]. *)
Fixpoint pin (entries : list (nat * Z * Z)) (slot_cnt_list : list Z) (remaining_grains : Z) :
    result (list Z * Z) :=
  match entries with
  | [] => Ok (slot_cnt_list, remaining_grains)
  | (pg, min, _) :: rest =>
      sizes ← getitem slot_size_lists pg;
      '(slots, used) ← grains_to_slots (grains_for_slots min sizes g) sizes g;
      pin rest (<[pg := slots]> slot_cnt_list) (remaining_grains - used)
  end.

Definition constrained (e : nat * Z * Z) : Prop := e.2 ≤ e.1.2.

#[global] Instance constrained_dec e : Decision (constrained e).
Proof. unfold constrained. apply _. Defined.

(** [while active_pgs]; every turn that does not leave the loop removes a
    group, so the number of groups is fuel enough. *)
Fixpoint peel (fuel : nat) (active_pgs : list nat) (slot_cnt_list : list Z) (remaining_grains : Z) :
    result (list Z) :=
  match active_pgs, fuel with
  | [], _ => Ok slot_cnt_list
  | _, O => Raise OutOfFuel
  | _, S fuel =>
      active_ratio ← mapM (getitem ratio_list) active_pgs;
      let idx_lst := sort_by (ratio_leb active_ratio) (seq 0 (length active_pgs)) in
      '(slots_for_active, budget) ←
        share_loop active_pgs active_ratio idx_lst (replicate (length active_pgs) 0) remaining_grains;
      py_assert (0 <=? budget) ≫= λ _,
      mins ← mapM (getitem min_slots) active_pgs;
      let entries := zip (zip active_pgs mins) slots_for_active in
      let pinned := filter constrained entries in
      let free := filter (λ e, ¬ constrained e) entries in
      if bool_decide (pinned = []) then Ok (accept entries slot_cnt_list)
      else
        '(slot_cnt_list, remaining_grains) ← pin pinned slot_cnt_list remaining_grains;
        if bool_decide (free = []) then Ok slot_cnt_list
        else if remaining_grains <=? 0 then Raise ValueError
        else peel fuel free.*1.*1 slot_cnt_list remaining_grains
  end.

(** The last loop of [ratio_to_slot_count_list]. *)
Definition bump_step (s2g : Z → Z) (grains_now : Z) (n : Z) : Z + Z :=
  if s2g (n + 1) <=? grains_now then inl (n + 1) else inr n.

Fixpoint bump (slot_cnt_list : list Z) (sizes : list (list Z)) : result (list Z) :=
  match slot_cnt_list, sizes with
  | n :: slot_cnt_list, s :: sizes =>
      let s2g n := grains_for_slots n s g in
      let grains_now := s2g n in
      n' ← while_ (grains_now * g + 1) (bump_step s2g grains_now) n;
      rest ← bump slot_cnt_list sizes;
      Ok (n' :: rest)
  | _, _ => Ok slot_cnt_list
  end.

Definition ratio_to_slot_count_list (total_quota : Z) : result (list Z) :=
  let num_pool_groups := length ratio_list in
  py_assert (forallb (λ x, float_ltb (S754_zero false) x) ratio_list) ≫= λ _,
  py_assert (Nat.eqb num_pool_groups (length slot_size_lists)) ≫= λ _,
  (if g =? 0 then Raise ZeroDivisionError else Ok ()) ≫= λ _,
  py_assert (total_quota `mod` g =? 0) ≫= λ _,
  let total_grains := total_quota / g in
  py_assert (zsum ((λ sizes, Z.of_nat (length sizes)) <$> slot_size_lists) <=? total_grains) ≫= λ _,
  slot_cnt_list ← peel num_pool_groups (seq 0 num_pool_groups) (replicate num_pool_groups 0) total_grains;
  bump slot_cnt_list slot_size_lists.

(** ** [StorageManager]: the quota of a cache level *)

Definition min_quota_for_level : Z :=
  zsum (zip_with (λ ms sizes, zsum ((λ s, round_up (ms * s) g) <$> sizes)) min_slots slot_size_lists).

(** [g] is the granularity of the level's tier. *)
Definition compute_slot_count_for_level (tier_quota : Z) : result (list Z) :=
  ratio_to_slot_count_list (Z.max min_quota_for_level (round_up tier_quota g)).
End ratio.
