(* ===== verification/SizingProps.v ===== *)
(** * Correctness of the pool sizing

    [_grains_to_slots] returns the largest slot count that fits its grains;
    the division of a quota over the pool groups ends, respects the minimum
    slot counts and stays within the quota; and the inputs on which the
    proportional split of [_grains_to_slots] does not add up. *)

From S2P Require Import Prelude PySort PyFloat KvUtils Sizing.

Local Open Scope Z_scope.

(** ** Grains needed for slots *)

Definition sizes_wf (sizes : list Z) : Prop := sizes ≠ [] ∧ Forall (λ s, 0 < s) sizes.

Section group.
Context (g : Z) (Hg : 0 < g).

Lemma s2g_cons n s sizes :
  grains_for_slots n (s :: sizes) g = div_up (n * s) g + grains_for_slots n sizes g.
Proof. done. Qed.

Lemma s2g_mono sizes n n' :
  Forall (λ s, 0 < s) sizes → n ≤ n' → grains_for_slots n sizes g ≤ grains_for_slots n' sizes g.
Proof.
  intros Hs Hn. unfold grains_for_slots. apply zsum_le. intros s Hin. rewrite Forall_forall in Hs.
  specialize (Hs _ Hin). apply div_up_mono; [done|]. nia.
Qed.

Lemma s2g_0 sizes : grains_for_slots 0 sizes g = 0.
Proof.
  induction sizes as [|s sizes IH]; [done|]. rewrite s2g_cons, IH. unfold div_up.
  rewrite Z.div_small; lia.
Qed.

Lemma s2g_1 sizes : grains_for_slots 1 sizes g = zsum ((λ s, div_up s g) <$> sizes).
Proof. unfold grains_for_slots. f_equal. apply list_fmap_ext. intros. by rewrite Z.mul_1_l. Qed.

Lemma s2g_nonneg sizes n : Forall (λ s, 0 < s) sizes → 0 ≤ n → 0 ≤ grains_for_slots n sizes g.
Proof. intros Hs Hn. rewrite <- (s2g_0 sizes). by apply s2g_mono. Qed.

Lemma s2g_bound sizes n : sizes_wf sizes → 0 ≤ n → n ≤ grains_for_slots n sizes g * g.
Proof.
  intros [Hne Hs] Hn. destruct sizes as [|s sizes]; [done|]. apply Forall_cons in Hs as [Hs Hss].
  rewrite s2g_cons. pose proof (s2g_nonneg sizes n Hss Hn). pose proof (div_up_bounds (n * s) g Hg). nia.
Qed.

Lemma s2g_1_pos sizes : sizes_wf sizes → 0 < grains_for_slots 1 sizes g.
Proof. intros Hs. pose proof (s2g_bound sizes 1 Hs). nia. Qed.

Lemma s2g_perm n sizes sizes' :
  sizes ≡ₚ sizes' → grains_for_slots n sizes g = grains_for_slots n sizes' g.
Proof. intros H. unfold grains_for_slots. by rewrite H. Qed.

(** ** [_grains_to_slots] *)

(** The split gives a slot count that fits the grains it hands out. *)
Lemma distribute_spec sizes n0 rem n rem' :
  Forall (λ s, 0 < s) sizes → 0 < n0 → distribute_grains sizes g n0 rem = Ok (n, rem') →
  0 < n ≤ n0 ∧ grains_for_slots n sizes g ≤ rem - rem'.
Proof.
  intros Hs. revert n0 rem. induction Hs as [|s sizes Hpos Hs IH]; intros n0 rem Hn0 H; cbn in H.
  - injection H as -> ->. split; [lia|]. unfold grains_for_slots. cbn. rewrite zsum_nil. lia.
  - inv_ok. set (pool_grains := Z.max (div_up s g) _) in *.
    pose proof (div_up_bounds s g Hg) as Hb.
    pose proof (Z.mul_div_le (pool_grains * g) s Hpos) as Hd.
    assert (1 ≤ pool_grains * g / s) by (apply Z.div_le_lower_bound; nia).
    apply IH in H as [Hn Hsum]; [|lia]. split; [lia|]. rewrite s2g_cons.
    assert (div_up (n * s) g ≤ pool_grains) by (apply div_up_spec; nia). lia.
Qed.

Section search.
Context (sizes : list Z) (Hs : sizes_wf sizes) (grains : Z) (Hgr : 0 ≤ grains).

Abbreviation s2g n := (grains_for_slots n sizes g).

Lemma grow_ok n0 :
  0 < n0 → s2g n0 ≤ grains →
  ∃ lo hi, while_ (grains * g + 1) (grow_step (λ n, s2g n) grains) (n0, 1) = Ok (lo, hi) ∧
    0 < lo < hi ∧ s2g lo ≤ grains < s2g hi.
Proof.
  intros Hn0 Hfit.
  destruct (while_rule (λ st, 0 < st.1 ∧ 0 < st.2 ∧ s2g st.1 ≤ grains) (λ st, grains * g - st.1)
    (λ r, 0 < r.1 < r.2 ∧ s2g r.1 ≤ grains < s2g r.2)
    (grow_step (λ n, s2g n) grains) (grains * g + 1) (n0, 1)) as ([lo hi] & H & Hp).
  - intros [lo step] (H1 & H2 & H3). cbn in *. destruct (Z.leb_spec (s2g (lo + step)) grains); cbn.
    + pose proof (s2g_bound sizes (lo + step) Hs ltac:(lia)). nia.
    + lia.
  - done.
  - cbn. lia.
  - nia.
  - by exists lo, hi.
Qed.

Lemma bisect_ok lo hi :
  0 < lo < hi → s2g lo ≤ grains < s2g hi →
  ∃ n, while_ (hi - lo + 1) (bisect_step (λ n, s2g n) grains) (lo, hi) = Ok n ∧
    0 < n ∧ s2g n ≤ grains < s2g (n + 1).
Proof.
  intros Hlh Hfit.
  apply (while_rule (λ st, 0 < st.1 < st.2 ∧ s2g st.1 ≤ grains < s2g st.2) (λ st, st.2 - st.1));
    [|done|cbn; lia|lia].
  intros [l h] [H1 H2]. cbn in *. destruct (Z.ltb_spec (l + 1) h).
  - pose proof (Z.div_mod (l + h) 2 ltac:(lia)). pose proof (Z.mod_pos_bound (l + h) 2 ltac:(lia)).
    destruct (Z.leb_spec (s2g ((l + h) / 2)) grains); cbn; lia.
  - replace h with (l + 1) in H2 by lia. lia.
Qed.
End search.

Lemma grains_to_slots_outcome grains sizes :
  sizes_wf sizes →
  if grains <? grains_for_slots 1 sizes g then grains_to_slots grains sizes g = Ok (0, 0)
  else match distribute_grains (sort_by (key_leb id) sizes) g (2 ^ 63) grains with
  | Raise e => grains_to_slots grains sizes g = Raise e
  | Ok (_, rem) =>
      if rem =? 0 then
        ∃ n, grains_to_slots grains sizes g = Ok (n, grains_for_slots n sizes g) ∧ 0 < n ∧
          grains_for_slots n sizes g ≤ grains < grains_for_slots (n + 1) sizes g
      else grains_to_slots grains sizes g = Raise AssertionError
  end.
Proof.
  intros Hs. unfold grains_to_slots. rewrite <- s2g_1.
  destruct (Z.ltb_spec grains (grains_for_slots 1 sizes g)) as [|Hge]; [done|].
  pose proof (s2g_1_pos sizes Hs).
  destruct (distribute_grains _ g _ grains) as [[n0 rem]|e] eqn:Hd; [|done]. cbn.
  destruct (Z.eqb_spec rem 0) as [->|]; [|done].
  apply distribute_spec in Hd as [Hn0 Hfit];
    [|rewrite sort_by_perm; apply Hs|lia]. rewrite (s2g_perm _ _ sizes) in Hfit by apply sort_by_perm.
  cbn. destruct (Z.ltb_spec 0 n0); [|lia]. cbn.
  destruct (grow_ok sizes Hs grains ltac:(lia) n0) as (lo & hi & -> & Hlh & Hb); [lia..|]. cbn.
  destruct (bisect_ok sizes grains lo hi) as (n & -> & Hn & Hnb); [done..|]. cbn.
  destruct (Z.leb_spec (grains_for_slots n sizes g) grains); [|lia].
  destruct (Z.ltb_spec grains (grains_for_slots (n + 1) sizes g)); [|lia]. cbn. eauto.
Qed.
End group.

Lemma grains_to_slots_ok g grains sizes n used :
  0 < g → sizes_wf sizes → grains_to_slots grains sizes g = Ok (n, used) →
  0 ≤ n ∧ used = grains_for_slots n sizes g ∧ grains < grains_for_slots (n + 1) sizes g ∧
  grains_for_slots n sizes g < grains_for_slots (n + 1) sizes g ∧
  (0 ≤ grains → grains_for_slots n sizes g ≤ grains).
Proof.
  intros Hg Hs H. pose proof (grains_to_slots_outcome g Hg grains sizes Hs) as Ho.
  destruct (Z.ltb_spec grains (grains_for_slots 1 sizes g)).
  { rewrite Ho in H. injection H as <- <-. pose proof (s2g_1_pos g Hg sizes Hs).
    rewrite s2g_0 by done. change (0 + 1) with 1. lia. }
  destruct (distribute_grains _ g _ grains) as [[n0 rem]|e]; [|congruence].
  destruct (rem =? 0); [|congruence]. destruct Ho as (n' & Ho & Hn & Hb). rewrite Ho in H.
  injection H as <- <-. lia.
Qed.

(** None of the arithmetic runs out of fuel. *)
Definition no_fuel {A} (r : result A) : Prop := r ≠ Raise OutOfFuel.

Lemma no_fuel_bind {A B} (m : result A) (f : A → result B) :
  no_fuel m → (∀ a, m = Ok a → no_fuel (f a)) → no_fuel (m ≫= f).
Proof. destruct m as [a|e]; cbn; [naive_solver|]. unfold no_fuel. naive_solver. Qed.

Lemma no_fuel_ok {A} (a : A) : no_fuel (Ok a).
Proof. done. Qed.

Lemma no_fuel_assert b : no_fuel (py_assert b).
Proof. by destruct b. Qed.

Lemma no_fuel_getitem {A} (l : list A) i : no_fuel (getitem l i).
Proof. unfold getitem. by destruct (l !! i). Qed.

Lemma no_fuel_of_Z z : no_fuel (float_of_Z z).
Proof. unfold float_of_Z. by destruct (binary_normalize _ _ _ _ _). Qed.

Lemma no_fuel_round x : no_fuel (float_round x).
Proof. unfold float_round. by repeat case_match. Qed.

Lemma no_fuel_div x y : no_fuel (float_div x y).
Proof. unfold float_div. by destruct y. Qed.

Lemma no_fuel_truediv a b : no_fuel (int_truediv a b).
Proof. unfold int_truediv. by repeat case_match. Qed.

Lemma no_fuel_mapM {A B} (f : A → result B) l : (∀ x, no_fuel (f x)) → no_fuel (mapM f l).
Proof.
  intros Hf. induction l as [|x l IH]; [done|]. cbn. apply no_fuel_bind; [done|]. intros y _.
  by apply no_fuel_bind.
Qed.

Create HintDb fuel.
#[export] Hint Resolve no_fuel_bind no_fuel_ok no_fuel_assert no_fuel_getitem no_fuel_of_Z
  no_fuel_round no_fuel_div no_fuel_truediv no_fuel_mapM : fuel.

Lemma no_fuel_distribute g sizes n0 rem : no_fuel (distribute_grains sizes g n0 rem).
Proof. revert n0 rem. induction sizes as [|s sizes IH]; intros n0 rem; cbn; auto 8 with fuel. Qed.

Lemma no_fuel_grains_to_slots g grains sizes :
  0 < g → sizes_wf sizes → no_fuel (grains_to_slots grains sizes g).
Proof.
  intros Hg Hs. pose proof (grains_to_slots_outcome g Hg grains sizes Hs) as Ho. unfold no_fuel.
  destruct (grains <? _); [by rewrite Ho|].
  pose proof (no_fuel_distribute g (sort_by (key_leb id) sizes) (2 ^ 63) grains).
  destruct (distribute_grains _ g _ grains) as [[n0 rem]|e]; [|congruence].
  destruct (rem =? 0); [|by rewrite Ho]. destruct Ho as (n & -> & _). done.
Qed.

Lemma mapM_getitem {A} (l : list A) ks xs :
  mapM (getitem l) ks = Ok xs → Forall2 (λ k x, l !! k = Some x) ks xs.
Proof.
  revert xs. induction ks as [|k ks IH]; intros xs H; cbn in H.
  - injection H as <-. constructor.
  - inv_ok. constructor; [|by apply IH]. unfold getitem in *. by inv_ok.
Qed.

(** ** The division over the pool groups *)

Section ratio_props.
Context (float_sum : list float → float).
Context (slot_size_lists : list (list Z)) (ratio_list : list float) (min_slots : list Z) (g : Z).
Context (Hg : 0 < g) (Hsizes : Forall sizes_wf slot_size_lists) (Hmins : Forall (λ m, 0 ≤ m) min_slots).

Definition grains_of (pg : nat) (n : Z) : Z :=
  match slot_size_lists !! pg with Some sizes => grains_for_slots n sizes g | None => 0 end.

(** Another slot does not fit in the group's grains. *)
Definition tight (pg : nat) (n : Z) : Prop := grains_of pg n < grains_of pg (n + 1).

Definition cost (counts : list Z) (pg : nat) : Z :=
  match counts !! pg with Some n => grains_of pg n | None => 0 end.

Lemma sizes_of pg sizes : slot_size_lists !! pg = Some sizes → sizes_wf sizes.
Proof. rewrite Forall_lookup in Hsizes. apply Hsizes. Qed.

Definition active_cost (active : list nat) (slots : list Z) (i : nat) : Z :=
  match active !! i, slots !! i with Some pg, Some n => grains_of pg n | _, _ => 0 end.

Lemma share_loop_ok active ratios idx_lst : ∀ slots budget slots' budget',
  share_loop float_sum slot_size_lists g active ratios idx_lst slots budget = Ok (slots', budget') →
  NoDup idx_lst → Forall (λ i, (i < length slots)%nat) idx_lst →
  length slots' = length slots ∧ (∀ i, i ∉ idx_lst → slots' !! i = slots !! i) ∧
  (∀ i, i ∈ idx_lst → ∃ n pg, slots' !! i = Some n ∧ active !! i = Some pg ∧ tight pg n) ∧
  zsum (active_cost active slots' <$> idx_lst) = budget - budget'.
Proof.
  induction idx_lst as [|idx rest IH]; intros slots budget slots' budget' H Hnd Hlt; cbn in H.
  { injection H as -> ->. split; [done|]. split; [done|]. split; [by intros i ?%not_elem_of_nil|].
    cbn. rewrite zsum_nil. lia. }
  inv_ok. unfold getitem in *. inv_ok. destruct v5 as [n used]. cbn in H.
  apply NoDup_cons in Hnd as [Hni Hnd]. apply Forall_cons in Hlt as [Hi Hlt].
  apply IH in H as (Hlen & Hsame & Hin & Hsum); [|done|by rewrite length_insert].
  rewrite length_insert in Hlen. split; [done|].
  assert (Hidx : slots' !! idx = Some n) by (rewrite Hsame by done; by apply list_lookup_insert_eq).
  apply grains_to_slots_ok in Hv5 as (_ & -> & _ & Ht & _); [|done|by eapply sizes_of].
  split; [|split].
  - intros i [Hne Hnr]%not_elem_of_cons. rewrite Hsame by done. by rewrite list_lookup_insert_ne.
  - intros i [->|Hir]%elem_of_cons; [|by apply Hin]. exists n, v3. split; [done|]. split; [done|].
    unfold tight, grains_of. by rewrite Hv4.
  - rewrite fmap_cons, zsum_cons, Hsum. unfold active_cost at 1. rewrite Hv3, Hidx.
    unfold grains_of. rewrite Hv4. lia.
Qed.

Definition entry_pg (e : nat * Z * Z) : nat := e.1.1.

Lemma accept_ok entries : ∀ counts,
  NoDup (entry_pg <$> entries) → Forall (λ e, (entry_pg e < length counts)%nat) entries →
  let counts' := accept entries counts in
  length counts' = length counts ∧ (∀ pg, pg ∉ entry_pg <$> entries → counts' !! pg = counts !! pg) ∧
  (∀ e, e ∈ entries → counts' !! entry_pg e = Some e.2).
Proof.
  induction entries as [|[[pg m] n] rest IH]; intros counts Hnd Hlt; cbn.
  { split; [done|]. split; [done|]. by intros e ?%not_elem_of_nil. }
  rewrite fmap_cons in Hnd. apply NoDup_cons in Hnd as [Hni Hnd]. apply Forall_cons in Hlt as [Hi Hlt].
  cbn in Hi, Hni. destruct (IH (<[pg := n]> counts)) as (Hlen & Hsame & Hin); [done|by rewrite length_insert|].
  rewrite length_insert in Hlen. split; [done|]. split.
  - intros pg' [Hne Hnr]%not_elem_of_cons. rewrite Hsame by done. by rewrite list_lookup_insert_ne.
  - intros e [->|He]%elem_of_cons; [|by apply Hin]. cbn. rewrite Hsame by done.
    by apply list_lookup_insert_eq.
Qed.

Lemma pin_ok entries : ∀ counts rem counts' rem',
  pin slot_size_lists g entries counts rem = Ok (counts', rem') →
  NoDup (entry_pg <$> entries) →
  Forall (λ e, (entry_pg e < length counts)%nat ∧ 0 ≤ e.1.2) entries →
  length counts' = length counts ∧ (∀ pg, pg ∉ entry_pg <$> entries → counts' !! pg = counts !! pg) ∧
  (∀ e, e ∈ entries → ∃ n, counts' !! entry_pg e = Some n ∧ e.1.2 ≤ n ∧
     grains_of (entry_pg e) n = grains_of (entry_pg e) e.1.2 ∧ tight (entry_pg e) n) ∧
  rem' = rem - zsum ((λ e, grains_of (entry_pg e) e.1.2) <$> entries).
Proof.
  induction entries as [|[[pg m] x] rest IH]; intros counts rem counts' rem' H Hnd Hlt; cbn in H.
  { injection H as -> ->. split; [done|]. split; [done|]. split; [by intros e ?%not_elem_of_nil|].
    cbn. rewrite zsum_nil. lia. }
  inv_ok. unfold getitem in *. inv_ok. destruct v0 as [n used]. cbn in H.
  rewrite fmap_cons in Hnd. apply NoDup_cons in Hnd as [Hni Hnd]. apply Forall_cons in Hlt as [[Hi Hm] Hlt].
  cbn in Hi, Hni, Hm. apply IH in H as (Hlen & Hsame & Hin & ->); [|done|by rewrite length_insert].
  rewrite length_insert in Hlen. split; [done|].
  pose proof (sizes_of _ _ Hv) as Hwf.
  apply grains_to_slots_ok in Hv0 as (Hn & -> & Hmax & Ht & Hfit); [|done..].
  assert (m ≤ n).
  { destruct (Z.le_gt_cases m n); [done|]. assert (Hc : n + 1 ≤ m) by lia.
    pose proof (s2g_mono g Hg _ _ _ (proj2 Hwf) Hc). lia. }
  assert (Heq : grains_for_slots n v g = grains_for_slots m v g).
  { apply Z.le_antisymm; [apply Hfit; by apply s2g_nonneg; [..|apply Hwf|]|].
    by apply s2g_mono; [..|apply Hwf|]. }
  split; [|split].
  - intros pg' [Hne Hnr]%not_elem_of_cons. rewrite Hsame by done. by rewrite list_lookup_insert_ne.
  - intros e [->|He]%elem_of_cons; [|by apply Hin]. exists n. cbn. rewrite Hsame by done.
    split; [by apply list_lookup_insert_eq|]. split; [done|]. unfold tight, grains_of. by rewrite Hv.
  - rewrite fmap_cons, zsum_cons. unfold entry_pg at 2, grains_of at 2. cbn [fst snd]. rewrite Hv. lia.
Qed.

Lemma entries_pgs (active : list nat) (mins slots : list Z) :
  length mins = length active → length slots = length active →
  entry_pg <$> zip (zip active mins) slots = active.
Proof.
  intros Hm Hs. transitivity ((zip (zip active mins) slots).*1.*1); [by rewrite <- list_fmap_compose|].
  rewrite fst_zip by (rewrite length_zip_with; lia). by rewrite fst_zip by lia.
Qed.

Lemma entries_lookup (active : list nat) (mins slots : list Z) i e :
  zip (zip active mins) slots !! i = Some e ↔
  active !! i = Some e.1.1 ∧ mins !! i = Some e.1.2 ∧ slots !! i = Some e.2.
Proof.
  destruct e as [[pg m] n]. rewrite !lookup_zip_Some. cbn. naive_solver.
Qed.

Lemma active_costs active mins slots :
  length mins = length active → length slots = length active →
  active_cost active slots <$> seq 0 (length active) =
  (λ e, grains_of (entry_pg e) e.2) <$> zip (zip active mins) slots.
Proof.
  intros Hm Hs. apply list_eq. intros i. rewrite !list_lookup_fmap.
  destruct (decide (i < length active)%nat) as [Hi|Hi].
  - rewrite lookup_seq_lt by done. cbn.
    destruct (lookup_lt_is_Some_2 active i) as [pg Hpg]; [done|].
    destruct (lookup_lt_is_Some_2 mins i) as [m Hmi]; [lia|].
    destruct (lookup_lt_is_Some_2 slots i) as [n Hni]; [lia|].
    assert (zip (zip active mins) slots !! i = Some (pg, m, n)) as -> by (by apply entries_lookup).
    cbn. unfold active_cost. by rewrite Hpg, Hni.
  - rewrite lookup_seq_ge, (lookup_ge_None_2 (zip _ _)); [done| |lia]. rewrite !length_zip_with. lia.
Qed.

(** A group that has its minimum and no room for more. *)
Definition settled (counts : list Z) (pg : nat) : Prop :=
  ∃ n m, counts !! pg = Some n ∧ min_slots !! pg = Some m ∧ m ≤ n ∧ tight pg n.

Lemma cost_eq counts counts' pg : counts !! pg = counts' !! pg → cost counts pg = cost counts' pg.
Proof. unfold cost. by intros ->. Qed.

Lemma settled_eq counts counts' pg : counts' !! pg = counts !! pg → settled counts pg → settled counts' pg.
Proof. unfold settled. by intros ->. Qed.

(** One turn of the loop: what the entries are, and what they cost. *)
Record round_ok (active : list nat) (rem : Z) (entries : list (nat * Z * Z)) : Prop := {
  ro_pgs : entry_pg <$> entries = active;
  ro_mins : ∀ e, e ∈ entries → min_slots !! entry_pg e = Some e.1.2 ∧ 0 ≤ e.1.2;
  ro_tight : ∀ e, e ∈ entries → tight (entry_pg e) e.2;
  ro_cost : zsum ((λ e, grains_of (entry_pg e) e.2) <$> entries) ≤ rem;
}.

Lemma round_is_ok active ratios mins slots budget rem :
  Forall2 (λ pg m, min_slots !! pg = Some m) active mins →
  share_loop float_sum slot_size_lists g active ratios (sort_by (ratio_leb ratios) (seq 0 (length active)))
    (replicate (length active) 0) rem = Ok (slots, budget) → 0 ≤ budget →
  round_ok active rem (zip (zip active mins) slots).
Proof.
  intros Hm Hs Hb. apply share_loop_ok in Hs as (Hlen & _ & Hin & Hsum).
  2:{ rewrite sort_by_perm. apply NoDup_seq. }
  2:{ rewrite sort_by_perm, length_replicate. apply Forall_forall. intros i Hi%elem_of_seq. lia. }
  rewrite length_replicate in Hlen. pose proof (Forall2_length _ _ _ Hm) as Hml. split.
  - by apply entries_pgs.
  - intros e [i He]%list_elem_of_lookup. apply entries_lookup in He as (H1 & H2 & _).
    assert (min_slots !! entry_pg e = Some e.1.2) as H3 by (by eapply (Forall2_lookup_lr _ _ _ _ _ _ Hm)).
    split; [done|]. rewrite Forall_lookup in Hmins. by eapply Hmins.
  - intros e [i He]%list_elem_of_lookup. apply entries_lookup in He as (H1 & _ & H2).
    destruct (Hin i) as (n & pg & Hn & Hpg & Ht); [|by unfold entry_pg; simplify_eq].
    rewrite sort_by_perm. apply elem_of_seq. apply lookup_lt_Some in H1. lia.
  - rewrite <- active_costs by lia. rewrite sort_by_perm in Hsum. lia.
Qed.

Lemma filter_split_perm {A} (P : A → Prop) `{∀ x, Decision (P x)} (l : list A) :
  l ≡ₚ filter P l ++ filter (λ x, ¬ P x) l.
Proof.
  induction l as [|x l IH]; [done|]. rewrite !filter_cons.
  destruct (decide (P x)), (decide (¬ P x)); try done; rewrite IH at 1; solve_Permutation.
Qed.

Lemma zsum_fmap_ext {A} (f h : A → Z) l : (∀ x, x ∈ l → f x = h x) → zsum (f <$> l) = zsum (h <$> l).
Proof.
  intros H. f_equal. apply list_fmap_ext. intros i x Hx. apply H. apply list_elem_of_lookup. eauto.
Qed.

(** What a run of the loop from [active] leaves. *)
Record peeled (active : list nat) (rem : Z) (counts counts' : list Z) : Prop := {
  pl_length : length counts' = length counts;
  pl_same : ∀ pg, pg ∉ active → counts' !! pg = counts !! pg;
  pl_settled : Forall (settled counts') active;
  pl_cost : zsum (cost counts' <$> active) ≤ rem ∨
    zsum (cost counts' <$> active) = zsum (cost min_slots <$> active);
}.

Lemma accept_peeled active rem entries counts :
  round_ok active rem entries → NoDup active → Forall (λ pg, (pg < length counts)%nat) active →
  filter constrained entries = [] → peeled active rem counts (accept entries counts).
Proof.
  intros [Hpg Hm Ht Hc] Hnd Hlt Hf. subst active. rewrite Forall_fmap in Hlt.
  destruct (accept_ok entries counts Hnd Hlt) as (Hlen & Hsame & Hin).
  split; [done|done|..].
  - apply Forall_fmap, Forall_forall. intros e He. exists e.2, e.1.2.
    split; [by apply Hin|]. split; [by apply Hm|]. split; [|by apply Ht].
    assert (¬ constrained e) as Hn; [|unfold constrained in Hn; lia]. intros Hcon.
    apply (not_elem_of_nil e). rewrite <- Hf. by apply list_elem_of_filter.
  - left. etransitivity; [|exact Hc]. apply Z.eq_le_incl. rewrite <- list_fmap_compose.
    apply zsum_fmap_ext. intros e He. cbn. unfold cost. by rewrite (Hin e He).
Qed.

Lemma pin_peeled active rem entries counts counts1 rem1 counts' :
  round_ok active rem entries → NoDup active → Forall (λ pg, (pg < length counts)%nat) active →
  pin slot_size_lists g (filter constrained entries) counts rem = Ok (counts1, rem1) →
  (filter (λ e, ¬ constrained e) entries = [] → counts' = counts1) →
  (filter (λ e, ¬ constrained e) entries ≠ [] →
     peeled (entry_pg <$> filter (λ e, ¬ constrained e) entries) rem1 counts1 counts') →
  length counts1 = length counts → 
  peeled active rem counts counts'.
Proof.
  intros [Hpg Hm Ht Hc] Hnd Hlt Hpin Hdone Hrest Hlen1. subst active. rewrite Forall_fmap in Hlt.
  set (pinned := filter constrained entries) in *.
  set (free := filter (λ e, ¬ constrained e) entries) in *.
  assert (Hperm : entries ≡ₚ pinned ++ free) by apply filter_split_perm.
  rewrite Hperm, fmap_app in Hnd. apply NoDup_app in Hnd as (Hnd1 & Hdis & Hnd2).
  apply pin_ok in Hpin as (_ & Hsame & Hin & Hrem); [|done|].
  2:{ apply Forall_forall. intros e [_ He]%list_elem_of_filter. rewrite Forall_forall in Hlt.
      split; [by apply Hlt|by apply Hm]. }
  assert (Hfree : peeled (entry_pg <$> free) rem1 counts1 counts').
  { destruct (decide (free = [])) as [Hf|Hf]; [|by apply Hrest].
    rewrite (Hdone Hf), Hf. split; [done|done|constructor|by right]. }
  destruct Hfree as [F1 F2 F3 F4].
  assert (Hpin' : ∀ e, e ∈ pinned → counts' !! entry_pg e = counts1 !! entry_pg e).
  { intros e He. apply F2. intros Hf. apply (Hdis (entry_pg e)); [|done]. by apply list_elem_of_fmap_2. }
  assert (Hcost : zsum (cost counts' <$> (entry_pg <$> pinned)) = rem - rem1 ∧
    zsum (cost min_slots <$> (entry_pg <$> pinned)) = rem - rem1).
  { rewrite <- !list_fmap_compose. split; rewrite Hrem; rewrite Z.sub_sub_distr, Z.sub_diag;
      apply zsum_fmap_ext; intros e He; cbn.
    - rewrite (cost_eq counts' counts1) by (by apply Hpin'). unfold cost.
      by destruct (Hin e He) as (n & -> & _ & -> & _).
    - unfold cost. destruct (Hm e) as [-> _]; [|done]. by apply list_elem_of_filter in He as [_ He]. }
  destruct Hcost as [Hc1 Hc2]. split.
  - by rewrite F1.
  - intros pg Hpg. rewrite Hperm, fmap_app in Hpg. apply not_elem_of_app in Hpg as [H1 H2].
    by rewrite F2, Hsame.
  - rewrite Hperm, fmap_app. apply Forall_app. split; [|done].
    apply Forall_fmap, Forall_forall. intros e He. destruct (Hin e He) as (n & Hn & Hmn & _ & Htn).
    exists n, e.1.2. rewrite Hpin' by done. split; [done|]. split; [|done].
    apply Hm. by apply list_elem_of_filter in He as [_ He].
  - rewrite Hperm, !fmap_app, !zsum_app, Hc1, Hc2. lia.
Qed.

Lemma peel_ok fuel : ∀ active counts rem counts',
  peel float_sum slot_size_lists ratio_list min_slots g fuel active counts rem = Ok counts' →
  NoDup active → Forall (λ pg, (pg < length counts)%nat) active →
  peeled active rem counts counts'.
Proof.
  induction fuel as [|fuel IH]; intros [|a active] counts rem counts' H Hnd Hlt;
    try (cbn in H; discriminate H);
    try (cbn in H; injection H as <-; split; [done|done|constructor|by right]).
  cbn [peel] in H. set (act := a :: active) in *. inv_ok. destruct v0 as [slots budget]. inv_ok.
  apply mapM_getitem in Hv2. apply Z.leb_le in Hv1.
  pose proof (round_is_ok _ _ _ _ _ _ Hv2 Hv0 Hv1) as Hr. cbv zeta in H.
  case_bool_decide as Hp; [injection H as <-; by apply accept_peeled|].
  inv_ok. destruct v2 as [counts1 rem1].
  assert (Hlen1 : length counts1 = length counts).
  { apply pin_ok in Hv3 as [? _]; [done|..].
    - rewrite <- (ro_pgs _ _ _ Hr) in Hnd. by eapply sublist_NoDup; [|apply fmap_sublist, sublist_filter].
    - apply Forall_forall. intros e [_ He]%list_elem_of_filter. split; [|by apply (ro_mins _ _ _ Hr)].
      rewrite Forall_forall in Hlt. apply Hlt. rewrite <- (ro_pgs _ _ _ Hr). by apply list_elem_of_fmap_2. }
  apply (pin_peeled act rem _ counts counts1 rem1 counts' Hr Hnd Hlt Hv3); [..|done].
  - intros Hf. rewrite bool_decide_eq_true_2 in H by done. by injection H.
  - intros Hf. rewrite bool_decide_eq_false_2 in H by done. destruct (rem1 <=? 0); [done|].
    apply IH in H.
    + rewrite <- list_fmap_compose in H. exact H.
    + rewrite <- list_fmap_compose. rewrite <- (ro_pgs _ _ _ Hr) in Hnd.
      by eapply sublist_NoDup; [|apply (fmap_sublist entry_pg), sublist_filter].
    + rewrite <- list_fmap_compose. apply Forall_fmap, Forall_forall. intros e [_ He]%list_elem_of_filter.
      rewrite Hlen1. rewrite Forall_forall in Hlt. apply (Hlt (entry_pg e)).
      rewrite <- (ro_pgs _ _ _ Hr). by apply list_elem_of_fmap_2.
Qed.

(** ** The last loop changes nothing *)

Lemma while_exit {S A} bound (f : S → S + A) s a : f s = inr a → while_ bound f s = Ok a.
Proof.
  intros H. unfold while_. assert (loop_pos (Z.to_pos bound) f s = inr a) as ->; [|done].
  induction (Z.to_pos bound) as [p IH|p IH|]; cbn; by rewrite ?H, ?IH.
Qed.

Lemma bump_id counts sizes :
  Forall2 (λ n s, grains_for_slots n s g < grains_for_slots (n + 1) s g) counts sizes →
  bump g counts sizes = Ok counts.
Proof.
  induction 1 as [|n s counts sizes Hn _ IH]; [done|]. cbn.
  rewrite (while_exit _ _ _ n); [cbn; by rewrite IH|].
  unfold bump_step. by destruct (Z.leb_spec (grains_for_slots (n + 1) s g) (grains_for_slots n s g)); [lia|].
Qed.

(** ** The loops return *)

Lemma no_fuel_share_loop active ratios idx_lst slots budget :
  no_fuel (share_loop float_sum slot_size_lists g active ratios idx_lst slots budget).
Proof.
  revert slots budget. induction idx_lst as [|idx rest IH]; intros slots budget; cbn; [done|].
  do 6 (apply no_fuel_bind; [auto with fuel|intros ? ?]).
  apply no_fuel_bind; [|by intros []]. apply no_fuel_grains_to_slots; [done|].
  unfold getitem in *. inv_ok. by eapply sizes_of.
Qed.

Lemma no_fuel_pin entries counts rem : no_fuel (pin slot_size_lists g entries counts rem).
Proof.
  revert counts rem. induction entries as [|[[pg m] x] rest IH]; intros counts rem; cbn; [done|].
  apply no_fuel_bind; [auto with fuel|intros sizes Hsz]. apply no_fuel_bind; [|by intros []].
  apply no_fuel_grains_to_slots; [done|]. unfold getitem in *. inv_ok. by eapply sizes_of.
Qed.

Lemma free_shorter (entries : list (nat * Z * Z)) :
  filter constrained entries ≠ [] →
  (length (filter (λ e, ¬ constrained e) entries) < length entries)%nat.
Proof.
  intros H. rewrite (filter_split_perm constrained entries) at 2. rewrite length_app.
  destruct (filter constrained entries); [done|]. cbn. lia.
Qed.

Lemma no_fuel_peel fuel : ∀ active counts rem,
  (length active ≤ fuel)%nat →
  no_fuel (peel float_sum slot_size_lists ratio_list min_slots g fuel active counts rem).
Proof.
  induction fuel as [|fuel IH]; intros [|a active] counts rem Hl; try done; [cbn in Hl; lia|].
  cbn [peel]. set (act := a :: active) in *. apply no_fuel_bind; [auto with fuel|intros ratios _].
  apply no_fuel_bind; [apply no_fuel_share_loop|intros [slots budget] _].
  apply no_fuel_bind; [auto with fuel|intros _ _].
  apply no_fuel_bind; [auto with fuel|intros mins Hmin]. case_bool_decide as Hp; [done|].
  apply no_fuel_bind; [apply no_fuel_pin|intros [counts1 rem1] _]. case_bool_decide; [done|].
  destruct (rem1 <=? 0); [done|]. apply IH. rewrite !length_fmap.
  pose proof (free_shorter _ Hp) as Hlt. rewrite !length_zip_with in Hlt. lia.
Qed.

(** ** The quota of a level *)

Definition bytes_for (counts : list Z) : Z :=
  zsum (zip_with (λ n sizes, zsum ((λ s, round_up (n * s) g) <$> sizes)) counts slot_size_lists).

Lemma group_bytes n sizes :
  zsum ((λ s, round_up (n * s) g) <$> sizes) = grains_for_slots n sizes g * g.
Proof.
  unfold grains_for_slots, round_up. induction sizes as [|s sizes IH]; [done|].
  rewrite !fmap_cons, !zsum_cons, IH. lia.
Qed.

Lemma cost_seq counts :
  length counts = length slot_size_lists →
  bytes_for counts = zsum (cost counts <$> seq 0 (length slot_size_lists)) * g.
Proof.
  intros Hl. unfold bytes_for.
  assert (zip_with (λ n sizes, zsum ((λ s, round_up (n * s) g) <$> sizes)) counts slot_size_lists =
    (λ pg, cost counts pg * g) <$> seq 0 (length slot_size_lists)) as ->.
  { apply list_eq. intros i. rewrite lookup_zip_with, list_lookup_fmap.
    destruct (decide (i < length counts)%nat) as [Hi|Hi].
    - rewrite lookup_seq_lt by lia. cbn. unfold cost, grains_of.
      destruct (lookup_lt_is_Some_2 counts i Hi) as [n ->].
      destruct (lookup_lt_is_Some_2 slot_size_lists i) as [sizes ->]; [lia|]. cbn. by rewrite group_bytes.
    - rewrite lookup_seq_ge by lia. by rewrite (lookup_ge_None_2 counts) by lia. }
  induction (seq 0 _) as [|pg l IH]; [done|]. rewrite !fmap_cons, !zsum_cons, IH. lia.
Qed.

Lemma peel_all grains counts :
  let N := length slot_size_lists in
  peel float_sum slot_size_lists ratio_list min_slots g N (seq 0 N) (replicate N 0) grains = Ok counts →
  length counts = N ∧ (∀ pg, (pg < N)%nat → settled counts pg) ∧
  bump g counts slot_size_lists = Ok counts ∧
  (zsum (cost counts <$> seq 0 N) ≤ grains ∨
   zsum (cost counts <$> seq 0 N) = zsum (cost min_slots <$> seq 0 N)).
Proof.
  intros N H. apply peel_ok in H as [Hlen _ Hset Hcost]; [|apply NoDup_seq|].
  2:{ apply Forall_forall. intros i Hi%elem_of_seq. rewrite length_replicate. lia. }
  rewrite length_replicate in Hlen. rewrite Forall_forall in Hset.
  assert (Hall : ∀ pg, (pg < N)%nat → settled counts pg).
  { intros pg Hpg. apply Hset, elem_of_seq. lia. }
  split; [done|]. split; [done|]. split; [|done]. apply bump_id.
  apply Forall2_same_length_lookup_2; [done|]. intros i n sizes Hn Hs.
  destruct (Hall i) as (n' & m & Hn' & _ & _ & Ht); [by eapply lookup_lt_Some|]. simplify_eq.
  unfold tight, grains_of in Ht. by rewrite Hs in Ht.
Qed.

Lemma ratio_to_slot_count_ok total counts :
  length min_slots = length slot_size_lists →
  ratio_to_slot_count_list float_sum slot_size_lists ratio_list min_slots g total = Ok counts →
  length counts = length slot_size_lists ∧
  (∀ pg, (pg < length slot_size_lists)%nat → settled counts pg) ∧
  (bytes_for counts ≤ total ∨ bytes_for counts = bytes_for min_slots).
Proof.
  intros Hlm H. unfold ratio_to_slot_count_list in H. rewrite (proj2 (Z.eqb_neq g 0)) in H by lia. inv_ok.
  apply Nat.eqb_eq in Hv0. rewrite Hv0 in *.
  match goal with Hp : peel _ _ _ _ _ _ _ _ _ = Ok _ |- _ =>
    apply peel_all in Hp as (Hlen & Hset & Hb & Hcost) end.
  rewrite Hb in H. injection H as <-. split; [done|]. split; [done|]. rewrite !cost_seq by done.
  pose proof (Z.mul_div_le total g Hg). destruct Hcost as [Hc|Hc]; [left; nia|right; by rewrite Hc].
Qed.

Lemma no_fuel_ratio total :
  no_fuel (ratio_to_slot_count_list float_sum slot_size_lists ratio_list min_slots g total).
Proof.
  unfold ratio_to_slot_count_list. rewrite (proj2 (Z.eqb_neq g 0)) by lia.
  apply no_fuel_bind; [auto with fuel|intros _ _].
  apply no_fuel_bind; [auto with fuel|intros _ ->%py_assert_ok%Nat.eqb_eq].
  do 3 (apply no_fuel_bind; [auto with fuel|intros _ _]). apply no_fuel_bind.
  - apply no_fuel_peel. by rewrite length_seq.
  - intros counts (_ & _ & -> & _)%peel_all. done.
Qed.
End ratio_props.

(** ** What callers get *)

(** [_grains_to_slots] returns the largest slot count of a pool group
    that fits the grains it is given, with the grains those slots need: zero
    slots when not even one fits; otherwise, when its proportional split of
    the grains over the pools adds up, a count that fits and whose successor
    does not.  The search for it always ends. *)
Theorem grains_to_slots_is_maximal grains sizes g :
  0 < g → sizes_wf sizes →
  (grains < grains_for_slots 1 sizes g → grains_to_slots grains sizes g = Ok (0, 0)) ∧
  (grains_for_slots 1 sizes g ≤ grains →
   match distribute_grains (sort_by (key_leb id) sizes) g (2 ^ 63) grains with
   | Ok (_, 0) => ∃ n, grains_to_slots grains sizes g = Ok (n, grains_for_slots n sizes g) ∧
       ∀ k, grains_for_slots k sizes g ≤ grains ↔ k ≤ n
   | Ok _ => grains_to_slots grains sizes g = Raise AssertionError
   | Raise e => grains_to_slots grains sizes g = Raise e
   end).
Proof.
  intros Hg Hs. pose proof (grains_to_slots_outcome g Hg grains sizes Hs) as Ho.
  destruct (Z.ltb_spec grains (grains_for_slots 1 sizes g)); (split; [|intros]); try done; try lia.
  destruct (distribute_grains _ _ _ _) as [[n0 rem]|e]; [|done].
  destruct rem as [|rem|rem]; [|done..]. destruct Ho as (n & Hn & Hpos & Hfit & Hmax).
  exists n. split; [done|]. intros k. destruct Hs as [_ Hs]. split; intros Hk.
  - destruct (Z.le_gt_cases k n); [done|].
    pose proof (s2g_mono g Hg sizes (n + 1) k Hs ltac:(lia)). lia.
  - pose proof (s2g_mono g Hg sizes k n Hs ltac:(lia)). lia.
Qed.

(** C20: sizing a cache level always ends.  The slot counts it returns give
    every pool group its minimum, fill the memory each group gets (one more
    slot would need another grain), and together fit in the level's quota,
    which is the tier's quota or the memory of the minimum counts. *)
Theorem level_sizing_fits_quota float_sum slot_size_lists ratio_list min_slots g tier_quota :
  0 < g → Forall sizes_wf slot_size_lists → Forall (λ m, 0 ≤ m) min_slots →
  length min_slots = length slot_size_lists →
  let r := compute_slot_count_for_level float_sum slot_size_lists ratio_list min_slots g tier_quota in
  r ≠ Raise OutOfFuel ∧
  ∀ counts, r = Ok counts →
    Forall2 Z.le min_slots counts ∧
    Forall2 (λ n sizes, grains_for_slots n sizes g < grains_for_slots (n + 1) sizes g)
      counts slot_size_lists ∧
    bytes_for slot_size_lists g counts ≤
      Z.max (min_quota_for_level slot_size_lists min_slots g) (round_up tier_quota g).
Proof.
  intros Hg Hs Hm Hl r. subst r. unfold compute_slot_count_for_level.
  split; [by apply no_fuel_ratio|]. intros counts Hc.
  apply ratio_to_slot_count_ok in Hc as (Hlen & Hset & Hq); [|done..]. split; [|split].
  - apply Forall2_same_length_lookup_2; [congruence|]. intros i m n Hmi Hni.
    destruct (Hset i) as (n' & m' & H1 & H2 & H3 & _); [|by simplify_eq].
    rewrite <- Hl. by eapply lookup_lt_Some.
  - apply Forall2_same_length_lookup_2; [congruence|]. intros i n sizes Hni Hsi.
    destruct (Hset i) as (n' & m' & H1 & _ & _ & Ht); [by eapply lookup_lt_Some|]. simplify_eq.
    unfold tight, grains_of in Ht. by rewrite Hsi in Ht.
  - unfold bytes_for, min_quota_for_level in *. lia.
Qed.

(** ** Witnesses *)

(** [sum] of floats from left to right. *)
Definition left_sum (l : list float) : float := foldl float_add (S754_zero false) l.

Definition tenths (n : Z) : float :=
  match int_truediv n 10 with Ok f => f | Raise _ => S754_nan end.

(** The proportional split does not always add up.  A group with one pool
    of one grain per slot and three of a little more needs seven grains for
    its first slot; given exactly those, the shares are rounded up to eight
    and [_grains_to_slots] fails its assertion.  Sizing a level whose quota is
    that minimum fails with it. *)
Example grains_split_can_fail :
  let g := 2 * 2 ^ 20 in
  let sizes := [g; g + g / 10; g + g / 10; g + g / 10] in
  grains_for_slots 1 sizes g = 7 ∧
  grains_to_slots 7 sizes g = Raise AssertionError ∧
  compute_slot_count_for_level left_sum [sizes] [tenths 10] [1] g 1 = Raise AssertionError.
Proof. vm_compute. done. Qed.

Ltac all_pos := repeat (apply Forall_cons; split; [lia|]); apply Forall_nil; exact I.

Definition ex_sizes : list (list Z) :=
  [[16252928; 4063232]; [491520; 126720; 15872]; [31457280; 7864320]].

Lemma ex_sizes_wf : Forall sizes_wf ex_sizes.
Proof. repeat (constructor; [split; [done|all_pos]|]); constructor. Qed.

Lemma grains_to_slots_witness :
  ∃ n, grains_to_slots 200 [16252928; 4063232] (2 ^ 24) =
         Ok (n, grains_for_slots n [16252928; 4063232] (2 ^ 24)) ∧
       ∀ k, grains_for_slots k [16252928; 4063232] (2 ^ 24) ≤ 200 ↔ k ≤ n.
Proof.
  refine (proj2 (grains_to_slots_is_maximal 200 [16252928; 4063232] (2 ^ 24) _ _) _).
  - lia.
  - split; [done|all_pos].
  - vm_compute. congruence.
Defined.

(** The sizes and ratios of [test_ratio_to_slot_count_list_preserves_min_slots]. *)
Lemma level_sizing_witness :
  compute_slot_count_for_level left_sum ex_sizes [tenths 2; tenths 5; tenths 3] [157; 3907; 157]
    (2 ^ 24) 1 = Ok [157; 3925; 157] ∧
  bytes_for ex_sizes (2 ^ 24) [157; 3925; 157] ≤ 11911823360.
Proof.
  assert (H : compute_slot_count_for_level left_sum ex_sizes [tenths 2; tenths 5; tenths 3]
    [157; 3907; 157] (2 ^ 24) 1 = Ok [157; 3925; 157]) by (vm_compute; reflexivity).
  split; [exact H|].
  refine (proj2 (proj2 (proj2 (level_sizing_fits_quota left_sum ex_sizes
    [tenths 2; tenths 5; tenths 3] [157; 3907; 157] (2 ^ 24) 1 _ _ _ _) _ H))).
  - lia.
  - apply ex_sizes_wf.
  - all_pos.
  - reflexivity.
Defined.
