(* ===== verification/LifeCycle.v ===== *)
(** * Life cycles ([kv_cache_manager_v2/_life_cycle_registry.py])

    A life cycle says which blocks of a sequence a layer still needs: all of
    them for full attention, a sliding window and the attention sinks for SWA,
    the last state for an SSM layer.  Layers with equal life cycles share an
    id.

    Proved: a block is stale exactly when it holds no sink and lies before
    the window of the next token; scratch blocks hold no history and are
    stale for good; ids and life cycles are in bijection. *)

From S2P Require Import Prelude KvUtils.

Local Open Scope Z_scope.

Record AttnLifeCycle := mkAttn {
  window_size : option Z;
  num_sink_blocks : Z;
}.

Inductive LifeCycle :=
| Attn (lc : AttnLifeCycle)
| Ssm.

#[global] Instance AttnLifeCycle_eq_dec : EqDecision AttnLifeCycle.
Proof. solve_decision. Defined.

#[global] Instance LifeCycle_eq_dec : EqDecision LifeCycle.
Proof. solve_decision. Defined.

#[global] Instance LifeCycle_countable : Countable LifeCycle.
Proof.
  refine (inj_countable'
    (λ lc, match lc with Attn a => Some (window_size a, num_sink_blocks a) | Ssm => None end)
    (λ o, match o with Some (w, n) => Attn (mkAttn w n) | None => Ssm end) _).
  by intros [[]|].
Defined.

(** [AttnLifeCycle.make] *)
Definition make_attn (window_size num_sink_tokens : option Z) (tokens_per_block : Z) :
    result AttnLifeCycle :=
  py_assert (0 <? tokens_per_block) ≫= λ _,
  py_assert (match window_size with None => true | Some w => 0 <? w end) ≫= λ _,
  py_assert (match num_sink_tokens with None => true | Some s => 0 <=? s end) ≫= λ _,
  py_assert (match num_sink_tokens with
             | None | Some 0 => true
             | _ => bool_decide (is_Some window_size)
             end) ≫= λ _,
  Ok (mkAttn window_size (div_up (default 0 num_sink_tokens) tokens_per_block)).

Definition attn_stale_range (lc : AttnLifeCycle) (history_length tokens_per_block : Z) : HalfOpenRange :=
  let num_blocks := div_up history_length tokens_per_block in
  let start := Z.min num_blocks (num_sink_blocks lc) in
  match window_size lc with
  | None => mkRange start start
  | Some w => mkRange start (Z.max start ((history_length + 1 - w) / tokens_per_block))
  end.

Definition ssm_stale_range (history_length tokens_per_block : Z) : HalfOpenRange :=
  mkRange 0 (history_length / tokens_per_block).

Definition get_stale_range (lc : LifeCycle) (history_length tokens_per_block : Z) : HalfOpenRange :=
  match lc with
  | Attn a => attn_stale_range a history_length tokens_per_block
  | Ssm => ssm_stale_range history_length tokens_per_block
  end.

Definition compute_scratch_range (life_cycle : LifeCycle)
    (history_length capacity tokens_per_block max_rewind_len : Z) : HalfOpenRange :=
  match life_cycle with
  | Attn (mkAttn (Some _) _ as a) =>
      let non_rewindable_capacity := Z.max 0 (capacity - max_rewind_len) in
      let cap_stale := attn_stale_range a non_rewindable_capacity tokens_per_block in
      let input_range := mkRange (div_up history_length tokens_per_block)
                           (div_up capacity tokens_per_block) in
      intersect cap_stale input_range
  | _ => mkRange 0 0
  end.

(** ** The registry *)

Inductive LayerConfig :=
| AttentionLayerConfig (layer_window_size layer_num_sink_tokens : option Z)
| SsmLayerConfig.

Definition make_life_cycle (layer : LayerConfig) (tokens_per_block : Z) : result LifeCycle :=
  match layer with
  | SsmLayerConfig => Ok Ssm
  | AttentionLayerConfig w s => a ← make_attn w s tokens_per_block; Ok (Attn a)
  end.

Record LifeCycleRegistry := mkRegistry {
  _life_cycle_list : list LifeCycle;
  _life_cycle_id_dict : gmap LifeCycle Z;
}.

Fixpoint register (layers : list LayerConfig) (tokens_per_block : Z) (r : LifeCycleRegistry) :
    result LifeCycleRegistry :=
  match layers with
  | [] => Ok r
  | layer :: layers =>
      details ← make_life_cycle layer tokens_per_block;
      match _life_cycle_id_dict r !! details with
      | Some _ => register layers tokens_per_block r
      | None =>
          py_assert (bool_decide (size (_life_cycle_id_dict r) = length (_life_cycle_list r))) ≫= λ _,
          let l := _life_cycle_list r ++ [details] in
          register layers tokens_per_block
            (mkRegistry l (<[details := Z.of_nat (length l) - 1]> (_life_cycle_id_dict r)))
      end
  end.

Definition registry_init (layers : list LayerConfig) (tokens_per_block : Z) : result LifeCycleRegistry :=
  register layers tokens_per_block (mkRegistry [] ∅).

Definition get_life_cycle (r : LifeCycleRegistry) (id : Z) : result LifeCycle :=
  py_getitem (_life_cycle_list r) id.

Definition get_id (r : LifeCycleRegistry) (lc : LifeCycle) : result Z :=
  of_option KeyError (_life_cycle_id_dict r !! lc).

Definition registry_size (r : LifeCycleRegistry) : result Z :=
  py_assert (bool_decide (length (_life_cycle_list r) = size (_life_cycle_id_dict r))) ≫= λ _,
  Ok (Z.of_nat (length (_life_cycle_list r))).

Definition contains (r : LifeCycleRegistry) (lc : LifeCycle) : bool :=
  bool_decide (is_Some (_life_cycle_id_dict r !! lc)).

Definition ssm_life_cycle_id (r : LifeCycleRegistry) : option Z := _life_cycle_id_dict r !! Ssm.

Definition has_ssm (r : LifeCycleRegistry) : bool := contains r Ssm.

(** [items] and [attention_life_cycles], as the lists they yield. *)
Definition items (r : LifeCycleRegistry) : list (Z * LifeCycle) :=
  imap (λ i lc, (Z.of_nat i, lc)) (_life_cycle_list r).

Definition attention_life_cycles (r : LifeCycleRegistry) : list (Z * AttnLifeCycle) :=
  omap (λ e, match e.2 with Attn a => Some (e.1, a) | Ssm => None end) (items r).

(** ** Stale blocks *)

(** Block [b] holds the tokens from [b * tpb] on.  Attention for the token at
    position [h] sees the positions from [h + 1 - w] on. *)
Lemma attn_stale_spec w sinks h tpb b :
  0 < tpb → 0 < w → 0 ≤ sinks →
  range_contains (attn_stale_range (mkAttn (Some w) sinks) h tpb) b = true ↔
  sinks ≤ b ∧ (b + 1) * tpb ≤ h + 1 - w.
Proof.
  intros Htpb Hw Hs. unfold range_contains, attn_stale_range. cbn [window_size num_sink_blocks beg end_].
  rewrite andb_true_iff, Z.leb_le, Z.ltb_lt.
  pose proof (div_up_bounds h tpb Htpb) as Hb.
  pose proof (Z.div_mod (h + 1 - w) tpb ltac:(lia)) as Hd.
  pose proof (Z.mod_pos_bound (h + 1 - w) tpb Htpb) as Hm.
  set (q := (h + 1 - w) / tpb) in *. set (nb := div_up h tpb) in *.
  assert (Hq : (b + 1) * tpb ≤ h + 1 - w ↔ b < q) by (split; intros; nia).
  assert (q ≤ nb) by nia. rewrite Hq. lia.
Qed.

(** A block is stale exactly when no token still to come can see it.
    With a sliding window of [w] tokens, a block is stale at history length
    [h] if and only if it is past the sink blocks and all its tokens come
    before the window of the next token; without a window no block is; an
    SSM layer needs only the block being written. *)
Theorem stale_range_exact lc h tpb b :
  0 < tpb → 0 ≤ b →
  (∀ a, lc = Attn a → 0 ≤ num_sink_blocks a ∧ ∀ w, window_size a = Some w → 0 < w) →
  (range_contains (get_stale_range lc h tpb) b = true ↔
   match lc with
   | Attn (mkAttn None _) => False
   | Attn (mkAttn (Some w) sinks) =>
       sinks ≤ b ∧ ∀ t, b * tpb ≤ t < (b + 1) * tpb → t < h + 1 - w
   | Ssm => ∀ t, b * tpb ≤ t < (b + 1) * tpb → t < h
   end).
Proof.
  intros Htpb Hb Hlc. destruct lc as [[[w|] sinks]|]; cbn [get_stale_range].
  - destruct (Hlc _ eq_refl) as [Hs Hw]. rewrite attn_stale_spec by (try done; by apply Hw).
    split; intros [H1 H2]; (split; [done|]); [intros; lia|]. specialize (H2 ((b + 1) * tpb - 1)). lia.
  - unfold range_contains, attn_stale_range. cbn. lia.
  - unfold range_contains, ssm_stale_range. cbn [beg end_]. rewrite andb_true_iff, Z.leb_le, Z.ltb_lt.
    pose proof (Z.div_mod h tpb ltac:(lia)). pose proof (Z.mod_pos_bound h tpb Htpb).
    split; [intros; nia|]. intros H1. specialize (H1 ((b + 1) * tpb - 1)). nia.
Qed.

(** C26: scratch blocks can be shared.  A scratch block holds no token of the
    history, lies within the capacity, is past the sinks, and is stale at
    every later history length that keeps the tokens that cannot be rewound,
    so no token still to come reads it. *)
Theorem scratch_blocks_are_dead lc h cap tpb rewind b h' :
  0 < tpb → 0 ≤ rewind →
  (∀ a, lc = Attn a → 0 ≤ num_sink_blocks a ∧ ∀ w, window_size a = Some w → 0 < w) →
  range_contains (compute_scratch_range lc h cap tpb rewind) b = true →
  Z.max 0 (cap - rewind) ≤ h' →
  h ≤ b * tpb ∧ (b + 1) * tpb ≤ cap ∧ range_contains (get_stale_range lc h' tpb) b = true.
Proof.
  intros Htpb Hrw Hlc Hc Hh. destruct lc as [[[w|] sinks]|]; cbn [compute_scratch_range] in Hc;
    [|unfold range_contains in Hc; cbn in Hc; lia..].
  destruct (Hlc _ eq_refl) as [Hs Hw]. specialize (Hw w eq_refl). cbn in Hs.
  rewrite intersect_contains in Hc. apply andb_prop in Hc as [H1 H2].
  apply attn_stale_spec in H1 as [Hsink Hlive]; [|done..].
  unfold range_contains in H2. cbn [beg end_] in H2. apply andb_prop in H2 as [H2 _].
  apply Z.leb_le, div_up_spec in H2; [|done]. split; [done|].
  assert (0 ≤ b) by lia. split; [nia|]. cbn [get_stale_range]. apply attn_stale_spec; [done..|].
  split; [done|lia].
Qed.

(** ** The registry's ids *)

Record registry_wf (r : LifeCycleRegistry) : Prop := {
  rw_ids : ∀ lc id, _life_cycle_id_dict r !! lc = Some id ↔
    0 ≤ id ∧ _life_cycle_list r !! Z.to_nat id = Some lc;
  rw_size : size (_life_cycle_id_dict r) = length (_life_cycle_list r);
}.

Lemma register_fresh r lc :
  registry_wf r → _life_cycle_id_dict r !! lc = None →
  let l := _life_cycle_list r ++ [lc] in
  registry_wf (mkRegistry l (<[lc := Z.of_nat (length l) - 1]> (_life_cycle_id_dict r))).
Proof.
  intros [Hids Hsz] Hn l. subst l. split; cbn.
  - intros lc' id. rewrite length_app. cbn.
    assert (Hlt : ∀ k lc, _life_cycle_list r !! k = Some lc → (k < length (_life_cycle_list r))%nat)
      by (intros; by eapply lookup_lt_Some).
    destruct (decide (lc = lc')) as [<-|Hne].
    + rewrite lookup_insert_eq. split.
      * intros [= <-]. split; [lia|]. apply list_lookup_middle. lia.
      * intros [Hid H]. f_equal. apply lookup_app_Some in H as [H|[Hge H]].
        -- assert (_life_cycle_id_dict r !! lc = Some id) by (by apply Hids). congruence.
        -- apply list_lookup_singleton_Some in H as [H _]. lia.
    + rewrite lookup_insert_ne by done. rewrite Hids. split; intros [Hid H]; (split; [done|]).
      * by apply lookup_app_l_Some.
      * apply lookup_app_Some in H as [H|[_ H]]; [done|].
        apply list_lookup_singleton_Some in H as [_ H]. congruence.
  - rewrite map_size_insert_None by done. rewrite length_app, Hsz. cbn. lia.
Qed.

Lemma register_ok tpb layers : ∀ r,
  registry_wf r → (∀ layer, layer ∈ layers → ∃ lc, make_life_cycle layer tpb = Ok lc) →
  ∃ r', register layers tpb r = Ok r' ∧ registry_wf r' ∧
    ∀ lc, lc ∈ _life_cycle_list r' ↔
      lc ∈ _life_cycle_list r ∨ ∃ layer, layer ∈ layers ∧ make_life_cycle layer tpb = Ok lc.
Proof.
  induction layers as [|layer layers IH]; intros r Hwf Hmk; cbn [register].
  { exists r. split; [done|]. split; [done|]. intros lc. split; [by left|].
    intros [?|(? & ?%not_elem_of_nil & _)]; done. }
  destruct (Hmk layer) as [lc Hlc]; [left|]. rewrite Hlc. cbn.
  assert (Hmk' : ∀ l, l ∈ layers → ∃ lc, make_life_cycle l tpb = Ok lc) by (intros; apply Hmk; by right).
  destruct (_life_cycle_id_dict r !! lc) as [id|] eqn:Hid.
  - destruct (IH r Hwf Hmk') as (r' & Hr & Hwf' & Hin). exists r'. split; [done|]. split; [done|].
    intros lc'. rewrite Hin. apply (rw_ids _ Hwf) in Hid as [_ Hl]. apply list_elem_of_lookup_2 in Hl.
    split; [set_solver|]. intros [?|(l & [->|Hl']%elem_of_cons & Hm)]; [by left| |by eauto].
    left. rewrite Hlc in Hm. by injection Hm as <-.
  - rewrite bool_decide_eq_true_2 by apply (rw_size _ Hwf). cbn.
    destruct (IH _ (register_fresh r lc Hwf Hid) Hmk') as (r' & Hr & Hwf' & Hin).
    exists r'. split; [done|]. split; [done|]. intros lc'. rewrite Hin. cbn.
    rewrite elem_of_app, list_elem_of_singleton. split.
    + intros [[?| ->]|(l & Hl & Hm)]; [by left| |]; right; [exists layer|exists l]; (split; [|done]); by constructor.
    + intros [?|(l & [->|Hl]%elem_of_cons & Hm)]; [by left; left| |by right; eauto].
      left. right. rewrite Hlc in Hm. by injection Hm as <-.
Qed.

(** The registry gives every distinct life cycle of the layers exactly
    one id: construction succeeds when every layer's configuration is valid,
    ids are [0] to [size - 1], and [get_id] and [get_life_cycle] are
    inverse. *)
Theorem registry_is_bijection layers tpb :
  (∀ layer, layer ∈ layers → is_ok (make_life_cycle layer tpb) = true) →
  ∃ r, registry_init layers tpb = Ok r ∧
    registry_size r = Ok (Z.of_nat (length (_life_cycle_list r))) ∧
    (∀ lc id, get_id r lc = Ok id ↔ 0 ≤ id ∧ get_life_cycle r id = Ok lc) ∧
    (∀ lc, contains r lc = true ↔ ∃ layer, layer ∈ layers ∧ make_life_cycle layer tpb = Ok lc).
Proof.
  intros Hmk. destruct (register_ok tpb layers (mkRegistry [] ∅)) as (r & Hr & Hwf & Hin).
  - split; cbn; [|done]. intros lc id. rewrite lookup_empty, lookup_nil. naive_solver.
  - intros l Hl. specialize (Hmk l Hl). destruct (make_life_cycle l tpb); [eauto|done].
  - exists r. split; [done|]. split; [|split].
    + unfold registry_size. by rewrite bool_decide_eq_true_2 by (symmetry; apply Hwf).
    + intros lc id. unfold get_id, get_life_cycle. rewrite of_option_ok, (rw_ids _ Hwf).
      split; intros [Hid H]; (split; [done|]); [by apply py_getitem_nonneg|].
      unfold py_getitem in H. apply of_option_ok, bind_Some in H as (k & Hk & H).
      unfold py_index in Hk. repeat case_bool_decide; try lia; by simplify_eq.
    + intros lc. unfold contains. rewrite bool_decide_eq_true. split.
      * intros [id Hid]. apply (rw_ids _ Hwf) in Hid as [_ H]. apply list_elem_of_lookup_2, Hin in H.
        destruct H as [H%not_elem_of_nil|H]; done.
      * intros H. assert (lc ∈ _life_cycle_list r) as [k Hk]%list_elem_of_lookup by (apply Hin; by right).
        exists (Z.of_nat k). apply (rw_ids _ Hwf). rewrite Nat2Z.id. split; [lia|done].
Qed.

(** ** Witnesses *)

Definition ex_layers : list LayerConfig :=
  [AttentionLayerConfig None None; AttentionLayerConfig (Some 128) (Some 4); SsmLayerConfig;
   AttentionLayerConfig (Some 128) (Some 4)].

Lemma registry_witness :
  ∃ r, registry_init ex_layers 32 = Ok r ∧ registry_size r = Ok 3 ∧
    get_id r (Attn (mkAttn (Some 128) 1)) = Ok 1 ∧ get_life_cycle r 1 = Ok (Attn (mkAttn (Some 128) 1)).
Proof.
  assert (Hok : ∀ layer, layer ∈ ex_layers → is_ok (make_life_cycle layer 32) = true).
  { intros layer. unfold ex_layers. rewrite !elem_of_cons, elem_of_nil.
    by intros [->|[->|[->|[->|[]]]]]. }
  destruct (registry_is_bijection ex_layers 32 Hok) as (r & Hr & Hs & Hb & _).
  assert (Hreg : registry_init ex_layers 32 = Ok r) by exact Hr. vm_compute in Hr. injection Hr as <-.
  eexists. split; [exact Hreg|]. split; [exact Hs|]. split; [vm_compute; reflexivity|].
  apply Hb. vm_compute. reflexivity.
Defined.

Lemma swa_wf (w sinks : Z) a :
  0 ≤ sinks → 0 < w → Attn (mkAttn (Some w) sinks) = Attn a →
  0 ≤ num_sink_blocks a ∧ ∀ w', window_size a = Some w' → 0 < w'.
Proof. intros Hs Hw [= <-]. split; [done|]. by intros w' [= <-]. Qed.

(** A window of 128 tokens and one sink block, 300 tokens of history. *)
Lemma stale_range_witness :
  let lc := Attn (mkAttn (Some 128) 1) in
  get_stale_range lc 300 32 = mkRange 1 5 ∧
  (range_contains (get_stale_range lc 300 32) 4 = true ↔
   1 ≤ 4 ∧ ∀ t, 4 * 32 ≤ t < (4 + 1) * 32 → t < 300 + 1 - 128).
Proof.
  split; [reflexivity|].
  apply (stale_range_exact (Attn (mkAttn (Some 128) 1)) 300 32 4); [lia|lia|].
  intros a. by apply swa_wf.
Defined.

Lemma scratch_witness :
  let lc := Attn (mkAttn (Some 128) 1) in
  compute_scratch_range lc 256 1024 32 4 = mkRange 8 27 ∧
  256 ≤ 10 * 32 ∧ (10 + 1) * 32 ≤ 1024 ∧ range_contains (get_stale_range lc 1020 32) 10 = true.
Proof.
  split; [reflexivity|].
  apply (scratch_blocks_are_dead (Attn (mkAttn (Some 128) 1)) 256 1024 32 4 10 1020);
    [lia|lia| |reflexivity|lia]. intros a. by apply swa_wf.
Defined.
