(* ===== verification/CacheKey.v ===== *)
(** * Cache keys ([kv_cache_manager_v2/_cache_key.py])

    The key of a block is a hash of the key of the block before it and of its
    tokens; the chain starts from a hash of the request's reuse scope.  Blocks
    are found by key alone, so what is hashed must tell requests apart.
    [hashlib.sha256] is a parameter.

    Proved: two requests get a common key only for a common reuse scope and a
    common prefix of tokens. *)

From S2P Require Import Prelude.

Local Open Scope Z_scope.

(** A byte is a [Z] from 0 to 255. *)
Definition bytes : Type := list Z.

Inductive TokenIdExt :=
| TokenId (id : Z)
| TokenDigest (b : bytes).

#[global] Instance TokenIdExt_eq_dec : EqDecision TokenIdExt.
Proof. solve_decision. Defined.

(** [x.to_bytes(n, "little")] for an [x] that fits. *)
Fixpoint le_bytes (n : nat) (x : Z) : bytes :=
  match n with
  | O => []
  | S n => x `mod` 256 :: le_bytes n (x / 256)
  end.

Definition to_bytes (n : nat) (x : Z) : result bytes :=
  if (0 <=? x) && (x <? 256 ^ Z.of_nat n) then Ok (le_bytes n x) else Raise OverflowError.

Definition gen_multimodal_cache_key_tokens (id_offset : Z) (multi_modal_data_digest : bytes)
    (num_tokens token_offset : Z) : result (list TokenIdExt) :=
  py_assert (0 <? num_tokens) ≫= λ _,
  py_assert (0 <=? token_offset) ≫= λ _,
  Ok ((λ i, if token_offset + i =? 0 then TokenDigest multi_modal_data_digest
            else TokenId (id_offset + token_offset + i)) <$> seqZ 0 num_tokens).

(** [Hasher.update] of a token block, as the bytes fed to the hash: the
    packed array and the loop over items feed the same ones. *)
Definition token_bytes (t : TokenIdExt) : result bytes :=
  match t with
  | TokenId id => py_assert ((0 <=? id) && (id <? 2 ^ 64)) ≫= λ _, Ok (le_bytes 8 id)
  | TokenDigest b => Ok b
  end.

Fixpoint tokens_bytes (ts : list TokenIdExt) : result bytes :=
  match ts with
  | [] => Ok []
  | t :: ts => b ← token_bytes t; bs ← tokens_bytes ts; Ok (b ++ bs)
  end.

Record ReuseScope := mkScope {
  lora_id : option Z;
  salt : option Z;
}.

Definition mask_bit (i : Z) (v : option Z) : Z := match v with Some _ => 2 ^ i | None => 0 end.

Definition field_bytes (v : option Z) : result bytes :=
  match v with Some x => to_bytes 8 x | None => Ok [] end.

Definition reuse_scope_to_bytes (s : ReuseScope) : result bytes :=
  mask ← to_bytes 1 (mask_bit 0 (lora_id s) + mask_bit 1 (salt s));
  l ← field_bytes (lora_id s);
  r ← field_bytes (salt s);
  Ok (mask ++ l ++ r).

Section keys.
Context (sha256 : bytes → bytes).

(** [while True] over the chunks of [tokens]; the fuel is the number of
    tokens, and every chunk takes at least one. *)
Fixpoint chain_keys (fuel tokens_per_block : nat) (digest : bytes) (tokens : list TokenIdExt) :
    result (list (list TokenIdExt * bytes)) :=
  match take tokens_per_block tokens, fuel with
  | [], _ => Ok []
  | _, O => Raise OutOfFuel
  | token_block, S fuel =>
      b ← tokens_bytes token_block;
      let digest' := sha256 (digest ++ b) in
      rest ← chain_keys fuel tokens_per_block digest' (drop tokens_per_block tokens);
      Ok ((token_block, digest') :: rest)
  end.

Definition sequence_to_blockchain_keys (tokens_per_block : nat) (reuse_scope : ReuseScope)
    (tokens : list TokenIdExt) : result (list (list TokenIdExt * bytes)) :=
  s ← reuse_scope_to_bytes reuse_scope;
  let digest := sha256 s in
  rest ← chain_keys (length tokens) tokens_per_block digest tokens;
  Ok (([], digest) :: rest).
End keys.

(** ** What is hashed *)

Lemma length_le_bytes n x : length (le_bytes n x) = n.
Proof. revert x. induction n; intros x; cbn; congruence. Qed.

Lemma le_bytes_inj n x y :
  0 ≤ x < 256 ^ Z.of_nat n → 0 ≤ y < 256 ^ Z.of_nat n → le_bytes n x = le_bytes n y → x = y.
Proof.
  revert x y. induction n as [|n IH]; intros x y Hx Hy.
  - change (256 ^ Z.of_nat 0) with 1 in *. lia.
  - rewrite Nat2Z.inj_succ, Z.pow_succ_r in Hx, Hy by lia. cbn. intros [= Hm Hd].
    apply IH in Hd.
    + pose proof (Z.div_mod x 256). pose proof (Z.div_mod y 256). lia.
    + split; [apply Z.div_pos; lia|apply Z.div_lt_upper_bound; lia].
    + split; [apply Z.div_pos; lia|apply Z.div_lt_upper_bound; lia].
Qed.

#[global] Arguments le_bytes : simpl never.

Lemma to_bytes_ok n x b :
  to_bytes n x = Ok b → b = le_bytes n x ∧ 0 ≤ x < 256 ^ Z.of_nat n.
Proof.
  unfold to_bytes. destruct ((0 <=? x) && _) eqn:E; [|done]. intros [= <-].
  apply andb_prop in E as [H1%Z.leb_le H2%Z.ltb_lt]. done.
Qed.

Definition field_enc (v : option Z) : bytes := match v with Some x => le_bytes 8 x | None => [] end.
Definition field_fits (v : option Z) : Prop := ∀ x, v = Some x → 0 ≤ x < 2 ^ 64.

Lemma field_bytes_ok v b : field_bytes v = Ok b → b = field_enc v ∧ field_fits v.
Proof.
  destruct v as [x|]; cbn; [|by intros [= <-]]. intros [-> Hx]%to_bytes_ok. split; [done|].
  by intros ? [= <-].
Qed.

Lemma field_enc_inj v v' k k' :
  field_fits v → field_fits v' → is_Some v ↔ is_Some v' →
  field_enc v ++ k = field_enc v' ++ k' → v = v' ∧ k = k'.
Proof.
  intros Hv Hv' Hs H. destruct v as [x|], v' as [x'|]; cbn in H.
  - apply app_inj_1 in H as [H ->]; [|by rewrite !length_le_bytes]. split; [|done]. f_equal.
    apply (le_bytes_inj 8); [by apply Hv|by apply Hv'|done].
  - destruct Hs as [Hs _]. destruct (Hs ltac:(by eexists)) as [? ?]. done.
  - destruct Hs as [_ Hs]. destruct (Hs ltac:(by eexists)) as [? ?]. done.
  - done.
Qed.

Lemma scope_bytes_ok s b :
  reuse_scope_to_bytes s = Ok b →
  b = (mask_bit 0 (lora_id s) + mask_bit 1 (salt s)) :: field_enc (lora_id s) ++ field_enc (salt s) ∧
  field_fits (lora_id s) ∧ field_fits (salt s).
Proof.
  unfold reuse_scope_to_bytes. intros H. inv_ok. apply to_bytes_ok in Hv as [-> _].
  apply field_bytes_ok in Hv0 as [-> H1]. apply field_bytes_ok in Hv1 as [-> H2].
  split; [|done]. by destruct (lora_id s), (salt s).
Qed.

Lemma scope_bytes_inj s s' b :
  reuse_scope_to_bytes s = Ok b → reuse_scope_to_bytes s' = Ok b → s = s'.
Proof.
  intros (-> & Hl & Hr)%scope_bytes_ok (Hb & Hl' & Hr')%scope_bytes_ok. injection Hb as Hm He.
  assert (is_Some (lora_id s) ↔ is_Some (lora_id s')) as Hsl
    by (destruct (lora_id s), (salt s), (lora_id s'), (salt s'); cbn in Hm; try lia; by split; eauto).
  assert (is_Some (salt s) ↔ is_Some (salt s')) as Hsr
    by (destruct (lora_id s), (salt s), (lora_id s'), (salt s'); cbn in Hm; try lia; by split; eauto).
  apply field_enc_inj in He as [Hlora He]; [|done..].
  rewrite <- (app_nil_r (field_enc (salt s))), <- (app_nil_r (field_enc (salt s'))) in He.
  apply field_enc_inj in He as [Hsalt _]; [|done..]. destruct s, s'. cbn in *. congruence.
Qed.

Lemma scope_bytes_short s b : reuse_scope_to_bytes s = Ok b → (length b ≤ 17)%nat.
Proof.
  intros (-> & _ & _)%scope_bytes_ok. cbn. rewrite length_app.
  destruct (lora_id s), (salt s); cbn; rewrite ?length_le_bytes; lia.
Qed.

(** Blocks of plain token ids. *)
Definition plain (t : TokenIdExt) : Prop := ∃ id, t = TokenId id.

Lemma tokens_bytes_cons id ts b :
  tokens_bytes (TokenId id :: ts) = Ok b →
  ∃ bs, tokens_bytes ts = Ok bs ∧ b = le_bytes 8 id ++ bs ∧ 0 ≤ id < 2 ^ 64.
Proof.
  cbn [tokens_bytes token_bytes]. intros H. inv_ok. apply andb_prop in Hv1 as [?%Z.leb_le ?%Z.ltb_lt]. eauto.
Qed.

Lemma tokens_bytes_inj ts ts' b :
  Forall plain ts → Forall plain ts' → tokens_bytes ts = Ok b → tokens_bytes ts' = Ok b → ts = ts'.
Proof.
  intros Hp. revert ts' b.
  induction Hp as [|t ts [id ->] _ IH]; intros ts' b [|t' ts'' [id' ->] Hp'] H H'; [done|..].
  - apply tokens_bytes_cons in H' as (bs & _ & -> & _). by injection H.
  - apply tokens_bytes_cons in H as (bs & _ & -> & _). by injection H'.
  - apply tokens_bytes_cons in H as (bs & H1 & -> & Hid). apply tokens_bytes_cons in H' as (bs' & H1' & Hb & Hid').
    apply app_inj_1 in Hb as [Hb ->]; [|by rewrite !length_le_bytes].
    apply (le_bytes_inj 8) in Hb as ->; [|done..]. f_equal. by eapply IH.
Qed.

(** ** Keys tell requests apart *)

Section isolation.
Context (sha256 : bytes → bytes) (tpb : nat).
Implicit Types ks : list (list TokenIdExt * bytes).

Lemma chain_keys_spec fuel : ∀ tokens digest ks pb,
  chain_keys sha256 fuel tpb digest tokens = Ok ks →
  ∀ i blk k, ks !! i = Some (blk, k) →
    ∃ prev e, ((pb, digest) :: ks) !! i = Some prev ∧ tokens_bytes blk = Ok e ∧
      k = sha256 (prev.2 ++ e) ∧ blk = take tpb (drop (i * tpb) tokens).
Proof.
  induction fuel as [|fuel IH]; intros tokens digest ks pb H i blk k Hi; cbn [chain_keys] in H.
  - destruct (take tpb tokens); [|done]. by injection H as <-.
  - destruct (take tpb tokens) as [|t ts] eqn:Ht; [by injection H as <-|]. inv_ok.
    destruct i as [|i]; cbn in Hi.
    + injection Hi as <- <-. exists (pb, digest), v. rewrite Nat.mul_0_l, drop_0. done.
    + destruct (IH _ _ _ (t :: ts) Hv0 i blk k Hi) as (prev & e & H1 & H2 & H3 & H4).
      exists prev, e. rewrite drop_drop in H4. split; [done|]. split; [done|]. split; [done|].
      by rewrite H4.
Qed.

(** The strings hashed for a request with keys [ks]. *)
Definition hash_inputs (s : ReuseScope) ks : list bytes :=
  match reuse_scope_to_bytes s with Ok b => [b] | Raise _ => [] end ++
  zip_with (λ p q, p.2 ++ match tokens_bytes q.1 with Ok e => e | Raise _ => [] end) ks (tail ks).

(** What the keys of one request are. *)
Record keyed (s : ReuseScope) (ts : list TokenIdExt) ks : Prop := {
  kd_root : ∃ b, reuse_scope_to_bytes s = Ok b ∧ ks !! 0%nat = Some ([], sha256 b) ∧ b ∈ hash_inputs s ks;
  kd_next : ∀ i blk k, ks !! S i = Some (blk, k) →
    ∃ prev e, ks !! i = Some prev ∧ tokens_bytes blk = Ok e ∧ k = sha256 (prev.2 ++ e) ∧
      blk = take tpb (drop (i * tpb) ts) ∧ prev.2 ++ e ∈ hash_inputs s ks;
}.

Lemma sequence_keyed s ts ks : sequence_to_blockchain_keys sha256 tpb s ts = Ok ks → keyed s ts ks.
Proof.
  unfold sequence_to_blockchain_keys. intros H. inv_ok. split.
  - exists v. split; [done|]. split; [done|]. unfold hash_inputs. rewrite Hv. by left.
  - intros i blk k Hi. cbn in Hi.
    destruct (chain_keys_spec _ _ _ _ [] Hv0 i blk k Hi) as (prev & e & H1 & H2 & H3 & H4).
    exists prev, e. do 4 (split; [done|]). apply elem_of_app. right.
    apply list_elem_of_lookup. exists i. apply lookup_zip_with_Some.
    exists prev, (blk, k). split; [cbn; by rewrite H2|]. split; [exact H1|exact Hi].
Qed.

Definition no_collision (l : list bytes) : Prop :=
  ∀ a b, a ∈ l → b ∈ l → sha256 a = sha256 b → a = b.

Lemma keyed_is_hash s ts ks i blk k : keyed s ts ks → ks !! i = Some (blk, k) → ∃ x, k = sha256 x.
Proof.
  intros [Hroot Hnext] Hi. destruct i as [|i].
  - destruct Hroot as (b & _ & Hb & _). rewrite Hb in Hi. injection Hi as <- <-. eauto.
  - destruct (Hnext _ _ _ Hi) as (prev & e & _ & _ & -> & _). eauto.
Qed.

Lemma same_key s s' ts ts' ks ks' :
  (∀ x, length (sha256 x) = 32%nat) → Forall plain ts → Forall plain ts' →
  keyed s ts ks → keyed s' ts' ks' → no_collision (hash_inputs s ks ++ hash_inputs s' ks') →
  ∀ i j blk blk' k, ks !! i = Some (blk, k) → ks' !! j = Some (blk', k) →
    s = s' ∧ i = j ∧ take (i * tpb) ts = take (j * tpb) ts'.
Proof.
  intros Hlen Hp Hp' HK HK' Hnc. pose proof HK as [(b & Hb & Hk0 & Hbin) Hn].
  pose proof HK' as [(b' & Hb' & Hk0' & Hbin') Hn'].
  assert (Hinj : ∀ x y, x ∈ hash_inputs s ks → y ∈ hash_inputs s' ks' → sha256 x = sha256 y → x = y).
  { intros x y Hx Hy. apply Hnc; apply elem_of_app; auto. }
  assert (Hplain : ∀ l n m, Forall plain l → Forall plain (take n (drop m l))).
  { intros l n m Hl. by apply Forall_take, Forall_drop. }
  induction i as [|i IH]; intros [|j] blk blk' k Hi Hj.
  - rewrite Hk0 in Hi. rewrite Hk0' in Hj. injection Hi as _ <-. injection Hj as _ He.
    symmetry in He. apply (Hinj b b') in He as ->; [|done..]. split; [by eapply scope_bytes_inj|done].
  - rewrite Hk0 in Hi. injection Hi as _ <-. destruct (Hn' _ _ _ Hj) as ([pb pk] & e & H1 & _ & H3 & _ & H5).
    apply Hinj in H3 as ->; [|done..]. apply scope_bytes_short in Hb. rewrite length_app in Hb.
    destruct (keyed_is_hash _ _ _ _ _ _ HK' H1) as [x ->]. cbn [snd] in Hb. rewrite Hlen in Hb. lia.
  - rewrite Hk0' in Hj. injection Hj as _ <-. destruct (Hn _ _ _ Hi) as ([pb pk] & e & H1 & _ & H3 & _ & H5).
    symmetry in H3. apply Hinj in H3 as <-; [|done..]. apply scope_bytes_short in Hb'. rewrite length_app in Hb'.
    destruct (keyed_is_hash _ _ _ _ _ _ HK H1) as [x ->]. cbn [snd] in Hb'. rewrite Hlen in Hb'. lia.
  - destruct (Hn _ _ _ Hi) as ([pb pk] & e & H1 & H2 & -> & H4 & H5).
    destruct (Hn' _ _ _ Hj) as ([pb' pk'] & e' & H1' & H2' & H3' & H4' & H5').
    apply Hinj in H3'; [|done..]. cbn in H3'. apply app_inj_1 in H3' as [-> ->].
    2:{ destruct (keyed_is_hash _ _ _ _ _ _ HK H1) as [x ->].
        destruct (keyed_is_hash _ _ _ _ _ _ HK' H1') as [x' ->]. by rewrite !Hlen. }
    destruct (IH j pb pb' pk' H1 H1') as (-> & -> & Ht). split; [done|]. split; [done|].
    assert (blk = blk') as Heq by (subst; eapply tokens_bytes_inj; eauto).
    replace (S j * tpb)%nat with (j * tpb + tpb)%nat by lia.
    rewrite <- !take_take_drop, Ht, <- H4, <- H4'. by rewrite Heq.
Qed.
End isolation.

(** C25: cache keys separate requests.  If the hash has 32-byte digests and
    does not collide on the strings hashed for two requests of plain token
    ids, then a block of one and a block of the other have the same key only
    at the same position, under the same reuse scope (adapter and salt), and
    when all tokens up to the end of that block are the same. *)
Theorem keys_isolate_requests sha256 tpb s s' ts ts' ks ks' :
  (∀ x, length (sha256 x) = 32%nat) → Forall plain ts → Forall plain ts' →
  sequence_to_blockchain_keys sha256 tpb s ts = Ok ks →
  sequence_to_blockchain_keys sha256 tpb s' ts' = Ok ks' →
  no_collision sha256 (hash_inputs s ks ++ hash_inputs s' ks') →
  ∀ i j blk blk' k, ks !! i = Some (blk, k) → ks' !! j = Some (blk', k) →
    s = s' ∧ i = j ∧ take (i * tpb) ts = take (j * tpb) ts'.
Proof.
  intros Hlen Hp Hp' Hk Hk' Hnc. eapply same_key; [done..| | |exact Hnc];
    by eapply sequence_keyed.
Qed.

(** ** Witness *)

(** A hash with 32-byte digests that does not collide on the example. *)
Definition toy_hash (x : bytes) : bytes := le_bytes 32 (foldl (λ acc b, (acc * 257 + b + 1) `mod` 2 ^ 61) 7 x).

Definition ex_tokens (last : Z) : list TokenIdExt := TokenId <$> [11; 12; 13; 14; 15; last].

Definition ex_keys (s : ReuseScope) (ts : list TokenIdExt) : list (list TokenIdExt * bytes) :=
  match sequence_to_blockchain_keys toy_hash 2 s ts with Ok ks => ks | Raise _ => [] end.

Lemma ex_plain last : Forall plain (ex_tokens last).
Proof. apply Forall_fmap, Forall_true. intros x. by exists x. Qed.

Definition ex_scope : ReuseScope := mkScope None (Some 5).

Lemma keys_isolate_witness :
  let ks := ex_keys ex_scope (ex_tokens 16) in
  let ks' := ex_keys ex_scope (ex_tokens 99) in
  ∃ blk blk' k, ks !! 2%nat = Some (blk, k) ∧ ks' !! 2%nat = Some (blk', k) ∧
    take (2 * 2) (ex_tokens 16) = take (2 * 2) (ex_tokens 99).
Proof.
  intros ks ks'. eexists _, _, _. split; [vm_compute; reflexivity|]. split; [vm_compute; reflexivity|].
  eapply (keys_isolate_requests toy_hash 2 ex_scope ex_scope (ex_tokens 16) (ex_tokens 99) ks ks').
  - intros x. apply length_le_bytes.
  - apply ex_plain.
  - apply ex_plain.
  - vm_compute. reflexivity.
  - vm_compute. reflexivity.
  - assert (Hall : Forall (λ a, Forall (λ b, toy_hash a = toy_hash b → a = b)
      (hash_inputs ex_scope ks ++ hash_inputs ex_scope ks'))
      (hash_inputs ex_scope ks ++ hash_inputs ex_scope ks')).
    { apply (bool_decide_unpack _). vm_compute. exact I. }
    intros a b Ha Hb. rewrite Forall_forall in Hall. specialize (Hall a Ha).
    rewrite Forall_forall in Hall. by apply Hall.
  - vm_compute. reflexivity.
  - vm_compute. reflexivity.
Defined.
