(* ===== verification/RadixMatchProps.v ===== *)
(** * Correctness of prefix matching

    [_prune_match] returns the longest prefix of the walk that the pages
    allow to reuse. *)

From S2P Require Import Prelude KvUtils LifeCycle CacheKey RadixMatch.

Local Open Scope Z_scope.

Section cut.
Context (tpb : Z) (Htpb : 0 < tpb).
Implicit Types M c : list (Block * Z).

(** The first [n] tokens of a match. *)
Fixpoint cut (n : Z) M : list (Block * Z) :=
  match M with
  | [] => []
  | (b, _) :: M => if n <=? 0 then [] else (b, Z.min tpb n) :: cut (n - tpb) M
  end.

Lemma cut_nonpos n M : n ≤ 0 → cut n M = [].
Proof. destruct M as [|[b m] M]; [done|]. cbn. intros Hn. by rewrite (proj2 (Z.leb_le n 0)). Qed.

Lemma cut_lookup n M i b m :
  cut n M !! i = Some (b, m) ↔
  (∃ m0, M !! i = Some (b, m0)) ∧ Z.of_nat i * tpb < n ∧ m = Z.min tpb (n - Z.of_nat i * tpb).
Proof.
  revert n i. induction M as [|[b0 m0] M IH]; intros n i; cbn.
  { split; [done|]. by intros ((? & ?) & _). }
  destruct (Z.leb_spec n 0).
  { split; [done|]. intros (_ & H1 & _). nia. }
  destruct i as [|i]; cbn.
  - split; [intros [= -> <-]; split; [eauto|lia]|]. intros ((m1 & [= -> ->]) & _ & ->). f_equal. f_equal. lia.
  - rewrite IH. replace (n - tpb - Z.of_nat i * tpb) with (n - Z.of_nat (S i) * tpb) by lia.
    split; intros (H1 & H2 & H3); (split; [done|]); split; try done; lia.
Qed.

Lemma cut_ext n M c :
  (∀ i b m, c !! i = Some (b, m) ↔ cut n M !! i = Some (b, m)) → c = cut n M.
Proof.
  intros H. apply list_eq. intros i. destruct (c !! i) as [[b m]|] eqn:E.
  - symmetry. by apply H.
  - destruct (cut n M !! i) as [[b m]|] eqn:E2; [|done]. apply H in E2. congruence.
Qed.

(** A match as [_match_token_path] gives it: full blocks, then one that may be
    partial. *)
Definition match_wf M : Prop :=
  ∀ i b m, M !! i = Some (b, m) →
    0 < m ≤ tpb ∧ ((S i < length M)%nat → m = tpb).

Lemma num_matched_app M b m :
  num_matched_tokens tpb (M ++ [(b, m)]) = tpb * Z.of_nat (length M) + m.
Proof. unfold num_matched_tokens. rewrite last_snoc, length_app. cbn. lia. Qed.

Lemma match_wf_cut M : match_wf M → M = cut (num_matched_tokens tpb M) M.
Proof.
  intros Hwf. destruct M as [|[b m] M _] using rev_ind; [done|]. rewrite num_matched_app.
  apply cut_ext. intros i b' m'. rewrite cut_lookup. split.
  - intros Hi. destruct (Hwf i b' m' Hi) as [Hm Hfull]. pose proof (lookup_lt_Some _ _ _ Hi) as Hlt.
    rewrite length_app in Hlt, Hfull. cbn in Hlt, Hfull. split; [eauto|].
    destruct (Hwf (length M) b m) as [Hm' _]; [by apply list_lookup_middle|].
    destruct (decide (i = length M)) as [->|Hne].
    + rewrite list_lookup_middle in Hi by done. injection Hi as <- <-. nia.
    + specialize (Hfull ltac:(lia)). nia.
  - intros ((m0 & Hi) & Hlt & ->). rewrite Hi. do 2 f_equal.
    destruct (Hwf i b' m0 Hi) as [Hm Hfull]. pose proof (lookup_lt_Some _ _ _ Hi) as Hl.
    rewrite length_app in Hl, Hfull. cbn in Hl, Hfull.
    destruct (decide (i = length M)) as [->|Hne].
    + rewrite list_lookup_middle in Hi by done. injection Hi as <- <-. nia.
    + rewrite (Hfull ltac:(lia)). destruct (Hwf (length M) b m) as [Hm' _]; [by apply list_lookup_middle|]. nia.
Qed.

(** Cuts have as many tokens as they are cut to. *)
Lemma cut_num n M : 0 ≤ n ≤ tpb * Z.of_nat (length M) → num_matched_tokens tpb (cut n M) = n.
Proof.
  revert n. induction M as [|[b m] M IH]; intros n Hn; cbn in Hn |- *; [unfold num_matched_tokens; cbn; lia|].
  destruct (Z.leb_spec n 0); [unfold num_matched_tokens; cbn; lia|].
  destruct (Z.le_gt_cases n tpb).
  - rewrite cut_nonpos by lia. unfold num_matched_tokens. cbn. lia.
  - specialize (IH (n - tpb) ltac:(lia)).
    destruct (cut (n - tpb) M) as [|[b' m'] c] eqn:E using rev_ind.
    { unfold num_matched_tokens in IH. cbn in IH. lia. }
    rewrite num_matched_app in IH.
    change ((b, tpb `min` n) :: (c ++ [(b', m')])) with (((b, tpb `min` n) :: c) ++ [(b', m')]).
    rewrite num_matched_app. cbn [length]. lia.
Qed.

Lemma cut_length n M : 0 < n ≤ tpb * Z.of_nat (length M) → Z.of_nat (length (cut n M)) = div_up n tpb.
Proof.
  revert n. induction M as [|[b m] M IH]; intros n Hn; cbn in Hn |- *; [lia|].
  destruct (Z.leb_spec n 0); [lia|]. cbn [length]. rewrite Nat2Z.inj_succ.
  destruct (Z.le_gt_cases n tpb).
  - rewrite cut_nonpos by lia. cbn. unfold div_up.
    apply (Z.div_unique _ _ 1 (n - 1)); lia.
  - rewrite IH by lia. unfold div_up.
    replace (n + tpb - 1) with ((n - tpb + tpb - 1) + 1 * tpb) by lia. rewrite Z.div_add by lia. lia.
Qed.

(** ** Shortened matches are cuts *)

Lemma mul_lt (i j : nat) : (j < i)%nat → Z.of_nat j * tpb + tpb ≤ Z.of_nat i * tpb.
Proof. nia. Qed.

Lemma mul_lt_inv (i j : nat) : Z.of_nat j * tpb < Z.of_nat i * tpb → (j < i)%nat.
Proof. nia. Qed.

Lemma cut_take n M i :
  Z.of_nat i * tpb ≤ n → take i (cut n M) = cut (Z.of_nat i * tpb) M.
Proof.
  intros Hi. apply cut_ext. intros j b m. rewrite lookup_take_Some, !cut_lookup. split.
  - intros ((H1 & H2 & ->) & Hj). split; [done|]. pose proof (mul_lt _ _ Hj). lia.
  - intros (H1 & H2 & ->). apply mul_lt_inv in H2. pose proof (mul_lt _ _ H2).
    split; [split; [done|]; lia|done].
Qed.

Lemma cut_snoc n M i b m k :
  cut n M !! i = Some (b, m) → 0 < k ≤ m →
  take i (cut n M) ++ [(b, k)] = cut (Z.of_nat i * tpb + k) M.
Proof.
  intros Hi Hk. pose proof (proj1 (cut_lookup _ _ _ _ _) Hi) as ((m0 & HM) & Hlt & Hm).
  rewrite cut_take by lia. apply cut_ext. intros j b' m'.
  assert (Hlen : length (cut (Z.of_nat i * tpb) M) = i).
  { rewrite <- (cut_take n) by lia. apply length_take_le. apply lookup_lt_Some in Hi. lia. }
  destruct (Nat.lt_trichotomy j i) as [Hj|[->|Hj]].
  - rewrite lookup_app_l by lia. rewrite !cut_lookup. pose proof (mul_lt _ _ Hj).
    split; intros (H1 & H2 & ->); (split; [done|]); lia.
  - rewrite list_lookup_middle by done. rewrite cut_lookup. split.
    + intros [= <- <-]. split; [eauto|]. lia.
    + intros ((m1 & H1) & _ & ->). rewrite HM in H1. injection H1 as -> ->. do 2 f_equal. lia.
  - rewrite lookup_ge_None_2 by (rewrite length_app, Hlen; cbn; lia). rewrite cut_lookup. split; [done|].
    intros (_ & H2 & _). pose proof (mul_lt _ _ Hj). lia.
Qed.
End cut.

(** ** The SSM snapshot *)

Definition usable (lc : Z) (e : Block * Z) : Prop := 0 < page_coverage e.1 lc ≤ e.2.

Lemma ssm_last_spec lc c :
  let r := reverse (ssm_last lc (reverse c)) in
  (r = [] ∧ ∀ i e, c !! i = Some e → ¬ usable lc e) ∨
  ∃ i e, c !! i = Some e ∧ usable lc e ∧ r = take i c ++ [(e.1, page_coverage e.1 lc)] ∧
    ∀ j e', c !! j = Some e' → usable lc e' → (j ≤ i)%nat.
Proof.
  induction c as [|[b m] c IH] using rev_ind; cbv zeta; [by left|].
  rewrite reverse_snoc. cbn [ssm_last].
  destruct ((0 <? page_coverage b lc) && (page_coverage b lc <=? m)) eqn:E.
  - apply andb_prop in E as [H1%Z.ltb_lt H2%Z.leb_le]. right. exists (length c), (b, m).
    split; [by apply list_lookup_middle|]. split; [done|]. split.
    + by rewrite take_app_length, reverse_cons, reverse_involutive.
    + intros j e' Hj _. apply lookup_lt_Some in Hj. rewrite length_app in Hj. cbn in Hj. lia.
  - assert (Hnu : ¬ usable lc (b, m)).
    { unfold usable. cbn. intros [H1%Z.ltb_lt H2%Z.leb_le]. by rewrite H1, H2 in E. }
    destruct IH as [[H1 H2]|(i & e & H1 & H2 & H3 & H4)].
    + left. split; [done|]. intros i e [He|[_ [_ <-]%list_lookup_singleton_Some]]%lookup_app_Some; [by eapply H2|done].
    + right. exists i, e. split; [by apply lookup_app_l_Some|]. split; [done|].
      pose proof (lookup_lt_Some _ _ _ H1). split; [by rewrite take_app_le by lia|].
      intros j e' [He|[_ [_ <-]%list_lookup_singleton_Some]]%lookup_app_Some Hu; [by eapply H4|done].
Qed.

(** ** The attention pages *)

Definition short_at (lc_idx : Z) (c : list (Block * Z)) (i : nat) (c' : list (Block * Z)) : Prop :=
  ∃ b m, c !! i = Some (b, m) ∧ page_coverage b lc_idx < m ∧
    c' = if 0 <? page_coverage b lc_idx then take i c ++ [(b, page_coverage b lc_idx)] else take i c.

Lemma shorten_at_spec lc_idx c idxs :
  Forall (λ i, 0 ≤ i < Z.of_nat (length c)) idxs →
  (shorten_at lc_idx c idxs = Ok None ∧
   ∀ i b m, i ∈ idxs → c !! Z.to_nat i = Some (b, m) → m ≤ page_coverage b lc_idx) ∨
  ∃ i c', shorten_at lc_idx c idxs = Ok (Some c') ∧ i ∈ idxs ∧ short_at lc_idx c (Z.to_nat i) c'.
Proof.
  induction 1 as [|i idxs Hi _ IH]; cbn [shorten_at].
  { left. split; [done|]. by intros i b m ?%not_elem_of_nil. }
  destruct (lookup_lt_is_Some_2 c (Z.to_nat i)) as [[b m] Hb]; [lia|].
  rewrite (py_getitem_nonneg c i (b, m)) by (lia || done). cbn.
  destruct (Z.leb_spec m (page_coverage b lc_idx)).
  - destruct IH as [[H1 H2]|(j & c' & H1 & H2 & H3)].
    + left. split; [done|]. intros j b' m' [->|Hj]%elem_of_cons Hl; [|by eapply H2].
      rewrite Hb in Hl. by injection Hl as <- <-.
    + right. exists j, c'. split; [done|]. split; [by right|done].
  - right. destruct (0 <? page_coverage b lc_idx) eqn:E; eexists i, _; (split; [done|]); (split; [left|]);
      exists b, m; by rewrite E.
Qed.

Section prune_props.
Context (tpb : Z) (Htpb : 0 < tpb).
Context (lcs : list (Z * AttnLifeCycle)) (ssm : option Z) (M : list (Block * Z)).

Definition lc_wf (lc : AttnLifeCycle) : Prop :=
  0 ≤ num_sink_blocks lc ∧ ∀ w, window_size lc = Some w → 0 < w.

Context (Hlcs : ∀ i lc, (i, lc) ∈ lcs → lc_wf lc).

(** The block [i] is read when attention continues after [n] tokens. *)
Definition required (lc : AttnLifeCycle) (n : Z) (i : nat) : Prop :=
  range_contains (attn_stale_range lc n tpb) (Z.of_nat i) = false.

(** The first [n] tokens can be reused: the recurrent state after exactly [n]
    tokens is stored, and every page attention reads covers its tokens. *)
Definition reusable (n : Z) : Prop :=
  (∀ lc b m, ssm = Some lc → last (cut tpb n M) = Some (b, m) → page_coverage b lc = m) ∧
  (∀ lc_idx lc i b m, (lc_idx, lc) ∈ lcs → cut tpb n M !! i = Some (b, m) → required lc n i →
     m ≤ page_coverage b lc_idx).

Lemma reusable_0 : reusable 0.
Proof. split; intros *; by rewrite cut_nonpos. Qed.

Lemma required_mono lc n n' i : lc_wf lc → n' ≤ n → required lc n i → required lc n' i.
Proof.
  intros [Hs Hw] Hn. unfold required. destruct lc as [[w|] sinks]; cbn in *.
  - specialize (Hw w eq_refl). intros Hr. apply not_true_iff_false. intros Ht.
    apply not_true_iff_false in Hr. apply Hr. apply attn_stale_spec in Ht; [|done..].
    apply attn_stale_spec; [done..|]. lia.
  - intros _. unfold range_contains, attn_stale_range. cbn. lia.
Qed.

Lemma required_blocks_spec lc n (c : list (Block * Z)) i :
  lc_wf lc → 0 < n → Z.of_nat (length c) = div_up n tpb →
  i ∈ required_blocks (attn_stale_range lc n tpb) (Z.of_nat (length c)) ↔
  0 ≤ i < Z.of_nat (length c) ∧ required lc n (Z.to_nat i).
Proof.
  intros [Hs Hw] Hn Hlen. pose proof (div_up_nonneg n tpb Htpb ltac:(lia)).
  assert (Hbe : 0 ≤ beg (attn_stale_range lc n tpb) ≤ Z.of_nat (length c) ∧
    beg (attn_stale_range lc n tpb) ≤ end_ (attn_stale_range lc n tpb)).
  { unfold attn_stale_range. destruct (window_size lc); cbn; lia. }
  unfold required_blocks, required, range_contains. rewrite elem_of_app, !elem_of_seqZ.
  set (r := attn_stale_range lc n tpb) in *. split.
  - intros Hi. assert (0 ≤ i < Z.of_nat (length c)) by lia. split; [done|]. rewrite Z2Nat.id by lia. lia.
  - intros [Hi Hr]. rewrite Z2Nat.id in Hr by lia. lia.
Qed.

Lemma shorten_spec c n :
  0 < n → Z.of_nat (length c) = div_up n tpb → ∀ l, (∀ x, x ∈ l → x ∈ lcs) →
  (shorten tpb l n c = Ok None ∧
   ∀ lc_idx lc i b m, (lc_idx, lc) ∈ l → c !! i = Some (b, m) → required lc n i → m ≤ page_coverage b lc_idx) ∨
  ∃ lc_idx lc i c', shorten tpb l n c = Ok (Some c') ∧ (lc_idx, lc) ∈ lcs ∧ required lc n i ∧
    short_at lc_idx c i c'.
Proof.
  intros Hn Hlen l. induction l as [|[lc_idx lc] l IH]; intros Hsub; cbn [shorten].
  { left. split; [done|]. by intros ? ? ? ? ? ?%not_elem_of_nil. }
  assert (Hin : (lc_idx, lc) ∈ lcs) by (apply Hsub; left). pose proof (Hlcs _ _ Hin) as Hwf.
  destruct (shorten_at_spec lc_idx c (required_blocks (attn_stale_range lc n tpb) (Z.of_nat (length c))))
    as [[H1 H2]|(i & c' & H1 & H2 & H3)].
  - apply Forall_forall. intros i Hi. by apply (required_blocks_spec lc n c i Hwf Hn Hlen) in Hi as [Hi _].
  - rewrite H1. cbn. destruct IH as [[H3 H4]|(l' & lc' & i & c' & H3 & H4)].
    { intros x Hx. apply Hsub. by right. }
    + left. split; [done|]. intros k lc' i b m [[= -> ->]|Hk]%elem_of_cons Hb Hr; [|by eapply H4].
      apply (H2 (Z.of_nat i)); [|by rewrite Nat2Z.id]. apply required_blocks_spec; [done..|].
      rewrite Nat2Z.id. split; [|done]. apply lookup_lt_Some in Hb. lia.
    + right. exists l', lc', i, c'. done.
  - right. rewrite H1. cbn. exists lc_idx, lc, (Z.to_nat i), c'. split; [done|]. split; [done|].
    split; [|done]. by apply (required_blocks_spec lc n c i Hwf Hn Hlen) in H2 as [_ H2].
Qed.

Lemma last_cut k :
  0 < k ≤ tpb * Z.of_nat (length M) →
  ∃ (j : nat) b, last (cut tpb k M) = Some (b, k - Z.of_nat j * tpb) ∧
    cut tpb k M !! j = Some (b, k - Z.of_nat j * tpb) ∧ 0 < k - Z.of_nat j * tpb ≤ tpb.
Proof.
  intros Hk. pose proof (cut_length tpb Htpb k M Hk) as Hlen.
  pose proof (div_up_bounds k tpb Htpb) as Hb.
  destruct (cut tpb k M) as [|[b m] c] eqn:E using rev_ind; [cbn in Hlen; nia|].
  rewrite length_app in Hlen. cbn in Hlen.
  assert (Hl : cut tpb k M !! length c = Some (b, m)) by (rewrite E; by apply list_lookup_middle).
  apply cut_lookup in Hl as (_ & Hlt & Hm); [|done]. exists (length c), b.
  assert (m = k - Z.of_nat (length c) * tpb) as -> by nia.
  rewrite last_snoc. split; [done|]. split; [by apply list_lookup_middle|]. nia.
Qed.

(** Where a reusable prefix ends, there is a usable snapshot. *)
Lemma reusable_snapshot lc n k :
  ssm = Some lc → 0 < k ≤ n → n ≤ tpb * Z.of_nat (length M) → reusable k →
  ∃ (j : nat) b m, cut tpb n M !! j = Some (b, m) ∧ usable lc (b, m) ∧
    k = Z.of_nat j * tpb + page_coverage b lc ∧ page_coverage b lc ≤ tpb.
Proof.
  intros Hssm Hk Hn [Hr _]. destruct (last_cut k) as (j & b & H1 & H2 & H3); [lia|].
  specialize (Hr lc b _ Hssm H1). apply cut_lookup in H2 as ((m0 & HM) & Hlt & _); [|done].
  exists j, b, (Z.min tpb (n - Z.of_nat j * tpb)). split; [|split; [|lia]].
  - apply cut_lookup; [done|]. split; [eauto|]. lia.
  - unfold usable. cbn. lia.
Qed.

Lemma ssm_step n :
  0 < n ≤ tpb * Z.of_nat (length M) →
  ∃ n', ssm_truncate ssm (cut tpb n M) = cut tpb n' M ∧ 0 ≤ n' ≤ n ∧
    (∀ lc b m, ssm = Some lc → last (cut tpb n' M) = Some (b, m) → page_coverage b lc = m) ∧
    ∀ k, 0 ≤ k ≤ n → reusable k → k ≤ n'.
Proof.
  intros Hn. unfold ssm_truncate. destruct ssm as [lc|] eqn:Hssm.
  2:{ exists n. split; [done|]. split; [lia|]. split; [done|]. lia. }
  destruct (ssm_last_spec lc (cut tpb n M)) as [[H1 H2]|(i & [b m] & H1 & H2 & H3 & H4)].
  - exists 0. rewrite H1, cut_nonpos by done. split; [done|]. split; [lia|]. split; [done|].
    intros k Hk Hr. destruct (Z.le_gt_cases k 0); [done|].
    destruct (reusable_snapshot lc n k) as (j & b & m & Hj & Hu & _); [done|lia|lia|done|].
    by destruct (H2 j _ Hj).
  - unfold usable in H2. cbn in H2, H3. exists (Z.of_nat i * tpb + page_coverage b lc).
    pose proof (proj1 (cut_lookup tpb Htpb _ _ _ _ _) H1) as (_ & Hlt & Hm).
    rewrite H3, (cut_snoc tpb Htpb n M i b m) by done. split; [done|]. split; [lia|]. split.
    + intros lc' b' m' [= <-]. rewrite <- (cut_snoc tpb Htpb n M i b m) by done.
      rewrite last_snoc. by intros [= <- <-].
    + intros k Hk Hr. destruct (Z.le_gt_cases k 0); [lia|].
      destruct (reusable_snapshot lc n k) as (j & b' & m' & Hj & Hu & -> & Hcov); [done|lia|lia|done|].
      specialize (H4 j _ Hj Hu). destruct (decide (j = i)) as [->|Hne].
      * rewrite H1 in Hj. by injection Hj as <- <-.
      * pose proof (mul_lt tpb Htpb i j ltac:(lia)). lia.
Qed.

(** A match shortened at a required page is a cut, and no reusable prefix is
    lost. *)
Lemma attn_step lc_idx lc n i c' :
  0 < n ≤ tpb * Z.of_nat (length M) → (lc_idx, lc) ∈ lcs → required lc n i →
  short_at lc_idx (cut tpb n M) i c' →
  ∃ n', c' = cut tpb n' M ∧ 0 ≤ n' < n ∧ ∀ k, 0 ≤ k ≤ n → reusable k → k ≤ n'.
Proof.
  intros Hn Hin Hreq (b & m & Hi & Hcov & ->).
  pose proof (proj1 (cut_lookup tpb Htpb _ _ _ _ _) Hi) as ((m0 & HM) & Hlt & Hm).
  exists (Z.of_nat i * tpb + Z.max 0 (page_coverage b lc_idx)). split; [|split; [lia|]].
  - destruct (Z.ltb_spec 0 (page_coverage b lc_idx)).
    + rewrite (cut_snoc tpb Htpb n M i b m) by (done || lia). f_equal. lia.
    + rewrite cut_take by lia. f_equal. lia.
  - intros k Hk [_ Hr]. destruct (Z.le_gt_cases k (Z.of_nat i * tpb)); [lia|].
    assert (Hki : cut tpb k M !! i = Some (b, Z.min tpb (k - Z.of_nat i * tpb))).
    { apply cut_lookup; [done|]. split; [eauto|]. lia. }
    assert (Hreq' : required lc k i) by (apply (required_mono lc n); [by eapply Hlcs|lia|done]).
    specialize (Hr lc_idx lc i b _ Hin Hki Hreq'). lia.
Qed.

Lemma prune_loop_ok fuel : ∀ n,
  0 ≤ n ≤ tpb * Z.of_nat (length M) → (Z.to_nat n ≤ fuel)%nat →
  ∃ r, prune_loop tpb fuel lcs ssm (cut tpb n M) = Ok (cut tpb r M) ∧ 0 ≤ r ≤ n ∧ reusable r ∧
    ∀ k, 0 ≤ k ≤ n → reusable k → k ≤ r.
Proof.
  induction fuel as [|fuel IH]; intros n Hn Hf.
  { assert (n = 0) as -> by lia. exists 0. rewrite cut_nonpos by done. cbn.
    split; [done|]. split; [lia|]. split; [apply reusable_0|]. lia. }
  destruct (decide (n = 0)) as [->|Hn0].
  { exists 0. rewrite cut_nonpos by done. cbn. split; [done|]. split; [lia|]. split; [apply reusable_0|]. lia. }
  destruct (ssm_step n) as (n' & Hcut & Hn' & Hssm' & Hmax); [lia|].
  assert (Hloop : prune_loop tpb (S fuel) lcs ssm (cut tpb n M) =
    if bool_decide (cut tpb n' M = []) then Ok []
    else r ← shorten tpb lcs (num_matched_tokens tpb (cut tpb n' M)) (cut tpb n' M);
         match r with None => Ok (cut tpb n' M) | Some m => prune_loop tpb fuel lcs ssm m end).
  { destruct (cut tpb n M) as [|x c] eqn:E; [|cbn [prune_loop]; by rewrite Hcut].
    destruct (last_cut n) as (j & b & _ & Hj & _); [lia|]. by rewrite E in Hj. }
  rewrite Hloop, cut_num by lia. destruct (decide (n' = 0)) as [->|Hn'0].
  { exists 0. rewrite cut_nonpos by done. cbn. split; [done|]. split; [lia|]. split; [apply reusable_0|done]. }
  rewrite bool_decide_eq_false_2.
  2:{ intros E. destruct (last_cut n') as (j & b & _ & Hj & _); [lia|]. by rewrite E in Hj. }
  destruct (shorten_spec (cut tpb n' M) n' ltac:(lia)) with (l := lcs)
    as [[H1 H2]|(lc_idx & lc & i & c' & H1 & H2 & H3 & H4)]; [apply cut_length; lia|done|..].
  - rewrite H1. cbn. exists n'. split; [done|]. split; [lia|]. split; [|done]. split; [done|].
    intros. by eapply H2.
  - rewrite H1. cbn. destruct (attn_step lc_idx lc n' i c') as (n2 & -> & Hn2 & Hmax2); [lia|done..|].
    destruct (IH n2) as (r & Hr & Hrn & Hre & Hrm); [lia..|].
    exists r. split; [done|]. split; [lia|]. split; [done|]. intros k Hk Hkr.
    specialize (Hmax k Hk Hkr). specialize (Hmax2 k ltac:(lia) Hkr). apply Hrm; [lia|done].
Qed.
End prune_props.

(** ** The walk *)

Lemma common_prefix_bounds ts ts' : 0 ≤ common_prefix ts ts' ≤ Z.of_nat (length ts).
Proof.
  revert ts'. induction ts as [|t ts IH]; intros [|t' ts']; cbn [common_prefix length]; [lia..|].
  case_bool_decide; [|lia]. specialize (IH ts'). lia.
Qed.

Lemma best_match_bounds children tokens : ∀ best len b len',
  (∀ b, best = Some b → 0 < len ≤ Z.of_nat (length tokens)) → 0 ≤ len →
  best_match_loop children tokens best len = (Some b, len') → 0 < len' ≤ Z.of_nat (length tokens).
Proof.
  induction children as [|[k c] children IH]; intros best len b len' Hb Hl; cbn [best_match_loop].
  - intros [= -> <-]. by apply (Hb b).
  - pose proof (common_prefix_bounds tokens (block_tokens c)). unfold partial_match_this_node.
    destruct (Z.ltb_spec len (common_prefix tokens (block_tokens c))); apply IH; try done; [|lia].
    intros b0 [= <-]. lia.
Qed.

Section walk.
Context (tpb : nat) (Htpb : (0 < tpb)%nat).

(** The chunks of a token sequence: full ones, then one that may be short. *)
Fixpoint chunks_wf (ks : list (list TokenIdExt * bytes)) : Prop :=
  match ks with
  | [] => True
  | (blk, _) :: ks => (0 < length blk ≤ tpb)%nat ∧ (ks ≠ [] → length blk = tpb) ∧ chunks_wf ks
  end.

Lemma chain_chunks_wf sha256 fuel : ∀ tokens digest ks,
  chain_keys sha256 fuel tpb digest tokens = Ok ks → chunks_wf ks ∧ (ks ≠ [] → tokens ≠ []).
Proof.
  induction fuel as [|fuel IH]; intros tokens digest ks H; cbn [chain_keys] in H.
  - destruct (take tpb tokens); [|done]. by injection H as <-.
  - destruct (take tpb tokens) as [|t ts] eqn:Ht; [by injection H as <-|]. inv_ok.
    apply IH in Hv0 as [Hwf Hne]. assert (Hl : length (t :: ts) = Nat.min tpb (length tokens))
      by (by rewrite <- Ht, length_take).
    split; [|intros _ ->; by rewrite take_nil in Ht]. cbn [chunks_wf]. split; [cbn in Hl |- *; lia|].
    split; [|done]. intros Hks. specialize (Hne Hks). rewrite Hl.
    assert (length (drop tpb tokens) ≠ 0)%nat as Hd by (by destruct (drop tpb tokens)).
    rewrite length_drop in Hd. lia.
Qed.

Lemma walk_wf ks p : ∀ next, chunks_wf ks → match_wf (Z.of_nat tpb) (walk_blocks next ks p).
Proof.
  induction ks as [|[blk k] ks IH]; intros next Hwf; cbn [walk_blocks]; [by intros i b m|].
  destruct Hwf as (Hb & Hfull & Hwf). destruct (dict_get k next) as [c|].
  - intros [|i] b m Hi; cbn in Hi.
    + injection Hi as <- <-. split; [lia|]. intros Hlen. cbn in Hlen.
      destruct ks as [|k' ks]; [cbn in Hlen; lia|]. rewrite Hfull by done. done.
    + destruct (IH _ Hwf i b m Hi) as [H1 H2]. split; [done|]. intros Hlen. apply H2. cbn in Hlen. lia.
  - destruct p; [|by intros i b m]. unfold find_best_partial_match_in_next_nodes.
    destruct (32 <=? length next)%nat; [by intros i b m|].
    destruct (best_match_loop next blk None 0) as [[c|] len] eqn:E; [|by intros i b m].
    apply best_match_bounds in E; [|done..]. intros i b m [-> [= <- <-]]%list_lookup_singleton_Some.
    cbn. lia.
Qed.
End walk.

Lemma match_token_path_wf sha256 t scope tokens p path :
  (0 < _tokens_per_block t)%nat → match_token_path sha256 t scope tokens p = Ok path →
  match_wf (Z.of_nat (_tokens_per_block t)) path.
Proof.
  intros Ht H. unfold match_token_path in H. inv_ok. unfold sequence_to_blockchain_keys in Hv. inv_ok.
  destruct (dict_get _ (tree_next t)); injection H as <-; [|by intros i b m].
  apply walk_wf; [done|]. by apply chain_chunks_wf in Hv1 as [Hc _].
Qed.

(** ** The registry's life cycles *)

Lemma make_attn_wf w s tpb a : make_attn w s tpb = Ok a → lc_wf a.
Proof.
  unfold make_attn. intros H. inv_ok. apply Z.ltb_lt in Hv. split; cbn.
  - apply div_up_nonneg; [done|]. destruct s; cbn; [by apply Z.leb_le|lia].
  - intros w' ->. by apply Z.ltb_lt.
Qed.

Definition life_cycle_wf (lc : LifeCycle) : Prop := match lc with Attn a => lc_wf a | Ssm => True end.

Lemma register_wf tpb layers : ∀ r r',
  register layers tpb r = Ok r' → Forall life_cycle_wf (_life_cycle_list r) →
  Forall life_cycle_wf (_life_cycle_list r').
Proof.
  induction layers as [|layer layers IH]; intros r r' H Hr; cbn [register] in H; [by injection H as <-|].
  inv_ok. destruct (_life_cycle_id_dict r !! v); [by eapply IH|]. inv_ok. eapply IH; [done|]. cbn.
  apply Forall_app. split; [done|]. apply Forall_singleton. destruct layer; cbn in Hv; inv_ok; [|done].
  by eapply make_attn_wf.
Qed.

Lemma attention_wf layers tpb r i lc :
  registry_init layers tpb = Ok r → (i, lc) ∈ attention_life_cycles r → lc_wf lc.
Proof.
  intros H Hin. apply register_wf in H; [|constructor]. unfold attention_life_cycles, items in Hin.
  apply list_elem_of_omap in Hin as ([j l] & Hin & He). apply list_elem_of_lookup in Hin as [k Hk].
  rewrite list_lookup_imap in Hk. destruct (_life_cycle_list r !! k) as [l'|] eqn:E; [|done].
  injection Hk as <- <-. cbn in He. destruct l' as [a|]; [|done]. injection He as <- <-.
  rewrite Forall_lookup in H. by apply (H _ _ E).
Qed.

(** C16: a match returns the longest prefix that can be reused.  Of the blocks
    found by walking the keys, [match] keeps the first [n] tokens, where [n]
    is the largest length for which the recurrent state after exactly [n]
    tokens is stored (if there are SSM layers) and, for every attention life
    cycle, the pages of all blocks that attention after [n] tokens reads
    cover the matched tokens.  The cut-back loop always ends. *)
Theorem match_is_longest_reusable sha256 t scope tokens partial layers path :
  (0 < _tokens_per_block t)%nat →
  registry_init layers (Z.of_nat (_tokens_per_block t)) = Ok (_life_cycles t) →
  match_token_path sha256 t scope tokens partial = Ok path →
  let tpb := Z.of_nat (_tokens_per_block t) in
  let can_reuse := reusable tpb (attention_life_cycles (_life_cycles t))
                     (ssm_life_cycle_id (_life_cycles t)) path in
  ∃ n, match_ sha256 t scope tokens partial =
      Ok (mkMatch (cut tpb n path).*1 n (Z.of_nat (length tokens))) ∧
    0 ≤ n ≤ num_matched_tokens tpb path ∧ can_reuse n ∧
    ∀ k, 0 ≤ k ≤ num_matched_tokens tpb path → can_reuse k → k ≤ n.
Proof.
  intros Ht Hreg Hpath tpb can_reuse. assert (Htpb : 0 < tpb) by lia.
  pose proof (match_token_path_wf _ _ _ _ _ _ Ht Hpath) as Hwf. fold tpb in Hwf.
  pose proof (match_wf_cut tpb Htpb path Hwf) as Hcut.
  assert (HN : 0 ≤ num_matched_tokens tpb path ≤ tpb * Z.of_nat (length path)).
  { destruct path as [|[b m] c _] using rev_ind; [unfold num_matched_tokens; cbn; lia|].
    rewrite num_matched_app, length_app. destruct (Hwf (length c) b m) as [Hm _]; [by apply list_lookup_middle|].
    cbn. nia. }
  destruct (prune_loop_ok tpb Htpb (attention_life_cycles (_life_cycles t))
    (ssm_life_cycle_id (_life_cycles t)) path
    (λ i lc H, attention_wf _ _ _ i lc Hreg H) (S (Z.to_nat (num_matched_tokens tpb path)))
    (num_matched_tokens tpb path) HN ltac:(lia)) as (n & Hn & Hle & Hre & Hmax).
  rewrite <- Hcut in Hn. exists n. split; [|done]. unfold match_, prune_match. rewrite Hpath. fold tpb.
  cbv beta iota delta [mbind result_bind].
  rewrite (proj2 (forallb_forall _ _)).
  - cbv beta iota delta [py_assert]. rewrite Hn. by rewrite cut_num by lia.
  - intros [b m] [i Hi]%list_elem_of_In%list_elem_of_lookup. apply lookup_take_Some in Hi as [Hi Hlt].
    apply Z.eqb_eq. destruct (Hwf i b m Hi) as [_ Hf]. apply Hf. lia.
Qed.

(** ** Witness *)

(** Full attention, a window of two tokens, and an SSM layer. *)
Definition ex_model : list LayerConfig :=
  [AttentionLayerConfig None None; AttentionLayerConfig (Some 2) None; SsmLayerConfig].

Definition ex_registry : LifeCycleRegistry :=
  match registry_init ex_model 2 with Ok r => r | Raise _ => mkRegistry [] ∅ end.

Definition ex_key (i : nat) : bytes := default [] (snd <$> ex_keys ex_scope (ex_tokens 16) !! i).

Definition ex_b3 : Block := mkBlock (ex_key 3) [TokenId 15; TokenId 16] [Some 1; Some 2; None] [].
Definition ex_b2 : Block :=
  mkBlock (ex_key 2) [TokenId 13; TokenId 14] [Some 2; Some 2; Some 2] [(ex_key 3, ex_b3)].
Definition ex_b1 : Block := mkBlock (ex_key 1) [TokenId 11; TokenId 12] [Some 2; None; None] [(ex_key 2, ex_b2)].
Definition ex_tree : BlockRadixTree :=
  mkTree ex_registry 2 [(ex_key 0, mkRoot (ex_key 0) ex_scope [(ex_key 1, ex_b1)])].

(** All three blocks are found, but the only snapshot is after four tokens. *)
Lemma match_witness :
  match_ toy_hash ex_tree ex_scope (ex_tokens 16) true = Ok (mkMatch [ex_b1; ex_b2] 4 6) ∧
  ∀ k, 0 ≤ k ≤ 6 →
    reusable 2 (attention_life_cycles ex_registry) (ssm_life_cycle_id ex_registry)
      [(ex_b1, 2); (ex_b2, 2); (ex_b3, 2)] k → k ≤ 4.
Proof.
  assert (Hm : match_ toy_hash ex_tree ex_scope (ex_tokens 16) true = Ok (mkMatch [ex_b1; ex_b2] 4 6))
    by (vm_compute; reflexivity).
  split; [exact Hm|].
  destruct (match_is_longest_reusable toy_hash ex_tree ex_scope (ex_tokens 16) true ex_model
    [(ex_b1, 2); (ex_b2, 2); (ex_b3, 2)]) as (n & Hn & _ & _ & Hmax).
  - apply Nat.lt_0_succ.
  - vm_compute. reflexivity.
  - vm_compute. reflexivity.
  - rewrite Hm in Hn. injection Hn as _ <-. exact Hmax.
Defined.
