(* ===== verification/Mapping.v ===== *)
(** * The process grid ([tensorrt_llm/mapping.py])

    A [Mapping] places a rank in a grid of pipeline stages, tensor-parallel
    and context-parallel ranks, and derives from it the communication groups,
    the layers of a stage and the experts of a rank.  This is the MPI
    topology; the device-mesh topology asks PyTorch for its groups. *)

From Stdlib Require Import Ascii String.
From stdpp Require Import strings.
From S2P Require Import Prelude.

Local Open Scope Z_scope.

(** ** Python *)

Definition py_floordiv (a b : Z) : result Z :=
  if b =? 0 then Raise ZeroDivisionError else Ok (a / b).

(** [list(range(start, stop, step))] *)
Definition py_range (start stop step : Z) : result (list Z) :=
  if step =? 0 then Raise ValueError
  else
    let n := if 0 <? step then (stop - start + step - 1) / step
             else (start - stop - step - 1) / (- step) in
    Ok ((λ k, start + k * step) <$> seqZ 0 n).

Definition upper_ascii (c : ascii) : ascii :=
  let n := Ascii.nat_of_ascii c in
  if (97 <=? n)%nat && (n <=? 122)%nat then Ascii.ascii_of_nat (n - 32) else c.

Fixpoint upper (s : string) : string :=
  match s with
  | EmptyString => EmptyString
  | String c s => String (upper_ascii c) (upper s)
  end.

(** ** Context parallelism *)

Inductive CpType := ULYSSES | STAR | RING | HELIX.

#[global] Instance CpType_eq_dec : EqDecision CpType.
Proof. solve_decision. Defined.

(** [CpType.__members__] *)
Definition cp_type_of (s : string) : option CpType :=
  if String.eqb s "ULYSSES" then Some ULYSSES
  else if String.eqb s "STAR" then Some STAR
  else if String.eqb s "RING" then Some RING
  else if String.eqb s "HELIX" then Some HELIX
  else None.

(** The [cp_config] dict: its [cp_type], a string ([CpType] is one), and the
    other entries. *)
Record CpConfig := mkCpConfig {
  cp_type : option string;
  cp_others : list (string * Z);
}.

#[global] Instance CpConfig_eq_dec : EqDecision CpConfig.
Proof. solve_decision. Defined.

(** The stored config and its type.  The type is a string or missing; the
    caller's dictionary, which the source updates in place, is not kept. *)
Definition resolve_cp (cfg : option CpConfig) : result (CpConfig * CpType) :=
  match cfg with
  | None => Ok (mkCpConfig None [], ULYSSES)
  | Some c =>
      match cp_type c with
      | None => Ok (c, ULYSSES)
      | Some s =>
          match cp_type_of (upper s) with
          | None => Raise ValueError
          | Some t => Ok (mkCpConfig (Some (upper s)) (cp_others c), t)
          end
      end
  end.

(** ** The constructor *)

Record MappingArgs := mkArgs {
  a_world_size : Z;
  a_rank : Z;
  a_gpus_per_node : Z;
  a_cp_size : Z;
  a_cp_config : option CpConfig;
  a_tp_size : Z;
  a_pp_size : Z;
  a_pp_partition : option (list Z);
  a_moe_cluster_size : Z;
  a_moe_tp_size : Z;
  a_moe_ep_size : Z;
  a_attn_tp_size : Z;
  a_attn_cp_size : Z;
  a_enable_attention_dp : bool;
  a_enable_lm_head_tp_in_adp : bool;
  a_dwdp_size : Z;
  a_dwdp_rank : Z;
}.

Record Mapping := mkMapping {
  world_size : Z;
  rank : Z;
  gpus_per_node : Z;
  cp_size : Z;
  cp_config : CpConfig;
  tp_size : Z;
  pp_size : Z;
  pp_partition : option (list Z);
  moe_cluster_size : Z;
  moe_tp_size : Z;
  moe_ep_size : Z;
  moe_tp_cluster_ep_size : Z;
  attn_tp_size : Z;
  attn_cp_size : Z;
  enable_attention_dp : bool;
  enable_lm_head_tp_in_adp : bool;
  _dwdp_size : Z;
  _dwdp_rank : Z;
  moe_tp_ep_user_specified : bool;
}.

(** The defaults of the MoE sizes. *)
Definition resolve_moe (dwdp_size moe_world_size cluster tp ep : Z) : result (Z * Z * Z) :=
  if 1 <? dwdp_size then Ok (1, 1, 1)
  else if (tp =? -1) && (ep =? -1) then t ← py_floordiv moe_world_size cluster; Ok (cluster, t, 1)
  else if tp =? -1 then t ← py_floordiv moe_world_size (ep * cluster); Ok (cluster, t, ep)
  else if ep =? -1 then e ← py_floordiv moe_world_size (tp * cluster); Ok (cluster, tp, e)
  else Ok (cluster, tp, ep).

(** The defaults of the attention sizes. *)
Definition resolve_attn (t : CpType) (tp_size cp_size attn_tp attn_cp : Z) : result (Z * Z) :=
  if (attn_tp =? -1) && (attn_cp =? -1) then
    if bool_decide (t = ULYSSES) then Ok (tp_size * cp_size, 1) else Ok (tp_size, cp_size)
  else if attn_tp =? -1 then a ← py_floordiv (tp_size * cp_size) attn_cp; Ok (a, attn_cp)
  else if attn_cp =? -1 then c ← py_floordiv (tp_size * cp_size) attn_tp; Ok (attn_tp, c)
  else Ok (attn_tp, attn_cp).

(** [if cond: raise e] *)
Definition raise_if (b : bool) (e : py_exc) : result () := if b then Raise e else Ok ().

Definition mapping_init (a : MappingArgs) : result Mapping :=
  let dwdp_size := a_dwdp_size a in
  raise_if ((dwdp_size <? 0) || (dwdp_size =? 1)) ValueError ≫= λ _,
  raise_if ((1 <? dwdp_size) && ((a_dwdp_rank a <? 0) || (dwdp_size <=? a_dwdp_rank a))) ValueError ≫= λ _,
  let cluster := if a_moe_cluster_size a =? -1 then 1 else a_moe_cluster_size a in
  '(cfg, t) ← resolve_cp (a_cp_config a);
  let tp_size := a_tp_size a in
  let cp_size := a_cp_size a in
  let moe_world_size := if bool_decide (t = ULYSSES) then tp_size else tp_size * cp_size in
  let user_specified := (dwdp_size <=? 1) &&
        (negb (a_moe_tp_size a =? -1) || negb (a_moe_ep_size a =? -1)) in
  '(cluster, moe_tp, moe_ep) ←
    resolve_moe dwdp_size moe_world_size cluster (a_moe_tp_size a) (a_moe_ep_size a);
  '(attn_tp, attn_cp) ← resolve_attn t tp_size cp_size (a_attn_tp_size a) (a_attn_cp_size a);
  raise_if (negb (attn_cp =? 1) && bool_decide (t = ULYSSES)) ValueError ≫= λ _,
  raise_if (negb (tp_size * a_pp_size a * cp_size =? a_world_size a)) ValueError ≫= λ _,
  let group_size := if 1 <? dwdp_size then cluster else moe_tp * moe_ep * cluster in
  raise_if (negb (1 <? dwdp_size) && negb (group_size =? moe_world_size)) ValueError ≫= λ _,
  raise_if (negb (attn_tp * attn_cp =? tp_size * cp_size)) ValueError ≫= λ _,
  raise_if (negb (moe_ep =? 1) && (1 <? cp_size) && negb (bool_decide (t = HELIX)))
    NotImplementedError ≫= λ _,
  py_assert (negb (1 <? cluster) || (moe_ep =? 1)) ≫= λ _,
  py_assert (negb (a_enable_lm_head_tp_in_adp a) || a_enable_attention_dp a) ≫= λ _,
  raise_if (negb (a_enable_attention_dp a) && ((a_rank a <? 0) || (a_world_size a <=? a_rank a)))
    ValueError ≫= λ _,
  Ok {| world_size := a_world_size a; rank := a_rank a; gpus_per_node := a_gpus_per_node a;
        cp_size := cp_size; cp_config := cfg; tp_size := tp_size; pp_size := a_pp_size a;
        pp_partition := a_pp_partition a; moe_cluster_size := cluster; moe_tp_size := moe_tp;
        moe_ep_size := moe_ep; moe_tp_cluster_ep_size := group_size; attn_tp_size := attn_tp;
        attn_cp_size := attn_cp; enable_attention_dp := a_enable_attention_dp a;
        enable_lm_head_tp_in_adp := a_enable_lm_head_tp_in_adp a; _dwdp_size := dwdp_size;
        _dwdp_rank := a_dwdp_rank a; moe_tp_ep_user_specified := user_specified |}.

(** [__eq__] *)
Definition mapping_eq (m o : Mapping) : bool :=
  (world_size m =? world_size o) && (rank m =? rank o) && (gpus_per_node m =? gpus_per_node o) &&
  (cp_size m =? cp_size o) && (tp_size m =? tp_size o) &&
  (moe_cluster_size m =? moe_cluster_size o) && (pp_size m =? pp_size o) &&
  bool_decide (pp_partition m = pp_partition o) && (moe_tp_size m =? moe_tp_size o) &&
  (moe_ep_size m =? moe_ep_size o) && (attn_tp_size m =? attn_tp_size o) &&
  (attn_cp_size m =? attn_cp_size o) && bool_decide (cp_config m = cp_config o) &&
  (_dwdp_size m =? _dwdp_size o) && (_dwdp_rank m =? _dwdp_rank o).

(** [to_dict], as the arguments [from_dict] passes to the constructor; what it
    leaves out takes its default. *)
Definition to_dict (m : Mapping) : MappingArgs :=
  {| a_world_size := world_size m; a_rank := rank m; a_gpus_per_node := gpus_per_node m;
     a_cp_size := cp_size m; a_cp_config := Some (cp_config m); a_tp_size := tp_size m;
     a_pp_size := pp_size m; a_pp_partition := None; a_moe_cluster_size := moe_cluster_size m;
     a_moe_tp_size := moe_tp_size m; a_moe_ep_size := moe_ep_size m;
     a_attn_tp_size := attn_tp_size m; a_attn_cp_size := attn_cp_size m;
     a_enable_attention_dp := enable_attention_dp m;
     a_enable_lm_head_tp_in_adp := enable_lm_head_tp_in_adp m;
     a_dwdp_size := _dwdp_size m; a_dwdp_rank := _dwdp_rank m |}.

Definition from_dict (d : MappingArgs) : result Mapping := mapping_init d.

(** ** Coordinates of the rank

    The sizes are not zero: their product is the world size, which the rank
    is below. *)

Definition tp_rank (m : Mapping) : Z := rank m `mod` (tp_size m * cp_size m) / cp_size m.
Definition pp_rank (m : Mapping) : Z := rank m / (tp_size m * cp_size m).
Definition cp_rank (m : Mapping) : Z := rank m `mod` cp_size m.

Definition moe_tp_rank (m : Mapping) : Z := tp_rank m / (moe_ep_size m * moe_cluster_size m).
Definition moe_cluster_rank (m : Mapping) : Z := tp_rank m `mod` moe_cluster_size m.
Definition moe_ep_rank (m : Mapping) : Z :=
  if 1 <? _dwdp_size m then 0 else tp_rank m `mod` moe_ep_size m.

Definition node_rank (m : Mapping) : Z := rank m / gpus_per_node m.
Definition local_rank (m : Mapping) : Z := rank m `mod` gpus_per_node m.
Definition dp_size (m : Mapping) : Z := if enable_attention_dp m then tp_size m else 1.

Definition has_cp_helix (m : Mapping) : bool :=
  (1 <? cp_size m) && bool_decide (cp_type (cp_config m) = Some "HELIX"%string).

Definition is_last_pp_rank (m : Mapping) : bool := pp_rank m =? pp_size m - 1.
Definition is_first_pp_rank (m : Mapping) : bool := pp_rank m =? 0.
Definition has_pp (m : Mapping) : bool := 1 <? pp_size m.

Definition prev_pp_rank (m : Mapping) : Z :=
  let p := rank m - tp_size m * cp_size m in
  if p <? 0 then p + world_size m else p.

Definition next_pp_rank (m : Mapping) : Z :=
  let p := rank m + tp_size m * cp_size m in
  if world_size m <=? p then p - world_size m else p.

Definition prev_cp_rank (m : Mapping) : Z :=
  if cp_rank m =? 0 then rank m + cp_size m - 1 else rank m - 1.

Definition next_cp_rank (m : Mapping) : Z :=
  if cp_rank m =? cp_size m - 1 then rank m - cp_size m + 1 else rank m + 1.

(** ** Communication groups ([MpiTopology._init_parallel_groups]) *)

(** [for i in range(n)], collecting the groups. *)
Definition for_range {A} (n : Z) (f : Z → result (list A)) : result (list A) :=
  @List.concat _ <$> mapM f (seqZ 0 n).

Definition one_group (start stop step : Z) : result (list (list Z)) :=
  g ← py_range start stop step; Ok [g].

Definition pp_groups (m : Mapping) : result (list (list Z)) :=
  for_range (tp_size m * cp_size m) (λ i, one_group i (world_size m) (tp_size m * cp_size m)).

Definition cp_groups (m : Mapping) : result (list (list Z)) :=
  for_range (pp_size m) (λ i, for_range (tp_size m) (λ j,
    one_group (i * tp_size m * cp_size m + j * cp_size m)
      (i * tp_size m * cp_size m + (j + 1) * cp_size m) 1)).

Definition tp_groups (m : Mapping) : result (list (list Z)) :=
  for_range (pp_size m) (λ i, for_range (cp_size m) (λ j,
    one_group (i * tp_size m * cp_size m + j) ((i + 1) * tp_size m * cp_size m + j) (cp_size m))).

Definition moe_tp_groups (m : Mapping) : result (list (list Z)) :=
  for_range (pp_size m) (λ i, for_range (moe_cluster_size m * moe_ep_size m) (λ j,
    one_group (i * moe_tp_cluster_ep_size m + j) ((i + 1) * moe_tp_cluster_ep_size m)
      (moe_cluster_size m * moe_ep_size m))).

Definition moe_cluster_groups (m : Mapping) : result (list (list Z)) :=
  for_range (pp_size m) (λ i, for_range (moe_tp_size m) (λ j,
    one_group (i * moe_tp_cluster_ep_size m + j * moe_cluster_size m * moe_ep_size m)
      (i * moe_tp_cluster_ep_size m + (j + 1) * moe_cluster_size m * moe_ep_size m) 1)).

Definition moe_ep_groups (m : Mapping) : result (list (list Z)) :=
  for_range (pp_size m) (λ i, for_range (moe_tp_size m) (λ j, for_range (moe_cluster_size m) (λ k,
    one_group (i * moe_tp_cluster_ep_size m + j * moe_cluster_size m * moe_ep_size m + k * moe_ep_size m)
      (i * moe_tp_cluster_ep_size m + j * moe_cluster_size m * moe_ep_size m + (k + 1) * moe_ep_size m) 1))).

Definition group_at (groups : result (list (list Z))) (i : Z) : result (list Z) :=
  gs ← groups; py_getitem gs i.

Definition tp_group (m : Mapping) := group_at (tp_groups m) (pp_rank m * cp_size m + cp_rank m).
Definition pp_group (m : Mapping) := group_at (pp_groups m) (tp_rank m * cp_size m + cp_rank m).
Definition cp_group (m : Mapping) := group_at (cp_groups m) (pp_rank m * tp_size m + tp_rank m).
Definition moe_tp_group (m : Mapping) :=
  group_at (moe_tp_groups m) (pp_rank m * moe_cluster_size m * moe_ep_size m +
    moe_cluster_rank m * moe_ep_size m + moe_ep_rank m).
Definition moe_ep_group (m : Mapping) :=
  group_at (moe_ep_groups m) (pp_rank m * moe_tp_size m * moe_cluster_size m +
    moe_tp_rank m * moe_cluster_size m + moe_cluster_rank m).
Definition moe_cluster_group (m : Mapping) :=
  group_at (moe_cluster_groups m) (pp_rank m * moe_tp_size m + moe_tp_rank m).

(** ** Layers and experts *)

(** [torch.arange(n).split(sizes)] and [torch.tensor_split(torch.arange(n), k)]. *)
Class TorchSplit := {
  arange_split : Z → list Z → list (list Z);
  arange_tensor_split : Z → Z → list (list Z);
}.

Section layers.
Context `{!TorchSplit}.

Definition check_partition (m : Mapping) (partition : list Z) (num_layers : Z) : result () :=
  raise_if (negb (Z.of_nat (length partition) =? pp_size m)) ValueError ≫= λ _,
  raise_if (negb (zsum partition =? num_layers)) ValueError.

Definition pp_layers (m : Mapping) (num_layers : Z) : result (list Z) :=
  match pp_partition m with
  | Some partition =>
      check_partition m partition num_layers ≫= λ _,
      py_getitem (arange_split num_layers partition) (pp_rank m)
  | None => py_getitem (arange_tensor_split num_layers (pp_size m)) (pp_rank m)
  end.

Fixpoint owner_loop (partition : list Z) (pp_rank end_ layer_idx : Z) : result Z :=
  match partition with
  | [] => Raise RuntimeError
  | n :: partition =>
      let end_ := end_ + n in
      if layer_idx <? end_ then Ok pp_rank else owner_loop partition (pp_rank + 1) end_ layer_idx
  end.

Definition pp_rank_of_layer (m : Mapping) (layer_idx num_layers : Z) : result Z :=
  raise_if ((layer_idx <? 0) || (num_layers <=? layer_idx)) ValueError ≫= λ _,
  if negb (has_pp m) then Ok 0
  else
    match pp_partition m with
    | Some partition =>
        check_partition m partition num_layers ≫= λ _,
        owner_loop partition 0 0 layer_idx
    | None =>
        let base := num_layers / pp_size m in
        let rem := num_layers `mod` pp_size m in
        if base =? 0 then Ok layer_idx
        else
          let cutoff := (base + 1) * rem in
          if layer_idx <? cutoff then Ok (layer_idx / (base + 1))
          else Ok (rem + (layer_idx - cutoff) / base)
    end.
End layers.

Definition ep_experts (m : Mapping) (num_experts : Z) : result (list Z) :=
  py_assert (cp_size m =? 1) ≫= λ _,
  experts_per_rank ← py_floordiv num_experts (moe_ep_size m);
  py_range (moe_ep_rank m * experts_per_rank) ((moe_ep_rank m + 1) * experts_per_rank) 1.

(** [repurpose_helix_cp_to_tp] *)
Definition repurpose_helix_cp_to_tp (m : Mapping) : result Mapping :=
  py_assert (has_cp_helix m) ≫= λ _,
  mapping_init
    {| a_world_size := world_size m; a_rank := rank m; a_gpus_per_node := gpus_per_node m;
       a_cp_size := 1; a_cp_config := Some (mkCpConfig None []);
       a_tp_size := tp_size m * cp_size m; a_pp_size := pp_size m;
       a_pp_partition := pp_partition m; a_moe_cluster_size := moe_cluster_size m;
       a_moe_tp_size := moe_tp_size m; a_moe_ep_size := moe_ep_size m;
       a_attn_tp_size := -1; a_attn_cp_size := -1;
       a_enable_attention_dp := enable_attention_dp m;
       a_enable_lm_head_tp_in_adp := enable_lm_head_tp_in_adp m;
       a_dwdp_size := _dwdp_size m; a_dwdp_rank := _dwdp_rank m |}.
