(* ===== verification/MappingProps.v ===== *)
(** * Correctness of the process grid

    Ranks and grid coordinates are in bijection and the groups of a rank are
    the lines of the grid through it; [pp_rank_of_layer] inverts [pp_layers];
    what a mapping loses on its way through [to_dict]. *)

From stdpp Require Import strings.
From S2P Require Import Prelude Mapping.

Local Open Scope Z_scope.

(** A mapping whose sizes make a grid that holds its rank. *)
Record grid_wf (m : Mapping) : Prop := {
  gw_tp : 0 < tp_size m;
  gw_cp : 0 < cp_size m;
  gw_pp : 0 < pp_size m;
  gw_world : world_size m = tp_size m * pp_size m * cp_size m;
  gw_rank : 0 ≤ rank m < world_size m;
}.

Lemma raise_if_ok b e u : raise_if b e = Ok u ↔ b = false.
Proof. destruct b, u; cbn; naive_solver. Qed.

(** Invert a constructor call. *)
Ltac inv_init :=
  repeat match goal with
  | H : raise_if _ _ = Ok _ |- _ => apply raise_if_ok in H
  | H : (let '(_, _) := ?v in _) = Ok _ |- _ => destruct v
  | _ => progress inv_ok
  end.

Lemma mapping_init_wf a m :
  mapping_init a = Ok m → 0 < a_tp_size a → 0 < a_cp_size a → 0 < a_pp_size a →
  a_enable_attention_dp a = false → grid_wf m.
Proof.
  unfold mapping_init. intros H Ht Hc Hp Hadp. inv_init. split; cbn; try done; [lia|].
  rewrite Hadp in *. lia.
Qed.

(** ** Lists of groups *)

Lemma concat_lookup {A} (l : Z → list A) k (n : nat) : ∀ a i j,
  (∀ i, length (l i) = Z.to_nat k) → a ≤ i < a + Z.of_nat n → 0 ≤ j < k →
  List.concat (l <$> seqZ a (Z.of_nat n)) !! Z.to_nat ((i - a) * k + j) = l i !! Z.to_nat j.
Proof.
  induction n as [|n IH]; intros a i j Hl Hi Hj; [lia|].
  rewrite seqZ_cons by lia. cbn [fmap list_fmap List.concat].
  replace (Z.pred (Z.of_nat (S n))) with (Z.of_nat n) by lia.
  destruct (decide (i = a)) as [->|Hne].
  - rewrite lookup_app_l by (rewrite Hl; lia). f_equal. lia.
  - rewrite lookup_app_r by (rewrite Hl; nia). rewrite Hl.
    rewrite <- (IH (Z.succ a) i j Hl) by lia. f_equal. nia.
Qed.

Lemma mapM_ok_seq {A B} (f : A → result B) (h : A → B) l :
  (∀ x, x ∈ l → f x = Ok (h x)) → mapM f l = Ok (h <$> l).
Proof.
  induction l as [|x l IH]; intros Hf; [done|]. cbn. rewrite (Hf x) by left. cbn.
  rewrite IH; [done|]. intros y Hy. apply Hf. by right.
Qed.

Lemma for_range_ok {A} n (f : Z → result (list A)) h :
  (∀ i, 0 ≤ i < n → f i = Ok (h i)) → for_range n f = Ok (List.concat (h <$> seqZ 0 n)).
Proof.
  intros Hf. unfold for_range. rewrite (mapM_ok_seq _ h); [done|].
  intros x [? ?]%elem_of_seqZ. apply Hf. lia.
Qed.

Lemma for_range_single {A} n (f : Z → result (list A)) h :
  (∀ i, 0 ≤ i < n → f i = Ok [h i]) → for_range n f = Ok (h <$> seqZ 0 n).
Proof.
  intros Hf. rewrite (for_range_ok n f (λ i, [h i])) by done. f_equal.
  by induction (seqZ 0 n) as [|x l IH]; [|cbn; f_equal].
Qed.

Lemma group_at_ok gs g i : 0 ≤ i → gs !! Z.to_nat i = Some g → group_at (Ok gs) i = Ok g.
Proof. intros Hi Hg. cbn. by apply py_getitem_nonneg. Qed.

Lemma seqZ_fmap_lookup {A} (h : Z → A) n j : 0 ≤ j < n → (h <$> seqZ 0 n) !! Z.to_nat j = Some (h j).
Proof.
  intros Hj. rewrite list_lookup_fmap, lookup_seqZ_lt by lia. cbn. f_equal. f_equal. lia.
Qed.

(** A group of a doubly indexed family. *)
Lemma nested_group n k (f : Z → result (list (list Z))) h i j :
  (∀ i, 0 ≤ i < n → f i = Ok (h i <$> seqZ 0 k)) → 0 ≤ i < n → 0 ≤ j < k →
  group_at (for_range n f) (i * k + j) = Ok (h i j).
Proof.
  intros Hf Hi Hj. rewrite (for_range_ok n f (λ i, h i <$> seqZ 0 k)) by done.
  apply group_at_ok; [nia|]. replace (i * k + j) with ((i - 0) * k + j) by lia.
  rewrite <- (Z2Nat.id n) by lia.
  rewrite (concat_lookup _ k (Z.to_nat n) 0 i j); [by apply seqZ_fmap_lookup| |lia|done].
  intros i'. rewrite length_fmap, length_seqZ. lia.
Qed.

Lemma py_range_ok a b s n :
  0 < s → 0 < n → a + (n - 1) * s < b ≤ a + n * s →
  py_range a b s = Ok ((λ k, a + k * s) <$> seqZ 0 n).
Proof.
  intros Hs Hn Hb. unfold py_range. rewrite (proj2 (Z.eqb_neq s 0)), (proj2 (Z.ltb_lt 0 s)) by lia.
  do 3 f_equal. symmetry. apply (Z.div_unique _ _ _ (b - a - 1 - (n - 1) * s)); lia.
Qed.

Lemma one_group_ok a b s n :
  0 < s → 0 < n → a + (n - 1) * s < b ≤ a + n * s →
  one_group a b s = Ok [(λ k, a + k * s) <$> seqZ 0 n].
Proof. intros. unfold one_group. by rewrite (py_range_ok _ _ _ n). Qed.

(** ** Coordinates *)

Definition rank_of (m : Mapping) (p t c : Z) : Z :=
  p * (tp_size m * cp_size m) + t * cp_size m + c.

Definition with_rank (m : Mapping) (r : Z) : Mapping :=
  {| world_size := world_size m; rank := r; gpus_per_node := gpus_per_node m;
     cp_size := cp_size m; cp_config := cp_config m; tp_size := tp_size m; pp_size := pp_size m;
     pp_partition := pp_partition m; moe_cluster_size := moe_cluster_size m;
     moe_tp_size := moe_tp_size m; moe_ep_size := moe_ep_size m;
     moe_tp_cluster_ep_size := moe_tp_cluster_ep_size m; attn_tp_size := attn_tp_size m;
     attn_cp_size := attn_cp_size m; enable_attention_dp := enable_attention_dp m;
     enable_lm_head_tp_in_adp := enable_lm_head_tp_in_adp m; _dwdp_size := _dwdp_size m;
     _dwdp_rank := _dwdp_rank m; moe_tp_ep_user_specified := moe_tp_ep_user_specified m |}.

Lemma tp_rank_alt m : 0 < tp_size m → 0 < cp_size m → tp_rank m = (rank m / cp_size m) `mod` tp_size m.
Proof.
  intros Ht Hc. unfold tp_rank. rewrite (Z.mul_comm (tp_size m)), Z.rem_mul_r by lia.
  rewrite Z.mul_comm, Z.div_add by lia. rewrite Z.div_small by (by apply Z.mod_pos_bound). lia.
Qed.

Lemma coordinates m :
  grid_wf m →
  rank m = rank_of m (pp_rank m) (tp_rank m) (cp_rank m) ∧
  0 ≤ pp_rank m < pp_size m ∧ 0 ≤ tp_rank m < tp_size m ∧ 0 ≤ cp_rank m < cp_size m.
Proof.
  intros [Ht Hc Hp Hw Hr]. rewrite tp_rank_alt by done. unfold rank_of, pp_rank, cp_rank.
  assert (0 < tp_size m * cp_size m) by nia.
  pose proof (Z.div_mod (rank m) (cp_size m) ltac:(lia)) as H1.
  pose proof (Z.div_mod (rank m / cp_size m) (tp_size m) ltac:(lia)) as H2.
  rewrite Z.div_div in H2 by lia. rewrite (Z.mul_comm (cp_size m)) in H2.
  pose proof (Z.mod_pos_bound (rank m) (cp_size m) Hc).
  pose proof (Z.mod_pos_bound (rank m / cp_size m) (tp_size m) Ht).
  split; [nia|]. split; [|done]. split; [apply Z.div_pos; lia|]. apply Z.div_lt_upper_bound; nia.
Qed.

Lemma rank_of_coordinates m p t c :
  grid_wf m → 0 ≤ p < pp_size m → 0 ≤ t < tp_size m → 0 ≤ c < cp_size m →
  let m' := with_rank m (rank_of m p t c) in
  grid_wf m' ∧ pp_rank m' = p ∧ tp_rank m' = t ∧ cp_rank m' = c.
Proof.
  intros [Ht Hc Hp Hw Hr] Hp' Ht' Hc' m'.
  assert (Hb : 0 ≤ t * cp_size m + c < tp_size m * cp_size m) by nia.
  assert (Hin : 0 ≤ rank_of m p t c < world_size m) by (unfold rank_of; nia).
  split; [by split|]. rewrite tp_rank_alt by done. unfold pp_rank, cp_rank. subst m'. cbn.
  assert (Hd : rank_of m p t c / cp_size m = p * tp_size m + t).
  { symmetry. apply (Z.div_unique _ _ _ c); unfold rank_of; [lia|nia]. }
  rewrite Hd. split; [|split].
  - symmetry. apply (Z.div_unique _ _ _ (t * cp_size m + c)); unfold rank_of; lia.
  - symmetry. apply (Z.mod_unique _ _ p); lia.
  - symmetry. apply (Z.mod_unique _ _ (p * tp_size m + t)); unfold rank_of; [lia|nia].
Qed.

(** ** The groups *)

Lemma tp_group_ok m :
  grid_wf m → tp_group m = Ok ((λ t, rank_of m (pp_rank m) t (cp_rank m)) <$> seqZ 0 (tp_size m)).
Proof.
  intros Hwf. pose proof (coordinates m Hwf) as (_ & Hp & _ & Hc). destruct Hwf as [Ht Hcp _ _ _].
  unfold tp_group, tp_groups.
  rewrite (nested_group (pp_size m) (cp_size m) _
    (λ i j, (λ t, rank_of m i t j) <$> seqZ 0 (tp_size m))); [done| |done|done].
  intros i Hi. apply for_range_single. intros j Hj. rewrite (one_group_ok _ _ _ (tp_size m)) by nia.
  do 2 f_equal. apply list_fmap_ext. intros k t _. unfold rank_of. lia.
Qed.

Lemma cp_group_ok m :
  grid_wf m → cp_group m = Ok ((λ c, rank_of m (pp_rank m) (tp_rank m) c) <$> seqZ 0 (cp_size m)).
Proof.
  intros Hwf. pose proof (coordinates m Hwf) as (_ & Hp & Ht & _). destruct Hwf as [_ Hcp _ _ _].
  unfold cp_group, cp_groups.
  rewrite (nested_group (pp_size m) (tp_size m) _
    (λ i j, (λ c, rank_of m i j c) <$> seqZ 0 (cp_size m))); [done| |done|done].
  intros i Hi. apply for_range_single. intros j Hj. rewrite (one_group_ok _ _ _ (cp_size m)) by lia.
  do 2 f_equal. apply list_fmap_ext. intros k c _. unfold rank_of. lia.
Qed.

Lemma pp_group_ok m :
  grid_wf m → pp_group m = Ok ((λ p, rank_of m p (tp_rank m) (cp_rank m)) <$> seqZ 0 (pp_size m)).
Proof.
  intros Hwf. pose proof (coordinates m Hwf) as (_ & _ & Ht & Hc). destruct Hwf as [Htp Hcp Hpp Hw _].
  unfold pp_group, pp_groups.
  rewrite (for_range_single _ _ (λ i, (λ p, i + p * (tp_size m * cp_size m)) <$> seqZ 0 (pp_size m))).
  - apply group_at_ok; [nia|]. rewrite seqZ_fmap_lookup by nia. f_equal. apply list_fmap_ext.
    intros k p _. unfold rank_of. lia.
  - intros i Hi. rewrite (one_group_ok _ _ _ (pp_size m)); [done|nia|done|]. rewrite Hw. nia.
Qed.

Lemma next_pp_ok m :
  grid_wf m → next_pp_rank m = rank_of m ((pp_rank m + 1) `mod` pp_size m) (tp_rank m) (cp_rank m) ∧
  prev_pp_rank m = rank_of m ((pp_rank m - 1) `mod` pp_size m) (tp_rank m) (cp_rank m).
Proof.
  intros Hwf. pose proof (coordinates m Hwf) as (Hr & Hp & Ht & Hc). destruct Hwf as [Htp Hcp Hpp Hw Hb].
  unfold next_pp_rank, prev_pp_rank. set (p := pp_rank m) in *. set (t := tp_rank m) in *.
  set (c := cp_rank m) in *. assert (0 ≤ t * cp_size m + c < tp_size m * cp_size m) by nia.
  unfold rank_of in *. set (s := tp_size m * cp_size m) in *.
  assert (Hws : world_size m = pp_size m * s) by (rewrite Hw; subst s; lia). split.
  - destruct (Z.leb_spec (world_size m) (rank m + s)).
    + assert (p = pp_size m - 1) as -> by nia. replace (pp_size m - 1 + 1) with (pp_size m) by lia.
      rewrite Z.mod_same by lia. lia.
    + rewrite Z.mod_small by nia. lia.
  - destruct (Z.ltb_spec (rank m - s) 0).
    + assert (p = 0) as -> by nia. rewrite <- (Z.mod_unique (0 - 1) (pp_size m) (-1) (pp_size m - 1)) by lia. lia.
    + rewrite Z.mod_small by nia. lia.
Qed.

Lemma next_cp_ok m :
  grid_wf m → next_cp_rank m = rank_of m (pp_rank m) (tp_rank m) ((cp_rank m + 1) `mod` cp_size m) ∧
  prev_cp_rank m = rank_of m (pp_rank m) (tp_rank m) ((cp_rank m - 1) `mod` cp_size m).
Proof.
  intros Hwf. pose proof (coordinates m Hwf) as (Hr & _ & _ & Hc). destruct Hwf as [_ Hcp _ _ _].
  unfold next_cp_rank, prev_cp_rank. unfold rank_of in *. set (c := cp_rank m) in *. split.
  - destruct (Z.eqb_spec c (cp_size m - 1)) as [He|].
    + rewrite He. replace (cp_size m - 1 + 1) with (cp_size m) by lia. rewrite Z.mod_same by lia. lia.
    + rewrite Z.mod_small by lia. lia.
  - destruct (Z.eqb_spec c 0) as [He|].
    + rewrite <- (Z.mod_unique (c - 1) (cp_size m) (-1) (cp_size m - 1)) by lia. lia.
    + rewrite Z.mod_small by lia. lia.
Qed.

(** C27: ranks and grid coordinates are in bijection, and communication
    follows the grid.  Every rank has one pipeline, tensor and context
    coordinate within the sizes, and every triple within the sizes is the
    coordinates of one rank; the tensor, context and pipeline groups of a
    rank are the ranks that differ from it in that coordinate only, in
    coordinate order; and the pipeline and context neighbours are the ranks
    one step along that coordinate, around the ends. *)
Theorem grid_is_consistent m :
  grid_wf m →
  let p := pp_rank m in let t := tp_rank m in let c := cp_rank m in
  (rank m = rank_of m p t c ∧ 0 ≤ p < pp_size m ∧ 0 ≤ t < tp_size m ∧ 0 ≤ c < cp_size m) ∧
  (∀ p' t' c', 0 ≤ p' < pp_size m → 0 ≤ t' < tp_size m → 0 ≤ c' < cp_size m →
     let m' := with_rank m (rank_of m p' t' c') in
     grid_wf m' ∧ pp_rank m' = p' ∧ tp_rank m' = t' ∧ cp_rank m' = c') ∧
  tp_group m = Ok ((λ t, rank_of m p t c) <$> seqZ 0 (tp_size m)) ∧
  cp_group m = Ok ((λ c, rank_of m p t c) <$> seqZ 0 (cp_size m)) ∧
  pp_group m = Ok ((λ p, rank_of m p t c) <$> seqZ 0 (pp_size m)) ∧
  next_pp_rank m = rank_of m ((p + 1) `mod` pp_size m) t c ∧
  prev_pp_rank m = rank_of m ((p - 1) `mod` pp_size m) t c ∧
  next_cp_rank m = rank_of m p t ((c + 1) `mod` cp_size m) ∧
  prev_cp_rank m = rank_of m p t ((c - 1) `mod` cp_size m).
Proof.
  intros Hwf p t c. split; [by apply coordinates|]. split; [intros; by apply rank_of_coordinates|].
  split; [by apply tp_group_ok|]. split; [by apply cp_group_ok|]. split; [by apply pp_group_ok|].
  destruct (next_pp_ok m Hwf), (next_cp_ok m Hwf). done.
Qed.

(** ** Mixture of experts *)

(** The MoE sizes divide the tensor-parallel ranks of a stage; experts are
    not split over more than one of clusters and expert ranks. *)
Record moe_wf (m : Mapping) : Prop := {
  mw_grid : grid_wf m;
  mw_cp : cp_size m = 1;
  mw_dwdp : _dwdp_size m ≤ 1;
  mw_tp : 0 < moe_tp_size m;
  mw_ep : 0 < moe_ep_size m;
  mw_cluster : 0 < moe_cluster_size m;
  mw_one : moe_cluster_size m = 1 ∨ moe_ep_size m = 1;
  mw_size : tp_size m = moe_tp_size m * (moe_cluster_size m * moe_ep_size m);
  mw_group : moe_tp_cluster_ep_size m = tp_size m;
}.

Lemma mapping_init_moe_wf a m :
  mapping_init a = Ok m → 0 < a_tp_size a → 0 < a_pp_size a → a_cp_size a = 1 →
  a_enable_attention_dp a = false → a_dwdp_size a = 0 →
  0 < moe_tp_size m → 0 < moe_ep_size m → 0 < moe_cluster_size m → moe_wf m.
Proof.
  intros H Ht Hp Hc Hadp Hd. assert (Hwf : grid_wf m) by (eapply mapping_init_wf; [done..|lia|done|done]).
  unfold mapping_init in H. rewrite Hd, Hc in H. inv_init. cbn in *. intros Hmt Hme Hmc.
  assert (Hw : z1 * z * z0 = a_tp_size a) by (destruct (bool_decide (c0 = ULYSSES)); lia).
  split; cbn; try done; lia.
Qed.

(** The rank of stage [p], MoE tensor rank [a], at place [b] of its cluster. *)
Definition moe_rank_of (m : Mapping) (p a b : Z) : Z :=
  p * tp_size m + a * (moe_cluster_size m * moe_ep_size m) + b.

Lemma moe_place m :
  moe_wf m → 0 ≤ tp_rank m →
  moe_cluster_rank m * moe_ep_size m + moe_ep_rank m =
  tp_rank m `mod` (moe_cluster_size m * moe_ep_size m).
Proof.
  intros [_ _ Hd _ _ _ Hone _ _] Ht. unfold moe_cluster_rank, moe_ep_rank.
  rewrite (proj2 (Z.ltb_ge 1 (_dwdp_size m))) by done.
  destruct Hone as [-> | ->]; rewrite ?Z.mod_1_r, ?Z.mul_1_l, ?Z.mul_1_r; lia.
Qed.

Lemma length_concat_seq {A} (l : Z → list A) k (n : nat) : ∀ a,
  0 ≤ k → (∀ i, length (l i) = Z.to_nat k) →
  length (List.concat (l <$> seqZ a (Z.of_nat n))) = Z.to_nat (Z.of_nat n * k).
Proof.
  induction n as [|n IH]; intros a Hk Hl; [done|]. rewrite seqZ_cons by lia.
  cbn [fmap list_fmap List.concat]. rewrite length_app, Hl.
  replace (Z.pred (Z.of_nat (S n))) with (Z.of_nat n) by lia. rewrite IH by done.
  rewrite <- Z2Nat.inj_add by nia. f_equal. lia.
Qed.

(** A group of a triply indexed family. *)
Lemma nested_group3 n k1 k2 (f : Z → result (list (list Z))) h i j c :
  (∀ i, 0 ≤ i < n → f i = Ok (List.concat ((λ j, h i j <$> seqZ 0 k2) <$> seqZ 0 k1))) →
  0 ≤ i < n → 0 ≤ j < k1 → 0 ≤ c < k2 →
  group_at (for_range n f) (i * k1 * k2 + j * k2 + c) = Ok (h i j c).
Proof.
  intros Hf Hi Hj Hc. rewrite (for_range_ok n f _ Hf).
  assert (0 ≤ k1 * k2 ∧ j * k2 + k2 ≤ k1 * k2 ∧ 0 ≤ j * k2) by nia.
  assert (0 ≤ i * (k1 * k2)) by nia. apply group_at_ok; [lia|].
  assert (Hin : ∀ i j, length (h i j <$> seqZ 0 k2) = Z.to_nat k2)
    by (intros; by rewrite length_fmap, length_seqZ).
  replace (i * k1 * k2 + j * k2 + c) with ((i - 0) * (k1 * k2) + (j * k2 + c)) by lia.
  rewrite <- (Z2Nat.id n) by lia.
  rewrite (concat_lookup _ (k1 * k2) (Z.to_nat n) 0 i (j * k2 + c)); [| |lia|lia].
  - replace (j * k2 + c) with ((j - 0) * k2 + c) by lia. rewrite <- (Z2Nat.id k1) by lia.
    rewrite (concat_lookup _ k2 (Z.to_nat k1) 0 j c); [by apply seqZ_fmap_lookup|done|lia|done].
  - intros i'. rewrite <- (Z2Nat.id k1) at 1 by lia. rewrite (length_concat_seq _ k2) by (done || lia).
    f_equal. lia.
Qed.

(** The MoE groups of a rank.  Without context parallelism, a stage's
    ranks are laid out as MoE tensor ranks times places in a cluster of
    experts; the MoE tensor group of a rank is the ranks at its place in every
    cluster, its cluster group is the ranks of its cluster, and its expert
    group is the [moe_ep_size] consecutive ranks around it, in which it
    stands at [moe_ep_rank]. *)
Theorem moe_groups_follow_grid m :
  moe_wf m →
  let p := pp_rank m in
  let a := moe_tp_rank m in
  let b := moe_cluster_rank m * moe_ep_size m + moe_ep_rank m in
  rank m = moe_rank_of m p a b ∧
  0 ≤ a < moe_tp_size m ∧ 0 ≤ b < moe_cluster_size m * moe_ep_size m ∧
  moe_tp_group m = Ok ((λ a, moe_rank_of m p a b) <$> seqZ 0 (moe_tp_size m)) ∧
  moe_cluster_group m =
    Ok ((λ b, moe_rank_of m p a b) <$> seqZ 0 (moe_cluster_size m * moe_ep_size m)) ∧
  moe_ep_group m =
    Ok ((λ e, moe_rank_of m p a (moe_cluster_rank m * moe_ep_size m + e)) <$> seqZ 0 (moe_ep_size m)).
Proof.
  intros Hm p a b. pose proof Hm as [Hwf Hcp Hd Hmt Hme Hmc Hone Hs Hg].
  pose proof (coordinates m Hwf) as (Hr & Hp & Ht & Hc).
  assert (Hb : b = tp_rank m `mod` (moe_cluster_size m * moe_ep_size m)) by (apply moe_place; [done|lia]).
  set (ke := moe_cluster_size m * moe_ep_size m) in *. assert (0 < ke) by nia.
  assert (Ha : a = tp_rank m / ke) by (unfold a, moe_tp_rank, ke; f_equal; apply Z.mul_comm).
  pose proof (Z.div_mod (tp_rank m) ke ltac:(lia)) as Hdm.
  pose proof (Z.mod_pos_bound (tp_rank m) ke ltac:(lia)) as Hmb.
  assert (Har : 0 ≤ a < moe_tp_size m).
  { rewrite Ha. split; [apply Z.div_pos; lia|]. apply Z.div_lt_upper_bound; lia. }
  assert (Hcr : 0 ≤ moe_cluster_rank m < moe_cluster_size m) by (by apply Z.mod_pos_bound).
  split; [|split; [done|split; [lia|]]].
  { unfold moe_rank_of. fold ke p. rewrite Hr. unfold rank_of. fold p. rewrite Hcp. lia. }
  split; [|split].
  - unfold moe_tp_group, moe_tp_groups. fold p ke.
    replace (p * moe_cluster_size m * moe_ep_size m + moe_cluster_rank m * moe_ep_size m + moe_ep_rank m)
      with (p * ke + b) by (unfold b, ke; lia).
    rewrite (nested_group (pp_size m) ke _ (λ i j, (λ a, moe_rank_of m i a j) <$> seqZ 0 (moe_tp_size m)));
      [done| |done|lia].
    intros i Hi. apply for_range_single. intros j Hj.
    rewrite (one_group_ok _ _ _ (moe_tp_size m)); [|lia|lia|rewrite Hg; nia].
    do 2 f_equal. apply list_fmap_ext. intros k q _. unfold moe_rank_of. fold ke. rewrite Hg. lia.
  - unfold moe_cluster_group, moe_cluster_groups. fold p a.
    rewrite (nested_group (pp_size m) (moe_tp_size m) _ (λ i j, (λ b, moe_rank_of m i j b) <$> seqZ 0 ke));
      [done| |done|done].
    intros i Hi. apply for_range_single. intros j Hj. rewrite (one_group_ok _ _ _ ke); [|lia|lia|unfold ke; lia].
    do 2 f_equal. apply list_fmap_ext. intros k q _. unfold moe_rank_of. fold ke. rewrite Hg. unfold ke. lia.
  - unfold moe_ep_group, moe_ep_groups. fold p a.
    rewrite (nested_group3 (pp_size m) (moe_tp_size m) (moe_cluster_size m) _
      (λ i j c, (λ e, moe_rank_of m i j (c * moe_ep_size m + e)) <$> seqZ 0 (moe_ep_size m)));
      [done| |done|done|done].
    intros i Hi. apply for_range_ok. intros j Hj. apply for_range_single. intros c Hc'.
    rewrite (one_group_ok _ _ _ (moe_ep_size m)) by lia.
    do 2 f_equal. apply list_fmap_ext. intros k e _. unfold moe_rank_of. rewrite Hg. lia.
Qed.

(** ** Layers *)

(** Consecutive chunks of [a, a+1, ...]. *)
Fixpoint chunks (a : Z) (sizes : list Z) : list (list Z) :=
  match sizes with
  | [] => []
  | s :: sizes => seqZ a s :: chunks (a + s) sizes
  end.

(** First element of section [r] of [n] elements split [k] ways. *)
Definition section_start (n k r : Z) : Z := r * (n / k) + Z.min r (n `mod` k).

(** What the documentation of PyTorch says of the two functions. *)
Class TorchSplitSpec `{!TorchSplit} := {
  arange_split_spec : ∀ n sizes,
    Forall (λ s, 0 ≤ s) sizes → zsum sizes = n → arange_split n sizes = chunks 0 sizes;
  arange_tensor_split_spec : ∀ n k, 0 ≤ n → 0 < k →
    arange_tensor_split n k =
    (λ r, seqZ (section_start n k r) (section_start n k (r + 1) - section_start n k r)) <$> seqZ 0 k;
}.

Lemma owner_loop_ok l partition : ∀ q e,
  Forall (λ s, 0 ≤ s) partition → e ≤ l < e + zsum partition →
  ∃ k : nat, owner_loop partition q e l = Ok (q + Z.of_nat k) ∧ (k < length partition)%nat ∧
    ∀ j ls, chunks e partition !! j = Some ls → (l ∈ ls ↔ j = k).
Proof.
  induction partition as [|s partition IH]; intros q e Hpos Hl; [rewrite zsum_nil in Hl; lia|].
  rewrite zsum_cons in Hl. apply Forall_cons in Hpos as [Hs Hpos]. cbn [owner_loop chunks].
  destruct (Z.ltb_spec l (e + s)) as [Hlt|Hge].
  - exists 0%nat. split; [f_equal; lia|]. split; [cbn; lia|]. intros [|j] ls Hj; cbn in Hj.
    + injection Hj as <-. rewrite elem_of_seqZ. split; [done|lia].
    + split; [|done]. intros Hin. exfalso.
      assert (Hlow : ∀ p a j ls x, Forall (λ s, 0 ≤ s) p → chunks a p !! j = Some ls → x ∈ ls → a ≤ x).
      { clear. induction p as [|s p IH]; intros a [|j] ls x Hp Hj Hx; try done; cbn in Hj;
          apply Forall_cons in Hp as [Hs Hp].
        - injection Hj as <-. apply elem_of_seqZ in Hx. lia.
        - specialize (IH _ _ _ _ Hp Hj Hx). lia. }
      specialize (Hlow _ _ _ _ _ Hpos Hj Hin). lia.
  - destruct (IH (q + 1) (e + s) Hpos) as (k & Hk & Hlen & Hin); [lia|].
    exists (S k). split; [rewrite Hk; f_equal; lia|]. split; [cbn; lia|]. intros [|j] ls Hj; cbn in Hj.
    + injection Hj as <-. rewrite elem_of_seqZ. split; [lia|done].
    + rewrite (Hin j ls Hj). split; [by intros ->|by intros [= ->]].
Qed.

Lemma section_mono n k r r' : 0 ≤ n → 0 < k → r ≤ r' → section_start n k r ≤ section_start n k r'.
Proof.
  intros Hn Hk Hr. unfold section_start. pose proof (Z.div_pos n k Hn Hk). nia.
Qed.

(** The closed form of [pp_rank_of_layer] finds the section. *)
Lemma section_owner n k l :
  0 ≤ l < n → 0 < k →
  let base := n / k in let rem := n `mod` k in
  let r := if base =? 0 then l
           else if l <? (base + 1) * rem then l / (base + 1)
           else rem + (l - (base + 1) * rem) / base in
  0 ≤ r < k ∧ section_start n k r ≤ l < section_start n k (r + 1).
Proof.
  intros Hl Hk base rem r. pose proof (Z.div_mod n k ltac:(lia)) as Hn. fold base rem in Hn.
  pose proof (Z.mod_pos_bound n k Hk) as Hrem. fold rem in Hrem.
  assert (Hbase : 0 ≤ base) by (apply Z.div_pos; lia). unfold section_start. fold base rem.
  subst r. destruct (Z.eqb_spec base 0) as [Hb0|Hb0]; [rewrite Hb0 in *; lia|].
  destruct (Z.ltb_spec l ((base + 1) * rem)) as [Hlt|Hge].
  - pose proof (Z.div_mod l (base + 1) ltac:(lia)). pose proof (Z.mod_pos_bound l (base + 1) ltac:(lia)).
    assert (0 ≤ l / (base + 1)) by (apply Z.div_pos; lia).
    assert (l / (base + 1) < rem) by (apply Z.div_lt_upper_bound; lia). split; [lia|]. nia.
  - set (x := l - (base + 1) * rem) in *. pose proof (Z.div_mod x base ltac:(lia)).
    pose proof (Z.mod_pos_bound x base ltac:(lia)). assert (0 ≤ x / base) by (apply Z.div_pos; lia).
    assert (x / base < k - rem) by (apply Z.div_lt_upper_bound; nia). split; [lia|]. nia.
Qed.

Section layer_props.
Context `{!TorchSplit, !TorchSplitSpec}.

(** The partition given by the user, if any, fits the model. *)
Definition partition_ok (m : Mapping) (num_layers : Z) : Prop :=
  match pp_partition m with
  | Some partition => Z.of_nat (length partition) = pp_size m ∧ Forall (λ s, 0 ≤ s) partition ∧
      zsum partition = num_layers
  | None => True
  end.

Lemma check_partition_ok m partition n :
  Z.of_nat (length partition) = pp_size m → zsum partition = n → check_partition m partition n = Ok ().
Proof. intros H1 H2. unfold check_partition. by rewrite H1, H2, !Z.eqb_refl. Qed.

Lemma chunks_length a sizes : length (chunks a sizes) = length sizes.
Proof. revert a. induction sizes; intros a0; cbn; congruence. Qed.

Lemma explicit_layers m partition n l :
  grid_wf m → pp_partition m = Some partition → partition_ok m n → 0 ≤ l < n →
  ∃ ls k, pp_layers m n = Ok ls ∧ owner_loop partition 0 0 l = Ok k ∧ 0 ≤ k < pp_size m ∧
    (l ∈ ls ↔ pp_rank m = k).
Proof.
  intros Hwf Hp Hok Hl. pose proof (coordinates m Hwf) as (_ & Hpp & _ & _).
  unfold partition_ok in Hok. rewrite Hp in Hok. destruct Hok as (Hlen & Hpos & Hsum).
  destruct (owner_loop_ok l partition 0 0 Hpos) as (k & Hk & Hkl & Hin); [lia|].
  destruct (lookup_lt_is_Some_2 (chunks 0 partition) (Z.to_nat (pp_rank m))) as [ls Hls];
    [rewrite chunks_length; lia|].
  exists ls, (Z.of_nat k). unfold pp_layers. rewrite Hp, check_partition_ok by done. cbn.
  rewrite arange_split_spec by done. split; [by apply py_getitem_nonneg; [lia|]|].
  split; [by rewrite Hk|]. split; [lia|]. rewrite (Hin _ _ Hls). lia.
Qed.

Lemma even_layers m n l :
  grid_wf m → pp_partition m = None → 0 ≤ l < n →
  ∃ ls, pp_layers m n = Ok ls ∧
    ∀ r, section_start n (pp_size m) r ≤ l < section_start n (pp_size m) (r + 1) → (l ∈ ls ↔ pp_rank m = r).
Proof.
  intros Hwf Hp Hl. pose proof (coordinates m Hwf) as (_ & Hpp & _ & _). destruct Hwf as [_ _ Hk _ _].
  unfold pp_layers. rewrite Hp, arange_tensor_split_spec by lia. eexists. split.
  { apply py_getitem_nonneg; [lia|]. by apply seqZ_fmap_lookup. }
  intros r Hr. rewrite elem_of_seqZ. set (k := pp_size m) in *. set (p := pp_rank m) in *. split.
  - intros Hin. destruct (Z.lt_trichotomy p r) as [Hlt|[?|Hgt]]; [|done|].
    + pose proof (section_mono n k (p + 1) r ltac:(lia) Hk ltac:(lia)). lia.
    + pose proof (section_mono n k (r + 1) p ltac:(lia) Hk ltac:(lia)). lia.
  - intros ->. lia.
Qed.

(** C28: [pp_rank_of_layer] inverts [pp_layers].  For every layer of the model
    it returns a pipeline rank, and a rank's [pp_layers] hold the layer
    exactly when that is its pipeline rank, with a partition given by the
    user or an even one, also with more ranks than layers. *)
Theorem layer_owner_inverts_layers m num_layers layer :
  grid_wf m → partition_ok m num_layers → 0 ≤ layer < num_layers →
  ∃ ls r, pp_layers m num_layers = Ok ls ∧ pp_rank_of_layer m layer num_layers = Ok r ∧
    0 ≤ r < pp_size m ∧ (layer ∈ ls ↔ pp_rank m = r).
Proof.
  intros Hwf Hok Hl. unfold pp_rank_of_layer, has_pp.
  destruct (Z.ltb_spec layer 0); [lia|]. destruct (Z.leb_spec num_layers layer); [lia|]. cbn.
  pose proof (coordinates m Hwf) as (_ & Hpp & _ & _). pose proof (gw_pp _ Hwf) as Hk.
  assert (Hone : pp_size m = 1 → pp_rank m = 0) by lia.
  destruct (pp_partition m) as [partition|] eqn:Hp.
  - destruct (explicit_layers m partition num_layers layer) as (ls & k & Hls & Hk3 & Hk4 & Hk5); [done..|].
    exists ls. destruct (Z.ltb_spec 1 (pp_size m)); cbn.
    + exists k. unfold partition_ok in Hok. rewrite Hp in Hok. rewrite check_partition_ok by apply Hok. done.
    + exists 0. split; [done|]. split; [done|]. split; [lia|]. rewrite Hk5. lia.
  - destruct (even_layers m num_layers layer) as (ls & Hls & Hk3); [done..|]. exists ls.
    pose proof (section_owner num_layers (pp_size m) layer Hl Hk) as [Hr Hs].
    destruct (Z.ltb_spec 1 (pp_size m)); cbn [negb].
    + eexists. split; [done|]. split; [|split; [exact Hr|by apply Hk3]].
      by repeat case_match.
    + exists 0. split; [done|]. split; [done|]. split; [lia|]. rewrite (Hk3 _ Hs). lia.
Qed.
End layer_props.

(** ** Round trip through [to_dict] *)

Record sizes_pos (m : Mapping) : Prop := {
  sp_moe_tp : 0 < moe_tp_size m;
  sp_moe_ep : 0 < moe_ep_size m;
  sp_cluster : 0 < moe_cluster_size m;
  sp_attn_tp : 0 < attn_tp_size m;
  sp_attn_cp : 0 < attn_cp_size m;
}.

(** What is left of a mapping after the round trip. *)
Definition without_partition (m : Mapping) : Mapping :=
  {| world_size := world_size m; rank := rank m; gpus_per_node := gpus_per_node m;
     cp_size := cp_size m; cp_config := cp_config m; tp_size := tp_size m; pp_size := pp_size m;
     pp_partition := None; moe_cluster_size := moe_cluster_size m;
     moe_tp_size := moe_tp_size m; moe_ep_size := moe_ep_size m;
     moe_tp_cluster_ep_size := moe_tp_cluster_ep_size m; attn_tp_size := attn_tp_size m;
     attn_cp_size := attn_cp_size m; enable_attention_dp := enable_attention_dp m;
     enable_lm_head_tp_in_adp := enable_lm_head_tp_in_adp m; _dwdp_size := _dwdp_size m;
     _dwdp_rank := _dwdp_rank m; moe_tp_ep_user_specified := _dwdp_size m <=? 1 |}.

Lemma cp_type_of_upper s t : cp_type_of s = Some t → upper s = s.
Proof.
  unfold cp_type_of.
  destruct (String.eqb_spec s "ULYSSES") as [-> |]; [done|].
  destruct (String.eqb_spec s "STAR") as [-> |]; [done|].
  destruct (String.eqb_spec s "RING") as [-> |]; [done|].
  by destruct (String.eqb_spec s "HELIX") as [-> |].
Qed.

Lemma resolve_cp_idem c cfg t : resolve_cp c = Ok (cfg, t) → resolve_cp (Some cfg) = Ok (cfg, t).
Proof.
  unfold resolve_cp. destruct c as [[[s|] o]|]; cbn; [|by intros [= <- <-]..].
  destruct (cp_type_of (upper s)) as [t'|] eqn:Ht; [|done]. intros [= <- <-]. cbn.
  by rewrite (cp_type_of_upper (upper s) t') by done; rewrite Ht.
Qed.

Lemma resolve_moe_idem d w c t e :
  0 < t → 0 < e → (1 < d → c = 1 ∧ t = 1 ∧ e = 1) → resolve_moe d w c t e = Ok (c, t, e).
Proof.
  intros Ht He Hd. unfold resolve_moe. destruct (Z.ltb_spec 1 d) as [Hlt|].
  - by destruct (Hd Hlt) as (-> & -> & ->).
  - by rewrite (proj2 (Z.eqb_neq t (-1))), (proj2 (Z.eqb_neq e (-1))) by lia.
Qed.

Lemma resolve_moe_dwdp d w c t e c' t' e' :
  resolve_moe d w c t e = Ok (c', t', e') → 1 < d → c' = 1 ∧ t' = 1 ∧ e' = 1.
Proof. unfold resolve_moe. intros H Hd. rewrite (proj2 (Z.ltb_lt 1 d)) in H by done. by simplify_eq. Qed.

Lemma resolve_attn_idem c t s a b : 0 < a → 0 < b → resolve_attn c t s a b = Ok (a, b).
Proof. intros. unfold resolve_attn. by rewrite (proj2 (Z.eqb_neq a (-1))), (proj2 (Z.eqb_neq b (-1))) by lia. Qed.

Lemma from_dict_to_dict a m :
  mapping_init a = Ok m → sizes_pos m → from_dict (to_dict m) = Ok (without_partition m).
Proof.
  unfold mapping_init. intros H [P1 P2 P3 P4 P5]. inv_init. cbn in *.
  pose proof (resolve_moe_dwdp _ _ _ _ _ _ _ _ Hv2) as Hd.
  unfold from_dict, to_dict, mapping_init, without_partition. cbn -[resolve_cp resolve_moe resolve_attn].
  rewrite Hv, Hv0, (resolve_cp_idem _ _ _ Hv1). cbn -[resolve_moe resolve_attn].
  rewrite (proj2 (Z.eqb_neq z0 (-1))) by lia.
  rewrite resolve_moe_idem by done. cbn -[resolve_attn]. rewrite resolve_attn_idem by done. cbn.
  rewrite Hv4, Hv5, Hv6, Hv7, Hv8, Hv9, Hv10, Hv11. cbn. do 2 f_equal.
  rewrite (proj2 (Z.eqb_neq z1 (-1))) by lia. apply andb_true_r.
Qed.

Lemma mapping_eq_without m : mapping_eq m (without_partition m) = bool_decide (pp_partition m = None).
Proof.
  unfold mapping_eq, without_partition. cbn. rewrite !Z.eqb_refl.
  rewrite (bool_decide_true (cp_config m = _)) by done. cbn.
  by repeat case_bool_decide.
Qed.

(** [from_dict] takes back every mapping [to_dict] gives, with the sizes
    the constructor filled in, and the result is equal to the mapping, as
    [__eq__] compares, exactly when no pipeline partition was given:
    [to_dict] leaves [pp_partition] out, and the mapping built back splits
    the layers evenly. *)
Theorem to_dict_roundtrip a m :
  mapping_init a = Ok m → sizes_pos m →
  from_dict (to_dict m) = Ok (without_partition m) ∧
  (mapping_eq m (without_partition m) = true ↔ pp_partition m = None).
Proof.
  intros H Hp. split; [by eapply from_dict_to_dict|]. rewrite mapping_eq_without. apply bool_decide_eq_true.
Qed.

(** ** Helix ranks as tensor ranks *)

Lemma helix_type a cfg t :
  resolve_cp a = Ok (cfg, t) → cp_type cfg = Some "HELIX"%string → t = HELIX.
Proof.
  unfold resolve_cp. destruct a as [[[s|] o]|]; cbn; [|intros [= <- <-]; done..].
  destruct (cp_type_of (upper s)) as [t'|] eqn:Ht; [|done]. intros [= <- <-]. cbn.
  intros [= Hs]. rewrite Hs in Ht. by injection Ht.
Qed.

Lemma repurpose_helix_init a m :
  mapping_init a = Ok m → sizes_pos m → has_cp_helix m = true →
  ∃ m', repurpose_helix_cp_to_tp m = Ok m' ∧ rank m' = rank m ∧ world_size m' = world_size m ∧
    tp_size m' = tp_size m * cp_size m ∧ cp_size m' = 1 ∧ pp_size m' = pp_size m ∧
    pp_partition m' = pp_partition m ∧ moe_tp_size m' = moe_tp_size m ∧
    moe_ep_size m' = moe_ep_size m ∧ moe_cluster_size m' = moe_cluster_size m.
Proof.
  unfold mapping_init. intros H [P1 P2 P3 P4 P5] Hh. inv_init. cbn in P1, P2, P3, P4, P5.
  pose proof (resolve_moe_dwdp _ _ _ _ _ _ _ _ Hv2) as Hd.
  unfold repurpose_helix_cp_to_tp. rewrite Hh. cbn. unfold has_cp_helix in Hh. cbn in Hh.
  apply andb_prop in Hh as [Hcp Ht%bool_decide_eq_true].
  pose proof (helix_type _ _ _ Hv1 Ht) as ->. cbn in *.
  unfold mapping_init. cbn -[resolve_moe]. rewrite Hv, Hv0. cbn -[resolve_moe].
  rewrite (proj2 (Z.eqb_neq z0 (-1))) by lia. rewrite resolve_moe_idem by done. cbn.
  replace (a_tp_size a * a_cp_size a * a_pp_size a * 1) with (a_tp_size a * a_pp_size a * a_cp_size a) by lia.
  rewrite (bool_decide_false (HELIX = ULYSSES)) in Hv6 by done.
  rewrite !(bool_decide_true (ULYSSES = ULYSSES)) by done. cbn.
  replace (a_tp_size a * a_cp_size a * 1) with (a_tp_size a * a_cp_size a) by lia.
  rewrite Hv5. cbn. rewrite Hv6. cbn. rewrite Z.mul_1_r, Z.eqb_refl. cbn. rewrite andb_false_r, Hv9, Hv10, Hv11. cbn. by eexists.
Qed.

(** The ranks of a Helix group become tensor ranks of the same stage, in
    context order within tensor order, and no rank changes its layers. *)
Theorem repurpose_helix_ranks a m :
  mapping_init a = Ok m → sizes_pos m → has_cp_helix m = true → grid_wf m →
  ∃ m', repurpose_helix_cp_to_tp m = Ok m' ∧ grid_wf m' ∧ pp_rank m' = pp_rank m ∧
    tp_rank m' = tp_rank m * cp_size m + cp_rank m ∧ cp_rank m' = 0 ∧
    pp_partition m' = pp_partition m.
Proof.
  intros H Hs Hh Hwf. destruct (repurpose_helix_init a m H Hs Hh)
    as (m' & Hm' & Hr & Hw & Ht & Hc & Hp & Hpp & _).
  pose proof (coordinates m Hwf) as (Hrk & Hpb & Htb & Hcb). destruct Hwf as [Hwt Hwc Hwp Hww Hwr].
  exists m'. split; [done|]. split; [split; rewrite ?Ht, ?Hc, ?Hp, ?Hw, ?Hr; nia|].
  unfold pp_rank at 1. unfold tp_rank at 1. unfold cp_rank at 2. rewrite Hr, Ht, Hc, Z.mul_1_r, Z.div_1_r.
  split; [done|]. split; [|split; [apply Z.mod_1_r|done]].
  symmetry. apply (Z.mod_unique _ _ (pp_rank m)); [nia|]. rewrite Hrk at 1. unfold rank_of. lia.
Qed.

(** ** Context parallelism with MoE groups *)

Definition default_args (world rank tp pp cp : Z) (cp_type : option string) : MappingArgs :=
  {| a_world_size := world; a_rank := rank; a_gpus_per_node := 8; a_cp_size := cp;
     a_cp_config := (λ s, mkCpConfig (Some s) []) <$> cp_type; a_tp_size := tp; a_pp_size := pp;
     a_pp_partition := None; a_moe_cluster_size := -1; a_moe_tp_size := -1; a_moe_ep_size := -1;
     a_attn_tp_size := -1; a_attn_cp_size := -1; a_enable_attention_dp := false;
     a_enable_lm_head_tp_in_adp := false; a_dwdp_size := 0; a_dwdp_rank := 0 |}.

(** With Ulysses context parallelism the constructor only refuses expert
    parallelism; the MoE tensor groups are numbered as if a stage had
    [tp_size] ranks, and a rank can be outside its own group. *)
Theorem ulysses_rank_outside_moe_group :
  ∃ m, mapping_init (default_args 4 2 2 1 2 (Some "ulysses"%string)) = Ok m ∧
    rank m = 2 ∧ moe_tp_group m = Ok [0; 1].
Proof. eexists. split; [reflexivity|]. by vm_compute. Qed.

(** ** Concrete mappings *)

#[local] Instance torch_split_model : TorchSplit := {
  arange_split n sizes := chunks 0 sizes;
  arange_tensor_split n k :=
    (λ r, seqZ (section_start n k r) (section_start n k (r + 1) - section_start n k r)) <$> seqZ 0 k;
}.

#[local] Instance torch_split_model_spec : TorchSplitSpec.
Proof. by split. Qed.

(** Rank 5 of a grid of 2 stages, 2 tensor and 2 context ranks, Helix. *)
Definition grid8 : Mapping :=
  {| world_size := 8; rank := 5; gpus_per_node := 8; cp_size := 2;
     cp_config := mkCpConfig (Some "HELIX"%string) []; tp_size := 2; pp_size := 2;
     pp_partition := None; moe_cluster_size := 1; moe_tp_size := 4; moe_ep_size := 1;
     moe_tp_cluster_ep_size := 4; attn_tp_size := 2; attn_cp_size := 2; enable_attention_dp := false;
     enable_lm_head_tp_in_adp := false; _dwdp_size := 0; _dwdp_rank := 0;
     moe_tp_ep_user_specified := false |}.

Lemma grid8_init : mapping_init (default_args 8 5 2 2 2 (Some "helix"%string)) = Ok grid8.
Proof. reflexivity. Qed.

Lemma grid8_wf : grid_wf grid8.
Proof. by apply (mapping_init_wf _ _ grid8_init). Qed.

Lemma grid_is_consistent_witness :
  pp_rank grid8 = 1 ∧ tp_rank grid8 = 0 ∧ cp_rank grid8 = 1 ∧
  tp_group grid8 = Ok [5; 7] ∧ cp_group grid8 = Ok [4; 5] ∧ pp_group grid8 = Ok [1; 5].
Proof.
  pose proof (grid_is_consistent grid8 grid8_wf) as (_ & _ & Ht & Hc & Hp & _).
  split; [reflexivity|]. split; [reflexivity|]. split; [reflexivity|].
  split; [rewrite Ht; reflexivity|]. split; [rewrite Hc; reflexivity|]. rewrite Hp. reflexivity.
Defined.

(** Rank 13 of 2 stages of 8 ranks, MoE as 2 tensor by 4 expert ranks: the
    example of the class's docstring. *)
Definition moe16 : Mapping :=
  {| world_size := 16; rank := 13; gpus_per_node := 8; cp_size := 1; cp_config := mkCpConfig None [];
     tp_size := 8; pp_size := 2; pp_partition := Some [3; 5]; moe_cluster_size := 1; moe_tp_size := 2;
     moe_ep_size := 4; moe_tp_cluster_ep_size := 8; attn_tp_size := 8; attn_cp_size := 1;
     enable_attention_dp := false; enable_lm_head_tp_in_adp := false; _dwdp_size := 0;
     _dwdp_rank := 0; moe_tp_ep_user_specified := true |}.

Definition moe16_args : MappingArgs :=
  {| a_world_size := 16; a_rank := 13; a_gpus_per_node := 8; a_cp_size := 1; a_cp_config := None;
     a_tp_size := 8; a_pp_size := 2; a_pp_partition := Some [3; 5]; a_moe_cluster_size := -1;
     a_moe_tp_size := -1; a_moe_ep_size := 4; a_attn_tp_size := -1; a_attn_cp_size := -1;
     a_enable_attention_dp := false; a_enable_lm_head_tp_in_adp := false; a_dwdp_size := 0;
     a_dwdp_rank := 0 |}.

Lemma moe16_init : mapping_init moe16_args = Ok moe16.
Proof. reflexivity. Qed.

Lemma moe16_wf : moe_wf moe16.
Proof. by apply (mapping_init_moe_wf moe16_args). Qed.

Lemma moe_groups_follow_grid_witness :
  moe_tp_group moe16 = Ok [9; 13] ∧ moe_ep_group moe16 = Ok [12; 13; 14; 15].
Proof.
  pose proof (moe_groups_follow_grid moe16 moe16_wf) as (_ & _ & _ & Ht & _ & He).
  split; [rewrite Ht; reflexivity|rewrite He; reflexivity].
Defined.

Lemma layer_owner_inverts_layers_witness :
  pp_layers moe16 8 = Ok [3; 4; 5; 6; 7] ∧ pp_rank_of_layer moe16 4 8 = Ok 1.
Proof.
  assert (Hp : partition_ok moe16 8) by (split; [done|split; [by repeat constructor|done]]).
  destruct (layer_owner_inverts_layers moe16 8 4 (mw_grid _ moe16_wf) Hp ltac:(lia))
    as (ls & r & Hls & Hr & _).
  split; [|rewrite Hr; f_equal; vm_compute in Hr; congruence].
  rewrite Hls. vm_compute in Hls. congruence.
Defined.

Lemma to_dict_roundtrip_witness :
  mapping_init moe16_args = Ok moe16 ∧ from_dict (to_dict moe16) = Ok (without_partition moe16) ∧
  mapping_eq moe16 (without_partition moe16) = false.
Proof.
  split; [reflexivity|].
  assert (Hs : sizes_pos moe16) by (split; reflexivity).
  destruct (to_dict_roundtrip moe16_args moe16 moe16_init Hs) as [H _].
  split; [exact H|reflexivity].
Defined.
