(* ===== verification/RadixTree.v ===== *)
(** * Mutation of the block radix tree ([_block_radix_tree.py], [_page.py])

    The tree as the objects in memory: nodes refer to their children by key
    and, weakly, to the node above; a block and the pages in its storage
    refer to each other; requests keep references to blocks and pages that
    have left the tree.  Matching is in [RadixMatch]. *)

From S2P Require Import Prelude LifeCycle CacheKey.

Local Open Scope Z_scope.

(** ** Objects *)

Definition loc : Type := positive.

(** [_prev]; [rawref.NULL] is [None]. *)
Inductive parent := InTree | Under (l : loc).

#[global] Instance parent_eq_dec : EqDecision parent.
Proof. solve_decision. Defined.

Inductive payload :=
| Root (reuse_scope : ReuseScope)
| Blk (tokens : list TokenIdExt) (ordinal : Z) (storage : list (option loc)).

(** A [RootBlock] or a [Block]; dicts keep the order of insertion. *)
Record Node := mkNode {
  n_key : bytes;
  n_prev : option parent;
  n_next : list (bytes * loc);
  n_load : payload;
}.

Inductive PageStatus := LOCKED | HELD | DROPPABLE.

#[global] Instance PageStatus_eq_dec : EqDecision PageStatus.
Proof. solve_decision. Defined.

(** The part of a [CommittedPage] the tree uses; the status is that of its
    holder and lock. *)
Record CommittedPage := mkPage {
  p_block : option loc;
  p_life_cycle : nat;
  num_tokens_in_block : Z;
  p_status : PageStatus;
  scheduled_for_eviction : bool;
}.

(** Calls of the event manager. *)
Inductive Event :=
| add_removed_event (keys : list bytes)
| add_removed_life_cycle_event (key : bytes) (lc_idx : nat).

Record heap := mkHeap {
  nodes : gmap loc Node;
  pages : gmap loc CommittedPage;
  t_next : list (bytes * loc);
  events : list Event;
}.

(** ** Dicts *)

Fixpoint dict_get {A} (k : bytes) (d : list (bytes * A)) : option A :=
  match d with
  | [] => None
  | (k', a) :: d => if bool_decide (k' = k) then Some a else dict_get k d
  end.

Fixpoint dict_pop {A} (k : bytes) (d : list (bytes * A)) : list (bytes * A) :=
  match d with
  | [] => []
  | (k', a) :: d => if bool_decide (k' = k) then d else (k', a) :: dict_pop k d
  end.

(** ** The heap *)

Definition set_next (n : Node) (next : list (bytes * loc)) : Node :=
  mkNode (n_key n) (n_prev n) next (n_load n).
Definition set_prev (n : Node) (p : option parent) : Node :=
  mkNode (n_key n) p (n_next n) (n_load n).
Definition set_storage (n : Node) (storage : list (option loc)) : Node :=
  match n_load n with
  | Blk ts o _ => mkNode (n_key n) (n_prev n) (n_next n) (Blk ts o storage)
  | Root _ => n
  end.
Definition set_block (p : CommittedPage) (b : option loc) : CommittedPage :=
  mkPage b (p_life_cycle p) (num_tokens_in_block p) (p_status p) (scheduled_for_eviction p).
Definition unschedule (p : CommittedPage) : CommittedPage :=
  mkPage (p_block p) (p_life_cycle p) (num_tokens_in_block p) (p_status p) false.

Definition with_nodes (h : heap) (ns : gmap loc Node) : heap := mkHeap ns (pages h) (t_next h) (events h).
Definition with_pages (h : heap) (ps : gmap loc CommittedPage) : heap := mkHeap (nodes h) ps (t_next h) (events h).
Definition with_roots (h : heap) (d : list (bytes * loc)) : heap := mkHeap (nodes h) (pages h) d (events h).
Definition with_event (h : heap) (e : Event) : heap := mkHeap (nodes h) (pages h) (t_next h) (events h ++ [e]).

(** Following a reference; a dangling one raises [ValueError]. *)
Definition node (l : loc) : M heap Node := λ h, (of_option ValueError (nodes h !! l), h).
Definition page (p : loc) : M heap CommittedPage := λ h, (of_option ValueError (pages h !! p), h).

Definition set_node (l : loc) (f : Node → Node) : M heap () := modify (λ h, with_nodes h (alter f l (nodes h))).
Definition set_page (p : loc) (f : CommittedPage → CommittedPage) : M heap () :=
  modify (λ h, with_pages h (alter f p (pages h))).

(** [for x in l] *)
Fixpoint for_each {A} (l : list A) (f : A → M heap ()) : M heap () :=
  match l with
  | [] => mret ()
  | x :: l => f x;; for_each l f
  end.

(** [unwrap_rawref(self._prev)] *)
Definition prev (n : Node) : M heap parent := lift (of_option ValueError (n_prev n)).

Definition ordinal_of (n : Node) : Z := match n_load n with Root _ => -1 | Blk _ o _ => o end.
Definition tokens_of (n : Node) : list TokenIdExt := match n_load n with Root _ => [] | Blk ts _ _ => ts end.
Definition storage_of (n : Node) : list (option loc) := match n_load n with Root _ => [] | Blk _ _ s => s end.

Section tree.
Context (sha256 : bytes → bytes) (_tokens_per_block : Z) (_num_life_cycles : nat) (event_manager : bool).

(** [RootBlock.make_key], [Block.make_key] *)
Definition root_key (reuse_scope : ReuseScope) : result bytes :=
  s ← reuse_scope_to_bytes reuse_scope; Ok (sha256 s).

Definition make_key (prev_key : bytes) (tokens : list TokenIdExt) : result bytes :=
  b ← tokens_bytes tokens; Ok (sha256 (prev_key ++ b)).

(** [try_get_tree(block) is not None]: the walk up to the tree.  A node is
    as deep as its ordinal. *)
Fixpoint climb (fuel : nat) (l : loc) : M heap bool :=
  n ← node l;
  match n_prev n, fuel with
  | None, _ => mret false
  | Some InTree, _ => mret true
  | Some (Under _), O => raise OutOfFuel
  | Some (Under l'), S fuel => climb fuel l'
  end.

Definition try_get_tree (l : loc) : M heap bool :=
  n ← node l; climb (Z.to_nat (ordinal_of n + 1)) l.

Definition get_tree (l : loc) : M heap () :=
  attached ← try_get_tree l;
  if (attached : bool) then mret () else raise ValueError.

(** [event_manager.f(...)] unless there is none. *)
Definition notify (attached : bool) (e : Event) : M heap () :=
  if attached && event_manager then modify (λ h, with_event h e) else mret ().

(** [tokens_per_block] of a node: that of the tree for a root and the blocks
    below it, else the length of the block above. *)
Definition tokens_per_block (l : loc) : M heap Z :=
  n ← node l;
  p ← prev n;
  match p with
  | InTree => mret _tokens_per_block
  | Under l' =>
      m ← node l';
      match n_load m with
      | Root _ => prev m;; mret _tokens_per_block
      | Blk ts _ _ => mret (Z.of_nat (length ts))
      end
  end.

(** [prev.tokens_per_block == prev.prev.tokens_per_block] *)
Definition same_tokens_per_block (l : loc) : M heap bool :=
  a ← tokens_per_block l;
  n ← node l;
  p ← prev n;
  b ← match p with InTree => mret _tokens_per_block | Under l' => tokens_per_block l' end;
  mret (a =? b).

Definition is_full (l : loc) : M heap bool :=
  n ← node l; t ← tokens_per_block l; mret (Z.of_nat (length (tokens_of n)) =? t).

Definition num_life_cycles (n : Node) : nat :=
  match n_load n with Root _ => _num_life_cycles | Blk _ _ s => length s end.

Definition next_of (p : parent) : M heap (list (bytes * loc)) :=
  match p with
  | InTree => gets t_next
  | Under l => n ← node l; mret (n_next n)
  end.

Definition is_orphan (l : loc) : M heap bool :=
  n ← node l;
  match n_prev n with
  | None => mret true
  | Some p =>
      d ← next_of p;
      assert_ (bool_decide (dict_get (n_key n) d = Some l));;
      mret false
  end.

(** ** Pages *)

Definition get_page (l : loc) (lc_idx : nat) : M heap (option loc) :=
  n ← node l; lift (of_option IndexError (storage_of n !! lc_idx)).

Definition set_slot (l : loc) (lc_idx : nat) (p : option loc) : M heap () :=
  set_node l (λ n, set_storage n (<[lc_idx := p]> (storage_of n))).

Definition page_coverage (l : loc) (lc_idx : nat) : M heap Z :=
  o ← get_page l lc_idx;
  match o with
  | Some p => pg ← page p; mret (num_tokens_in_block pg)
  | None => mret 0
  end.

Definition holds_page (l p : loc) : M heap bool :=
  pg ← page p; o ← get_page l (p_life_cycle pg); mret (bool_decide (o = Some p)).

Definition can_replace_page (l : loc) (lc_idx : nat) (num_tokens : Z) : M heap bool :=
  o ← get_page l lc_idx;
  match o with
  | None => mret true
  | Some p => pg ← page p; mret (num_tokens_in_block pg <? num_tokens)
  end.

(** [expected_page] is optional. *)
Definition unlink_page (l : loc) (lc_idx : nat) (expected_page : option loc) : M heap (option loc) :=
  o ← get_page l lc_idx;
  match o with
  | None => mret None
  | Some p =>
      if match expected_page with Some e => negb (bool_decide (p = e)) | None => false end then mret None
      else
        set_page p (λ pg, set_block pg None);;
        set_slot l lc_idx None;;
        mret (Some p)
  end.

(** [page.manager.exclude_from_eviction(page)] *)
Definition exclude_from_eviction (p : loc) : M heap () := set_page p unschedule.

Definition replace_page (l : loc) (lc_idx : nat) (p : loc) : M heap () :=
  pg ← page p;
  ok ← can_replace_page l lc_idx (num_tokens_in_block pg);
  assert_ ok;;
  existing ← unlink_page l lc_idx None;
  match existing with
  | Some e => ep ← page e; if scheduled_for_eviction ep then exclude_from_eviction e else mret ()
  | None => mret ()
  end;;
  set_page p (λ pg, set_block pg (Some l));;
  set_slot l lc_idx (Some p).

Definition adopt_pages_from (l other : loc) : M heap () :=
  n ← node l;
  m ← node other;
  assert_ (ordinal_of m =? ordinal_of n);;
  for_each (seq 0 (num_life_cycles n)) (λ lc_idx,
    o ← get_page other lc_idx;
    match o with
    | None => mret ()
    | Some p =>
        pg ← page p;
        ok ← can_replace_page l lc_idx (num_tokens_in_block pg);
        if (ok : bool) then set_slot other lc_idx None;; replace_page l lc_idx p else mret ()
    end).

Definition release_pages (l : loc) : M heap () :=
  n ← node l;
  for_each (seq 0 (num_life_cycles n)) (λ lc_idx,
    o ← get_page l lc_idx;
    match o with
    | None => mret ()
    | Some p =>
        unlink_page l lc_idx None;;
        pg ← page p;
        if bool_decide (p_status pg = DROPPABLE) && scheduled_for_eviction pg
        then exclude_from_eviction p else mret ()
    end).

(** ** Detaching *)

Definition detach_next (par : loc) (key : bytes) : M heap (option loc) :=
  n ← node par;
  match dict_get key (n_next n) with
  | None => mret None
  | Some child =>
      let rest := dict_pop key (n_next n) in
      set_node par (λ n, set_next n rest);;
      set_node child (λ c, set_prev c None);;
      match n_load n, rest, n_prev n with
      | Root _, [], Some _ =>
          d ← gets t_next;
          match dict_get (n_key n) d with
          | None => mret ()
          | Some detached_root =>
              modify (λ h, with_roots h (dict_pop (n_key n) d));;
              set_node par (λ n, set_prev n None);;
              assert_ (bool_decide (detached_root = par))
          end
      | _, _, _ => mret ()
      end;;
      mret (Some child)
  end.

(** ** Removing a subtree *)

Inductive turn := Done | At (block : loc) (removed_block_hashes : list bytes).

Definition remove_turn (root block : loc) (removed : list bytes) : M heap (turn * list bytes) :=
  n ← node block;
  match n_next n with
  | (_, child) :: _ => mret (At child removed, removed)
  | [] =>
      release_pages block;;
      let removed := removed ++ [n_key n] in
      match n_prev n with
      | None => assert_ (bool_decide (block = root));; mret (Done, removed)
      | Some InTree => raise LogicError
      | Some (Under prev_block) =>
          detached ← detach_next prev_block (n_key n);
          assert_ (bool_decide (detached = Some block));;
          if bool_decide (block = root) then mret (Done, removed)
          else
            m ← node prev_block;
            assert_ (match n_load m with Blk _ _ _ => true | Root _ => false end);;
            mret (At prev_block removed, removed)
      end
  end.

Fixpoint remove_loop (fuel : nat) (root block : loc) (removed : list bytes) : M heap (list bytes) :=
  match fuel with
  | O => raise OutOfFuel
  | S fuel =>
      '(t, removed) ← remove_turn root block removed;
      match t with
      | Done => mret removed
      | At block removed => remove_loop fuel root block removed
      end
  end.

(** Every node of the subtree is entered and left once: twice the number of
    nodes bounds the turns. *)
Definition remove_subtree (root : loc) : M heap () :=
  attached ← try_get_tree root;
  h ← get;
  removed ← remove_loop (2 * size (nodes h)) root root [];
  notify attached (add_removed_event removed).

(** ** Inserting *)

Definition add_or_get_existing (reuse_scope : ReuseScope) : M heap loc :=
  key ← lift (root_key reuse_scope);
  h ← get;
  match dict_get key (t_next h) with
  | Some r => mret r
  | None =>
      let r := fresh (dom (nodes h)) in
      put (mkHeap (<[r := mkNode key (Some InTree) [] (Root reuse_scope)]> (nodes h)) (pages h)
             (t_next h ++ [(key, r)]) (events h));;
      mret r
  end.

Fixpoint find_covering (tokens : list TokenIdExt) (d : list (bytes * loc)) : M heap (option loc) :=
  match d with
  | [] => mret None
  | (_, b) :: d =>
      n ← node b;
      if bool_decide (take (length tokens) (tokens_of n) = tokens) then mret (Some b)
      else find_covering tokens d
  end.

(** [to_remove] with the debug assertion on its elements. *)
Fixpoint covered_keys (tokens : list TokenIdExt) (d : list (bytes * loc)) : M heap (list bytes) :=
  match d with
  | [] => mret []
  | (k, b) :: d =>
      n ← node b;
      if (length (tokens_of n) <? length tokens)%nat &&
         bool_decide (take (length (tokens_of n)) tokens = tokens_of n)
      then
        full ← is_full b;
        assert_ (negb full && bool_decide (n_key n = k) && bool_decide (n_next n = []));;
        ks ← covered_keys tokens d;
        mret (k :: ks)
      else covered_keys tokens d
  end.

(** [Block(tokens, prev)]: the new block, or the block a [UselessBlockError]
    carries. *)
Definition block_init (tokens : list TokenIdExt) (par : loc) : M heap (loc + loc) :=
  same ← same_tokens_per_block par;
  assert_ same;;
  pn ← node par;
  key ← lift (make_key (n_key pn) tokens);
  match dict_get key (n_next pn) with
  | Some b => mret (inr b)
  | None =>
      tpb ← match n_load pn with
            | Root _ => tokens_per_block par
            | Blk ts _ _ => mret (Z.of_nat (length ts))
            end;
      covering ← (if Z.of_nat (length tokens) <? tpb then find_covering tokens (n_next pn) else mret None);
      match covering with
      | Some b => mret (inr b)
      | None =>
          to_remove ← covered_keys tokens (n_next pn);
          assert_ (length to_remove <=? 1)%nat;;
          match to_remove with [] => mret () | _ => get_tree par end;;
          h ← get;
          let l := fresh (dom (nodes h)) in
          put (with_nodes h (<[l := mkNode key (Some (Under par)) []
                 (Blk tokens (ordinal_of pn + 1) (replicate (num_life_cycles pn) None))]>
               (alter (λ n, set_next n (n_next n ++ [(key, l)])) par (nodes h))));;
          for_each to_remove (λ k,
            b ← detach_next par k;
            match b with
            | None => raise AssertionError
            | Some b =>
                adopt_pages_from l b;;
                bn ← node b;
                notify true (add_removed_event [n_key bn]);;
                orphan ← is_orphan b;
                assert_ orphan
            end);;
          mret (inl l)
      end
  end.

(** ** Committing a page

    [UncommittedPage.convert_to_committed] on a page of life cycle [lc_idx]
    that nobody holds, with the constructor of [CommittedPage]. *)

Definition convert_to_committed (l : loc) (lc_idx : nat) (num_tokens : Z) : M heap loc :=
  ok ← can_replace_page l lc_idx num_tokens;
  assert_ ok;;
  n ← node l;
  assert_ ((0 <? num_tokens) && (num_tokens <=? Z.of_nat (length (tokens_of n))));;
  h ← get;
  let p := fresh (dom (pages h)) in
  put (with_pages h (<[p := mkPage (Some l) lc_idx num_tokens DROPPABLE false]> (pages h)));;
  replace_page l lc_idx p;;
  mret p.

(** ** Dropping pages and blocks *)

(** The loop after a page has left its block. *)
Fixpoint clear_stale_loop (fuel : nat) (attached : bool) (lc_idx : nat) (curr : loc) : M heap () :=
  n ← node curr;
  match n_load n with
  | Root _ => mret ()
  | Blk _ _ _ =>
      o ← get_page curr lc_idx;
      match o, n_next n, n_prev n, fuel with
      | None, [], Some (Under p), S fuel =>
          detached ← detach_next p (n_key n);
          assert_ (bool_decide (detached = Some curr));;
          notify attached (add_removed_event [n_key n]);;
          clear_stale_loop fuel attached lc_idx p
      | None, [], Some (Under p), O => raise OutOfFuel
      | _, _, _, _ => mret ()
      end
  end.

Definition clear_stale_blocks_after_page_unlink (start : loc) (lc_idx : nat) (lc : LifeCycle) : M heap () :=
  o ← get_page start lc_idx;
  assert_ (bool_decide (o = None));;
  n ← node start;
  attached ← try_get_tree start;
  (if match lc with
      | Attn a => bool_decide (window_size a = None) || (ordinal_of n <? num_sink_blocks a)
      | Ssm => false
      end
   then remove_subtree start
   else notify attached (add_removed_life_cycle_event (n_key n) lc_idx));;
  clear_stale_loop (Z.to_nat (ordinal_of n + 1)) attached lc_idx start.

(** [CommittedPage.__del__]; [life_cycles] gives the page's life cycle. *)
Definition page_del (life_cycles : list LifeCycle) (p : loc) : M heap () :=
  pg ← page p;
  match p_block pg with
  | None => mret ()
  | Some b =>
      r ← unlink_page b (p_life_cycle pg) (Some p);
      match r with
      | None => mret ()
      | Some _ =>
          lc ← lift (of_option IndexError (life_cycles !! p_life_cycle pg));
          clear_stale_blocks_after_page_unlink b (p_life_cycle pg) lc
      end
  end;;
  assert_ (bool_decide (p_status pg = DROPPABLE) && negb (scheduled_for_eviction pg));;
  modify (λ h, with_pages h (delete p (pages h))).

(** [Block.__del__] *)
Definition block_del (l : loc) : M heap () :=
  release_pages l;;
  modify (λ h, with_nodes h (delete l (nodes h))).

(** ** Clearing the tree *)

Fixpoint clear_root (fuel : nat) (r : loc) : M heap () :=
  n ← node r;
  match n_next n, fuel with
  | [], _ => mret ()
  | _ :: _, O => raise OutOfFuel
  | (_, b) :: _, S fuel => remove_subtree b;; clear_root fuel r
  end.

Fixpoint clear_loop (fuel : nat) : M heap () :=
  d ← gets t_next;
  match d, fuel with
  | [], _ => mret ()
  | _ :: _, O => raise OutOfFuel
  | (_, r) :: _, S fuel =>
      h ← get;
      clear_root (size (nodes h)) r;;
      clear_loop fuel
  end.

(** [clear]: the nodes bound the turns of both loops. *)
Definition clear : M heap () :=
  h ← get;
  clear_loop (size (nodes h));;
  d ← gets t_next;
  assert_ (bool_decide (d = [])).
End tree.
