(* ===== verification/RadixTreeInv.v ===== *)
(** * The invariant of the radix tree's objects

    Links up and down agree, keys are the hashes the matcher recomputes,
    siblings do not cover one another, and blocks and pages refer to each
    other. *)

From S2P Require Import Prelude LifeCycle CacheKey RadixTree.

Local Open Scope Z_scope.

(** ** Dicts *)

Lemma dict_get_elem {A} k (a : A) d : NoDup d.*1 → dict_get k d = Some a ↔ (k, a) ∈ d.
Proof.
  induction d as [|[k' a'] d IH]; intros Hnd; cbn; [split; [done|by intros ?%not_elem_of_nil]|].
  apply NoDup_cons in Hnd as [Hk Hnd]. rewrite elem_of_cons. case_bool_decide as He.
  - subst. split; [intros [= ->]; by left|]. intros [[= ->]|H]; [done|].
    destruct Hk. apply list_elem_of_fmap. by exists (k, a).
  - rewrite IH by done. split; [by right|]. intros [[= -> ->]|?]; done.
Qed.

Lemma dict_get_None {A} k (d : list (bytes * A)) : dict_get k d = None ↔ k ∉ d.*1.
Proof.
  induction d as [|[k' a'] d IH]; cbn; [split; [by intros _ ?%not_elem_of_nil|done]|].
  rewrite not_elem_of_cons. case_bool_decide; [naive_solver|]. rewrite IH. naive_solver.
Qed.

Lemma dict_pop_elem {A} k k' (a : A) d :
  NoDup d.*1 → (k', a) ∈ dict_pop k d ↔ (k', a) ∈ d ∧ k' ≠ k.
Proof.
  induction d as [|[k1 a1] d IH]; intros Hnd; cbn; [split; [by intros ?%not_elem_of_nil|by intros [?%not_elem_of_nil _]]|].
  apply NoDup_cons in Hnd as [Hk Hnd]. case_bool_decide as He.
  - subst. rewrite elem_of_cons. split.
    + intros H. split; [by right|]. intros ->. destruct Hk. apply list_elem_of_fmap. by exists (k, a).
    + intros [[[= -> ->]|?] ?]; done.
  - rewrite !elem_of_cons, IH by done. naive_solver.
Qed.

Lemma dict_pop_keys {A} k (d : list (bytes * A)) : sublist (dict_pop k d).*1 d.*1.
Proof.
  induction d as [|[k1 a1] d IH]; cbn; [done|]. case_bool_decide; [by constructor|]. cbn. by constructor.
Qed.

Lemma dict_pop_nodup {A} k (d : list (bytes * A)) : NoDup d.*1 → NoDup (dict_pop k d).*1.
Proof. intros H. eapply sublist_NoDup, dict_pop_keys. exact H. Qed.

(** ** Links *)

Implicit Types (ns : gmap loc Node) (d : list (bytes * loc)).

Definition next_list ns d (p : parent) : list (bytes * loc) :=
  match p with
  | InTree => d
  | Under l => match ns !! l with Some n => n_next n | None => [] end
  end.

Section inv.
Context (sha256 : bytes → bytes) (tpb : Z) (nlc : nat).

(** What a node is, given where it hangs. *)
Definition node_ok ns (n : Node) : Prop :=
  (match n_load n, n_prev n with
  | Root s, Some InTree => root_key sha256 s = Ok (n_key n)
  | Root s, None => n_next n = []
  | Blk ts o st, Some (Under l) =>
      ∃ m, ns !! l = Some m ∧ ordinal_of m = o - 1 ∧ make_key sha256 (n_key m) ts = Ok (n_key n)
  | Blk ts o st, None => n_next n = []
  | _, _ => False
  end) ∧
  (match n_load n with
  | Root _ => True
  | Blk ts o st => 0 ≤ o ∧ 0 < Z.of_nat (length ts) ≤ tpb ∧ length st = nlc ∧
      (n_next n ≠ [] → Z.of_nat (length ts) = tpb)
  end).

Record links_ok ns d : Prop := {
  lk_next : ∀ p k l, (k, l) ∈ next_list ns d p ↔ ∃ n, ns !! l = Some n ∧ n_prev n = Some p ∧ n_key n = k;
  lk_nodup : ∀ p, NoDup (next_list ns d p).*1;
  lk_node : ∀ l n, ns !! l = Some n → node_ok ns n;
}.

Definition siblings_ok ns : Prop := ∀ l l' n n' p,
  ns !! l = Some n → ns !! l' = Some n' → n_prev n = Some (Under p) → n_prev n' = Some (Under p) →
  tokens_of n `prefix_of` tokens_of n' → l = l'.

(** Block and page refer to each other; the pages in [X] are in transit. *)
Record pages_ok (X : gset loc) (h : heap) : Prop := {
  pk_slot : ∀ l n lc p, nodes h !! l = Some n → storage_of n !! lc = Some (Some p) →
    (p ∉ X) ∧ ∃ pg, pages h !! p = Some pg ∧ p_block pg = Some l ∧ p_life_cycle pg = lc;
  pk_page : ∀ p pg l, pages h !! p = Some pg → p ∉ X → p_block pg = Some l →
    ∃ n, nodes h !! l = Some n ∧ storage_of n !! p_life_cycle pg = Some (Some p) ∧
      0 < num_tokens_in_block pg ≤ Z.of_nat (length (tokens_of n));
}.

Record wf (h : heap) : Prop := {
  wf_links : links_ok (nodes h) (t_next h);
  wf_siblings : siblings_ok (nodes h);
  wf_pages : pages_ok ∅ h;
}.

(** *** Links do not depend on storage *)

Definition erase (n : Node) : Node := set_storage n (replicate (length (storage_of n)) None).

Lemma erase_fields n n' : erase n = erase n' →
  n_key n = n_key n' ∧ n_prev n = n_prev n' ∧ n_next n = n_next n' ∧ ordinal_of n = ordinal_of n' ∧
  tokens_of n = tokens_of n' ∧ length (storage_of n) = length (storage_of n') ∧
  match n_load n, n_load n' with Root s, Root s' => s = s' | Blk _ _ _, Blk _ _ _ => True | _, _ => False end.
Proof.
  destruct n as [k p c [s|ts o st]], n' as [k' p' c' [s'|ts' o' st']]; unfold erase, set_storage; cbn;
    intros [=]; subst; cbn; try done.
  match goal with H : replicate _ _ = replicate _ _ |- _ => apply (f_equal length) in H; rewrite !length_replicate in H end.
  done.
Qed.

Lemma erase_lookup ns ns' l n : erase <$> ns = erase <$> ns' → ns !! l = Some n →
  ∃ n', ns' !! l = Some n' ∧ erase n = erase n'.
Proof.
  intros He Hl. apply (f_equal (lookup l)) in He. rewrite !lookup_fmap, Hl in He. cbn in He.
  destruct (ns' !! l) as [n'|]; cbn in He; [|done]. injection He as He. eauto.
Qed.

Lemma erase_next ns ns' d p : erase <$> ns = erase <$> ns' → next_list ns d p = next_list ns' d p.
Proof.
  intros He. destruct p as [|l]; cbn; [done|]. apply (f_equal (lookup l)) in He. rewrite !lookup_fmap in He.
  destruct (ns !! l) as [n|], (ns' !! l) as [n'|]; cbn in He; try done. injection He as He.
  by apply erase_fields in He as (_ & _ & ? & _).
Qed.

Lemma node_ok_erase ns ns' n n' :
  erase <$> ns = erase <$> ns' → erase n = erase n' → node_ok ns n → node_ok ns' n'.
Proof.
  intros Hs He. pose proof (erase_fields _ _ He) as (Hk & Hp & Hn & Ho & Ht & Hl & Hr). unfold node_ok.
  rewrite <- Hk, <- Hp, <- Hn. destruct n as [k p c [s|ts o st]], n' as [k' p' c' [s'|ts' o' st']];
    cbn in *; try done; subst; [done|].
  intros [H1 H2]. split; [|by rewrite <- Hl]. destruct p' as [[|l]|]; try done.
  destruct H1 as (m & Hm & Hom & Hkm). destruct (erase_lookup _ _ _ _ Hs Hm) as (m' & Hm' & Hem).
  apply erase_fields in Hem as (Hmk & _ & _ & Hmo & _). exists m'. rewrite <- Hmo, <- Hmk. done.
Qed.

Lemma links_erase ns ns' d : erase <$> ns = erase <$> ns' → links_ok ns d → links_ok ns' d.
Proof.
  intros Hs [H1 H2 H3]. split.
  - intros p k l. rewrite <- (erase_next ns ns') by done. rewrite H1. split.
    + intros (n & Hn & Hp & Hk). destruct (erase_lookup _ _ _ _ Hs Hn) as (n' & Hn' & He).
      apply erase_fields in He as (? & ? & _). exists n'. split; [done|]. split; congruence.
    + intros (n & Hn & Hp & Hk). symmetry in Hs. destruct (erase_lookup _ _ _ _ Hs Hn) as (n' & Hn' & He).
      apply erase_fields in He as (? & ? & _). exists n'. split; [done|]. split; congruence.
  - intros p. rewrite <- (erase_next ns ns') by done. apply H2.
  - intros l n Hn. symmetry in Hs. destruct (erase_lookup _ _ _ _ Hs Hn) as (n' & Hn' & He).
    symmetry in Hs, He. eapply node_ok_erase; eauto.
Qed.

Lemma siblings_erase ns ns' : erase <$> ns = erase <$> ns' → siblings_ok ns → siblings_ok ns'.
Proof.
  intros Hs H l l' n n' p Hl Hl' Hp Hp' Ht. symmetry in Hs.
  destruct (erase_lookup _ _ _ _ Hs Hl) as (m & Hm & He). destruct (erase_lookup _ _ _ _ Hs Hl') as (m' & Hm' & He').
  apply erase_fields in He as (_ & He1 & _ & _ & He2 & _). apply erase_fields in He' as (_ & He1' & _ & _ & He2' & _).
  eapply (H l l' m m' p); try done; congruence.
Qed.

(** *** Consequences *)

Section links.
Context ns d (Hlk : links_ok ns d).

Lemma child_of p k l : dict_get k (next_list ns d p) = Some l ↔ ∃ n, ns !! l = Some n ∧ n_prev n = Some p ∧ n_key n = k.
Proof. rewrite dict_get_elem by apply (lk_nodup _ _ Hlk). apply (lk_next _ _ Hlk). Qed.

Lemma child_block l n p : ns !! l = Some n → n_prev n = Some (Under p) →
  ∃ ts o st m, n_load n = Blk ts o st ∧ ns !! p = Some m ∧ ordinal_of m = o - 1 ∧
    make_key sha256 (n_key m) ts = Ok (n_key n) ∧ (n_key n, l) ∈ n_next m ∧ is_Some (n_prev m).
Proof.
  intros Hl Hp. pose proof (lk_node _ _ Hlk l n Hl) as [H1 _]. rewrite Hp in H1.
  destruct (n_load n) as [s|ts o st]; [done|]. destruct H1 as (m & Hm & Ho & Hk).
  assert (Hin : (n_key n, l) ∈ next_list ns d (Under p)) by (apply (lk_next _ _ Hlk); eauto).
  cbn in Hin. rewrite Hm in Hin. exists ts, o, st, m. repeat (split; [done|]).
  pose proof (lk_node _ _ Hlk p m Hm) as [H2 _]. destruct (n_prev m); [by eexists|].
  assert (He : n_next m = []) by (destruct (n_load m); done). rewrite He in Hin. by apply not_elem_of_nil in Hin.
Qed.

Lemma node_ordinal l n : ns !! l = Some n → -1 ≤ ordinal_of n.
Proof. intros Hl. pose proof (lk_node _ _ Hlk l n Hl) as [_ H]. unfold ordinal_of. destruct (n_load n); lia. Qed.

Lemma orphan_leaf l n : ns !! l = Some n → n_prev n = None → n_next n = [].
Proof.
  intros Hl Hp. pose proof (lk_node _ _ Hlk l n Hl) as [H _]. rewrite Hp in H. by destruct (n_load n).
Qed.
End links.

(** *** Taking a leaf off its parent *)

Definition unlink_node (p : parent) (k : bytes) (l x : loc) (m : Node) : Node :=
  mkNode (n_key m) (if bool_decide (x = l) then None else n_prev m)
    (if bool_decide (p = Under x) then dict_pop k (n_next m) else n_next m) (n_load m).

Definition unlink_nodes (p : parent) (k : bytes) (l : loc) ns : gmap loc Node :=
  map_imap (λ x m, Some (unlink_node p k l x m)) ns.

Definition unlink_roots (p : parent) (k : bytes) d : list (bytes * loc) :=
  if bool_decide (p = InTree) then dict_pop k d else d.

Lemma unlink_lookup p k l ns x : unlink_nodes p k l ns !! x = unlink_node p k l x <$> ns !! x.
Proof. unfold unlink_nodes. rewrite map_lookup_imap. by destruct (ns !! x). Qed.

Lemma unlink_next p k l ns d q :
  next_list (unlink_nodes p k l ns) (unlink_roots p k d) q =
  if bool_decide (p = q) then dict_pop k (next_list ns d q) else next_list ns d q.
Proof.
  destruct q as [|x]; cbn; [done|]. rewrite unlink_lookup. destruct (ns !! x) as [m|]; cbn; [done|].
  by case_bool_decide.
Qed.

Section unlink.
Context ns d (Hlk : links_ok ns d).
Context (p : parent) (l : loc) (n : Node) (Hl : ns !! l = Some n) (Hp : n_prev n = Some p) (Hleaf : n_next n = []).

Lemma unlink_links : links_ok (unlink_nodes p (n_key n) l ns) (unlink_roots p (n_key n) d).
Proof.
  split.
  - intros q k x. rewrite unlink_next. assert (Hx : (k, x) ∈ next_list ns d q ∧ x ≠ l ↔
      ∃ m, unlink_nodes p (n_key n) l ns !! x = Some m ∧ n_prev m = Some q ∧ n_key m = k).
    { rewrite (lk_next _ _ Hlk), unlink_lookup. split.
      - intros [(m & -> & Hm & Hk) Hne]. eexists. split; [done|]. cbn. by rewrite bool_decide_false.
      - intros (m & Hm & Hq & Hk). destruct (ns !! x) as [m0|]; [|done]. injection Hm as <-. cbn in *.
        case_bool_decide; [done|]. split; [by exists m0|done]. }
    rewrite <- Hx. case_bool_decide as Hq.
    + subst q. rewrite dict_pop_elem by apply (lk_nodup _ _ Hlk). rewrite (lk_next _ _ Hlk).
      split; intros [(m & Hm & Hmp & Hmk) Hne]; (split; [by exists m|]).
      * intros ->. apply Hne. congruence.
      * intros ->. apply Hne. assert (Some x = Some l); [|congruence].
        rewrite <- (proj2 (child_of _ _ Hlk p (n_key n) x)) by (exists m; by rewrite Hmk).
        apply (child_of _ _ Hlk). by exists n.
    + split; [|by intros [? ?]]. intros Hin. split; [done|]. intros ->.
      apply (lk_next _ _ Hlk) in Hin as (m & Hm & Hmp & _). congruence.
  - intros q. rewrite unlink_next. case_bool_decide; [apply dict_pop_nodup|]; apply (lk_nodup _ _ Hlk).
  - intros x m' Hx. rewrite unlink_lookup in Hx. destruct (ns !! x) as [m|] eqn:Hm; [|done].
    injection Hx as <-. pose proof (lk_node _ _ Hlk x m Hm) as [H1 H2]. unfold node_ok. cbn. split.
    + destruct (decide (x = l)) as [->|Hne].
      * rewrite bool_decide_true by done. assert (m = n) as -> by congruence.
        rewrite Hleaf. cbn. by destruct (n_load n), (bool_decide _).
      * rewrite (bool_decide_false (x = l)) by done.
        assert (Hpop : n_next m = [] → (if bool_decide (p = Under x) then dict_pop (n_key n) (n_next m) else n_next m) = [])
          by (intros ->; by case_bool_decide).
        destruct (n_load m) as [s|ts o st], (n_prev m) as [[|y]|]; try done; [by apply Hpop| |by apply Hpop].
        destruct H1 as (m0 & Hm0 & Ho & Hk). exists (unlink_node p (n_key n) l y m0).
        rewrite unlink_lookup, Hm0. by repeat split.
    + destruct (n_load m) as [s|ts o st]; [done|]. destruct H2 as (? & ? & ? & Hf). repeat (split; [done|]).
      intros Hne. apply Hf. intros He. apply Hne. rewrite He. by case_bool_decide.
Qed.
End unlink.

Lemma unlink_siblings p k l ns : siblings_ok ns → siblings_ok (unlink_nodes p k l ns).
Proof.
  intros H x x' m m' q Hx Hx' Hq Hq' Ht. rewrite unlink_lookup in Hx, Hx'.
  destruct (ns !! x) as [n|] eqn:Hn; [|done]. destruct (ns !! x') as [n'|] eqn:Hn'; [|done].
  injection Hx as <-. injection Hx' as <-. cbn in *. case_bool_decide; [done|]. case_bool_decide; [done|].
  by eapply (H x x' n n' q).
Qed.
End inv.
