(* ===== verification/RadixTreeOps.v ===== *)
(** * The operations on the radix tree's objects, one by one

    What each operation leaves in memory, and that it keeps the invariant. *)

From S2P Require Import Prelude LifeCycle CacheKey RadixTree RadixTreeInv.

Local Open Scope Z_scope.

Lemma node_ok_run l n h : nodes h !! l = Some n → node l h = (Ok n, h).
Proof. intros H. unfold node. by rewrite H. Qed.

Lemma page_run p pg h : pages h !! p = Some pg → page p h = (Ok pg, h).
Proof. intros H. unfold page. by rewrite H. Qed.

Lemma alter_some {A} (m : gmap loc A) i f x : m !! i = Some x → alter f i m = <[i := f x]> m.
Proof.
  intros Hx. apply map_eq. intros j. destruct (decide (j = i)) as [->|Hne].
  - by rewrite lookup_alter_eq, lookup_insert_eq, Hx.
  - by rewrite lookup_alter_ne, lookup_insert_ne.
Qed.

Lemma pages_ok_load X h h' :
  (∀ x, n_load <$> nodes h !! x = n_load <$> nodes h' !! x) → pages h' = pages h →
  pages_ok X h → pages_ok X h'.
Proof.
  intros Hn Hp [H1 H2]. split.
  - intros l n lc p Hl Hs. specialize (Hn l). rewrite Hl in Hn. destruct (nodes h !! l) as [m|] eqn:Hm; [|done].
    injection Hn as Hn. rewrite Hp. apply (H1 l m lc p Hm). unfold storage_of in *. by rewrite Hn.
  - intros p pg l Hpg HX Hb. rewrite Hp in Hpg. destruct (H2 p pg l Hpg HX Hb) as (n & Hl & Hs & Ht).
    specialize (Hn l). rewrite Hl in Hn. destruct (nodes h' !! l) as [m|] eqn:Hm; [|done].
    injection Hn as Hn. exists m. unfold storage_of, tokens_of in *. by rewrite <- Hn.
Qed.

Lemma unlink_load p k l ns x : n_load <$> ns !! x = n_load <$> unlink_nodes p k l ns !! x.
Proof. rewrite unlink_lookup. by destruct (ns !! x). Qed.

(** ** Detaching *)

Definition is_root (n : Node) : bool := match n_load n with Root _ => true | Blk _ _ _ => false end.

(** The heap without the link from [par], which is [n], to [child], which is
    [c]; a root left empty goes too. *)
Definition detached (h : heap) (par : loc) (n : Node) (child : loc) (c : Node) : heap :=
  let ns := unlink_nodes (Under par) (n_key c) child (nodes h) in
  if is_root n && bool_decide (dict_pop (n_key c) (n_next n) = [])
  then mkHeap (unlink_nodes InTree (n_key n) par ns) (pages h) (dict_pop (n_key n) (t_next h)) (events h)
  else with_nodes h ns.

Section ops.
Context (sha256 : bytes → bytes) (tpb : Z) (nlc : nat).
Abbreviation links_ok := (links_ok sha256 tpb nlc).
Abbreviation wf := (wf sha256 tpb nlc).

Lemma alter_unlink ns par n child c rest :
  ns !! par = Some n → ns !! child = Some c → par ≠ child → rest = dict_pop (n_key c) (n_next n) →
  alter (λ c, set_prev c None) child (alter (λ n, set_next n rest) par ns) =
  unlink_nodes (Under par) (n_key c) child ns.
Proof.
  intros Hn Hc Hne ->. apply map_eq. intros x. rewrite unlink_lookup.
  destruct (decide (x = child)) as [->|Hx].
  - rewrite lookup_alter_eq, lookup_alter_ne, Hc by done. cbn. unfold unlink_node, set_prev.
    rewrite bool_decide_true by done. rewrite bool_decide_false by congruence. done.
  - rewrite lookup_alter_ne by done. destruct (decide (x = par)) as [->|Hxp].
    + rewrite lookup_alter_eq, Hn. cbn. unfold unlink_node, set_next.
      rewrite (bool_decide_false (par = child)), bool_decide_true by done. done.
    + rewrite lookup_alter_ne by done. destruct (ns !! x) as [m|]; [|done]. cbn. unfold unlink_node.
      rewrite (bool_decide_false (x = child)), (bool_decide_false (Under par = Under x)) by congruence.
      by destruct m.
Qed.

Lemma alter_unlink_root ns par n :
  ns !! par = Some n → alter (λ n, set_prev n None) par ns = unlink_nodes InTree (n_key n) par ns.
Proof.
  intros Hn. apply map_eq. intros x. rewrite unlink_lookup. destruct (decide (x = par)) as [->|Hx].
  - rewrite lookup_alter_eq, Hn. cbn. unfold unlink_node. by rewrite bool_decide_true.
  - rewrite lookup_alter_ne by done. destruct (ns !! x) as [m|]; [|done]. cbn. unfold unlink_node.
    rewrite (bool_decide_false (x = par)) by done. rewrite bool_decide_false by done. by destruct m.
Qed.

Section detach.
Context (h : heap) (par child : loc) (n c : Node).
Context (Hlk : links_ok (nodes h) (t_next h)).
Context (Hpar : nodes h !! par = Some n) (Hchild : nodes h !! child = Some c).
Context (Hprev : n_prev c = Some (Under par)).

Lemma child_ne : par ≠ child.
Proof.
  intros ->. destruct (child_block _ _ _ _ _ Hlk child c child Hchild Hprev) as (ts & o & st & m & Hb & Hm & Ho & _).
  assert (m = c) as -> by congruence. unfold ordinal_of in Ho. rewrite Hb in Ho. lia.
Qed.

Lemma child_get : dict_get (n_key c) (n_next n) = Some child.
Proof.
  assert (Hn : n_next n = next_list (nodes h) (t_next h) (Under par)) by (cbn; by rewrite Hpar).
  rewrite Hn. apply (child_of _ _ _ _ _ Hlk). by exists c.
Qed.

Lemma root_attached : is_root n = true → n_prev n = Some InTree ∧ dict_get (n_key n) (t_next h) = Some par.
Proof.
  intros Hr. destruct (child_block _ _ _ _ _ Hlk child c par Hchild Hprev) as (? & ? & ? & m & _ & Hm & _ & _ & _ & Hp).
  assert (m = n) as -> by congruence. pose proof (lk_node _ _ _ _ _ Hlk par n Hpar) as [H1 _].
  unfold is_root in Hr. destruct (n_load n); [|done]. destruct (n_prev n) as [[|]|] eqn:He; [|done|by destruct Hp].
  split; [done|]. apply (child_of _ _ _ _ _ Hlk InTree). by exists n.
Qed.

Lemma detach_next_run : detach_next par (n_key c) h = (Ok (Some child), detached h par n child c).
Proof.
  unfold detach_next. rewrite (bind_ok _ _ _ _ _ (node_ok_run _ _ _ Hpar)). rewrite child_get.
  unfold set_node, detached. pose proof child_ne as Hne. pose proof root_attached as Hra.
  rewrite <- (alter_unlink _ par n child c _ Hpar Hchild Hne eq_refl).
  set (ns := alter _ child _). assert (Hns : ns !! par = Some (set_next n (dict_pop (n_key c) (n_next n)))).
  { subst ns. rewrite lookup_alter_ne, lookup_alter_eq, Hpar by done. done. }
  mrun. unfold is_root in *. destruct (n_load n) as [s|ts o st]; cbn; [|done].
  destruct (dict_pop (n_key c) (n_next n)) as [|kx rest] eqn:Hrest; cbn.
  - destruct Hra as [-> Hg]; [done|]. unfold with_nodes, with_roots. cbn. rewrite Hg. cbn.
    rewrite bool_decide_true by done. fold ns. by rewrite (alter_unlink_root _ _ _ Hns).
  - done.
Qed.

Context (Hleaf : n_next c = []).

Lemma detached_links : links_ok (nodes (detached h par n child c)) (t_next (detached h par n child c)).
Proof.
  pose proof (unlink_links _ _ _ _ _ Hlk (Under par) child c Hchild Hprev Hleaf) as H1.
  unfold detached. pose proof root_attached as Hra. destruct (is_root n) eqn:Hr; cbn; [|exact H1].
  destruct Hra as [Hp _]; [done|]. case_bool_decide as He; [|exact H1]. cbn.
  set (ns := unlink_nodes _ _ _ _) in *. pose proof child_ne as Hne.
  assert (Hns : ns !! par = Some (unlink_node (Under par) (n_key c) child par n))
    by (subst ns; by rewrite unlink_lookup, Hpar).
  apply (unlink_links _ _ _ _ _ H1 InTree par _ Hns).
  - cbn. by rewrite bool_decide_false.
  - cbn. by rewrite bool_decide_true.
Qed.

Lemma detached_wf : siblings_ok (nodes h) → pages_ok ∅ h → wf (detached h par n child c).
Proof.
  intros Hs Hpg. split; [apply detached_links| |].
  - unfold detached. destruct (_ && _); cbn; repeat apply unlink_siblings; done.
  - eapply pages_ok_load; [| |exact Hpg]; unfold detached; destruct (_ && _); cbn; try done; intros x;
      rewrite <- !unlink_load; done.
Qed.
End detach.

(** The nodes other than the two keep everything, the parent its load. *)
Lemma detached_lookup h par n child c x :
  nodes h !! par = Some n → x ≠ child →
  nodes (detached h par n child c) !! x =
  if decide (x = par) then
    Some (mkNode (n_key n) (if is_root n && bool_decide (dict_pop (n_key c) (n_next n) = []) then None else n_prev n)
            (dict_pop (n_key c) (n_next n)) (n_load n))
  else nodes h !! x.
Proof.
  intros Hn Hx. unfold detached. destruct (is_root n && _); cbn; rewrite !unlink_lookup.
  all: destruct (decide (x = par)) as [->|Hne]; [rewrite Hn|destruct (nodes h !! x) as [[]|]]; cbn; try done.
  all: unfold unlink_node; cbn; repeat case_bool_decide; congruence.
Qed.

Lemma detached_child h par n child c :
  nodes h !! child = Some c → par ≠ child →
  nodes (detached h par n child c) !! child = Some (set_prev c None).
Proof.
  intros Hc Hne. unfold detached, set_prev. destruct (is_root n && _); cbn; rewrite !unlink_lookup, Hc; cbn.
  all: unfold unlink_node; cbn; repeat case_bool_decide; congruence.
Qed.

(** ** Pages *)

Lemma storage_set n st lc x : storage_of n !! lc = Some x → storage_of (set_storage n st) = st.
Proof. unfold storage_of, set_storage. by destruct n as [k pr nx [s|ts o st']]. Qed.

Lemma tokens_set n st : tokens_of (set_storage n st) = tokens_of n.
Proof. unfold tokens_of, set_storage. by destruct n as [k pr nx [s|ts o st']]. Qed.

Lemma erase_set n st : length st = length (storage_of n) → erase (set_storage n st) = erase n.
Proof. destruct n as [k pr nx [s|ts o st']]; cbn; [done|]. unfold erase. cbn. by intros ->. Qed.

Lemma erase_insert (ns : gmap loc Node) l n st :
  ns !! l = Some n → length st = length (storage_of n) → erase <$> <[l := set_storage n st]> ns = erase <$> ns.
Proof.
  intros Hl Hst. rewrite fmap_insert, erase_set by done. apply insert_id. by rewrite lookup_fmap, Hl.
Qed.

(** A link between a block and a page is severed on both sides. *)
Definition unlinked (h : heap) (l : loc) (n : Node) (lc : nat) (p : loc) (pg' : CommittedPage) : heap :=
  mkHeap (<[l := set_storage n (<[lc := None]> (storage_of n))]> (nodes h)) (<[p := pg']> (pages h))
    (t_next h) (events h).

Lemma unlinked_pages X h l n lc p pg' :
  pages_ok X h → nodes h !! l = Some n → storage_of n !! lc = Some (Some p) → p_block pg' = None →
  pages_ok X (unlinked h l n lc p pg').
Proof.
  intros [H1 H2] Hl Hs Hb. destruct (H1 l n lc p Hl Hs) as (_ & pg & Hp & Hpb & Hplc). split.
  - intros l' n' lc' p' Hl' Hs'. cbn in *. rewrite lookup_insert_Some in Hl'.
    assert (∃ m, nodes h !! l' = Some m ∧ storage_of m !! lc' = Some (Some p') ∧ (l' ≠ l ∨ lc' ≠ lc))
      as (m & Hm & Hms & Hor).
    { destruct Hl' as [[<- <-]|[? ?]]; [|exists n'; naive_solver]. exists n.
      rewrite (storage_set _ _ _ _ Hs) in Hs'. destruct (decide (lc' = lc)) as [->|Hne].
      - rewrite list_lookup_insert_eq in Hs' by (by eapply lookup_lt_Some). done.
      - rewrite list_lookup_insert_ne in Hs' by done. naive_solver. }
    destruct (H1 l' m lc' p' Hm Hms) as (HX & pg1 & Hp1 & Hb1 & Hlc1). split; [done|]. exists pg1.
    rewrite lookup_insert_ne; [done|]. intros <-. assert (pg1 = pg) as -> by congruence. naive_solver.
  - intros p' pg1 l' Hp1 HX Hb1. cbn in *. rewrite lookup_insert_Some in Hp1.
    destruct Hp1 as [[<- <-]|[Hne Hp1]]; [congruence|].
    destruct (H2 p' pg1 l' Hp1 HX Hb1) as (m & Hm & Hms & Ht). destruct (decide (l' = l)) as [->|Hnl].
    + assert (m = n) as -> by congruence. eexists. rewrite lookup_insert_eq. split; [done|].
      rewrite (storage_set _ _ _ _ Hs), tokens_set, list_lookup_insert_ne; [done|]. intros He. rewrite <- He in Hms. congruence.
    + exists m. by rewrite lookup_insert_ne.
Qed.

(** What [unlink_page] does to a page. *)
Lemma unlink_page_run h l n lc p pg e :
  nodes h !! l = Some n → storage_of n !! lc = Some (Some p) → pages h !! p = Some pg →
  e = None ∨ e = Some p →
  unlink_page l lc e h = (Ok (Some p), unlinked h l n lc p (set_block pg None)).
Proof.
  intros Hl Hs Hp He. unfold unlink_page, get_page, set_page, set_slot, set_node, unlinked, with_nodes, with_pages.
  rewrite (bind_ok _ _ h (Some p) h); [|mrun; rewrite (node_ok_run _ _ _ Hl); by rewrite Hs].
  assert ((match e with Some e => negb (bool_decide (p = e)) | None => false end) = false) as ->.
  { destruct He as [-> | ->]; [done|]. by rewrite bool_decide_true. }
  mrun. cbn. by rewrite (alter_some _ _ _ _ Hl), (alter_some _ _ _ _ Hp).
Qed.

(** *** Releasing the pages of a block *)

Definition drop_page (pg : CommittedPage) : CommittedPage :=
  let pg' := set_block pg None in
  if bool_decide (p_status pg = DROPPABLE) && scheduled_for_eviction pg then unschedule pg' else pg'.

Definition drop_if (l : loc) (pg : CommittedPage) : CommittedPage :=
  if bool_decide (p_block pg = Some l) then drop_page pg else pg.

Definition empty_storage (n : Node) : Node := set_storage n (replicate (length (storage_of n)) None).

Definition released (h : heap) (l : loc) (n : Node) : heap :=
  mkHeap (<[l := empty_storage n]> (nodes h)) (drop_if l <$> pages h) (t_next h) (events h).

Lemma drop_page_block pg : p_block (drop_page pg) = None.
Proof. unfold drop_page. by destruct (_ && _). Qed.

Lemma set_storage_id n st : storage_of n = st → set_storage n st = n.
Proof. intros <-. by destruct n as [k pr nx [s|ts o st']]. Qed.

Lemma set_storage_twice n st st' : set_storage (set_storage n st) st' = set_storage n st'.
Proof. by destruct n as [k pr nx [s|ts o st'']]. Qed.

Lemma all_none (st : list (option loc)) : (∀ i x, st !! i = Some x → x = None) → st = replicate (length st) None.
Proof. intros H. symmetry. apply replicate_as_elem_of. split; [done|]. intros x [i Hi]%list_elem_of_lookup. by eapply H. Qed.

Lemma released_none h l n :
  pages_ok ∅ h → nodes h !! l = Some n → (∀ i x, storage_of n !! i = Some x → x = None) → released h l n = h.
Proof.
  intros [_ H2] Hl Hnone. unfold released, empty_storage.
  rewrite set_storage_id by (by apply all_none). rewrite (insert_id (nodes h)) by done.
  destruct h as [ns ps tn ev]. cbn in *. f_equal. apply map_eq. intros p. rewrite lookup_fmap.
  destruct (ps !! p) as [pg|] eqn:Hp; [|done]. cbn. f_equal. unfold drop_if. case_bool_decide as Hb; [|done].
  destruct (H2 p pg l Hp) as (m & Hm & Hs & _); [set_solver|done|]. rewrite Hl in Hm. injection Hm as <-.
  by apply Hnone in Hs.
Qed.

Lemma released_unlinked h l n lc p pg :
  pages_ok ∅ h → nodes h !! l = Some n → storage_of n !! lc = Some (Some p) → pages h !! p = Some pg →
  p_block pg = Some l →
  released (unlinked h l n lc p (drop_page pg)) l (set_storage n (<[lc := None]> (storage_of n))) = released h l n.
Proof.
  intros Hok Hl Hs Hp Hb. unfold released, unlinked, empty_storage. cbn.
  rewrite insert_insert_eq, set_storage_twice, (storage_set _ _ _ _ Hs), length_insert. f_equal.
  apply map_eq. intros q. rewrite !lookup_fmap. destruct (decide (q = p)) as [->|Hne].
  - rewrite lookup_insert_eq, Hp. cbn. f_equal. unfold drop_if at 1. rewrite drop_page_block.
    rewrite bool_decide_false by done. unfold drop_if. by rewrite bool_decide_true.
  - by rewrite lookup_insert_ne.
Qed.

Definition release_body (l : loc) (lc_idx : nat) : M heap () :=
  o ← get_page l lc_idx;
  match o with
  | None => mret ()
  | Some p =>
      unlink_page l lc_idx None;;
      pg ← page p;
      if bool_decide (p_status pg = DROPPABLE) && scheduled_for_eviction pg
      then exclude_from_eviction p else mret ()
  end.

Lemma get_page_run h l n lc o :
  nodes h !! l = Some n → storage_of n !! lc = Some o → get_page l lc h = (Ok o, h).
Proof.
  intros Hl Hs. unfold get_page. rewrite (bind_ok _ _ _ _ _ (node_ok_run _ _ _ Hl)). mrun. by rewrite Hs.
Qed.

Lemma release_body_run h l n lc p pg :
  nodes h !! l = Some n → storage_of n !! lc = Some (Some p) → pages h !! p = Some pg →
  release_body l lc h = (Ok (), unlinked h l n lc p (drop_page pg)).
Proof.
  intros Hl Hs Hp. unfold release_body. rewrite (bind_ok _ _ _ _ _ (get_page_run _ _ _ _ _ Hl Hs)).
  rewrite (bind_ok _ _ _ _ _ (unlink_page_run h l n lc p pg None Hl Hs Hp ltac:(by left))).
  rewrite (bind_ok _ _ _ (set_block pg None) (unlinked h l n lc p (set_block pg None)))
    by (apply page_run; cbn; by rewrite lookup_insert_eq).
  unfold drop_page. cbn. destruct (_ && _); [|done]. unfold exclude_from_eviction, set_page, unlinked, with_pages.
  mrun. cbn. rewrite (alter_some _ _ _ (set_block pg None)) by (by rewrite lookup_insert_eq).
  by rewrite insert_insert_eq.
Qed.

Lemma release_loop m : ∀ k h l n,
  pages_ok ∅ h → nodes h !! l = Some n → length (storage_of n) = (k + m)%nat →
  (∀ i x, (i < k)%nat → storage_of n !! i = Some x → x = None) →
  for_each (seq k m) (release_body l) h = (Ok (), released h l n).
Proof.
  induction m as [|m IH]; intros k h l n Hok Hl Hlen Hnone; cbn [seq for_each].
  - rewrite released_none; [done|done|done|]. intros i x Hx. apply (Hnone i x); [|done].
    apply lookup_lt_Some in Hx. lia.
  - destruct (lookup_lt_is_Some_2 (storage_of n) k) as [o Ho]; [lia|]. destruct o as [p|].
    + destruct (pk_slot _ _ Hok l n k p Hl Ho) as (_ & pg & Hp & Hb & _).
      rewrite (bind_ok _ _ _ _ _ (release_body_run h l n k p pg Hl Ho Hp)).
      erewrite IH.
      * by rewrite released_unlinked.
      * apply unlinked_pages; try done. apply drop_page_block.
      * cbn. by rewrite lookup_insert_eq.
      * rewrite (storage_set _ _ _ _ Ho), length_insert. lia.
      * rewrite (storage_set _ _ _ _ Ho). intros i x Hi Hx. apply list_lookup_insert_Some in Hx as [(<- & <- & _)|[Hne Hx]];
          [done|]. apply (Hnone i x); [lia|done].
    + rewrite (bind_ok _ _ _ () h); [|unfold release_body; by rewrite (bind_ok _ _ _ _ _ (get_page_run _ _ _ _ _ Hl Ho))].
      apply IH; [done|done|lia|]. intros i x Hi Hx. destruct (decide (i = k)) as [->|Hne]; [congruence|].
      apply (Hnone i x); [lia|done].
Qed.

Lemma release_pages_run h l n :
  pages_ok ∅ h → nodes h !! l = Some n → is_root n = false →
  release_pages nlc l h = (Ok (), released h l n).
Proof.
  intros Hok Hl Hr. unfold release_pages. rewrite (bind_ok _ _ _ _ _ (node_ok_run _ _ _ Hl)).
  fold (release_body l). unfold num_life_cycles, is_root in *.
  destruct (n_load n) as [s|ts o st] eqn:Hn; [done|].
  apply release_loop; [done|done| |lia]. unfold storage_of. by rewrite Hn.
Qed.

Lemma released_pages h l n : pages_ok ∅ h → nodes h !! l = Some n → pages_ok ∅ (released h l n).
Proof.
  intros [H1 H2] Hl. split; cbn.
  - intros l' n' lc p Hl' Hs. apply lookup_insert_Some in Hl' as [[<- <-]|[Hne Hl']].
    + exfalso. unfold empty_storage, storage_of, set_storage in Hs. destruct n as [k pr nx [s|ts o st]]; cbn in *; [done|].
      apply lookup_replicate in Hs as [? _]. done.
    + destruct (H1 l' n' lc p Hl' Hs) as (HX & pg & Hp & Hb & Hlc). split; [done|]. exists pg.
      rewrite lookup_fmap, Hp. cbn. unfold drop_if. rewrite bool_decide_false by congruence. done.
  - intros p pg' l' Hp' HX Hb. rewrite lookup_fmap in Hp'. destruct (pages h !! p) as [pg|] eqn:Hp; [|done].
    injection Hp' as <-. unfold drop_if in *. case_bool_decide as Hd; [by rewrite drop_page_block in Hb|].
    destruct (H2 p pg l' Hp HX Hb) as (m & Hm & Hs & Ht). exists m. rewrite lookup_insert_ne; [done|].
    intros ->. congruence.
Qed.

Lemma released_wf h l n : wf h → nodes h !! l = Some n → wf (released h l n).
Proof.
  intros [Hlk Hsb Hpg] Hl. assert (He : erase <$> nodes (released h l n) = erase <$> nodes h)
    by (apply erase_insert; [done|by rewrite length_replicate]).
  split; [by eapply links_erase|by eapply siblings_erase|by apply released_pages].
Qed.

(** ** The way up *)

Section climb.
Context (h : heap) (Hlk : links_ok (nodes h) (t_next h)).

Lemma climb_run fuel : ∀ l n,
  nodes h !! l = Some n → (Z.to_nat (ordinal_of n + 1) ≤ fuel)%nat →
  climb fuel l h = (Ok (bool_decide (is_Some (n_prev n))), h).
Proof.
  induction fuel as [|fuel IH]; intros l n Hl Hf; cbn [climb];
    rewrite (bind_ok _ _ _ _ _ (node_ok_run _ _ _ Hl)).
  all: destruct (n_prev n) as [[|p]|] eqn:Hp; [done| |done].
  all: destruct (child_block _ _ _ _ _ Hlk l n p Hl Hp) as (ts & o & st & m & Hb & Hm & Ho & _ & _ & Hs).
  all: pose proof (lk_node _ _ _ _ _ Hlk l n Hl) as [_ Ho']; unfold ordinal_of in Hf; rewrite Hb in Hf, Ho';
    destruct Ho' as [Ho' _].
  - lia.
  - rewrite (IH p m Hm) by lia. by rewrite !bool_decide_true.
Qed.

Lemma try_get_tree_run l n :
  nodes h !! l = Some n → try_get_tree l h = (Ok (bool_decide (is_Some (n_prev n))), h).
Proof.
  intros Hl. unfold try_get_tree. rewrite (bind_ok _ _ _ _ _ (node_ok_run _ _ _ Hl)). by apply climb_run.
Qed.
End climb.
End ops.
