(* ===== verification/RadixTreeRemove.v ===== *)
(** * Removing a subtree

    [remove_subtree] walks down to a leaf, releases its pages, detaches it
    and goes on from its parent, keeping nothing but the current block.  Here
    it is shown to visit the subtree in post-order and to end. *)

From S2P Require Import Prelude LifeCycle CacheKey RadixTree RadixTreeInv RadixTreeOps.

Local Open Scope Z_scope.

Implicit Types (ns : gmap loc Node) (L ls : list loc).

(** [forest ns ls L]: [L] is the post-order of the subtrees at [ls]. *)
Inductive forest ns : list loc → list loc → Prop :=
| forest_nil : forest ns [] []
| forest_cons l n ls L1 L2 :
    ns !! l = Some n → forest ns (n_next n).*2 L1 → forest ns ls L2 → forest ns (l :: ls) (L1 ++ l :: L2).

(** [x] is [l] or hangs below it. *)
Definition up ns (x l : loc) : Prop := ∃ n, ns !! x = Some n ∧ n_prev n = Some (Under l).
Definition below ns : loc → loc → Prop := rtc (up ns).

Definition ord ns (l : loc) : Z := from_option ordinal_of (-2) (ns !! l).

Section forests.
Context (sha256 : bytes → bytes) (tpb : Z) (nlc : nat).
Context ns d (Hlk : links_ok sha256 tpb nlc ns d).

Lemma up_ord x l : up ns x l → ord ns x = ord ns l + 1.
Proof.
  intros (n & Hx & Hp). destruct (child_block _ _ _ _ _ Hlk x n l Hx Hp) as (ts & o & st & m & Hb & Hm & Ho & _).
  unfold ord. rewrite Hx, Hm. cbn. unfold ordinal_of at 1. rewrite Hb. lia.
Qed.

Lemma below_ord x l : below ns x l → ord ns l ≤ ord ns x ∧ (ord ns x = ord ns l → x = l).
Proof.
  induction 1 as [x|x y l Hu _ [IH1 IH2]]; [lia|]. apply up_ord in Hu. split; [lia|]. lia.
Qed.

Lemma below_unique x a b : below ns x a → below ns x b → ord ns a = ord ns b → a = b.
Proof.
  intros Ha. revert b. induction Ha as [x|x y a Hu Ha IH]; intros b Hb Ho.
  - apply below_ord in Hb as [_ Hb]. by apply Hb.
  - inversion Hb as [?|? y' ? Hu' Hb']; subst.
    + apply below_ord in Ha as [Ha _]. apply up_ord in Hu. lia.
    + apply IH; [|done]. destruct Hu as (n & Hn & Hp), Hu' as (n' & Hn' & Hp'). by simplify_eq.
Qed.

Lemma children_locs l n : ns !! l = Some n → ∀ x, x ∈ (n_next n).*2 ↔ up ns x l.
Proof.
  intros Hl x. assert (Hn : n_next n = next_list ns d (Under l)) by (cbn; by rewrite Hl).
  rewrite Hn, list_elem_of_fmap. split.
  - intros ([k y] & -> & Hin). apply (lk_next _ _ _ _ _ Hlk) in Hin as (m & Hm & Hp & _). by exists m.
  - intros (m & Hm & Hp). exists (n_key m, x). split; [done|]. apply (lk_next _ _ _ _ _ Hlk). by exists m.
Qed.

Lemma NoDup_snd (dd : list (bytes * loc)) :
  NoDup dd.*1 → (∀ k k' x, (k, x) ∈ dd → (k', x) ∈ dd → k = k') → NoDup dd.*2.
Proof.
  induction dd as [|[k x] dd IH]; [constructor|]. cbn. intros [Hk Hnd]%NoDup_cons Hf. apply NoDup_cons. split.
  - intros ([k' y] & -> & Hin)%list_elem_of_fmap. cbn in *. apply Hk.
    rewrite (Hf k k' y); [apply list_elem_of_fmap; by exists (k', y)|by left|by right].
  - apply IH; [done|]. intros k1 k2 y H1 H2. apply (Hf k1 k2 y); by right.
Qed.

Lemma children_nodup l n : ns !! l = Some n → NoDup (n_next n).*2.
Proof.
  intros Hl. assert (Hn : n_next n = next_list ns d (Under l)) by (cbn; by rewrite Hl). rewrite Hn.
  apply NoDup_snd; [apply (lk_nodup _ _ _ _ _ Hlk)|]. intros k k' x H1 H2.
  apply (lk_next _ _ _ _ _ Hlk) in H1 as (m & Hm & _ & <-), H2 as (m' & Hm' & _ & <-). congruence.
Qed.

Lemma forest_below ls L : forest ns ls L → ∀ x, x ∈ L → ∃ l, l ∈ ls ∧ below ns x l.
Proof.
  induction 1 as [|l n ls L1 L2 Hl H1 IH1 H2 IH2]; intros x Hx; [by apply not_elem_of_nil in Hx|].
  apply elem_of_app in Hx as [Hx|[->|Hx]%elem_of_cons].
  - destruct (IH1 x Hx) as (y & Hy & Hb). apply (children_locs l n Hl) in Hy. exists l. split; [by left|].
    eapply rtc_r; eauto.
  - exists l. split; [by left|constructor].
  - destruct (IH2 x Hx) as (y & Hy & Hb). exists y. split; [by right|done].
Qed.

Lemma forest_nodup ls L : forest ns ls L → NoDup ls → ∀ o, (∀ l, l ∈ ls → ord ns l = o) → NoDup L.
Proof.
  induction 1 as [|l n ls L1 L2 Hl H1 IH1 H2 IH2]; intros Hnd o Ho; [constructor|].
  apply NoDup_cons in Hnd as [Hni Hnd].
  assert (Hc : ∀ x, x ∈ (n_next n).*2 → ord ns x = o + 1).
  { intros x Hx%(children_locs l n Hl)%up_ord. rewrite Hx, (Ho l) by left. done. }
  apply NoDup_app. split; [by eapply IH1; [eapply children_nodup|]|].
  assert (Hdis : ∀ x, below ns x l → x ∈ L2 → False).
  { intros x Hb Hx. destruct (forest_below _ _ H2 x Hx) as (y & Hy & Hby).
    rewrite (below_unique x l y) in Hni; [done..|]. rewrite (Ho l), (Ho y); [done|by right|by left]. }
  split.
  - intros x Hx. destruct (forest_below _ _ H1 x Hx) as (y & Hy & Hby).
    pose proof (Hc y Hy) as Hoy. apply (children_locs l n Hl) in Hy. rewrite not_elem_of_cons. split.
    + intros ->. apply below_ord in Hby as [Hby _]. rewrite Hoy, (Ho l) in Hby by left. lia.
    + intros Hx2. apply (Hdis x); [eapply rtc_r; eauto|done].
  - apply NoDup_cons. split; [|eapply IH2; [done|]; intros y Hy; apply Ho; by right].
    intros Hx. apply (Hdis l); [constructor|done].
Qed.

Lemma forest_nodes ls L : forest ns ls L → (∀ l, l ∈ ls → is_Some (ns !! l)) → ∀ x, x ∈ L → is_Some (ns !! x).
Proof.
  induction 1 as [|l n ls L1 L2 Hl H1 IH1 H2 IH2]; intros Hs x Hx; [by apply not_elem_of_nil in Hx|].
  apply elem_of_app in Hx as [Hx|[->|Hx]%elem_of_cons]; [|by eexists|].
  - apply IH1; [|done]. intros y (m & Hm & _)%(children_locs l n Hl). by eexists.
  - apply IH2; [|done]. intros y Hy. apply Hs. by right.
Qed.

Lemma forest_roots ls L : forest ns ls L → ∀ l, l ∈ ls → l ∈ L.
Proof.
  induction 1 as [|l n ls L1 L2 Hl H1 IH1 H2 IH2]; intros x Hx; [done|].
  apply elem_of_app. right. apply elem_of_cons in Hx as [->|Hx]; [left|right; by apply IH2].
Qed.

Lemma forest_closed ls L : forest ns ls L → ∀ x y, up ns x y → y ∈ L → x ∈ L.
Proof.
  induction 1 as [|l n ls L1 L2 Hl H1 IH1 H2 IH2]; intros x y Hu Hy; [by apply not_elem_of_nil in Hy|].
  apply elem_of_app in Hy as [Hy|[->|Hy]%elem_of_cons]; apply elem_of_app.
  - left. by eapply IH1.
  - left. eapply forest_roots; [done|]. by apply (children_locs l n).
  - right. right. by eapply IH2.
Qed.

Lemma forest_complete ls L l : forest ns ls L → l ∈ ls → ∀ x, below ns x l → x ∈ L.
Proof.
  intros Hf Hl x Hb. induction Hb as [x|x y l Hu Hb IH]; [by eapply forest_roots|].
  eapply forest_closed; [done|done|]. by apply IH.
Qed.

Lemma ord_bound : ∃ b, ∀ l, ord ns l < b.
Proof.
  clear Hlk. induction ns as [|l n m Hl IH] using map_ind.
  - exists 0. intros l. unfold ord. by rewrite lookup_empty.
  - destruct IH as [b Hb]. exists (Z.max b (ordinal_of n + 1)). intros l'. unfold ord in *.
    destruct (decide (l' = l)) as [->|Hne]; [rewrite lookup_insert_eq; cbn; lia|].
    rewrite lookup_insert_ne by done. pose proof (Hb l'). lia.
Qed.

Lemma forest_exists ls : (∀ l, l ∈ ls → is_Some (ns !! l)) → ∃ L, forest ns ls L.
Proof.
  destruct ord_bound as [b Hb]. assert (H : ∀ k ls, (∀ l, l ∈ ls → is_Some (ns !! l) ∧ b - Z.of_nat k ≤ ord ns l) →
    ∃ L, forest ns ls L).
  { induction k as [|k IHk]; intros ls'; induction ls' as [|l ls' IHl]; intros H; try (eexists; constructor; fail).
    - destruct (H l) as [_ Ho]; [left|]. pose proof (Hb l). lia.
    - destruct IHl as [L2 H2]; [intros y Hy; apply H; by right|].
      destruct (H l) as [[n Hn] Ho]; [left|]. destruct (IHk (n_next n).*2) as [L1 H1].
      + intros x Hx%(children_locs l n Hn). split; [by destruct Hx as (m & -> & _); eexists|].
        apply up_ord in Hx. lia.
      + eexists. by eapply forest_cons. }
  intros Hs. apply (H (Z.to_nat (b + 2)) ls). intros l Hl. split; [by apply Hs|].
  destruct (Hs l Hl) as [n Hn]. pose proof (node_ordinal _ _ _ _ _ Hlk l n Hn). pose proof (Hb l).
  unfold ord in *. rewrite Hn in *. cbn in *. lia.
Qed.
End forests.

(** ** One block *)

(** A block that has left the tree. *)
Definition gone (n : Node) : Node :=
  mkNode (n_key n) None [] (n_load (empty_storage n)).

Definition drop_in (X : gset loc) (pg : CommittedPage) : CommittedPage :=
  match p_block pg with
  | Some l => if bool_decide (l ∈ X) then drop_page pg else pg
  | None => pg
  end.

Lemma drop_in_single l pg : drop_in {[ l ]} pg = drop_if l pg.
Proof.
  unfold drop_in, drop_if. destruct (p_block pg) as [b|]; [|by rewrite bool_decide_false].
  repeat case_bool_decide; set_solver.
Qed.

Lemma drop_in_union X Y pg : drop_in Y (drop_in X pg) = drop_in (X ∪ Y) pg.
Proof.
  unfold drop_in. destruct (p_block pg) as [b|] eqn:Hb; [|by rewrite Hb].
  destruct (decide (b ∈ X)) as [HX|HX].
  - rewrite (bool_decide_true (b ∈ X)), (bool_decide_true (b ∈ X ∪ Y)) by set_solver. by rewrite drop_page_block.
  - rewrite (bool_decide_false (b ∈ X)) by done. rewrite Hb. repeat case_bool_decide; set_solver.
Qed.

Lemma empty_key n : n_key (empty_storage n) = n_key n ∧ n_prev (empty_storage n) = n_prev n ∧
  n_next (empty_storage n) = n_next n.
Proof. by destruct n as [k p c [s|ts o st]]. Qed.

Section remove.
Context (sha256 : bytes → bytes) (tpb : Z) (nlc : nat).
Abbreviation links_ok := (links_ok sha256 tpb nlc).
Abbreviation wf := (wf sha256 tpb nlc).

(** A leaf [l], below [par], gone with its pages. *)
Definition leaf_gone (h : heap) (par : loc) (m : Node) (l : loc) (n : Node) : heap :=
  detached (released h l n) par m l (empty_storage n).

Section leaf.
Context (h : heap) (Hwf : wf h) (par l : loc) (m n : Node).
Context (Hpar : nodes h !! par = Some m) (Hl : nodes h !! l = Some n).
Context (Hprev : n_prev n = Some (Under par)) (Hleaf : n_next n = []).

Lemma leaf_ne : par ≠ l.
Proof. eapply (child_ne _ _ _ h); eauto using wf_links. Qed.

Lemma leaf_is_block : is_root n = false.
Proof.
  destruct (child_block _ _ _ _ _ (wf_links _ _ _ _ Hwf) l n par Hl Hprev) as (ts & o & st & _ & Hb & _).
  unfold is_root. by rewrite Hb.
Qed.

Lemma leaf_released :
  wf (released h l n) ∧ nodes (released h l n) !! par = Some m ∧
  nodes (released h l n) !! l = Some (empty_storage n) ∧ n_prev (empty_storage n) = Some (Under par) ∧
  n_next (empty_storage n) = [].
Proof.
  destruct (empty_key n) as (_ & -> & ->). split; [by apply released_wf|]. cbn.
  rewrite lookup_insert_ne, lookup_insert_eq by (symmetry; apply leaf_ne). done.
Qed.

Lemma leaf_gone_wf : wf (leaf_gone h par m l n).
Proof.
  destruct leaf_released as ([H1 H2 H3] & Hp & Hn & Hpr & Hnx). by eapply detached_wf.
Qed.

Lemma leaf_gone_run {A} (f : option loc → M heap A) :
  (release_pages nlc l;; detach_next par (n_key n) ≫= f) h = f (Some l) (leaf_gone h par m l n).
Proof.
  destruct leaf_released as ([H1 H2 H3] & Hp & Hn & Hpr & Hnx).
  rewrite (bind_ok _ _ _ _ _ (release_pages_run nlc h l n (wf_pages _ _ _ _ Hwf) Hl leaf_is_block)).
  apply bind_ok. destruct (empty_key n) as (Hk & _ & _). rewrite <- Hk.
  by eapply detach_next_run.
Qed.

Lemma leaf_gone_lookup x : x ≠ par → x ≠ l → nodes (leaf_gone h par m l n) !! x = nodes h !! x.
Proof.
  intros Hx Hxl. destruct leaf_released as (_ & Hp & _). unfold leaf_gone.
  rewrite (detached_lookup _ par m) by done. rewrite decide_False by done. cbn. by rewrite lookup_insert_ne.
Qed.

Lemma leaf_gone_leaf : nodes (leaf_gone h par m l n) !! l = Some (gone n).
Proof.
  destruct leaf_released as (_ & Hp & Hn & Hpr & Hnx). unfold leaf_gone.
  rewrite (detached_child _ par m) by (done || apply leaf_ne). f_equal. unfold set_prev, gone.
  destruct (empty_key n) as (-> & _ & ->). by rewrite Hleaf.
Qed.

Lemma leaf_gone_parent : is_root m = false →
  nodes (leaf_gone h par m l n) !! par = Some (set_next m (dict_pop (n_key n) (n_next m))) ∧
  t_next (leaf_gone h par m l n) = t_next h.
Proof.
  intros Hr. destruct leaf_released as (_ & Hp & _). destruct (empty_key n) as (Hk & _ & _). unfold leaf_gone. split.
  - rewrite (detached_lookup _ par m) by (done || apply leaf_ne). rewrite decide_True by done.
    rewrite Hr, Hk. done.
  - unfold detached. by rewrite Hr.
Qed.

Lemma leaf_gone_rest : pages (leaf_gone h par m l n) = drop_in {[ l ]} <$> pages h ∧
  events (leaf_gone h par m l n) = events h.
Proof.
  unfold leaf_gone, detached. destruct (_ && _); cbn; (split; [|done]); apply map_fmap_ext;
    intros p pg _; by rewrite drop_in_single.
Qed.
End leaf.

(** ** The loop *)

Definition keys_of (ns : gmap loc Node) (L : list loc) : list bytes := (λ x, from_option n_key [] (ns !! x)) <$> L.

(** [h'] is [h] without the subtrees listed in [L] below [cur]. *)
Record pruned (ns : gmap loc Node) (h : heap) (cur : loc) (L : list loc) (h' : heap) : Prop := {
  pr_wf : wf h';
  pr_gone : ∀ x n, x ∈ L → ns !! x = Some n → nodes h' !! x = Some (gone n);
  pr_same : ∀ x, x ∉ L → x ≠ cur → nodes h' !! x = nodes h !! x;
  pr_pages : pages h' = drop_in (list_to_set L) <$> pages h;
  pr_roots : t_next h' = t_next h;
  pr_events : events h' = events h;
}.

Lemma pages_drop_nil h : pages h = drop_in (list_to_set []) <$> pages h.
Proof.
  rewrite <- (map_fmap_id (pages h)) at 1. apply map_fmap_ext. intros p pg _. unfold drop_in.
  destruct (p_block pg); [|done]. by rewrite bool_decide_false by set_solver.
Qed.

Lemma turn_down root cur n k child rest removed h :
  nodes h !! cur = Some n → n_next n = (k, child) :: rest →
  remove_turn nlc root cur removed h = (Ok (At child removed, removed), h).
Proof.
  intros Hc Hn. unfold remove_turn. rewrite (bind_ok _ _ _ _ _ (node_ok_run _ _ _ Hc)). by rewrite Hn.
Qed.

Lemma turn_up root par m l n removed h :
  wf h → nodes h !! par = Some m → nodes h !! l = Some n → n_prev n = Some (Under par) → n_next n = [] →
  l ≠ root → is_root m = false →
  remove_turn nlc root l removed h =
  (Ok (At par (removed ++ [n_key n]), removed ++ [n_key n]), leaf_gone h par m l n).
Proof.
  intros Hwf Hp Hl Hpr Hlf Hr Hb. unfold remove_turn. rewrite (bind_ok _ _ _ _ _ (node_ok_run _ _ _ Hl)).
  rewrite Hlf, Hpr. rewrite (leaf_gone_run h Hwf par l m n) by done.
  rewrite (bool_decide_true (Some l = Some l)), (bool_decide_false (l = root)) by done.
  destruct (leaf_gone_parent h Hwf par l m n Hp Hl Hpr Hlf Hb) as [Hg _].
  mrun. rewrite (node_ok_run _ _ _ Hg). cbn. unfold is_root in Hb. by destruct (n_load m).
Qed.

Lemma loop_step root cur removed t removed' h h' fuel :
  remove_turn nlc root cur removed h = (Ok (t, removed'), h') →
  remove_loop nlc (S fuel) root cur removed h =
  match t with Done => mret removed' | At b r => remove_loop nlc fuel root b r end h'.
Proof. intros H. cbn [remove_loop]. by rewrite (bind_ok _ _ _ _ _ H). Qed.

Lemma pruned_nil ns h cur : wf h → pruned ns h cur [] h.
Proof. intros Hwf. split; try done; [by intros x n ?%not_elem_of_nil|apply pages_drop_nil]. Qed.

Lemma pruned_cons ns h cur l m n m1 L1 L2 h1 h2 :
  NoDup (L1 ++ l :: L2) → cur ∉ L1 ++ l :: L2 →
  (∀ x, x ∈ L1 ++ l :: L2 → nodes h !! x = ns !! x) → ns !! l = Some n →
  pruned ns h l L1 h1 → nodes h1 !! l = Some (set_next n []) →
  nodes h1 !! cur = Some m1 → is_root m1 = false → m = set_next n [] →
  n_prev n = Some (Under cur) →
  pruned ns (leaf_gone h1 cur m1 l m) cur L2 h2 → pruned ns h cur (L1 ++ l :: L2) h2.
Proof.
  intros Hnd Hcur Hag Hn [W1 G1 S1 P1 R1 E1] Hl1 Hc1 Hr1 -> Hpr [W2 G2 S2 P2 R2 E2].
  apply NoDup_app in Hnd as (Hnd1 & Hdis & Hnd2). apply NoDup_cons in Hnd2 as [Hl2 Hnd2].
  assert (Hleaf : n_next (set_next n []) = []) by done.
  assert (Hgone : gone (set_next n []) = gone n) by (by destruct n as [k p c [s|ts o st]]).
  destruct (leaf_gone_rest h1 cur l m1 (set_next n [])) as [P3 E3].
  destruct (leaf_gone_parent h1 W1 cur l m1 _ Hc1 Hl1 Hpr Hleaf Hr1) as [_ R3]. split.
  - done.
  - intros x nx [Hx|[->|Hx]%elem_of_cons]%elem_of_app Hnx; [| |by apply G2].
    + assert (x ≠ l ∧ x ∉ L2) as [Hxl Hx2] by (apply not_elem_of_cons; by apply Hdis).
      assert (x ≠ cur) by (intros ->; apply Hcur; set_solver).
      rewrite S2 by done. rewrite leaf_gone_lookup by done. by apply G1.
    + assert (nx = n) as -> by congruence. rewrite S2; [|done|intros ->; apply Hcur; set_solver].
      rewrite <- Hgone. by apply leaf_gone_leaf.
  - intros x Hx Hxc. rewrite not_elem_of_app, not_elem_of_cons in Hx. destruct Hx as (Hx1 & Hxl & Hx2).
    rewrite S2, leaf_gone_lookup by done. by apply S1.
  - rewrite P2, P3, P1, <- !map_fmap_compose. apply map_fmap_ext. intros p pg _. cbn.
    rewrite !drop_in_union. f_equal. set_solver.
  - by rewrite R2, R3.
  - by rewrite E2, E3.
Qed.

Lemma loop_forest ns ls L : forest ns ls L → ∀ root h cur n f removed,
  wf h → NoDup L → (∀ x, x ∈ L → nodes h !! x = ns !! x) → cur ∉ L → root ∉ L →
  nodes h !! cur = Some n → is_root n = false → (n_next n).*2 = ls →
  ∃ h', remove_loop nlc (2 * length L + f) root cur removed h =
        remove_loop nlc f root cur (removed ++ keys_of ns L) h' ∧
    pruned ns h cur L h' ∧ nodes h' !! cur = Some (set_next n []).
Proof.
  induction 1 as [|l nl ls L1 L2 Hl H1 IH1 H2 IH2]; intros root h cur n f removed Hwf Hnd Hag Hcur Hroot Hc Hr Hls.
  { exists h. rewrite app_nil_r. split; [done|]. split; [by apply pruned_nil|]. rewrite Hc.
    apply fmap_nil_inv in Hls. destruct n. cbn in *. by rewrite Hls. }
  destruct (n_next n) as [|[k l'] rest] eqn:Hnx; [done|]. cbn in Hls. injection Hls as -> Hls.
  assert (Hin1 : ∀ x, x ∈ L1 → x ∈ L1 ++ l :: L2) by (intros; apply elem_of_app; by left).
  assert (Hinl : l ∈ L1 ++ l :: L2) by (apply elem_of_app; right; left).
  assert (Hin2 : ∀ x, x ∈ L2 → x ∈ L1 ++ l :: L2) by (intros; apply elem_of_app; right; by right).
  assert (Hlh : nodes h !! l = Some nl) by (by rewrite Hag).
  assert (Hup : n_prev nl = Some (Under cur) ∧ n_key nl = k).
  { pose proof (lk_next _ _ _ _ _ (wf_links _ _ _ _ Hwf) (Under cur) k l) as [Hk _]. cbn in Hk. rewrite Hc, Hnx in Hk.
    destruct Hk as (m & Hm & ? & ?); [left|]. by simplify_eq. }
  destruct Hup as [Hpr Hk]. pose proof Hnd as (Hnd1 & Hdis & Hnd2)%NoDup_app.
  apply NoDup_cons in Hnd2 as [Hl2 Hnd2].
  assert (Hl1 : l ∉ L1) by (intros Hx; apply Hdis in Hx; apply Hx; left).
  assert (Hc1n : cur ∉ L1) by (by intros ?%Hin1). assert (Hc2n : cur ∉ L2) by (by intros ?%Hin2).
  assert (Hcl : cur ≠ l) by (by intros ->). assert (Hlr : l ≠ root) by (by intros ->).
  assert (Hnb : is_root nl = false) by (by eapply leaf_is_block).
  (* down to the child, which loses its own children *)
  replace (2 * length (L1 ++ l :: L2) + f)%nat with (S (2 * length L1 + S (2 * length L2 + f)))
    by (rewrite length_app; cbn; lia).
  rewrite (loop_step _ _ _ _ _ _ _ _ (turn_down root cur n k l rest removed h Hc Hnx)).
  destruct (IH1 root h l nl (S (2 * length L2 + f)) removed) as (h1 & E1 & P1 & Hl1');
    [done|done|by intros x ?%Hin1; apply Hag|done|by intros ?%Hin1|done..|].
  rewrite E1. pose proof (pr_wf _ _ _ _ _ P1) as Hwf1.
  assert (Hc1 : nodes h1 !! cur = Some n) by (by rewrite (pr_same _ _ _ _ _ P1)).
  (* the child goes *)
  rewrite (loop_step _ _ _ _ _ _ _ _ (turn_up root cur n l _ _ h1 Hwf1 Hc1 Hl1' Hpr eq_refl Hlr Hr)).
  destruct (leaf_gone_parent h1 Hwf1 cur l n _ Hc1 Hl1' Hpr eq_refl Hr) as [Hc2 _].
  cbn [set_next n_key n_next] in Hc2. rewrite Hnx in Hc2. cbn in Hc2. rewrite bool_decide_true in Hc2 by done.
  destruct (IH2 root (leaf_gone h1 cur n l (set_next nl [])) cur (set_next n rest) f
    ((removed ++ keys_of ns L1) ++ [n_key nl])) as (h2 & E2 & P2 & Hcur2);
    [by apply leaf_gone_wf|done| |done|by intros ?%Hin2|done..|].
  - intros x Hx. rewrite leaf_gone_lookup; [|done|done|done|done|done|by intros ->|by intros ->].
    rewrite (pr_same _ _ _ _ _ P1); [by apply Hag, Hin2| |by intros ->].
    intros Hx1. apply Hdis in Hx1. apply Hx1. by right.
  - exists h2. split; [etrans; [exact E2|]|split; [|done]].
    + f_equal. unfold keys_of. rewrite fmap_app, fmap_cons, Hl. cbn. by rewrite <- !app_assoc.
    + eapply pruned_cons; eauto.
Qed.

(** ** The whole subtree *)

(** The heap after the subtree of [r], which was [n], has been removed: [L]
    is its post-order. *)
Record subtree_gone (h : heap) (r : loc) (n : Node) (L : list loc) (h' : heap) : Prop := {
  sg_wf : wf h';
  sg_gone : ∀ x m, x ∈ L → nodes h !! x = Some m → nodes h' !! x = Some (gone m);
  sg_parent : ∀ p m, n_prev n = Some (Under p) → nodes h !! p = Some m →
    ∃ pr, nodes h' !! p = Some (mkNode (n_key m) pr (dict_pop (n_key n) (n_next m)) (n_load m)) ∧
      (is_root m = false ∨ dict_pop (n_key n) (n_next m) ≠ [] → pr = n_prev m);
  sg_same : ∀ x, x ∉ L → n_prev n ≠ Some (Under x) → nodes h' !! x = nodes h !! x;
  sg_pages : pages h' = drop_in (list_to_set L) <$> pages h;
  sg_roots : t_next h' = match n_prev n with
    | Some (Under p) => match nodes h !! p with
        | Some m => if is_root m && bool_decide (dict_pop (n_key n) (n_next m) = [])
                    then dict_pop (n_key m) (t_next h) else t_next h
        | None => t_next h
        end
    | _ => t_next h
    end;
}.

Lemma subtree_nodup h r L : wf h → forest (nodes h) [r] L → NoDup L.
Proof.
  intros Hwf Hf. eapply forest_nodup; [by apply wf_links|exact Hf| |].
  - apply NoDup_singleton.
  - intros l Hl. apply list_elem_of_singleton in Hl as ->. reflexivity.
Qed.

Lemma length_le_size (ns : gmap loc Node) L :
  NoDup L → (∀ x, x ∈ L → is_Some (ns !! x)) → (length L ≤ size ns)%nat.
Proof.
  intros Hnd Hs. rewrite <- (size_dom (D := gset loc)). rewrite <- (size_list_to_set (C := gset loc) L) by done.
  apply subseteq_size. intros x Hx%elem_of_list_to_set. by apply elem_of_dom, Hs.
Qed.

Lemma last_turn_orphan h r n removed :
  wf h → nodes h !! r = Some n → is_root n = false → n_prev n = None → n_next n = [] →
  remove_turn nlc r r removed h = (Ok (Done, removed ++ [n_key n]), released h r n).
Proof.
  intros Hwf Hr Hb Hp Hx. unfold remove_turn. rewrite (bind_ok _ _ _ _ _ (node_ok_run _ _ _ Hr)). rewrite Hx, Hp.
  rewrite (bind_ok _ _ _ _ _ (release_pages_run nlc h r n (wf_pages _ _ _ _ Hwf) Hr Hb)). mrun.
  by rewrite bool_decide_true.
Qed.

Lemma last_turn h p m r n removed :
  wf h → nodes h !! p = Some m → nodes h !! r = Some n → n_prev n = Some (Under p) → n_next n = [] →
  remove_turn nlc r r removed h = (Ok (Done, removed ++ [n_key n]), leaf_gone h p m r n).
Proof.
  intros Hwf Hp Hr Hpr Hx. unfold remove_turn. rewrite (bind_ok _ _ _ _ _ (node_ok_run _ _ _ Hr)). rewrite Hx, Hpr.
  rewrite (leaf_gone_run h Hwf p r m n) by done.
  by rewrite (bool_decide_true (Some r = Some r)), (bool_decide_true (r = r)) by done.
Qed.

Lemma pages_drop_trans L r (ps : gmap loc CommittedPage) :
  drop_in {[ r ]} <$> (drop_in (list_to_set L) <$> ps) = drop_in (list_to_set (L ++ [r])) <$> ps.
Proof.
  rewrite <- map_fmap_compose. apply map_fmap_ext. intros p pg _. cbn. rewrite drop_in_union. f_equal. set_solver.
Qed.

(** The state before the last turn gives the final one. *)
Lemma subtree_gone_orphan h r n h1 :
  wf h → nodes h !! r = Some n → n_prev n = None → n_next n = [] → h1 = released h r n →
  subtree_gone h r n [r] h1.
Proof.
  intros Hwf Hr Hp Hx ->. split.
  - by apply released_wf.
  - intros x m ->%list_elem_of_singleton Hm. cbn. rewrite lookup_insert_eq. assert (m = n) as -> by congruence.
    f_equal. unfold gone. destruct n as [k pr c [s|ts o st]]; cbn in *; by subst.
  - intros p m Hp'. congruence.
  - intros x Hx' _. cbn. rewrite lookup_insert_ne; [done|]. intros ->. apply Hx'. left.
  - cbn. apply map_fmap_ext. intros p pg _. rewrite <- drop_in_single. f_equal. set_solver.
  - by rewrite Hp.
Qed.

Lemma subtree_gone_attached h p m r n L h1 :
  wf h → nodes h !! p = Some m → nodes h !! r = Some n → n_prev n = Some (Under p) →
  p ∉ L → r ∉ L → pruned (nodes h) h r L h1 → nodes h1 !! r = Some (set_next n []) →
  subtree_gone h r n (L ++ [r]) (leaf_gone h1 p m r (set_next n [])).
Proof.
  intros Hwf Hp Hr Hpr HpL HrL [W1 G1 S1 P1 R1 E1] Hr1.
  assert (Hne : p ≠ r) by (by eapply (leaf_ne h)).
  assert (Hp1 : nodes h1 !! p = Some m) by (by rewrite S1).
  assert (Hpr1 : n_prev (set_next n []) = Some (Under p)) by done.
  assert (Hx1 : n_next (set_next n []) = []) by done. split.
  - by apply leaf_gone_wf.
  - intros x mx [Hx|Hx%list_elem_of_singleton]%elem_of_app Hm.
    + rewrite leaf_gone_lookup; [by apply G1|done..|by intros ->|by intros ->].
    + subst x. assert (mx = n) as -> by congruence.
      rewrite leaf_gone_leaf by done. f_equal. by destruct n as [k pr c [s|ts o st]].
  - intros p' m' Hp' Hm'. assert (p' = p) as -> by congruence. assert (m' = m) as -> by congruence.
    unfold leaf_gone. destruct (empty_key (set_next n [])) as (Hk & _ & _).
    rewrite (detached_lookup _ p m); [|cbn; by rewrite lookup_insert_ne by done|done].
    rewrite decide_True, Hk by done. cbn [set_next n_key]. eexists. split; [done|].
    intros [-> |Hne']; [done|]. by rewrite (bool_decide_false (dict_pop _ _ = [])), andb_false_r by done.
  - intros x [HxL Hxr]%not_elem_of_app Hxp. rewrite not_elem_of_cons in Hxr. destruct Hxr as [Hxr _].
    rewrite leaf_gone_lookup; [by apply S1|done..|congruence|done].
  - destruct (leaf_gone_rest h1 p r m (set_next n [])) as [-> _]. by rewrite P1, pages_drop_trans.
  - rewrite Hpr, Hp, <- R1. unfold leaf_gone, detached. destruct (empty_key (set_next n [])) as (-> & _ & _).
    cbn [set_next n_key]. by destruct (_ && _).
Qed.

Lemma pruned_nil_eq ns h cur h1 : pruned ns h cur [] h1 → nodes h1 !! cur = nodes h !! cur → h1 = h.
Proof.
  intros [_ _ S1 P1 R1 E1] Hc. rewrite <- pages_drop_nil in P1. assert (Hn : nodes h1 = nodes h).
  { apply map_eq. intros x. destruct (decide (x = cur)) as [->|Hne]; [done|].
    apply S1; [apply not_elem_of_nil|done]. }
  clear S1 Hc. destruct h, h1. cbn in *. by subst.
Qed.

Context (event_manager : bool).

Lemma leaf_loop_end root cur removed removed' h h' fuel :
  remove_turn nlc root cur removed h = (Ok (Done, removed'), h') →
  remove_loop nlc (S fuel) root cur removed h = (Ok removed', h').
Proof. intros H. by rewrite (loop_step _ _ _ _ _ _ _ _ H). Qed.

Lemma remove_loop_run h r n L :
  wf h → nodes h !! r = Some n → is_root n = false → forest (nodes h) (n_next n).*2 L →
  ∃ h', remove_loop nlc (2 * size (nodes h)) r r [] h = (Ok (keys_of (nodes h) (L ++ [r])), h') ∧
    subtree_gone h r n (L ++ [r]) h' ∧ events h' = events h.
Proof.
  intros Hwf Hr Hb Hf. pose proof (wf_links _ _ _ _ Hwf) as Hlk.
  assert (HfL : forest (nodes h) [r] (L ++ r :: [])) by (eapply forest_cons; eauto; constructor).
  pose proof (subtree_nodup _ _ _ Hwf HfL) as Hnd. pose proof Hnd as (HndL & HrL & _)%NoDup_app.
  assert (Hsz : (length (L ++ [r]) ≤ size (nodes h))%nat).
  { apply length_le_size; [done|]. eapply forest_nodes; [exact Hlk|exact HfL|].
    intros l ->%list_elem_of_singleton. by eexists. }
  rewrite length_app in Hsz. cbn in Hsz.
  replace (2 * size (nodes h))%nat with (2 * length L + S (2 * size (nodes h) - 2 * length L - 1))%nat by lia.
  assert (HrL' : r ∉ L) by (intros Hx; apply HrL in Hx; apply Hx; left).
  destruct (loop_forest _ _ _ Hf r h r n (S (2 * size (nodes h) - 2 * length L - 1)) [])
    as (h1 & -> & P1 & Hr1); [done..|]. cbn [app].
  replace (keys_of (nodes h) (L ++ [r])) with (keys_of (nodes h) L ++ [n_key (set_next n [])])
    by (unfold keys_of; rewrite fmap_app; cbn; by rewrite Hr).
  pose proof (pr_wf _ _ _ _ _ P1) as W1. pose proof (pr_events _ _ _ _ _ P1) as E1.
  destruct (n_prev n) as [[|p]|] eqn:Hp.
  - pose proof (lk_node _ _ _ _ _ Hlk r n Hr) as [H1 _]. rewrite Hp in H1. unfold is_root in Hb. by destruct (n_load n).
  - destruct (child_block _ _ _ _ _ Hlk r n p Hr Hp) as (_ & _ & _ & m & _ & Hm & _).
    assert (HpL : p ∉ L).
    { intros Hx. destruct (forest_below _ _ _ _ _ Hlk _ _ Hf p Hx) as (y & Hy & Hby).
      apply (children_locs _ _ _ _ _ Hlk r n Hr) in Hy. apply (up_ord _ _ _ _ _ Hlk) in Hy.
      apply (below_ord _ _ _ _ _ Hlk) in Hby as [Hby _].
      pose proof (up_ord _ _ _ _ _ Hlk r p ltac:(by exists n)). lia. }
    assert (Hne : p ≠ r) by (by eapply (leaf_ne h)).
    assert (Hp1 : nodes h1 !! p = Some m) by (by rewrite (pr_same _ _ _ _ _ P1)).
    eexists. split; [by eapply leaf_loop_end, last_turn|]. split; [by eapply subtree_gone_attached|].
    destruct (leaf_gone_rest h1 p r m (set_next n [])) as [_ ->]. done.
  - assert (Hx : n_next n = []) by (by eapply orphan_leaf). rewrite Hx in Hf. cbn in Hf. inversion Hf; subst.
    assert (Hn : set_next n [] = n) by (destruct n; cbn in *; by subst). rewrite Hn in *.
    assert (h1 = h) as -> by (eapply pruned_nil_eq; [done|congruence]).
    eexists. split; [by eapply leaf_loop_end, last_turn_orphan|]. split; [|done].
    by eapply subtree_gone_orphan.
Qed.

Definition removed_event (n : Node) (keys : list bytes) : list Event :=
  if bool_decide (is_Some (n_prev n)) && event_manager then [add_removed_event keys] else [].

Lemma notify_run b e h :
  notify event_manager b e h =
  (Ok (), mkHeap (nodes h) (pages h) (t_next h) (events h ++ (if b && event_manager then [e] else []))).
Proof. unfold notify. destruct (b && event_manager); mrun; [done|]. rewrite app_nil_r. by destruct h. Qed.

Lemma subtree_gone_events h r n L h' ev :
  subtree_gone h r n L h' → subtree_gone h r n L (mkHeap (nodes h') (pages h') (t_next h') ev).
Proof. intros [[H1 H2 [H3 H3']] H4 H5 H6 H7 H8]. split; [split; [done|done|by split]|done..]. Qed.

Lemma remove_subtree_run h r n L :
  wf h → nodes h !! r = Some n → is_root n = false → forest (nodes h) (n_next n).*2 L →
  ∃ h', remove_subtree nlc event_manager r h = (Ok (), h') ∧ subtree_gone h r n (L ++ [r]) h' ∧
    events h' = events h ++ removed_event n (keys_of (nodes h) (L ++ [r])).
Proof.
  intros Hwf Hr Hb Hf. destruct (remove_loop_run h r n L Hwf Hr Hb Hf) as (h1 & E1 & S1 & V1).
  eexists. split; [|split; [by apply subtree_gone_events|]].
  - unfold remove_subtree. rewrite (bind_ok _ _ _ _ _ (try_get_tree_run _ _ _ _ (wf_links _ _ _ _ Hwf) _ _ Hr)).
    rewrite (bind_ok get _ h h h) by done. rewrite (bind_ok _ _ _ _ _ E1). apply notify_run.
  - cbn. by rewrite V1.
Qed.
End remove.
