(* ===== verification/RadixTreeInsert.v ===== *)
(** * Inserting blocks and committing pages

    A new block goes under a full block or a root unless a sibling already
    covers its tokens; a partial sibling it extends is replaced, and its
    pages move to the new block. *)

From S2P Require Import Prelude LifeCycle CacheKey RadixTree RadixTreeInv RadixTreeOps.

Local Open Scope Z_scope.

Implicit Types (ns : gmap loc Node) (d : list (bytes * loc)).

(** ** A new leaf *)

Definition link_nodes (p : parent) (l : loc) (n : Node) ns : gmap loc Node :=
  <[l := n]> (match p with
              | InTree => ns
              | Under q => alter (λ m, set_next m (n_next m ++ [(n_key n, l)])) q ns
              end).

Definition link_roots (p : parent) (l : loc) (n : Node) d : list (bytes * loc) :=
  if bool_decide (p = InTree) then d ++ [(n_key n, l)] else d.

Definition link_node (p : parent) (l : loc) (n : Node) (x : loc) (m : Node) : Node :=
  if bool_decide (p = Under x) then set_next m (n_next m ++ [(n_key n, l)]) else m.

Lemma link_lookup p l n ns x :
  link_nodes p l n ns !! x = if decide (x = l) then Some n else link_node p l n x <$> ns !! x.
Proof.
  unfold link_nodes. destruct (decide (x = l)) as [->|Hne]; [by rewrite lookup_insert_eq|].
  rewrite lookup_insert_ne by done. unfold link_node. destruct p as [|q].
  - rewrite bool_decide_false by done. by destruct (ns !! x).
  - destruct (decide (q = x)) as [->|Hq].
    + by rewrite lookup_alter_eq, bool_decide_true.
    + rewrite lookup_alter_ne, bool_decide_false by congruence. by destruct (ns !! x).
Qed.

Lemma link_node_fields p l n x m : n_key (link_node p l n x m) = n_key m ∧
  n_prev (link_node p l n x m) = n_prev m ∧ n_load (link_node p l n x m) = n_load m.
Proof. unfold link_node. by case_bool_decide. Qed.

Section link.
Context (sha256 : bytes → bytes) (tpb : Z) (nlc : nat).
Context ns d (Hlk : links_ok sha256 tpb nlc ns d).
Context (p : parent) (l : loc) (n : Node).
Context (Hfresh : ns !! l = None) (Hprev : n_prev n = Some p) (Hleaf : n_next n = []).
Context (Hnew : n_key n ∉ (next_list ns d p).*1) (Hnode : node_ok sha256 tpb nlc ns n).
Context (Hfull : ∀ q m, p = Under q → ns !! q = Some m →
  is_Some (n_prev m) ∧ (is_root m = false → Z.of_nat (length (tokens_of m)) = tpb)).

Lemma link_parent q : p = Under q → is_Some (ns !! q).
Proof.
  intros Hq. pose proof Hnode as [H _]. rewrite Hprev, Hq in H. destruct (n_load n); [done|].
  destruct H as (m & -> & _). by eexists.
Qed.

Lemma link_next q :
  next_list (link_nodes p l n ns) (link_roots p l n d) q =
  if bool_decide (p = q) then next_list ns d q ++ [(n_key n, l)] else next_list ns d q.
Proof.
  destruct q as [|x]; cbn; [done|]. rewrite link_lookup. destruct (decide (x = l)) as [->|Hne].
  - rewrite Hfresh, Hleaf. rewrite bool_decide_false; [done|]. intros Hp.
    destruct (link_parent l Hp) as [? ?]. congruence.
  - unfold link_node. destruct (ns !! x) as [m|] eqn:Hm; cbn; [by case_bool_decide|].
    rewrite bool_decide_false; [done|]. intros Hp. destruct (link_parent x Hp) as [? ?]. congruence.
Qed.

Lemma link_node_ok x m : ns !! x = Some m → node_ok sha256 tpb nlc (link_nodes p l n ns) (link_node p l n x m).
Proof.
  intros Hm. pose proof (lk_node _ _ _ _ _ Hlk x m Hm) as [H1 H2]. unfold node_ok.
  destruct (link_node_fields p l n x m) as (-> & -> & ->).
  assert (Hnx : n_prev m = None → n_next (link_node p l n x m) = n_next m).
  { intros Hp. unfold link_node. case_bool_decide as Hpx; [|done].
    destruct (Hfull x m Hpx Hm) as [[? Hs] _]. congruence. }
  split.
  - destruct (n_load m) as [s|ts o st], (n_prev m) as [[|y]|]; try done; [by rewrite Hnx| |by rewrite Hnx].
    destruct H1 as (m0 & Hm0 & Ho & Hk). exists (link_node p l n y m0).
    destruct (link_node_fields p l n y m0) as (-> & _ & Hl). unfold ordinal_of in *. rewrite Hl.
    rewrite link_lookup, Hm0. destruct (decide (y = l)) as [->|]; [congruence|done].
  - destruct (n_load m) as [s|ts o st] eqn:Hld; [done|]. destruct H2 as (? & ? & ? & Hf). repeat (split; [done|]).
    intros Hne. unfold link_node in Hne. case_bool_decide as Hpx; [|by apply Hf].
    destruct (Hfull x m Hpx Hm) as [_ Ht]. unfold is_root, tokens_of in Ht. rewrite Hld in Ht. by apply Ht.
Qed.

Lemma link_new_ok : node_ok sha256 tpb nlc (link_nodes p l n ns) n.
Proof.
  pose proof Hnode as [H1 H2]. split; [|done]. rewrite Hprev in *. destruct (n_load n) as [s|ts o st]; [by destruct p|].
  clear Hprev. destruct p as [|q] eqn:Hp; [done|]. rewrite <- Hp. destruct H1 as (m & Hm & Ho & Hk).
  exists (link_node p l n q m). destruct (link_node_fields p l n q m) as (-> & _ & Hl). unfold ordinal_of in *. rewrite Hl.
  rewrite link_lookup, Hm. destruct (decide (q = l)) as [->|]; [congruence|done].
Qed.

Lemma link_links : links_ok sha256 tpb nlc (link_nodes p l n ns) (link_roots p l n d).
Proof.
  split.
  - intros q k x. rewrite link_next. assert (Hold : (k, x) ∈ next_list ns d q ↔ x ≠ l ∧
      ∃ m, link_nodes p l n ns !! x = Some m ∧ n_prev m = Some q ∧ n_key m = k).
    { rewrite (lk_next _ _ _ _ _ Hlk), link_lookup. destruct (decide (x = l)) as [->|Hne].
      - rewrite Hfresh. split; [by intros (? & ? & _)|by intros [? _]].
      - split.
        + intros (m & -> & Hp & Hk). split; [done|]. eexists. split; [done|].
          destruct (link_node_fields p l n x m) as (-> & -> & _). done.
        + intros (_ & m' & Hm' & Hp & Hk). destruct (ns !! x) as [m|]; [|done]. injection Hm' as <-.
          destruct (link_node_fields p l n x m) as (Hk' & Hp' & _). exists m. split; [done|]. split; congruence. }
    assert (Hl : link_nodes p l n ns !! l = Some n) by (rewrite link_lookup; by rewrite decide_True).
    case_bool_decide as Hpq.
    + subst q. rewrite elem_of_app, list_elem_of_singleton, Hold. split.
      * intros [[_ ?]|[= -> ->]]; [done|]. by exists n.
      * intros (m & Hm & Hp & Hk). destruct (decide (x = l)) as [->|]; [|by left; split; [|by exists m]].
        right. congruence.
    + rewrite Hold. split; [by intros [_ ?]|]. intros (m & Hm & Hp & Hk). split; [|by exists m].
      intros ->. congruence.
  - intros q. rewrite link_next. case_bool_decide as Hpq; [|apply (lk_nodup _ _ _ _ _ Hlk)]. subst q.
    rewrite fmap_app. apply NoDup_app. split; [apply (lk_nodup _ _ _ _ _ Hlk)|]. split; [|apply NoDup_singleton].
    intros k Hk Hk'%list_elem_of_singleton. by subst.
  - intros x m Hx. rewrite link_lookup in Hx. destruct (decide (x = l)) as [->|].
    + injection Hx as <-. apply link_new_ok.
    + destruct (ns !! x) as [m0|] eqn:Hm0; [|done]. injection Hx as <-. by apply link_node_ok.
Qed.
End link.

(** Storage and pages are as before, apart from the new node's. *)
Lemma link_pages X h p l n :
  pages_ok X h → nodes h !! l = None → (∀ i x, storage_of n !! i = Some x → x = None) →
  ∀ d ev, pages_ok X (mkHeap (link_nodes p l n (nodes h)) (pages h) d ev).
Proof.
  intros [H1 H2] Hfresh Hn d ev. split; cbn.
  - intros x m lc q Hx Hs. rewrite link_lookup in Hx. destruct (decide (x = l)) as [->|].
    + injection Hx as <-. by apply Hn in Hs.
    + destruct (nodes h !! x) as [m0|] eqn:Hm; [|done]. injection Hx as <-.
      destruct (link_node_fields p l n x m0) as (_ & _ & Hl). apply (H1 x m0 lc q Hm).
      unfold storage_of in *. by rewrite <- Hl.
  - intros q pg x Hq HX Hb. destruct (H2 q pg x Hq HX Hb) as (m & Hm & Hs & Ht).
    exists (link_node p l n x m). destruct (link_node_fields p l n x m) as (_ & _ & Hl).
    rewrite link_lookup, Hm. destruct (decide (x = l)) as [->|]; [congruence|]. split; [done|].
    unfold storage_of, tokens_of in *. by rewrite Hl.
Qed.

(** ** Installing a page *)

(** A page in transit goes into an empty slot. *)
Definition placed (h : heap) (l : loc) (n : Node) (lc : nat) (p : loc) (pg : CommittedPage) : heap :=
  mkHeap (<[l := set_storage n (<[lc := Some p]> (storage_of n))]> (nodes h))
    (<[p := set_block pg (Some l)]> (pages h)) (t_next h) (events h).

(** A page leaves its slot and is in transit. *)
Definition lifted (h : heap) (l : loc) (n : Node) (lc : nat) : heap :=
  mkHeap (<[l := set_storage n (<[lc := None]> (storage_of n))]> (nodes h)) (pages h) (t_next h) (events h).

Lemma placed_pages h l n lc p pg :
  pages_ok {[ p ]} h → nodes h !! l = Some n → storage_of n !! lc = Some None → p_life_cycle pg = lc →
  0 < num_tokens_in_block pg ≤ Z.of_nat (length (tokens_of n)) → pages_ok ∅ (placed h l n lc p pg).
Proof.
  intros [H1 H2] Hl Hs Hlc Ht. pose proof (lookup_lt_Some _ _ _ Hs) as Hlt. split; cbn.
  - intros x m lc' q Hx Hq. split; [set_solver|]. apply lookup_insert_Some in Hx as [[<- <-]|[Hne Hx]].
    + rewrite (storage_set _ _ _ _ Hs) in Hq. apply list_lookup_insert_Some in Hq as [(<- & [= <-] & _)|[Hne Hq]].
      * eexists. rewrite lookup_insert_eq. done.
      * destruct (H1 l n lc' q Hl Hq) as (HX & pg' & Hq' & Hb & Hlc'). exists pg'.
        rewrite lookup_insert_ne; [done|set_solver].
    + destruct (H1 x m lc' q Hx Hq) as (HX & pg' & Hq' & Hb & Hlc'). exists pg'.
      rewrite lookup_insert_ne; [done|set_solver].
  - intros q pg' x Hq _ Hb. apply lookup_insert_Some in Hq as [[<- <-]|[Hne Hq]].
    + cbn in Hb. injection Hb as <-. eexists. rewrite lookup_insert_eq. split; [done|].
      rewrite (storage_set _ _ _ _ Hs), tokens_set. cbn. rewrite Hlc. split; [by apply list_lookup_insert_eq|done].
    + destruct (H2 q pg' x Hq) as (m & Hm & Hms & Hmt); [set_solver|done|].
      destruct (decide (x = l)) as [->|Hxl]; [|exists m; by rewrite lookup_insert_ne].
      assert (m = n) as -> by congruence. eexists. rewrite lookup_insert_eq. split; [done|].
      rewrite (storage_set _ _ _ _ Hs), tokens_set, list_lookup_insert_ne; [done|].
      intros He. rewrite <- He in Hms. congruence.
Qed.

Lemma lifted_pages h l n lc p :
  pages_ok ∅ h → nodes h !! l = Some n → storage_of n !! lc = Some (Some p) →
  pages_ok {[ p ]} (lifted h l n lc).
Proof.
  intros Hok Hl Hs. destruct (pk_slot _ _ Hok l n lc p Hl Hs) as (_ & pg & Hp & Hb & Hlc).
  pose proof (unlinked_pages ∅ h l n lc p (set_block pg None) Hok Hl Hs eq_refl) as [H1 H2]. split; cbn in *.
  - intros x m lc' q Hx Hq. destruct (H1 x m lc' q Hx Hq) as (_ & pg' & Hq' & Hb' & Hlc').
    apply lookup_insert_Some in Hq' as [[<- <-]|[Hne Hq']]; [done|]. split; [set_solver|by exists pg'].
  - intros q pg' x Hq HX Hbx. apply (H2 q pg' x); [|set_solver|done]. rewrite lookup_insert_ne; [done|set_solver].
Qed.

Lemma page_transit h l lc k s q :
  pages_ok ∅ h → pages h !! q = None →
  pages_ok {[ q ]} (with_pages h (<[q := mkPage (Some l) lc k s false]> (pages h))).
Proof.
  intros [H1 H2] Hq. split; cbn.
  - intros x m lc' p Hx Hs. destruct (H1 x m lc' p Hx Hs) as (_ & pg & Hp & Hb). split.
    + intros ->%elem_of_singleton. congruence.
    + exists pg. rewrite lookup_insert_ne; [done|]. intros ->. congruence.
  - intros p pg x Hp HX Hb. rewrite lookup_insert_ne in Hp by set_solver. apply (H2 p pg x); [done|set_solver|done].
Qed.

Definition superseded (pg : CommittedPage) : CommittedPage :=
  set_block (if scheduled_for_eviction pg then unschedule pg else pg) None.

(** The heap after [replace_page]. *)
Definition replaced (h : heap) (l : loc) (n : Node) (lc : nat) (p : loc) (pg : CommittedPage) : heap :=
  match storage_of n !! lc with
  | Some (Some e) =>
      match pages h !! e with
      | Some ep => placed (unlinked h l n lc e (superseded ep)) l
                     (set_storage n (<[lc := None]> (storage_of n))) lc p pg
      | None => h
      end
  | _ => placed h l n lc p pg
  end.

(** Whether a slot can take a page that covers [k] tokens. *)
Definition slot_takes (h : heap) (o : option loc) (k : Z) : Prop :=
  match o with
  | Some e => ∃ ep, pages h !! e = Some ep ∧ num_tokens_in_block ep < k
  | None => True
  end.

Lemma can_replace_run h l n lc o k :
  nodes h !! l = Some n → storage_of n !! lc = Some o → slot_takes h o k →
  can_replace_page l lc k h = (Ok true, h).
Proof.
  intros Hl Hs Ho. unfold can_replace_page. rewrite (bind_ok _ _ _ _ _ (get_page_run _ _ _ _ _ Hl Hs)).
  destruct o as [e|]; [|done]. destruct Ho as (ep & He & Hk). rewrite (bind_ok _ _ _ _ _ (page_run _ _ _ He)).
  by rewrite (proj2 (Z.ltb_lt _ _)).
Qed.

Lemma supersede_run h l n lc e ep :
  (ep ← page e; if scheduled_for_eviction ep then exclude_from_eviction e else mret ())
    (unlinked h l n lc e (set_block ep None)) = (Ok (), unlinked h l n lc e (superseded ep)).
Proof.
  rewrite (bind_ok _ _ _ (set_block ep None) (unlinked h l n lc e (set_block ep None)))
    by (apply page_run; cbn; by rewrite lookup_insert_eq).
  unfold superseded. cbn. destruct (scheduled_for_eviction ep); [|done].
  unfold exclude_from_eviction, set_page, with_pages, unlinked. mrun. cbn.
  rewrite (alter_some _ e _ (set_block ep None)) by (by rewrite lookup_insert_eq). by rewrite insert_insert_eq.
Qed.

Lemma replace_page_run h l n lc o p pg :
  pages_ok {[ p ]} h → nodes h !! l = Some n → storage_of n !! lc = Some o → pages h !! p = Some pg →
  slot_takes h o (num_tokens_in_block pg) →
  replace_page l lc p h = (Ok (), replaced h l n lc p pg).
Proof.
  intros Hok Hl Hs Hp Ho. unfold replace_page. rewrite (bind_ok _ _ _ _ _ (page_run _ _ _ Hp)).
  rewrite (bind_ok _ _ _ _ _ (can_replace_run _ _ _ _ _ _ Hl Hs Ho)). unfold replaced. rewrite Hs.
  rewrite (bind_ok (assert_ true) _ h () h) by done.
  destruct o as [e|].
  - destruct Ho as (ep & He & _). rewrite He.
    assert (Hne : e ≠ p) by (destruct (pk_slot _ _ Hok l n lc e Hl Hs) as [HX _]; set_solver).
    rewrite (bind_ok _ _ _ _ _ (unlink_page_run h l n lc e ep None Hl Hs He ltac:(by left))).
    rewrite (bind_ok _ _ _ () (unlinked h l n lc e (superseded ep))) by (by apply supersede_run).
    unfold set_slot, set_page, set_node, with_nodes, with_pages, placed, unlinked. mrun. cbn.
    rewrite (alter_some _ l _ (set_storage n (<[lc:=None]> (storage_of n)))) by (by rewrite lookup_insert_eq).
    by rewrite (alter_some _ p _ pg) by (by rewrite lookup_insert_ne).
  - unfold unlink_page, set_slot, set_page, set_node, with_nodes, with_pages, placed. mrun.
    rewrite (get_page_run _ _ _ _ _ Hl Hs). cbn.
    by rewrite (alter_some _ _ _ _ Hl), (alter_some _ _ _ _ Hp).
Qed.

Lemma replaced_pages h l n lc o p pg :
  pages_ok {[ p ]} h → nodes h !! l = Some n → storage_of n !! lc = Some o → pages h !! p = Some pg →
  slot_takes h o (num_tokens_in_block pg) → p_life_cycle pg = lc →
  0 < num_tokens_in_block pg ≤ Z.of_nat (length (tokens_of n)) → pages_ok ∅ (replaced h l n lc p pg).
Proof.
  intros Hok Hl Hs Hp Ho Hlc Ht. unfold replaced. rewrite Hs. destruct o as [e|]; [|by apply placed_pages].
  destruct Ho as (ep & He & _). rewrite He. apply placed_pages.
  - by apply unlinked_pages.
  - cbn. by rewrite lookup_insert_eq.
  - rewrite (storage_set _ _ _ _ Hs). apply list_lookup_insert_eq. by eapply lookup_lt_Some.
  - done.
  - by rewrite tokens_set.
Qed.

Lemma replaced_nodes h l n lc o p pg :
  nodes h !! l = Some n → storage_of n !! lc = Some o → slot_takes h o (num_tokens_in_block pg) →
  nodes (replaced h l n lc p pg) = <[l := set_storage n (<[lc := Some p]> (storage_of n))]> (nodes h) ∧
  t_next (replaced h l n lc p pg) = t_next h ∧ events (replaced h l n lc p pg) = events h.
Proof.
  intros Hl Hs Ho. unfold replaced. rewrite Hs. destruct o as [e|]; [|done].
  destruct Ho as (ep & -> & _). cbn. rewrite insert_insert_eq, set_storage_twice, (storage_set _ _ _ _ Hs).
  by rewrite list_insert_insert_eq.
Qed.

(** ** Adopting the pages of a replaced sibling *)

Definition merge_storage (st st' : list (option loc)) : list (option loc) :=
  zip_with (λ a b, match a with Some _ => a | None => b end) st st'.

Definition move_page (l other : loc) (pg : CommittedPage) : CommittedPage :=
  if bool_decide (p_block pg = Some other) then set_block pg (Some l) else pg.

Definition adopted (h : heap) (l : loc) (n : Node) (other : loc) (m : Node) : heap :=
  mkHeap (<[l := set_storage n (merge_storage (storage_of n) (storage_of m))]>
           (<[other := empty_storage m]> (nodes h)))
    (move_page l other <$> pages h) (t_next h) (events h).

Definition adopt_body (l other : loc) (lc_idx : nat) : M heap () :=
  o ← get_page other lc_idx;
  match o with
  | None => mret ()
  | Some p =>
      pg ← page p;
      ok ← can_replace_page l lc_idx (num_tokens_in_block pg);
      if (ok : bool) then set_slot other lc_idx None;; replace_page l lc_idx p else mret ()
  end.

Section adopt.
Context (l other : loc) (Hne : l ≠ other).

(** A block about to adopt: the slots before [k] are done, the others are
    still empty. *)
Record adopting (k : nat) (h : heap) (n m : Node) : Prop := {
  ad_pages : pages_ok ∅ h;
  ad_l : nodes h !! l = Some n;
  ad_other : nodes h !! other = Some m;
  ad_len : length (storage_of n) = length (storage_of m);
  ad_done : ∀ i x, (i < k)%nat → storage_of m !! i = Some x → x = None;
  ad_todo : ∀ i x, (k ≤ i)%nat → storage_of n !! i = Some x → x = None;
  ad_tokens : (length (tokens_of m) ≤ length (tokens_of n))%nat;
}.

Lemma ad_slot k h n m o : adopting k h n m → storage_of m !! k = Some o → storage_of n !! k = Some None.
Proof.
  intros [_ _ _ Hlen _ Htodo _] Hk. destruct (lookup_lt_is_Some_2 (storage_of n) k) as [x Hx].
  - apply lookup_lt_Some in Hk. lia.
  - rewrite Hx. f_equal. by eapply Htodo.
Qed.

(** One slot moves over. *)
Definition moved (h : heap) (n m : Node) (k : nat) (p : loc) (pg : CommittedPage) : heap :=
  placed (lifted h other m k) l n k p pg.

Lemma adopt_body_run k h n m p pg :
  adopting k h n m → storage_of m !! k = Some (Some p) → pages h !! p = Some pg →
  adopt_body l other k h = (Ok (), moved h n m k p pg).
Proof.
  intros Had Hk Hp. pose proof (ad_slot _ _ _ _ _ Had Hk) as Hnk. destruct Had as [Hok Hl Ho Hlen Hdone Htodo Ht].
  unfold adopt_body.
  rewrite (bind_ok _ _ _ _ _ (get_page_run _ _ _ _ _ Ho Hk)), (bind_ok _ _ _ _ _ (page_run _ _ _ Hp)).
  rewrite (bind_ok _ _ _ _ _ (can_replace_run h l n k None _ Hl Hnk I)).
  rewrite (bind_ok _ _ _ () (lifted h other m k)).
  - rewrite (replace_page_run (lifted h other m k) l n k None p pg); [|by apply lifted_pages| |done|done|done].
    + unfold replaced. by rewrite Hnk.
    + cbn. by rewrite lookup_insert_ne.
  - unfold set_slot, set_node, with_nodes, lifted. mrun. cbn. by rewrite (alter_some _ _ _ _ Ho).
Qed.

Lemma adopting_moved k h n m p pg :
  adopting k h n m → storage_of m !! k = Some (Some p) → pages h !! p = Some pg →
  adopting (S k) (moved h n m k p pg) (set_storage n (<[k := Some p]> (storage_of n)))
    (set_storage m (<[k := None]> (storage_of m))).
Proof.
  intros Had Hk Hp. pose proof (ad_slot _ _ _ _ _ Had Hk) as Hnk. destruct Had as [Hok Hl Ho Hlen Hdone Htodo Ht].
  destruct (pk_slot _ _ Hok other m k p Ho Hk) as (_ & pg' & Hp' & Hb & Hlc). assert (pg' = pg) as -> by congruence.
  destruct (pk_page _ _ Hok p pg other Hp) as (m' & Hm' & _ & Hcov); [set_solver|done|].
  assert (m' = m) as -> by congruence. split.
  - apply placed_pages; [by apply lifted_pages| |done|done|lia]. cbn. by rewrite lookup_insert_ne.
  - cbn. by rewrite lookup_insert_eq.
  - cbn. by rewrite lookup_insert_ne, lookup_insert_eq.
  - by rewrite (storage_set _ _ _ _ Hnk), (storage_set _ _ _ _ Hk), !length_insert.
  - rewrite (storage_set _ _ _ _ Hk). intros i x Hi Hx.
    apply list_lookup_insert_Some in Hx as [(<- & <- & _)|[Hik Hx]]; [done|]. apply (Hdone i x); [lia|done].
  - rewrite (storage_set _ _ _ _ Hnk). intros i x Hi Hx. rewrite list_lookup_insert_ne in Hx by lia.
    apply (Htodo i x); [lia|done].
  - by rewrite !tokens_set.
Qed.

Lemma adopted_moved k h n m p pg :
  adopting k h n m → storage_of m !! k = Some (Some p) → pages h !! p = Some pg →
  adopted (moved h n m k p pg) l (set_storage n (<[k := Some p]> (storage_of n)))
    other (set_storage m (<[k := None]> (storage_of m))) = adopted h l n other m.
Proof.
  intros Had Hk Hp. pose proof (ad_slot _ _ _ _ _ Had Hk) as Hnk. destruct Had as [Hok Hl Ho Hlen Hdone Htodo Ht].
  destruct (pk_slot _ _ Hok other m k p Ho Hk) as (_ & pg' & Hp' & Hb & Hlc). assert (pg' = pg) as -> by congruence.
  unfold adopted, moved, placed, lifted, empty_storage. cbn.
  rewrite !set_storage_twice, (storage_set _ _ _ _ Hnk), (storage_set _ _ _ _ Hk), length_insert. f_equal.
  - assert (merge_storage (<[k:=Some p]> (storage_of n)) (<[k:=None]> (storage_of m)) =
            merge_storage (storage_of n) (storage_of m)) as ->.
    { apply list_eq. intros i. unfold merge_storage. rewrite !lookup_zip_with.
      destruct (decide (i = k)) as [->|Hi]; [|by rewrite !list_lookup_insert_ne].
      rewrite !list_lookup_insert_eq by (by eapply lookup_lt_Some). by rewrite Hnk, Hk. }
    rewrite (insert_insert_ne _ l other) by done. rewrite insert_insert_eq.
    rewrite (insert_insert_ne _ other l) by done. by rewrite insert_insert_eq.
  - apply map_eq. intros q. rewrite !lookup_fmap. destruct (decide (q = p)) as [->|Hq].
    + rewrite lookup_insert_eq, Hp. cbn. f_equal. unfold move_page. cbn.
      rewrite (bool_decide_false (Some l = Some other)), (bool_decide_true (p_block pg = Some other)) by congruence. done.
    + by rewrite lookup_insert_ne.
Qed.

Lemma adopted_none k h n m : adopting k h n m → (length (storage_of m) ≤ k)%nat → adopted h l n other m = h.
Proof.
  intros [Hok Hl Ho Hlen Hdone Htodo Ht] Hk.
  assert (Hnone : storage_of m = replicate (length (storage_of m)) None).
  { apply all_none. intros i x Hx. apply (Hdone i x); [|done]. apply lookup_lt_Some in Hx. lia. }
  unfold adopted, empty_storage. rewrite (set_storage_id m) by done. rewrite (set_storage_id n).
  - rewrite (insert_id _ other) by done. rewrite (insert_id _ l) by done. destruct h as [ns ps tn ev]. cbn in *.
    f_equal. apply map_eq. intros p. rewrite lookup_fmap. destruct (ps !! p) as [pg|] eqn:Hp; [|done]. cbn. f_equal.
    unfold move_page. case_bool_decide as Hb; [|done]. destruct (pk_page _ _ Hok p pg other Hp) as (m' & Hm' & Hs & _);
      [set_solver|done|]. cbn in Hm'. rewrite Ho in Hm'. injection Hm' as <-. rewrite Hnone in Hs.
    apply lookup_replicate in Hs as [? _]. done.
  - unfold merge_storage. apply list_eq. intros i. rewrite lookup_zip_with.
    destruct (storage_of n !! i) as [a|] eqn:Ha; [|done]. cbn.
    destruct (lookup_lt_is_Some_2 (storage_of m) i) as [b Hb]; [apply lookup_lt_Some in Ha; lia|].
    rewrite Hb. cbn. f_equal. destruct a; [done|]. symmetry. apply (Hdone i b); [|done]. apply lookup_lt_Some in Hb. lia.
Qed.

Lemma adopt_loop c : ∀ k h n m,
  adopting k h n m → length (storage_of m) = (k + c)%nat →
  for_each (seq k c) (adopt_body l other) h = (Ok (), adopted h l n other m) ∧
  pages_ok ∅ (adopted h l n other m).
Proof.
  induction c as [|c IH]; intros k h n m Had Hlen; cbn [seq for_each].
  - rewrite (adopted_none k) by (done || lia). split; [done|]. apply (ad_pages _ _ _ _ Had).
  - destruct (lookup_lt_is_Some_2 (storage_of m) k) as [o Ho]; [lia|]. destruct o as [p|].
    + destruct (pk_slot _ _ (ad_pages _ _ _ _ Had) other m k p (ad_other _ _ _ _ Had) Ho) as (_ & pg & Hp & _).
      rewrite (bind_ok _ _ _ _ _ (adopt_body_run _ _ _ _ _ _ Had Ho Hp)).
      rewrite <- (adopted_moved k h n m p pg) by done. apply IH; [by eapply adopting_moved|].
      rewrite (storage_set _ _ _ _ Ho), length_insert. lia.
    + rewrite (bind_ok _ _ _ () h).
      * apply IH; [|lia]. destruct Had as [Hok Hl Ho' Hl' Hdone Htodo Ht]. split; try done.
        -- intros i x Hi Hx. destruct (decide (i = k)) as [->|]; [congruence|]. apply (Hdone i x); [lia|done].
        -- intros i x Hi Hx. apply (Htodo i x); [lia|done].
      * unfold adopt_body. by rewrite (bind_ok _ _ _ _ _ (get_page_run _ _ _ _ _ (ad_other _ _ _ _ Had) Ho)).
Qed.
End adopt.

Section adopt_wf.
Context (sha256 : bytes → bytes) (tpb : Z) (nlc : nat).

Lemma adopt_pages_run h l n other m :
  adopting l other 0 h n m → l ≠ other → is_root n = false → ordinal_of m = ordinal_of n →
  adopt_pages_from nlc l other h = (Ok (), adopted h l n other m) ∧ pages_ok ∅ (adopted h l n other m).
Proof.
  intros Had Hne Hr Hord. unfold adopt_pages_from. destruct Had as [Hok Hl Ho Hlen Hd Ht Htk] eqn:E.
  rewrite (bind_ok _ _ _ _ _ (node_ok_run _ _ _ Hl)), (bind_ok _ _ _ _ _ (node_ok_run _ _ _ Ho)).
  rewrite (bind_ok (assert_ _) _ h () h) by (unfold assert_, lift; by rewrite Hord, Z.eqb_refl).
  fold (adopt_body l other). unfold num_life_cycles. unfold is_root in Hr.
  destruct (n_load n) as [s|ts o st] eqn:Hn; [done|]. apply adopt_loop; [done..|]. rewrite <- Hlen. unfold storage_of.
  by rewrite Hn.
Qed.

Lemma adopted_erase h l n other m :
  nodes h !! l = Some n → nodes h !! other = Some m → l ≠ other →
  length (storage_of n) = length (storage_of m) →
  erase <$> nodes (adopted h l n other m) = erase <$> nodes h.
Proof.
  intros Hl Ho Hne Hlen. unfold adopted, empty_storage. cbn. rewrite erase_insert.
  - rewrite erase_insert by (done || by rewrite length_replicate). done.
  - by rewrite lookup_insert_ne.
  - unfold merge_storage. rewrite length_zip_with. lia.
Qed.
End adopt_wf.

(** ** A new block *)

Section insert.
Context (sha256 : bytes → bytes) (tpb : Z) (nlc : nat).
Abbreviation links_ok := (links_ok sha256 tpb nlc).
Abbreviation wf := (wf sha256 tpb nlc).

Section reads.
Context (h : heap) (Hlk : links_ok (nodes h) (t_next h)).

Lemma tokens_per_block_run l n :
  nodes h !! l = Some n → is_Some (n_prev n) → tokens_per_block tpb l h = (Ok tpb, h).
Proof.
  intros Hl [p Hp]. unfold tokens_per_block. rewrite (bind_ok _ _ _ _ _ (node_ok_run _ _ _ Hl)).
  rewrite (bind_ok _ _ h p h) by (unfold prev; by rewrite Hp). destruct p as [|q]; [done|].
  destruct (child_block _ _ _ _ _ Hlk l n q Hl Hp) as (_ & _ & _ & m & _ & Hm & _ & _ & Hin & [pm Hs]).
  rewrite (bind_ok _ _ _ _ _ (node_ok_run _ _ _ Hm)). pose proof (lk_node _ _ _ _ _ Hlk q m Hm) as [_ H2].
  destruct (n_load m) as [s|ts o st]; [by rewrite (bind_ok _ _ h pm h) by (unfold prev; by rewrite Hs)|].
  destruct H2 as (_ & _ & _ & Hf). rewrite Hf; [done|]. intros He. rewrite He in Hin. by apply not_elem_of_nil in Hin.
Qed.

Lemma same_tokens_run l n :
  nodes h !! l = Some n → is_Some (n_prev n) → same_tokens_per_block tpb l h = (Ok true, h).
Proof.
  intros Hl Hs. unfold same_tokens_per_block.
  rewrite (bind_ok _ _ _ _ _ (tokens_per_block_run l n Hl Hs)), (bind_ok _ _ _ _ _ (node_ok_run _ _ _ Hl)).
  destruct Hs as [p Hp]. rewrite (bind_ok _ _ h p h) by (unfold prev; by rewrite Hp).
  rewrite (bind_ok _ _ h tpb h); [mrun; by rewrite Z.eqb_refl|]. destruct p as [|q]; [done|].
  destruct (child_block _ _ _ _ _ Hlk l n q Hl Hp) as (_ & _ & _ & m & _ & Hm & _ & _ & _ & Hsm).
  by eapply tokens_per_block_run.
Qed.

Lemma child_nodes par pn k b : nodes h !! par = Some pn → (k, b) ∈ n_next pn →
  ∃ m, nodes h !! b = Some m ∧ n_prev m = Some (Under par) ∧ n_key m = k.
Proof.
  intros Hp Hin. apply (lk_next _ _ _ _ _ Hlk (Under par)). cbn. by rewrite Hp.
Qed.

Lemma find_covering_run tokens ds :
  (∀ k b, (k, b) ∈ ds → is_Some (nodes h !! b)) →
  ∃ r, find_covering tokens ds h = (Ok r, h) ∧
    match r with
    | Some b => ∃ k m, (k, b) ∈ ds ∧ nodes h !! b = Some m ∧ tokens `prefix_of` tokens_of m
    | None => ∀ k b m, (k, b) ∈ ds → nodes h !! b = Some m → ¬ tokens `prefix_of` tokens_of m
    end.
Proof.
  induction ds as [|[k b] ds IH]; intros Hn; cbn [find_covering].
  { exists None. split; [done|]. by intros k b m ?%not_elem_of_nil. }
  destruct (Hn k b) as [m Hm]; [left|]. rewrite (bind_ok _ _ _ _ _ (node_ok_run _ _ _ Hm)).
  case_bool_decide as Ht.
  - exists (Some b). split; [done|]. exists k, m. split; [left|]. split; [done|]. rewrite <- Ht. by eexists (drop _ _); rewrite take_drop.
  - destruct IH as (r & -> & Hr); [intros k' b' Hin; apply (Hn k' b'); by right|]. exists r. split; [done|].
    destruct r as [b'|].
    + destruct Hr as (k' & m' & Hin & ?). exists k', m'. split; [by right|done].
    + intros k' b' m' [[= -> ->]|Hin]%elem_of_cons Hm'; [|by eapply Hr]. assert (m' = m) as -> by congruence.
      intros [t Hp]. apply Ht. by rewrite Hp, take_app_length.
Qed.

(** The block is a proper prefix of the new tokens. *)
Definition covered (tokens : list TokenIdExt) (kb : bytes * loc) : bool :=
  match nodes h !! kb.2 with
  | Some m => (length (tokens_of m) <? length tokens)%nat && bool_decide (take (length (tokens_of m)) tokens = tokens_of m)
  | None => false
  end.

Lemma covered_prefix tokens kb : covered tokens kb = true ↔
  ∃ m, nodes h !! kb.2 = Some m ∧ (length (tokens_of m) < length tokens)%nat ∧ tokens_of m `prefix_of` tokens.
Proof.
  unfold covered. destruct (nodes h !! kb.2) as [m|]; [|by split; [|intros (? & ? & _)]].
  rewrite andb_true_iff, Nat.ltb_lt, bool_decide_eq_true. split.
  - intros [Hl Ht]. exists m. repeat split; [done..|]. rewrite <- Ht. by eexists (drop _ _); rewrite take_drop.
  - intros (m' & [= <-] & Hl & [t Ht]). split; [done|]. by rewrite Ht, take_app_length.
Qed.

Lemma covered_keys_run par pn tokens ds :
  nodes h !! par = Some pn → (∀ kb, kb ∈ ds → kb ∈ n_next pn) → Z.of_nat (length tokens) ≤ tpb →
  covered_keys tpb tokens ds h = (Ok (filter (λ kb, covered tokens kb = true) ds).*1, h).
Proof.
  intros Hp Hsub Hlen. induction ds as [|[k b] ds IH]; cbn [covered_keys]; [done|].
  destruct (child_nodes par pn k b Hp) as (m & Hm & Hpr & Hk); [apply Hsub; left|].
  rewrite (bind_ok _ _ _ _ _ (node_ok_run _ _ _ Hm)).
  specialize (IH (λ kb Hin, Hsub kb (list_elem_of_further _ _ _ Hin))).
  destruct (decide (covered tokens (k, b) = true)) as [Hc|Hc].
  - rewrite filter_cons_True by done. unfold covered in Hc. cbn [snd] in Hc. rewrite Hm in Hc. rewrite Hc.
    apply andb_prop in Hc as [Hlt%Nat.ltb_lt _].
    assert (Hfull : is_full tpb b h = (Ok false, h)).
    { unfold is_full. rewrite (bind_ok _ _ _ _ _ (node_ok_run _ _ _ Hm)).
      rewrite (bind_ok _ _ _ _ _ (tokens_per_block_run b m Hm ltac:(by eexists))). mrun.
      by rewrite (proj2 (Z.eqb_neq _ _)) by lia. }
    rewrite (bind_ok _ _ _ _ _ Hfull).
    assert (Hnx : n_next m = []).
    { pose proof (lk_node _ _ _ _ _ Hlk b m Hm) as [_ H2].
      destruct (child_block _ _ _ _ _ Hlk b m par Hm Hpr) as (ts & o & st & _ & Hb & _). unfold tokens_of in Hlt.
      rewrite Hb in H2, Hlt. destruct H2 as (_ & _ & _ & Hf). destruct (n_next m); [done|]. specialize (Hf ltac:(done)). lia. }
    rewrite (bind_ok (assert_ _) _ h () h) by (unfold assert_, lift; by rewrite !bool_decide_true by done).
    by rewrite (bind_ok _ _ _ _ _ IH).
  - rewrite filter_cons_False by done. unfold covered in Hc. cbn [snd] in Hc. rewrite Hm in Hc. by destruct (_ && _).
Qed.
End reads.

(** At most one sibling is covered. *)
Lemma covered_one h par pn tokens :
  wf h → nodes h !! par = Some pn →
  filter (λ kb, covered h tokens kb = true) (n_next pn) = [] ∨
  ∃ k b, filter (λ kb, covered h tokens kb = true) (n_next pn) = [(k, b)].
Proof.
  intros [Hlk Hsb _] Hp. destruct (filter _ _) as [|[k b] [|[k' b'] rest]] eqn:Hf; [by left|by right; eauto|].
  exfalso. assert (Hin : (k, b) ∈ filter (λ kb, covered h tokens kb = true) (n_next pn)) by (rewrite Hf; left).
  assert (Hin' : (k', b') ∈ filter (λ kb, covered h tokens kb = true) (n_next pn)) by (rewrite Hf; right; left).
  apply list_elem_of_filter in Hin as [Hc Hin], Hin' as [Hc' Hin'].
  apply covered_prefix in Hc as (m & Hm & _ & Ht), Hc' as (m' & Hm' & _ & Ht'). cbn in *.
  destruct (child_nodes h Hlk par pn k b Hp Hin) as (m1 & Hm1 & Hpr & <-).
  destruct (child_nodes h Hlk par pn k' b' Hp Hin') as (m1' & Hm1' & Hpr' & <-). simplify_eq.
  assert (b = b').
  { destruct (prefix_weak_total _ _ _ Ht Ht') as [Hx|Hx]; [eapply (Hsb b b')|symmetry; eapply (Hsb b' b)]; done. }
  subst b'. simplify_eq. assert (Hnd : NoDup (filter (λ kb, covered h tokens kb = true) (n_next pn)).*1).
  { eapply sublist_NoDup; [|apply fmap_sublist, sublist_filter].
    pose proof (lk_nodup _ _ _ _ _ Hlk (Under par)) as Hn. cbn in Hn. by rewrite Hp in Hn. }
  rewrite Hf in Hnd. cbn in Hnd. apply NoDup_cons in Hnd as [Hnd _]. apply Hnd. left.
Qed.
End insert.
