(* ===== verification/RadixTreeProps.v ===== *)
(** * Correctness of the radix tree's operations

    What [Block(tokens, prev)] does on every branch, that [remove_subtree]
    removes exactly a subtree, and that no operation breaks the invariant. *)

From S2P Require Import Prelude LifeCycle CacheKey RadixTree RadixTreeInv RadixTreeOps RadixTreeRemove RadixTreeInsert.

Local Open Scope Z_scope.

Section props.
Context (sha256 : bytes → bytes) (tpb : Z) (nlc : nat) (event_manager : bool).
Abbreviation links_ok := (links_ok sha256 tpb nlc).
Abbreviation wf := (wf sha256 tpb nlc).

(** ** Inserting a block *)

(** Where a block may be added: a root or a full block of the tree, with at
    most a block of tokens that can be hashed. *)
Record insertable (h : heap) (par : loc) (pn : Node) (tokens : list TokenIdExt) (key : bytes) : Prop := {
  in_wf : wf h;
  in_par : nodes h !! par = Some pn;
  in_attached : is_Some (n_prev pn);
  in_full : is_root pn = false → Z.of_nat (length (tokens_of pn)) = tpb;
  in_tokens : 0 < Z.of_nat (length tokens) ≤ tpb;
  in_key : make_key sha256 (n_key pn) tokens = Ok key;
}.

(** The new node. *)
Definition new_block (par : loc) (pn : Node) (tokens : list TokenIdExt) (key : bytes) : Node :=
  mkNode key (Some (Under par)) [] (Blk tokens (ordinal_of pn + 1) (replicate nlc None)).

Definition linked (h : heap) (l par : loc) (pn : Node) (tokens : list TokenIdExt) (key : bytes) : heap :=
  with_nodes h (link_nodes (Under par) l (new_block par pn tokens key) (nodes h)).

(** Nobody among the children has the key or covers the tokens. *)
Record uncovered (h : heap) (par : loc) (pn : Node) (tokens : list TokenIdExt) (key : bytes) : Prop := {
  uc_key : dict_get key (n_next pn) = None;
  uc_prefix : ∀ b m, nodes h !! b = Some m → n_prev m = Some (Under par) → ¬ tokens `prefix_of` tokens_of m;
}.

Section insert.
Context (h : heap) (par : loc) (pn : Node) (tokens : list TokenIdExt) (key : bytes).
Context (Hin : insertable h par pn tokens key).

Lemma insert_lk : links_ok (nodes h) (t_next h).
Proof. apply wf_links, Hin. Qed.

Lemma par_lifecycles : num_life_cycles nlc pn = nlc.
Proof.
  pose proof (lk_node _ _ _ _ _ insert_lk par pn (in_par _ _ _ _ _ Hin)) as [_ H2].
  unfold num_life_cycles. destruct (n_load pn); [done|]. by destruct H2 as (_ & _ & ? & _).
Qed.

Lemma child_tokens_le b m : nodes h !! b = Some m → n_prev m = Some (Under par) → Z.of_nat (length (tokens_of m)) ≤ tpb.
Proof.
  intros Hb Hp. pose proof (lk_node _ _ _ _ _ insert_lk b m Hb) as [_ H2].
  destruct (child_block _ _ _ _ _ insert_lk b m par Hb Hp) as (ts & o & st & _ & Hl & _).
  unfold tokens_of. rewrite Hl in *. lia.
Qed.

Lemma child_same_tokens b m : nodes h !! b = Some m → n_prev m = Some (Under par) → tokens_of m = tokens →
  dict_get key (n_next pn) = Some b.
Proof.
  intros Hb Hp Ht. destruct (child_block _ _ _ _ _ insert_lk b m par Hb Hp) as (ts & o & st & m' & Hl & Hm' & _ & Hk & _).
  assert (m' = pn) as -> by (pose proof (in_par _ _ _ _ _ Hin); congruence).
  unfold tokens_of in Ht. rewrite Hl in Ht. subst ts. pose proof (in_key _ _ _ _ _ Hin) as Hk'.
  assert (Hkm : n_key m = key) by congruence. rewrite <- Hkm. eapply (child_get _ _ _ h); [apply insert_lk|apply Hin|done..].
Qed.

(** No block in the way once the key is new and no sibling is found to cover
    the tokens. *)
Lemma uncovered_intro :
  dict_get key (n_next pn) = None →
  (Z.of_nat (length tokens) < tpb → ∀ b m, nodes h !! b = Some m → n_prev m = Some (Under par) →
     ¬ tokens `prefix_of` tokens_of m) →
  uncovered h par pn tokens key.
Proof.
  intros Hk Hc. split; [done|]. intros b m Hb Hp Hpre. destruct (Z.lt_ge_cases (Z.of_nat (length tokens)) tpb) as [Hlt|Hge];
    [by eapply Hc|]. pose proof (child_tokens_le b m Hb Hp). pose proof (prefix_length _ _ Hpre).
  rewrite (child_same_tokens b m) in Hk; [done|done|done|]. symmetry. apply prefix_length_eq; [done|lia].
Qed.

Lemma new_node_ok : node_ok sha256 tpb nlc (nodes h) (new_block par pn tokens key).
Proof.
  pose proof (in_tokens _ _ _ _ _ Hin). pose proof (node_ordinal _ _ _ _ _ insert_lk par pn (in_par _ _ _ _ _ Hin)).
  split; cbn; [|rewrite length_replicate; repeat split; try done; lia].
  exists pn. split; [apply Hin|]. split; [lia|apply Hin].
Qed.

Context (Hun : uncovered h par pn tokens key) (l : loc) (Hl : nodes h !! l = None).

Lemma linked_links : links_ok (nodes (linked h l par pn tokens key)) (t_next (linked h l par pn tokens key)).
Proof.
  assert (Hnext : next_list (nodes h) (t_next h) (Under par) = n_next pn)
    by (cbn; by rewrite (in_par _ _ _ _ _ Hin)).
  eapply (link_links _ _ _ _ _ insert_lk (Under par) l (new_block par pn tokens key)); try done.
  - rewrite Hnext. apply dict_get_None, Hun.
  - apply new_node_ok.
  - intros q m [= <-] Hm. assert (m = pn) as -> by (pose proof (in_par _ _ _ _ _ Hin); congruence).
    split; apply Hin.
Qed.

Lemma linked_pages : pages_ok ∅ (linked h l par pn tokens key).
Proof.
  apply link_pages; [eapply wf_pages, Hin|done|]. cbn. by intros i x [? _]%lookup_replicate.
Qed.

(** The siblings other than [gone_] stay apart. *)
Lemma linked_siblings (gone_ : option loc) ns' :
  (∀ x m' q, ns' !! x = Some m' → n_prev m' = Some (Under q) →
     (x = l ∧ q = par ∧ tokens_of m' = tokens) ∨
     ∃ m, nodes h !! x = Some m ∧ n_prev m = Some (Under q) ∧ tokens_of m' = tokens_of m ∧ gone_ ≠ Some x) →
  (∀ b m, nodes h !! b = Some m → n_prev m = Some (Under par) → gone_ ≠ Some b → ¬ tokens_of m `prefix_of` tokens) →
  siblings_ok ns'.
Proof.
  intros Hns Hpre x x' m m' q Hx Hx' Hq Hq' Ht.
  destruct (Hns x m q Hx Hq) as [(-> & Hqq0 & Hm)|(m0 & Hm0 & Hq0 & Hm & Hg)],
           (Hns x' m' q Hx' Hq') as [(-> & Hqq & Hm')|(m0' & Hm0' & Hq0' & Hm' & Hg')]; [done|..].
  - exfalso. subst q. rewrite Hm, Hm' in Ht. by eapply (uc_prefix _ _ _ _ _ Hun).
  - exfalso. subst q. rewrite Hm, Hm' in Ht. by eapply Hpre.
  - rewrite Hm, Hm' in Ht. by eapply (wf_siblings _ _ _ _ (in_wf _ _ _ _ _ Hin) x x').
Qed.

Lemma uncovered_not_prefix b m :
  nodes h !! b = Some m → n_prev m = Some (Under par) → covered h tokens (n_key m, b) = false →
  ¬ tokens_of m `prefix_of` tokens.
Proof.
  intros Hb Hp Hc Hpre. assert (covered h tokens (n_key m, b) = true); [|congruence].
  apply covered_prefix. exists m. split; [done|]. split; [|done]. pose proof (prefix_length _ _ Hpre).
  destruct (decide (length (tokens_of m) = length tokens)) as [He|]; [|lia]. exfalso.
  assert (tokens_of m = tokens) as Ht by (apply prefix_length_eq; [done|lia]).
  eapply (uc_prefix _ _ _ _ _ Hun b m); [done..|]. by rewrite Ht.
Qed.

Lemma linked_wf :
  (∀ kb, kb ∈ n_next pn → covered h tokens kb = false) → wf (linked h l par pn tokens key).
Proof.
  intros Hc. split; [apply linked_links| |apply linked_pages]. apply (linked_siblings None).
  - intros x m' q Hx Hq. cbn in Hx. rewrite link_lookup in Hx. destruct (decide (x = l)) as [->|Hne].
    + injection Hx as <-. cbn in *. left. by simplify_eq.
    + destruct (nodes h !! x) as [m|] eqn:Hm; [|done]. injection Hx as <-. right. exists m.
      destruct (link_node_fields (Under par) l (new_block par pn tokens key) x m) as (_ & Hp & Hld).
      unfold tokens_of. rewrite Hld. split; [done|]. split; [by rewrite <- Hp|done].
  - intros b m Hb Hp _. eapply uncovered_not_prefix; [done..|]. apply Hc.
    destruct (child_block _ _ _ _ _ insert_lk b m par Hb Hp) as (_ & _ & _ & m' & _ & Hm' & _ & _ & Hi & _).
    by assert (m' = pn) as -> by (pose proof (in_par _ _ _ _ _ Hin); congruence).
Qed.

(** *** Replacing the sibling [b] the new block extends *)

Section extend.
Context (b : loc) (c : Node) (Hb : nodes h !! b = Some c) (Hbp : n_prev c = Some (Under par)).
Context (Hcov : covered h tokens (n_key c, b) = true).
Context (Honly : ∀ kb, kb ∈ n_next pn → covered h tokens kb = true → kb = (n_key c, b)).

Abbreviation n := (new_block par pn tokens key).
Abbreviation pn1 := (set_next pn (n_next pn ++ [(key, l)])).
Abbreviation h1 := (linked h l par pn tokens key).
Abbreviation h2 := (detached h1 par pn1 b c).
Abbreviation c2 := (set_prev c None).

Lemma ext_ne : par ≠ l ∧ par ≠ b ∧ l ≠ b ∧ key ≠ n_key c.
Proof.
  pose proof (in_par _ _ _ _ _ Hin) as Hp. split; [congruence|]. split; [by eapply (child_ne _ _ _ h par b pn c insert_lk)|].
  split; [congruence|]. intros He. pose proof (uc_key _ _ _ _ _ Hun) as Hk. rewrite He in Hk.
  rewrite (child_get _ _ _ h par b pn c insert_lk Hp Hb Hbp) in Hk. done.
Qed.

Lemma ext_short : (length (tokens_of c) < length tokens)%nat ∧ tokens_of c `prefix_of` tokens.
Proof. apply covered_prefix in Hcov as (m & Hm & ? & ?). cbn in Hm. by simplify_eq. Qed.

Lemma ext_leaf : n_next c = [] ∧ length (storage_of c) = nlc ∧ ordinal_of c = ordinal_of pn + 1 ∧ is_root c = false.
Proof.
  pose proof (lk_node _ _ _ _ _ insert_lk b c Hb) as [_ H2]. pose proof ext_short as [Hs _].
  destruct (child_block _ _ _ _ _ insert_lk b c par Hb Hbp) as (ts & o & st & m & Hl' & Hm & Ho & _).
  assert (m = pn) as -> by (pose proof (in_par _ _ _ _ _ Hin); congruence).
  pose proof (in_tokens _ _ _ _ _ Hin). assert (Hoc : ordinal_of c = o) by (unfold ordinal_of; by rewrite Hl').
  unfold tokens_of, storage_of, is_root in *. rewrite Hl' in *.
  destruct H2 as (_ & _ & Hst & Hf). repeat split; [|done|lia]. destruct (n_next c); [done|]. specialize (Hf ltac:(done)). lia.
Qed.

Lemma ext_h1 : nodes h1 !! par = Some pn1 ∧ nodes h1 !! b = Some c ∧ nodes h1 !! l = Some n.
Proof.
  destruct ext_ne as (H1 & H2 & H3 & _). cbn. rewrite !link_lookup, (in_par _ _ _ _ _ Hin), Hb.
  rewrite !decide_False, decide_True by done. unfold link_node. cbn.
  by rewrite (bool_decide_true (Under par = Under par)), (bool_decide_false (Under par = Under b)) by congruence.
Qed.

Lemma ext_prune : is_root pn1 && bool_decide (dict_pop (n_key c) (n_next pn1) = []) = false.
Proof.
  apply andb_false_iff. right. apply bool_decide_eq_false. intros He. destruct ext_ne as (_ & _ & _ & Hk).
  assert (Hnd : NoDup (n_next pn1).*1).
  { pose proof (lk_nodup _ _ _ _ _ linked_links (Under par)) as Hnd. cbn [next_list] in Hnd.
    by rewrite (proj1 ext_h1) in Hnd. }
  assert (Hx : (key, l) ∈ dict_pop (n_key c) (n_next pn1)); [|rewrite He in Hx; by apply not_elem_of_nil in Hx].
  apply dict_pop_elem; [done|]. split; [|done]. cbn. apply elem_of_app. right. left.
Qed.

Lemma ext_h2 : h2 = with_nodes h1 (unlink_nodes (Under par) (n_key c) b (nodes h1)).
Proof. unfold detached. by rewrite ext_prune. Qed.

Lemma ext_h2_nodes : nodes h2 !! b = Some c2 ∧ nodes h2 !! l = Some n ∧
  nodes h2 !! par = Some (set_next pn1 (dict_pop (n_key c) (n_next pn1))) ∧
  ∀ x, x ≠ b → x ≠ l → x ≠ par → nodes h2 !! x = nodes h !! x.
Proof.
  destruct ext_ne as (H1 & H2 & H3 & _), ext_h1 as (E1 & E2 & E3). split; [by apply detached_child|].
  split; [by rewrite (detached_lookup _ _ pn1), decide_False by done|].
  split; [by rewrite (detached_lookup _ _ pn1), decide_True, ext_prune by done|].
  intros x Hxb Hxl Hxp. rewrite (detached_lookup _ _ pn1), decide_False by done. cbn.
  rewrite link_lookup, decide_False by done. unfold link_node.
  rewrite bool_decide_false by congruence. by destruct (nodes h !! x).
Qed.

Lemma ext_h2_links : links_ok (nodes h2) (t_next h2) ∧ pages_ok ∅ h2.
Proof.
  destruct ext_h1 as (E1 & E2 & E3), ext_leaf as (Hlf & _). split.
  - by eapply detached_links; [apply linked_links|..].
  - eapply pages_ok_load; [| |apply linked_pages]; rewrite ext_h2; [|done]. intros x. apply unlink_load.
Qed.

Lemma ext_adopting : adopting l b 0 h2 n c2.
Proof.
  destruct ext_h2_nodes as (E1 & E2 & _), ext_leaf as (_ & Hst & _), ext_short as [Hs _]. split.
  - apply ext_h2_links.
  - done.
  - done.
  - cbn. rewrite length_replicate. by unfold set_prev, storage_of in *.
  - intros i x Hi. lia.
  - cbn. by intros i x _ [? _]%lookup_replicate.
  - cbn. unfold tokens_of in *. cbn. lia.
Qed.

Abbreviation h3 := (adopted h2 l n b c2).

Lemma ext_h3_run : adopt_pages_from nlc l b h2 = (Ok (), h3) ∧ pages_ok ∅ h3.
Proof.
  destruct ext_ne as (_ & _ & H3 & _), ext_leaf as (_ & _ & Ho & _).
  apply adopt_pages_run; [apply ext_adopting|done|done|]. by unfold ordinal_of in *.
Qed.

Lemma ext_h3_nodes : nodes h3 !! b = Some (gone c) ∧
  nodes h3 !! l = Some (mkNode key (Some (Under par)) [] (Blk tokens (ordinal_of pn + 1) (storage_of c))) ∧
  ∀ x, x ≠ b → x ≠ l → nodes h3 !! x = nodes h2 !! x.
Proof.
  destruct ext_ne as (_ & _ & H3 & _), ext_leaf as (Hlf & Hst & _ & Hr). split; [|split].
  - cbn. rewrite lookup_insert_ne, lookup_insert_eq by done. f_equal. unfold gone, empty_storage, set_prev, set_storage.
    unfold is_root, storage_of in *. cbn. destruct (n_load c); [done|]. by rewrite Hlf.
  - cbn. rewrite lookup_insert_eq. do 4 f_equal. unfold merge_storage. apply list_eq. intros i.
    rewrite lookup_zip_with. change (storage_of c2) with (storage_of c). destruct (storage_of c !! i) as [o|] eqn:Hi.
    + rewrite lookup_replicate_2; [done|]. apply lookup_lt_Some in Hi. lia.
    + by destruct (replicate nlc None !! i).
  - intros x Hxb Hxl. cbn. by rewrite !lookup_insert_ne.
Qed.

Lemma ext_wf : wf h3.
Proof.
  destruct ext_ne as (H1 & H2 & H3 & Hk), ext_h2_nodes as (E1 & E2 & E3 & E4), ext_h2_links as [Hlk2 _].
  assert (He : erase <$> nodes h3 = erase <$> nodes h2).
  { apply adopted_erase; [done|done|done|]. eapply ad_len, ext_adopting. }
  split; [by eapply links_erase| |apply ext_h3_run]. eapply siblings_erase; [done|].
  apply (linked_siblings (Some b)).
  - intros x m' q Hx Hq. destruct (decide (x = b)) as [->|Hxb]; [by simplify_eq|].
    destruct (decide (x = l)) as [->|Hxl].
    { left. rewrite E2 in Hx. injection Hx as <-. cbn in Hq. injection Hq as Hq. done. }
    destruct (decide (x = par)) as [->|Hxp]; right.
    + rewrite E3 in Hx. injection Hx as <-. exists pn. split; [apply Hin|]. split; [done|]. split; [done|congruence].
    + rewrite E4 in Hx by done. exists m'. split; [done|]. split; [done|]. split; [done|congruence].
  - intros x m Hm Hp Hne. eapply uncovered_not_prefix; [done..|].
    destruct (covered h tokens (n_key m, x)) eqn:Hc; [|done]. apply Honly in Hc; [congruence|].
    destruct (child_block _ _ _ _ _ insert_lk x m par Hm Hp) as (_ & _ & _ & m' & _ & Hm' & _ & _ & Hi & _).
    by assert (m' = pn) as -> by (pose proof (in_par _ _ _ _ _ Hin); congruence).
Qed.
End extend.

(** *** The constructor *)

Lemma insert_tpb_run :
  (match n_load pn with Root _ => tokens_per_block tpb par | Blk ts _ _ => mret (Z.of_nat (length ts)) end) h = (Ok tpb, h).
Proof.
  pose proof (in_full _ _ _ _ _ Hin) as Hf. unfold is_root, tokens_of in Hf. destruct (n_load pn).
  - eapply tokens_per_block_run; apply insert_lk || apply Hin.
  - rewrite Hf by done. done.
Qed.
End insert.

(** The part of the constructor after the checks. *)
Definition insert_tail (par : loc) (pn : Node) (tokens : list TokenIdExt) (key : bytes)
    (to_remove : list bytes) : M heap (loc + loc) :=
  assert_ (length to_remove <=? 1)%nat;;
  match to_remove with [] => mret () | _ => get_tree par end;;
  h ← get;
  let l := fresh (dom (nodes h)) in
  put (with_nodes h (<[l := mkNode key (Some (Under par)) []
         (Blk tokens (ordinal_of pn + 1) (replicate (num_life_cycles nlc pn) None))]>
       (alter (λ n, set_next n (n_next n ++ [(key, l)])) par (nodes h))));;
  for_each to_remove (λ k,
    b ← detach_next par k;
    match b with
    | None => raise AssertionError
    | Some b =>
        adopt_pages_from nlc l b;;
        bn ← node b;
        notify event_manager true (add_removed_event [n_key bn]);;
        orphan ← is_orphan b;
        assert_ orphan
    end);;
  mret (inl l).

Lemma fresh_node (h : heap) : nodes h !! fresh (dom (nodes h)) = None.
Proof. apply not_elem_of_dom, is_fresh. Qed.

Lemma insert_tail_new h par pn tokens key :
  insertable h par pn tokens key →
  insert_tail par pn tokens key [] h =
  (Ok (inl (fresh (dom (nodes h)))), linked h (fresh (dom (nodes h))) par pn tokens key).
Proof.
  intros Hin. unfold insert_tail. cbn. mrun. cbn. by rewrite (par_lifecycles _ _ _ _ _ Hin).
Qed.

(** The heap after a sibling has been replaced. *)
Definition extended (h : heap) (l par : loc) (pn : Node) (tokens : list TokenIdExt) (key : bytes) (b : loc) (c : Node) : heap :=
  let n := new_block par pn tokens key in
  let pn1 := set_next pn (n_next pn ++ [(key, l)]) in
  let h2 := detached (linked h l par pn tokens key) par pn1 b c in
  let h3 := adopted h2 l n b (set_prev c None) in
  mkHeap (nodes h3) (pages h3) (t_next h3)
    (events h3 ++ (if event_manager then [add_removed_event [n_key c]] else [])).

Lemma insert_tail_extend h par pn tokens key b c :
  insertable h par pn tokens key → uncovered h par pn tokens key →
  nodes h !! b = Some c → n_prev c = Some (Under par) → covered h tokens (n_key c, b) = true →
  let l := fresh (dom (nodes h)) in
  insert_tail par pn tokens key [n_key c] h = (Ok (inl l), extended h l par pn tokens key b c).
Proof.
  intros Hin Hun Hb Hbp Hcov l. pose proof (fresh_node h) as Hl. fold l in Hl.
  destruct (ext_h1 h par pn tokens key Hin Hun l Hl b c Hb Hbp) as (E1 & E2 & E3).
  pose proof (linked_links h par pn tokens key Hin Hun l Hl) as Hlk1.
  destruct (ext_h3_run h par pn tokens key Hin Hun l Hl b c Hb Hbp Hcov) as [Ead _].
  destruct (ext_h3_nodes h par pn tokens key Hin Hun l Hl b c Hb Hbp Hcov) as (Eb & _ & _).
  unfold insert_tail. rewrite (bind_ok (assert_ _) _ h () h) by done.
  rewrite (bind_ok (get_tree par) _ h () h); last first.
  { unfold get_tree. rewrite (bind_ok _ _ _ _ _ (try_get_tree_run _ _ _ _ (insert_lk _ _ _ _ _ Hin) _ _ (in_par _ _ _ _ _ Hin))).
    rewrite bool_decide_true by apply Hin. done. }
  rewrite (bind_ok get _ h h h) by done. fold l. rewrite (par_lifecycles _ _ _ _ _ Hin).
  rewrite (bind_ok (put _) _ h () (linked h l par pn tokens key)) by done. cbn [for_each].
  rewrite (bind_ok _ _ _ () (extended h l par pn tokens key b c)); [done|].
  rewrite (bind_ok _ _ _ () (extended h l par pn tokens key b c)); [done|].
  rewrite (bind_ok _ _ _ _ _ (detach_next_run _ _ _ _ _ _ _ _ Hlk1 E1 E2 Hbp)).
  rewrite (bind_ok _ _ _ _ _ Ead), (bind_ok _ _ _ _ _ (node_ok_run _ _ _ Eb)).
  rewrite (bind_ok _ _ _ _ _ (notify_run event_manager true _ _)).
  unfold is_orphan. rewrite (bind_ok _ _ _ true (extended h l par pn tokens key b c)); [done|].
  erewrite bind_ok by (apply node_ok_run; exact Eb). done.
Qed.

(** What an insertion leaves: the new block under its parent; if it extends a
    partial sibling, that sibling is gone and its pages are the new block's. *)
Definition insert_effect (h : heap) (par : loc) (pn : Node) (tokens : list TokenIdExt) (key : bytes) (l : loc) (h' : heap) : Prop :=
  ∃ st next, nodes h' !! l = Some (mkNode key (Some (Under par)) [] (Blk tokens (ordinal_of pn + 1) st)) ∧
    nodes h' !! par = Some (set_next pn next) ∧
    ( (∀ kb, kb ∈ n_next pn → covered h tokens kb = false) ∧
      st = replicate nlc None ∧ next = n_next pn ++ [(key, l)] ∧
      (∀ x, x ≠ l → x ≠ par → nodes h' !! x = nodes h !! x) ∧ pages h' = pages h ∧ events h' = events h ∨
      ∃ b c, nodes h !! b = Some c ∧ n_prev c = Some (Under par) ∧
        (length (tokens_of c) < length tokens)%nat ∧ tokens_of c `prefix_of` tokens ∧
        st = storage_of c ∧ next = dict_pop (n_key c) (n_next pn ++ [(key, l)]) ∧
        nodes h' !! b = Some (gone c) ∧
        (∀ x, x ≠ l → x ≠ par → x ≠ b → nodes h' !! x = nodes h !! x) ∧
        pages h' = move_page l b <$> pages h ∧
        events h' = events h ++ (if event_manager then [add_removed_event [n_key c]] else []) ).

Lemma linked_effect h par pn tokens key l :
  insertable h par pn tokens key → nodes h !! l = None →
  (∀ kb, kb ∈ n_next pn → covered h tokens kb = false) →
  insert_effect h par pn tokens key l (linked h l par pn tokens key).
Proof.
  intros Hin Hl Hc. pose proof (in_par _ _ _ _ _ Hin) as Hp.
  exists (replicate nlc None), (n_next pn ++ [(key, l)]). cbn. rewrite !link_lookup.
  rewrite decide_True, decide_False, Hp by (done || congruence). unfold link_node. cbn.
  rewrite bool_decide_true by done. split; [done|]. split; [done|]. left.
  split; [done|]. split; [done|]. split; [done|]. split; [|done]. intros x Hxl Hxp.
  rewrite link_lookup, decide_False by done. unfold link_node. rewrite bool_decide_false by congruence.
  by destruct (nodes h !! x).
Qed.

Lemma extended_effect h par pn tokens key l b c :
  insertable h par pn tokens key → uncovered h par pn tokens key → nodes h !! l = None →
  nodes h !! b = Some c → n_prev c = Some (Under par) → covered h tokens (n_key c, b) = true →
  insert_effect h par pn tokens key l (extended h l par pn tokens key b c).
Proof.
  intros Hin Hun Hl Hb Hbp Hcov.
  destruct (ext_ne h par pn tokens key Hin Hun l Hl b c Hb Hbp) as (H1 & H2 & H3 & _).
  destruct (ext_h2_nodes h par pn tokens key Hin Hun l Hl b c Hb Hbp) as (_ & _ & Ep & E4).
  destruct (ext_h3_nodes h par pn tokens key Hin Hun l Hl b c Hb Hbp Hcov) as (Eb & El & E5).
  destruct (ext_short h tokens b c Hb Hcov) as [Hlt Hpre].
  exists (storage_of c), (dict_pop (n_key c) (n_next pn ++ [(key, l)])).
  split; [exact El|]. split; [etrans; [apply E5; done|exact Ep]|]. right. exists b, c.
  do 7 (split; [done|]). split; [|split].
  - intros x Hxl Hxp Hxb. etrans; [apply E5; done|by apply E4].
  - unfold extended. cbn. unfold detached. by destruct (_ && _).
  - unfold extended. cbn. unfold detached. by destruct (_ && _).
Qed.

Lemma block_init_known h par pn tokens key b :
  insertable h par pn tokens key → dict_get key (n_next pn) = Some b →
  block_init sha256 tpb nlc event_manager tokens par h = (Ok (inr b), h).
Proof.
  intros Hin Hk. pose proof (insert_lk _ _ _ _ _ Hin) as Hlk. pose proof (in_par _ _ _ _ _ Hin) as Hp.
  unfold block_init. rewrite (bind_ok _ _ _ _ _ (same_tokens_run _ _ _ h Hlk par pn Hp (in_attached _ _ _ _ _ Hin))).
  rewrite (bind_ok (assert_ true) _ h () h) by done. rewrite (bind_ok _ _ _ _ _ (node_ok_run _ _ _ Hp)).
  rewrite (bind_ok (lift _) _ h key h) by (unfold lift; by rewrite (in_key _ _ _ _ _ Hin)). by rewrite Hk.
Qed.

Lemma block_init_unfold h par pn tokens key :
  insertable h par pn tokens key → dict_get key (n_next pn) = None →
  ∃ r, block_init sha256 tpb nlc event_manager tokens par h =
      match r with
      | Some b => (Ok (inr b), h)
      | None => insert_tail par pn tokens key (filter (λ kb, covered h tokens kb = true) (n_next pn)).*1 h
      end ∧
    match r with
    | Some b => ∃ m, nodes h !! b = Some m ∧ n_prev m = Some (Under par) ∧ tokens `prefix_of` tokens_of m
    | None => uncovered h par pn tokens key
    end.
Proof.
  intros Hin Hk. pose proof (insert_lk _ _ _ _ _ Hin) as Hlk. pose proof (in_par _ _ _ _ _ Hin) as Hp.
  unfold block_init. rewrite (bind_ok _ _ _ _ _ (same_tokens_run _ _ _ h Hlk par pn Hp (in_attached _ _ _ _ _ Hin))).
  rewrite (bind_ok (assert_ true) _ h () h) by done. rewrite (bind_ok _ _ _ _ _ (node_ok_run _ _ _ Hp)).
  rewrite (bind_ok (lift _) _ h key h) by (unfold lift; by rewrite (in_key _ _ _ _ _ Hin)). rewrite Hk.
  rewrite (bind_ok _ _ _ _ _ (insert_tpb_run h par pn tokens key Hin)).
  destruct (find_covering_run h tokens (n_next pn)) as (r & Hr & Hspec).
  { intros k b Hi. destruct (child_nodes _ _ _ h Hlk par pn k b Hp Hi) as (m & -> & _). by eexists. }
  exists (if Z.of_nat (length tokens) <? tpb then r else None).
  rewrite (bind_ok _ _ h (if Z.of_nat (length tokens) <? tpb then r else None) h) by (by destruct (_ <? _)).
  destruct (Z.ltb_spec (Z.of_nat (length tokens)) tpb) as [Hlt|Hge].
  - destruct r as [b|].
    + split; [done|]. destruct Hspec as (k & m & Hi & Hm & Ht). exists m.
      destruct (child_nodes _ _ _ h Hlk par pn k b Hp Hi) as (m' & Hm' & Hpr & _). by simplify_eq.
    + rewrite (bind_ok _ _ _ _ _ (covered_keys_run _ _ _ h Hlk par pn tokens _ Hp (λ _ Hx, Hx) (proj2 (in_tokens _ _ _ _ _ Hin)))).
      split; [done|]. apply uncovered_intro; [done|done|]. intros _ b m Hb Hpr.
      destruct (child_block _ _ _ _ _ Hlk b m par Hb Hpr) as (_ & _ & _ & m' & _ & Hm' & _ & _ & Hi & _).
      simplify_eq. by eapply Hspec.
  - rewrite (bind_ok _ _ _ _ _ (covered_keys_run _ _ _ h Hlk par pn tokens _ Hp (λ _ Hx, Hx) (proj2 (in_tokens _ _ _ _ _ Hin)))).
    split; [done|]. apply uncovered_intro; [done|done|lia].
Qed.

Lemma block_init_spec h par pn tokens key :
  insertable h par pn tokens key →
  (∃ b, block_init sha256 tpb nlc event_manager tokens par h = (Ok (inr b), h) ∧
     (dict_get key (n_next pn) = Some b ∨
      ∃ m, nodes h !! b = Some m ∧ n_prev m = Some (Under par) ∧ tokens `prefix_of` tokens_of m)) ∨
  (∃ l h', block_init sha256 tpb nlc event_manager tokens par h = (Ok (inl l), h') ∧ nodes h !! l = None ∧
     uncovered h par pn tokens key ∧ wf h' ∧ insert_effect h par pn tokens key l h').
Proof.
  intros Hin. destruct (dict_get key (n_next pn)) as [b|] eqn:Hk.
  { left. exists b. split; [|by left]. eapply block_init_known; eauto. }
  destruct (block_init_unfold h par pn tokens key Hin Hk) as (r & Hr & Hspec). destruct r as [b|].
  { left. exists b. split; [done|]. by right. }
  right. pose proof (fresh_node h) as Hl. exists (fresh (dom (nodes h))). rewrite Hr.
  destruct (covered_one _ _ _ h par pn tokens (in_wf _ _ _ _ _ Hin) (in_par _ _ _ _ _ Hin)) as [Hf|(k & b & Hf)].
  - assert (Hc : ∀ kb, kb ∈ n_next pn → covered h tokens kb = false).
    { intros kb Hi. destruct (covered h tokens kb) eqn:E; [|done]. exfalso. apply (not_elem_of_nil kb).
      rewrite <- Hf. by apply list_elem_of_filter. }
    rewrite Hf. eexists. split; [by apply insert_tail_new|]. split; [done|]. split; [done|].
    split; [by apply linked_wf|by apply linked_effect].
  - assert (Hi : (k, b) ∈ filter (λ kb, covered h tokens kb = true) (n_next pn)) by (rewrite Hf; left).
    apply list_elem_of_filter in Hi as [Hc Hi].
    destruct (child_nodes _ _ _ h (insert_lk _ _ _ _ _ Hin) par pn k b (in_par _ _ _ _ _ Hin) Hi) as (c & Hb & Hp & <-).
    rewrite Hf. eexists. split; [by apply insert_tail_extend|]. split; [done|]. split; [done|].
    split; [|by apply extended_effect].
    assert (Honly : ∀ kb, kb ∈ n_next pn → covered h tokens kb = true → kb = (n_key c, b)).
    { intros kb Hkb Hcb. apply list_elem_of_singleton. rewrite <- Hf. by apply list_elem_of_filter. }
    destruct (ext_wf h par pn tokens key Hin Hspec _ Hl b c Hb Hp Hc Honly) as [H1 H2 [H3 H4]].
    by split; [..|split].
Qed.

(** C7: [Block(tokens, prev)] under a root or a full block of the tree ends
    in one of two ways.  Either it raises [UselessBlockError] with a child of
    [prev] that has the key of the new block or whose tokens start with
    [tokens], and nothing in memory has changed; or no child has the key or
    covers the tokens, the new block is the last child of [prev], the one
    partial child it extends (if there is one) has left the tree and all its
    pages have moved to the new block, everything else is as before, no
    assertion has failed and the invariant holds. *)
Theorem block_init_covers_or_extends h par pn tokens key :
  insertable h par pn tokens key →
  (∃ b, block_init sha256 tpb nlc event_manager tokens par h = (Ok (inr b), h) ∧
     (dict_get key (n_next pn) = Some b ∨
      ∃ m, nodes h !! b = Some m ∧ n_prev m = Some (Under par) ∧ tokens `prefix_of` tokens_of m)) ∨
  (∃ l h', block_init sha256 tpb nlc event_manager tokens par h = (Ok (inl l), h') ∧ nodes h !! l = None ∧
     uncovered h par pn tokens key ∧ wf h' ∧ insert_effect h par pn tokens key l h').
Proof. apply block_init_spec. Qed.
End props.
