(* ===== verification/RadixTreeReach.v ===== *)
(** * Every state of the radix tree is well formed

    The remaining operations (new roots, page commits and drops, clearing)
    keep the invariant; from an empty tree no sequence of operations within
    the callers' obligations breaks it or fails an assertion. *)

From S2P Require Import Prelude LifeCycle CacheKey RadixTree RadixTreeInv RadixTreeOps.
From S2P Require Import RadixTreeRemove RadixTreeInsert RadixTreeProps.

Local Open Scope Z_scope.

Section reach.
Context (sha256 : bytes → bytes) (tpb : Z) (nlc : nat) (event_manager : bool).
Abbreviation links_ok := (links_ok sha256 tpb nlc).
Abbreviation wf := (wf sha256 tpb nlc).

Lemma remove_subtree_spec h r n :
  wf h → nodes h !! r = Some n → is_root n = false →
  ∃ L h', remove_subtree nlc event_manager r h = (Ok (), h') ∧
    (forest (nodes h) [r] L ∧ NoDup L ∧ ∀ x, x ∈ L ↔ below (nodes h) x r) ∧
    subtree_gone sha256 tpb nlc h r n L h' ∧
    events h' = events h ++ removed_event event_manager n (keys_of (nodes h) L).
Proof.
  intros Hwf Hr Hb. pose proof (wf_links _ _ _ _ Hwf) as Hlk.
  destruct (forest_exists _ _ _ _ _ Hlk (n_next n).*2) as [L Hf].
  { intros l (m & Hm & _)%(children_locs _ _ _ _ _ Hlk r n Hr). by eexists. }
  assert (HfL : forest (nodes h) [r] (L ++ r :: [])) by (eapply forest_cons; eauto; constructor).
  destruct (remove_subtree_run _ _ _ event_manager h r n L Hwf Hr Hb Hf) as (h' & Hrun & Hg & He).
  exists (L ++ [r]), h'. split; [done|]. split; [|done]. split; [done|]. split; [by eapply subtree_nodup|].
  intros x. split.
  - intros Hx. destruct (forest_below _ _ _ _ _ Hlk _ _ HfL x Hx) as (y & ->%list_elem_of_singleton & Hy). done.
  - intros Hx. eapply forest_complete; [done|done|left|done].
Qed.

(** C21: [remove_subtree] ends and removes exactly the subtree of its
    argument.  The blocks at or below it leave the tree in post-order, each
    without children, parent or pages, and their pages are taken off the
    eviction queues if nobody holds them; the parent only loses that child;
    everything else is as before; one event with the removed keys in that
    order is sent, if the block was in the tree; the invariant holds. *)
Theorem remove_subtree_removes_exactly h r n :
  wf h → nodes h !! r = Some n → is_root n = false →
  ∃ L h', remove_subtree nlc event_manager r h = (Ok (), h') ∧
    (forest (nodes h) [r] L ∧ NoDup L ∧ ∀ x, x ∈ L ↔ below (nodes h) x r) ∧
    subtree_gone sha256 tpb nlc h r n L h' ∧
    events h' = events h ++ removed_event event_manager n (keys_of (nodes h) L).
Proof. apply remove_subtree_spec. Qed.

(** ** Roots *)

Definition empty_heap : heap := mkHeap ∅ ∅ [] [].

Lemma empty_wf : wf empty_heap.
Proof.
  split; [split| |split]; cbn.
  - intros p k l. split; [|by intros (? & ? & _)]. by destruct p; cbn; intros ?%not_elem_of_nil.
  - intros p. destruct p; constructor.
  - done.
  - intros l l' n n' p Hl. done.
  - done.
  - done.
Qed.

Lemma wf_events h ev : wf h → wf (mkHeap (nodes h) (pages h) (t_next h) ev).
Proof. intros [H1 H2 [H3 H4]]. by split; [..|split]. Qed.

Lemma add_root_wf h scope key :
  wf h → root_key sha256 scope = Ok key →
  ∃ r h', add_or_get_existing sha256 scope h = (Ok r, h') ∧ wf h' ∧ dict_get key (t_next h') = Some r ∧
    (is_Some (dict_get key (t_next h)) → h' = h).
Proof.
  intros Hwf Hk. unfold add_or_get_existing.
  rewrite (bind_ok (lift _) _ h key h) by (unfold lift; by rewrite Hk). rewrite (bind_ok get _ h h h) by done.
  destruct (dict_get key (t_next h)) as [r|] eqn:Hg; [by exists r, h|].
  pose proof (fresh_node h) as Hl. set (r := fresh _) in *. set (n := mkNode key (Some InTree) [] (Root scope)).
  destruct Hwf as [Hlk Hsb Hpg].
  assert (Hlk' : links_ok (link_nodes InTree r n (nodes h)) (link_roots InTree r n (t_next h))).
  { apply link_links; try done. by apply dict_get_None. }
  unfold link_roots in Hlk'. rewrite bool_decide_true in Hlk' by done.
  do 2 eexists. split; [done|]. split; [split|].
  - exact Hlk'.
  - cbn. intros x x' m m' p Hx Hx' Hp Hp'. apply lookup_insert_Some in Hx as [[<- <-]|[_ Hx]]; [done|].
    apply lookup_insert_Some in Hx' as [[<- <-]|[_ Hx']]; [done|]. by eapply Hsb.
  - apply (link_pages ∅ h InTree r n); done.
  - split; [|by intros [? ?]]. apply (child_of _ _ _ _ _ Hlk' InTree). exists n. by rewrite link_lookup, decide_True.
Qed.

(** ** Committing a page *)

Lemma convert_wf h l n lc o k :
  wf h → nodes h !! l = Some n → storage_of n !! lc = Some o → slot_takes h o k →
  0 < k ≤ Z.of_nat (length (tokens_of n)) →
  ∃ p h', convert_to_committed l lc k h = (Ok p, h') ∧ wf h' ∧
    nodes h' !! l = Some (set_storage n (<[lc := Some p]> (storage_of n))).
Proof.
  intros [Hlk Hsb Hpg] Hl Hs Ho Hk. unfold convert_to_committed.
  rewrite (bind_ok _ _ _ _ _ (can_replace_run _ _ _ _ _ _ Hl Hs Ho)).
  rewrite (bind_ok (assert_ true) _ h () h) by done. rewrite (bind_ok _ _ _ _ _ (node_ok_run _ _ _ Hl)).
  rewrite (bind_ok (assert_ _) _ h () h)
    by (unfold assert_, lift; by rewrite (proj2 (Z.ltb_lt _ _)), (proj2 (Z.leb_le _ _)) by lia).
  rewrite (bind_ok get _ h h h) by done. assert (Hp : pages h !! fresh (dom (pages h)) = None)
    by apply not_elem_of_dom, is_fresh.
  set (p := fresh _) in *. set (pg := mkPage _ _ _ _ _). set (h1 := with_pages h _).
  rewrite (bind_ok (put _) _ h () h1) by done.
  assert (Hok1 : pages_ok {[ p ]} h1) by (by apply page_transit).
  assert (Hp1 : pages h1 !! p = Some pg) by (cbn; by rewrite lookup_insert_eq).
  assert (Ho1 : slot_takes h1 o (num_tokens_in_block pg)).
  { destruct o as [e|]; [|done]. destruct Ho as (ep & He & Hlt). exists ep. cbn. rewrite lookup_insert_ne; [done|].
    intros <-. congruence. }
  rewrite (bind_ok _ _ _ _ _ (replace_page_run h1 l n lc o p pg Hok1 Hl Hs Hp1 Ho1)).
  destruct (replaced_nodes h1 l n lc o p pg Hl Hs Ho1) as (Hn & Ht & _).
  exists p. eexists. split; [done|]. split; [|by rewrite Hn, lookup_insert_eq].
  assert (He : erase <$> nodes (replaced h1 l n lc p pg) = erase <$> nodes h)
    by (rewrite Hn; apply erase_insert; [done|by rewrite length_insert]).
  split; [rewrite Ht; by eapply links_erase|by eapply siblings_erase|by eapply replaced_pages].
Qed.

(** ** Dropping a page *)

Lemma drop_in_orphan X (ps : gmap loc CommittedPage) p pg :
  ps !! p = Some pg → p_block pg = None → (drop_in X <$> ps) !! p = Some pg.
Proof. intros Hp Hb. rewrite lookup_fmap, Hp. cbn. unfold drop_in. by rewrite Hb. Qed.

Lemma is_root_load n : is_root n = true ↔ ∃ s, n_load n = Root s.
Proof. unfold is_root. destruct (n_load n); naive_solver. Qed.

Lemma clear_stale_loop_wf attached lc fuel : ∀ h l n,
  wf h → nodes h !! l = Some n → (lc < nlc)%nat → (Z.to_nat (ordinal_of n + 1) ≤ fuel)%nat →
  ∃ h', clear_stale_loop event_manager fuel attached lc l h = (Ok (), h') ∧ wf h' ∧ pages h' = pages h.
Proof.
  induction fuel as [|fuel IH]; intros h l n Hwf Hl Hlc Hf; cbn [clear_stale_loop];
    rewrite (bind_ok _ _ _ _ _ (node_ok_run _ _ _ Hl)); pose proof (wf_links _ _ _ _ Hwf) as Hlk;
    pose proof (lk_node _ _ _ _ _ Hlk l n Hl) as [_ H2]; unfold ordinal_of in Hf;
    destruct (n_load n) as [s|ts o st] eqn:Hld; [by exists h|lia|by exists h|].
  destruct H2 as (_ & _ & Hst & _). destruct (lookup_lt_is_Some_2 st lc) as [pg Hpg]; [lia|].
  rewrite (bind_ok _ _ h pg h) by (eapply get_page_run; [done|unfold storage_of; by rewrite Hld]).
  destruct pg as [pg|]; [by exists h|]. destruct (n_next n) as [|kc rest] eqn:Hnx; [|by exists h].
  destruct (n_prev n) as [[|p]|] eqn:Hp; [by exists h| |by exists h].
  destruct (child_block _ _ _ _ _ Hlk l n p Hl Hp) as (ts' & o' & st' & m & Hb & Hm & Ho & _).
  rewrite Hld in Hb. injection Hb as <- <- <-.
  rewrite (bind_ok _ _ _ _ _ (detach_next_run _ _ _ h p l m n Hlk Hm Hl Hp)).
  rewrite (bind_ok (assert_ _) _ _ () (detached h p m l n)) by (unfold assert_, lift; by rewrite bool_decide_true).
  rewrite (bind_ok _ _ _ _ _ (notify_run event_manager attached _ _)).
  assert (Hwf' : wf (detached h p m l n)) by (eapply detached_wf; try done; apply Hwf).
  assert (Hne : p ≠ l) by (eapply (child_ne _ _ _ h p l m n); done).
  edestruct (IH (mkHeap (nodes (detached h p m l n)) (pages (detached h p m l n)) (t_next (detached h p m l n))
    (events (detached h p m l n) ++ (if attached && event_manager then [add_removed_event [n_key n]] else [])))
    p) as (h' & Hrun & Hw & Hpg').
  - by apply wf_events.
  - cbn. rewrite (detached_lookup _ p m) by done. by rewrite decide_True.
  - done.
  - cbn. unfold ordinal_of in *. cbn. lia.
  - exists h'. split; [done|]. split; [done|]. rewrite Hpg'. cbn. unfold detached. by destruct (is_root m && _).
Qed.

Lemma clear_stale_wf h l n lc cyc p pg :
  wf h → nodes h !! l = Some n → is_root n = false → storage_of n !! lc = Some None →
  pages h !! p = Some pg → p_block pg = None →
  ∃ h', clear_stale_blocks_after_page_unlink nlc event_manager l lc cyc h = (Ok (), h') ∧ wf h' ∧
    pages h' !! p = Some pg.
Proof.
  intros Hwf Hl Hr Hs Hp Hb. pose proof (wf_links _ _ _ _ Hwf) as Hlk. unfold clear_stale_blocks_after_page_unlink.
  rewrite (bind_ok _ _ _ _ _ (get_page_run _ _ _ _ _ Hl Hs)), (bind_ok (assert_ _) _ h () h) by done.
  rewrite (bind_ok _ _ _ _ _ (node_ok_run _ _ _ Hl)), (bind_ok _ _ _ _ _ (try_get_tree_run _ _ _ _ Hlk _ _ Hl)).
  assert (Hlc : (lc < nlc)%nat).
  { pose proof (lk_node _ _ _ _ _ Hlk l n Hl) as [_ H2]. unfold is_root, storage_of in *.
    destruct (n_load n); [done|]. destruct H2 as (_ & _ & <- & _). by eapply lookup_lt_Some. }
  set (remove := match cyc with Attn a => _ | Ssm => _ end).
  assert (∃ h1 n1, (if remove then remove_subtree nlc event_manager l
      else notify event_manager (bool_decide (is_Some (n_prev n))) (add_removed_life_cycle_event (n_key n) lc)) h = (Ok (), h1) ∧
    wf h1 ∧ nodes h1 !! l = Some n1 ∧ ordinal_of n1 = ordinal_of n ∧ pages h1 !! p = Some pg) as (h1 & n1 & Hrun & Hw & Hl1 & Ho & Hp1).
  { destruct remove.
    - destruct (remove_subtree_spec h l n Hwf Hl Hr) as (L & h1 & Hrun & (_ & _ & HL) & Hg & _).
      exists h1, (gone n). split; [done|]. split; [apply Hg|]. split; [apply (sg_gone _ _ _ _ _ _ _ _ Hg); [apply HL; constructor|done]|].
      split; [|rewrite (sg_pages _ _ _ _ _ _ _ _ Hg); by apply drop_in_orphan].
      destruct n as [k pr nx [sc|ts o st]]; done.
    - rewrite notify_run. do 2 eexists. split; [done|]. split; [by apply wf_events|]. done. }
  rewrite (bind_ok _ _ _ _ _ Hrun).
  destruct (clear_stale_loop_wf (bool_decide (is_Some (n_prev n))) lc (Z.to_nat (ordinal_of n + 1)) h1 l n1 Hw Hl1 Hlc)
    as (h' & Hrun' & Hw' & Hpg'); [by rewrite Ho|]. exists h'. split; [done|]. split; [done|]. by rewrite Hpg'.
Qed.

Lemma delete_page_wf h p pg :
  wf h → pages h !! p = Some pg → p_block pg = None → wf (with_pages h (delete p (pages h))).
Proof.
  intros [H1 H2 [H3 H4]] Hp Hb. split; [done|done|]. split; cbn.
  - intros l n lc q Hl Hs. destruct (H3 l n lc q Hl Hs) as (HX & pg' & Hq & Hbq & Hlc). split; [done|]. exists pg'.
    rewrite lookup_delete_ne; [done|]. intros <-. congruence.
  - intros q pg' l Hq HX Hbq. apply lookup_delete_Some in Hq as [_ Hq]. by apply (H4 q pg' l).
Qed.

Lemma page_del_wf life_cycles h p pg :
  wf h → length life_cycles = nlc → pages h !! p = Some pg → p_status pg = DROPPABLE →
  scheduled_for_eviction pg = false →
  ∃ h', page_del nlc event_manager life_cycles p h = (Ok (), h') ∧ wf h' ∧ pages h' !! p = None.
Proof.
  intros Hwf Hlcs Hp Hst Hsc. unfold page_del. rewrite (bind_ok _ _ _ _ _ (page_run _ _ _ Hp)).
  assert (∃ h1 pg1, (match p_block pg with
      | None => mret ()
      | Some b => r ← unlink_page b (p_life_cycle pg) (Some p);
          match r with
          | None => mret ()
          | Some _ => lc ← lift (of_option IndexError (life_cycles !! p_life_cycle pg));
              clear_stale_blocks_after_page_unlink nlc event_manager b (p_life_cycle pg) lc
          end
      end) h = (Ok (), h1) ∧ wf h1 ∧ pages h1 !! p = Some pg1 ∧ p_block pg1 = None) as (h1 & pg1 & Hrun & Hw & Hp1 & Hb1).
  { destruct (p_block pg) as [b|] eqn:Hb; [|by exists h, pg].
    destruct Hwf as [Hlk Hsb Hpg]. destruct (pk_page _ _ Hpg p pg b Hp) as (n & Hn & Hs & _); [set_solver|done|].
    rewrite (bind_ok _ _ _ _ _ (unlink_page_run h b n _ p pg (Some p) Hn Hs Hp ltac:(by right))).
    assert (Hr : is_root n = false ∧ length (storage_of n) = nlc).
    { pose proof (lk_node _ _ _ _ _ Hlk b n Hn) as [_ H2]. unfold is_root, storage_of in *. destruct (n_load n); [done|].
      by destruct H2 as (_ & _ & ? & _). }
    destruct Hr as [Hr Hlen]. pose proof (lookup_lt_Some _ _ _ Hs) as Hlt.
    destruct (lookup_lt_is_Some_2 life_cycles (p_life_cycle pg)) as [cyc Hcyc]; [lia|].
    rewrite (bind_ok (lift _) _ _ cyc (unlinked h b n (p_life_cycle pg) p (set_block pg None)))
      by (unfold lift; by rewrite Hcyc).
    assert (Hw : wf (unlinked h b n (p_life_cycle pg) p (set_block pg None))).
    { assert (He : erase <$> nodes (unlinked h b n (p_life_cycle pg) p (set_block pg None)) = erase <$> nodes h)
        by (apply erase_insert; [done|by rewrite length_insert]).
      split; [by eapply links_erase|by eapply siblings_erase|by apply unlinked_pages]. }
    destruct (clear_stale_wf _ b (set_storage n (<[p_life_cycle pg := None]> (storage_of n)))
      (p_life_cycle pg) cyc p (set_block pg None) Hw) as (h1 & Hrun & Hw1 & Hp1).
    - cbn. by rewrite lookup_insert_eq.
    - by destruct n as [k pr nx [sc|ts o st]].
    - rewrite (storage_set _ _ _ _ Hs). by apply list_lookup_insert_eq.
    - cbn. by rewrite lookup_insert_eq.
    - done.
    - by exists h1, (set_block pg None). }
  exists (with_pages h1 (delete p (pages h1))). split; [|split; [by eapply delete_page_wf|cbn; by rewrite lookup_delete_eq]].
  rewrite (bind_ok _ _ _ _ _ Hrun), Hst, Hsc. by rewrite bool_decide_true.
Qed.

(** ** The end of a block *)

Lemma delete_node_wf h l n :
  wf h → nodes h !! l = Some n → n_prev n = None → (∀ i x, storage_of n !! i = Some x → x = None) →
  wf (with_nodes h (delete l (nodes h))).
Proof.
  intros [Hlk Hsb Hpg] Hl Hp Hs. assert (Hx : n_next n = []) by (by eapply orphan_leaf).
  assert (Hnext : ∀ q, next_list (delete l (nodes h)) (t_next h) q = next_list (nodes h) (t_next h) q).
  { intros [|x]; [done|]. cbn. destruct (decide (x = l)) as [->|]; [|by rewrite lookup_delete_ne].
    by rewrite lookup_delete_eq, Hl, Hx. }
  split; [split|..].
  - intros q k x. cbn. rewrite Hnext, (lk_next _ _ _ _ _ Hlk). split.
    + intros (m & Hm & Hq & Hk). exists m. split; [|done]. rewrite lookup_delete_ne; [done|]. intros <-. congruence.
    + intros (m & [_ Hm]%lookup_delete_Some & ?). by exists m.
  - intros q. cbn. rewrite Hnext. apply (lk_nodup _ _ _ _ _ Hlk).
  - cbn. intros x m [Hne Hm]%lookup_delete_Some. pose proof (lk_node _ _ _ _ _ Hlk x m Hm) as [H1 H2]. split; [|done].
    destruct (n_load m) as [s|ts o st] eqn:Hld, (n_prev m) as [[|y]|] eqn:Hpm; try done.
    destruct H1 as (m0 & Hm0 & Ho). exists m0. split; [|done]. cbn. rewrite lookup_delete_ne; [done|]. intros <-.
    destruct (child_block _ _ _ _ _ Hlk x m l Hm Hpm) as (_ & _ & _ & m1 & _ & Hm1 & _ & _ & _ & [? Hs1]). congruence.
  - cbn. intros x x' m m' q [_ Hx1]%lookup_delete_Some [_ Hx2]%lookup_delete_Some. by eapply Hsb.
  - destruct Hpg as [P1 P2]. split; cbn.
    + intros x m lc p [_ Hm]%lookup_delete_Some. by apply P1.
    + intros p pg x Hpg HX Hb. destruct (P2 p pg x Hpg HX Hb) as (m & Hm & Hms & Ht). exists m.
      rewrite lookup_delete_ne; [done|]. intros <-. assert (m = n) as -> by congruence. by apply Hs in Hms.
Qed.

Lemma block_del_wf h l n :
  wf h → nodes h !! l = Some n → n_prev n = None → is_root n = false →
  ∃ h', block_del nlc l h = (Ok (), h') ∧ wf h' ∧ nodes h' !! l = None.
Proof.
  intros Hwf Hl Hp Hr. unfold block_del.
  rewrite (bind_ok _ _ _ _ _ (release_pages_run nlc h l n (wf_pages _ _ _ _ Hwf) Hl Hr)).
  eexists. split; [done|]. split; [|cbn; by rewrite lookup_delete_eq].
  eapply (delete_node_wf (released h l n) l (empty_storage n)).
  - by apply released_wf.
  - cbn. by rewrite lookup_insert_eq.
  - by destruct (empty_key n) as (_ & -> & _).
  - unfold empty_storage, storage_of, set_storage. destruct n as [k pr nx [sc|ts o st]]; cbn; [done|].
    by intros i x [? _]%lookup_replicate.
Qed.
End reach.
