(* ===== verification/RadixTreeClear.v ===== *)
(** * Clearing the tree, and all sequences of operations *)

From S2P Require Import Prelude LifeCycle CacheKey RadixTree RadixTreeInv RadixTreeOps.
From S2P Require Import RadixTreeRemove RadixTreeInsert RadixTreeProps RadixTreeReach.

Local Open Scope Z_scope.

Section clear.
Context (sha256 : bytes → bytes) (tpb : Z) (nlc : nat) (event_manager : bool).
Abbreviation links_ok := (links_ok sha256 tpb nlc).
Abbreviation wf := (wf sha256 tpb nlc).

(** Every root of the tree has a block. *)
Definition no_empty_root (h : heap) : Prop :=
  ∀ k r, (k, r) ∈ t_next h → ∃ n, nodes h !! r = Some n ∧ n_next n ≠ [].

Lemma root_child h r n k b :
  wf h → nodes h !! r = Some n → (k, b) ∈ n_next n →
  ∃ c, nodes h !! b = Some c ∧ n_prev c = Some (Under r) ∧ n_key c = k ∧ is_root c = false.
Proof.
  intros Hwf Hr Hin. pose proof (wf_links _ _ _ _ Hwf) as Hlk.
  destruct (child_nodes _ _ _ h Hlk r n k b Hr Hin) as (c & Hc & Hp & Hk). exists c. repeat split; try done.
  by eapply leaf_is_block.
Qed.

Lemma is_root_ord ns l n : ns !! l = Some n → is_root n = true → ord ns l = -1.
Proof. intros Hl Hr. unfold ord. rewrite Hl. cbn. unfold is_root, ordinal_of in *. by destruct (n_load n). Qed.

Lemma clear_root_run fuel : ∀ h r n,
  wf h → nodes h !! r = Some n → is_root n = true → n_prev n = Some InTree → n_next n ≠ [] →
  (length (n_next n) ≤ fuel)%nat →
  ∃ h', clear_root nlc event_manager fuel r h = (Ok (), h') ∧ wf h' ∧ t_next h' = dict_pop (n_key n) (t_next h) ∧
    ∀ x m, x ≠ r → nodes h !! x = Some m → is_root m = true → nodes h' !! x = Some m.
Proof.
  induction fuel as [|fuel IH]; intros h r n Hwf Hr Hroot Hp Hne Hf.
  { destruct (n_next n); [done|cbn in Hf; lia]. }
  pose proof (wf_links _ _ _ _ Hwf) as Hlk. cbn [clear_root]. rewrite (bind_ok _ _ _ _ _ (node_ok_run _ _ _ Hr)).
  destruct (n_next n) as [|[k b] rest] eqn:Hnx; [done|].
  destruct (root_child h r n k b Hwf Hr) as (c & Hc & Hcp & <- & Hcr); [rewrite Hnx; left|].
  destruct (remove_subtree_spec _ _ _ event_manager h b c Hwf Hc Hcr) as (L & h1 & Hrun & (_ & _ & HL) & Hg & _).
  rewrite (bind_ok _ _ _ _ _ Hrun). destruct Hg as [W1 G1 Par1 Same1 _ Roots1].
  destruct (Par1 r n Hcp Hr) as (pr & Hr1 & Hpr). rewrite Hcp, Hr, Hroot in Roots1. rewrite Hnx in *.
  assert (Hpop : dict_pop (n_key c) ((n_key c, b) :: rest) = rest) by (cbn; by rewrite bool_decide_true).
  rewrite Hpop in *.
  assert (Hothers : ∀ x m, x ≠ r → nodes h !! x = Some m → is_root m = true → nodes h1 !! x = Some m).
  { intros x m Hxr Hx Hxm. rewrite Same1; [done| |congruence]. intros HxL. apply HL in HxL.
    apply (below_ord _ _ _ _ _ Hlk) in HxL as [Hord _]. rewrite (is_root_ord _ _ _ Hx Hxm) in Hord.
    rewrite (up_ord _ _ _ _ _ Hlk b r) in Hord by (by exists c). rewrite (is_root_ord _ _ _ Hr Hroot) in Hord. lia. }
  destruct rest as [|kb rest].
  - exists h1. split; [|done]. destruct fuel; cbn [clear_root]; by rewrite (bind_ok _ _ _ _ _ (node_ok_run _ _ _ Hr1)).
  - destruct (IH h1 r _ W1 Hr1) as (h' & Hrun' & W' & Roots' & Others'); [done| |done|cbn in *; lia|].
    + cbn. rewrite Hpr by (right; done). done.
    + exists h'. split; [done|]. split; [done|]. split; [by rewrite Roots', Roots1|].
      intros x m Hxr Hx Hxm. by apply Others', Hxm; [|apply Hothers].
Qed.

Lemma root_entry h k r : wf h → (k, r) ∈ t_next h →
  ∃ n, nodes h !! r = Some n ∧ is_root n = true ∧ n_prev n = Some InTree ∧ n_key n = k.
Proof.
  intros Hwf Hin. pose proof (wf_links _ _ _ _ Hwf) as Hlk.
  apply (lk_next _ _ _ _ _ Hlk InTree) in Hin as (n & Hn & Hp & Hk). exists n. repeat split; try done.
  pose proof (lk_node _ _ _ _ _ Hlk r n Hn) as [H1 _]. rewrite Hp in H1. unfold is_root. by destruct (n_load n).
Qed.

(** One turn of the outer loop removes the first root, when it has blocks. *)
Lemma clear_first_root h k r n rest :
  wf h → t_next h = (k, r) :: rest → nodes h !! r = Some n → n_next n ≠ [] →
  ∃ h1, clear_root nlc event_manager (size (nodes h)) r h = (Ok (), h1) ∧ wf h1 ∧ t_next h1 = rest ∧
    ∀ k' r' m, (k', r') ∈ rest → nodes h !! r' = Some m → nodes h1 !! r' = Some m.
Proof.
  intros Hwf Hd Hn Hne. pose proof (wf_links _ _ _ _ Hwf) as Hlk.
  destruct (root_entry h k r Hwf) as (n' & Hn' & Hr & Hp & Hk); [rewrite Hd; left|]. assert (n' = n) as -> by congruence.
  destruct (clear_root_run (size (nodes h)) h r n Hwf Hn Hr Hp Hne) as (h1 & Hrun & W1 & Roots1 & Others1).
  { rewrite <- (length_fmap snd). apply length_le_size; [by eapply children_nodup|].
    intros x (m & Hm & _)%(children_locs _ _ _ _ _ Hlk r n Hn). by eexists. }
  rewrite Hd, Hk in Roots1. cbn in Roots1. rewrite bool_decide_true in Roots1 by done.
  exists h1. split_and!; [done..|]. intros k' r' m Hin Hm.
  destruct (root_entry h k' r' Hwf) as (m' & Hm' & Hmr & _ & Hmk); [rewrite Hd; by right|]. assert (m' = m) as -> by congruence.
  apply Others1; [|done|done]. intros ->. assert (m = n) as -> by congruence.
  pose proof (lk_nodup _ _ _ _ _ Hlk InTree) as Hnd. cbn in Hnd. rewrite Hd in Hnd. cbn in Hnd.
  apply NoDup_cons in Hnd as [Hnd _]. apply Hnd. apply list_elem_of_fmap. exists (k', r). split; [cbn; congruence|done].
Qed.

Lemma clear_loop_run fuel : ∀ h,
  wf h → no_empty_root h → (length (t_next h) ≤ fuel)%nat →
  ∃ h', clear_loop nlc event_manager fuel h = (Ok (), h') ∧ wf h' ∧ t_next h' = [].
Proof.
  induction fuel as [|fuel IH]; intros h Hwf Hroots Hf; cbn [clear_loop];
    rewrite (bind_ok (gets t_next) _ h (t_next h) h) by done; destruct (t_next h) as [|[k r] rest] eqn:Hd;
    [by exists h|cbn in Hf; lia|by exists h|].
  rewrite (bind_ok get _ h h h) by done. destruct (Hroots k r) as (n & Hn & Hne); [rewrite Hd; left|].
  destruct (clear_first_root h k r n rest Hwf Hd Hn Hne) as (h1 & Hrun & W1 & Roots1 & Others1).
  rewrite (bind_ok _ _ _ _ _ Hrun). apply IH; [done| |rewrite Roots1; cbn in Hf; lia].
  intros k' r' Hin. rewrite Roots1 in Hin. destruct (Hroots k' r') as (m & Hm & Hmne); [rewrite Hd; by right|]. eauto.
Qed.

(** A root without blocks is never removed: the roots in front of it go, and
    then the loop looks at it for ever. *)
Lemma clear_loop_spins turns : ∀ h k r n,
  wf h → (k, r) ∈ t_next h → nodes h !! r = Some n → n_next n = [] →
  ∃ h', clear_loop nlc event_manager turns h = (Raise OutOfFuel, h') ∧ wf h' ∧ (k, r) ∈ t_next h'.
Proof.
  induction turns as [|turns IH]; intros h k r n Hwf Hin Hn Hnx; cbn [clear_loop];
    rewrite (bind_ok (gets t_next) _ h (t_next h) h) by done; destruct (t_next h) as [|[k0 r0] rest] eqn:Hd;
    try by apply elem_of_nil in Hin.
  { exists h. by rewrite Hd. }
  rewrite (bind_ok get _ h h h) by done. destruct (root_entry h k0 r0 Hwf) as (n0 & Hn0 & _); [rewrite Hd; left|].
  destruct (decide (n_next n0 = [])) as [He|Hne].
  - rewrite (bind_ok _ _ h () h); [eapply (IH h k r n); try done; by rewrite Hd|].
    destruct (size (nodes h)); cbn [clear_root]; rewrite (bind_ok _ _ _ _ _ (node_ok_run _ _ _ Hn0)); by rewrite He.
  - destruct (clear_first_root h k0 r0 n0 rest Hwf Hd Hn0 Hne) as (h1 & Hrun & W1 & Roots1 & Others1).
    rewrite (bind_ok _ _ _ _ _ Hrun). apply elem_of_cons in Hin as [[= -> ->]|Hin]; [congruence|].
    apply (IH h1 k r n); [done|by rewrite Roots1|by eapply Others1|done].
Qed.

Lemma orphans_only h : wf h → t_next h = [] → ∀ l n, nodes h !! l = Some n → n_prev n = None.
Proof.
  intros Hwf Hd. pose proof (wf_links _ _ _ _ Hwf) as Hlk.
  assert (H : ∀ k l n, nodes h !! l = Some n → (Z.to_nat (ordinal_of n + 1) ≤ k)%nat → n_prev n = None).
  { induction k as [|k IH]; intros l n Hl Hk; destruct (n_prev n) as [[|p]|] eqn:Hp; try done.
    all: try (assert (Hin : (n_key n, l) ∈ next_list (nodes h) (t_next h) InTree) by (apply (lk_next _ _ _ _ _ Hlk); by exists n);
      cbn in Hin; rewrite Hd in Hin; by apply not_elem_of_nil in Hin).
    all: destruct (child_block _ _ _ _ _ Hlk l n p Hl Hp) as (ts & o & st & m & Hb & Hm & Ho & _ & _ & [? Hs]).
    all: pose proof (node_ordinal _ _ _ _ _ Hlk p m Hm); unfold ordinal_of in Hk at 1; rewrite Hb in Hk.
    - lia.
    - rewrite (IH p m Hm) in Hs; [done|]. lia. }
  intros l n Hl. by eapply (H (Z.to_nat (ordinal_of n + 1))).
Qed.

Lemma clear_run h : wf h → no_empty_root h →
  ∃ h', clear nlc event_manager h = (Ok (), h') ∧ wf h' ∧ t_next h' = [].
Proof.
  intros Hwf Hroots. destruct (clear_loop_run (size (nodes h)) h Hwf Hroots) as (h' & Hrun & W & Hd).
  { rewrite <- (length_fmap snd). pose proof (wf_links _ _ _ _ Hwf) as Hlk. apply length_le_size.
    - apply NoDup_snd; [apply (lk_nodup _ _ _ _ _ Hlk InTree)|]. intros k k' x H1 H2.
      apply (lk_next _ _ _ _ _ Hlk InTree) in H1 as (m & Hm & _ & <-), H2 as (m' & Hm' & _ & <-). congruence.
    - intros x ([k y] & -> & Hin)%list_elem_of_fmap. destruct (root_entry h k y Hwf Hin) as (n & Hn & _). by eexists. }
  exists h'. split; [|done]. unfold clear. rewrite (bind_ok get _ h h h), (bind_ok _ _ _ _ _ Hrun) by done.
  rewrite (bind_ok (gets t_next) _ h' (t_next h') h') by done. by rewrite Hd.
Qed.

(** C38: [clear] ends with an empty tree when every root has a block: no node
    is left in the tree and the invariant holds.  A root without blocks,
    wherever it is among the roots ([add_or_get_existing] leaves one behind
    when building the first block fails), makes the loop spin: no number of
    turns is enough, and the root stays in the tree. *)
Theorem clear_empties_tree h :
  wf h →
  (no_empty_root h →
   ∃ h', clear nlc event_manager h = (Ok (), h') ∧ wf h' ∧ t_next h' = [] ∧
     ∀ l n, nodes h' !! l = Some n → n_prev n = None) ∧
  (∀ k r n, (k, r) ∈ t_next h → nodes h !! r = Some n → n_next n = [] →
   ∀ turns, ∃ h', clear_loop nlc event_manager turns h = (Raise OutOfFuel, h') ∧ wf h' ∧ (k, r) ∈ t_next h').
Proof.
  intros Hwf. split.
  - intros Hroots. destruct (clear_run h Hwf Hroots) as (h' & Hrun & W & Hd). exists h'.
    split; [done|]. split; [done|]. split; [done|]. by apply orphans_only.
  - intros k r n Hin Hn Hnx turns. by apply (clear_loop_spins turns h k r n).
Qed.

(** ** Sequences of operations *)

(** [Hold] is what holders, locks and the eviction controller do to a page;
    [Collect] is the end of a block nobody refers to any more. *)
Inductive op :=
| NewRoot (reuse_scope : ReuseScope)
| NewBlock (tokens : list TokenIdExt) (par : loc)
| Commit (l : loc) (lc_idx : nat) (num_tokens : Z)
| Hold (p : loc) (status : PageStatus) (scheduled : bool)
| DropPage (p : loc)
| RemoveSubtree (r : loc)
| Collect (l : loc)
| Clear.

Context (life_cycles : list LifeCycle) (Hlcs : length life_cycles = nlc).

Definition run_op (o : op) : M heap () :=
  match o with
  | NewRoot s => add_or_get_existing sha256 s;; mret ()
  | NewBlock ts par => block_init sha256 tpb nlc event_manager ts par;; mret ()
  | Commit l lc k => convert_to_committed l lc k;; mret ()
  | Hold p s b => set_page p (λ pg, mkPage (p_block pg) (p_life_cycle pg) (num_tokens_in_block pg) s b)
  | DropPage p => page_del nlc event_manager life_cycles p
  | RemoveSubtree r => remove_subtree nlc event_manager r
  | Collect l => block_del nlc l
  | Clear => clear nlc event_manager
  end.

(** What the callers see to. *)
Definition allowed (h : heap) (o : op) : Prop :=
  match o with
  | NewRoot s => ∃ k, root_key sha256 s = Ok k
  | NewBlock ts par => ∃ pn key, nodes h !! par = Some pn ∧ is_Some (n_prev pn) ∧
      (is_root pn = false → Z.of_nat (length (tokens_of pn)) = tpb) ∧
      0 < Z.of_nat (length ts) ≤ tpb ∧ make_key sha256 (n_key pn) ts = Ok key
  | Commit l lc k => ∃ n o, nodes h !! l = Some n ∧ storage_of n !! lc = Some o ∧ slot_takes h o k ∧
      0 < k ≤ Z.of_nat (length (tokens_of n))
  | Hold p _ _ => True
  | DropPage p => ∃ pg, pages h !! p = Some pg ∧ p_status pg = DROPPABLE ∧ scheduled_for_eviction pg = false
  | RemoveSubtree r => ∃ n, nodes h !! r = Some n ∧ is_root n = false
  | Collect l => ∃ n, nodes h !! l = Some n ∧ n_prev n = None ∧ is_root n = false
  | Clear => no_empty_root h
  end.

Inductive reachable : heap → Prop :=
| reachable_init : reachable empty_heap
| reachable_step h o h' : reachable h → allowed h o → run_op o h = (Ok (), h') → reachable h'.

Lemma hold_wf h p s b : wf h →
  wf (with_pages h (alter (λ pg, mkPage (p_block pg) (p_life_cycle pg) (num_tokens_in_block pg) s b) p (pages h))).
Proof.
  intros [H1 H2 [H3 H4]]. split; [done|done|]. split; cbn.
  - intros l n lc q Hl Hs. destruct (H3 l n lc q Hl Hs) as (HX & pg & Hq & Hb & Hlc). split; [done|].
    destruct (decide (q = p)) as [->|]; [|exists pg; by rewrite lookup_alter_ne].
    rewrite lookup_alter_eq, Hq. by eexists.
  - intros q pg l Hq HX Hb. destruct (decide (q = p)) as [->|]; [|rewrite lookup_alter_ne in Hq by done; by apply (H4 q pg l)].
    rewrite lookup_alter_eq in Hq. destruct (pages h !! p) as [pg0|] eqn:Hp; [|done]. injection Hq as <-.
    by apply (H4 p pg0 l).
Qed.

Lemma run_op_wf h o : wf h → allowed h o → ∃ h', run_op o h = (Ok (), h') ∧ wf h'.
Proof.
  intros Hwf Ha. destruct o as [s|ts par|l lc k|p s b|p|r|l|]; cbn in Ha |- *.
  - destruct Ha as [k Hk]. destruct (add_root_wf _ _ _ h s k Hwf Hk) as (r & h' & Hrun & W & _).
    exists h'. by rewrite (bind_ok _ _ _ _ _ Hrun).
  - destruct Ha as (pn & key & H1 & H2 & H3 & H4 & H5).
    destruct (block_init_spec sha256 tpb nlc event_manager h par pn ts key) as [(b & Hrun & _)|(l & h' & Hrun & _ & _ & W & _)];
      [by split|..]; eexists; by rewrite (bind_ok _ _ _ _ _ Hrun).
  - destruct Ha as (n & o & H1 & H2 & H3 & H4). destruct (convert_wf _ _ _ h l n lc o k Hwf H1 H2 H3 H4) as (p & h' & Hrun & W & _).
    exists h'. by rewrite (bind_ok _ _ _ _ _ Hrun).
  - eexists. split; [done|]. by apply hold_wf.
  - destruct Ha as (pg & H1 & H2 & H3).
    destruct (page_del_wf _ _ _ event_manager life_cycles h p pg Hwf Hlcs H1 H2 H3) as (h' & ? & ? & _). by exists h'.
  - destruct Ha as (n & H1 & H2). destruct (remove_subtree_spec _ _ _ event_manager h r n Hwf H1 H2) as (L & h' & Hrun & _ & Hg & _).
    exists h'. split; [done|apply Hg].
  - destruct Ha as (n & H1 & H2 & H3). destruct (block_del_wf _ _ _ h l n Hwf H1 H2 H3) as (h' & ? & ? & _). by exists h'.
  - destruct (clear_run h Hwf Ha) as (h' & ? & ? & _). by exists h'.
Qed.

Lemma tree_reachable_wf h : reachable h → wf h.
Proof.
  induction 1 as [|h o h' Hr IH Ha Hrun]; [apply empty_wf|].
  destruct (run_op_wf h o IH Ha) as (h2 & Hrun2 & W). congruence.
Qed.

(** C15: from an empty tree, whatever sequence of operations within the
    callers' obligations is run (new roots and blocks, page commits, page
    drops with the clean-up they trigger, removals, clearing, and anything
    holders do to pages in between), the invariant holds and the next such
    operation ends without an exception: links up and down agree, keys are
    the hashes of what they lead to, no block covers a sibling, blocks with
    children are full, blocks and pages refer to each other, and a page
    covers at most its block. *)
Theorem reachable_tree_wf h :
  reachable h → wf h ∧ ∀ o, allowed h o → ∃ h', run_op o h = (Ok (), h') ∧ reachable h'.
Proof.
  intros Hr. pose proof (tree_reachable_wf h Hr) as Hwf. split; [done|]. intros o Ha. destruct (run_op_wf h o Hwf Ha) as (h' & Hrun & _). exists h'. split; [done|].
  by eapply reachable_step.
Qed.
End clear.
