(* ===== verification/RadixTreeMatch.v ===== *)
(** * The matcher on the tree in memory

    The objects of the tree seen as the tree the matcher walks, and that
    every block in the tree is found by its own tokens. *)

From S2P Require Import Prelude LifeCycle CacheKey RadixMatch.
From S2P Require Import RadixTree RadixTreeInv RadixTreeOps RadixTreeRemove RadixTreeInsert.
From S2P Require Import RadixTreeProps RadixTreeReach RadixTreeClear.

Local Open Scope Z_scope.

(** ** The view of the matcher *)

Definition view_storage (h : heap) (n : Node) : list (option Z) :=
  (λ o, p ← o; num_tokens_in_block <$> pages h !! p) <$> storage_of n.

Fixpoint view_block (depth : nat) (h : heap) (l : loc) : Block :=
  match nodes h !! l with
  | Some n => mkBlock (n_key n) (tokens_of n) (view_storage h n)
      (match depth with
       | O => []
       | S depth => (λ kc, (kc.1, view_block depth h kc.2)) <$> n_next n
       end)
  | None => mkBlock [] [] [] []
  end.

Definition view_root (h : heap) (l : loc) : RootBlock :=
  match nodes h !! l with
  | Some n => mkRoot (n_key n) (match n_load n with Root s => s | Blk _ _ _ => mkScope None None end)
      ((λ kc, (kc.1, view_block (size (nodes h)) h kc.2)) <$> n_next n)
  | None => mkRoot [] (mkScope None None) []
  end.

(** No chain of blocks is longer than the number of nodes, so the view cuts
    nothing off. *)
Definition view_tree (life_cycles : LifeCycleRegistry) (tpb : nat) (h : heap) : BlockRadixTree :=
  mkTree life_cycles tpb ((λ kr, (kr.1, view_root h kr.2)) <$> t_next h).

(** What the matcher says of a block. *)
Definition found (b : Block * Z) : bytes * list TokenIdExt * list (option Z) * Z :=
  (block_key b.1, block_tokens b.1, block_storage b.1, b.2).

Definition expected (h : heap) (l : loc) : bytes * list TokenIdExt * list (option Z) * Z :=
  match nodes h !! l with
  | Some n => (n_key n, tokens_of n, view_storage h n, Z.of_nat (length (tokens_of n)))
  | None => ([], [], [], 0)
  end.

(** [bs] is a path of blocks down from [p]. *)
Fixpoint path_below (ns : gmap loc Node) (p : loc) (bs : list loc) : Prop :=
  match bs with
  | [] => True
  | b :: bs => up ns b p ∧ path_below ns b bs
  end.

Definition path_tokens (ns : gmap loc Node) (bs : list loc) : list TokenIdExt :=
  List.concat ((λ b, from_option tokens_of [] (ns !! b)) <$> bs).

Lemma dict_get_view {A B} (f : A → B) k (d : list (bytes * A)) :
  RadixMatch.dict_get k ((λ kc, (kc.1, f kc.2)) <$> d) = f <$> RadixTree.dict_get k d.
Proof. induction d as [|[k' a] d IH]; cbn; [done|]. by case_bool_decide. Qed.

Section view.
Context (sha256 : bytes → bytes) (tpb : nat) (nlc : nat).
Context (h : heap) (Hwf : wf sha256 (Z.of_nat tpb) nlc h).

Let Hlk : links_ok sha256 (Z.of_nat tpb) nlc (nodes h) (t_next h) := wf_links _ _ _ _ Hwf.

Lemma path_ord bs : ∀ p, path_below (nodes h) p bs → NoDup bs ∧ ∀ b, b ∈ bs → ord (nodes h) p < ord (nodes h) b.
Proof.
  induction bs as [|b bs IH]; intros p; cbn; [intros _; split; [constructor|by intros b ?%not_elem_of_nil]|].
  intros [Hu Hb]. apply (up_ord _ _ _ _ _ Hlk) in Hu. destruct (IH b Hb) as [Hnd Ho]. split.
  - apply NoDup_cons. split; [|done]. intros Hx%Ho. lia.
  - intros x [->|Hx]%elem_of_cons; [lia|]. apply Ho in Hx. lia.
Qed.

Lemma path_nodes bs : ∀ p b, path_below (nodes h) p bs → b ∈ bs → is_Some (nodes h !! b).
Proof.
  induction bs as [|x bs IH]; intros p b; cbn; [by intros _ ?%not_elem_of_nil|].
  intros [(n & Hn & _) Hp] [->|Hb]%elem_of_cons; [by eexists|by eapply IH].
Qed.

(** One step of the walk. *)
Lemma path_head p m b bs :
  nodes h !! p = Some m → path_below (nodes h) p (b :: bs) →
  ∃ n bb, nodes h !! b = Some n ∧ RadixTree.dict_get (n_key n) (n_next m) = Some b ∧
    tokens_bytes (tokens_of n) = Ok bb ∧ n_key n = sha256 (n_key m ++ bb) ∧
    tokens_of n ≠ [] ∧ (length (tokens_of n) ≤ tpb)%nat ∧ (bs ≠ [] → length (tokens_of n) = tpb).
Proof.
  intros Hm [(n & Hn & Hp) Hbs]. exists n.
  destruct (child_block _ _ _ _ _ Hlk b n p Hn Hp) as (ts & o & st & m' & Hl & Hm' & _ & Hk & _).
  assert (m' = m) as -> by congruence. unfold make_key in Hk. inv_ok. exists v.
  pose proof (lk_node _ _ _ _ _ Hlk b n Hn) as [_ H2]. unfold tokens_of. rewrite Hl in *.
  destruct H2 as (_ & Hlen & _ & Hfull). split; [done|]. split; [by eapply (child_get _ _ _ h p b m n)|].
  split; [done|]. split; [congruence|]. split; [intros ->; cbn in Hlen; lia|]. split; [lia|]. intros Hne.
  destruct bs as [|c bs]; [done|]. destruct Hbs as [(nc & Hnc & Hpc) _].
  destruct (child_block _ _ _ _ _ Hlk c nc b Hnc Hpc) as (_ & _ & _ & n' & _ & Hn' & _ & _ & Hin & _).
  assert (n' = n) as -> by congruence. assert (Z.of_nat (length ts) = Z.of_nat tpb); [|lia].
  apply Hfull. intros He. rewrite He in Hin. by apply not_elem_of_nil in Hin.
Qed.

Lemma chain_keys_cons fuel digest ts bb rest :
  tokens_bytes ts = Ok bb → ts ≠ [] → (length ts ≤ tpb)%nat → (rest ≠ [] → length ts = tpb) →
  chain_keys sha256 (S fuel) tpb digest (ts ++ rest) =
  (ks ← chain_keys sha256 fuel tpb (sha256 (digest ++ bb)) rest; Ok ((ts, sha256 (digest ++ bb)) :: ks)).
Proof.
  intros Hb Hne Hlen Hfull. assert (take tpb (ts ++ rest) = ts ∧ drop tpb (ts ++ rest) = rest) as [Ht Hd].
  { destruct rest as [|x rest]; [rewrite app_nil_r, take_ge, drop_ge by done; done|].
    rewrite <- Hfull by done. by rewrite take_app_length, drop_app_length. }
  cbn [chain_keys]. rewrite Ht, Hd. destruct ts as [|t ts]; [done|]. by rewrite Hb.
Qed.

Lemma walk_path part bs : ∀ depth fuel p m,
  nodes h !! p = Some m → path_below (nodes h) p bs → (length bs ≤ fuel)%nat → (length bs ≤ S depth)%nat →
  ∃ ks res, chain_keys sha256 fuel tpb (n_key m) (path_tokens (nodes h) bs) = Ok ks ∧
    walk_blocks ((λ kc, (kc.1, view_block depth h kc.2)) <$> n_next m) ks part = res ∧
    found <$> res = expected h <$> bs.
Proof.
  induction bs as [|b bs IH]; intros depth fuel p m Hm Hp Hf Hd.
  { exists [], []. split; [|done]. destruct fuel; cbn; by rewrite take_nil. }
  destruct (path_head p m b bs Hm Hp) as (n & bb & Hn & Hg & Hb & Hk & Hne & Hlen & Hfull).
  destruct fuel as [|fuel]; [cbn in Hf; lia|]. destruct Hp as [_ Hp].
  assert (Hpt : path_tokens (nodes h) (b :: bs) = tokens_of n ++ path_tokens (nodes h) bs)
    by (unfold path_tokens; cbn; by rewrite Hn).
  assert (Hview : ∃ next, view_block depth h b = mkBlock (n_key n) (tokens_of n) (view_storage h n) next ∧
    (bs ≠ [] → ∃ depth', depth = S depth' ∧ next = (λ kc, (kc.1, view_block depth' h kc.2)) <$> n_next n)).
  { destruct depth as [|depth]; cbn; rewrite Hn; eexists; (split; [done|]); [|by eauto].
    intros ?. destruct bs; [done|]. cbn in Hd. lia. }
  destruct Hview as (next & Hview & Hnext).
  rewrite Hpt, (chain_keys_cons fuel _ _ bb); [|done|done|done|]; last first.
  { intros Hr. apply Hfull. intros ->. done. }
  rewrite <- Hk. destruct bs as [|c bs].
  - exists [(tokens_of n, n_key n)], [(view_block depth h b, Z.of_nat (length (tokens_of n)))].
    split; [by destruct fuel; cbn; rewrite take_nil|]. split.
    + cbn [walk_blocks]. rewrite (dict_get_view (view_block depth h)), Hg. cbn. done.
    + cbn. unfold found, expected. rewrite Hn, Hview. done.
  - destruct (Hnext ltac:(done)) as (depth' & -> & ->).
    destruct (IH depth' fuel b n Hn Hp) as (ks & res & Hks & Hres & Hfd); [cbn in *; lia..|].
    exists ((tokens_of n, n_key n) :: ks), ((view_block (S depth') h b, Z.of_nat (length (tokens_of n))) :: res).
    rewrite Hks. split; [done|]. split.
    + cbn [walk_blocks]. rewrite (dict_get_view (view_block (S depth') h)), Hg. cbn [fmap option_fmap option_map].
      rewrite Hview. cbn [block_next]. by rewrite Hres.
    + rewrite fmap_cons, Hfd. rewrite (fmap_cons (expected h) b). f_equal. unfold found, expected. by rewrite Hn, Hview.
Qed.

Lemma path_tokens_length bs : ∀ p, path_below (nodes h) p bs → (length bs ≤ length (path_tokens (nodes h) bs))%nat.
Proof.
  unfold path_tokens. induction bs as [|b bs IH]; intros p; cbn; [done|]. intros [(n & Hn & Hp) Hbs].
  destruct (child_block _ _ _ _ _ Hlk b n p Hn Hp) as (_ & _ & _ & m & _ & Hm & _).
  destruct (path_head p m b [] Hm) as (n' & _ & Hn' & _ & _ & _ & Hne & _); [by split; [exists n|]|].
  rewrite Hn'. cbn. rewrite length_app. specialize (IH b Hbs). destruct (tokens_of n'); [done|]. cbn. lia.
Qed.

Lemma path_up k : ∀ l n, nodes h !! l = Some n → is_root n = false → is_Some (n_prev n) →
  (Z.to_nat (ordinal_of n) ≤ k)%nat →
  ∃ r rn bs, nodes h !! r = Some rn ∧ is_root rn = true ∧ n_prev rn = Some InTree ∧
    path_below (nodes h) r (bs ++ [l]).
Proof.
  assert (Hsnoc : ∀ bs p l m, path_below (nodes h) p bs → up (nodes h) l m → (bs = [] ∧ m = p ∨ last bs = Some m) →
    path_below (nodes h) p (bs ++ [l])).
  { induction bs as [|b bs IH]; intros p l m Hp Hu Hm; cbn.
    - destruct Hm as [[_ ->]|Hm]; [done|done].
    - destruct Hp as [Hb Hp]. split; [done|]. apply (IH b l m Hp Hu). destruct Hm as [[? _]|Hm]; [done|].
      destruct bs as [|c bs]; [left|by right]. cbn in Hm. by simplify_eq. }
  induction k as [|k IH]; intros l n Hl Hr Hp Hk; destruct Hp as [p Hp];
    (destruct p as [|p]; [pose proof (lk_node _ _ _ _ _ Hlk l n Hl) as [H1 _]; rewrite Hp in H1; unfold is_root in Hr;
       by destruct (n_load n)|]);
    destruct (child_block _ _ _ _ _ Hlk l n p Hl Hp) as (ts & o & st & m & Hb & Hm & Ho & _ & _ & Hs);
    assert (Hon : ordinal_of n = o) by (unfold ordinal_of; by rewrite Hb); rewrite Hon in Hk;
    pose proof (lk_node _ _ _ _ _ Hlk p m Hm) as [Hm1 Hm2]; destruct (is_root m) eqn:Hmr.
  1,3: exists p, m, []; split; [done|]; split; [done|]; split; [|by split; [exists n|]];
    unfold is_root in Hmr; destruct (n_load m), (n_prev m) as [[|]|]; done || by destruct Hs.
  - unfold is_root, ordinal_of in *. destruct (n_load m); [done|]. lia.
  - destruct (IH p m Hm Hmr Hs) as (r & rn & bs & H1 & H2 & H3 & H4).
    { unfold is_root, ordinal_of in *. destruct (n_load m); [done|]. lia. }
    exists r, rn, (bs ++ [p]). split; [done|]. split; [done|]. split; [done|].
    eapply Hsnoc; [done|by exists n|]. right. by rewrite last_snoc.
Qed.

(** C22: every block in the tree is found by its own tokens.  There is a
    path of blocks down to it from a root, and looking up the tokens of the
    path under the root's reuse scope yields exactly these blocks, each with
    its tokens and the coverage of its pages, and all its tokens matched. *)
Theorem every_block_is_found life_cycles partial l n :
  nodes h !! l = Some n → is_root n = false → is_Some (n_prev n) →
  ∃ r scope bs path, path_below (nodes h) r (bs ++ [l]) ∧ n_load <$> nodes h !! r = Some (Root scope) ∧
    match_token_path sha256 (view_tree life_cycles tpb h) scope (path_tokens (nodes h) (bs ++ [l])) partial = Ok path ∧
    found <$> path = expected h <$> (bs ++ [l]).
Proof.
  intros Hl Hr Hp. destruct (path_up (Z.to_nat (ordinal_of n)) l n Hl Hr Hp) as (r & rn & bs & Hrn & Hrr & Hrp & Hbs); [done|].
  pose proof (lk_node _ _ _ _ _ Hlk r rn Hrn) as [Hkey _]. rewrite Hrp in Hkey. unfold is_root in Hrr.
  destruct (n_load rn) as [scope|] eqn:Hscope; [|done]. unfold root_key in Hkey. inv_ok.
  assert (Hlen : (length (bs ++ [l]) ≤ size (nodes h))%nat).
  { apply length_le_size; [by eapply path_ord|]. intros b Hb. by eapply path_nodes. }
  pose proof (path_tokens_length (bs ++ [l]) r Hbs) as Hfuel.
  destruct (walk_path partial (bs ++ [l]) (size (nodes h)) (length (path_tokens (nodes h) (bs ++ [l]))) r rn Hrn Hbs)
    as (ks & res & Hks & Hres & Hfd); [lia..|].
  exists r, scope, bs, res. split; [done|]. split; [by rewrite Hrn; cbn; rewrite Hscope|]. split; [|done].
  unfold match_token_path, sequence_to_blockchain_keys. cbn [view_tree RadixMatch._tokens_per_block].
  rewrite Hv. cbn [mbind result_bind]. rewrite Hkey, Hks. cbn [mbind result_bind].
  unfold view_tree. cbn [tree_next]. rewrite (dict_get_view (view_root h)).
  assert (Hg : RadixTree.dict_get (n_key rn) (t_next h) = Some r)
    by (apply (child_of _ _ _ _ _ Hlk InTree); by exists rn).
  rewrite Hg. cbn [fmap option_fmap option_map]. unfold view_root. rewrite Hrn. cbn [root_next]. by rewrite Hres.
Qed.
End view.

(** ** A small tree

    Blocks of four tokens, one life cycle, the identity as hash: a root with
    one partial block whose page is committed. *)

Definition no_hash : bytes → bytes := λ b, b.
Definition one_life_cycle : list LifeCycle := [Attn (mkAttn None 0)].
Definition small_run : op → M heap () := run_op no_hash 4 1 true one_life_cycle.

Definition tree_root : heap := (small_run (NewRoot (mkScope None None)) empty_heap).2.
Definition tree_block : heap := (small_run (NewBlock [TokenId 1; TokenId 2] 1%positive) tree_root).2.
Definition tree_page : heap := (small_run (Commit 2%positive 0 2) tree_block).2.

Lemma tree_page_reachable : reachable no_hash 4 1 true one_life_cycle tree_page.
Proof.
  eapply (reachable_step _ _ _ _ _ tree_block (Commit 2%positive 0 2)).
  - eapply (reachable_step _ _ _ _ _ tree_root (NewBlock [TokenId 1; TokenId 2] 1%positive)).
    + eapply (reachable_step _ _ _ _ _ empty_heap (NewRoot (mkScope None None))).
      * constructor.
      * by eexists.
      * reflexivity.
    + do 2 eexists. split; [reflexivity|]. split; [by eexists|]. split; [done|]. split; [cbn; lia|reflexivity].
    + reflexivity.
  - do 2 eexists. split; [reflexivity|]. split; [reflexivity|]. split; [done|]. cbn. lia.
  - reflexivity.
Qed.

Lemma tree_page_wf : wf no_hash 4 1 tree_page.
Proof. by apply (tree_reachable_wf _ _ _ true one_life_cycle eq_refl), tree_page_reachable. Qed.

(** A second root, which has no block. *)
Definition two_roots : heap := (small_run (NewRoot (mkScope (Some 7) None)) tree_page).2.

Lemma two_roots_wf : wf no_hash 4 1 two_roots.
Proof.
  apply (tree_reachable_wf _ _ _ true one_life_cycle eq_refl).
  eapply (reachable_step _ _ _ _ _ tree_page (NewRoot (mkScope (Some 7) None))); [exact tree_page_reachable|by eexists|reflexivity].
Qed.

Lemma tree_page_block : ∃ n, nodes tree_page !! 2%positive = Some n ∧ is_root n = false ∧ n_prev n = Some (Under 1%positive).
Proof. eexists. by split; [reflexivity|]. Qed.

Lemma reachable_tree_wf_witness :
  reachable no_hash 4 1 true one_life_cycle tree_page ∧ wf no_hash 4 1 tree_page.
Proof.
  split; [exact tree_page_reachable|].
  exact (proj1 (reachable_tree_wf no_hash 4 1 true one_life_cycle eq_refl tree_page tree_page_reachable)).
Defined.

Lemma block_init_witness :
  ∃ l h', block_init no_hash 4 1 true [TokenId 1; TokenId 2; TokenId 3; TokenId 4] 1%positive tree_page = (Ok (inl l), h') ∧
    wf no_hash 4 1 h'.
Proof.
  assert (∃ pn key, insertable no_hash 4 1 tree_page 1%positive pn [TokenId 1; TokenId 2; TokenId 3; TokenId 4] key)
    as (pn & key & Hin).
  { do 2 eexists. split; [exact tree_page_wf|reflexivity|by eexists|done|cbn; lia|reflexivity]. }
  destruct (block_init_covers_or_extends no_hash 4 1 true _ _ _ _ _ Hin) as [(b & H & _)|(l & h' & H & _ & _ & W & _)].
  - vm_compute in H. discriminate H.
  - exists l, h'. split; [exact H|exact W].
Defined.

Lemma remove_subtree_witness :
  ∃ h', remove_subtree 1 true 2%positive tree_page = (Ok (), h') ∧ t_next h' = [].
Proof.
  destruct tree_page_block as (n & Hn & Hr & _).
  destruct (remove_subtree_removes_exactly no_hash 4 1 true tree_page 2%positive n tree_page_wf Hn Hr) as (L & h' & H & _).
  exists h'. split; [exact H|]. vm_compute in H. injection H as <-. reflexivity.
Defined.

Lemma clear_witness :
  (∃ h', clear 1 true tree_page = (Ok (), h') ∧ t_next h' = []) ∧
  ∀ turns, ∃ h', clear_loop 1 true turns two_roots = (Raise OutOfFuel, h').
Proof.
  split.
  - destruct (clear_empties_tree no_hash 4 1 true tree_page tree_page_wf) as [H _].
    destruct H as (h' & H & _ & Hd & _); [|exists h'; split; [exact H|exact Hd]].
    intros k r Hin. vm_compute in Hin. apply list_elem_of_singleton in Hin. injection Hin as -> ->.
    eexists. split; [reflexivity|]. discriminate.
  - intros turns. destruct (clear_empties_tree no_hash 4 1 true two_roots two_roots_wf) as [_ H].
    assert (∃ k r n, (k, r) ∈ t_next two_roots ∧ nodes two_roots !! r = Some n ∧ n_next n = []) as (k & r & n & Hin & Hn & Hnx).
    { do 3 eexists. split; [apply list_elem_of_lookup_2 with 1%nat; vm_compute; reflexivity|]. split; [vm_compute; reflexivity|reflexivity]. }
    destruct (H k r n Hin Hn Hnx turns) as (h' & H' & _). exists h'. exact H'.
Defined.

Lemma every_block_is_found_witness :
  ∃ scope bs path,
    match_token_path no_hash (view_tree (mkRegistry one_life_cycle ∅) 4 tree_page) scope
      (path_tokens (nodes tree_page) (bs ++ [2%positive])) false = Ok path ∧
    found <$> path = expected tree_page <$> (bs ++ [2%positive]).
Proof.
  destruct tree_page_block as (n & Hn & Hr & Hp).
  destruct (every_block_is_found no_hash 4 1 tree_page tree_page_wf (mkRegistry one_life_cycle ∅) false 2%positive n Hn Hr
    ltac:(by eexists)) as (r & scope & bs & path & _ & _ & Hm & Hf).
  exists scope, bs, path. split; [exact Hm|exact Hf].
Defined.
