(* ===== verification/Wp.v ===== *)
(** * Weakest preconditions of stateful computations

    [wp m Q E s]: run from [s], [m] returns a value and a state in [Q] or
    raises an exception in a state in [E].  Every computation of the model
    ends, so this is total correctness.  [for_groups] is the loop over pool
    groups, with its invariant rule. *)

From S2P Require Import Prelude.

Section wp.
Context {S : Type}.
Implicit Types s : S.

Definition wp {A} (m : M S A) (Q : A → S → Prop) (E : py_exc → S → Prop) (s : S) : Prop :=
  match m s with
  | (Ok a, s') => Q a s'
  | (Raise e, s') => E e s'
  end.

Lemma wp_ret {A} (a : A) Q E s : Q a s → wp (mret a) Q E s.
Proof. done. Qed.

Lemma wp_get Q E s : Q s s → wp get Q E s.
Proof. done. Qed.

Lemma wp_raise {A} e (Q : A → S → Prop) (E : py_exc → S → Prop) s : E e s → wp (raise e) Q E s.
Proof. done. Qed.

Lemma wp_modify f (Q : () → S → Prop) E s : Q () (f s) → wp (modify f) Q E s.
Proof. done. Qed.

Lemma wp_assert b (Q : () → S → Prop) E s : b = true → Q () s → wp (assert_ b) Q E s.
Proof. by intros ->. Qed.

Lemma wp_lift {A} (r : result A) a (Q : A → S → Prop) E s : r = Ok a → Q a s → wp (lift r) Q E s.
Proof. by intros ->. Qed.

Lemma wp_mono {A} (m : M S A) (Q Q' : A → S → Prop) (E E' : py_exc → S → Prop) s :
  wp m Q E s → (∀ a s', Q a s' → Q' a s') → (∀ e s', E e s' → E' e s') → wp m Q' E' s.
Proof. unfold wp. destruct (m s) as [[a|e] s']; auto. Qed.

Lemma wp_bind {A B} (m : M S A) (f : A → M S B) Q E s :
  wp m (λ a s', wp (f a) Q E s') E s → wp (m ≫= f) Q E s.
Proof. unfold wp. mrun. by destruct (m s) as [[a|e] s']. Qed.

(** A call by its specification. *)
Lemma wp_call {A B} (m : M S A) (f : A → M S B) Q0 (E0 : py_exc → S → Prop) Q E s :
  wp m Q0 E0 s → (∀ a s', Q0 a s' → wp (f a) Q E s') → (∀ e s', E0 e s' → E e s') →
  wp (m ≫= f) Q E s.
Proof. intros Hm Hf He. apply wp_bind. by eapply wp_mono. Qed.

Lemma wp_run {A} (m : M S A) Q E s a s' : wp m Q E s → m s = (Ok a, s') → Q a s'.
Proof. unfold wp. intros H Hm. by rewrite Hm in H. Qed.

Lemma wp_ok {A} (m : M S A) (Q : A → S → Prop) E s :
  wp m Q E s → (∀ e s', ¬ E e s') → ∃ a s', m s = (Ok a, s') ∧ Q a s'.
Proof. unfold wp. intros H HE. revert H. destruct (m s) as [[a|e] s']; [by eauto|]. intros H. by destruct (HE _ _ H). Qed.

Lemma wp_result {A} (m : M S A) (Q : A → S → Prop) s r s' :
  wp m Q (λ _ _, False) s → m s = (r, s') → ∃ a, r = Ok a ∧ Q a s'.
Proof. unfold wp. intros H Hm. rewrite Hm in H. destruct r; [by eauto|done]. Qed.

(** [try: m except Exception as e: handler(e)] *)
Definition try_except {A} (m : M S A) (handler : py_exc → M S A) : M S A := λ s,
  match m s with
  | (Ok a, s') => (Ok a, s')
  | (Raise e, s') => handler e s'
  end.

Lemma wp_try {A} (m : M S A) h (Q : A → S → Prop) E s :
  wp m Q (λ e s', wp (h e) Q E s') s → wp (try_except m h) Q E s.
Proof. unfold wp, try_except. by destruct (m s) as [[a|e] s']. Qed.

(** [for g in range(len(l))] with the loop's list of results. *)
Fixpoint for_groups {A B} (f : nat → A → M S B) (g : nat) (l : list A) : M S (list B) :=
  match l with
  | [] => mret []
  | a :: l => b ← f g a; bs ← for_groups f (Datatypes.S g) l; mret (b :: bs)
  end.

Lemma wp_for_from {A B} (f : nat → A → M S B) l g (Inv : list B → S → Prop) E bs0 s :
  (∀ k a bs s, l !! k = Some a → length bs = (length bs0 + k)%nat → Inv bs s →
     wp (f (g + k)%nat a) (λ b s', Inv (bs ++ [b]) s') E s) →
  Inv bs0 s →
  wp (for_groups f g l) (λ bs s', length bs = length l ∧ Inv (bs0 ++ bs) s') E s.
Proof.
  revert g bs0 s. induction l as [|a l IH]; intros g bs0 s Hf Hi; cbn [for_groups].
  { apply wp_ret. by rewrite app_nil_r. }
  eapply wp_call; [|intros b s' Hb|by auto].
  { specialize (Hf 0%nat a bs0 s eq_refl ltac:(lia) Hi). rewrite Nat.add_0_r in Hf. exact Hf. }
  eapply wp_call; [eapply (IH (Datatypes.S g) (bs0 ++ [b])); [|done]| |by auto].
  - intros k a' bs s'' Hk Hlen Hi'. rewrite length_app in Hlen. cbn in Hlen.
    replace (Datatypes.S g + k)%nat with (g + Datatypes.S k)%nat by lia.
    apply Hf; [done|lia|done].
  - intros bs s'' [Hl Hi']. apply wp_ret. cbn. split; [by f_equal|].
    by rewrite (cons_middle b bs0 bs), (assoc_L (++)).
Qed.

Lemma wp_for {A B} (f : nat → A → M S B) l (Inv : list B → S → Prop) E s :
  (∀ k a bs s, l !! k = Some a → length bs = k → Inv bs s →
     wp (f k a) (λ b s', Inv (bs ++ [b]) s') E s) →
  Inv [] s →
  wp (for_groups f 0 l) (λ bs s', length bs = length l ∧ Inv bs s') E s.
Proof. intros Hf Hi. apply (wp_for_from f l 0 Inv E [] s); [|done]. intros. by apply Hf. Qed.

(** [for x in l] without results. *)
Fixpoint for_each {A} (f : A → M S ()) (l : list A) : M S () :=
  match l with
  | [] => mret ()
  | a :: l => f a;; for_each f l
  end.

Lemma wp_for_each {A} (f : A → M S ()) (Inv : list A → S → Prop) E l s :
  (∀ l1 a l2 s, l = l1 ++ a :: l2 → Inv (a :: l2) s → wp (f a) (λ _ s', Inv l2 s') E s) →
  Inv l s → wp (for_each f l) (λ _ s', Inv [] s') E s.
Proof.
  revert s. induction l as [|a l IH]; intros s Hf Hi; cbn [for_each]; [done|].
  eapply wp_call; [by apply (Hf [] a l)|intros [] s' Hi'; cbn in Hi'|by auto].
  apply IH; [|done]. intros l1 b l2 s'' Hl. apply (Hf (a :: l1)). by rewrite Hl.
Qed.
End wp.
