(* ===== verification/StorageIface.v ===== *)
(** * What the storage manager needs of its parts

    A cache level is a pool of slots per pool group and one eviction
    controller.  The classes [SlotPool] and [EvictQueue] are the calls the
    storage manager makes, [SlotPoolSpec] and [EvictQueueSpec] what it may
    rely on; [SlotAllocator] and [PerLevelEvictionController] implement them.
    [one_priority] says when the controller always finds the pages it is
    asked for: when all pages have one priority. *)

From S2P Require Import Prelude PySort KvUtils Bitset SlotAllocator SlotAllocatorProps.
From S2P Require Import Eviction EvictionProps EvictionInv.

Local Open Scope Z_scope.

(** ** Slots *)

Class SlotPool (P : Type) := {
  pool_alloc : Z → M P (list Slot);
  pool_release : Slot → M P Slot;
  pool_free : P → Z;
  pool_capacity : P → Z;
  pool_occupied : P → gset Z;
}.

Class SlotPoolSpec (P : Type) `{SlotPool P} (pool_wf : P → Prop) : Prop := {
  pool_free_spec p : pool_wf p →
    pool_free p = pool_capacity p - Z.of_nat (size (pool_occupied p)) ∧ 0 ≤ pool_free p;
  pool_alloc_ok p n : pool_wf p → 0 ≤ n ≤ pool_free p →
    ∃ slots p' ids, pool_alloc n p = (Ok slots, p') ∧ pool_wf p' ∧
      _slot_id <$> slots = Some <$> ids ∧ NoDup ids ∧ Z.of_nat (length ids) = n ∧
      (∀ i, i ∈ ids → i ∉ pool_occupied p) ∧
      pool_occupied p' = list_to_set ids ∪ pool_occupied p ∧
      pool_capacity p' = pool_capacity p;
  pool_release_ok p x i : pool_wf p → _slot_id x = Some i → i ∈ pool_occupied p →
    ∃ p', pool_release x p = (Ok (mkSlot None None), p') ∧ pool_wf p' ∧
      pool_occupied p' = pool_occupied p ∖ {[ i ]} ∧ pool_capacity p' = pool_capacity p;
}.

(** An allocator that is not being shrunk. *)
Record alloc_wf (s : SlotAllocator) : Prop := {
  alloc_inv : sa_inv s;
  alloc_stable : _target_capacity s = _capacity s;
}.

#[global] Instance allocator_pool (complete : nat → bool) : SlotPool SlotAllocator := {
  pool_alloc := allocate_multiple complete;
  pool_release := release complete;
  pool_free := num_free_slots;
  pool_capacity := _capacity;
  pool_occupied := occupied;
}.

Lemma occupied_below s i : alloc_wf s → i ∈ occupied s → 0 ≤ i < _capacity s.
Proof. intros [Hinv _] Hi. pose proof (occupied_range s i Hinv Hi). destruct Hinv. lia. Qed.

Lemma alloc_free_count s :
  alloc_wf s → num_free_slots s = _capacity s - Z.of_nat (size (occupied s)).
Proof.
  intros Hwf. pose proof Hwf as [Hinv Ht]. rewrite num_free_slots_spec by done.
  unfold free_ids. cbn [pa_target pa_occupied abs]. rewrite Ht.
  pose proof (Permutation_length (filter_ids_perm (λ i, i ∉ occupied s) (seqZ 0 (_capacity s)))) as Hp.
  rewrite length_app, length_seqZ in Hp.
  assert (Hin : filter (λ i, ¬ (i ∉ occupied s)) (seqZ 0 (_capacity s)) ≡ₚ elements (occupied s)).
  { apply NoDup_Permutation; [apply NoDup_filter, NoDup_seqZ|apply NoDup_elements|].
    intros i. rewrite list_elem_of_filter, elem_of_seqZ, elem_of_elements. split.
    - intros [Hi _]. by apply dec_stable.
    - intros Hi. pose proof (occupied_below s i Hwf Hi). split; [by intros ?|lia]. }
  apply Permutation_length in Hin. unfold size, set_size. simpl. destruct Hinv. lia.
Qed.

#[global] Instance allocator_pool_spec (complete : nat → bool) :
  SlotPoolSpec SlotAllocator (H := allocator_pool complete) alloc_wf.
Proof.
  split; cbn [pool_alloc pool_release pool_free pool_capacity pool_occupied allocator_pool].
  - intros s Hwf. split; [by apply alloc_free_count|]. destruct Hwf as [Hinv _].
    rewrite num_free_slots_spec by done. lia.
  - intros s n [Hinv Ht] Hn. pose proof (allocate_multiple_spec complete n s Hinv) as Hal.
    rewrite (proj2 (Z.ltb_ge n 0)), (proj2 (Z.ltb_ge _ n)) in Hal by lia.
    destruct Hal as (xs & s' & ids & Heq & [H1 H2 H3 H4 H5 H6 [H7 H8]] & Hlen).
    exists xs, s', ids. split_and!; try done; [by split; [|congruence]|].
    intros i Hi. rewrite Forall_forall in H3. by apply H3.
  - intros s x i [Hinv Ht] Hx Hi. pose proof (occupied_range s i Hinv Hi).
    pose proof (release_spec complete s x i Hinv Hx ltac:(lia)) as Hrel.
    rewrite bool_decide_eq_true_2 in Hrel by done.
    destruct Hrel as (s' & Heq & [H1 H2 [H3 H4] H5]). exists s'. split_and!; try done.
    split; [done|congruence].
Qed.

(** ** Eviction queues *)

Class EvictQueue (C : Type) := {
  q_schedule : EvictablePage → M C ();
  q_remove : EvictablePage → M C ();
  q_evict : list Z → M C (list (list EvictablePage));
  q_count : nat → C → result Z;
  q_pages : C → list EvictablePage;
}.

(** The pool group of a page, by its life cycle. *)
Definition page_group (lc2pg : list nat) (p : EvictablePage) : option nat :=
  if page_life_cycle p <? 0 then None else lc2pg !! Z.to_nat (page_life_cycle p).

Definition in_group (lc2pg : list nat) (g : nat) (p : EvictablePage) : Prop :=
  page_group lc2pg p = Some g.
#[global] Instance in_group_dec lc2pg g p : Decision (in_group lc2pg g p).
Proof. unfold in_group. apply _. Defined.

(** The priorities admitted are one at most: no eviction crosses a priority
    boundary. *)
Definition one_priority (prio_ok : Z → Prop) : Prop := ∀ a b, prio_ok a → prio_ok b → a = b.

(** [groups] pool groups at level [lvl], with pages of the priorities
    [prio_ok].  An eviction gives each group the pages asked for, or gives back
    all of them; asked for no more than there are, it fails only across a
    priority boundary. *)
Class EvictQueueSpec (C : Type) `{EvictQueue C} (prio_ok : Z → Prop)
    (queue_wf : list nat → nat → nat → C → Prop) : Prop := {
  q_ids lc2pg groups lvl c : queue_wf lc2pg groups lvl c → NoDup (page_id <$> q_pages c);
  q_groups lc2pg groups lvl c p : queue_wf lc2pg groups lvl c → p ∈ q_pages c →
    page_cache_level p = Z.of_nat lvl ∧ ∃ g, in_group lc2pg g p ∧ (g < groups)%nat;
  q_count_spec lc2pg groups lvl c g : queue_wf lc2pg groups lvl c → (g < groups)%nat →
    q_count g c = Ok (Z.of_nat (length (filter (in_group lc2pg g) (q_pages c))));
  q_schedule_ok lc2pg groups lvl c p g : queue_wf lc2pg groups lvl c →
    page_id p ∉ page_id <$> q_pages c → page_cache_level p = Z.of_nat lvl →
    in_group lc2pg g p → prio_ok (page_priority p) →
    ∃ c', q_schedule p c = (Ok (), c') ∧ queue_wf lc2pg groups lvl c' ∧
      q_pages c' ≡ₚ p :: q_pages c;
  q_remove_ok lc2pg groups lvl c p : queue_wf lc2pg groups lvl c → p ∈ q_pages c →
    ∃ c', q_remove p c = (Ok (), c') ∧ queue_wf lc2pg groups lvl c' ∧
      q_pages c ≡ₚ p :: q_pages c';
  q_evict_ok lc2pg groups lvl c counts : queue_wf lc2pg groups lvl c →
    length counts = groups →
    (∃ ls c', q_evict counts c = (Ok ls, c') ∧ queue_wf lc2pg groups lvl c' ∧
       q_pages c ≡ₚ concat ls ++ q_pages c' ∧ length ls = groups ∧
       ∀ g l, ls !! g = Some l →
         counts !! g = Some (Z.of_nat (length l)) ∧ Forall (in_group lc2pg g) l) ∨
    (∃ e c', q_evict counts c = (Raise e, c') ∧ queue_wf lc2pg groups lvl c' ∧
       q_pages c' ≡ₚ q_pages c ∧
       ((∀ g k, counts !! g = Some k →
           0 ≤ k ≤ Z.of_nat (length (filter (in_group lc2pg g) (q_pages c)))) →
        ¬ one_priority prio_ok));
}.

(** ** The controller is such a queue *)

Section controller.
Context {Q : Type} `{!Dllist Q, !DllistSpec Q}.
Implicit Types c : PerLevelEvictionController Q.

#[global] Instance controller_queue : EvictQueue (PerLevelEvictionController Q) := {
  q_schedule p := schedule_for_eviction p false;
  q_remove := remove;
  q_evict := evict;
  q_count g := num_evictable_pages (Z.of_nat g);
  q_pages c := all_pages (views c);
}.

Record controller_wf (prio_ok : Z → Prop) (lc2pg : list nat) (groups lvl : nat) c : Prop := {
  cq_ctl : ctl_wf c;
  cq_grouping : _life_cycle_grouping c = Z.of_nat <$> lc2pg;
  cq_level : _cache_level c = Z.of_nat lvl;
  cq_length : length (views c) = groups;
  cq_prio : ∀ v pr, v ∈ views c → pr ∈ v.*1 → prio_ok pr;
  cq_cycles : Forall (λ p, 0 ≤ page_life_cycle p) (all_pages (views c));
}.

(** Calls keep the grouping and the level. *)
Lemma with_policy_frame pg pol refs c c' :
  with_policy pg pol refs c = Ok c' →
  _life_cycle_grouping c' = _life_cycle_grouping c ∧ _cache_level c' = _cache_level c.
Proof. unfold with_policy. intros H. inv_ok. done. Qed.

Lemma group_of_page prio_ok lc2pg groups lvl c p g :
  controller_wf prio_ok lc2pg groups lvl c → 0 ≤ page_life_cycle p →
  group_of (page_life_cycle p) c = Ok (Z.of_nat g) ↔ in_group lc2pg g p.
Proof.
  intros Hwf Hp. unfold group_of, in_group, page_group.
  rewrite (cq_grouping _ _ _ _ _ Hwf), (proj2 (Z.ltb_ge _ 0)) by done. split.
  - unfold py_getitem, py_index. intros H%of_option_ok.
    apply bind_Some in H as (k & Hk & Hg). rewrite list_lookup_fmap in Hg.
    apply fmap_Some in Hg as (x & Hx & He). case_bool_decide; [|case_bool_decide; [lia|done]].
    injection Hk as <-. rewrite Hx. f_equal. lia.
  - intros H. apply py_getitem_nonneg; [done|]. by rewrite list_lookup_fmap, H.
Qed.

Lemma page_of_group prio_ok lc2pg groups lvl c i v p :
  controller_wf prio_ok lc2pg groups lvl c → views c !! i = Some v → p ∈ group_pages v →
  page_cache_level p = Z.of_nat lvl ∧ in_group lc2pg i p.
Proof.
  intros Hwf Hv Hp. pose proof (cq_ctl _ _ _ _ _ Hwf) as Hc.
  assert (Hall : p ∈ all_pages (views c)).
  { apply list_elem_of_bind. exists v. split; [done|]. by eapply list_elem_of_lookup_2. }
  apply list_elem_of_bind in Hp as ([pr l] & Hp & Hin). cbn in Hp.
  destruct (gw_pages _ _ _ (cw_groups _ Hc i v Hv) pr l p Hin Hp) as (_ & Hg & Hl).
  rewrite Hl, (cq_level _ _ _ _ _ Hwf). split; [done|].
  apply (group_of_page prio_ok lc2pg groups lvl c); [done| |done].
  pose proof (cq_cycles _ _ _ _ _ Hwf) as Hf. rewrite Forall_forall in Hf. by apply Hf.
Qed.

(** The pages of a group are those of its policy. *)
Lemma filter_group (vs : list group_view) lc2pg k i v :
  (∀ j w p, vs !! j = Some w → p ∈ group_pages w → in_group lc2pg (k + j) p) →
  vs !! i = Some v → filter (in_group lc2pg (k + i)) (all_pages vs) = group_pages v.
Proof.
  revert k i. induction vs as [|w vs IH]; intros k i Hg Hi; [done|].
  change (all_pages (w :: vs)) with (group_pages w ++ all_pages vs). rewrite filter_app.
  assert (Hrest : ∀ j w' p, vs !! j = Some w' → p ∈ group_pages w' → in_group lc2pg (S k + j) p).
  { intros j w' p Hj Hp. replace (S k + j)%nat with (k + S j)%nat by lia. by apply (Hg (S j) w'). }
  destruct i as [|i]; cbn in Hi.
  - injection Hi as <-. rewrite list_filter_all; last first.
    { apply Forall_forall. intros p Hp. by apply (Hg 0%nat w). }
    rewrite list_filter_none; [apply app_nil_r|]. apply Forall_forall. intros p Hp.
    apply list_elem_of_bind in Hp as (w' & Hp & [j Hj]%list_elem_of_lookup).
    specialize (Hrest j w' p Hj Hp). unfold in_group in *. rewrite Hrest. intros [= ?]. lia.
  - rewrite list_filter_none; last first.
    { apply Forall_forall. intros p Hp. specialize (Hg 0%nat w p eq_refl Hp). unfold in_group in *.
      rewrite Hg. intros [= ?]. lia. }
    cbn [app]. replace (k + S i)%nat with (S k + i)%nat by lia. by apply IH.
Qed.

Lemma controller_filter prio_ok lc2pg groups lvl c i v :
  controller_wf prio_ok lc2pg groups lvl c → views c !! i = Some v →
  filter (in_group lc2pg i) (all_pages (views c)) = group_pages v.
Proof.
  intros Hwf Hv. apply (filter_group _ _ 0); [|done]. intros j w p Hj Hp.
  by apply (page_of_group _ _ _ _ _ _ _ _ Hwf Hj).
Qed.

Lemma group_pages_length (v : group_view) :
  zsum ((λ e, Z.of_nat (length e.2)) <$> v) = Z.of_nat (length (group_pages v)).
Proof.
  unfold group_pages. induction v as [|[pr l] v IH]; [done|]. rewrite fmap_cons, zsum_cons, IH. cbn.
  rewrite length_app. lia.
Qed.

(** Scheduling adds no queue but the page's. *)
Lemma policy_push_keys p ef (pol : policy Q) pr :
  pr ∈ (policy_view (policy_push p ef pol)).*1 → pr = page_priority p ∨ pr ∈ pol.*1.
Proof.
  rewrite policy_view_keys. unfold policy_push, update_policy.
  rewrite <- list_fmap_compose. intros (e & -> & He)%list_elem_of_fmap. cbn.
  destruct (fst e =? page_priority p) eqn:E; [apply Z.eqb_eq in E; by left|]. right.
  apply Z.eqb_neq in E. unfold get_policy in He. case_bool_decide; [by apply list_elem_of_fmap_2|].
  apply elem_of_sort_by in He. apply elem_of_app in He as [He|He]; [by apply list_elem_of_fmap_2|].
  apply list_elem_of_singleton in He as ->. done.
Qed.

Lemma remove_frame p c c' r :
  remove p c = (r, c') →
  _life_cycle_grouping c' = _life_cycle_grouping c ∧ _cache_level c' = _cache_level c ∧
  length (views c') = length (views c) ∧
  ∀ w pr, w ∈ views c' → pr ∈ w.*1 → ∃ w0, w0 ∈ views c ∧ pr ∈ w0.*1.
Proof.
  unfold remove. mrun. destruct (bool_decide _); [|intros [= _ <-]; eauto 10].
  destruct (group_of _ c) as [g|]; [|intros [= _ <-]; eauto 10].
  destruct (py_getitem (_policies c) g) as [pol|] eqn:Hget; [|intros [= _ <-]; eauto 10].
  destruct (policy_remove p pol) as [pol'|] eqn:Hrm; [|intros [= _ <-]; eauto 10].
  destruct (with_policy _ _ _ c) as [c1|] eqn:Hw; [|intros [= _ <-]; eauto 10].
  intros [= _ <-]. unfold with_policy, py_setitem in Hw. unfold py_getitem in Hget.
  destruct (py_index (_policies c) g) as [k|]; [|done]. cbn in Hw, Hget. injection Hw as <-.
  apply of_option_ok in Hget. unfold views. cbn. rewrite !length_fmap, length_insert.
  split_and!; try done. intros w pr Hin Hpr. apply list_elem_of_fmap in Hin as (q & -> & Hq).
  apply list_elem_of_lookup in Hq as [j Hj].
  apply list_lookup_insert_Some in Hj as [(<- & -> & _)|[_ Hj%list_elem_of_lookup_2]];
    [|by eauto using list_elem_of_fmap_2].
  apply remove_view in Hrm as [Hs _]. exists (policy_view pol). split.
  - apply list_elem_of_fmap_2. by eapply list_elem_of_lookup_2.
  - by eapply elem_of_sublist.
Qed.

Lemma filter_remove_one (l : list EvictablePage) p :
  NoDup l → p ∈ l → l ≡ₚ p :: filter (λ x, x ≠ p) l.
Proof.
  intros Hnd Hp. apply NoDup_Permutation; [done| |].
  - constructor; [|by apply NoDup_filter]. rewrite list_elem_of_filter. by intros [? _].
  - intros x. rewrite elem_of_cons, list_elem_of_filter. destruct (decide (x = p)) as [->|]; naive_solver.
Qed.

(** ** Its laws *)

Lemma schedule_ok prio_ok lc2pg groups lvl c p g :
  controller_wf prio_ok lc2pg groups lvl c → page_id p ∉ page_id <$> all_pages (views c) →
  page_cache_level p = Z.of_nat lvl → in_group lc2pg g p → prio_ok (page_priority p) →
  ∃ c', schedule_for_eviction p false c = (Ok (), c') ∧
    controller_wf prio_ok lc2pg groups lvl c' ∧ all_pages (views c') ≡ₚ p :: all_pages (views c).
Proof.
  intros Hwf Hid Hl Hg Hpr. pose proof (cq_ctl _ _ _ _ _ Hwf) as Hctl.
  assert (Hlc : 0 ≤ page_life_cycle p).
  { unfold in_group, page_group in Hg. destruct (Z.ltb_spec (page_life_cycle p) 0); [done|lia]. }
  apply (group_of_page prio_ok lc2pg groups lvl c p g Hwf Hlc) in Hg.
  destruct (group_of_lookup _ _ _ Hctl Hg) as (i & v & Hi%Nat2Z.inj & Hv). subst i.
  destruct (views_lookup _ _ _ Hv) as (pol & _ & Hpv & Hget).
  destruct (with_policy_ok c g _ (policy_push p false pol) ({[page_id p]} ∪ node_refs c) Hv)
    as (c1 & Hw & H1 & H2 & H3 & H4).
  assert (Hrun : schedule_for_eviction p false c = (Ok (), c1)).
  { unfold schedule_for_eviction. mrun.
    rewrite bool_decide_eq_true_2 by (by rewrite <- (cw_refs _ Hctl), elem_of_list_to_set).
    rewrite (proj2 (Z.eqb_eq _ _)) by (by rewrite Hl, (cq_level _ _ _ _ _ Hwf)). cbn [andb].
    by rewrite Hg, Hget, Hw. }
  destruct (push_view p false pol) as (K1 & K2 & K3).
  { rewrite <- policy_view_keys, Hpv. apply (cw_groups _ Hctl g v Hv). }
  destruct (all_pages_insert (views c) g v (policy_view (policy_push p false pol)) Hv)
    as (V1 & V2 & E1 & E2).
  assert (Hperm : all_pages (views c1) ≡ₚ p :: all_pages (views c)).
  { rewrite H1, E2, E1, K2, Hpv. solve_Permutation. }
  exists c1. split; [done|]. split; [|done]. destruct Hwf as [W1 W2 W3 W4 W5 W6]. split.
  - by eapply schedule_wf.
  - congruence.
  - congruence.
  - rewrite H1. by rewrite length_insert.
  - intros w pr [j Hj]%list_elem_of_lookup Hin. rewrite H1 in Hj.
    destruct (decide (j = g)) as [->|Hne].
    + rewrite list_lookup_insert_eq in Hj by (by eapply lookup_lt_Some). injection Hj as <-.
      apply policy_push_keys in Hin as [->|Hin]; [done|].
      apply (W5 v); [by eapply list_elem_of_lookup_2|]. by rewrite <- Hpv, policy_view_keys.
    + rewrite list_lookup_insert_ne in Hj by done. apply (W5 w); [by eapply list_elem_of_lookup_2|done].
  - rewrite Hperm. by constructor.
Qed.

Lemma remove_law prio_ok lc2pg groups lvl c p :
  controller_wf prio_ok lc2pg groups lvl c → p ∈ all_pages (views c) →
  ∃ c', remove p c = (Ok (), c') ∧ controller_wf prio_ok lc2pg groups lvl c' ∧
    all_pages (views c) ≡ₚ p :: all_pages (views c').
Proof.
  intros [W1 W2 W3 W4 W5 W6] Hp. destruct (remove_ok c p W1 Hp) as (c' & Hrun & Hctl & Hall).
  assert (Hperm : all_pages (views c) ≡ₚ p :: all_pages (views c')).
  { rewrite Hall. apply filter_remove_one; [|done]. apply (NoDup_fmap_1 page_id), W1. }
  exists c'. split; [done|]. split; [|done].
  destruct (remove_frame _ _ _ _ Hrun) as (F1 & F2 & F3 & F4). split.
  - done.
  - congruence.
  - congruence.
  - congruence.
  - intros w pr Hw Hpr. destruct (F4 w pr Hw Hpr) as (w0 & Hw0 & Hpr0). by apply (W5 w0).
  - rewrite Hperm in W6. by apply Forall_cons in W6 as [_ ?].
Qed.

(** Asked for pages it has, a group of one priority gives them. *)
Lemma group_error_uniform prio_ok (v : group_view) k :
  one_priority prio_ok → (∀ pr, pr ∈ v.*1 → prio_ok pr) → StronglySorted Z.lt v.*1 →
  0 ≤ k ≤ Z.of_nat (length (group_pages v)) → group_error v k = None.
Proof.
  intros Hone Hpr Hs Hk. unfold group_error.
  assert (Hf : front v = group_pages v).
  { destruct v as [|[a l] [|[b l'] v]]; [done|by cbn; rewrite app_nil_r|]. exfalso.
    cbn in Hs, Hpr. apply StronglySorted_inv in Hs as [_ [Hlt _]%Forall_cons].
    specialize (Hone a b (Hpr a ltac:(set_solver)) (Hpr b ltac:(set_solver))). lia. }
  rewrite (proj2 (Z.ltb_ge _ _)), group_pages_length, Hf, (proj2 (Z.ltb_ge _ _)); [done|lia..].
Qed.

Lemma first_error_group vs counts :
  (∀ i v k, vs !! i = Some v → counts !! i = Some k → group_error v k = None) →
  first_error vs counts = None.
Proof.
  revert counts. induction vs as [|v vs IH]; intros [|k counts] H; try done.
  rewrite first_error_cons, (H 0%nat v k) by done. apply IH. intros i. apply (H (S i)).
Qed.

Lemma first_error_none vs counts i v k :
  first_error vs counts = None → vs !! i = Some v → counts !! i = Some k → group_error v k = None.
Proof.
  revert counts i. induction vs as [|w vs IH]; intros [|k' counts] i H Hv Hk; try done.
  rewrite first_error_cons in H. destruct (group_error w k') eqn:E; [done|].
  destruct i as [|i]; [cbn in *; congruence|]. by apply (IH counts i).
Qed.

Lemma evict_frame c c' counts r :
  ctl_wf c → length counts = length (_policies c) → evict counts c = (r, c') →
  _life_cycle_grouping c' = _life_cycle_grouping c ∧ _cache_level c' = _cache_level c.
Proof.
  intros Hwf Hl. destruct (first_error (views c) counts) as [e|] eqn:E.
  - destruct (evict_raises c counts e Hwf Hl E) as (c2 & -> & (_ & _ & ? & ?)). intros [= _ <-]. done.
  - destruct (evict_groups_all c counts Hwf Hl) as (c1 & ms & _ & He & _ & _ & Hg & Hc & _).
    unfold evict. rewrite Hl. unfold num_pool_groups. rewrite Z.eqb_refl. cbn [negb].
    rewrite He, E. by intros [= _ <-].
Qed.

Lemma taken_group lc2pg groups lvl prio_ok c counts g l :
  controller_wf prio_ok lc2pg groups lvl c → length counts = groups →
  first_error (views c) counts = None →
  taken_pages (Z.to_nat <$> counts) (views c) !! g = Some l →
  counts !! g = Some (Z.of_nat (length l)) ∧ Forall (in_group lc2pg g) l.
Proof.
  intros Hwf Hl Hf. unfold taken_pages. rewrite lookup_zip_with, list_lookup_fmap.
  destruct (counts !! g) as [k|] eqn:Hk; [|done]. cbn.
  destruct (views c !! g) as [v|] eqn:Hv; [|done]. cbn. intros [= <-].
  pose proof (first_error_none _ _ _ _ _ Hf Hv Hk) as Hge. unfold group_error in Hge.
  destruct (Z.ltb_spec k 0); [done|]. destruct (_ <? k); [done|].
  destruct (Z.ltb_spec (Z.of_nat (length (front v))) k); [done|]. rewrite length_take. split.
  - f_equal. lia.
  - apply Forall_forall. intros p Hp%subseteq_take.
    apply (page_of_group _ _ _ _ _ _ _ _ Hwf Hv). destruct v as [|[a q] v]; [done|]. cbn in *. set_solver.
Qed.

Lemma evict_law prio_ok lc2pg groups lvl c counts :
  controller_wf prio_ok lc2pg groups lvl c → length counts = groups →
  (∃ ls c', evict counts c = (Ok ls, c') ∧ controller_wf prio_ok lc2pg groups lvl c' ∧
     all_pages (views c) ≡ₚ concat ls ++ all_pages (views c') ∧ length ls = groups ∧
     ∀ g l, ls !! g = Some l →
       counts !! g = Some (Z.of_nat (length l)) ∧ Forall (in_group lc2pg g) l) ∨
  (∃ e c', evict counts c = (Raise e, c') ∧ controller_wf prio_ok lc2pg groups lvl c' ∧
     all_pages (views c') ≡ₚ all_pages (views c) ∧
     ((∀ g k, counts !! g = Some k →
         0 ≤ k ≤ Z.of_nat (length (filter (in_group lc2pg g) (all_pages (views c))))) →
      ¬ one_priority prio_ok)).
Proof.
  intros Hwf Hl. pose proof Hwf as [W1 W2 W3 W4 W5 W6].
  assert (Hl' : length counts = length (_policies c)) by (rewrite <- length_views; congruence).
  destruct (first_error (views c) counts) as [e|] eqn:E.
  - right. destruct (evict_raises c counts e W1 Hl' E) as (c2 & Hrun & Hs). exists e, c2.
    pose proof (same_state_wf _ _ Hs W1) as W1'. pose proof Hs as (S1 & S2 & S3 & S4).
    split; [done|]. split; [split; rewrite <- ?S1; first [done|congruence]|]. split; [by rewrite S1|].
    intros Hin Hone. rewrite first_error_group in E; [done|]. intros i v k Hv Hk.
    apply (group_error_uniform prio_ok); [done|intros; eapply W5; [|done]; by eapply list_elem_of_lookup_2| |].
    + apply (cw_groups _ W1 i v Hv).
    + rewrite <- (controller_filter _ _ _ _ _ _ _ Hwf Hv). by apply Hin.
  - left. destruct (evict_returns c counts W1 Hl' E) as (c2 & Hrun & Hv & Hr & W1').
    destruct (evict_frame _ _ _ _ W1 Hl' Hrun) as [F1 F2].
    assert (Hlen : length (Z.to_nat <$> counts) = length (views c)) by (rewrite length_fmap; congruence).
    pose proof (pages_split _ _ Hlen) as Hsplit. rewrite <- Hv in Hsplit.
    exists (taken_pages (Z.to_nat <$> counts) (views c)), c2.
    split; [done|]. split; [split|split; [done|split]].
    + done.
    + congruence.
    + congruence.
    + rewrite Hv, length_zip_with. lia.
    + intros w pr [j Hj]%list_elem_of_lookup. rewrite Hv, lookup_zip_with in Hj.
      destruct ((Z.to_nat <$> counts) !! j); [|done]. cbn in Hj. destruct (views c !! j) as [w0|] eqn:Ew; [|done].
      injection Hj as <-. rewrite drop_front_keys. apply W5. by eapply list_elem_of_lookup_2.
    + rewrite Hsplit in W6. by apply Forall_app in W6 as [_ ?].
    + unfold taken_pages. rewrite length_zip_with. lia.
    + intros g l. by eapply taken_group.
Qed.

#[global] Instance controller_queue_spec (prio_ok : Z → Prop) :
  EvictQueueSpec (PerLevelEvictionController Q) prio_ok (controller_wf prio_ok).
Proof.
  split; cbn [q_schedule q_remove q_evict q_count q_pages controller_queue].
  - intros lc2pg groups lvl c [W1 _ _ _ _ _]. apply W1.
  - intros lc2pg groups lvl c p Hwf Hp. destruct (all_pages_group _ _ Hp) as (i & v & Hv & Hin).
    destruct (page_of_group _ _ _ _ _ _ _ _ Hwf Hv Hin) as [? ?]. split; [done|]. exists i.
    split; [done|]. rewrite <- (cq_length _ _ _ _ _ Hwf). by eapply lookup_lt_Some.
  - intros lc2pg groups lvl c g Hwf Hg. rewrite <- (cq_length _ _ _ _ _ Hwf) in Hg.
    apply lookup_lt_is_Some in Hg as [v Hv]. rewrite (controller_filter _ _ _ _ _ _ _ Hwf Hv).
    destruct (views_lookup _ _ _ Hv) as (pol & _ & <- & Hget). unfold num_evictable_pages.
    rewrite Hget. cbn. by rewrite policy_len_view, group_pages_length.
  - intros. by eapply schedule_ok.
  - intros. by eapply remove_law.
  - intros. by apply evict_law.
Qed.
End controller.
