(* ===== verification/Storage.v ===== *)
(** * The storage manager ([kv_cache_manager_v2/_storage_manager.py], [_page.py])

    Cache levels (GPU first) each hold a pool of slots per pool group and an
    eviction controller.  A page owns a slot of one level; making room at a
    level evicts pages to the next one, and drops the ones that fall off the
    last.  Slots and queues are the interfaces [SlotPool] and [EvictQueue].

    The state holds the page objects that are alive, by identity: a page is
    collected when the last reference to it goes, which is where the model
    calls [drop_page].  [sm_mem] is the content of the slots, of all pools of
    the group together. *)

From S2P Require Import Prelude CacheKey RadixTree KvUtils SlotAllocator Eviction Wp StorageIface.

Local Open Scope Z_scope.

(** ** State *)

(** A [Page]: its slot (the base class) and attributes.  [po_status] is what
    its holder and lock make of it; [node_ref] is set while the page is in the
    queue of its level. *)
Record PageObj := mkPageObj {
  po_slot : Slot;
  po_life_cycle : nat;
  po_level : nat;
  po_priority : Z;
  po_status : PageStatus;
  po_committed : bool;
}.

(** The calls of the recorders and of the event manager. *)
Inductive StorageEvent :=
| migration_recorded (pages : list Z) (slots : list Slot) (src_level dst_level : nat)
| drop_recorded (pages : list Z) (level : nat)
| level_updated (key : bytes) (old_level new_level : nat) (layer_group_id : nat).

(** Which recorders a call was given. *)
Record Recorders := mkRecorders { migration_recorder : bool; drop_recorder : bool }.

(** The block tree as the storage manager sees it: deleting a committed page
    unlinks it from its block, which can remove blocks and unlink their pages;
    [live_key] is the key of the page's block while that is in the tree, and
    [linked] says whether the page is in the storage of such a block. *)
Class BlockTree (T : Type) := {
  unlink_deleted : Z → T → list Z * T;
  live_key : Z → T → option bytes;
  linked : Z → T → bool;
}.

(** [CacheLevelManager] *)
Record Level (P C : Type) := mkLevel { lv_storage : list P; lv_controller : C }.
Arguments mkLevel {P C}.
Arguments lv_storage {P C}.
Arguments lv_controller {P C}.

Record StorageManager (P C T V : Type) := mkStorage {
  sm_levels : list (Level P C);
  sm_pages : gmap Z PageObj;
  sm_tree : T;
  sm_mem : gmap (nat * nat * Z) V;
  sm_next_event : nat;
  sm_log : list StorageEvent;
}.
Arguments mkStorage {P C T V}.
Arguments sm_levels {P C T V}.
Arguments sm_pages {P C T V}.
Arguments sm_tree {P C T V}.
Arguments sm_mem {P C T V}.
Arguments sm_next_event {P C T V}.
Arguments sm_log {P C T V}.

(** What the eviction controller sees of a page. *)
Definition view (id : Z) (o : PageObj) : EvictablePage :=
  mkPage id (Z.of_nat (po_level o)) (po_priority o) (Z.of_nat (po_life_cycle o)).

Definition set_page_slot (o : PageObj) (x : Slot) : PageObj :=
  mkPageObj x (po_life_cycle o) (po_level o) (po_priority o) (po_status o) (po_committed o).
Definition set_cache_level (o : PageObj) (l : nat) : PageObj :=
  mkPageObj (po_slot o) (po_life_cycle o) l (po_priority o) (po_status o) (po_committed o).

Definition ids_of (ls : list (list EvictablePage)) : list (list Z) :=
  (λ l : list EvictablePage, page_id <$> l) <$> ls.

Section storage.
Context {P C T V : Type} `{!SlotPool P, !EvictQueue C, !BlockTree T}.
(** [_life_cycle_grouping] and [num_pool_groups]; whether there is an event
    manager. *)
Context (lc2pg : list nat) (num_pool_groups : nat) (has_event_manager : bool).
#[local] Abbreviation SM := (StorageManager P C T V).
Implicit Types s : SM.

Definition num_cache_levels s : nat := length (sm_levels s).
Definition is_last_level s (level : nat) : bool := (S level =? num_cache_levels s)%nat.

Definition with_levels s (l : list (Level P C)) : SM :=
  mkStorage l (sm_pages s) (sm_tree s) (sm_mem s) (sm_next_event s) (sm_log s).
Definition with_objs s (ps : gmap Z PageObj) : SM :=
  mkStorage (sm_levels s) ps (sm_tree s) (sm_mem s) (sm_next_event s) (sm_log s).
Definition with_tree s (t : T) : SM :=
  mkStorage (sm_levels s) (sm_pages s) t (sm_mem s) (sm_next_event s) (sm_log s).
Definition with_mem s (m : gmap (nat * nat * Z) V) : SM :=
  mkStorage (sm_levels s) (sm_pages s) (sm_tree s) m (sm_next_event s) (sm_log s).
Definition with_log s (l : list StorageEvent) : SM :=
  mkStorage (sm_levels s) (sm_pages s) (sm_tree s) (sm_mem s) (sm_next_event s) l.

(** [self._levels[level].storage._pool_groups[pg_idx]] and
    [self._levels[level].controller] *)
Definition pool_at s (level pg : nat) : option P :=
  lv ← sm_levels s !! level; lv_storage lv !! pg.
Definition ctrl_at s (level : nat) : option C := lv_controller <$> sm_levels s !! level.

Definition set_pool (level pg : nat) (p : P) s : SM :=
  with_levels s (alter (λ lv, mkLevel (<[pg := p]> (lv_storage lv)) (lv_controller lv)) level (sm_levels s)).
Definition set_ctrl (level : nat) (c : C) s : SM :=
  with_levels s (alter (λ lv, mkLevel (lv_storage lv) c) level (sm_levels s)).

(** A call on a pool group, and on a controller. *)
Definition with_pool {A} (level pg : nat) (m : M P A) : M SM A := λ s,
  match pool_at s level pg with
  | None => (Raise IndexError, s)
  | Some p => let '(r, p') := m p in (r, set_pool level pg p' s)
  end.
Definition with_ctrl {A} (level : nat) (m : M C A) : M SM A := λ s,
  match ctrl_at s level with
  | None => (Raise IndexError, s)
  | Some c => let '(r, c') := m c in (r, set_ctrl level c' s)
  end.

Definition obj (id : Z) : M SM PageObj := λ s, (of_option ValueError (sm_pages s !! id), s).
Definition set_obj (id : Z) (f : PageObj → PageObj) : M SM () :=
  modify (λ s, with_objs s (alter f id (sm_pages s))).
Definition record (b : bool) (e : StorageEvent) : M SM () :=
  modify (λ s, if b then with_log s (sm_log s ++ [e]) else s).

Definition get_num_free_slots (level pg : nat) : M SM Z := λ s,
  (pool_free <$> of_option IndexError (pool_at s level pg), s).
Definition num_evictable (level pg : nat) : M SM Z := λ s,
  (c ← of_option IndexError (ctrl_at s level); q_count pg c, s).
Definition get_pool_group_index (life_cycle : nat) : result nat :=
  of_option IndexError (lc2pg !! life_cycle).

(** [page.scheduled_for_eviction] *)
Definition scheduled s (id : Z) : bool :=
  match sm_pages s !! id with
  | None => false
  | Some o => match ctrl_at s (po_level o) with
              | None => false
              | Some c => bool_decide (id ∈ page_id <$> q_pages c)
              end
  end.

(** ** Eviction queues *)

Definition is_evictable s (o : PageObj) (level : option nat) : bool :=
  let level := default (po_level o) level in
  (bool_decide (po_status o = DROPPABLE) && po_committed o) ||
  (bool_decide (po_status o = HELD) && (S level <? num_cache_levels s)%nat).

(** [controller.schedule_for_eviction(page)] *)
Definition enqueue (level : nat) (id : Z) : M SM () :=
  o ← obj id; with_ctrl level (q_schedule (view id o)).

Definition schedule_page (id : Z) : M SM () :=
  o ← obj id;
  s ← get;
  if is_evictable s o None then enqueue (po_level o) id else mret ().

Definition exclude_page (id : Z) : M SM () :=
  o ← obj id;
  s ← get;
  assert_ (scheduled s id);;
  with_ctrl (po_level o) (q_remove (view id o)).

(** ** Deleting pages *)

Definition release_slot (life_cycle level : nat) (slot : Slot) : M SM Slot :=
  pg ← lift (get_pool_group_index life_cycle);
  with_pool level pg (pool_release slot).

(** [Page.__del__], after which the object is gone. *)
Definition page_base_del (id : Z) : M SM () :=
  o ← obj id;
  s ← get;
  assert_ (bool_decide (po_status o = DROPPABLE) && negb (scheduled s id));;
  (if has_valid_slot (po_slot o)
   then release_slot (po_life_cycle o) (po_level o) (po_slot o);; mret ()
   else mret ());;
  modify (λ s, with_objs s (delete id (sm_pages s))).

(** [Block._release_pages] on a page it has unlinked: a droppable page that
    waits for eviction leaves its queue, and with it goes the last reference. *)
Definition release_unlinked (id : Z) : M SM () :=
  s ← get;
  match sm_pages s !! id with
  | Some o =>
      if bool_decide (po_status o = DROPPABLE) && scheduled s id
      then exclude_page id;; page_base_del id
      else mret ()
  | None => mret ()
  end.

(** [CommittedPage.__del__] and [UncommittedPage.__del__] *)
Definition drop_page (id : Z) : M SM () :=
  o ← obj id;
  (if po_committed o then
     s ← get;
     let '(unlinked, t) := unlink_deleted id (sm_tree s) in
     put (with_tree s t);;
     for_each release_unlinked unlinked
   else mret ());;
  page_base_del id.

(** [l.clear()] on a list with the last references: from the end. *)
Definition drop_pages (ids : list Z) : M SM () := for_each drop_page (reverse ids).

(** ** Migration *)

(** The copies of [batched_copy]: contents of [src] slots to [dst] slots. *)
Definition copy_slot (m : gmap (nat * nat * Z) V) (t : (nat * nat * Z) * (nat * nat * Z)) :
    gmap (nat * nat * Z) V :=
  partial_alter (λ _, m !! t.1) t.2 m.
Definition batched_copy (tasks : list ((nat * nat * Z) * (nat * nat * Z))) s : SM :=
  with_mem s (foldl copy_slot (sm_mem s) tasks).

(** One copy task per pair, after the checks on the pages. *)
Fixpoint copy_tasks (pg dst_level src_level : nat) (defrag : bool) (l : list (Z * Slot)) :
    M SM (list ((nat * nat * Z) * (nat * nat * Z))) :=
  match l with
  | [] => mret []
  | (src, dst) :: l =>
      o ← obj src;
      s ← get;
      assert_ (defrag || negb (scheduled s src));;
      dst_id ← lift (slot_id dst);
      src_id ← lift (slot_id (po_slot o));
      rest ← copy_tasks pg dst_level src_level defrag l;
      mret (((src_level, pg, src_id), (dst_level, pg, dst_id)) :: rest)
  end.

(** [_emit_cache_level_updated_event] *)
Definition emit_cache_level_updated (id : Z) (old_level new_level : nat)
    (emitted_keys : list (bytes * nat)) : M SM (list (bytes * nat)) :=
  o ← obj id;
  s ← get;
  if negb (has_event_manager && po_committed o) then mret emitted_keys
  else match live_key id (sm_tree s) with
  | None => mret emitted_keys
  | Some key =>
      if bool_decide ((key, po_life_cycle o) ∈ emitted_keys) then mret emitted_keys
      else record true (level_updated key old_level new_level (po_life_cycle o));;
           mret ((key, po_life_cycle o) :: emitted_keys)
  end.

(** The loop body up to [src.set_slot(dst)]; returns whether the page was
    scheduled. *)
Definition take_slot_over (pg src_level : nat) (finish_event : event) (src : Z) (dst : Slot) :
    M SM bool :=
  set_obj src (λ o, set_page_slot o (mkSlot (_slot_id (po_slot o)) finish_event));;
  s ← get;
  let scheduled_for_eviction := scheduled s src in
  (if scheduled_for_eviction then exclude_page src else mret ());;
  o ← obj src;
  emptied ← with_pool src_level pg (pool_release (po_slot o));
  set_obj src (λ o, set_page_slot o emptied);;
  '(x, _) ← lift (set_slot emptied (mkSlot (_slot_id dst) finish_event));
  set_obj src (λ o, set_page_slot o x);;
  mret scheduled_for_eviction.

(** The rest of it. *)
Definition finish_move (src_level dst_level : nat) (emit : bool) (src : Z)
    (scheduled_for_eviction : bool) (keys : list (bytes * nat)) : M SM (list (bytes * nat)) :=
  set_obj src (λ o, set_cache_level o dst_level);;
  keys ← (if emit then emit_cache_level_updated src src_level dst_level keys else mret keys);
  (if scheduled_for_eviction then schedule_page src else mret ());;
  mret keys.

(** [except Exception: for s in dst_slots: dst_pool_group.release(s); raise] *)
Definition abandon {A} (dst_level pg : nat) (slots : list Slot) (e : py_exc) : M SM A :=
  for_each (λ x, with_pool dst_level pg (pool_release x);; mret ()) slots;; raise e.

(** [moved]: the slots already handed over, left empty by [set_slot]. *)
Fixpoint move_pages (pg dst_level src_level : nat) (finish_event : event) (emit : bool)
    (keys : list (bytes * nat)) (moved : list Slot) (l : list (Z * Slot)) : M SM () := λ s,
  match l with
  | [] => (Ok (), s)
  | (src, dst) :: l =>
      match take_slot_over pg src_level finish_event src dst s with
      | (Raise e, s) => abandon dst_level pg (moved ++ dst :: l.*2) e s
      | (Ok sched, s) =>
          match finish_move src_level dst_level emit src sched keys s with
          | (Raise e, s) => abandon dst_level pg (moved ++ mkSlot None None :: l.*2) e s
          | (Ok keys, s) =>
              move_pages pg dst_level src_level finish_event emit keys
                (moved ++ [mkSlot None None]) l s
          end
      end
  end.

(** The [try] block of [_batched_migrate], once the slots are there; the CUDA
    stream that waits for their events and the copies on it are one step. *)
Definition migrate_into (pg dst_level src_level : nat) (src_pages : list Z) (dst_slots : list Slot)
    (update_src defrag : bool) (rec : Recorders) : M SM (option (list Slot)) := λ s,
  match (assert_ (length dst_slots =? length src_pages)%nat;;
         copy_tasks pg dst_level src_level defrag (zip src_pages dst_slots)) s with
  | (Raise e, s) => abandon dst_level pg dst_slots e s
  | (Ok tasks, s) =>
      (modify (batched_copy tasks);;
       s ← get;
       let finish_event := Some (sm_next_event s) in
       put (mkStorage (sm_levels s) (sm_pages s) (sm_tree s) (sm_mem s) (S (sm_next_event s)) (sm_log s));;
       record (migration_recorder rec && negb defrag)
         (migration_recorded src_pages dst_slots src_level dst_level);;
       if update_src then
         move_pages pg dst_level src_level finish_event
           (negb defrag && negb (src_level =? dst_level)%nat && has_event_manager)
           [] [] (zip src_pages dst_slots);;
         mret None
       else
         for_each (λ src, set_obj src (λ o, set_page_slot o (mkSlot (_slot_id (po_slot o)) finish_event)))
           src_pages;;
         mret (Some ((λ x, mkSlot (_slot_id x) finish_event) <$> dst_slots))) s
  end.

Definition batched_migrate (pg dst_level src_level : nat) (src_pages : list Z)
    (update_src defrag : bool) (rec : Recorders) : M SM (option (list Slot)) :=
  assert_ (defrag || negb (dst_level =? src_level)%nat);;
  free ← get_num_free_slots dst_level pg;
  if free <? Z.of_nat (length src_pages) then raise OutOfPagesError
  else
    dst_slots ← with_pool dst_level pg (pool_alloc (Z.of_nat (length src_pages)));
    migrate_into pg dst_level src_level src_pages dst_slots update_src defrag rec.

(** ** Making room *)

Definition is_held s (id : Z) : bool :=
  match sm_pages s !! id with Some o => bool_decide (po_status o = HELD) | None => false end.
Definition is_droppable s (id : Z) : bool :=
  match sm_pages s !! id with Some o => bool_decide (po_status o = DROPPABLE) | None => false end.

(** One pool group of the first loop of [_prepare_free_slots]: the pages to
    evict, the fallen pages left and the held pages taken out of them. *)
Definition plan_group (lvl_id pg : nat) (goal : Z) (fallen_pages : list Z) :
    M SM (Z * (list Z * list Z)) :=
  s ← get;
  old_free_cnt ← get_num_free_slots lvl_id pg;
  evictable_cnt ← num_evictable lvl_id pg;
  let num_to_evict :=
    Z.max 0 (Z.min (goal + Z.of_nat (length fallen_pages) - old_free_cnt) evictable_cnt) in
  let '(rest, held) :=
    if is_last_level s lvl_id then remove_if (is_held s) fallen_pages else (fallen_pages, []) in
  let fallen_held_cnt := Z.of_nat (length held) in
  if is_last_level s lvl_id && (old_free_cnt + evictable_cnt <? fallen_held_cnt)
  then raise OutOfPagesError
  else if old_free_cnt + evictable_cnt - fallen_held_cnt <? goal then raise OutOfPagesError
  else mret (num_to_evict, (rest, held)).

(** [l[-n:]] and what it leaves, for [n >= 0]. *)
Definition split_last {A} (n : Z) (l : list A) : list A * list A :=
  let k := (length l - Z.to_nat n)%nat in (take k l, drop k l).

(** The last level: evicted pages are dropped; of the fallen ones, the held
    pages last, as many are accepted as there is room for. *)
Definition settle_last (rec : Recorders) (lvl_id pg : nat)
    (t : Z * list Z * (list Z * list Z)) : M SM (list Z) :=
  let '(goal, evicted, (rest, held)) := t in
  old_free_cnt ← get_num_free_slots lvl_id pg;
  s ← get;
  assert_ (forallb (is_droppable s) evicted);;
  record (drop_recorder rec && negb (bool_decide (evicted = []))) (drop_recorded evicted lvl_id);;
  drop_pages evicted;;
  new_free_cnt ← get_num_free_slots lvl_id pg;
  assert_ (Z.of_nat (length evicted) + old_free_cnt <=? new_free_cnt);;
  assert_ (Z.of_nat (length held) <=? new_free_cnt);;
  let fallen_pages := rest ++ held in
  let num_accepted := Z.min (new_free_cnt - goal) (Z.of_nat (length fallen_pages)) in
  assert_ (0 <=? num_accepted);;
  let '(refused, accepted) := split_last num_accepted fallen_pages in
  drop_pages refused;;
  mret accepted.

(** Any other level: the evicted pages go in front of the fallen ones; the
    last ones are accepted and the others fall further. *)
Definition settle_mid (lvl_id pg : nat) (t : Z * list Z * list Z) : M SM (list Z * list Z) :=
  let '(goal, evicted, fallen_pages) := t in
  old_free_cnt ← get_num_free_slots lvl_id pg;
  let fallen_pages := evicted ++ fallen_pages in
  let num_accepted := Z.min (old_free_cnt + Z.of_nat (length evicted) - goal)
                            (Z.of_nat (length fallen_pages)) in
  assert_ (0 <=? num_accepted);;
  mret (split_last num_accepted fallen_pages).

(** The key of [partition] for an accepted page. *)
Definition page_place s (id : Z) : result (nat * nat) :=
  o ← of_option ValueError (sm_pages s !! id);
  pg ← get_pool_group_index (po_life_cycle o);
  Ok (po_level o, pg).

Definition migrate_part (rec : Recorders) (lvl_id : nat) (part : (nat * nat) * list Z) : M SM () :=
  let '((src_lvl, pg), ids) := part in
  batched_migrate pg lvl_id src_lvl ids true false rec;;
  for_each (λ id,
    s ← get;
    if is_last_level s lvl_id && is_held s id then mret () else enqueue lvl_id id) ids.

Definition migrate_accepted (rec : Recorders) (lvl_id : nat) (accepted : list Z) : M SM () :=
  s ← get;
  partitioned ← lift (partition (page_place s) accepted);
  for_each (migrate_part rec lvl_id) partitioned.

(** [_prepare_free_slots]; [fuel] is the number of levels left. *)
Fixpoint prepare_levels (rec : Recorders) (fuel : nat) (goals : list (list Z)) (lvl_id : nat)
    (fallen_pages : list (list Z)) : M SM () :=
  match fuel with
  | O => raise OutOfFuel
  | S fuel =>
      s ← get;
      assert_ (forallb (λ id, match sm_pages s !! id with
                              | Some o => (po_level o <? lvl_id)%nat
                              | None => false
                              end) (concat fallen_pages));;
      row ← lift (of_option IndexError (goals !! lvl_id));
      plan ← for_groups (λ pg t, plan_group lvl_id pg t.1 t.2) 0 (zip row fallen_pages);
      evicted ← with_ctrl lvl_id (q_evict plan.*1);
      let evicted := ids_of evicted in
      accepted ←
        (if is_last_level s lvl_id
         then for_groups (settle_last rec lvl_id) 0 (zip (zip row evicted) plan.*2)
         else
           settled ← for_groups (settle_mid lvl_id) 0 (zip (zip row evicted) plan.*2.*1);
           prepare_levels rec fuel goals (S lvl_id) settled.*1;;
           mret settled.*2);
      for_each (migrate_accepted rec lvl_id) accepted
  end.

(** The pages in the queues. *)
Definition queued_ids s : list Z :=
  sm_levels s ≫= λ lv, page_id <$> q_pages (lv_controller lv).

(** When an exception leaves the calls, the pages they had taken from the
    queues lose their last reference, unless they are held.  They are deleted
    here, as soon as the exception has left. *)
Definition unwinding {A} (m : M SM A) : M SM A := λ s,
  match m s with
  | (Ok a, s') => (Ok a, s')
  | (Raise e, s') =>
      (drop_pages (filter (λ id, is_droppable s' id = true ∧ scheduled s' id = false) (queued_ids s));;
       raise e) s'
  end.

Definition goal_rows s (level : nat) (requirements : list Z) : list (list Z) :=
  <[level := requirements]> (replicate (num_cache_levels s) (replicate num_pool_groups 0)).

Definition prepare_free_slots (rec : Recorders) (level : nat) (requirements : list Z) : M SM () :=
  s ← get;
  unwinding (prepare_levels rec (num_cache_levels s) (goal_rows s level requirements) level
               (replicate num_pool_groups [])).

(** [drop_recorder] alone is passed on. *)
Definition force_evict (drop_rec : bool) (level : nat) (min_num_pages : list Z) : M SM () :=
  s ← get;
  unwinding (
    evicted ← with_ctrl level (q_evict min_num_pages);
    let evicted := ids_of evicted in
    if is_last_level s level then
      s ← get;
      assert_ (forallb (is_droppable s) (concat evicted));;
      for_each (λ l, record (drop_rec && negb (bool_decide (l = []))) (drop_recorded l level)) evicted;;
      drop_pages (concat evicted)
    else
      prepare_levels (mkRecorders false drop_rec) (num_cache_levels s)
        (replicate (num_cache_levels s) (replicate num_pool_groups 0)) (S level) evicted).

(** ** Handing out slots *)

(** The requests of the life cycles, added up by pool group. *)
Fixpoint group_counts (lcs : list nat) (num_slots : list Z) (acc : list Z) : result (list Z) :=
  match lcs with
  | [] => Ok acc
  | pg :: lcs =>
      match num_slots with
      | [] => Raise IndexError
      | n :: num_slots =>
          if n <? 0 then Raise LogicError
          else
            a ← of_option IndexError (acc !! pg);
            group_counts lcs num_slots (<[pg := a + n]> acc)
      end
  end.

Fixpoint fits s (level pg : nat) (counts : list Z) : result bool :=
  match counts with
  | [] => Ok true
  | n :: counts =>
      p ← of_option IndexError (pool_at s level pg);
      if n <=? pool_free p then fits s level (S pg) counts else Ok false
  end.

(** The allocations of [new_slots], and the [except] clause: [ret] holds the
    slots of the life cycles before. *)
Fixpoint allocate_cycles (level : nat) (ret : list (nat * list Slot)) (l : list (nat * Z)) :
    M SM (list (list Slot)) := λ s,
  match l with
  | [] => (Ok ret.*2, s)
  | (pg, n) :: l =>
      match with_pool level pg (pool_alloc n) s with
      | (Ok slots, s) => allocate_cycles level (ret ++ [(pg, slots)]) l s
      | (Raise e, s) =>
          (for_each (λ r, for_each (λ x, with_pool level r.1 (pool_release x);; mret ()) r.2) ret;;
           raise e) s
      end
  end.

Definition new_slots (rec : Recorders) (level : nat) (num_slots : list Z) : M SM (list (list Slot)) :=
  counts ← lift (group_counts lc2pg num_slots (replicate num_pool_groups 0));
  s ← get;
  ok ← lift (fits s level 0 counts);
  (if (ok : bool) then mret () else prepare_free_slots rec level counts);;
  s ← get;
  ok ← lift (fits s level 0 counts);
  assert_ ok;;
  allocate_cycles level [] (zip lc2pg num_slots).

Definition new_gpu_slots (rec : Recorders) (num_slots : list Z) : M SM (list (list Slot)) :=
  new_slots rec 0 num_slots.

Definition new_slots_for_pool_group (rec : Recorders) (level pg : nat) (num_slots : Z) :
    M SM (list Slot) :=
  if num_slots <? 0 then raise LogicError
  else
    free ← get_num_free_slots level pg;
    (if free <? num_slots
     then prepare_free_slots rec level (<[pg := num_slots]> (replicate num_pool_groups 0))
     else mret ());;
    free ← get_num_free_slots level pg;
    assert_ (num_slots <=? free);;
    with_pool level pg (pool_alloc num_slots).
End storage.
