(* ===== verification/StorageInv.v ===== *)
(** * The storage manager's invariant

    [st_inv X R s]: every page alive owns an occupied slot of its level and
    pool group that no other page owns; the slots in [R] are occupied by no
    page (the callers hold them); the queues hold pages of their level, all of
    them in [X] and evictable.  Free slots are then what capacity, [R] and the
    resident pages leave ([free_res]). *)

From S2P Require Import Prelude CacheKey RadixTree KvUtils SlotAllocator Eviction Wp StorageIface Storage.

Local Open Scope Z_scope.

Lemma elem_of_concat {A} (x : A) (ls : list (list A)) :
  x ∈ concat ls ↔ ∃ g l, ls !! g = Some l ∧ x ∈ l.
Proof.
  rewrite list_elem_of_In, in_concat. split.
  - intros (l & [g Hg]%list_elem_of_In%list_elem_of_lookup & Hx%list_elem_of_In). eauto.
  - intros (g & l & Hl%list_elem_of_lookup_2 & Hx). exists l. by rewrite <- !list_elem_of_In.
Qed.

Section storage_inv.
Context {P C T V : Type} `{!SlotPool P, !EvictQueue C, !BlockTree T}.
Context (pool_wf : P → Prop) `{!SlotPoolSpec P pool_wf}.
Context (prio_ok : Z → Prop) (queue_wf : list nat → nat → nat → C → Prop).
Context `{!EvictQueueSpec C prio_ok queue_wf}.
Context (lc2pg : list nat) (G NL : nat).
#[local] Abbreviation SM := (StorageManager P C T V).
Implicit Types (s : SM) (o : PageObj) (id : Z) (X : gset Z) (R : nat → nat → gset Z).

(** ** Places *)

(** Level, pool group and slot of a page. *)
Definition place o : option (nat * nat * Z) :=
  g ← lc2pg !! po_life_cycle o; i ← _slot_id (po_slot o); Some (po_level o, g, i).

Definition resides (L g : nat) o : Prop := po_level o = L ∧ lc2pg !! po_life_cycle o = Some g.
#[global] Instance resides_dec L g o : Decision (resides L g o).
Proof. unfold resides. apply _. Defined.

Definition res s (L g : nat) : gset Z := dom (filter (λ x, resides L g x.2) (sm_pages s)).

Lemma elem_of_res s L g id :
  id ∈ res s L g ↔ ∃ o, sm_pages s !! id = Some o ∧ resides L g o.
Proof.
  unfold res. rewrite elem_of_dom. split.
  - intros [o [Ho Hr]%map_lookup_filter_Some]. by exists o.
  - intros (o & Ho & Hr). exists o. by apply map_lookup_filter_Some.
Qed.

Lemma place_resides o L g i :
  place o = Some (L, g, i) ↔ resides L g o ∧ _slot_id (po_slot o) = Some i.
Proof.
  unfold place, resides. destruct (lc2pg !! po_life_cycle o) as [g'|]; cbn; [|naive_solver].
  destruct (_slot_id (po_slot o)) as [j|]; cbn; naive_solver.
Qed.

Definition free_at s (L g : nat) : Z := from_option pool_free 0 (pool_at s L g).
Definition cap_at s (L g : nat) : Z := from_option pool_capacity 0 (pool_at s L g).

Definition queued s id : Prop := ∃ L c, ctrl_at s L = Some c ∧ id ∈ page_id <$> q_pages c.

Record st_inv X R s : Prop := {
  si_len : num_cache_levels s = NL;
  si_pools : ∀ L g, (L < NL)%nat → (g < G)%nat → ∃ p, pool_at s L g = Some p ∧ pool_wf p;
  si_ctrls : ∀ L, (L < NL)%nat → ∃ c, ctrl_at s L = Some c ∧ queue_wf lc2pg G L c;
  si_pages : ∀ id o, sm_pages s !! id = Some o → prio_ok (po_priority o) ∧
    ∃ L g i, place o = Some (L, g, i) ∧ (L < NL)%nat ∧ (g < G)%nat;
  si_occ : ∀ L g p i, (g < G)%nat → pool_at s L g = Some p →
    i ∈ pool_occupied p ↔
    i ∈ R L g ∨ ∃ id o, sm_pages s !! id = Some o ∧ place o = Some (L, g, i);
  si_raw : ∀ id o L g i, sm_pages s !! id = Some o → place o = Some (L, g, i) → i ∉ R L g;
  si_inj : ∀ id id' o o' l, sm_pages s !! id = Some o → sm_pages s !! id' = Some o' →
    place o = Some l → place o' = Some l → id = id';
  si_queue : ∀ L c p, ctrl_at s L = Some c → p ∈ q_pages c →
    page_id p ∈ X ∧ ∃ o, sm_pages s !! page_id p = Some o ∧ view (page_id p) o = p ∧
      is_evictable s o None = true;
}.

(** ** Reading and replacing pools and queues *)

Lemma at_level s L g p : pool_at s L g = Some p → (L < num_cache_levels s)%nat.
Proof. unfold pool_at. intros (lv & Hlv & _)%bind_Some. by eapply lookup_lt_Some. Qed.

Lemma ctrl_level s L c : ctrl_at s L = Some c → (L < num_cache_levels s)%nat.
Proof. unfold ctrl_at. intros (lv & Hlv & _)%fmap_Some. by eapply lookup_lt_Some. Qed.

Lemma set_pool_len L g p s : num_cache_levels (set_pool L g p s) = num_cache_levels s.
Proof. unfold num_cache_levels, set_pool. cbn. by rewrite length_alter. Qed.

Lemma set_ctrl_len L c s : num_cache_levels (set_ctrl L c s) = num_cache_levels s.
Proof. unfold num_cache_levels, set_ctrl. cbn. by rewrite length_alter. Qed.

Lemma lookup_alter_level (l : list (Level P C)) f L L' :
  alter f L l !! L' = if decide (L' = L) then f <$> l !! L' else l !! L'.
Proof.
  case_decide as H; [subst|]; [apply list_lookup_alter_eq|by apply list_lookup_alter_ne].
Qed.

Lemma pool_at_set_pool L g p p0 s L' g' :
  pool_at s L g = Some p0 →
  pool_at (set_pool L g p s) L' g' = if decide (L' = L ∧ g' = g) then Some p else pool_at s L' g'.
Proof.
  unfold pool_at, set_pool. cbn. rewrite lookup_alter_level. intros (lv & Hlv & Hp)%bind_Some.
  destruct (decide (L' = L)) as [->|HL]; [|rewrite decide_False by naive_solver; done].
  rewrite Hlv. cbn. destruct (decide (g' = g)) as [->|Hg].
  - rewrite decide_True by done. apply list_lookup_insert_eq. by eapply lookup_lt_Some.
  - rewrite decide_False by naive_solver. by apply list_lookup_insert_ne.
Qed.

Lemma ctrl_at_set_pool L g p s L' : ctrl_at (set_pool L g p s) L' = ctrl_at s L'.
Proof.
  unfold ctrl_at, set_pool. cbn. rewrite lookup_alter_level. case_decide; [|done].
  by destruct (sm_levels s !! L').
Qed.

Lemma pool_at_set_ctrl L c s L' g : pool_at (set_ctrl L c s) L' g = pool_at s L' g.
Proof.
  unfold pool_at, set_ctrl. cbn. rewrite lookup_alter_level. case_decide; [|done].
  by destruct (sm_levels s !! L').
Qed.

Lemma ctrl_at_set_ctrl L c c0 s L' :
  ctrl_at s L = Some c0 →
  ctrl_at (set_ctrl L c s) L' = if decide (L' = L) then Some c else ctrl_at s L'.
Proof.
  unfold ctrl_at, set_ctrl. cbn. rewrite lookup_alter_level. intros (lv & Hlv & _)%fmap_Some.
  case_decide as HL; [|done]. subst. by rewrite Hlv.
Qed.

Lemma evictable_len s s' o l :
  num_cache_levels s' = num_cache_levels s → is_evictable s' o l = is_evictable s o l.
Proof. unfold is_evictable. by intros ->. Qed.

(** ** Consequences *)

Section facts.
Context {X : gset Z} {R : nat → nat → gset Z} {s : SM} (Hi : st_inv X R s).

Lemma page_place id o : sm_pages s !! id = Some o →
  ∃ g i, place o = Some (po_level o, g, i) ∧ (po_level o < NL)%nat ∧ (g < G)%nat ∧
    lc2pg !! po_life_cycle o = Some g ∧ _slot_id (po_slot o) = Some i ∧ prio_ok (po_priority o).
Proof.
  intros Ho. destruct (si_pages _ _ _ Hi id o Ho) as (Hp & L & g & i & Hpl & HL & Hg).
  pose proof Hpl as [[<- Hlc] Hs]%place_resides. eauto 10.
Qed.

Lemma queued_page id : queued s id →
  id ∈ X ∧ ∃ o c, sm_pages s !! id = Some o ∧ is_evictable s o None = true ∧
    ctrl_at s (po_level o) = Some c ∧ view id o ∈ q_pages c.
Proof.
  intros (L & c & Hc & (p & -> & Hp)%list_elem_of_fmap).
  destruct (si_queue _ _ _ Hi L c p Hc Hp) as (HX & o & Ho & Hv & He). split; [done|].
  exists o. pose proof (ctrl_level _ _ _ Hc) as HL. rewrite (si_len _ _ _ Hi) in HL.
  destruct (si_ctrls _ _ _ Hi L HL) as (c' & Hc' & Hwf). replace c' with c in * by congruence.
  destruct (q_groups _ _ _ _ p Hwf Hp) as [Hlv _]. rewrite <- Hv in Hlv. cbn in Hlv.
  assert (po_level o = L) as -> by lia. exists c. rewrite Hv. done.
Qed.

Lemma scheduled_queued id : scheduled s id = true ↔ queued s id.
Proof.
  unfold scheduled. split.
  - destruct (sm_pages s !! id) as [o|]; [|done]. destruct (ctrl_at s (po_level o)) as [c|] eqn:Hc; [|done].
    intros H%bool_decide_eq_true. by exists (po_level o), c.
  - intros (_ & o & c & -> & _ & -> & Hv)%queued_page. apply bool_decide_eq_true.
    by apply (list_elem_of_fmap_2 page_id) in Hv.
Qed.

Lemma not_scheduled id : ¬ queued s id → scheduled s id = false.
Proof. intros Hq. destruct (scheduled s id) eqn:E; [|done]. by apply scheduled_queued in E. Qed.

(** Occupied slots: those in [R] and one per resident page. *)
Lemma occupied_size L g p :
  (g < G)%nat → pool_at s L g = Some p →
  size (pool_occupied p) = (size (R L g) + size (res s L g))%nat.
Proof.
  intros Hg Hp. pose (f := λ id, default 0 (sm_pages s !! id ≫= λ o, _slot_id (po_slot o))).
  assert (Hf : ∀ id, id ∈ res s L g → ∃ o, sm_pages s !! id = Some o ∧ place o = Some (L, g, f id)).
  { intros id (o & Ho & Hr)%elem_of_res. exists o. split; [done|].
    destruct (page_place id o Ho) as (g' & i & _ & _ & _ & _ & Hs & _). unfold f. rewrite Ho. cbn.
    rewrite Hs. by apply place_resides. }
  assert (Hnd : NoDup (f <$> elements (res s L g))).
  { apply NoDup_fmap_2_strong; [|apply NoDup_elements].
    intros x y Hx%elem_of_elements Hy%elem_of_elements He.
    destruct (Hf x Hx) as (ox & Hox & Hpx), (Hf y Hy) as (oy & Hoy & Hpy). rewrite He in Hpx.
    by apply (si_inj _ _ _ Hi x y ox oy (L, g, f y)). }
  assert (Hocc : pool_occupied p = R L g ∪ list_to_set (f <$> elements (res s L g))).
  { apply set_eq. intros i. rewrite (si_occ _ _ _ Hi L g p i Hg Hp), elem_of_union, elem_of_list_to_set.
    f_equiv. rewrite list_elem_of_fmap. split.
    - intros (id & o & Ho & Hpl). pose proof Hpl as [Hr Hs]%place_resides.
      exists id. unfold f. rewrite Ho. cbn. rewrite Hs. split; [done|].
      apply elem_of_elements, elem_of_res. eauto.
    - intros (id & -> & Hid%elem_of_elements). destruct (Hf id Hid) as (o & ? & ?). eauto. }
  rewrite Hocc, size_union.
  - rewrite size_list_to_set by done. by rewrite length_fmap.
  - intros i Hr (id & -> & Hid%elem_of_elements)%elem_of_list_to_set%list_elem_of_fmap.
    destruct (Hf id Hid) as (o & Ho & Hpl). by apply (si_raw _ _ _ Hi id o L g (f id)).
Qed.

Lemma free_res L g :
  (L < NL)%nat → (g < G)%nat →
  free_at s L g = cap_at s L g - Z.of_nat (size (R L g)) - Z.of_nat (size (res s L g)) ∧
  0 ≤ free_at s L g.
Proof.
  intros HL Hg. destruct (si_pools _ _ _ Hi L g HL Hg) as (p & Hp & Hwf).
  unfold free_at, cap_at. rewrite Hp. cbn. destruct (pool_free_spec p Hwf) as [-> ?].
  rewrite (occupied_size L g p Hg Hp) in *. lia.
Qed.
End facts.

(** ** Calls that change the queues only *)

Record quiet s s' : Prop := {
  qt_pages : sm_pages s' = sm_pages s;
  qt_mem : sm_mem s' = sm_mem s;
  qt_pools : ∀ L g, pool_at s' L g = pool_at s L g;
}.

#[global] Instance quiet_preorder : PreOrder quiet.
Proof. split; [done|]. intros a b c [? ? Hp] [? ? Hp']. split; congruence. Qed.

Lemma quiet_res s s' L g : quiet s s' → res s' L g = res s L g.
Proof. intros [Hp _ _]. unfold res. by rewrite Hp. Qed.

Lemma quiet_free s s' L g : quiet s s' → free_at s' L g = free_at s L g.
Proof. intros [_ _ Hp]. unfold free_at. by rewrite Hp. Qed.

Lemma quiet_cap s s' L g : quiet s s' → cap_at s' L g = cap_at s L g.
Proof. intros [_ _ Hp]. unfold cap_at. by rewrite Hp. Qed.

Lemma set_ctrl_quiet L c s : quiet s (set_ctrl L c s).
Proof. split; try done. intros. apply pool_at_set_ctrl. Qed.

Lemma inv_set_ctrl X R s L c0 c :
  st_inv X R s → ctrl_at s L = Some c0 → queue_wf lc2pg G L c →
  (∀ p, p ∈ q_pages c → page_id p ∈ X ∧ ∃ o, sm_pages s !! page_id p = Some o ∧
     view (page_id p) o = p ∧ is_evictable s o None = true) →
  st_inv X R (set_ctrl L c s).
Proof.
  intros [H1 H2 H3 H4 H5 H6 H7 H8] Hc Hwf Hq. split; try done.
  - by rewrite set_ctrl_len.
  - intros L' g. rewrite pool_at_set_ctrl. apply H2.
  - intros L' HL'. rewrite (ctrl_at_set_ctrl _ _ _ _ _ Hc). case_decide; [subst; eauto|auto].
  - intros L' g p i. rewrite pool_at_set_ctrl. apply H5.
  - intros L' c' p. rewrite (ctrl_at_set_ctrl _ _ _ _ _ Hc). cbn.
    assert (He : ∀ o, is_evictable (set_ctrl L c s) o None = is_evictable s o None)
      by (intros; apply evictable_len, set_ctrl_len).
    setoid_rewrite He. case_decide; [intros [= <-]; apply Hq|apply H8].
Qed.

(** A page is in one queue at most, that of its level. *)
Lemma queued_level X R s L L' c c' j :
  st_inv X R s → ctrl_at s L = Some c → j ∈ page_id <$> q_pages c →
  ctrl_at s L' = Some c' → j ∈ page_id <$> q_pages c' → L = L'.
Proof.
  intros Hi. assert (Hlev : ∀ L c, ctrl_at s L = Some c → j ∈ page_id <$> q_pages c →
    ∃ o, sm_pages s !! j = Some o ∧ po_level o = L).
  { clear -Hi EvictQueueSpec0. intros L c Hc (p & -> & Hp)%list_elem_of_fmap.
    destruct (si_queue _ _ _ Hi L c p Hc Hp) as (_ & o & Ho & Hv & _). exists o. split; [done|].
    pose proof (ctrl_level _ _ _ Hc) as HL. rewrite (si_len _ _ _ Hi) in HL.
    destruct (si_ctrls _ _ _ Hi L HL) as (c' & Hc' & Hwf). replace c' with c in * by congruence.
    destruct (q_groups _ _ _ _ p Hwf Hp) as [Hlv _]. rewrite <- Hv in Hlv. cbn in Hlv. lia. }
  intros Hc Hj Hc' Hj'. destruct (Hlev _ _ Hc Hj) as (o & Ho & <-), (Hlev _ _ Hc' Hj') as (o' & Ho' & <-).
  congruence.
Qed.

Lemma queued_set_ctrl X R s L c0 c ids :
  st_inv X R s → ctrl_at s L = Some c0 → page_id <$> q_pages c0 ≡ₚ ids ++ (page_id <$> q_pages c) →
  NoDup (page_id <$> q_pages c0) →
  ∀ j, queued (set_ctrl L c s) j ↔ queued s j ∧ j ∉ ids.
Proof.
  intros Hi Hc Hperm Hnd j. rewrite Hperm in Hnd. apply NoDup_app in Hnd as (_ & Hdis & _).
  split.
  - intros (L' & c' & Hc' & Hj). rewrite (ctrl_at_set_ctrl _ _ _ _ _ Hc) in Hc'. case_decide as HL.
    + injection Hc' as <-. split; [|intros Hin; by apply (Hdis j)]. exists L, c0. split; [done|].
      rewrite Hperm, elem_of_app. by right.
    + split; [by exists L', c'|]. intros Hin. apply HL.
      assert (Hq : queued s j) by (by exists L', c').
      assert (Hj0 : j ∈ page_id <$> q_pages c0) by (rewrite Hperm, elem_of_app; by left).
      by apply (queued_level _ _ _ _ _ _ _ _ Hi Hc' Hj Hc Hj0).
  - intros [(L' & c' & Hc' & Hj) Hni]. destruct (decide (L' = L)) as [->|HL].
    + exists L, c. rewrite (ctrl_at_set_ctrl _ _ _ _ _ Hc), decide_True by done. split; [done|].
      rewrite Hc in Hc'. injection Hc' as <-. rewrite Hperm, elem_of_app in Hj. naive_solver.
    + exists L', c'. by rewrite (ctrl_at_set_ctrl _ _ _ _ _ Hc), decide_False.
Qed.

#[local] Abbreviation never := (λ _ _, False).

Lemma wp_obj id o Q E s : sm_pages s !! id = Some o → Q o s → wp (obj id) Q E s.
Proof. intros Ho HQ. unfold wp, obj. by rewrite Ho. Qed.

Lemma wp_with_ctrl {A} L (m : M C A) c Q E s :
  ctrl_at s L = Some c →
  match m c with (Ok a, c') => Q a (set_ctrl L c' s) | (Raise e, c') => E e (set_ctrl L c' s) end →
  wp (with_ctrl L m) Q E s.
Proof. intros Hc. unfold wp, with_ctrl. rewrite Hc. by destruct (m c) as [[a|e] c']. Qed.

Lemma wp_with_pool {A} L g (m : M P A) p Q E s :
  pool_at s L g = Some p →
  match m p with (Ok a, p') => Q a (set_pool L g p' s) | (Raise e, p') => E e (set_pool L g p' s) end →
  wp (with_pool L g m) Q E s.
Proof. intros Hc. unfold wp, with_pool. rewrite Hc. by destruct (m p) as [[a|e] p']. Qed.

Lemma wp_exclude X R id s :
  st_inv X R s → queued s id →
  wp (exclude_page id)
    (λ _ s', st_inv X R s' ∧ quiet s s' ∧ ∀ j, queued s' j ↔ queued s j ∧ j ≠ id) never s.
Proof.
  intros Hi Hq. destruct (queued_page Hi id Hq) as (HX & o & c & Ho & He & Hc & Hv).
  unfold exclude_page. apply wp_bind, (wp_obj _ o); [done|]. apply wp_bind, wp_get.
  apply wp_bind, wp_assert; [by apply (scheduled_queued Hi)|].
  pose proof (ctrl_level _ _ _ Hc) as HL. rewrite (si_len _ _ _ Hi) in HL.
  destruct (si_ctrls _ _ _ Hi _ HL) as (c0 & Hc0 & Hwf). replace c0 with c in * by congruence.
  destruct (q_remove_ok _ _ _ _ _ Hwf Hv) as (c' & Hrun & Hwf' & Hperm).
  apply (wp_with_ctrl _ _ c); [done|]. rewrite Hrun. split; [|split; [apply set_ctrl_quiet|]].
  - apply (inv_set_ctrl _ _ _ _ c); [done..|]. intros p Hp. apply (si_queue _ _ _ Hi (po_level o) c); [done|].
    rewrite Hperm. by right.
  - intros j. rewrite (queued_set_ctrl X R s _ c c' [id] Hi Hc); [|by rewrite Hperm|by eapply q_ids].
    by rewrite list_elem_of_singleton.
Qed.

Lemma wp_enqueue X R id o s :
  st_inv X R s → sm_pages s !! id = Some o → ¬ queued s id → id ∈ X →
  is_evictable s o None = true →
  wp (enqueue (po_level o) id)
    (λ _ s', st_inv X R s' ∧ quiet s s' ∧ ∀ j, queued s' j ↔ queued s j ∨ j = id) never s.
Proof.
  intros Hi Ho Hq HX He. destruct (page_place Hi id o Ho) as (g & i & _ & HL & Hg & Hlc & _ & Hpr).
  destruct (si_ctrls _ _ _ Hi _ HL) as (c & Hc & Hwf).
  assert (Hni : id ∉ page_id <$> q_pages c) by (intros Hin; apply Hq; by exists (po_level o), c).
  unfold enqueue. apply wp_bind, (wp_obj _ o); [done|]. apply (wp_with_ctrl _ _ c); [done|].
  destruct (q_schedule_ok lc2pg G (po_level o) c (view id o) g) as (c' & Hrun & Hwf' & Hperm); try done.
  { unfold in_group, page_group, view. cbn. rewrite (proj2 (Z.ltb_ge _ 0)) by lia. by rewrite Nat2Z.id. }
  rewrite Hrun. split; [|split; [apply set_ctrl_quiet|]].
  - apply (inv_set_ctrl _ _ _ _ c); [done..|]. intros p. rewrite Hperm. intros [->|Hp]%elem_of_cons.
    + cbn. eauto.
    + by apply (si_queue _ _ _ Hi (po_level o) c).
  - intros j. split.
    + intros (L' & c2 & Hc2 & Hj). rewrite (ctrl_at_set_ctrl _ _ _ _ _ Hc) in Hc2. case_decide.
      * injection Hc2 as <-. rewrite Hperm, fmap_cons, elem_of_cons in Hj.
        destruct Hj as [->|Hj]; [by right|]. left. by exists (po_level o), c.
      * left. by exists L', c2.
    + intros Hj. destruct (decide (j = id)) as [->|Hne].
      * exists (po_level o), c'. rewrite (ctrl_at_set_ctrl _ _ _ _ _ Hc), decide_True by done.
        split; [done|]. rewrite Hperm. by left.
      * destruct Hj as [(L' & c2 & Hc2 & Hj)|?]; [|done]. destruct (decide (L' = po_level o)) as [->|HL'].
        -- exists (po_level o), c'. rewrite (ctrl_at_set_ctrl _ _ _ _ _ Hc), decide_True by done.
           split; [done|]. replace c2 with c in * by congruence. rewrite Hperm, fmap_cons. by right.
        -- exists L', c2. by rewrite (ctrl_at_set_ctrl _ _ _ _ _ Hc), decide_False.
Qed.

(** ** Calls that change a pool *)

(** [R] with the slots of one pool group changed. *)
Definition upd R (L g : nat) (f : gset Z → gset Z) : nat → nat → gset Z := λ L' g',
  if decide (L' = L ∧ g' = g) then f (R L' g') else R L' g'.

Lemma upd_eq R L g f : upd R L g f L g = f (R L g).
Proof. unfold upd. by rewrite decide_True. Qed.

Lemma upd_ne R L g f L' g' : ¬ (L' = L ∧ g' = g) → upd R L g f L' g' = R L' g'.
Proof. intros. unfold upd. by rewrite decide_False. Qed.

(** A new state of one pool, together with page objects and slots that account
    for it. *)
Lemma inv_set_pool X R R' s L g p0 p ps :
  st_inv X R s → pool_at s L g = Some p0 → pool_wf p →
  (∀ id o, ps !! id = Some o → prio_ok (po_priority o) ∧
     ∃ L g i, place o = Some (L, g, i) ∧ (L < NL)%nat ∧ (g < G)%nat ∧ i ∉ R' L g) →
  (∀ id id' o o' l, ps !! id = Some o → ps !! id' = Some o' →
     place o = Some l → place o' = Some l → id = id') →
  (∀ L' g' p' i, (g' < G)%nat →
     (if decide (L' = L ∧ g' = g) then Some p else pool_at s L' g') = Some p' →
     i ∈ pool_occupied p' ↔ i ∈ R' L' g' ∨ ∃ id o, ps !! id = Some o ∧ place o = Some (L', g', i)) →
  (∀ id, queued s id → ps !! id = sm_pages s !! id) →
  st_inv X R' (with_objs (set_pool L g p s) ps).
Proof.
  intros Hi Hp Hwf Hpages Hinj Hocc Hqueue. destruct Hi as [H1 H2 H3 H4 H5 H6 H7 H8].
  assert (Hlen : num_cache_levels (with_objs (set_pool L g p s) ps) = num_cache_levels s)
    by apply set_pool_len.
  assert (Hpool : ∀ L' g', pool_at (with_objs (set_pool L g p s) ps) L' g' =
    if decide (L' = L ∧ g' = g) then Some p else pool_at s L' g') by (intros; by apply (pool_at_set_pool _ _ _ p0)).
  assert (Hctrl : ∀ L', ctrl_at (with_objs (set_pool L g p s) ps) L' = ctrl_at s L')
    by (intros; apply ctrl_at_set_pool).
  split.
  - congruence.
  - intros L' g' HL' Hg'. rewrite Hpool. case_decide; [eauto|auto].
  - intros L' HL'. rewrite Hctrl. auto.
  - intros id o Ho. destruct (Hpages id o Ho) as (? & L' & g' & i & ? & ? & ? & _). eauto 10.
  - intros L' g' p' i Hg'. rewrite Hpool. by apply Hocc.
  - intros id o L' g' i Ho Hpl. destruct (Hpages id o Ho) as (_ & L2 & g2 & i2 & Hpl2 & _ & _ & Hni).
    congruence.
  - apply Hinj.
  - intros L' c q. rewrite Hctrl. intros Hc Hq. destruct (H8 L' c q Hc Hq) as (HX & o & Ho & Hv & He).
    split; [done|]. exists o. cbn. rewrite (Hqueue (page_id q)); last first.
    { exists L', c. split; [done|]. by apply list_elem_of_fmap_2. }
    split; [done|]. split; [done|]. by rewrite (evictable_len s).
Qed.

Lemma cap_set_pool L g p p0 s L' g' :
  pool_at s L g = Some p0 → pool_capacity p = pool_capacity p0 →
  cap_at (set_pool L g p s) L' g' = cap_at s L' g'.
Proof.
  intros Hp Hc. unfold cap_at. rewrite (pool_at_set_pool _ _ _ p0) by done.
  case_decide as Hd; [|done]. destruct Hd as [-> ->]. by rewrite Hp.
Qed.

(** Tree, contents, events and log are free. *)
Lemma inv_ext X R s s' :
  sm_levels s' = sm_levels s → sm_pages s' = sm_pages s → st_inv X R s → st_inv X R s'.
Proof.
  destruct s as [ls ps t m n lg], s' as [ls' ps' t' m' n' lg']. cbn. intros -> ->.
  by intros [H1 H2 H3 H4 H5 H6 H7 H8].
Qed.

Lemma queued_ext s s' j : (∀ L, ctrl_at s' L = ctrl_at s L) → queued s' j ↔ queued s j.
Proof. intros H. unfold queued. by setoid_rewrite H. Qed.

(** Deleting a page frees its slot. *)
Lemma wp_base_del X R id o s :
  st_inv X R s → sm_pages s !! id = Some o → po_status o = DROPPABLE → ¬ queued s id →
  wp (page_base_del lc2pg id)
    (λ _ s', st_inv X R s' ∧ sm_pages s' = delete id (sm_pages s) ∧ sm_mem s' = sm_mem s ∧
       (∀ L g, cap_at s' L g = cap_at s L g) ∧ ∀ j, queued s' j ↔ queued s j) never s.
Proof.
  intros Hi Ho Hst Hq. destruct (page_place Hi id o Ho) as (g & i & Hpl & HL & Hg & Hlc & Hs & Hpr).
  destruct (si_pools _ _ _ Hi _ _ HL Hg) as (p & Hp & Hwf).
  assert (Hin : i ∈ pool_occupied p) by (apply (si_occ _ _ _ Hi _ _ _ i Hg Hp); eauto).
  destruct (pool_release_ok p (po_slot o) i Hwf Hs Hin) as (p' & Hrun & Hwf' & Hocc & Hcap).
  unfold page_base_del. apply wp_bind, (wp_obj _ o); [done|]. apply wp_bind, wp_get.
  apply wp_bind, wp_assert.
  { by rewrite (not_scheduled Hi), bool_decide_eq_true_2. }
  unfold has_valid_slot. rewrite Hs, bool_decide_eq_true_2 by eauto. apply wp_bind.
  unfold release_slot, get_pool_group_index. apply wp_bind, wp_bind, (wp_lift _ g); [by rewrite Hlc|].
  apply (wp_with_pool _ _ _ p); [done|]. rewrite Hrun. apply wp_ret, wp_modify.
  assert (Hi' : st_inv X R (with_objs (set_pool (po_level o) g p' s) (delete id (sm_pages s)))).
  { apply (inv_set_pool X R R s _ _ p p'); try done.
    - intros id' o' [_ Ho']%lookup_delete_Some. destruct (si_pages _ _ _ Hi _ _ Ho') as (? & L2 & g2 & i2 & H2 & ? & ?).
      split; [done|]. exists L2, g2, i2. split_and!; try done. by eapply si_raw.
    - intros id1 id2 o1 o2 l [_ H1]%lookup_delete_Some [_ H2]%lookup_delete_Some. by apply (si_inj _ _ _ Hi).
    - intros L' g' p2 j Hg' Hp2. setoid_rewrite lookup_delete_Some. case_decide as Hd.
      + destruct Hd as [-> ->]. injection Hp2 as <-. rewrite Hocc, elem_of_difference, elem_of_singleton.
        rewrite (si_occ _ _ _ Hi _ _ _ j Hg' Hp). split.
        * intros [[?|(id' & o' & Ho' & Hpl')] Hne]; [by left|]. right. exists id', o'.
          split; [|done]. split; [|done]. intros <-. congruence.
        * intros [Hr|(id' & o' & [Hne Ho'] & Hpl')].
          -- split; [by left|]. intros ->. by apply (si_raw _ _ _ Hi id o (po_level o) g i).
          -- split; [by eauto|]. intros ->. apply Hne. by apply (si_inj _ _ _ Hi id id' o o' _ Ho Ho' Hpl).
      + rewrite (si_occ _ _ _ Hi _ _ _ j Hg' Hp2). f_equiv. split; [|naive_solver].
        intros (id' & o' & Ho' & Hpl'). exists id', o'. split; [|done]. split; [|done]. intros <-.
        rewrite Ho in Ho'. injection Ho' as <-. rewrite Hpl in Hpl'. injection Hpl' as <- <- <-. by apply Hd.
    - intros id' Hq'. apply lookup_delete_ne. by intros <-. }
  split; [done|]. split; [done|]. split; [done|]. split.
  - intros L' g'. by apply (cap_set_pool (po_level o) g p' p s).
  - intros j. apply queued_ext. intros L'. apply ctrl_at_set_pool.
Qed.
End storage_inv.
