(* ===== verification/StorageDrop.v ===== *)
(** * Dropping pages

    Deleting pages, with the pages the block tree unlinks on the way: exactly
    the pages asked for go, and of the others only droppable ones that wait
    for eviction. *)

From S2P Require Import Prelude CacheKey RadixTree KvUtils SlotAllocator Eviction Wp StorageIface Storage StorageInv.

Local Open Scope Z_scope.

Section storage_drop.
Context {P C T V : Type} `{!SlotPool P, !EvictQueue C, !BlockTree T}.
Context (pool_wf : P → Prop) `{!SlotPoolSpec P pool_wf}.
Context (prio_ok : Z → Prop) (queue_wf : list nat → nat → nat → C → Prop).
Context `{!EvictQueueSpec C prio_ok queue_wf}.
Context (lc2pg : list nat) (G NL : nat).
#[local] Abbreviation SM := (StorageManager P C T V).
#[local] Abbreviation inv := (st_inv pool_wf prio_ok queue_wf lc2pg G NL).
#[local] Abbreviation never := (λ _ _, False).
Implicit Types (s : SM) (o : PageObj) (id : Z) (X D : gset Z) (R : nat → nat → gset Z).

Record dropped D s s' : Prop := {
  dr_sub : ∀ id o, sm_pages s' !! id = Some o → sm_pages s !! id = Some o ∧ id ∉ D;
  dr_kept : ∀ id o, sm_pages s !! id = Some o → id ∉ D →
    ¬ queued s id ∨ po_status o ≠ DROPPABLE → sm_pages s' !! id = Some o;
  dr_queued : ∀ id, queued s' id → queued s id;
  dr_mem : sm_mem s' = sm_mem s;
  dr_cap : ∀ L g, cap_at s' L g = cap_at s L g;
  dr_still : ∀ id, queued s id → is_Some (sm_pages s' !! id) → queued s' id;
}.

Lemma dropped_refl s : dropped ∅ s s.
Proof. by split. Qed.

Lemma dropped_trans D D' s s1 s2 : dropped D s s1 → dropped D' s1 s2 → dropped (D ∪ D') s s2.
Proof.
  intros [A1 A2 A3 A4 A5 A6] [B1 B2 B3 B4 B5 B6]. split; try congruence.
  - intros id o Ho. destruct (B1 _ _ Ho) as [Ho1 ?], (A1 _ _ (proj1 (B1 _ _ Ho))). set_solver.
  - intros id o Ho Hd Hq. apply B2; [apply A2; [done|set_solver|done]|set_solver|].
    destruct Hq as [Hq|?]; [|by right]. left. intros ?%A3. done.
  - intros id ?%B3%A3. done.
  - intros id Hq [o Ho]. destruct (B1 _ _ Ho). apply B6; [apply A6; [done|by exists o]|by exists o].
Qed.

Lemma dropped_res D s s' L g : dropped D s s' → res lc2pg s' L g ⊆ res lc2pg s L g ∖ D.
Proof.
  intros Hd id (o & Ho & Hr)%elem_of_res. destruct (dr_sub _ _ _ Hd id o Ho).
  apply elem_of_difference. split; [|done]. apply elem_of_res. eauto.
Qed.

(** Fewer residents leave more free slots. *)
Lemma free_grows X X' R s s' D L g :
  inv X R s → inv X' R s' → (L < NL)%nat → (g < G)%nat → cap_at s' L g = cap_at s L g →
  D ⊆ res lc2pg s L g → res lc2pg s' L g ⊆ res lc2pg s L g ∖ D →
  free_at s L g + Z.of_nat (size D) ≤ free_at s' L g.
Proof.
  intros Hi Hi' HL Hg Hcap HD Hres. destruct (free_res _ _ _ _ _ _ Hi L g HL Hg) as [-> _].
  destruct (free_res _ _ _ _ _ _ Hi' L g HL Hg) as [-> _]. rewrite Hcap.
  pose proof (subseteq_size _ _ Hres). rewrite size_difference in * by done.
  pose proof (subseteq_size _ _ HD). lia.
Qed.

Lemma wp_release_unlinked X R id s :
  inv X R s → wp (release_unlinked lc2pg id) (λ _ s', inv X R s' ∧ dropped ∅ s s') never s.
Proof.
  intros Hi. unfold release_unlinked. apply wp_bind, wp_get.
  destruct (sm_pages s !! id) as [o|] eqn:Ho; [|apply wp_ret; by split; [|apply dropped_refl]].
  destruct (bool_decide _ && scheduled s id) eqn:Hb; [|apply wp_ret; by split; [|apply dropped_refl]].
  apply andb_prop in Hb as [Hst%bool_decide_eq_true Hq%(scheduled_queued _ _ _ _ _ _ Hi)].
  eapply wp_call; [by eapply (wp_exclude _ _ _ _ _ _ X R)| |done].
  intros [] s1 (Hi1 & [Hp1 Hm1 Hpl1] & Hq1).
  eapply wp_mono; [eapply (wp_base_del _ _ _ _ _ _ X R id o s1 Hi1); [by rewrite Hp1|done|by rewrite Hq1; intros []]| |done].
  intros [] s2 (Hi2 & Hp2 & Hm2 & Hc2 & Hq2). split; [done|]. rewrite Hp1 in Hp2. split.
  - intros id' o'. rewrite Hp2. intros [_ ?]%lookup_delete_Some. split; [done|set_solver].
  - intros id' o' Ho' _ Hor. rewrite Hp2. destruct (decide (id' = id)) as [->|Hne].
    + destruct Hor as [?|Hs]; [done|]. congruence.
    + by rewrite lookup_delete_ne.
  - intros j ?%Hq2%Hq1. naive_solver.
  - congruence.
  - intros L g. rewrite Hc2. unfold cap_at. by rewrite Hpl1.
  - intros j Hj. rewrite Hp2. intros [o' [Hne _]%lookup_delete_Some]. apply Hq2, Hq1. auto.
Qed.

Lemma wp_release_all X R ids s :
  inv X R s → wp (for_each (release_unlinked lc2pg) ids) (λ _ s', inv X R s' ∧ dropped ∅ s s') never s.
Proof.
  intros Hi. apply (wp_for_each _ (λ _ s', inv X R s' ∧ dropped ∅ s s')); [|by split; [|apply dropped_refl]].
  intros _ id _ s1 _ [Hi1 Hd1]. eapply wp_mono; [by eapply wp_release_unlinked| |done].
  intros [] s2 [Hi2 Hd2]. split; [done|]. rewrite <- (union_empty_l_L ∅). by eapply dropped_trans.
Qed.

Lemma wp_drop_page X R id o s :
  inv X R s → sm_pages s !! id = Some o → po_status o = DROPPABLE → ¬ queued s id →
  wp (drop_page lc2pg id) (λ _ s', inv X R s' ∧ dropped {[ id ]} s s') never s.
Proof.
  intros Hi Ho Hst Hq. unfold drop_page. apply wp_bind, (wp_obj _ o); [done|].
  eapply (wp_call _ _ (λ _ s', inv X R s' ∧ dropped ∅ s s') never); [| |done].
  - destruct (po_committed o); [|apply wp_ret; by split; [|apply dropped_refl]].
    apply wp_bind, wp_get. destruct (unlink_deleted id (sm_tree s)) as [ids t].
    apply wp_bind. change (wp (for_each (release_unlinked lc2pg) ids)
      (λ _ s', inv X R s' ∧ dropped ∅ s s') never (with_tree s t)).
    eapply wp_mono; [apply (wp_release_all X R); by apply (inv_ext _ _ _ _ _ _ X R s)| |done].
    intros [] s' [Hi' [D1 D2 D3 D4 D5 D6]]. by split.
  - intros [] s1 [Hi1 Hd1]. assert (Ho1 : sm_pages s1 !! id = Some o) by (apply (dr_kept _ _ _ Hd1); [done|set_solver|by left]).
    eapply wp_mono; [eapply (wp_base_del _ _ _ _ _ _ X R id o s1 Hi1 Ho1 Hst)| |done].
    { intros ?%(dr_queued _ _ _ Hd1). done. }
    intros [] s2 (Hi2 & Hp2 & Hm2 & Hc2 & Hq2). split; [done|].
    rewrite <- (union_empty_l_L {[id]}). eapply dropped_trans; [done|]. split; try done.
    + intros id' o'. rewrite Hp2. intros [? ?]%lookup_delete_Some. split; [done|set_solver].
    + intros id' o' Ho' Hne _. rewrite Hp2, lookup_delete_ne; [done|set_solver].
    + intros j. by rewrite Hq2.
    + intros j Hj _. by apply Hq2.
Qed.

(** Pages no one else refers to. *)
Definition loose s id : Prop :=
  ∃ o, sm_pages s !! id = Some o ∧ po_status o = DROPPABLE ∧ ¬ queued s id.

Lemma loose_dropped D s s' id : dropped D s s' → id ∉ D → loose s id → loose s' id.
Proof.
  intros Hd Hni (o & Ho & Hst & Hq). exists o. split_and!; [|done|by intros ?%(dr_queued _ _ _ Hd)].
  apply (dr_kept _ _ _ Hd); auto.
Qed.

Lemma wp_drop_pages X R ids s :
  inv X R s → NoDup ids → (∀ id, id ∈ ids → loose s id) →
  wp (drop_pages lc2pg ids) (λ _ s', inv X R s' ∧ dropped (list_to_set ids) s s') never s.
Proof.
  intros Hi Hnd Hloose. unfold drop_pages.
  assert (Hnd' : NoDup (reverse ids)) by (by rewrite reverse_Permutation).
  assert (Hl' : ∀ id, id ∈ reverse ids → loose s id) by (intros id; rewrite reverse_Permutation; auto).
  replace (list_to_set ids : gset Z) with (list_to_set (reverse ids) : gset Z)
    by (apply set_eq; intros; by rewrite !elem_of_list_to_set, reverse_Permutation).
  generalize dependent (reverse ids). clear ids Hnd Hloose. intros ids.
  revert s Hi. induction ids as [|id ids IH]; intros s Hi Hnd Hl; cbn [for_each].
  { apply wp_ret. split; [done|]. apply dropped_refl. }
  apply NoDup_cons in Hnd as [Hni Hnd]. destruct (Hl id ltac:(left)) as (o & Ho & Hst & Hq).
  eapply wp_call; [by eapply (wp_drop_page X R)| |done]. intros [] s1 [Hi1 Hd1].
  eapply wp_mono; [apply (IH s1 Hi1 Hnd)| |done].
  - intros j Hj. eapply loose_dropped; [done| |by apply Hl; right]. intros ->%elem_of_singleton. done.
  - intros [] s2 [Hi2 Hd2]. split; [done|]. rewrite list_to_set_cons. by eapply dropped_trans.
Qed.
End storage_drop.
