(* ===== verification/StorageMove.v ===== *)
(** * Migrating pages

    [_batched_migrate] moves pages to slots of another level: the pages and
    their contents arrive, their old slots are free, every other page, slot
    and queue is as before. *)

From S2P Require Import Prelude CacheKey RadixTree KvUtils SlotAllocator Eviction Wp StorageIface Storage StorageInv.

Local Open Scope Z_scope.

Lemma alter_page {A} (f : A → A) (m : gmap Z A) i x :
  m !! i = Some x → alter f i m = <[i := f x]> m.
Proof.
  intros Hx. apply map_eq. intros j. destruct (decide (i = j)) as [<-|Hne].
  - by rewrite lookup_alter_eq, lookup_insert_eq, Hx.
  - by rewrite lookup_alter_ne, lookup_insert_ne.
Qed.

Section storage_move.
Context {P C T V : Type} `{!SlotPool P, !EvictQueue C, !BlockTree T}.
Context (pool_wf : P → Prop) `{!SlotPoolSpec P pool_wf}.
Context (prio_ok : Z → Prop) (queue_wf : list nat → nat → nat → C → Prop).
Context `{!EvictQueueSpec C prio_ok queue_wf}.
Context (lc2pg : list nat) (G NL : nat) (hem : bool).
#[local] Abbreviation SM := (StorageManager P C T V).
#[local] Abbreviation inv := (st_inv pool_wf prio_ok queue_wf lc2pg G NL).
#[local] Abbreviation place := (place lc2pg).
#[local] Abbreviation never := (λ _ _, False).
Implicit Types (s : SM) (o : PageObj) (id : Z) (X : gset Z) (R : nat → nat → gset Z).

Definition content s o : option V := place o ≫= λ l, sm_mem s !! l.

(** What a page keeps when it moves. *)
Definition same_page o o' : Prop :=
  po_life_cycle o' = po_life_cycle o ∧ po_priority o' = po_priority o ∧
  po_status o' = po_status o ∧ po_committed o' = po_committed o.

#[global] Instance same_page_preorder : PreOrder same_page.
Proof. split; [done|]. intros a b c (?&?&?&?) (?&?&?&?). unfold same_page. split_and!; congruence. Qed.

(** ** Allocation *)

Lemma inv_R X R R' s : (∀ L g, R' L g = R L g) → inv X R s → inv X R' s.
Proof.
  intros HR [H1 H2 H3 H4 H5 H6 H7 H8]. split; try done.
  - intros L g p i Hg Hp. rewrite HR. by apply H5.
  - intros id o L g i Ho Hpl. rewrite HR. by apply (H6 id o).
Qed.

Lemma wp_alloc X R L g n s :
  inv X R s → (L < NL)%nat → (g < G)%nat → 0 ≤ n ≤ free_at s L g →
  wp (with_pool L g (pool_alloc n))
    (λ slots s', ∃ ids, _slot_id <$> slots = Some <$> ids ∧ NoDup ids ∧ Z.of_nat (length ids) = n ∧
       inv X (upd R L g (λ r, list_to_set ids ∪ r)) s' ∧
       (∀ i, i ∈ ids → (i ∉ R L g) ∧
          ∀ id o, sm_pages s !! id = Some o → place o ≠ Some (L, g, i)) ∧
       sm_pages s' = sm_pages s ∧ sm_mem s' = sm_mem s ∧ (∀ L, ctrl_at s' L = ctrl_at s L) ∧
       ∀ L' g', cap_at s' L' g' = cap_at s L' g') never s.
Proof.
  intros Hi HL Hg Hn. destruct (si_pools _ _ _ _ _ _ _ _ _ Hi L g HL Hg) as (p & Hp & Hwf).
  unfold free_at in Hn. rewrite Hp in Hn. cbn in Hn.
  destruct (pool_alloc_ok p n Hwf Hn) as (slots & p' & ids & Hrun & Hwf' & Hids & Hnd & Hlen & Hfresh & Hocc & Hcap).
  assert (Hnew : ∀ i, i ∈ ids → (i ∉ R L g) ∧ ∀ id o, sm_pages s !! id = Some o → place o ≠ Some (L, g, i)).
  { intros i Hin. specialize (Hfresh i Hin). rewrite (si_occ _ _ _ _ _ _ _ _ _ Hi L g p i Hg Hp) in Hfresh.
    split; [tauto|]. intros id o Ho Hpl. apply Hfresh. eauto. }
  apply (wp_with_pool _ _ _ p); [done|]. rewrite Hrun. exists ids. split_and!; try done.
  - apply (inv_ext _ _ _ _ _ _ X _ (with_objs (set_pool L g p' s) (sm_pages s))); [done..|].
    apply (inv_set_pool _ _ _ _ _ _ X R _ s L g p p'); try done.
    + intros id o Ho. destruct (si_pages _ _ _ _ _ _ _ _ _ Hi id o Ho) as (Hpr & L' & g' & i & Hpl & HL' & Hg').
      split; [done|]. exists L', g', i. split_and!; try done. unfold upd. pose proof (si_raw _ _ _ _ _ _ _ _ _ Hi _ _ _ _ _ Ho Hpl).
      case_decide as Hd; [|done]. destruct Hd as [-> ->]. rewrite elem_of_union, elem_of_list_to_set.
      intros [Hin|?]; [|done]. by destruct (proj2 (Hnew i Hin) id o Ho).
    + intros id id' o o' l. apply (si_inj _ _ _ _ _ _ _ _ _ Hi).
    + intros L' g' p2 i Hg' Hp2. unfold upd. case_decide as Hd.
      * destruct Hd as [-> ->]. injection Hp2 as <-. rewrite Hocc, !elem_of_union, elem_of_list_to_set.
        rewrite (si_occ _ _ _ _ _ _ _ _ _ Hi L g p i Hg Hp). tauto.
      * by apply (si_occ _ _ _ _ _ _ _ _ _ Hi).
  - intros L'. apply ctrl_at_set_pool.
  - intros L' g'. by apply (cap_set_pool L g p' p s).
Qed.

(** ** One page *)

Lemma take_over_run X R g src dst fin id x o i j s :
  inv X R s → sm_pages s !! id = Some o → place o = Some (src, g, j) → ¬ queued s id →
  _slot_id x = Some i → (dst < NL)%nat → i ∈ R dst g →
  ∃ p p', pool_at s src g = Some p ∧ pool_wf p' ∧ pool_occupied p' = pool_occupied p ∖ {[ j ]} ∧
    pool_capacity p' = pool_capacity p ∧
    take_slot_over g src fin id x s =
      (Ok false, with_objs (set_pool src g p' s) (<[id := set_page_slot o (mkSlot (Some i) fin)]> (sm_pages s))).
Proof.
  intros Hi Ho Hpl Hq Hx HL Hin. pose proof Hpl as [[Hlv Hlc] Hs]%place_resides.
  destruct (page_place _ _ _ _ _ _ Hi id o Ho) as (g' & i' & Hpl' & HL' & Hg & _ & _ & _).
  rewrite Hpl in Hpl'. injection Hpl' as Hsrc <- <-. rewrite <- Hsrc in HL'.
  destruct (si_pools _ _ _ _ _ _ _ _ _ Hi src g HL' Hg) as (p & Hp & Hwf).
  assert (Hj : j ∈ pool_occupied p) by (apply (si_occ _ _ _ _ _ _ _ _ _ Hi src g p j Hg Hp); eauto).
  destruct (pool_release_ok p (mkSlot (Some j) fin) j Hwf eq_refl Hj) as (p' & Hrun & Hwf' & Hocc & Hcap).
  exists p, p'. split_and!; try done. unfold take_slot_over, set_obj.
  set (o1 := set_page_slot o (mkSlot (Some j) fin)).
  pose (s1 := with_objs s (<[id := o1]> (sm_pages s))).
  assert (Hs1 : with_objs s (alter (λ o, set_page_slot o (mkSlot (_slot_id (po_slot o)) fin)) id (sm_pages s)) = s1).
  { unfold s1, o1. erewrite alter_page by done. by rewrite Hs. }
  assert (Hsch : scheduled s1 id = false).
  { rewrite <- (not_scheduled _ _ _ _ _ _ Hi id Hq). unfold scheduled, s1. cbn.
    by rewrite lookup_insert_eq, Ho. }
  mrun. rewrite Hs1, Hsch. unfold obj, with_pool. cbn [sm_pages s1 with_objs].
  rewrite lookup_insert_eq. cbn [of_option].
  change (pool_at s1 src g) with (pool_at s src g). rewrite Hp. cbn [po_slot o1 set_page_slot].
  rewrite Hrun. unfold set_slot. cbn. rewrite Hx. cbn. f_equal. unfold with_objs. cbn. f_equal.
  apply map_eq. intros k. destruct (decide (k = id)) as [->|Hne].
  - by rewrite !lookup_alter_eq, !lookup_insert_eq.
  - by rewrite !lookup_alter_ne, !lookup_insert_ne.
Qed.

Lemma finish_move_run src dst emit id o keys s :
  sm_pages s !! id = Some o →
  ∃ keys' lg, finish_move hem src dst emit id false keys s =
    (Ok keys', with_log (with_objs s (<[id := set_cache_level o dst]> (sm_pages s))) lg).
Proof.
  intros Ho. unfold finish_move, set_obj, emit_cache_level_updated, record, obj. mrun.
  rewrite (alter_page _ _ _ _ Ho). destruct emit; [|by exists keys, (sm_log s)].
  cbn [sm_pages with_objs]. rewrite lookup_insert_eq. cbn [of_option].
  destruct (negb _); [by exists keys, (sm_log s)|].
  destruct (live_key _ _); [|by exists keys, (sm_log s)].
  destruct (bool_decide _); [by exists keys, (sm_log s)|]. cbn. by eexists _, _.
Qed.

(** The page's old slot is free and its new one is no longer in [R]. *)
Lemma move_inv X R g src dst id o o' i j p p' s :
  inv X R s → sm_pages s !! id = Some o → place o = Some (src, g, j) → ¬ queued s id →
  (dst < NL)%nat → i ∈ R dst g → place o' = Some (dst, g, i) → po_priority o' = po_priority o →
  pool_at s src g = Some p → pool_wf p' → pool_occupied p' = pool_occupied p ∖ {[ j ]} →
  inv X (upd R dst g (λ r, r ∖ {[ i ]})) (with_objs (set_pool src g p' s) (<[id := o']> (sm_pages s))).
Proof.
  intros Hi Ho Hpl Hq HL Hin Hpl' Hpr Hp Hwf Hocc.
  pose proof Hi as [_ _ _ Ipages Iocc Iraw Iinj _].
  assert (Hg : (g < G)%nat).
  { destruct (Ipages id o Ho) as (_ & L2 & g2 & i2 & H2 & _ & ?). congruence. }
  assert (HnotR : ∀ L2 g2 i2 id2 o2, <[id := o']> (sm_pages s) !! id2 = Some o2 →
            place o2 = Some (L2, g2, i2) → i2 ∉ upd R dst g (λ r, r ∖ {[ i ]}) L2 g2).
  { intros L2 g2 i2 id2 o2. destruct (decide (id2 = id)) as [->|Hne].
    - rewrite lookup_insert_eq. intros [= <-]. rewrite Hpl'. intros [= <- <- <-]. rewrite upd_eq. set_solver.
    - rewrite lookup_insert_ne by done. intros Ho2 Hpl2. pose proof (Iraw _ _ _ _ _ Ho2 Hpl2).
      unfold upd. case_decide; set_solver. }
  assert (Hold : ∀ id2 o2, sm_pages s !! id2 = Some o2 → place o2 ≠ Some (dst, g, i)).
  { intros id2 o2 Ho2 Hpl2. by apply (Iraw _ _ _ _ _ Ho2 Hpl2). }
  apply (inv_set_pool _ _ _ _ _ _ X R _ s src g p p'); try done.
  - intros id2 o2 Ho2. pose proof (λ L2 g2 i2, HnotR L2 g2 i2 id2 o2 Ho2) as Hni.
    destruct (decide (id2 = id)) as [->|Hne].
    + rewrite lookup_insert_eq in Ho2. injection Ho2 as <-. rewrite Hpr. split; [by destruct (Ipages id o Ho)|].
      exists dst, g, i. eauto.
    + rewrite lookup_insert_ne in Ho2 by done. destruct (Ipages id2 o2 Ho2) as (? & L2 & g2 & i2 & ? & ? & ?).
      split; [done|]. exists L2, g2, i2. eauto.
  - intros id1 id2 o1 o2 l Ho1 Ho2 Hl1 Hl2. apply lookup_insert_Some in Ho1 as [[<- <-]|[Hn1 Ho1]];
      apply lookup_insert_Some in Ho2 as [[<- <-]|[Hn2 Ho2]]; [done|..].
    + exfalso. apply (Hold id2 o2 Ho2). congruence.
    + exfalso. apply (Hold id1 o1 Ho1). congruence.
    + by apply (Iinj id1 id2 o1 o2 l).
  - intros L2 g2 p2 k Hg2 Hp2.
    transitivity ((k ∈ R L2 g2 ∨ ∃ id2 o2, sm_pages s !! id2 = Some o2 ∧ place o2 = Some (L2, g2, k)) ∧
                  (L2, g2, k) ≠ (src, g, j)).
    { case_decide as Hd.
      - destruct Hd as [-> ->]. injection Hp2 as <-.
        rewrite Hocc, elem_of_difference, elem_of_singleton, (Iocc _ _ _ k Hg Hp). naive_solver.
      - rewrite (Iocc _ _ _ k Hg2 Hp2). naive_solver. }
    clear Hp2. split.
    + intros [[Hr|(id2 & o2 & Ho2 & Hpl2)] Hne].
      * unfold upd. case_decide as Hd; [destruct Hd as [-> ->]|by left].
        destruct (decide (k = i)) as [->|]; [|left; set_solver].
        right. exists id, o'. by rewrite lookup_insert_eq.
      * right. exists id2, o2. rewrite lookup_insert_ne; [done|]. intros <-. congruence.
    + intros [Hr|(id2 & o2 & Ho2 & Hpl2)].
      * assert (Hr' : k ∈ R L2 g2) by (unfold upd in Hr; case_decide; set_solver).
        split; [by left|]. intros [= -> -> ->]. by apply (Iraw _ _ _ _ _ Ho Hpl).
      * destruct (decide (id2 = id)) as [->|Hne].
        -- rewrite lookup_insert_eq in Ho2. injection Ho2 as <-. rewrite Hpl' in Hpl2. injection Hpl2 as <- <- <-.
           split; [by left|]. intros [= -> ->]. by apply (Hold id o Ho).
        -- rewrite lookup_insert_ne in Ho2 by done. split; [eauto|]. intros He. apply Hne.
           apply (Iinj id2 id o2 o _ Ho2 Ho Hpl2). congruence.
  - intros id2 Hq2. apply lookup_insert_ne. by intros <-.
Qed.

(** ** The loop *)

Definition slots_of (l : list (Z * Slot)) : list Z := omap (λ x, _slot_id x.2) l.

(** Pairs of a page at [(src, g)], in no queue, and a slot of [R] at [(dst, g)]. *)
Definition ready R (g src dst : nat) s (l : list (Z * Slot)) : Prop :=
  ∀ id x, (id, x) ∈ l → ∃ o j i, sm_pages s !! id = Some o ∧ place o = Some (src, g, j) ∧
    ¬ queued s id ∧ _slot_id x = Some i ∧ i ∈ R dst g.

Record moved (g dst : nat) (l : list (Z * Slot)) s s' : Prop := {
  mv_other : ∀ id, id ∉ l.*1 → sm_pages s' !! id = sm_pages s !! id;
  mv_pages : ∀ id x, (id, x) ∈ l → ∃ o o' i, sm_pages s !! id = Some o ∧
    sm_pages s' !! id = Some o' ∧ same_page o o' ∧ _slot_id x = Some i ∧ place o' = Some (dst, g, i);
  mv_mem : sm_mem s' = sm_mem s;
  mv_cap : ∀ L g, cap_at s' L g = cap_at s L g;
  mv_queued : ∀ j, queued s' j ↔ queued s j;
}.

Lemma move_one_run X R g src dst fin emit keys id x l s :
  inv X R s → (dst < NL)%nat → ready R g src dst s ((id, x) :: l) →
  ∃ i s1 keys' s', _slot_id x = Some i ∧ take_slot_over g src fin id x s = (Ok false, s1) ∧
    finish_move hem src dst emit id false keys s1 = (Ok keys', s') ∧
    inv X (upd R dst g (λ r, r ∖ {[ i ]})) s' ∧ moved g dst [(id, x)] s s'.
Proof.
  intros Hi HL Hrd. destruct (Hrd id x ltac:(left)) as (o & j & i & Ho & Hpl & Hq & Hx & Hin).
  destruct (take_over_run X R g src dst fin id x o i j s) as (p & p' & Hp & Hwf & Hocc & Hcap & Hrun); try done.
  set (o1 := set_page_slot o (mkSlot (Some i) fin)) in *.
  set (s1 := with_objs (set_pool src g p' s) (<[id := o1]> (sm_pages s))) in *.
  destruct (finish_move_run src dst emit id o1 keys s1) as (keys' & lg & Hfin).
  { cbn. by rewrite lookup_insert_eq. }
  set (o2 := set_cache_level o1 dst) in *.
  assert (Hpl2 : place o2 = Some (dst, g, i)).
  { apply place_resides. apply place_resides in Hpl as [[_ ?] _]. done. }
  exists i, s1, keys', (with_log (with_objs s1 (<[id := o2]> (sm_pages s1))) lg).
  split; [done|]. split; [done|]. split; [done|]. split.
  - eapply inv_ext; [| |eapply (move_inv X R g src dst id o o2 i j p p')]; try done.
    cbn. by rewrite insert_insert_eq.
  - split; cbn; try done.
    + intros k Hk. rewrite !lookup_insert_ne by set_solver. done.
    + intros k y [[= -> ->]|?%not_elem_of_nil]%elem_of_cons; [|done].
      exists o, o2, i. rewrite lookup_insert_eq. done.
    + intros L' g'. by apply (cap_set_pool src g p' p s).
    + intros k. apply queued_ext. intros L'. apply ctrl_at_set_pool.
Qed.

Lemma moved_cons g dst id x l s s1 s2 :
  id ∉ l.*1 → moved g dst [(id, x)] s s1 → moved g dst l s1 s2 → moved g dst ((id, x) :: l) s s2.
Proof.
  intros Hni [A1 A2 A3 A4 A5] [B1 B2 B3 B4 B5]. split; try congruence.
  - intros k Hk. rewrite B1, A1; [done|set_solver..].
  - intros k y [[= -> ->]|Hin]%elem_of_cons.
    + destruct (A2 id x ltac:(left)) as (o & o' & i & Ho & Ho' & ?). exists o, o', i. rewrite B1; done.
    + destruct (B2 k y Hin) as (o & o' & i & Ho & Ho' & ?). exists o, o', i.
      rewrite A1 in Ho; [done|]. cbn. intros ->%list_elem_of_singleton. apply Hni.
      by apply (list_elem_of_fmap_2 fst _ _ Hin).
  - intros j. by rewrite B5, A5.
Qed.

Lemma wp_move_pages X R g src dst fin emit keys mv l s :
  inv X R s → (dst < NL)%nat → NoDup l.*1 → NoDup (slots_of l) → ready R g src dst s l →
  wp (move_pages hem g dst src fin emit keys mv l)
    (λ _ s', inv X (upd R dst g (λ r, r ∖ list_to_set (slots_of l))) s' ∧ moved g dst l s s') never s.
Proof.
  revert R keys mv s. induction l as [|[id x] l IH]; intros R keys mv s Hi HL Hnd Hns Hrd.
  { unfold wp. cbn. split; [|by split; intros; try set_solver].
    eapply inv_R; [|done]. intros L' g'. unfold upd. case_decide; set_solver. }
  destruct (move_one_run X R g src dst fin emit keys id x l s Hi HL Hrd)
    as (i & s1 & keys' & s2 & Hx & Hrun & Hfin & Hi2 & Hmv).
  cbn [fmap list_fmap fst] in Hnd. apply NoDup_cons in Hnd as [Hni Hnd].
  unfold slots_of in Hns. cbn in Hns. rewrite Hx in Hns. apply NoDup_cons in Hns as [Hnx Hns].
  unfold wp. cbn [move_pages]. rewrite Hrun, Hfin. fold (slots_of l) in *.
  change (wp (move_pages hem g dst src fin emit keys' (mv ++ [mkSlot None None]) l)
    (λ _ s', inv X (upd R dst g (λ r, r ∖ list_to_set (slots_of ((id, x) :: l)))) s' ∧
             moved g dst ((id, x) :: l) s s') never s2).
  eapply wp_mono; [apply (IH (upd R dst g (λ r, r ∖ {[ i ]}))); try done| |done].
  - intros k y Hin. destruct (Hrd k y ltac:(by right)) as (o & j & i2 & Ho & Hpl & Hq & Hy & Hi2').
    exists o, j, i2. rewrite (mv_other _ _ _ _ _ Hmv); last first.
    { cbn. intros ->%list_elem_of_singleton. apply Hni. by apply (list_elem_of_fmap_2 fst _ _ Hin). }
    rewrite (mv_queued _ _ _ _ _ Hmv), upd_eq. split_and!; try done.
    assert (i2 ∈ slots_of l) by (apply list_elem_of_omap; by exists (k, y)). set_solver.
  - intros [] s3 [Hi3 Hmv3]. split; [|by eapply moved_cons].
    eapply inv_R; [|done]. intros L' g'. unfold slots_of. cbn. rewrite Hx. cbn.
    unfold upd. case_decide; [|done]. set_solver.
Qed.

(** ** Copies *)

Lemma copy_other (ts : list ((nat * nat * Z) * (nat * nat * Z))) (m : gmap (nat * nat * Z) V) a :
  a ∉ ts.*2 → foldl copy_slot m ts !! a = m !! a.
Proof.
  revert m. induction ts as [|t ts IH]; intros m Ha; [done|].
  rewrite fmap_cons, not_elem_of_cons in Ha. destruct Ha as [Hne Ha]. cbn [foldl].
  rewrite IH by done. unfold copy_slot. by apply lookup_partial_alter_ne.
Qed.

Lemma copy_task (ts : list ((nat * nat * Z) * (nat * nat * Z))) (m : gmap (nat * nat * Z) V) a b :
  NoDup ts.*2 → (∀ x, x ∈ ts.*1 → x ∉ ts.*2) → (a, b) ∈ ts → foldl copy_slot m ts !! b = m !! a.
Proof.
  revert m. induction ts as [|t ts IH]; intros m Hnd Hdis Hin; [by apply not_elem_of_nil in Hin|].
  rewrite fmap_cons in Hnd. apply NoDup_cons in Hnd as [Hni Hnd].
  apply elem_of_cons in Hin as [<-|Hin]; cbn [foldl].
  - rewrite copy_other by done. unfold copy_slot. by rewrite lookup_partial_alter_eq.
  - rewrite (IH _ Hnd); [| |done].
    + unfold copy_slot. apply lookup_partial_alter_ne. intros He.
      apply (Hdis a); [|rewrite <- He; left]. right. by apply (list_elem_of_fmap_2 fst _ _ Hin).
    + intros x Hx Hx'. apply (Hdis x); by right.
Qed.

Definition task_for s (g src dst : nat) (x : Z * Slot) (t : (nat * nat * Z) * (nat * nat * Z)) : Prop :=
  ∃ o j i, sm_pages s !! x.1 = Some o ∧ place o = Some (src, g, j) ∧ _slot_id x.2 = Some i ∧
    t = ((src, g, j), (dst, g, i)).

Lemma copy_tasks_run X R g src dst l s :
  inv X R s → ready R g src dst s l →
  ∃ ts, copy_tasks g dst src false l s = (Ok ts, s) ∧ Forall2 (task_for s g src dst) l ts.
Proof.
  intros Hi. induction l as [|[id x] l IH]; intros Hrd; [by exists []|].
  destruct (Hrd id x ltac:(left)) as (o & j & i & Ho & Hpl & Hq & Hx & Hin).
  destruct IH as (ts & Hts & Hf); [intros k y ?; apply Hrd; by right|].
  exists (((src, g, j), (dst, g, i)) :: ts). split.
  - cbn [copy_tasks]. unfold obj. mrun. rewrite Ho. cbn [of_option].
    rewrite (not_scheduled _ _ _ _ _ _ Hi id Hq). cbn. unfold slot_id. rewrite Hx. cbn.
    pose proof Hpl as [_ ->]%place_resides. cbn. by rewrite Hts.
  - constructor; [|done]. exists o, j, i. done.
Qed.

Lemma task_slots s g src dst l ts :
  Forall2 (task_for s g src dst) l ts → ts.*2 = (λ i, (dst, g, i)) <$> slots_of l.
Proof.
  induction 1 as [|[id x] t l ts (o & j & i & _ & _ & Hx & ->) _ IH]; [done|].
  unfold slots_of in *. cbn in *. rewrite Hx. cbn. by rewrite IH.
Qed.

(** ** [_batched_migrate] *)

Record migrated (dst : nat) (ids : list Z) R s s' : Prop := {
  mg_other : ∀ id, id ∉ ids → sm_pages s' !! id = sm_pages s !! id;
  mg_moved : ∀ id, id ∈ ids → ∃ o o', sm_pages s !! id = Some o ∧ sm_pages s' !! id = Some o' ∧
    same_page o o' ∧ po_level o' = dst ∧ content s' o' = content s o;
  mg_content : ∀ id o, id ∉ ids → sm_pages s !! id = Some o → content s' o = content s o;
  mg_raw : ∀ L g i, i ∈ R L g → sm_mem s' !! (L, g, i) = sm_mem s !! (L, g, i);
  mg_cap : ∀ L g, cap_at s' L g = cap_at s L g;
  mg_queued : ∀ j, queued s' j ↔ queued s j;
}.

Lemma wp_num_free X R L g Q E s :
  inv X R s → (L < NL)%nat → (g < G)%nat → Q (free_at s L g) s → wp (get_num_free_slots L g) Q E s.
Proof.
  intros Hi HL Hg HQ. destruct (si_pools _ _ _ _ _ _ _ _ _ Hi L g HL Hg) as (p & Hp & _).
  unfold wp, get_num_free_slots. unfold free_at in HQ. by rewrite Hp in HQ |- *.
Qed.

(** From the state after the copies to the state after the loop. *)
Lemma migrated_by_moves R g src dst l ts s s1 s2 s3 :
  Forall2 (task_for s1 g src dst) l ts → sm_pages s1 = sm_pages s → sm_mem s1 = sm_mem s →
  (∀ j, queued s1 j ↔ queued s j) → (∀ L g, cap_at s1 L g = cap_at s L g) →
  sm_pages s2 = sm_pages s → sm_mem s2 = foldl copy_slot (sm_mem s1) ts →
  (∀ j, queued s2 j ↔ queued s1 j) → (∀ L g, cap_at s2 L g = cap_at s1 L g) →
  moved g dst l s2 s3 → src ≠ dst → NoDup (slots_of l) →
  (∀ i, i ∈ slots_of l → (i ∉ R dst g) ∧ ∀ id o, sm_pages s !! id = Some o → place o ≠ Some (dst, g, i)) →
  migrated dst l.*1 R s s3.
Proof.
  intros Hts Hp1 Hm1 Hq1 Hc1 Hp2 Hm2 Hq2 Hc2 [M1 M2 M3 M4 M5] Hne Hns Hfresh.
  pose proof (task_slots _ _ _ _ _ _ Hts) as Hdst.
  assert (Hoth : ∀ a, (∀ i, i ∈ slots_of l → a ≠ (dst, g, i)) → sm_mem s3 !! a = sm_mem s !! a).
  { intros a Ha. rewrite M3, Hm2, copy_other, Hm1; [done|]. rewrite Hdst.
    intros (i & -> & Hi)%list_elem_of_fmap. by apply (Ha i). }
  split.
  - intros id Hid. by rewrite M1, Hp2.
  - intros id ([id' x] & -> & Hin)%list_elem_of_fmap. cbn.
    destruct (M2 _ _ Hin) as (o & o' & i & Ho & Ho' & Hsame & Hx & Hpl').
    exists o, o'. rewrite Hp2 in Ho. split_and!; try done; [by apply place_resides in Hpl' as [[? _] _]|].
    apply list_elem_of_lookup in Hin as [k Hk]. destruct (Forall2_lookup_l _ _ _ _ _ Hts Hk) as (t & Ht & Htask).
    destruct Htask as (o2 & j & i2 & Ho2 & Hpl & Hx2 & ->). cbn in *. rewrite Hp1 in Ho2.
    assert (o2 = o) as -> by congruence. assert (i2 = i) as -> by congruence.
    unfold content. rewrite Hpl', Hpl. cbn. rewrite M3, Hm2.
    rewrite (copy_task ts _ (src, g, j) (dst, g, i)); [by rewrite Hm1|..].
    + rewrite Hdst. apply NoDup_fmap_2; [|done]. by intros ?? [= ->].
    + intros a (t2 & -> & Ht2)%list_elem_of_fmap. rewrite Hdst.
      intros (i3 & He & _)%list_elem_of_fmap. apply list_elem_of_lookup in Ht2 as [k2 Hk2].
      destruct (Forall2_lookup_r _ _ _ _ _ Hts Hk2) as (? & _ & (? & ? & ? & _ & _ & _ & ->)).
      cbn in He. by injection He.
    + by eapply list_elem_of_lookup_2.
  - intros id o Hid Ho. unfold content. destruct (place o) as [a|] eqn:Hpl; [|done]. cbn.
    apply Hoth. intros i Hi ->. by apply (proj2 (Hfresh i Hi) id o Ho).
  - intros L' g' i Hi. apply Hoth. intros i' Hi' [= -> -> ->]. by apply (proj1 (Hfresh i' Hi')).
  - intros L' g'. by rewrite M4, Hc2, Hc1.
  - intros j. by rewrite M5, Hq2, Hq1.
Qed.

Lemma slots_zip (ids : list Z) (slots : list Slot) (js : list Z) :
  _slot_id <$> slots = Some <$> js → length ids = length js →
  length slots = length ids ∧ (zip ids slots).*1 = ids ∧ slots_of (zip ids slots) = js.
Proof.
  revert slots js. induction ids as [|id ids IH]; intros [|x slots] [|i js] Hs Hl; try done.
  cbn in Hs, Hl. injection Hs as Hx Hs. injection Hl as Hl. destruct (IH slots js Hs Hl) as (? & ? & ?).
  unfold slots_of in *. cbn. rewrite Hx. cbn. split_and!; congruence.
Qed.

(** The [try] block, once the slots [js] are in [R']. *)
Lemma wp_migrate_into X R' g src dst ids slots js rec s1 (Q : option (list Slot) → SM → Prop) :
  inv X R' s1 → (dst < NL)%nat → NoDup ids → NoDup js →
  _slot_id <$> slots = Some <$> js → length ids = length js → ready R' g src dst s1 (zip ids slots) →
  (∀ ts s2 s3, Forall2 (task_for s1 g src dst) (zip ids slots) ts →
     sm_pages s2 = sm_pages s1 → sm_mem s2 = foldl copy_slot (sm_mem s1) ts →
     (∀ j, queued s2 j ↔ queued s1 j) → (∀ L g, cap_at s2 L g = cap_at s1 L g) →
     inv X (upd R' dst g (λ r, r ∖ list_to_set js)) s3 → moved g dst (zip ids slots) s2 s3 → Q None s3) →
  wp (migrate_into hem g dst src ids slots true false rec) Q never s1.
Proof.
  intros Hi HL Hnd Hns Hids Hlen Hrd HQ. destruct (slots_zip ids slots js Hids Hlen) as (Hls & Hfst & Hsl).
  destruct (copy_tasks_run X R' g src dst _ s1 Hi Hrd) as (ts & Hts & Htasks).
  unfold wp, migrate_into. mrun. rewrite (proj2 (Nat.eqb_eq _ _)) by lia. rewrite Hts.
  match goal with |- match (let (_, _) := record ?b ?e ?s in _) with _ => _ end => set (s2 := s) end.
  set (e := migration_recorded _ _ _ _).
  assert (Hrec : ∃ lg, record (migration_recorder rec && negb false) e s2 = (Ok (), with_log s2 lg)).
  { unfold record, modify. destruct (_ && _); eexists; [done|]. by instantiate (1 := sm_log s2). }
  destruct Hrec as (lg & ->).
  set (fin := Some (sm_next_event _)). set (emit := (_ && _) && _).
  assert (Hwp : wp (move_pages hem g dst src fin emit [] [] (zip ids slots))
    (λ _ s', inv X (upd R' dst g (λ r, r ∖ list_to_set (slots_of (zip ids slots)))) s' ∧
       moved g dst (zip ids slots) (with_log s2 lg) s') never (with_log s2 lg)).
  { apply wp_move_pages; try done.
    - by apply (inv_ext _ _ _ _ _ _ X R' s1).
    - by rewrite Hfst.
    - by rewrite Hsl. }
  unfold wp in Hwp. destruct (move_pages _ _ _ _ _ _ _ _ _ _) as [[[]|e'] s3]; [|done].
  destruct Hwp as [Hi3 Hmv]. rewrite Hsl in Hi3. by apply (HQ ts (with_log s2 lg) s3).
Qed.

Lemma wp_batched_migrate X R g src dst ids rec s :
  inv X R s → (dst < NL)%nat → (g < G)%nat → src ≠ dst → NoDup ids →
  (∀ id, id ∈ ids → ∃ o, sm_pages s !! id = Some o ∧ resides lc2pg src g o ∧ ¬ queued s id) →
  Z.of_nat (length ids) ≤ free_at s dst g →
  wp (batched_migrate hem g dst src ids true false rec)
    (λ r s', r = None ∧ inv X R s' ∧ migrated dst ids R s s') never s.
Proof.
  intros Hi HL Hg Hne Hnd Hids Hfree. unfold batched_migrate.
  apply wp_bind, wp_assert; [cbn; by rewrite (proj2 (Nat.eqb_neq _ _))|].
  apply wp_bind, (wp_num_free X R); [done..|]. rewrite (proj2 (Z.ltb_ge _ _)) by done.
  eapply wp_call; [apply (wp_alloc X R); [done..|lia]| |done].
  intros slots s1 (js & Hslots & Hnis & Hlen & Hi1 & Hfresh & Hp1 & Hm1 & Hc1 & Hcap1).
  apply Nat2Z.inj in Hlen. destruct (slots_zip ids slots js Hslots) as (Hls & Hfst & Hsl); [done|].
  assert (Hq1 : ∀ j, queued s1 j ↔ queued s j) by (intros; by apply queued_ext).
  eapply (wp_migrate_into X _ g src dst ids slots js rec s1); try done.
  - intros id x Hin. pose proof (list_elem_of_fmap_2 fst _ _ Hin) as Hid. rewrite Hfst in Hid.
    destruct (Hids id Hid) as (o & Ho & Hr & Hq).
    destruct (page_place _ _ _ _ _ _ Hi id o Ho) as (_ & j & _ & _ & _ & _ & Hs & _).
    assert (Hx : ∃ i, _slot_id x = Some i ∧ i ∈ js).
    { apply elem_of_zip_r in Hin. apply (list_elem_of_fmap_2 _slot_id) in Hin. rewrite Hslots in Hin.
      apply list_elem_of_fmap in Hin as (i & ? & ?). eauto. }
    destruct Hx as (i & Hx & Hin'). exists o, j, i. rewrite Hp1, Hq1, upd_eq.
    split_and!; try done; [by apply place_resides|set_solver].
  - intros ts s2 s3 Hts Hp2 Hm2 Hq2 Hc2 Hi3 Hmv. split; [done|]. split.
    + eapply inv_R; [|done]. intros L' g'. unfold upd. case_decide as Hd; [|done]. destruct Hd as [-> ->].
      apply set_eq. intros i. rewrite elem_of_difference, elem_of_union, elem_of_list_to_set.
      split; [|tauto]. intros Hr. split; [by right|]. intros Hin. by apply (proj1 (Hfresh i Hin)).
    + rewrite <- Hfst. eapply (migrated_by_moves R g src dst _ ts s s1 s2 s3); try done.
      * congruence.
      * by rewrite Hsl.
      * by rewrite Hsl.
Qed.
End storage_move.
