(* ===== verification/StorageRoom.v ===== *)
(** * How the storage evolves

    [evolves X R s s']: a page outside [X] is untouched; the others keep their
    identity, attributes and content if they survive, and they survive unless
    they are droppable; the slots in [R] keep their content.  Migrating a list
    of pages to a level is such a change, and only takes the room of those
    pages. *)

From S2P Require Import Prelude CacheKey RadixTree KvUtils SlotAllocator Eviction Wp StorageIface Storage StorageInv.
From S2P Require Import StorageDrop StorageMove.

Local Open Scope Z_scope.

Lemma size_list_to_set_le (l : list Z) : (size (list_to_set l : gset Z) ≤ length l)%nat.
Proof.
  induction l as [|x l IH]; [done|]. rewrite list_to_set_cons, size_union_alt, size_singleton. cbn.
  pose proof (subseteq_size (list_to_set l ∖ {[x]} : gset Z) (list_to_set l) ltac:(set_solver)). lia.
Qed.

Section storage_room.
Context {P C T V : Type} `{!SlotPool P, !EvictQueue C, !BlockTree T}.
Context (pool_wf : P → Prop) `{!SlotPoolSpec P pool_wf}.
Context (prio_ok : Z → Prop) (queue_wf : list nat → nat → nat → C → Prop).
Context `{!EvictQueueSpec C prio_ok queue_wf}.
Context (lc2pg : list nat) (G NL : nat) (hem : bool).
#[local] Abbreviation SM := (StorageManager P C T V).
#[local] Abbreviation inv := (st_inv pool_wf prio_ok queue_wf lc2pg G NL).
#[local] Abbreviation content := (content lc2pg).
#[local] Abbreviation never := (λ _ _, False).
Implicit Types (s : SM) (o : PageObj) (id : Z) (X D : gset Z) (R : nat → nat → gset Z).

Record evolves X R s s' : Prop := {
  ev_cap : ∀ L g, cap_at s' L g = cap_at s L g;
  ev_pages : ∀ id o', sm_pages s' !! id = Some o' →
    ∃ o, sm_pages s !! id = Some o ∧ same_page o o' ∧ content s' o' = content s o;
  ev_alive : ∀ id o, sm_pages s !! id = Some o → po_status o ≠ DROPPABLE → is_Some (sm_pages s' !! id);
  ev_same : ∀ id, id ∉ X → sm_pages s' !! id = sm_pages s !! id;
  ev_raw : ∀ L g i, i ∈ R L g → sm_mem s' !! (L, g, i) = sm_mem s !! (L, g, i);
}.

#[global] Instance evolves_preorder X R : PreOrder (evolves X R).
Proof.
  split.
  - intros s. split; eauto. intros id o Ho. by exists o.
  - intros s1 s2 s3 [A1 A2 A3 A4 A5] [B1 B2 B3 B4 B5]. split; try congruence.
    + intros id o3 Ho3. destruct (B2 _ _ Ho3) as (o2 & Ho2 & H2 & C2).
      destruct (A2 _ _ Ho2) as (o1 & Ho1 & H1 & C1).
      exists o1. split; [done|]. split; [by etrans|congruence].
    + intros id o Ho Hst. destruct (A3 id o Ho Hst) as [o2 Ho2]. destruct (A2 id o2 Ho2) as (o1 & Ho1 & (_ & _ & Hst2 & _) & _).
      apply (B3 id o2 Ho2). congruence.
    + intros id Hid. by rewrite B4, A4.
    + intros L g i Hi. by rewrite B5, A5.
Qed.

Lemma evolves_mono X X' R s s' : X ⊆ X' → evolves X R s s' → evolves X' R s s'.
Proof. intros HX [A1 A2 A3 A4 A5]. split; try done. intros id Hid. apply A4. by intros ?%HX. Qed.

Lemma quiet_evolves X R s s' : quiet s s' → evolves X R s s'.
Proof.
  intros [Hp Hm Hpl]. split; rewrite ?Hp; try done.
  - intros L g. unfold cap_at. by rewrite Hpl.
  - intros id o Ho. exists o. split; [done|]. split; [done|]. unfold StorageMove.content. by rewrite Hm.
  - by rewrite Hm.
Qed.

Lemma dropped_evolves X R D s s' :
  inv X R s → dropped D s s' → D ⊆ X →
  (∀ id o, id ∈ D → sm_pages s !! id = Some o → po_status o = DROPPABLE) → evolves X R s s'.
Proof.
  intros Hi [D1 D2 D3 D4 D5 _] HD Hst. split; try done.
  - intros id o Ho. destruct (D1 _ _ Ho). exists o. split; [done|]. split; [done|].
    unfold StorageMove.content. by rewrite D4.
  - intros id o Ho Hne. exists o. apply D2; [done| |by right]. intros Hin. by apply Hne, (Hst id).
  - intros id Hid. destruct (sm_pages s !! id) as [o|] eqn:Ho.
    + apply D2; [done|set_solver|]. left. intros [? _]%(queued_page _ _ _ _ _ _ Hi). done.
    + destruct (sm_pages s' !! id) as [o|] eqn:Ho'; [|done]. destruct (D1 _ _ Ho'). congruence.
  - by rewrite D4.
Qed.

(** ** Pages on their way down *)

(** A page that may be taken from its level. *)
Definition movable o : Prop := po_status o = HELD ∨ (po_status o = DROPPABLE ∧ po_committed o = true).

Lemma evictable_movable s o l : is_evictable s o l = true → movable o.
Proof.
  unfold is_evictable, movable. intros [[? ?]%andb_prop|[? _]%andb_prop]%orb_prop; [right|left];
    repeat case_bool_decide; done.
Qed.

Lemma movable_evictable s o L :
  movable o → po_level o = L → (po_status o = HELD → is_last_level s L = false) → (L < num_cache_levels s)%nat →
  is_evictable s o None = true.
Proof.
  unfold is_evictable, movable, is_last_level. intros [Hs|[Hs Hc]] <- Hl HL; rewrite Hs.
  - specialize (Hl Hs). rewrite (bool_decide_eq_true_2 (HELD = HELD)) by done.
    apply Nat.eqb_neq in Hl. apply orb_true_iff. right. apply Nat.ltb_lt. cbn. lia.
  - by rewrite Hc.
Qed.

(** [is_evictable], for the number of levels. *)
Definition can_evict o : Prop :=
  (po_status o = DROPPABLE ∧ po_committed o = true) ∨ (po_status o = HELD ∧ (S (po_level o) < NL)%nat).

Lemma can_evict_iff s o : num_cache_levels s = NL → is_evictable s o None = true ↔ can_evict o.
Proof.
  intros Hn. unfold is_evictable, can_evict. rewrite Hn. cbn [default]. split.
  - intros [[H ?]%andb_prop|[H H']%andb_prop]%orb_prop; apply bool_decide_eq_true in H; [by left|].
    right. split; [done|]. by apply Nat.ltb_lt in H'.
  - intros [[-> ->]|[-> Hlt%Nat.ltb_lt]]; [done|].
    rewrite Hlt, (bool_decide_eq_true_2 (HELD = HELD)) by done. apply orb_true_r.
Qed.

(** Pages of group [g] above level [L], in no queue. *)
Record floating X (L g : nat) s (l : list Z) : Prop := {
  fl_nodup : NoDup l;
  fl_pages : ∀ id, id ∈ l → id ∈ X ∧ ¬ queued s id ∧ ∃ o, sm_pages s !! id = Some o ∧
    movable o ∧ (po_level o < L)%nat ∧ lc2pg !! po_life_cycle o = Some g;
}.

Lemma floating_sub X L g s l l' : l' ⊆ l → NoDup l' → floating X L g s l → floating X L g s l'.
Proof. intros Hs Hn [_ H]. split; [done|]. intros id ?%Hs. auto. Qed.

(** ** Arrivals *)

Record arrived X (L : nat) (ids : list Z) R s s' : Prop := {
  ar_evolves : evolves X R s s';
  ar_other : ∀ id, id ∉ ids → sm_pages s' !! id = sm_pages s !! id;
  ar_moved : ∀ id, id ∈ ids → ∃ o o', sm_pages s !! id = Some o ∧ sm_pages s' !! id = Some o' ∧
    same_page o o' ∧ po_level o' = L;
  ar_queued : ∀ j, queued s' j → queued s j ∨ j ∈ ids;
  ar_still : ∀ j, queued s j → queued s' j;
  ar_sched : ∀ id o', id ∈ ids → sm_pages s' !! id = Some o' → can_evict o' → queued s' id;
}.

Lemma arrived_nil X L R s : arrived X L [] R s s.
Proof. split; try done; [by intros ? ?%not_elem_of_nil|by left|by intros ? ? ?%not_elem_of_nil]. Qed.

Lemma arrived_trans X L ids ids' R s s1 s2 :
  (∀ id, id ∈ ids → id ∉ ids') →
  arrived X L ids R s s1 → arrived X L ids' R s1 s2 → arrived X L (ids ++ ids') R s s2.
Proof.
  intros Hdis [A1 A2 A3 A4 A5 A6] [B1 B2 B3 B4 B5 B6]. split.
  - by etrans.
  - intros id [? ?]%not_elem_of_app. by rewrite B2, A2.
  - intros id [Hin|Hin]%elem_of_app.
    + destruct (A3 id Hin) as (o & o' & ? & Ho' & ?). exists o, o'. rewrite B2; auto.
    + destruct (B3 id Hin) as (o & o' & Ho & ?). exists o, o'. rewrite A2 in Ho; [done|].
      intros ?. by apply (Hdis id).
  - intros j [Hj|?]%B4; [|right; apply elem_of_app; by right].
    apply A4 in Hj as [?|?]; [by left|]. right. apply elem_of_app. by left.
  - auto.
  - intros id o' [Hin|Hin]%elem_of_app Ho' He; [|by eapply B6].
    apply B5, (A6 id o'); [done| |done]. rewrite <- B2; auto.
Qed.

(** Residents elsewhere stay or leave; at the level, the pages of the group
    join them. *)
Lemma arrived_res X L ids R s s' L' g :
  arrived X L ids R s s' → L' ≠ L → res lc2pg s' L' g ⊆ res lc2pg s L' g.
Proof.
  intros [_ A2 A3 _ _ _] Hne id (o' & Ho' & Hlv & Hlc)%elem_of_res. destruct (decide (id ∈ ids)) as [Hin|Hni].
  - destruct (A3 id Hin) as (? & o2 & _ & Ho2 & _ & ?). congruence.
  - rewrite A2 in Ho' by done. apply elem_of_res. by exists o'.
Qed.

Lemma arrived_res_at X L ids R s s' g :
  arrived X L ids R s s' →
  ∀ id, id ∈ res lc2pg s' L g → id ∈ res lc2pg s L g ∨
    (id ∈ ids ∧ ∃ o, sm_pages s !! id = Some o ∧ lc2pg !! po_life_cycle o = Some g).
Proof.
  intros [_ A2 A3 _ _ _] id (o' & Ho' & Hlv & Hlc)%elem_of_res. destruct (decide (id ∈ ids)) as [Hin|Hni].
  - right. split; [done|]. destruct (A3 id Hin) as (o & o2 & Ho & Ho2 & (Hl & _) & _). exists o.
    split; [done|]. rewrite <- Hl. congruence.
  - left. rewrite A2 in Ho' by done. apply elem_of_res. by exists o'.
Qed.

Lemma free_change X X' R s s' L g k :
  inv X R s → inv X' R s' → (L < NL)%nat → (g < G)%nat → cap_at s' L g = cap_at s L g →
  (size (res lc2pg s' L g) ≤ size (res lc2pg s L g) + k)%nat →
  free_at s L g - Z.of_nat k ≤ free_at s' L g.
Proof.
  intros Hi Hi' HL Hg Hcap Hs. destruct (free_res _ _ _ _ _ _ Hi L g HL Hg) as [-> _].
  destruct (free_res _ _ _ _ _ _ Hi' L g HL Hg) as [-> _]. rewrite Hcap. lia.
Qed.

(** The room the arrivals of one group take. *)
Lemma arrived_free X L ids R s s' g k :
  inv X R s → inv X R s' → (L < NL)%nat → (g < G)%nat → arrived X L ids R s s' →
  (∀ id o, id ∈ ids → sm_pages s !! id = Some o → lc2pg !! po_life_cycle o = Some g → id ∈ k) →
  free_at s L g - Z.of_nat (length k) ≤ free_at s' L g.
Proof.
  intros Hi Hi' HL Hg Ha Hk. apply (free_change X X R); try done; [apply (ev_cap _ _ _ _ (ar_evolves _ _ _ _ _ _ Ha))|].
  assert (Hsub : res lc2pg s' L g ⊆ res lc2pg s L g ∪ list_to_set k).
  { intros id Hid. apply (arrived_res_at _ _ _ _ _ _ _ Ha) in Hid as [?|(Hin & o & Ho & Hlc)]; [set_solver|].
    apply elem_of_union_r, elem_of_list_to_set. by apply (Hk id o). }
  apply subseteq_size in Hsub. rewrite size_union_alt in Hsub.
  assert (size (list_to_set k ∖ res lc2pg s L g : gset Z) ≤ length k)%nat; [|lia].
  etrans; [apply (subseteq_size _ (list_to_set k : gset Z)); set_solver|]. apply size_list_to_set_le.
Qed.

Lemma arrived_free_other X L ids R s s' L' g :
  inv X R s → inv X R s' → (L' < NL)%nat → (g < G)%nat → arrived X L ids R s s' → L' ≠ L →
  free_at s L' g ≤ free_at s' L' g.
Proof.
  intros Hi Hi' HL Hg Ha Hne. pose proof (free_change X X R s s' L' g 0 Hi Hi' HL Hg) as H.
  pose proof (subseteq_size _ _ (arrived_res _ _ _ _ _ _ L' g Ha Hne)).
  specialize (H (ev_cap _ _ _ _ (ar_evolves _ _ _ _ _ _ Ha) L' g) ltac:(lia)). lia.
Qed.

Lemma migrated_evolves X R L ids s s' :
  (∀ id, id ∈ ids → id ∈ X) → migrated lc2pg L ids R s s' → evolves X R s s'.
Proof.
  intros HX [M1 M2 M3 M4 M5 M6]. split; try done.
  - intros id o' Ho'. destruct (decide (id ∈ ids)) as [Hin|Hni].
    + destruct (M2 id Hin) as (o & o2 & Ho & Ho2 & ? & _ & Hc). exists o.
      assert (o2 = o') as -> by congruence. done.
    + rewrite M1 in Ho' by done. exists o'. split; [done|]. split; [done|]. by apply (M3 id).
  - intros id o Ho _. destruct (decide (id ∈ ids)) as [Hin|Hni].
    + destruct (M2 id Hin) as (? & o2 & _ & Ho2 & _). eauto.
    + rewrite M1 by done. eauto.
  - intros id Hni. apply M1. intros ?%HX. done.
Qed.

Lemma wp_migrate_part X R rec L src g ids s :
  inv X R s → (L < NL)%nat → (g < G)%nat → (src < L)%nat → floating X L g s ids →
  (∀ id o, id ∈ ids → sm_pages s !! id = Some o → po_level o = src) →
  Z.of_nat (length ids) ≤ free_at s L g →
  wp (migrate_part hem rec L ((src, g), ids)) (λ _ s', inv X R s' ∧ arrived X L ids R s s') never s.
Proof.
  intros Hi HL Hg Hsrc [Hnd Hfl] Hlev Hroom. unfold migrate_part.
  eapply wp_call; [eapply (wp_batched_migrate pool_wf prio_ok queue_wf lc2pg G NL hem X R); try done; [lia|]| |done].
  { intros id Hin. destruct (Hfl id Hin) as (_ & Hq & o & Ho & _ & _ & Hlc). exists o.
    split; [done|]. split; [|done]. split; [by apply (Hlev id)|done]. }
  intros r s1 (_ & Hi1 & Hm).
  assert (Hev : evolves X R s s1) by (apply (migrated_evolves X R L ids); [intros id Hin; by destruct (Hfl id Hin)|done]).
  pose proof Hm as [M1 M2 _ _ _ M6].
  pose (Inv := λ (rest : list Z) (s' : SM), inv X R s' ∧ quiet s1 s' ∧
    (∀ j, queued s' j → queued s1 j ∨ j ∈ ids) ∧ (∀ j, queued s1 j → queued s' j) ∧
    (∀ j, j ∈ rest → ¬ queued s' j) ∧
    ∀ j o', j ∈ ids → j ∉ rest → sm_pages s' !! j = Some o' → can_evict o' → queued s' j).
  eapply (wp_mono _ (λ _ s', Inv [] s') _ never); [| |done].
  - apply (wp_for_each _ Inv).
    + intros l1 id l2 s2 Hl (Hi2 & Hqt & Hqs & Hst & Hrest & Hsch). pose proof (qt_pages _ _ Hqt) as Hp.
      assert (Hin : id ∈ ids) by (rewrite Hl; set_solver).
      destruct (M2 id Hin) as (o & o' & Ho & Ho' & (S1 & S2 & S3 & S4) & Hlv & _).
      destruct (Hfl id Hin) as (HX & _ & o0 & Ho0 & Hmov & _ & _). assert (o0 = o) as -> by congruence.
      assert (Hnl : id ∉ l2) by (rewrite Hl in Hnd; apply NoDup_app in Hnd as (_ & _ & [? _]%NoDup_cons); done).
      apply wp_bind, wp_get. destruct (is_last_level s2 L && is_held s2 id) eqn:Hb.
      { apply wp_ret. split_and!; try done; [intros j Hj; apply Hrest; by right|].
        intros j o2 Hj Hnj Ho2 He. destruct (decide (j = id)) as [->|Hne]; [exfalso|].
        - apply andb_prop in Hb as [Hb1 Hb2]. unfold is_held, is_last_level in *. rewrite Ho2 in Hb2.
          apply bool_decide_eq_true in Hb2. apply Nat.eqb_eq in Hb1.
          rewrite (si_len _ _ _ _ _ _ _ _ _ Hi2) in Hb1. rewrite Hp in Ho2. assert (o2 = o') as -> by congruence.
          destruct He as [[? _]|[_ ?]]; [congruence|lia].
        - apply (Hsch j o2); [done|set_solver|done|done]. }
      assert (Ho2 : sm_pages s2 !! id = Some o') by (by rewrite Hp).
      rewrite <- Hlv. eapply wp_mono; [apply (wp_enqueue pool_wf prio_ok queue_wf lc2pg G NL X R id o' s2 Hi2 Ho2)| |done].
      * apply Hrest. left.
      * done.
      * apply (movable_evictable s2 o' L); [|done| |rewrite (si_len _ _ _ _ _ _ _ _ _ Hi2); done].
        { unfold movable in *. by rewrite S3, S4. }
        intros Hh. unfold is_held in Hb. rewrite Ho2, bool_decide_eq_true_2 in Hb by done. by destruct (is_last_level s2 L).
      * intros [] s3 (Hi3 & Hqt3 & Hq3). split; [done|]. split; [by etrans|]. split_and!.
        -- intros j [Hj| ->]%Hq3; [by apply Hqs|by right].
        -- intros j Hj. apply Hq3. left. auto.
        -- intros j Hj. rewrite Hq3. intros [Hj'| ->]; [|done]. by apply (Hrest j); [right|].
        -- intros j o2 Hj Hnj Ho3 He. apply Hq3. destruct (decide (j = id)) as [->|Hne]; [by right|left].
           apply (Hsch j o2); [done|set_solver| |done]. by rewrite <- (qt_pages _ _ Hqt3).
    + split; [done|]. split; [done|]. split_and!; [by left|done| |].
      * intros j Hj. rewrite M6. by destruct (Hfl j Hj) as (_ & ? & _).
      * by intros j o' Hj Hnj.
  - intros [] s2 (Hi2 & Hqt & Hqs & Hst & _ & Hsch). split; [done|]. pose proof (qt_pages _ _ Hqt) as Hp. split.
    + etrans; [done|]. by apply quiet_evolves.
    + intros id Hni. by rewrite Hp, M1.
    + intros id Hin. destruct (M2 id Hin) as (o & o' & ? & ? & ? & ? & _). exists o, o'. by rewrite Hp.
    + intros j [Hj|?]%Hqs; [|by right]. left. by apply M6.
    + intros j Hj. apply Hst. by apply M6.
    + intros id o' Hin. apply Hsch; [done|apply not_elem_of_nil].
Qed.

Lemma floating_arrived X L g ids R s s' l :
  (∀ id, id ∈ l → id ∉ ids) → arrived X L ids R s s' → floating X L g s l → floating X L g s' l.
Proof.
  intros Hd [_ A2 _ A4 _ _] [Hn Hf]. split; [done|]. intros id Hin. destruct (Hf id Hin) as (? & Hq & ?).
  rewrite A2 by auto. split; [done|]. split; [|done]. intros [?|?]%A4; [done|]. by apply (Hd id).
Qed.

Lemma wp_migrate_accepted X R rec L g acc s :
  inv X R s → (L < NL)%nat → (g < G)%nat → floating X L g s acc →
  Z.of_nat (length acc) ≤ free_at s L g →
  wp (migrate_accepted lc2pg hem rec L acc) (λ _ s', inv X R s' ∧ arrived X L acc R s s') never s.
Proof.
  intros Hi HL Hg Hfl Hroom. unfold migrate_accepted. apply wp_bind, wp_get.
  destruct (partition_spec (Storage.page_place lc2pg s) acc) as (d & Hd & Hcl & Hperm).
  { intros id Hin. destruct (fl_pages _ _ _ _ _ Hfl id Hin) as (_ & _ & o & Ho & _ & _ & Hlc).
    unfold Storage.page_place, get_pool_group_index. rewrite Ho. cbn. rewrite Hlc. cbn. eauto. }
  apply wp_bind, (wp_lift _ d); [done|].
  assert (Hnd : NoDup (concat d.*2)) by (rewrite Hperm; apply Hfl).
  eapply (wp_mono _ (λ _ s', ∃ dn, d = dn ++ [] ∧ inv X R s' ∧ arrived X L (concat dn.*2) R s s') _ never).
  - apply (wp_for_each _ (λ rest s', ∃ dn, d = dn ++ rest ∧ inv X R s' ∧ arrived X L (concat dn.*2) R s s')).
    + intros l1 [[src g'] ids] l2 s1 Hl (dn & Hdn & Hi1 & Ha). rewrite Hdn in Hnd, Hperm.
      rewrite fmap_app, concat_app in Hnd, Hperm. cbn in Hnd, Hperm.
      apply NoDup_app in Hnd as (Hn1 & Hdis & Hn2). apply NoDup_app in Hn2 as (Hn2 & _ & _).
      assert (Hsub : ids ⊆ acc) by (intros id ?; rewrite <- Hperm; set_solver).
      assert (Hfl1 : floating X L g s1 ids).
      { apply (floating_arrived X L g (concat dn.*2) R s); [|done|by apply (floating_sub _ _ _ _ acc)].
        intros id Hin Hin'. apply (Hdis id Hin'). set_solver. }
      assert (Hids : ∀ id, id ∈ ids → ∃ o, sm_pages s1 !! id = Some o ∧ po_level o = src ∧ (src < L)%nat ∧ g' = g).
      { intros id Hin. destruct (fl_pages _ _ _ _ _ Hfl id (Hsub id Hin)) as (_ & _ & o & Ho & _ & Hlt & Hlc).
        assert (Hpl : Storage.page_place lc2pg s id = Ok (src, g')) by (apply (proj2 (Hcl (src, g') ids ltac:(rewrite Hdn; set_solver))); done).
        unfold Storage.page_place, get_pool_group_index in Hpl. rewrite Ho in Hpl. cbn in Hpl. rewrite Hlc in Hpl.
        cbn in Hpl. injection Hpl as <- <-. exists o. rewrite (ar_other _ _ _ _ _ _ Ha); [done|].
        intros Hin'. apply (Hdis id Hin'). set_solver. }
      assert (Hlen : (length (concat dn.*2) + length ids ≤ length acc)%nat).
      { apply Permutation_length in Hperm. rewrite !length_app in Hperm. lia. }
      destruct ids as [|id0 ids0]; [by destruct (Hcl (src, g') []); [rewrite Hdn; set_solver|]|].
      destruct (Hids id0 ltac:(left)) as (_ & _ & _ & Hsrc & ->). set (ids := id0 :: ids0) in *.
      eapply wp_mono; [apply (wp_migrate_part X R rec L src g ids s1); try done| |done].
      * intros id o Hin Ho. destruct (Hids id Hin) as (o2 & Ho2 & ? & _). congruence.
      * pose proof (arrived_free X L _ R s s1 g (concat dn.*2) Hi Hi1 HL Hg Ha ltac:(done)). lia.
      * intros [] s2 [Hi2 Ha2]. exists (dn ++ [((src, g), ids)]). split; [by rewrite <- (assoc_L (++))|].
        split; [done|]. rewrite fmap_app, concat_app. cbn. rewrite app_nil_r.
        apply (arrived_trans X L _ _ R s s1 s2); [|done|done]. intros id Hin Hin'. apply (Hdis id Hin). set_solver.
    + exists []. split; [done|]. split; [done|]. apply arrived_nil.
  - intros [] s' (dn & Hdn & Hi' & Ha). rewrite app_nil_r in Hdn. subst dn. split; [done|].
    destruct Ha as [A1 A2 A3 A4 A5 A6]. split; try done.
    + intros id. rewrite <- Hperm. apply A2.
    + intros id. rewrite <- Hperm. apply A3.
    + intros j. rewrite <- Hperm. apply A4.
    + intros id o'. rewrite <- Hperm. apply A6.
  - done.
Qed.
End storage_room.
