(* ===== verification/StorageFree.v ===== *)
(** * Making room at a level

    One level of [_prepare_free_slots]: what the first loop computes
    ([planned]), what the controller gives ([wp_evict]), and the second loop
    for the last level ([wp_settle_last]) and for the others
    ([wp_settle_mid]), both with the result [settled]. *)

From S2P Require Import Prelude CacheKey RadixTree KvUtils SlotAllocator Eviction Wp StorageIface Storage StorageInv.
From S2P Require Import StorageDrop StorageMove StorageRoom.

Local Open Scope Z_scope.

Section storage_free.
Context {P C T V : Type} `{!SlotPool P, !EvictQueue C, !BlockTree T}.
Context (pool_wf : P → Prop) `{!SlotPoolSpec P pool_wf}.
Context (prio_ok : Z → Prop) (queue_wf : list nat → nat → nat → C → Prop).
Context `{!EvictQueueSpec C prio_ok queue_wf}.
Context (lc2pg : list nat) (G NL : nat) (hem : bool).
#[local] Abbreviation SM := (StorageManager P C T V).
#[local] Abbreviation inv := (st_inv pool_wf prio_ok queue_wf lc2pg G NL).
#[local] Abbreviation floating := (floating lc2pg).
#[local] Abbreviation res := (res lc2pg).
#[local] Abbreviation never := (λ _ _, False).
Implicit Types (s : SM) (o : PageObj) (id : Z) (X D : gset Z) (R : nat → nat → gset Z).

(** ** The plan *)

Definition evictable_at s (L g : nat) : Z :=
  from_option (λ c, Z.of_nat (length (filter (in_group lc2pg g) (q_pages c)))) 0 (ctrl_at s L).

Lemma wp_num_evictable X R L g Q E s :
  inv X R s → (L < NL)%nat → (g < G)%nat → Q (evictable_at s L g) s → wp (num_evictable L g) Q E s.
Proof.
  intros Hi HL Hg HQ. destruct (si_ctrls _ _ _ _ _ _ _ _ _ Hi L HL) as (c & Hc & Hwf).
  unfold wp, num_evictable. unfold evictable_at in HQ. rewrite Hc in HQ |- *. cbn.
  by rewrite (q_count_spec _ _ _ _ _ Hwf Hg).
Qed.

(** The fallen pages a level must accept: the held ones, at the last level. *)
Definition must_hold s (L : nat) (fallen : list Z) : list Z :=
  if is_last_level s L then filter (λ id, is_held s id = true) fallen else [].
Definition may_fall s (L : nat) (fallen : list Z) : list Z :=
  if is_last_level s L then filter (λ id, is_held s id = false) fallen else fallen.

Definition short s (L g : nat) (goal : Z) (fallen : list Z) : Prop :=
  free_at s L g + evictable_at s L g < Z.of_nat (length (must_hold s L fallen)) ∨
  free_at s L g + evictable_at s L g - Z.of_nat (length (must_hold s L fallen)) < goal.

Definition to_evict s (L g : nat) (goal : Z) (fallen : list Z) : Z :=
  Z.max 0 (Z.min (goal + Z.of_nat (length fallen) - free_at s L g) (evictable_at s L g)).

Lemma wp_plan_group X R L g goal fallen s :
  inv X R s → (L < NL)%nat → (g < G)%nat →
  wp (plan_group L g goal fallen)
    (λ r s', s' = s ∧ ¬ short s L g goal fallen ∧
       r = (to_evict s L g goal fallen, (may_fall s L fallen, must_hold s L fallen)))
    (λ e s', s' = s ∧ short s L g goal fallen) s.
Proof.
  intros Hi HL Hg. unfold plan_group. apply wp_bind, wp_get.
  apply wp_bind, (wp_num_free pool_wf prio_ok queue_wf lc2pg G NL X R); [done..|].
  apply wp_bind, (wp_num_evictable X R); [done..|]. cbv zeta. fold (to_evict s L g goal fallen).
  replace (if is_last_level s L then remove_if (is_held s) fallen else (fallen, []))
    with (may_fall s L fallen, must_hold s L fallen); last first.
  { unfold may_fall, must_hold. destruct (is_last_level s L); [by rewrite remove_if_spec|done]. }
  assert (Hev : 0 ≤ evictable_at s L g) by (unfold evictable_at; destruct (ctrl_at s L); cbn; lia).
  destruct (free_res _ _ _ _ _ _ Hi L g HL Hg) as [_ Hfr].
  destruct (is_last_level s L && _) eqn:Hb.
  { apply wp_raise. split; [done|]. left. apply andb_prop in Hb as [_ Hb%Z.ltb_lt]. done. }
  destruct (Z.ltb_spec (free_at s L g + evictable_at s L g - Z.of_nat (length (must_hold s L fallen))) goal).
  { apply wp_raise. split; [done|]. by right. }
  apply wp_ret. split; [done|]. split; [|done]. intros [Hs|?]; [|lia].
  unfold must_hold in Hs. destruct (is_last_level s L) eqn:El; [|cbn in Hs; lia].
  apply andb_false_iff in Hb as [?|Hb%Z.ltb_ge]; [done|]. unfold must_hold in Hb. rewrite El in Hb. lia.
Qed.

Definition planned s (L : nat) (row : list Z) (fallen : list (list Z))
    (plan : list (Z * (list Z * list Z))) : Prop :=
  ∀ g goal l, row !! g = Some goal → fallen !! g = Some l →
    ¬ short s L g goal l ∧ plan !! g = Some (to_evict s L g goal l, (may_fall s L l, must_hold s L l)).

Lemma wp_plan X R L row fallen s :
  inv X R s → (L < NL)%nat → length row = G → length fallen = G →
  wp (for_groups (λ pg t, plan_group L pg t.1 t.2) 0 (zip row fallen))
    (λ plan s', s' = s ∧ length plan = G ∧ planned s L row fallen plan)
    (λ e s', s' = s ∧ ∃ g goal l, row !! g = Some goal ∧ fallen !! g = Some l ∧ short s L g goal l) s.
Proof.
  intros Hi HL Hrow Hfall.
  assert (Hz : ∀ k goal l, zip row fallen !! k = Some (goal, l) ↔ row !! k = Some goal ∧ fallen !! k = Some l).
  { intros k goal l. rewrite lookup_zip_with. destruct (row !! k), (fallen !! k); cbn; naive_solver. }
  eapply wp_mono; [apply (wp_for _ _ (λ bs s', s' = s ∧ ∀ k b, bs !! k = Some b → ∃ goal l,
    row !! k = Some goal ∧ fallen !! k = Some l ∧ ¬ short s L k goal l ∧
    b = (to_evict s L k goal l, (may_fall s L l, must_hold s L l))) (λ e s', s' = s ∧
      ∃ g goal l, row !! g = Some goal ∧ fallen !! g = Some l ∧ short s L g goal l))| |done].
  - intros k [goal l] bs s' [Hrk Hfk]%Hz Hlen [-> Hbs]. pose proof (lookup_lt_Some _ _ _ Hrk).
    eapply wp_mono; [apply (wp_plan_group X R); [done|done|lia]|cbn|cbn].
    + intros b s' (-> & Hns & ->). split; [done|]. intros k' b Hb.
      apply lookup_app_Some in Hb as [Hb|[Hge Hb]]; [by apply Hbs|].
      apply list_lookup_singleton_Some in Hb as [Hz' <-]. assert (k' = k) as -> by lia. eauto 10.
    + intros e s' [-> Hs]. eauto 10.
  - done.
  - intros plan s' (Hlen & -> & Hpl). rewrite length_zip_with, Hrow, Hfall, Nat.min_id in Hlen.
    split; [done|]. split; [done|]. intros g goal l Hg Hl. pose proof (lookup_lt_Some _ _ _ Hg).
    destruct (lookup_lt_is_Some_2 plan g) as [b Hb]; [lia|].
    destruct (Hpl g b Hb) as (goal' & l' & ? & ? & ? & ->).
    assert (goal' = goal) as -> by congruence. assert (l' = l) as -> by congruence. done.
Qed.

(** ** Eviction *)

(** The pages taken from the queue of the level, by group. *)
Record taken X (L : nat) s s' (evicted : list (list Z)) : Prop := {
  tk_quiet : quiet s s';
  tk_len : length evicted = G;
  tk_nodup : NoDup (concat evicted);
  tk_pages : ∀ g l id, evicted !! g = Some l → id ∈ l → id ∈ X ∧
    (∃ c, ctrl_at s L = Some c ∧ id ∈ page_id <$> q_pages c) ∧ ¬ queued s' id ∧
    ∃ o, sm_pages s !! id = Some o ∧ resides lc2pg L g o ∧ is_evictable s o None = true;
  tk_queued : ∀ j, queued s' j → queued s j;
  tk_ctrl : ∀ L', L' ≠ L → ctrl_at s' L' = ctrl_at s L';
  tk_still : ∀ j, queued s j → queued s' j ∨ j ∈ concat evicted;
}.

Lemma in_group_life_cycle g id o : in_group lc2pg g (view id o) → lc2pg !! po_life_cycle o = Some g.
Proof.
  unfold in_group, page_group, view. cbn. rewrite (proj2 (Z.ltb_ge _ 0)) by lia. by rewrite Nat2Z.id.
Qed.

Lemma ids_of_lookup ls g l :
  ids_of ls !! g = Some l → ∃ ps, ls !! g = Some ps ∧ l = page_id <$> ps.
Proof. unfold ids_of. rewrite list_lookup_fmap. intros (ps & ? & ->)%fmap_Some. eauto. Qed.

Lemma concat_ids_of ls : concat (ids_of ls) = page_id <$> concat ls.
Proof. unfold ids_of. induction ls as [|l ls IH]; [done|]. cbn. by rewrite fmap_app, IH. Qed.

Lemma wp_evict X R L counts s :
  inv X R s → (L < NL)%nat → length counts = G →
  wp (with_ctrl L (q_evict counts))
    (λ ls s', inv X R s' ∧ taken X L s s' (ids_of ls) ∧
       ∀ g l, ids_of ls !! g = Some l → counts !! g = Some (Z.of_nat (length l)))
    (λ e s', inv X R s' ∧ quiet s s' ∧ (∀ j, queued s' j ↔ queued s j) ∧
       ((∀ g k, counts !! g = Some k → 0 ≤ k ≤ evictable_at s L g) → ¬ one_priority prio_ok)) s.
Proof.
  intros Hi HL Hlen. destruct (si_ctrls _ _ _ _ _ _ _ _ _ Hi L HL) as (c & Hc & Hwf).
  apply (wp_with_ctrl _ _ c); [done|].
  destruct (q_evict_ok _ _ _ _ _ Hwf Hlen) as [(ls & c' & Hrun & Hwf' & Hperm & Hlls & Hls)|
    (e & c' & Hrun & Hwf' & Hperm & Hfail)]; rewrite Hrun.
  - assert (Hpids : page_id <$> q_pages c ≡ₚ (page_id <$> concat ls) ++ (page_id <$> q_pages c'))
      by (by rewrite Hperm, fmap_app).
    pose proof (q_ids _ _ _ _ Hwf) as Hnd.
    pose proof (queued_set_ctrl _ _ _ _ _ _ X R s L c c' _ Hi Hc Hpids Hnd) as Hq.
    split; [|split].
    + apply (inv_set_ctrl _ _ _ _ _ _ X R s L c c'); [done..|]. intros p Hp.
      apply (si_queue _ _ _ _ _ _ _ _ _ Hi L c); [done|]. rewrite Hperm. set_solver.
    + split.
      * apply set_ctrl_quiet.
      * unfold ids_of. by rewrite length_fmap.
      * rewrite concat_ids_of. rewrite Hpids in Hnd. by apply NoDup_app in Hnd as (? & _ & _).
      * intros g l id (ps & Hps & ->)%ids_of_lookup (p & -> & Hp)%list_elem_of_fmap.
        assert (Hin : p ∈ concat ls) by (apply elem_of_concat; eauto).
        assert (Hpc : p ∈ q_pages c) by (rewrite Hperm; set_solver).
        destruct (si_queue _ _ _ _ _ _ _ _ _ Hi L c p Hc Hpc) as (HX & o & Ho & Hv & He).
        split; [done|]. split; [exists c; split; [done|by apply list_elem_of_fmap_2]|]. split.
        { rewrite Hq. intros [_ Hni]. by apply Hni, list_elem_of_fmap_2. }
        exists o. split; [done|]. split; [|done].
        destruct (Hls g ps Hps) as [_ Hg]. rewrite Forall_forall in Hg. specialize (Hg p Hp).
        rewrite <- Hv in Hg. split; [|by eapply in_group_life_cycle].
        destruct (q_groups _ _ _ _ p Hwf Hpc) as [Hlv _]. rewrite <- Hv in Hlv. cbn in Hlv. lia.
      * intros j ?%Hq. tauto.
      * intros L' HL'. rewrite (ctrl_at_set_ctrl _ _ _ _ _ Hc). by rewrite decide_False.
      * intros j Hj. rewrite Hq, concat_ids_of. destruct (decide (j ∈ page_id <$> concat ls)); auto.
    + intros g l (ps & Hps & ->)%ids_of_lookup. rewrite length_fmap. by apply Hls.
  - split; [|split; [apply set_ctrl_quiet|split]].
    + apply (inv_set_ctrl _ _ _ _ _ _ X R s L c c'); [done..|]. intros p Hp.
      apply (si_queue _ _ _ _ _ _ _ _ _ Hi L c); [done|]. by rewrite <- Hperm.
    + intros j. rewrite (queued_set_ctrl _ _ _ _ _ _ X R s L c c' [] Hi Hc); [set_solver|by rewrite Hperm|by eapply q_ids].
    + unfold evictable_at in *. rewrite Hc. cbn. done.
Qed.

(** ** The last level *)

Lemma is_droppable_loose s id : loose s id → is_droppable s id = true.
Proof. intros (o & Ho & Hst & _). unfold is_droppable. by rewrite Ho, bool_decide_eq_true_2. Qed.

Lemma split_last_spec {A} n (l a b : list A) :
  0 ≤ n → n ≤ Z.of_nat (length l) → split_last n l = (a, b) → l = a ++ b ∧ Z.of_nat (length b) = n.
Proof.
  unfold split_last. intros H0 Hn [= <- <-]. rewrite take_drop. split; [done|]. rewrite length_drop. lia.
Qed.

Lemma wp_record b e Q E s :
  (∀ lg, Q () (with_log s lg)) → wp (record b e) Q E s.
Proof. intros H. unfold wp, record, modify. destruct b; [done|]. destruct s. apply (H _). Qed.

Lemma log_dropped D s lg s' : dropped D (with_log s lg) s' → dropped D s s'.
Proof. by intros [D1 D2 D3 D4 D5 D6]. Qed.

Lemma wp_settle_last_group X R rec L g goal evicted rest held s :
  inv X R s → (L < NL)%nat → (g < G)%nat → 0 ≤ goal →
  NoDup (evicted ++ rest ++ held) →
  (∀ id, id ∈ evicted → loose s id ∧ id ∈ res s L g) → (∀ id, id ∈ rest → loose s id) →
  goal + Z.of_nat (length held) ≤ Z.of_nat (length evicted) + free_at s L g →
  wp (settle_last lc2pg rec L g (goal, evicted, (rest, held)))
    (λ acc s', inv X R s' ∧ ∃ refused, rest ++ held = refused ++ acc ∧ refused ⊆ rest ∧
       dropped (list_to_set (evicted ++ refused)) s s' ∧
       Z.of_nat (length acc) + goal ≤ free_at s' L g) never s.
Proof.
  intros Hi HL Hg Hgoal Hnd Hev Hrest Hneed. apply NoDup_app in Hnd as (Hne & Hdis & Hnf).
  unfold settle_last. apply wp_bind, (wp_num_free pool_wf prio_ok queue_wf lc2pg G NL X R); [done..|].
  apply wp_bind, wp_get. apply wp_bind, wp_assert.
  { apply forallb_forall. intros id Hid%list_elem_of_In. by apply is_droppable_loose, Hev. }
  apply wp_bind, wp_record. intros lg.
  eapply wp_call; [apply (wp_drop_pages pool_wf prio_ok queue_wf lc2pg G NL X R evicted)| |done].
  { by apply (inv_ext _ _ _ _ _ _ X R s). } { done. } { intros id Hid. by apply Hev. }
  intros [] s1 [Hi1 Hd1%log_dropped].
  assert (Hfree : free_at s L g + Z.of_nat (length evicted) ≤ free_at s1 L g).
  { rewrite <- (size_list_to_set (C := gset Z) evicted) by done.
    apply (free_grows pool_wf prio_ok queue_wf lc2pg G NL X X R); try done.
    - apply (dr_cap _ _ _ Hd1).
    - intros id Hid%elem_of_list_to_set. by apply Hev.
    - by apply dropped_res. }
  apply wp_bind, (wp_num_free pool_wf prio_ok queue_wf lc2pg G NL X R); [done..|].
  apply wp_bind, wp_assert; [apply Z.leb_le; lia|]. apply wp_bind, wp_assert; [apply Z.leb_le; lia|].
  apply wp_bind, wp_assert; [apply Z.leb_le; lia|].
  set (n := Z.min (free_at s1 L g - goal) (Z.of_nat (length (rest ++ held)))).
  assert (Hn : Z.of_nat (length held) ≤ n) by (unfold n; rewrite length_app; lia).
  destruct (split_last n (rest ++ held)) as [refused acc] eqn:Hsp.
  destruct (split_last_spec n (rest ++ held) refused acc ltac:(lia) ltac:(unfold n; lia) Hsp) as [Happ Hacc].
  assert (Hsub : refused ⊆ rest).
  { assert (Hlen : (length refused ≤ length rest)%nat) by (apply (f_equal length) in Happ; rewrite !length_app in Happ; lia).
    intros id Hid. assert (refused = take (length refused) rest) as Hr.
    { apply (f_equal (take (length refused))) in Happ. rewrite take_app_length in Happ.
      rewrite <- Happ at 1. rewrite take_app_le by done. done. }
    rewrite Hr in Hid. by apply subseteq_take in Hid. }
  assert (Hnr : NoDup refused) by (rewrite Happ in Hnf; by apply NoDup_app in Hnf as (? & _ & _)).
  eapply wp_call; [apply (wp_drop_pages pool_wf prio_ok queue_wf lc2pg G NL X R refused)| |done].
  { done. } { done. }
  { intros id Hid. apply (loose_dropped (list_to_set evicted) s s1); [done| |by apply Hrest, Hsub].
    rewrite elem_of_list_to_set. intros Hin. apply (Hdis id Hin). apply elem_of_app. left. by apply Hsub. }
  intros [] s2 [Hi2 Hd2]. apply wp_ret. split; [done|]. exists refused. split; [done|]. split; [done|]. split.
  - rewrite list_to_set_app_L. by eapply dropped_trans.
  - pose proof (free_grows pool_wf prio_ok queue_wf lc2pg G NL X X R s1 s2 ∅ L g Hi1 Hi2 HL Hg
      (dr_cap _ _ _ Hd2 L g) ltac:(set_solver) ltac:(pose proof (dropped_res lc2pg _ _ _ L g Hd2); set_solver)) as Hf.
    rewrite size_empty in Hf. lia.
Qed.

(** ** One level, after the eviction

    [s] is the state in which the plan was made, [s1] the one after the
    eviction. *)

Record level_step X R (L : nat) (row : list Z) (fallen evicted : list (list Z)) s s1 : Prop := {
  ls_inv : inv X R s1;
  ls_taken : taken X L s s1 evicted;
  ls_row : length row = G;
  ls_goals : Forall (λ goal, 0 ≤ goal) row;
  ls_fallen : length fallen = G;
  ls_floating : ∀ g l, fallen !! g = Some l → floating X L g s1 l;
  ls_count : ∀ g goal l E, row !! g = Some goal → fallen !! g = Some l → evicted !! g = Some E →
    Z.of_nat (length E) = to_evict s L g goal l ∧ ¬ short s L g goal l;
  ls_touch : ∀ id, id ∈ X → queued s id ∨ id ∈ concat fallen;
}.

Record settled X R (L : nat) (row : list Z) (fallen : list (list Z)) s1 (accepted : list (list Z)) s2 : Prop := {
  sd_inv : inv X R s2;
  sd_evolves : evolves lc2pg X R s1 s2;
  sd_len : length accepted = G;
  sd_acc : ∀ g l acc, fallen !! g = Some l → accepted !! g = Some acc → acc ⊆ l ∧ NoDup acc ∧
    ∀ id, id ∈ acc → ¬ queued s2 id ∧ sm_pages s2 !! id = sm_pages s1 !! id;
  sd_room : ∀ g goal acc, row !! g = Some goal → accepted !! g = Some acc →
    Z.of_nat (length acc) + goal ≤ free_at s2 L g;
  sd_above : ∀ id o, sm_pages s2 !! id = Some o → (po_level o < L)%nat →
    sm_pages s1 !! id = Some o ∧ (id ∈ concat fallen → id ∈ concat accepted);
  sd_sched : ∀ id o, id ∈ X → id ∉ concat accepted → sm_pages s2 !! id = Some o →
    can_evict NL o → queued s2 id;
}.

Definition grouped s id (g : nat) : Prop :=
  ∃ o, sm_pages s !! id = Some o ∧ lc2pg !! po_life_cycle o = Some g.

Lemma grouped_inj s id g g' : grouped s id g → grouped s id g' → g = g'.
Proof. intros (o & Ho & Hg) (o' & Ho' & Hg'). congruence. Qed.

Lemma last_droppable s L o :
  is_last_level s L = true → po_level o = L → is_evictable s o None = true → po_status o = DROPPABLE.
Proof.
  unfold is_last_level, is_evictable. intros Hl%Nat.eqb_eq <-. cbn [default].
  intros [[H _]%andb_prop|[_ H]%andb_prop]%orb_prop; [by apply bool_decide_eq_true in H|].
  apply Nat.ltb_lt in H. cbn in H. lia.
Qed.

Section level.
Context {X : gset Z} {R : nat → nat → gset Z} {L : nat} {row : list Z} {fallen evicted : list (list Z)} {s s1 : SM}.
Context (HL : (L < NL)%nat) (Hls : level_step X R L row fallen evicted s s1).

Lemma step_pages : sm_pages s1 = sm_pages s.
Proof. apply Hls. Qed.

Lemma step_free g : free_at s1 L g = free_at s L g.
Proof. apply quiet_free, Hls. Qed.

Lemma evicted_facts g E id :
  evicted !! g = Some E → id ∈ E →
  id ∈ X ∧ ¬ queued s1 id ∧ ∃ o, sm_pages s1 !! id = Some o ∧ resides lc2pg L g o ∧ is_evictable s o None = true.
Proof. rewrite step_pages. intros HE Hin. destruct (tk_pages _ _ _ _ _ (ls_taken _ _ _ _ _ _ _ _ Hls) g E id HE Hin) as (? & _ & ? & ?). done. Qed.

Lemma evicted_nodup g E : evicted !! g = Some E → NoDup E.
Proof.
  intros HE. pose proof (tk_nodup _ _ _ _ _ (ls_taken _ _ _ _ _ _ _ _ Hls)) as Hn.
  apply list_elem_of_split_length in HE as (l1 & l2 & -> & _). rewrite concat_app in Hn. cbn in Hn.
  apply NoDup_app in Hn as (_ & _ & Hn). by apply NoDup_app in Hn as (? & _ & _).
Qed.

(** Evicted pages sit at the level, fallen ones above. *)
Lemma evicted_not_fallen g E l id : evicted !! g = Some E → fallen !! g = Some l → id ∈ E → id ∉ l.
Proof.
  intros HE Hl Hin Hin'. destruct (evicted_facts g E id HE Hin) as (_ & _ & o & Ho & [Hlv _] & _).
  destruct (fl_pages _ _ _ _ _ _ (ls_floating _ _ _ _ _ _ _ _ Hls g l Hl) id Hin') as (_ & _ & o' & Ho' & _ & Hlt & _).
  assert (o' = o) as -> by congruence. clear HL. lia.
Qed.

Lemma enough_room g goal l E :
  row !! g = Some goal → fallen !! g = Some l → evicted !! g = Some E → 0 ≤ goal →
  goal + Z.of_nat (length (must_hold s L l)) ≤ Z.of_nat (length E) + free_at s L g.
Proof.
  intros Hr Hl HE Hg. destruct (ls_count _ _ _ _ _ _ _ _ Hls g goal l E Hr Hl HE) as [-> Hns].
  unfold short in Hns. apply Decidable.not_or in Hns as [_ Hns]. unfold to_evict.
  assert (length (must_hold s L l) ≤ length l)%nat.
  { unfold must_hold. destruct (is_last_level s L); [apply length_filter|cbn; lia]. }
  lia.
Qed.

Lemma may_fall_loose g l id :
  is_last_level s L = true → fallen !! g = Some l → id ∈ may_fall s L l → loose s1 id.
Proof.
  intros Hlast Hl. unfold may_fall. rewrite Hlast. intros [Hh Hin]%list_elem_of_filter.
  destruct (fl_pages _ _ _ _ _ _ (ls_floating _ _ _ _ _ _ _ _ Hls g l Hl) id Hin) as (_ & Hq & o & Ho & Hm & _).
  exists o. split; [done|]. split; [|done]. unfold is_held in Hh. rewrite <- step_pages, Ho in Hh.
  apply bool_decide_eq_false in Hh. unfold movable in Hm. naive_solver.
Qed.

Lemma fall_hold_perm l : is_last_level s L = true → may_fall s L l ++ must_hold s L l ≡ₚ l.
Proof.
  intros Hlast. unfold may_fall, must_hold. rewrite Hlast. induction l as [|x l IH]; [done|].
  rewrite !filter_cons. repeat case_decide; try congruence.
  - exact (perm_skip x IH).
  - etrans; [symmetry; apply Permutation_middle|]. by constructor.
  - by destruct (is_held s x).
Qed.

(** Pages of one group of the step. *)
Lemma step_grouped g E l id :
  evicted !! g = Some E → fallen !! g = Some l → id ∈ E ∨ id ∈ l →
  grouped s1 id g ∧ id ∈ X ∧ ¬ queued s1 id.
Proof.
  intros HE Hl [Hin|Hin].
  - destruct (evicted_facts g E id HE Hin) as (? & ? & o & Ho & [_ ?] & _). split; [by exists o|done].
  - destruct (fl_pages _ _ _ _ _ _ (ls_floating _ _ _ _ _ _ _ _ Hls g l Hl) id Hin) as (? & ? & o & Ho & _ & _ & ?).
    split; [by exists o|done].
Qed.
(** The invariant of the loop: [D] are the pages dropped so far, [bs] the lists
    accepted so far. *)
Record last_loop (bs : list (list Z)) (s' : SM) (D : gset Z) : Prop := {
  ll_inv : inv X R s';
  ll_dropped : dropped D s1 s';
  ll_D : ∀ id, id ∈ D → loose s1 id ∧ id ∈ X ∧ ∃ g, (g < length bs)%nat ∧ grouped s1 id g;
  ll_acc : ∀ g l acc, fallen !! g = Some l → bs !! g = Some acc → acc ⊆ l ∧ NoDup acc ∧
    (∀ id, id ∈ acc → id ∉ D) ∧ (∀ id, id ∈ l → id ∈ acc ∨ id ∈ D);
  ll_room : ∀ g goal acc, row !! g = Some goal → bs !! g = Some acc →
    Z.of_nat (length acc) + goal ≤ free_at s' L g;
  ll_evicted : ∀ g E, (g < length bs)%nat → evicted !! g = Some E → ∀ id, id ∈ E → id ∈ D;
}.

Lemma last_loop_snoc bs s' D k goal l E refused acc s2 :
  last_loop bs s' D → length bs = k → row !! k = Some goal → fallen !! k = Some l → evicted !! k = Some E →
  is_last_level s L = true → inv X R s2 →
  may_fall s L l ++ must_hold s L l = refused ++ acc → refused ⊆ may_fall s L l →
  dropped (list_to_set (E ++ refused)) s' s2 → Z.of_nat (length acc) + goal ≤ free_at s2 L k →
  last_loop (bs ++ [acc]) s2 (D ∪ list_to_set (E ++ refused)).
Proof.
  intros [I1 I2 I3 I4 I5 I6] Hlen Hr Hl HE Hlast Hi2 Happ Hsub Hd Hroom.
  pose proof (fall_hold_perm l Hlast) as Hperm. rewrite Happ in Hperm.
  assert (Hnl : NoDup (refused ++ acc)) by (rewrite Hperm; eapply fl_nodup, Hls; done).
  apply NoDup_app in Hnl as (_ & Hra & Hna).
  assert (Hgl : ∀ id, id ∈ refused ∨ id ∈ acc → id ∈ l) by (intros id Hid; rewrite <- Hperm; by apply elem_of_app).
  assert (Hgrp : ∀ id, id ∈ (list_to_set (E ++ refused) : gset Z) → loose s1 id ∧ id ∈ X ∧ grouped s1 id k).
  { intros id [Hin|Hin]%elem_of_list_to_set%elem_of_app.
    - destruct (step_grouped k E l id HE Hl ltac:(by left)) as (? & ? & Hq). split; [|done].
      destruct (evicted_facts k E id HE Hin) as (_ & _ & o & Ho & [Hlv _] & He). exists o.
      split; [done|]. split; [|done]. by apply (last_droppable s L).
    - destruct (step_grouped k E l id HE Hl ltac:(right; auto)) as (? & ? & Hq). split; [|done].
      by apply (may_fall_loose k l), Hsub. }
  split.
  - done.
  - by eapply dropped_trans.
  - intros id [Hin|Hin]%elem_of_union.
    + destruct (I3 id Hin) as (? & ? & g & ? & ?). split; [done|]. split; [done|]. exists g. rewrite length_app. cbn. split; [lia|done].
    + destruct (Hgrp id Hin) as (? & ? & ?). split; [done|]. split; [done|]. exists k. rewrite length_app. cbn. split; [lia|done].
  - intros g l' acc' Hl' Hb. apply lookup_app_Some in Hb as [Hb|[Hge Hb]].
    + destruct (I4 g l' acc' Hl' Hb) as (A1 & A2 & A3 & A4). split; [done|]. split; [done|]. split.
      * intros id Hin [?|Hin']%elem_of_union; [by apply (A3 id)|].
        pose proof (lookup_lt_Some _ _ _ Hb). destruct (Hgrp id Hin') as (_ & _ & Hk).
        destruct (lookup_lt_is_Some_2 evicted g) as [E' HE'].
        { rewrite (tk_len _ _ _ _ _ (ls_taken _ _ _ _ _ _ _ _ Hls)), <- (ls_fallen _ _ _ _ _ _ _ _ Hls). by eapply lookup_lt_Some. }
        destruct (step_grouped g E' l' id HE' Hl' ltac:(right; auto)) as (Hg & _). pose proof (grouped_inj _ _ _ _ Hk Hg). lia.
      * intros id Hin. destruct (A4 id Hin); [by left|]. right. set_solver.
    + apply list_lookup_singleton_Some in Hb as [Hz <-]. assert (g = k) as -> by lia.
      assert (l' = l) as -> by congruence. split; [intros id ?; auto|]. split; [done|]. split.
      * intros id Hin [Hin'|Hin']%elem_of_union.
        -- destruct (I3 id Hin') as (_ & _ & g & Hlt & Hg).
           destruct (step_grouped k E l id HE Hl ltac:(right; auto)) as (Hk & _).
           pose proof (grouped_inj _ _ _ _ Hk Hg). lia.
        -- apply elem_of_list_to_set, elem_of_app in Hin' as [Hin'|Hin'].
           ++ apply (evicted_not_fallen k E l id HE Hl Hin'). auto.
           ++ by apply (Hra id).
      * intros id Hin. rewrite <- Hperm in Hin. apply elem_of_app in Hin as [Hin|Hin]; [|by left].
        right. rewrite elem_of_union, elem_of_list_to_set, elem_of_app. auto.
  - intros g goal' acc' Hr' Hb. apply lookup_app_Some in Hb as [Hb|[Hge Hb]].
    + pose proof (lookup_lt_Some _ _ _ Hr') as Hg. rewrite (ls_row _ _ _ _ _ _ _ _ Hls) in Hg.
      pose proof (free_grows pool_wf prio_ok queue_wf lc2pg G NL X X R s' s2 ∅ L g I1 Hi2 HL Hg
        (dr_cap _ _ _ Hd L g) ltac:(set_solver) ltac:(pose proof (dropped_res lc2pg _ _ _ L g Hd); set_solver)) as Hf.
      rewrite size_empty in Hf. specialize (I5 g goal' acc' Hr' Hb). lia.
    + apply list_lookup_singleton_Some in Hb as [Hz <-]. assert (g = k) as -> by lia.
      assert (goal' = goal) as -> by congruence. done.
  - intros g E' Hlt HE' id Hin. rewrite elem_of_union, elem_of_list_to_set, elem_of_app. rewrite length_app in Hlt. cbn in Hlt.
    destruct (decide (g = k)) as [->|Hne]; [right; left; congruence|]. left. apply (I6 g E'); [lia|done|done].
Qed.

Lemma last_loop_settled bs s2 D :
  last_loop bs s2 D → length bs = G → settled X R L row fallen s1 bs s2.
Proof.
  intros [I1 I2 I3 I4 I5 I6] Hlen.
  assert (Hfate : ∀ id, id ∈ concat fallen → id ∈ concat bs ∨ id ∈ D).
  { intros id (g & l & Hl & Hin)%elem_of_concat. pose proof (lookup_lt_Some _ _ _ Hl) as Hg.
    rewrite (ls_fallen _ _ _ _ _ _ _ _ Hls), <- Hlen in Hg. apply lookup_lt_is_Some in Hg as [acc Hb].
    destruct (I4 g l acc Hl Hb) as (_ & _ & _ & A4). destruct (A4 id Hin); [left|by right]. apply elem_of_concat. eauto. }
  split; try done.
  - apply (dropped_evolves pool_wf prio_ok queue_wf lc2pg G NL X R D); [apply Hls|done| |].
    + intros id Hin. by destruct (I3 id Hin) as (_ & ? & _).
    + intros id o Hin Ho. destruct (I3 id Hin) as ((o' & Ho' & ? & _) & _). congruence.
  - intros g l acc Hl Hb. destruct (I4 g l acc Hl Hb) as (A1 & A2 & A3 & _). split; [done|]. split; [done|].
    intros id Hin. destruct (fl_pages _ _ _ _ _ _ (ls_floating _ _ _ _ _ _ _ _ Hls g l Hl) id (A1 id Hin)) as (_ & Hq & o & Ho & _).
    split; [by intros ?%(dr_queued _ _ _ I2)|]. rewrite Ho. apply (dr_kept _ _ _ I2); auto.
  - intros id o Ho _. destruct (dr_sub _ _ _ I2 id o Ho) as [Ho1 Hni]. split; [done|].
    intros [?|?]%Hfate; done.
  - intros id o HX Hna Ho He. destruct (dr_sub _ _ _ I2 id o Ho) as [_ HnD].
    assert (HnE : id ∉ concat evicted).
    { intros (g & E & HE & Hin)%elem_of_concat. apply HnD, (I6 g E); [|done|done].
      rewrite Hlen, <- (tk_len _ _ _ _ _ (ls_taken _ _ _ _ _ _ _ _ Hls)). by eapply lookup_lt_Some. }
    destruct (ls_touch _ _ _ _ _ _ _ _ Hls id HX) as [Hq|Hin]; [|by destruct (Hfate id Hin)].
    apply (tk_still _ _ _ _ _ (ls_taken _ _ _ _ _ _ _ _ Hls)) in Hq as [Hq|?]; [|done].
    apply (dr_still _ _ _ I2); [done|by exists o].
Qed.

Lemma wp_settle_last rec :
  is_last_level s L = true →
  wp (for_groups (settle_last lc2pg rec L) 0
        (zip (zip row evicted) ((λ l, (may_fall s L l, must_hold s L l)) <$> fallen)))
    (λ accepted s2, settled X R L row fallen s1 accepted s2) never s1.
Proof.
  intros Hlast. pose proof Hls as [Hi1 Htk Hrow Hgoals Hfal Hfl Hcnt _].
  eapply wp_mono; [apply (wp_for _ _ (λ bs s', ∃ D, last_loop bs s' D) never)| |done].
  - intros k [[goal E] [rest held]] bs s' Hk Hlen (D & Hll).
    rewrite lookup_zip_with, list_lookup_fmap in Hk. destruct (zip row evicted !! k) as [[goal' E']|] eqn:Hz; [|done].
    destruct (fallen !! k) as [l|] eqn:Hl; [|done]. cbn in Hk. injection Hk as -> -> <- <-.
    rewrite lookup_zip_with in Hz. destruct (row !! k) as [goal'|] eqn:Hr; [|done].
    destruct (evicted !! k) as [E'|] eqn:HE; [|done]. cbn in Hz. injection Hz as -> ->.
    pose proof (lookup_lt_Some _ _ _ Hr) as Hkl. rewrite Hrow in Hkl.
    pose proof (proj1 (Forall_lookup _ _) Hgoals k goal Hr) as Hg0. cbn in Hg0.
    assert (HnD : ∀ id, id ∈ E ∨ id ∈ l → id ∉ D).
    { intros id Hid Hin. destruct (step_grouped k E l id HE Hl Hid) as (Hg & _).
      destruct (ll_D _ _ _ Hll id Hin) as (_ & _ & g & Hlt & Hg'). pose proof (grouped_inj _ _ _ _ Hg Hg'). lia. }
    assert (Hkeep : ∀ id, id ∈ E ∨ id ∈ l → loose s1 id → loose s' id).
    { intros id Hid. apply (loose_dropped D); [apply Hll|auto]. }
    pose proof (fall_hold_perm l Hlast) as Hperm.
    eapply wp_mono; [apply (wp_settle_last_group X R rec L k goal E (may_fall s L l) (must_hold s L l) s')| |done].
    + apply Hll.
    + done.
    + done.
    + done.
    + rewrite Hperm. apply NoDup_app. split; [by eapply evicted_nodup|]. split; [|eapply fl_nodup, Hfl; done].
      intros id. by apply (evicted_not_fallen k E l).
    + intros id Hin. destruct (evicted_facts k E id HE Hin) as (_ & Hq & o & Ho & Hres & He).
      assert (Hlo : loose s1 id) by (exists o; split; [done|]; split; [apply (last_droppable s L); [done|apply Hres|done]|done]).
      split; [auto|]. apply elem_of_res. exists o. split; [|done].
      apply (dr_kept _ _ _ (ll_dropped _ _ _ Hll)); auto.
    + intros id Hin. apply Hkeep; [|by eapply may_fall_loose]. right. rewrite <- Hperm. apply elem_of_app. by left.
    + pose proof (enough_room k goal l E Hr Hl HE Hg0). rewrite <- step_free in *.
      pose proof (free_grows pool_wf prio_ok queue_wf lc2pg G NL X X R s1 s' ∅ L k Hi1 (ll_inv _ _ _ Hll) HL Hkl
        (dr_cap _ _ _ (ll_dropped _ _ _ Hll) L k) ltac:(set_solver)
        ltac:(pose proof (dropped_res lc2pg _ _ _ L k (ll_dropped _ _ _ Hll)); set_solver)) as Hf.
      rewrite size_empty in Hf. lia.
    + intros acc s2 (Hi2 & refused & Happ & Hsub & Hd & Hroom). eexists.
      by eapply (last_loop_snoc bs s' D k goal l E refused acc s2).
  - exists ∅. split; [done|apply dropped_refl|set_solver|..]; intros; try by rewrite lookup_nil in *. cbn in *. lia.
  - intros bs s2 (Hlen & D & Hll). apply (last_loop_settled bs s2 D Hll). rewrite Hlen, !length_zip_with, length_fmap.
    rewrite (tk_len _ _ _ _ _ Htk). lia.
Qed.
(** ** Any other level *)

Lemma split_last_app {A} n (a b : list A) :
  0 ≤ n ≤ Z.of_nat (length b) →
  split_last n (a ++ b) = (a ++ take (length b - Z.to_nat n) b, drop (length b - Z.to_nat n) b).
Proof.
  intros Hn. unfold split_last. rewrite length_app.
  replace (length a + length b - Z.to_nat n)%nat with (length a + (length b - Z.to_nat n))%nat by lia.
  by rewrite take_app_add, drop_app_add.
Qed.

(** What falls further: the evicted pages, then the top of the fallen ones. *)
Lemma wp_settle_mid :
  is_last_level s L = false →
  wp (for_groups (settle_mid L) 0 (zip (zip row evicted) fallen))
    (λ st s', s' = s1 ∧ length st = G ∧ ∀ g goal l E,
       row !! g = Some goal → fallen !! g = Some l → evicted !! g = Some E →
       ∃ top acc, st !! g = Some (E ++ top, acc) ∧ l = top ++ acc ∧
         Z.of_nat (length acc) + goal ≤ free_at s1 L g + Z.of_nat (length E)) never s1.
Proof.
  intros Hlast. pose proof Hls as [Hi1 Htk Hrow Hgoals Hfal Hfl Hcnt _].
  eapply wp_mono; [apply (wp_for _ _ (λ st s', s' = s1 ∧ ∀ g goal l E, (g < length st)%nat →
       row !! g = Some goal → fallen !! g = Some l → evicted !! g = Some E →
       ∃ top acc, st !! g = Some (E ++ top, acc) ∧ l = top ++ acc ∧
         Z.of_nat (length acc) + goal ≤ free_at s1 L g + Z.of_nat (length E)) never)| |done].
  - intros k [[goal E] l] bs s' Hk Hlen [-> Hbs].
    rewrite lookup_zip_with in Hk. destruct (zip row evicted !! k) as [[goal' E']|] eqn:Hz; [|done].
    destruct (fallen !! k) as [l'|] eqn:Hl; [|done]. cbn in Hk. injection Hk as -> -> ->.
    rewrite lookup_zip_with in Hz. destruct (row !! k) as [goal'|] eqn:Hr; [|done].
    destruct (evicted !! k) as [E'|] eqn:HE; [|done]. cbn in Hz. injection Hz as -> ->.
    pose proof (lookup_lt_Some _ _ _ Hr) as Hkl. rewrite Hrow in Hkl.
    pose proof (proj1 (Forall_lookup _ _) Hgoals k goal Hr) as Hg0. cbn in Hg0.
    unfold settle_mid. apply wp_bind, (wp_num_free pool_wf prio_ok queue_wf lc2pg G NL X R); [done..|].
    pose proof (enough_room k goal l E Hr Hl HE Hg0) as Hroom. rewrite <- step_free in Hroom.
    set (n := Z.min (free_at s1 L k + Z.of_nat (length E) - goal) (Z.of_nat (length (E ++ l)))).
    assert (Hn : 0 ≤ n ≤ Z.of_nat (length l)).
    { destruct (Hcnt k goal l E Hr Hl HE) as [Hc Hns]. unfold short, to_evict in *. rewrite <- step_free in *.
      unfold n. rewrite length_app. unfold must_hold in *. rewrite Hlast in *. cbn [length] in *. lia. }
    apply wp_bind, wp_assert; [apply Z.leb_le; lia|]. apply wp_ret. split; [done|].
    intros g goal2 l2 E2 Hlt Hr2 Hl2 HE2. rewrite split_last_app by done.
    destruct (decide (g = k)) as [->|Hne].
    + assert (goal2 = goal) as -> by congruence. assert (l2 = l) as -> by congruence. assert (E2 = E) as -> by congruence.
      eexists _, _. rewrite lookup_app_r by lia. rewrite Hlen, Nat.sub_diag. split; [done|].
      rewrite take_drop. split; [done|]. rewrite length_drop. lia.
    + rewrite length_app in Hlt. cbn in Hlt. destruct (Hbs g goal2 l2 E2) as (top & acc & Hst & ?); try done; [lia|].
      exists top, acc. split; [|done]. by apply lookup_app_l_Some.
  - split; [done|]. intros g goal l E Hlt. cbn in Hlt. lia.
  - intros st s' (Hlen & -> & Hst). split; [done|]. rewrite !length_zip_with, (tk_len _ _ _ _ _ Htk) in Hlen.
    split; [lia|]. intros g goal l E Hr Hl HE. apply Hst; try done. pose proof (lookup_lt_Some _ _ _ Hr). lia.
Qed.
End level.
End storage_free.
