(* ===== verification/StoragePrepare.v ===== *)
(** * [_prepare_free_slots]

    By induction on the levels below: the call ends; if it returns, the goals
    of the level and of those below are met and the pages that fell have left
    the levels above; if it raises, no page has moved and no slot has changed,
    and some group was short of pages or the eviction met a priority
    boundary. *)

From S2P Require Import Prelude CacheKey RadixTree KvUtils SlotAllocator Eviction Wp StorageIface Storage StorageInv.
From S2P Require Import StorageDrop StorageMove StorageRoom StorageFree.

Local Open Scope Z_scope.

Section storage_prepare.
Context {P C T V : Type} `{!SlotPool P, !EvictQueue C, !BlockTree T}.
Context (pool_wf : P → Prop) `{!SlotPoolSpec P pool_wf}.
Context (prio_ok : Z → Prop) (queue_wf : list nat → nat → nat → C → Prop).
Context `{!EvictQueueSpec C prio_ok queue_wf}.
Context (lc2pg : list nat) (G NL : nat) (hem : bool).
#[local] Abbreviation SM := (StorageManager P C T V).
#[local] Abbreviation inv := (st_inv pool_wf prio_ok queue_wf lc2pg G NL).
#[local] Abbreviation floating := (floating lc2pg).
#[local] Abbreviation settled := (settled pool_wf prio_ok queue_wf lc2pg G NL).
#[local] Abbreviation evolves := (evolves lc2pg).
#[local] Abbreviation evictable_at := (evictable_at lc2pg).
#[local] Abbreviation never := (λ _ _, False).
Implicit Types (s : SM) (o : PageObj) (id : Z) (X Y : gset Z) (R : nat → nat → gset Z).

(** ** Accepted pages move in *)

Lemma floating_quiet X L g s s' l :
  (∀ id, id ∈ l → ¬ queued s' id) → (∀ id, id ∈ l → sm_pages s' !! id = sm_pages s !! id) →
  floating X L g s l → floating X L g s' l.
Proof.
  intros Hq Hp [Hn Hf]. split; [done|]. intros id Hin. destruct (Hf id Hin) as (? & _ & ?).
  rewrite Hp by done. auto.
Qed.

Lemma wp_migrate_all X R rec L row fallen s1 accepted s2 :
  (L < NL)%nat → length row = G → Forall (λ goal, 0 ≤ goal) row → length fallen = G →
  (∀ g l, fallen !! g = Some l → floating X L g s1 l) →
  settled X R L row fallen s1 accepted s2 →
  wp (for_each (migrate_accepted lc2pg hem rec L) accepted)
    (λ _ s', inv X R s' ∧ arrived lc2pg NL X L (concat accepted) R s2 s') never s2.
Proof.
  intros HL Hrow Hgoals Hfal Hfl [Hi2 Hev Hlen Hacc Hroom _ _].
  assert (Hin : ∀ g acc, accepted !! g = Some acc → (g < G)%nat ∧ floating X L g s2 acc ∧
            Z.of_nat (length acc) ≤ free_at s2 L g).
  { intros g acc Hg. pose proof (lookup_lt_Some _ _ _ Hg) as Hlt. rewrite Hlen in Hlt.
    destruct (lookup_lt_is_Some_2 fallen g) as [l Hl]; [lia|]. destruct (lookup_lt_is_Some_2 row g) as [goal Hr]; [lia|].
    destruct (Hacc g l acc Hl Hg) as (Hsub & Hnd & Hsame). split; [done|]. split.
    - apply (floating_quiet X L g s1); [intros id ?; by apply Hsame..|]. by apply (floating_sub _ _ _ _ _ l); auto.
    - specialize (Hroom g goal acc Hr Hg). pose proof (proj1 (Forall_lookup _ _) Hgoals g goal Hr). cbn in *. lia. }
  assert (Hgrp : ∀ g acc id, accepted !! g = Some acc → id ∈ acc → grouped lc2pg s2 id g).
  { intros g acc id Hg Hid. destruct (Hin g acc Hg) as (_ & Hf & _).
    destruct (fl_pages _ _ _ _ _ _ Hf id Hid) as (_ & _ & o & ? & _ & _ & ?). by exists o. }
  eapply (wp_mono _ (λ _ s', ∃ dn, accepted = dn ++ [] ∧ inv X R s' ∧ arrived lc2pg NL X L (concat dn) R s2 s') _ never).
  - apply (wp_for_each _ (λ rest s', ∃ dn, accepted = dn ++ rest ∧ inv X R s' ∧ arrived lc2pg NL X L (concat dn) R s2 s')).
    + intros l1 acc l2 s' _ (dn & Hdn & Hi' & Ha).
      assert (Hg : accepted !! length dn = Some acc) by (rewrite Hdn, lookup_app_r, Nat.sub_diag by lia; done).
      destruct (Hin _ _ Hg) as (HG & Hf & Hfr).
      assert (Hdis : ∀ id, id ∈ concat dn → ¬ grouped lc2pg s2 id (length dn)).
      { intros id (g' & acc' & Hg' & Hid)%elem_of_concat Hk. pose proof (lookup_lt_Some _ _ _ Hg').
        assert (Hg2 : accepted !! g' = Some acc') by (rewrite Hdn; by apply lookup_app_l_Some).
        pose proof (grouped_inj _ _ _ _ _ Hk (Hgrp g' acc' id Hg2 Hid)). lia. }
      eapply wp_mono; [apply (wp_migrate_accepted pool_wf prio_ok queue_wf lc2pg G NL hem X R rec L (length dn) acc s')| |done]; try done.
      * apply (floating_arrived lc2pg NL X L (length dn) (concat dn) R s2); [|done|done].
        intros id Hid Hid'. apply (Hdis id Hid'). by eapply Hgrp.
      * pose proof (arrived_free pool_wf prio_ok queue_wf lc2pg G NL X L _ R s2 s' (length dn) [] Hi2 Hi' HL HG Ha) as H.
        cbn in H. specialize (H ltac:(intros id o Hid Ho Hlc; exfalso; apply (Hdis id Hid); by exists o)). lia.
      * intros [] s3 [Hi3 Ha3]. exists (dn ++ [acc]). split; [by rewrite <- (assoc_L (++))|]. split; [done|].
        rewrite concat_app. cbn. rewrite app_nil_r. apply (arrived_trans _ _ X L _ _ R s2 s' s3); [|done|done].
        intros id Hid Hid'. apply (Hdis id Hid). by eapply Hgrp.
    + exists []. split; [done|]. split; [done|]. apply arrived_nil.
  - intros [] s' (dn & Hdn & Hi' & Ha). rewrite app_nil_r in Hdn. by subst dn.
  - done.
Qed.

(** ** Results *)

Definition goals_met (L : nat) (goals : list (list Z)) s : Prop :=
  ∀ L' row g goal, (L ≤ L' < NL)%nat → goals !! L' = Some row → row !! g = Some goal →
    goal ≤ free_at s L' g.

Record prepared X R (L : nat) (goals : list (list Z)) (fallen : list (list Z)) s s' : Prop := {
  pr_inv : inv X R s';
  pr_evolves : evolves X R s s';
  pr_met : goals_met L goals s';
  pr_above : ∀ id o, sm_pages s' !! id = Some o → (po_level o < L)%nat →
    sm_pages s !! id = Some o ∧ id ∉ concat fallen;
  pr_sched : ∀ id o, id ∈ X → sm_pages s' !! id = Some o → can_evict NL o → queued s' id;
}.

(** Shapes and signs of the goals. *)
Definition goals_ok (goals : list (list Z)) : Prop :=
  length goals = NL ∧ ∀ row, row ∈ goals → length row = G ∧ Forall (λ goal, 0 ≤ goal) row.

(** The held pages of [Y] in a group. *)
Definition held_in Y s (g : nat) : gset Z :=
  filter (λ id, is_held s id = true ∧ (sm_pages s !! id ≫= λ o, lc2pg !! po_life_cycle o) = Some g) Y.

(** Free and evictable slots suffice at every level for its goal, and at the
    last level for the held pages that may fall there as well; [Y] holds the
    pages that may fall. *)
Record enough Y (L : nat) (goals : list (list Z)) (fallen : list (list Z)) s : Prop := {
  en_fallen : ∀ id, id ∈ concat fallen → id ∈ Y;
  en_queues : ∀ L' c, (L ≤ L')%nat → (S L' < NL)%nat → ctrl_at s L' = Some c → ∀ p, p ∈ q_pages c → page_id p ∈ Y;
  en_goals : ∀ L' row g goal, (L ≤ L' < NL)%nat → goals !! L' = Some row → row !! g = Some goal →
    goal ≤ free_at s L' g + evictable_at s L' g;
  en_held : ∀ row g goal, goals !! (NL - 1)%nat = Some row → row !! g = Some goal →
    goal + Z.of_nat (size (held_in Y s g)) ≤ free_at s (NL - 1) g + evictable_at s (NL - 1) g;
}.

Record failed X R Y (L : nat) (goals : list (list Z)) (fallen : list (list Z)) s s' : Prop := {
  fa_inv : inv X R s';
  fa_quiet : quiet s s';
  fa_queued : ∀ j, queued s' j → queued s j;
  fa_short : one_priority prio_ok → ¬ enough Y L goals fallen s;
}.

(** ** Lemmas on the invariant *)

Lemma inv_touch X X' R s : inv X R s → (∀ id, queued s id → id ∈ X') → inv X' R s.
Proof.
  intros [H1 H2 H3 H4 H5 H6 H7 H8] HX. split; try done. intros L c p Hc Hp.
  destruct (H8 L c p Hc Hp) as [_ ?]. split; [|done]. apply HX. exists L, c.
  split; [done|]. by apply list_elem_of_fmap_2.
Qed.

Lemma inv_mono X X' R s : X ⊆ X' → inv X R s → inv X' R s.
Proof. intros HX Hi. eapply inv_touch; [done|]. intros id [? _]%(queued_page _ _ _ _ _ _ Hi). auto. Qed.

Lemma short_not_enough X R Y L goals row fallen s g goal l :
  inv X R s → (L < NL)%nat → goals_ok goals → goals !! L = Some row → length fallen = G →
  (∀ g l, fallen !! g = Some l → floating X L g s l) →
  row !! g = Some goal → fallen !! g = Some l → short lc2pg s L g goal l → ¬ enough Y L goals fallen s.
Proof.
  intros Hi HL [_ Hgo] Hrow Hfal Hfl Hr Hl Hs [Hf _ Hg Hh].
  destruct (Hgo row) as [Hlr Hpos]; [by eapply list_elem_of_lookup_2|].
  pose proof (proj1 (Forall_lookup _ _) Hpos g goal Hr) as H0. cbn in H0.
  pose proof (lookup_lt_Some _ _ _ Hr) as HG. rewrite Hlr in HG.
  destruct (free_res _ _ _ _ _ _ Hi L g HL HG) as [_ Hfr].
  assert (Hev : 0 ≤ evictable_at s L g) by (unfold StorageFree.evictable_at; destruct (ctrl_at s L); cbn; lia).
  unfold short, must_hold in Hs. destruct (is_last_level s L) eqn:Hlast.
  - unfold is_last_level in Hlast. apply Nat.eqb_eq in Hlast. rewrite (si_len _ _ _ _ _ _ _ _ _ Hi) in Hlast.
    assert (L = NL - 1)%nat as Hlst by lia. rewrite Hlst in Hrow. specialize (Hh row g goal Hrow Hr). rewrite <- Hlst in Hh.
    assert (length (filter (λ id, is_held s id = true) l) ≤ size (held_in Y s g))%nat; [|lia].
    assert (Hnd : NoDup (filter (λ id, is_held s id = true) l)) by (apply NoDup_filter; eapply fl_nodup, Hfl; done).
    rewrite <- (size_list_to_set (C := gset Z)) by done. apply subseteq_size. intros id Hid.
    apply elem_of_list_to_set, list_elem_of_filter in Hid as [Hheld Hin]. unfold held_in. apply elem_of_filter.
    destruct (fl_pages _ _ _ _ _ _ (Hfl g l Hl) id Hin) as (_ & _ & o & Ho & _ & _ & Hlc).
    rewrite Ho. cbn. split; [done|]. apply Hf, elem_of_concat. eauto.
  - cbn in Hs. specialize (Hg L row g goal ltac:(lia) Hrow Hr). lia.
Qed.

(** ** The pages that move in complete the level *)

Lemma prepared_by X R L goals row fallen s s1 accepted s2 s' :
  (L < NL)%nat → goals !! L = Some row → length row = G → length fallen = G → inv X R s →
  (∀ g l, fallen !! g = Some l → floating X L g s1 l) → quiet s s1 →
  settled X R L row fallen s1 accepted s2 → goals_met (S L) goals s2 → goals_ok goals → inv X R s' →
  arrived lc2pg NL X L (concat accepted) R s2 s' → prepared X R L goals fallen s s'.
Proof.
  intros HL Hrow Hlr Hfal Hi Hfl Hqt [Hi2 Hev Hlen Hacc Hroom Habove Hsched] Hmet [_ Hgo] Hi' Ha. split.
  - done.
  - etrans; [by apply quiet_evolves|]. etrans; [done|]. apply Ha.
  - intros L' row' g goal HL' Hrow' Hr. destruct (Hgo row') as [Hlr' _]; [by eapply list_elem_of_lookup_2|].
    pose proof (lookup_lt_Some _ _ _ Hr) as HG. rewrite Hlr' in HG.
    destruct (decide (L' = L)) as [->|Hne].
    + assert (row' = row) as -> by congruence. destruct (lookup_lt_is_Some_2 accepted g) as [acc Hg]; [lia|].
      specialize (Hroom g goal acc Hr Hg).
      assert (Hf : free_at s2 L g - Z.of_nat (length acc) ≤ free_at s' L g); [|lia].
      apply (arrived_free pool_wf prio_ok queue_wf lc2pg G NL X L (concat accepted) R s2 s' g acc); try done. intros id o (g' & acc' & Hg' & Hid)%elem_of_concat Ho Hlc.
      pose proof (lookup_lt_Some _ _ _ Hg') as Hlt. destruct (lookup_lt_is_Some_2 fallen g') as [l Hl]; [lia|].
      destruct (Hacc g' l acc' Hl Hg') as (Hsub & _ & Hsame). destruct (Hsame id Hid) as [_ Hp].
      destruct (fl_pages _ _ _ _ _ _ (Hfl g' l Hl) id (Hsub id Hid)) as (_ & _ & o' & Ho' & _ & _ & Hlc').
      assert (o' = o) as -> by congruence. assert (g' = g) as -> by congruence. congruence.
    + pose proof (arrived_free_other pool_wf prio_ok queue_wf lc2pg G NL X L _ R s2 s' L' g Hi2 Hi' ltac:(lia) HG Ha Hne).
      specialize (Hmet L' row' g goal ltac:(lia) Hrow' Hr). lia.
  - intros id o Ho Hlt. assert (Hni : id ∉ concat accepted).
    { intros Hin. destruct (ar_moved _ _ _ _ _ _ _ _ Ha id Hin) as (_ & o' & _ & Ho' & _ & Hlv).
      assert (o' = o) as -> by congruence. lia. }
    rewrite (ar_other _ _ _ _ _ _ _ _ Ha id Hni) in Ho. destruct (Habove id o Ho Hlt) as [Ho1 Hf].
    rewrite (qt_pages _ _ Hqt) in Ho1. split; [done|]. intros Hin. by apply Hni, Hf.
  - intros id o HX Ho He. destruct (decide (id ∈ concat accepted)) as [Hin|Hni]; [by eapply ar_sched|].
    apply (ar_still _ _ _ _ _ _ _ _ Ha), (Hsched id o); try done. by rewrite <- (ar_other _ _ _ _ _ _ _ _ Ha id Hni).
Qed.

(** ** Between a level and the next *)

Section descent.
Context {X : gset Z} {R : nat → nat → gset Z} {L : nat} {row : list Z} {fallen evicted : list (list Z)} {s s1 : SM}.
Context (HL : (S L < NL)%nat).
Context (Hls : level_step pool_wf prio_ok queue_wf lc2pg G NL X R L row fallen evicted s s1).
Context (st : list (list Z * list Z)) (Hlst : length st = G).
Context (Hst : ∀ g goal l E, row !! g = Some goal → fallen !! g = Some l → evicted !! g = Some E →
       ∃ top acc, st !! g = Some (E ++ top, acc) ∧ l = top ++ acc ∧
         Z.of_nat (length acc) + goal ≤ free_at s1 L g + Z.of_nat (length E)).

(** The lists of group [g]. *)
Lemma descent_group g x :
  st !! g = Some x → ∃ goal l E top acc, row !! g = Some goal ∧ fallen !! g = Some l ∧ evicted !! g = Some E ∧
    x = (E ++ top, acc) ∧ l = top ++ acc ∧ Z.of_nat (length acc) + goal ≤ free_at s1 L g + Z.of_nat (length E).
Proof.
  intros Hx. pose proof (lookup_lt_Some _ _ _ Hx) as Hg. rewrite Hlst in Hg. destruct Hls as [_ Htk Hrow _ Hfal _ _ _].
  destruct (lookup_lt_is_Some_2 row g) as [goal Hr]; [lia|]. destruct (lookup_lt_is_Some_2 fallen g) as [l Hl]; [lia|].
  destruct (lookup_lt_is_Some_2 evicted g) as [E HE]; [by rewrite (tk_len _ _ _ _ _ _ _ Htk)|].
  destruct (Hst g goal l E Hr Hl HE) as (top & acc & Hx' & ? & ?). exists goal, l, E, top, acc.
  split_and!; try done. congruence.
Qed.

Lemma accepted_group id :
  id ∈ concat st.*2 → ∃ g l E top acc, fallen !! g = Some l ∧ evicted !! g = Some E ∧ l = top ++ acc ∧
    st !! g = Some (E ++ top, acc) ∧ id ∈ acc.
Proof.
  intros (g & acc & Hg & Hin)%elem_of_concat. rewrite list_lookup_fmap in Hg. apply fmap_Some in Hg as ([f acc'] & Hx & ->).
  destruct (descent_group g _ Hx) as (goal & l & E & top & acc & _ & Hl & HE & Heq & Happ & _).
  injection Heq as -> ->. exists g, l, E, top, acc. done.
Qed.

(** Pages that fall further are not accepted here. *)
Lemma falls_not_accepted g E top acc l id :
  st !! g = Some (E ++ top, acc) → evicted !! g = Some E → fallen !! g = Some l → l = top ++ acc →
  id ∈ E ++ top → id ∉ concat st.*2.
Proof.
  intros Hx HE Hl Happ Hin (g' & l' & E' & top' & acc' & Hl' & HE' & Happ' & Hx' & Hin')%accepted_group.
  destruct (step_grouped _ _ _ _ _ _ Hls g E l id HE Hl) as (Hg & _).
  { subst l. rewrite elem_of_app in *. tauto. }
  destruct (step_grouped _ _ _ _ _ _ Hls g' E' l' id HE' Hl') as (Hg' & _).
  { subst l'. right. apply elem_of_app. by right. }
  assert (g' = g) as -> by (by eapply grouped_inj). assert (acc' = acc) as -> by congruence.
  apply elem_of_app in Hin as [Hin|Hin].
  - apply (evicted_not_fallen _ _ _ _ _ _ Hls g E l id HE Hl Hin). subst l. apply elem_of_app. by right.
  - pose proof (fl_nodup _ _ _ _ _ _ (ls_floating _ _ _ _ _ _ _ _ _ _ _ _ _ _ Hls g l Hl)) as Hnd. subst l.
    apply NoDup_app in Hnd as (_ & Hdis & _). by apply (Hdis id).
Qed.

#[local] Abbreviation X' := (X ∖ list_to_set (concat st.*2)).

Lemma descent_inv : inv X' R s1.
Proof.
  pose proof (ls_inv _ _ _ _ _ _ _ _ _ _ _ _ _ _ Hls) as Hi. apply (inv_touch X); [done|].
  intros id Hq. destruct (queued_page _ _ _ _ _ _ Hi id Hq) as [HX _].
  apply elem_of_difference. split; [done|]. rewrite elem_of_list_to_set.
  intros (g & l & E & top & acc & Hl & HE & -> & _ & Hin)%accepted_group.
  destruct (step_grouped _ _ _ _ _ _ Hls g E _ id HE Hl) as (_ & _ & Hnq); [right; apply elem_of_app; by right|done].
Qed.

Lemma descent_floating g l' : st.*1 !! g = Some l' → floating X' (S L) g s1 l'.
Proof.
  rewrite list_lookup_fmap. intros ([f acc'] & Hx & ->)%fmap_Some.
  destruct (descent_group g _ Hx) as (goal & l & E & top & acc & _ & Hl & HE & Heq & Happ & _).
  injection Heq as -> ->. cbn.
  pose proof (ls_floating _ _ _ _ _ _ _ _ _ _ _ _ _ _ Hls g l Hl) as Hfl.
  assert (Hall : ∀ id, id ∈ E ++ top → id ∈ E ∨ id ∈ l).
  { intros id. subst l. rewrite !elem_of_app. tauto. }
  split.
  - pose proof (fl_nodup _ _ _ _ _ _ Hfl) as Hnd. subst l. apply NoDup_app. split; [by eapply evicted_nodup|].
    apply NoDup_app in Hnd as (Hnt & _ & _). split; [|done]. intros id Hin Hin'.
    apply (evicted_not_fallen _ _ _ _ _ _ Hls g E _ id HE Hl Hin). apply elem_of_app. by left.
  - intros id Hin. destruct (step_grouped _ _ _ _ _ _ Hls g E l id HE Hl (Hall id Hin)) as (_ & HX & Hq).
    split. { apply elem_of_difference. split; [done|]. rewrite elem_of_list_to_set. by eapply falls_not_accepted. }
    split; [done|]. destruct (Hall id Hin) as [HinE|Hinl].
    + destruct (evicted_facts _ _ _ _ _ _ Hls g E id HE HinE) as (_ & _ & o & Ho & [Hlv Hlc] & He).
      exists o. split; [done|]. split; [by eapply evictable_movable|]. split; [lia|done].
    + destruct (fl_pages _ _ _ _ _ _ Hfl id Hinl) as (_ & _ & o & Ho & Hm & Hlt & Hlc). exists o.
      split; [done|]. split; [done|]. split; [lia|done].
Qed.

Lemma descent_settled goals s2 :
  prepared X' R (S L) goals st.*1 s1 s2 → settled X R L row fallen s1 st.*2 s2.
Proof.
  intros [Hi2 Hev Hmet Habove Hsched]. split.
  - eapply inv_mono; [|done]. set_solver.
  - apply (evolves_mono lc2pg X'); [set_solver|done].
  - by rewrite length_fmap.
  - intros g l acc Hl Hg. rewrite list_lookup_fmap in Hg. apply fmap_Some in Hg as ([f acc'] & Hx & ->).
    destruct (descent_group g _ Hx) as (goal & l' & E & top & acc & _ & Hl' & HE & Heq & Happ & _).
    injection Heq as -> ->. cbn. assert (l' = l) as -> by congruence.
    pose proof (fl_nodup _ _ _ _ _ _ (ls_floating _ _ _ _ _ _ _ _ _ _ _ _ _ _ Hls g l Hl)) as Hnd.
    split; [subst l; set_solver|]. split; [subst l; by apply NoDup_app in Hnd as (_ & _ & ?)|].
    intros id Hin. assert (HnX : id ∉ X').
    { intros [_ Hni]%elem_of_difference. apply Hni, elem_of_list_to_set, elem_of_concat.
      exists g, acc. by rewrite list_lookup_fmap, Hx. }
    split; [|by apply (ev_same _ _ _ _ _ Hev)]. intros [? _]%(queued_page _ _ _ _ _ _ Hi2). done.
  - intros g goal acc Hr Hg. rewrite list_lookup_fmap in Hg. apply fmap_Some in Hg as ([f acc'] & Hx & ->).
    destruct (descent_group g _ Hx) as (goal' & l & E & top & acc & Hr' & Hl & HE & Heq & Happ & Hroom).
    injection Heq as -> ->. cbn. assert (goal' = goal) as -> by congruence.
    pose proof (lookup_lt_Some _ _ _ Hx) as HG. rewrite Hlst in HG.
    assert (Hfree : free_at s1 L g + Z.of_nat (size (list_to_set E : gset Z)) ≤ free_at s2 L g); last first.
    { rewrite size_list_to_set in Hfree by (by eapply evicted_nodup). lia. }
    apply (free_grows pool_wf prio_ok queue_wf lc2pg G NL X X' R); try done.
    + by eapply ls_inv.
    + lia.
    + apply (ev_cap _ _ _ _ _ Hev).
    + intros id Hin%elem_of_list_to_set. destruct (evicted_facts _ _ _ _ _ _ Hls g E id HE Hin) as (_ & _ & o & Ho & Hres & _).
      apply elem_of_res. by exists o.
    + intros id (o & Ho & Hlv & Hlc)%elem_of_res. destruct (Habove id o Ho ltac:(lia)) as [Ho1 Hni].
      apply elem_of_difference. split; [apply elem_of_res; by exists o|]. rewrite elem_of_list_to_set. intros Hin.
      apply Hni, elem_of_concat. exists g, (E ++ top). rewrite list_lookup_fmap, Hx. split; [done|]. apply elem_of_app. by left.
  - intros id o Ho Hlt. destruct (Habove id o Ho ltac:(lia)) as [Ho1 Hni]. split; [done|].
    intros (g & l & Hl & Hin)%elem_of_concat. pose proof (lookup_lt_Some _ _ _ Hl) as HG.
    rewrite (ls_fallen _ _ _ _ _ _ _ _ _ _ _ _ _ _ Hls), <- Hlst in HG. apply lookup_lt_is_Some in HG as [x Hx].
    destruct (descent_group g x Hx) as (goal & l' & E & top & acc & _ & Hl' & HE & -> & Happ & _).
    assert (l' = l) as -> by congruence. subst l. apply elem_of_app in Hin as [Hin|Hin].
    + exfalso. apply Hni, elem_of_concat. exists g, (E ++ top). rewrite list_lookup_fmap, Hx. split; [done|]. apply elem_of_app. by right.
    + apply elem_of_concat. exists g, acc. by rewrite list_lookup_fmap, Hx.
  - intros id o HX Hna. apply Hsched, elem_of_difference. by rewrite elem_of_list_to_set.
Qed.

Lemma descent_touch id : id ∈ X' → queued s1 id ∨ id ∈ concat st.*1.
Proof.
  intros [HX Hna]%elem_of_difference. rewrite elem_of_list_to_set in Hna. pose proof Hls as [_ Htk _ _ Hfal _ _ Htouch].
  assert (Hget : ∀ g, (g < G)%nat → ∃ x, st !! g = Some x) by (intros g Hg; apply lookup_lt_is_Some_2; by rewrite Hlst).
  assert (Hcat : ∀ g E top acc, st !! g = Some (E ++ top, acc) → id ∈ E ++ top → id ∈ concat st.*1).
  { intros g E top acc Hx Hin. apply elem_of_concat. exists g, (E ++ top). by rewrite list_lookup_fmap, Hx. }
  destruct (Htouch id HX) as [Hq|(g & l & Hl & Hin)%elem_of_concat].
  - apply (tk_still _ _ _ _ _ _ _ Htk) in Hq as [?|(g & E & HE & Hin)%elem_of_concat]; [by left|right].
    destruct (Hget g) as [x Hx]; [rewrite <- (tk_len _ _ _ _ _ _ _ Htk); by eapply lookup_lt_Some|].
    destruct (descent_group g x Hx) as (goal & l & E' & top & acc & _ & _ & HE' & -> & _ & _).
    assert (E' = E) as -> by congruence. eapply Hcat; [done|]. apply elem_of_app. by left.
  - right. destruct (Hget g) as [x Hx]; [rewrite <- Hfal; by eapply lookup_lt_Some|].
    destruct (descent_group g x Hx) as (goal & l' & E & top & acc & _ & Hl' & HE & -> & Happ & _).
    assert (l' = l) as -> by congruence. subst l. apply elem_of_app in Hin as [Hin|Hin].
    + eapply Hcat; [done|]. apply elem_of_app. by right.
    + exfalso. apply Hna, elem_of_concat. exists g, acc. by rewrite list_lookup_fmap, Hx.
Qed.

Lemma descent_enough Y goals : enough Y L goals fallen s → enough Y (S L) goals st.*1 s1.
Proof.
  intros [Hf Hq Hg Hh]. pose proof Hls as [Hi1 Htk _ _ _ _ _ _].
  destruct Htk as [Hqt _ _ Htp _ Hctrl _].
  assert (Hev : ∀ L' g, L' ≠ L → evictable_at s1 L' g = evictable_at s L' g).
  { intros L' g Hne. unfold StorageFree.evictable_at. by rewrite Hctrl. }
  assert (Hfr : ∀ L' g, free_at s1 L' g = free_at s L' g) by (intros; by apply quiet_free).
  split.
  - intros id (g & f & Hx & Hin)%elem_of_concat. rewrite list_lookup_fmap in Hx. apply fmap_Some in Hx as ([f' acc'] & Hx & ->).
    destruct (descent_group g _ Hx) as (goal & l & E & top & acc & _ & Hl & HE & Heq & Happ & _).
    injection Heq as -> ->. cbn in Hin. apply elem_of_app in Hin as [Hin|Hin].
    + destruct (Htp g E id HE Hin) as (_ & (c & Hc & (p & -> & Hp)%list_elem_of_fmap) & _). by apply (Hq L c).
    + apply Hf, elem_of_concat. exists g, l. split; [done|]. subst l. apply elem_of_app. by left.
  - intros L' c HL' HSL' Hc p Hp. rewrite Hctrl in Hc by lia. apply (Hq L' c); [lia|lia|done|done].
  - intros L' row' g goal HL' Hrow' Hr. rewrite Hfr, Hev by lia. apply (Hg L' row'); [lia|done|done].
  - intros row' g goal Hrow' Hr. rewrite Hfr, Hev by lia.
    replace (held_in Y s1 g) with (held_in Y s g); [by apply (Hh row')|].
    unfold held_in, is_held. by rewrite (qt_pages _ _ Hqt).
Qed.
End descent.

(** ** The whole call *)

Lemma plan_settle s L row fallen plan :
  length row = G → length fallen = G → length plan = G → planned lc2pg s L row fallen plan →
  plan.*2 = (λ l, (may_fall s L l, must_hold s L l)) <$> fallen.
Proof.
  intros Hr Hf Hp Hpl. apply list_eq. intros g. rewrite !list_lookup_fmap.
  destruct (fallen !! g) as [l|] eqn:Hl.
  - pose proof (lookup_lt_Some _ _ _ Hl). destruct (lookup_lt_is_Some_2 row g) as [goal Hg]; [lia|].
    destruct (Hpl g goal l Hg Hl) as [_ ->]. done.
  - apply lookup_ge_None in Hl. rewrite lookup_ge_None_2 by lia. done.
Qed.

Lemma plan_counts s L row fallen plan g k :
  length row = G → length fallen = G → length plan = G → planned lc2pg s L row fallen plan →
  plan.*1 !! g = Some k → ∃ goal l, row !! g = Some goal ∧ fallen !! g = Some l ∧
    k = to_evict lc2pg s L g goal l ∧ ¬ short lc2pg s L g goal l.
Proof.
  intros Hr Hf Hp Hpl Hk. rewrite list_lookup_fmap in Hk. apply fmap_Some in Hk as (x & Hx & ->).
  pose proof (lookup_lt_Some _ _ _ Hx). destruct (lookup_lt_is_Some_2 row g) as [goal Hg]; [lia|].
  destruct (lookup_lt_is_Some_2 fallen g) as [l Hl]; [lia|]. destruct (Hpl g goal l Hg Hl) as [Hns Hx'].
  rewrite Hx in Hx'. injection Hx' as ->. eauto 10.
Qed.

Lemma level_step_intro X R L row fallen plan evicted s s1 :
  inv X R s1 → taken lc2pg G X L s s1 evicted → length row = G → Forall (λ goal, 0 ≤ goal) row →
  length fallen = G → (∀ g l, fallen !! g = Some l → floating X L g s l) → length plan = G →
  planned lc2pg s L row fallen plan →
  (∀ g l, evicted !! g = Some l → plan.*1 !! g = Some (Z.of_nat (length l))) →
  (∀ id, id ∈ X → queued s id ∨ id ∈ concat fallen) →
  level_step pool_wf prio_ok queue_wf lc2pg G NL X R L row fallen evicted s s1.
Proof.
  intros Hi1 Htk Hr Hpos Hf Hfl Hp Hpl Hcnt Ht. split; try done.
  - intros g l Hl. apply (floating_quiet X L g s); [|by rewrite (qt_pages _ _ (tk_quiet _ _ _ _ _ _ _ Htk))|auto].
    intros id Hin ?%(tk_queued _ _ _ _ _ _ _ Htk). by destruct (fl_pages _ _ _ _ _ _ (Hfl g l Hl) id Hin) as (_ & ? & _).
  - intros g goal l E Hg Hl HE. destruct (plan_counts s L row fallen plan g _ Hr Hf Hp Hpl (Hcnt g E HE)) as (goal' & l' & ? & ? & ? & ?).
    assert (goal' = goal) as -> by congruence. assert (l' = l) as -> by congruence. done.
Qed.

Lemma failed_descent X X' R Y L goals fallen s s1 s2 st evicted row :
  X' ⊆ X → (S L < NL)%nat →
  level_step pool_wf prio_ok queue_wf lc2pg G NL X R L row fallen evicted s s1 →
  (enough Y L goals fallen s → enough Y (S L) goals st s1) →
  failed X' R Y (S L) goals st s1 s2 → failed X R Y L goals fallen s s2.
Proof.
  intros HX HL Hls Hen [F1 F2 F3 F4]. destruct (ls_taken _ _ _ _ _ _ _ _ _ _ _ _ _ _ Hls) as [T1 _ _ _ T5 _ _].
  split.
  - by eapply inv_mono.
  - by etrans.
  - auto.
  - intros Hone He. by apply (F4 Hone), Hen.
Qed.

Lemma wp_prepare R Y rec fuel goals L fallen X s :
  inv X R s → (L < NL)%nat → (NL - L ≤ fuel)%nat → goals_ok goals → length fallen = G →
  (∀ g l, fallen !! g = Some l → floating X L g s l) → (∀ id, id ∈ X → queued s id ∨ id ∈ concat fallen) →
  wp (prepare_levels lc2pg hem rec fuel goals L fallen)
    (λ _ s', prepared X R L goals fallen s s') (λ _ s', failed X R Y L goals fallen s s') s.
Proof.
  revert L fallen X s. induction fuel as [|fuel IH]; intros L fallen X s Hi HL Hfuel Hgo Hfal Hfl Htouch; [lia|].
  pose proof Hgo as [Hlg Hrows]. destruct (lookup_lt_is_Some_2 goals L) as [row Hrow]; [lia|].
  destruct (Hrows row) as [Hlr Hpos]; [by eapply list_elem_of_lookup_2|].
  cbn [prepare_levels]. apply wp_bind, wp_get. apply wp_bind, wp_assert.
  { apply forallb_forall. intros id (g & l & Hl & Hin)%list_elem_of_In%elem_of_concat.
    destruct (fl_pages _ _ _ _ _ _ (Hfl g l Hl) id Hin) as (_ & _ & o & -> & _ & Hlt & _). by apply Nat.ltb_lt. }
  apply wp_bind, (wp_lift _ row); [by rewrite Hrow|].
  eapply wp_call; [by apply (wp_plan pool_wf prio_ok queue_wf lc2pg G NL X R)|..]; cbn beta; last first.
  { intros e s' (-> & g & goal & l & Hr & Hl & Hs). split; try done. intros _. by eapply short_not_enough. }
  intros plan s' (-> & Hlp & Hpl).
  eapply wp_call; [apply (wp_evict pool_wf prio_ok queue_wf lc2pg G NL X R L plan.*1 s); [done|done|by rewrite length_fmap]|..];
    cbn beta; last first.
  { intros e s' (Hi' & Hqt & Hq & Hfail). split; try done; [by intros j ?%Hq|]. intros Hone _. apply Hfail; [|done].
    intros g k (goal & l & _ & _ & -> & _)%(plan_counts s L row fallen plan g k Hlr Hfal Hlp Hpl).
    unfold to_evict. assert (0 ≤ evictable_at s L g) by (unfold StorageFree.evictable_at; destruct (ctrl_at s L); cbn; lia). lia. }
  intros ls s1 (Hi1 & Htk & Hcnt). cbv zeta.
  pose proof (level_step_intro X R L row fallen plan (ids_of ls) s s1 Hi1 Htk Hlr Hpos Hfal Hfl Hlp Hpl Hcnt Htouch) as Hls.
  rewrite (plan_settle s L row fallen plan) by done.
  eapply (wp_call _ _ (λ accepted s2, settled X R L row fallen s1 accepted s2 ∧ goals_met (S L) goals s2)
    (λ _ s', failed X R Y L goals fallen s s')); [| |done].
  - destruct (is_last_level s L) eqn:Hlast.
    + eapply wp_mono; [by apply (wp_settle_last pool_wf prio_ok queue_wf lc2pg G NL HL Hls)| |done].
      intros accepted s2 Hsd. split; [done|]. intros L' row' g goal HL'. unfold is_last_level in Hlast.
      apply Nat.eqb_eq in Hlast. rewrite (si_len _ _ _ _ _ _ _ _ _ Hi) in Hlast. lia.
    + assert (HSL : (S L < NL)%nat).
      { unfold is_last_level in Hlast. apply Nat.eqb_neq in Hlast. rewrite (si_len _ _ _ _ _ _ _ _ _ Hi) in Hlast. lia. }
      rewrite <- list_fmap_compose. replace ((fst ∘ (λ l, (may_fall s L l, must_hold s L l))) <$> fallen) with fallen; last first.
      { rewrite <- (list_fmap_id fallen) at 1. apply list_fmap_ext. intros ? l _. cbn. unfold may_fall. by rewrite Hlast. }
      eapply wp_call; [by apply (wp_settle_mid pool_wf prio_ok queue_wf lc2pg G NL HL Hls)| |done].
      intros st s' (-> & Hlst & Hst).
      eapply wp_call; [apply (IH (S L) st.*1 (X ∖ list_to_set (concat st.*2)) s1)|..].
      * by eapply descent_inv.
      * done.
      * lia.
      * done.
      * by rewrite length_fmap.
      * intros g l. by eapply descent_floating.
      * intros id. by eapply descent_touch.
      * intros [] s2 Hpr. apply wp_ret. split; [by eapply descent_settled|by eapply pr_met].
      * cbn beta. intros e s2 Hf. refine (failed_descent X _ R Y L goals fallen s s1 s2 _ _ row _ HSL Hls _ Hf).
        -- set_solver.
        -- by eapply descent_enough.
  - intros accepted s2 [Hsd Hmet].
    assert (Hfl1 : ∀ g l, fallen !! g = Some l → floating X L g s1 l) by (by eapply ls_floating).
    eapply wp_mono; [by apply (wp_migrate_all X R rec L row fallen s1 accepted s2)| |done].
    intros [] s' [Hi' Ha]. eapply (prepared_by X R L goals row fallen s s1 accepted s2 s'); try done.
    eapply tk_quiet; done.
Qed.
End storage_prepare.
