(* ===== verification/StorageProps.v ===== *)
(** * The calls of the storage manager

    [prepare_free_slots], [force_evict] and [new_slots] against the invariant:
    [storage_ok R s] is [st_inv] with the pages that wait for eviction. *)

From S2P Require Import Prelude CacheKey RadixTree KvUtils SlotAllocator Eviction Wp StorageIface Storage StorageInv.
From S2P Require Import StorageDrop StorageMove StorageRoom StorageFree StoragePrepare.

Local Open Scope Z_scope.

Section storage_props.
Context {P C T V : Type} `{!SlotPool P, !EvictQueue C, !BlockTree T}.
Context (pool_wf : P → Prop) `{!SlotPoolSpec P pool_wf}.
Context (prio_ok : Z → Prop) (queue_wf : list nat → nat → nat → C → Prop).
Context `{!EvictQueueSpec C prio_ok queue_wf}.
Context (lc2pg : list nat) (G NL : nat) (hem : bool).
#[local] Abbreviation SM := (StorageManager P C T V).
#[local] Abbreviation inv := (st_inv pool_wf prio_ok queue_wf lc2pg G NL).
#[local] Abbreviation floating := (floating lc2pg).
#[local] Abbreviation evolves := (evolves lc2pg).
#[local] Abbreviation never := (λ _ _, False).
Implicit Types (s : SM) (o : PageObj) (id : Z) (X Y : gset Z) (R : nat → nat → gset Z).

Definition queued_set s : gset Z := list_to_set (queued_ids s).

(** Pages, slots and queues agree; the callers hold the slots [R]. *)
Definition storage_ok R s : Prop := inv (queued_set s) R s.

Lemma elem_of_queued_ids s id : id ∈ queued_ids s ↔ queued s id.
Proof.
  unfold queued_ids, queued, ctrl_at. rewrite list_elem_of_bind. split.
  - intros (lv & Hin & [L HL]%list_elem_of_lookup). exists L, (lv_controller lv). by rewrite HL.
  - intros (L & c & (lv & Hlv & ->)%fmap_Some & Hin). exists lv. split; [done|]. by eapply list_elem_of_lookup_2.
Qed.

Lemma elem_of_queued_set s id : id ∈ queued_set s ↔ queued s id.
Proof. unfold queued_set. by rewrite elem_of_list_to_set, elem_of_queued_ids. Qed.

Lemma inv_storage_ok X R s : inv X R s → storage_ok R s.
Proof. intros Hi. eapply inv_touch; [done|]. intros id. by rewrite elem_of_queued_set. Qed.

Lemma NoDup_queued X R s : inv X R s → NoDup (queued_ids s).
Proof.
  intros Hi. unfold queued_ids.
  assert (Hlv : ∀ L lv, sm_levels s !! L = Some lv → NoDup (page_id <$> q_pages (lv_controller lv)) ∧
    ∀ L' lv' j, sm_levels s !! L' = Some lv' → j ∈ page_id <$> q_pages (lv_controller lv) →
      j ∈ page_id <$> q_pages (lv_controller lv') → L' = L).
  { intros L lv HL. assert (Hc : ctrl_at s L = Some (lv_controller lv)) by (unfold ctrl_at; by rewrite HL).
    pose proof (ctrl_level _ _ _ Hc) as Hlt. rewrite (si_len _ _ _ _ _ _ _ _ _ Hi) in Hlt.
    destruct (si_ctrls _ _ _ _ _ _ _ _ _ Hi L Hlt) as (c & Hc' & Hwf). rewrite Hc in Hc'. injection Hc' as <-.
    split; [by eapply q_ids|]. intros L' lv' j HL' Hj Hj'.
    assert (Hc' : ctrl_at s L' = Some (lv_controller lv')) by (unfold ctrl_at; by rewrite HL').
    by eapply queued_level. }
  clear Hi. induction (sm_levels s) as [|lv lvs IH]; [constructor|]. cbn.
  apply NoDup_app. split; [by apply (Hlv 0%nat)|]. split.
  - intros j Hj (lv' & Hj' & [L HL]%list_elem_of_lookup)%list_elem_of_bind.
    by pose proof (proj2 (Hlv 0%nat lv eq_refl) (S L) lv' j HL Hj Hj').
  - apply IH. intros L lv' HL. destruct (Hlv (S L) lv' HL) as [Hn Hu]. split; [done|].
    intros L' lv2 j HL' Hj Hj'. pose proof (Hu (S L') lv2 j HL' Hj Hj'). by injection H.
Qed.

(** ** Unwinding *)

(** What a failed call leaves: no page has moved; those missing were droppable
    and waited for eviction. *)
Record given_up R s s' : Prop := {
  gu_ok : storage_ok R s';
  gu_sub : ∀ id o, sm_pages s' !! id = Some o → sm_pages s !! id = Some o;
  gu_kept : ∀ id o, sm_pages s !! id = Some o → ¬ queued s id ∨ po_status o ≠ DROPPABLE → sm_pages s' !! id = Some o;
  gu_queued : ∀ id, queued s' id → queued s id;
  gu_mem : sm_mem s' = sm_mem s;
  gu_cap : ∀ L g, cap_at s' L g = cap_at s L g;
}.

Lemma given_up_evolves R s s' : storage_ok R s → given_up R s s' → evolves (queued_set s) R s s'.
Proof.
  intros Hi [H1 H2 H3 H4 H5 H6]. split; try done.
  - intros id o Ho. exists o. split; [auto|]. split; [done|]. unfold content. by rewrite H5.
  - intros id o Ho Hst. exists o. auto.
  - intros id Hni. rewrite elem_of_queued_set in Hni. destruct (sm_pages s !! id) as [o|] eqn:Ho; [auto|].
    destruct (sm_pages s' !! id) as [o|] eqn:Ho'; [|done]. apply H2 in Ho'. congruence.
  - by rewrite H5.
Qed.

Lemma wp_unwinding {A} (m : M SM A) (Q : A → SM → Prop) R (F : Prop) s :
  storage_ok R s →
  wp m Q (λ _ s', F ∧ inv (queued_set s) R s' ∧ quiet s s' ∧ ∀ j, queued s' j → queued s j) s →
  wp (unwinding lc2pg m) Q (λ _ s', F ∧ given_up R s s') s.
Proof.
  intros Hi Hm. unfold wp, unwinding in *. destruct (m s) as [[a|e] s1]; [done|].
  destruct Hm as (HF & Hi1 & [Hp Hmem Hpl] & Hq).
  set (ids := filter _ (queued_ids s)).
  assert (Hdrop : wp (drop_pages lc2pg ids) (λ _ s', inv (queued_set s) R s' ∧ dropped (list_to_set ids) s1 s') never s1).
  { apply (wp_drop_pages pool_wf prio_ok queue_wf lc2pg G NL); [done|apply NoDup_filter; by eapply NoDup_queued|].
    intros id [[Hd Hs] _]%list_elem_of_filter. unfold is_droppable in Hd.
    destruct (sm_pages s1 !! id) as [o|] eqn:Ho; [|done]. exists o. split; [done|].
    split; [by apply bool_decide_eq_true in Hd|]. intros Hqd%(scheduled_queued _ _ _ _ _ _ Hi1). congruence. }
  mrun. unfold wp in Hdrop. destruct (drop_pages lc2pg ids s1) as [[[]|e'] s2]; [|done].
  destruct Hdrop as [Hi2 [D1 D2 D3 D4 D5 _]]. split; [done|].
  assert (Hids : ∀ id, id ∈ ids → queued s id ∧ is_droppable s1 id = true).
  { intros id [[? _] ?%elem_of_queued_ids]%list_elem_of_filter. done. }
  split.
  - by eapply inv_storage_ok.
  - intros id o Ho. rewrite <- Hp. by apply D1.
  - intros id o Ho Hor. assert (Ho1 : sm_pages s1 !! id = Some o) by (by rewrite Hp). apply D2; [done| |].
    + intros Hin%elem_of_list_to_set. destruct (Hids id Hin) as [Hqd Hdr]. unfold is_droppable in Hdr.
      rewrite Ho1 in Hdr. apply bool_decide_eq_true in Hdr. naive_solver.
    + destruct Hor as [Hnq|?]; [left; auto|by right].
  - intros id ?%D3%Hq. done.
  - congruence.
  - intros L g. rewrite D5. unfold cap_at. by rewrite Hpl.
Qed.

(** ** [prepare_free_slots] *)

Lemma goal_rows_ok s level req :
  num_cache_levels s = NL → length req = G → Forall (λ n, 0 ≤ n) req → goals_ok G NL (goal_rows G s level req).
Proof.
  intros Hn Hl Hpos. unfold goal_rows. rewrite Hn. split; [by rewrite length_insert, length_replicate|].
  intros row [k Hk]%list_elem_of_lookup. apply list_lookup_insert_Some in Hk as [(_ & <- & _)|[_ Hk]]; [done|].
  apply lookup_replicate in Hk as [-> _]. split; [apply length_replicate|]. by apply Forall_replicate.
Qed.

Lemma goal_row s level req : (level < num_cache_levels s)%nat → goal_rows G s level req !! level = Some req.
Proof. intros H. unfold goal_rows. apply list_lookup_insert_eq. by rewrite length_replicate. Qed.

Lemma goal_row_other s level req L row g n :
  L ≠ level → goal_rows G s level req !! L = Some row → row !! g = Some n → n = 0.
Proof.
  intros Hne. unfold goal_rows. rewrite list_lookup_insert_ne by done.
  intros [-> _]%lookup_replicate [-> _]%lookup_replicate. done.
Qed.

Lemma no_fallen X L s g l : replicate G ([] : list Z) !! g = Some l → floating X L g s l.
Proof. intros [-> _]%lookup_replicate. split; [constructor|]. by intros id ?%not_elem_of_nil. Qed.

(** The pages that wait for eviction at the level and below, but for the last
    level: those that may have to move. *)
Definition waiting s (level : nat) : gset Z :=
  list_to_set (take (NL - 1 - level) (drop level (sm_levels s)) ≫= λ lv, page_id <$> q_pages (lv_controller lv)).

(** Free slots and pages to evict suffice at the level, and at the last level
    for the held pages that may have to move there. *)
Record can_make_room (level : nat) (req : list Z) s : Prop := {
  cm_goal : ∀ g n, req !! g = Some n → n ≤ free_at s level g + evictable_at lc2pg s level g;
  cm_last : (S level < NL)%nat → ∀ g, (g < G)%nat →
    Z.of_nat (size (held_in lc2pg (waiting s level) s g)) ≤
    free_at s (NL - 1) g + evictable_at lc2pg s (NL - 1) g;
}.

Lemma can_make_room_enough R level req s :
  storage_ok R s → (level < NL)%nat → length req = G → can_make_room level req s →
  enough lc2pg NL (waiting s level) level (goal_rows G s level req) (replicate G []) s.
Proof.
  intros Hi HL Hreq [Hg Hlast]. pose proof (si_len _ _ _ _ _ _ _ _ _ Hi) as Hn.
  assert (Hzero : ∀ L g, (L < NL)%nat → (g < G)%nat → 0 ≤ free_at s L g + evictable_at lc2pg s L g).
  { intros L g HL' HG. destruct (free_res _ _ _ _ _ _ Hi L g HL' HG) as [_ ?].
    unfold evictable_at. destruct (ctrl_at s L); cbn; lia. }
  split.
  - intros id (g & l & [-> _]%lookup_replicate & ?%not_elem_of_nil)%elem_of_concat. done.
  - intros L c HL1 HL2 (lv & Hlv & ->)%fmap_Some p Hp. unfold waiting. apply elem_of_list_to_set, list_elem_of_bind.
    exists lv. split; [by apply list_elem_of_fmap_2|]. apply list_elem_of_lookup. exists (L - level)%nat.
    rewrite lookup_take_lt by lia. rewrite lookup_drop. by replace (level + (L - level))%nat with L by lia.
  - intros L row g goal HL' Hrow Hr. destruct (decide (L = level)) as [->|Hne].
    + rewrite goal_row in Hrow by lia. injection Hrow as <-. by apply Hg.
    + pose proof (goal_row_other _ _ _ _ _ _ _ Hne Hrow Hr) as ->. apply Hzero; [lia|].
      unfold goal_rows in Hrow. rewrite list_lookup_insert_ne in Hrow by done.
      apply lookup_replicate in Hrow as [-> _]. by apply lookup_replicate in Hr as [_ ?].
  - intros row g goal Hrow Hr. destruct (decide (S level < NL)%nat) as [HSL|HSL].
    + assert (Hne : (NL - 1)%nat ≠ level) by lia. pose proof (goal_row_other _ _ _ _ _ _ _ Hne Hrow Hr) as ->.
      rewrite Z.add_0_l. apply Hlast; [done|]. unfold goal_rows in Hrow. rewrite list_lookup_insert_ne in Hrow by done.
      apply lookup_replicate in Hrow as [-> _]. by apply lookup_replicate in Hr as [_ ?].
    + assert (HN : (NL - 1 = level)%nat) by lia. rewrite HN in Hrow |- *. rewrite goal_row in Hrow by lia. injection Hrow as <-.
      assert (Hw : waiting s level = (∅ : gset Z)) by (unfold waiting; by replace (NL - 1 - level)%nat with 0%nat by lia).
      assert (Hh : held_in lc2pg (waiting s level) s g = (∅ : gset Z)).
      { apply set_eq. intros id. unfold held_in. rewrite elem_of_filter, Hw. set_solver. }
      rewrite Hh, size_empty. pose proof (Hg g goal Hr). lia.
Qed.

(** The slots asked for are there; the levels above are as they were. *)
Record made_room R (level : nat) (req : list Z) s s' : Prop := {
  mr_ok : storage_ok R s';
  mr_evolves : evolves (queued_set s) R s s';
  mr_free : ∀ g n, req !! g = Some n → n ≤ free_at s' level g;
  mr_above : ∀ id o, sm_pages s' !! id = Some o → (po_level o < level)%nat → sm_pages s !! id = Some o;
  mr_queued : ∀ id, queued s' id → queued s id;
  mr_sched : ∀ id o, queued s id → sm_pages s' !! id = Some o → can_evict NL o → queued s' id;
}.

Lemma wp_prepare_free_slots R rec level req s :
  storage_ok R s → (level < NL)%nat → length req = G → Forall (λ n, 0 ≤ n) req →
  wp (prepare_free_slots lc2pg G hem rec level req)
    (λ _ s', made_room R level req s s')
    (λ _ s', (one_priority prio_ok → ¬ can_make_room level req s) ∧ given_up R s s') s.
Proof.
  intros Hi HL Hreq Hpos. pose proof (si_len _ _ _ _ _ _ _ _ _ Hi) as Hn.
  unfold prepare_free_slots. apply wp_bind, wp_get. apply wp_unwinding; [done|].
  eapply wp_mono; [apply (wp_prepare pool_wf prio_ok queue_wf lc2pg G NL hem R (waiting s level) rec
    _ _ level _ (queued_set s) s Hi HL)|..].
  - lia.
  - by apply goal_rows_ok.
  - apply length_replicate.
  - intros g l. apply no_fallen.
  - intros id. rewrite elem_of_queued_set. by left.
  - intros [] s' [Hi' Hev Hmet Habove Hsched]. split; [by eapply inv_storage_ok|done|..].
    + intros g n Hr. apply (Hmet level req); [lia|apply goal_row; lia|done].
    + intros id o Ho Hlt. by apply (Habove id o).
    + intros id [? _]%(queued_page _ _ _ _ _ _ Hi'). by apply elem_of_queued_set.
    + intros id o Hq. apply Hsched. by apply elem_of_queued_set.
  - intros e s' [Hi' Hqt Hq Hs]. split; [|done]. intros Hone Hcm. apply (Hs Hone). by eapply can_make_room_enough.
Qed.

(** C4: Making room is safe whatever its outcome.  After [prepare_free_slots]
    pages, slots and queues agree again; every held or locked page is alive;
    each page alive has its attributes and its content, wherever it has moved;
    pages that did not wait for eviction have not moved; and the slots in the
    hands of the callers keep their content. *)
Theorem prepare_free_slots_safe R rec level req s r s' :
  storage_ok R s → (level < NL)%nat → length req = G → Forall (λ n, 0 ≤ n) req →
  prepare_free_slots lc2pg G hem rec level req s = (r, s') →
  storage_ok R s' ∧ evolves (queued_set s) R s s'.
Proof.
  intros Hi HL Hreq Hpos Hrun. pose proof (wp_prepare_free_slots R rec level req s Hi HL Hreq Hpos) as Hwp.
  unfold wp in Hwp. rewrite Hrun in Hwp. destruct r as [[]|e].
  - by destruct Hwp.
  - destruct Hwp as [_ Hgu]. split; [by apply Hgu|]. by apply given_up_evolves.
Qed.

(** C9: Making room succeeds when it can.  With pages of one priority, if at
    the level the free slots and the pages waiting for eviction cover the
    request, and at the last level they cover the held pages that may have to
    move there, then [prepare_free_slots] returns, the slots asked for are
    free, and the levels above are untouched. *)
Theorem prepare_free_slots_succeeds R rec level req s :
  storage_ok R s → (level < NL)%nat → length req = G → Forall (λ n, 0 ≤ n) req →
  one_priority prio_ok → can_make_room level req s →
  ∃ s', prepare_free_slots lc2pg G hem rec level req s = (Ok (), s') ∧
    (∀ g n, req !! g = Some n → n ≤ free_at s' level g) ∧
    (∀ id o, sm_pages s' !! id = Some o → (po_level o < level)%nat → sm_pages s !! id = Some o).
Proof.
  intros Hi HL Hreq Hpos Hone Hcm. pose proof (wp_prepare_free_slots R rec level req s Hi HL Hreq Hpos) as Hwp.
  unfold wp in Hwp. destruct (prepare_free_slots _ _ _ _ _ _ s) as [[[]|e] s'].
  - exists s'. destruct Hwp. done.
  - destruct Hwp as [Hf _]. by destruct (Hf Hone).
Qed.

(** A failed [prepare_free_slots] moves nothing: contents and places of
    all pages are as before, and the only pages lost are droppable ones that
    waited for eviction. *)
Theorem prepare_free_slots_fails R rec level req s e s' :
  storage_ok R s → (level < NL)%nat → length req = G → Forall (λ n, 0 ≤ n) req →
  prepare_free_slots lc2pg G hem rec level req s = (Raise e, s') →
  (one_priority prio_ok → ¬ can_make_room level req s) ∧ sm_mem s' = sm_mem s ∧
  ∀ id, sm_pages s' !! id = sm_pages s !! id ∨
    (sm_pages s' !! id = None ∧ queued s id ∧ ∃ o, sm_pages s !! id = Some o ∧ po_status o = DROPPABLE).
Proof.
  intros Hi HL Hreq Hpos Hrun. pose proof (wp_prepare_free_slots R rec level req s Hi HL Hreq Hpos) as Hwp.
  unfold wp in Hwp. rewrite Hrun in Hwp. destruct Hwp as [Hf [G1 G2 G3 G4 G5 G6]]. split; [done|]. split; [done|].
  intros id. destruct (sm_pages s' !! id) as [o'|] eqn:Ho'; [left; by rewrite (G2 _ _ Ho')|].
  destruct (sm_pages s !! id) as [o|] eqn:Ho; [right|by left]. split; [done|].
  destruct (decide (po_status o = DROPPABLE)) as [Hd|Hd]; [|by rewrite (G3 id o Ho ltac:(by right)) in Ho'].
  split; [|eauto]. rewrite <- elem_of_queued_ids. destruct (decide (id ∈ queued_ids s)) as [|Hni]; [done|].
  rewrite elem_of_queued_ids in Hni. by rewrite (G3 id o Ho ltac:(by left)) in Ho'.
Qed.
End storage_props.
