(* ===== verification/StorageSlots.v ===== *)
(** * Handing out slots, and forced eviction *)

From S2P Require Import Prelude CacheKey RadixTree KvUtils SlotAllocator Eviction Wp StorageIface Storage StorageInv.
From S2P Require Import StorageDrop StorageMove StorageRoom StorageFree StoragePrepare StorageProps.

Local Open Scope Z_scope.

Section storage_slots.
Context {P C T V : Type} `{!SlotPool P, !EvictQueue C, !BlockTree T}.
Context (pool_wf : P → Prop) `{!SlotPoolSpec P pool_wf}.
Context (prio_ok : Z → Prop) (queue_wf : list nat → nat → nat → C → Prop).
Context `{!EvictQueueSpec C prio_ok queue_wf}.
Context (lc2pg : list nat) (G NL : nat) (hem : bool).
#[local] Abbreviation SM := (StorageManager P C T V).
#[local] Abbreviation inv := (st_inv pool_wf prio_ok queue_wf lc2pg G NL).
#[local] Abbreviation storage_ok := (storage_ok pool_wf prio_ok queue_wf lc2pg G NL).
#[local] Abbreviation given_up := (given_up pool_wf prio_ok queue_wf lc2pg G NL).
#[local] Abbreviation can_make_room := (can_make_room lc2pg G NL).
#[local] Abbreviation evolves := (evolves lc2pg).
#[local] Abbreviation never := (λ _ _, False).
Implicit Types (s : SM) (o : PageObj) (id : Z) (X Y : gset Z) (R : nat → nat → gset Z).

(** ** Counting requests *)

(** The slots a list of requests takes of a pool group. *)
Definition need (l : list (nat * Z)) (g : nat) : Z :=
  zsum ((λ x, if decide (x.1 = g) then x.2 else 0) <$> l).

Lemma need_cons g0 n l g : need ((g0, n) :: l) g = (if decide (g0 = g) then n else 0) + need l g.
Proof. unfold need. by rewrite fmap_cons, zsum_cons. Qed.

Lemma need_nonneg l g : Forall (λ x, 0 ≤ x.2) l → 0 ≤ need l g.
Proof.
  intros Hl. unfold need. apply zsum_nonneg, Forall_fmap. eapply Forall_impl; [done|].
  intros [g0 n] Hn. cbn in *. case_decide; lia.
Qed.

Lemma group_counts_ok lcs nums acc :
  length nums = length lcs → Forall (λ n, 0 ≤ n) nums → Forall (λ g, (g < length acc)%nat) lcs →
  ∃ counts, group_counts lcs nums acc = Ok counts ∧ length counts = length acc ∧
    ∀ g a, acc !! g = Some a → counts !! g = Some (a + need (zip lcs nums) g).
Proof.
  revert nums acc. induction lcs as [|g0 lcs IH]; intros [|n nums] acc Hl Hpos Hlt; try done.
  { exists acc. split; [done|]. split; [done|]. intros g a Ha. by rewrite Z.add_0_r. }
  apply Forall_cons in Hpos as [Hn Hpos]. apply Forall_cons in Hlt as [Hg0 Hlt]. cbn in Hl. injection Hl as Hl.
  apply lookup_lt_is_Some in Hg0 as [a0 Ha0]. cbn [group_counts]. rewrite (proj2 (Z.ltb_ge n 0)) by done.
  rewrite Ha0. cbn. destruct (IH nums (<[g0 := a0 + n]> acc) Hl Hpos) as (counts & Hc & Hlen & Hlk).
  { by rewrite length_insert. }
  exists counts. rewrite length_insert in Hlen. split; [done|]. split; [done|]. intros g a Ha.
  rewrite need_cons. destruct (decide (g0 = g)) as [->|Hne].
  - rewrite (Hlk g (a0 + n)); [f_equal; assert (a = a0) by congruence; lia|].
    apply list_lookup_insert_eq. by eapply lookup_lt_Some.
  - rewrite (Hlk g a); [f_equal; lia|]. by rewrite list_lookup_insert_ne.
Qed.

Lemma group_counts_negative lcs nums acc k n :
  Forall (λ g, (g < length acc)%nat) lcs → nums !! k = Some n → (k < length lcs)%nat → n < 0 →
  Forall (λ n, 0 ≤ n) (take k nums) → group_counts lcs nums acc = Raise LogicError.
Proof.
  revert nums acc k. induction lcs as [|g0 lcs IH]; intros [|m nums] acc k Hlt Hk Hkl Hn Hpos; cbn in Hkl; try lia; [done|].
  apply Forall_cons in Hlt as [Hg0 Hlt]. cbn [group_counts]. destruct k as [|k].
  - cbn in Hk. injection Hk as ->. by rewrite (proj2 (Z.ltb_lt n 0)).
  - cbn in Hk, Hpos. apply Forall_cons in Hpos as [Hm Hpos]. rewrite (proj2 (Z.ltb_ge m 0)) by done.
    apply lookup_lt_is_Some in Hg0 as [a0 ->]. cbn. apply (IH nums _ k); try done; [by rewrite length_insert|lia].
Qed.

Lemma fits_spec X R s level k counts :
  inv X R s → (level < NL)%nat → (k + length counts ≤ G)%nat →
  ∃ b, fits s level k counts = Ok b ∧
    (b = true ↔ ∀ g n, counts !! g = Some n → n ≤ free_at s level (k + g)).
Proof.
  intros Hi HL. revert k. induction counts as [|n counts IH]; intros k Hk; [exists true; split; [done|]; by split|].
  cbn in Hk. destruct (si_pools _ _ _ _ _ _ _ _ _ Hi level k HL ltac:(lia)) as (p & Hp & _).
  cbn [fits]. rewrite Hp. cbn. assert (Hf : free_at s level k = pool_free p) by (unfold free_at; by rewrite Hp).
  destruct (Z.leb_spec n (pool_free p)) as [Hle|Hgt].
  - destruct (IH (S k) ltac:(lia)) as (b & -> & Hb). exists b. split; [done|]. rewrite Hb. split.
    + intros H [|g] m Hm; cbn in Hm; [injection Hm as <-; rewrite Nat.add_0_r; lia|].
      replace (k + S g)%nat with (S k + g)%nat by lia. auto.
    + intros H g m Hm. replace (S k + g)%nat with (k + S g)%nat by lia. by apply (H (S g)).
  - exists false. split; [done|]. split; [done|]. intros H. specialize (H 0%nat n eq_refl). rewrite Nat.add_0_r in H. lia.
Qed.

(** ** Allocation *)

Definition add_slots R (level : nat) (l : list (nat * list Z)) : nat → nat → gset Z :=
  foldl (λ R x, upd R level x.1 (λ r, list_to_set x.2 ∪ r)) R l.

(** The slots are distinct and were in nobody's hands. *)
Fixpoint fresh_slots R (level : nat) (l : list (nat * list Z)) : Prop :=
  match l with
  | [] => True
  | (g, ids) :: l => NoDup ids ∧ (∀ i, i ∈ ids → i ∉ R level g) ∧
      fresh_slots (upd R level g (λ r, list_to_set ids ∪ r)) level l
  end.

Lemma wp_allocate_cycles X level l R ret s :
  inv X R s → (level < NL)%nat → Forall (λ x, (x.1 < G)%nat ∧ 0 ≤ x.2) l →
  (∀ g, (g < G)%nat → need l g ≤ free_at s level g) →
  wp (allocate_cycles level ret l)
    (λ r s', ∃ new ids, r = ret.*2 ++ new ∧ Forall2 (λ x js, _slot_id <$> x = Some <$> js) new ids ∧
       Forall2 (λ x js, Z.of_nat (length js) = x.2) l ids ∧
       fresh_slots R level (zip l.*1 ids) ∧ inv X (add_slots R level (zip l.*1 ids)) s' ∧
       sm_pages s' = sm_pages s ∧ sm_mem s' = sm_mem s ∧ (∀ L, ctrl_at s' L = ctrl_at s L) ∧
       ∀ L g, cap_at s' L g = cap_at s L g) never s.
Proof.
  revert R ret s. induction l as [|[g n] l IH]; intros R ret s Hi HL Hl Hneed.
  { unfold wp. cbn. exists [], []. rewrite app_nil_r. split_and!; done || constructor. }
  apply Forall_cons in Hl as [[Hg Hn] Hl]. cbn in Hg, Hn.
  assert (Hpos : Forall (λ x, 0 ≤ x.2) l) by (eapply Forall_impl; [done|]; by intros x [_ ?]).
  assert (Hfit : n ≤ free_at s level g).
  { specialize (Hneed g Hg). rewrite need_cons, decide_True in Hneed by done. pose proof (need_nonneg l g Hpos). lia. }
  pose proof (wp_alloc pool_wf prio_ok queue_wf lc2pg G NL X R level g n s Hi HL Hg ltac:(lia)) as Hal.
  unfold wp in Hal |- *. cbn [allocate_cycles]. destruct (with_pool level g (pool_alloc n) s) as [[slots|e] s1]; [|done].
  destruct Hal as (ids & Hslots & Hnd & Hlen & Hi1 & Hfresh & Hp1 & Hm1 & Hc1 & Hcap1).
  assert (Hneed1 : ∀ g', (g' < G)%nat → need l g' ≤ free_at s1 level g').
  { intros g' Hg'. specialize (Hneed g' Hg'). rewrite need_cons in Hneed.
    destruct (free_res _ _ _ _ _ _ Hi level g' HL Hg') as [Hf0 _], (free_res _ _ _ _ _ _ Hi1 level g' HL Hg') as [Hf1 _].
    rewrite Hf0 in Hneed. rewrite Hf1, Hcap1. unfold res in *. rewrite Hp1. destruct (decide (g = g')) as [<-|Hne].
    - rewrite upd_eq. rewrite size_union, size_list_to_set by (done || intros i Hin%elem_of_list_to_set; by apply Hfresh).
      lia.
    - rewrite upd_ne by (intros [_ ?]; congruence). lia. }
  specialize (IH _ (ret ++ [(g, slots)]) s1 Hi1 HL Hl Hneed1). unfold wp in IH.
  destruct (allocate_cycles level (ret ++ [(g, slots)]) l s1) as [[r|e] s2]; [|done].
  destruct IH as (new & idss & -> & H2 & H3 & H4 & H5 & H6 & H7 & H8 & H9).
  exists (slots :: new), (ids :: idss). split; [by rewrite fmap_app, <- (assoc_L (++))|].
  split; [by constructor|]. split; [by constructor|]. split; [|split; [done|]].
  - cbn. split; [done|]. split; [|done]. intros i Hin. by apply Hfresh.
  - split_and!; [congruence..| |]; intros; congruence.
Qed.

(** ** [new_slots] *)

Lemma same_evolves X R s s' :
  sm_pages s' = sm_pages s → sm_mem s' = sm_mem s → (∀ L g, cap_at s' L g = cap_at s L g) → evolves X R s s'.
Proof.
  intros Hp Hm Hc. split; rewrite ?Hp; try done.
  - intros id o Ho. exists o. split; [done|]. split; [done|]. unfold content. by rewrite Hm.
  - by rewrite Hm.
Qed.

(** The state once there is room for [counts], made if need be. *)
Record has_room R (level : nat) (counts : list Z) s s' : Prop := {
  hr_ok : storage_ok R s';
  hr_evolves : evolves (queued_set s) R s s';
  hr_free : ∀ g n, counts !! g = Some n → n ≤ free_at s' level g;
}.

Lemma wp_room (fit : bool) R rec level counts s :
  storage_ok R s → (level < NL)%nat → length counts = G → Forall (λ n, 0 ≤ n) counts →
  (fit = true → ∀ g n, counts !! g = Some n → n ≤ free_at s level g) →
  wp (if fit then mret () else prepare_free_slots lc2pg G hem rec level counts)
    (λ _ s', has_room R level counts s s')
    (λ _ s', (one_priority prio_ok → ¬ can_make_room level counts s) ∧ given_up R s s') s.
Proof.
  intros Hi HL Hlen Hpos Hfit. destruct fit; [apply wp_ret; split; [done|done|auto]|].
  eapply wp_mono; [by apply (wp_prepare_free_slots pool_wf prio_ok queue_wf lc2pg G NL hem R)| |done].
  intros [] s' [H1 H2 H3 _ _ _]. by split.
Qed.

Lemma counts_need num_slots :
  Forall (λ g, (g < G)%nat) lc2pg → length num_slots = length lc2pg → Forall (λ n, 0 ≤ n) num_slots →
  ∃ counts, group_counts lc2pg num_slots (replicate G 0) = Ok counts ∧ length counts = G ∧
    Forall (λ n, 0 ≤ n) counts ∧ (∀ g, (g < G)%nat → counts !! g = Some (need (zip lc2pg num_slots) g)).
Proof.
  intros Hlc Hlen Hpos. destruct (group_counts_ok lc2pg num_slots (replicate G 0)) as (counts & Hc & Hl & Hlk); [done..| |].
  { eapply Forall_impl; [done|]. intros g Hg. by rewrite length_replicate. }
  rewrite length_replicate in Hl.
  assert (Hlk' : ∀ g, (g < G)%nat → counts !! g = Some (need (zip lc2pg num_slots) g)).
  { intros g Hg. rewrite (Hlk g 0); [done|]. by apply lookup_replicate_2. }
  exists counts. split_and!; try done. apply Forall_lookup. intros g n Hn.
  rewrite Hlk' in Hn by (rewrite <- Hl; by eapply lookup_lt_Some). injection Hn as <-. apply need_nonneg.
  clear -Hpos. revert num_slots Hpos. induction lc2pg as [|g l IH]; intros [|n nums] Hpos; try constructor;
    apply Forall_cons in Hpos as [? ?]; auto.
Qed.

(** The slots given out, by life cycle. *)
Record slots_given R (level : nat) (num_slots : list Z) (ret : list (list Slot)) s s' (ids : list (list Z)) : Prop := {
  sg_slots : Forall2 (λ slots js, _slot_id <$> slots = Some <$> js) ret ids;
  sg_count : Forall2 (λ n js, Z.of_nat (length js) = n) num_slots ids;
  sg_fresh : fresh_slots R level (zip lc2pg ids);
  sg_ok : storage_ok (add_slots R level (zip lc2pg ids)) s';
  sg_evolves : evolves (queued_set s) R s s';
}.

Lemma wp_new_slots R rec level num_slots s :
  storage_ok R s → (level < NL)%nat → Forall (λ g, (g < G)%nat) lc2pg → length num_slots = length lc2pg →
  Forall (λ n, 0 ≤ n) num_slots →
  wp (new_slots lc2pg G hem rec level num_slots)
    (λ ret s', ∃ ids, slots_given R level num_slots ret s s' ids)
    (λ _ s', (one_priority prio_ok →
              ¬ can_make_room level ((λ g, need (zip lc2pg num_slots) g) <$> seq 0 G) s) ∧ given_up R s s') s.
Proof.
  intros Hi HL Hlc Hlen Hpos. destruct (counts_need num_slots Hlc Hlen Hpos) as (counts & Hc & Hlc' & Hcpos & Hlk).
  replace ((λ g, need (zip lc2pg num_slots) g) <$> seq 0 G) with counts; last first.
  { apply list_eq. intros g. rewrite list_lookup_fmap. destruct (decide (g < G)%nat) as [Hg|Hg].
    - rewrite Hlk, lookup_seq_lt by done. done.
    - rewrite lookup_seq_ge, lookup_ge_None_2 by lia. done. }
  unfold new_slots. apply wp_bind, (wp_lift _ counts); [done|]. apply wp_bind, wp_get.
  destruct (fits_spec _ R s level 0 counts Hi HL ltac:(lia)) as (b & Hb & Hbs).
  apply wp_bind, (wp_lift _ b); [done|].
  eapply wp_call; [apply (wp_room b R); try done; by apply Hbs| |done].
  intros [] s1 [Hok1 Hev1 Hfree1]. apply wp_bind, wp_get.
  destruct (fits_spec _ R s1 level 0 counts Hok1 HL ltac:(lia)) as (b1 & Hb1 & Hbs1).
  apply wp_bind, (wp_lift _ b1); [done|]. apply wp_bind, wp_assert; [by apply Hbs1|].
  assert (Hz1 : (zip lc2pg num_slots).*1 = lc2pg) by (apply fst_zip; lia).
  assert (Hz2 : (zip lc2pg num_slots).*2 = num_slots) by (apply snd_zip; lia).
  eapply wp_mono; [apply (wp_allocate_cycles (queued_set s1) level (zip lc2pg num_slots) R [] s1 Hok1 HL)| |done].
  - apply Forall_forall. intros [g n] Hin. cbn. split.
    + rewrite Forall_forall in Hlc. apply Hlc. by eapply elem_of_zip_l.
    + rewrite Forall_forall in Hpos. apply Hpos. by eapply elem_of_zip_r.
  - intros g Hg. apply Hfree1. by apply Hlk.
  - intros ret s2 (new & ids & -> & H1 & H2 & H3 & H4 & H5 & H6 & H7 & H8). exists ids. rewrite Hz1 in H3, H4. split.
    + done.
    + rewrite <- Hz2. by apply Forall2_fmap_l.
    + done.
    + by eapply inv_storage_ok.
    + etrans; [done|]. by apply same_evolves.
Qed.

(** C11: [new_slots] hands out slots nobody has.  When it returns, each life
    cycle has as many slots as it asked for, in its pool group, all distinct
    and none of them in the hands of a caller before; pages, slots and queues
    agree, so no page owns them; and pages have kept their contents.  When it
    raises, nothing has moved. *)
Theorem new_slots_spec R rec level num_slots s :
  storage_ok R s → (level < NL)%nat → Forall (λ g, (g < G)%nat) lc2pg → length num_slots = length lc2pg →
  Forall (λ n, 0 ≤ n) num_slots →
  match new_slots lc2pg G hem rec level num_slots s with
  | (Ok ret, s') => ∃ ids, slots_given R level num_slots ret s s' ids
  | (Raise _, s') => given_up R s s'
  end.
Proof.
  intros Hi HL Hlc Hlen Hpos. pose proof (wp_new_slots R rec level num_slots s Hi HL Hlc Hlen Hpos) as Hwp.
  unfold wp in Hwp. destruct (new_slots _ _ _ _ _ _ s) as [[ret|e] s']; [done|]. apply Hwp.
Qed.

(** A negative request is refused before anything changes. *)
Theorem new_slots_negative rec level num_slots k n s :
  Forall (λ g, (g < G)%nat) lc2pg → num_slots !! k = Some n → (k < length lc2pg)%nat → n < 0 →
  Forall (λ n, 0 ≤ n) (take k num_slots) →
  new_slots lc2pg G hem rec level num_slots s = (Raise LogicError, s).
Proof.
  intros Hlc Hk Hkl Hn Hpos. unfold new_slots. mrun. erewrite group_counts_negative; try done.
  eapply Forall_impl; [done|]. intros g Hg. by rewrite length_replicate.
Qed.

(** ** [force_evict] *)

Lemma evicted_floating X R L s s1 evicted g l :
  (S L < NL)%nat → taken lc2pg G X L s s1 evicted → evicted !! g = Some l → floating lc2pg X (S L) g s1 l.
Proof.
  intros HL Htk Hl. pose proof Htk as [Hqt _ _ Hpg _ _ _]. split.
  - pose proof (tk_nodup _ _ _ _ _ _ _ Htk) as Hn. apply list_elem_of_split_length in Hl as (l1 & l2 & -> & _).
    rewrite concat_app in Hn. cbn in Hn. apply NoDup_app in Hn as (_ & _ & Hn). by apply NoDup_app in Hn as (? & _ & _).
  - intros id Hin. destruct (Hpg g l id Hl Hin) as (HX & _ & Hq & o & Ho & [Hlv Hlc] & He). split; [done|]. split; [done|].
    exists o. rewrite (qt_pages _ _ Hqt). split; [done|]. split; [by eapply evictable_movable|]. split; [lia|done].
Qed.

Lemma wp_record_all (l : list (list Z)) b level s E :
  wp (for_each (λ x, record (b && negb (bool_decide (x = []))) (drop_recorded x level)) l)
    (λ _ s', ∃ lg, s' = with_log s lg) E s.
Proof.
  apply (wp_for_each _ (λ _ s', ∃ lg, s' = with_log s lg)).
  - intros _ x _ s' _ (lg & ->). apply wp_record. intros lg'. by exists lg'.
  - exists (sm_log s). by destruct s.
Qed.

Record forced_out R (level : nat) (counts : list Z) s s' : Prop := {
  fo_ok : storage_ok R s';
  fo_evolves : evolves (queued_set s) R s s';
  fo_free : ∀ g n, counts !! g = Some n → free_at s level g + n ≤ free_at s' level g;
}.

(** Slots of the evicted pages are free once no page of them is at the level. *)
Lemma evicted_free X R L s s1 s' evicted counts g n :
  inv X R s → inv X R s' → (L < NL)%nat → length counts = G → taken lc2pg G X L s s1 evicted →
  (∀ g l, evicted !! g = Some l → counts !! g = Some (Z.of_nat (length l))) →
  cap_at s' L g = cap_at s L g →
  (∀ id o, sm_pages s' !! id = Some o → po_level o = L → sm_pages s !! id = Some o ∧ id ∉ concat evicted) →
  counts !! g = Some n → free_at s L g + n ≤ free_at s' L g.
Proof.
  intros Hi Hi' HL Hlen Htk Hcnt Hcap Hlev Hn. pose proof (lookup_lt_Some _ _ _ Hn) as Hg. rewrite Hlen in Hg.
  destruct (lookup_lt_is_Some_2 evicted g) as [E HE]; [by rewrite (tk_len _ _ _ _ _ _ _ Htk)|].
  pose proof (Hcnt g E HE) as Hn'. rewrite Hn in Hn'. injection Hn' as ->.
  assert (Hnd : NoDup E).
  { pose proof (tk_nodup _ _ _ _ _ _ _ Htk) as Hnd. apply list_elem_of_split_length in HE as (l1 & l2 & -> & _).
    rewrite concat_app in Hnd. cbn in Hnd. apply NoDup_app in Hnd as (_ & _ & Hnd). by apply NoDup_app in Hnd as (? & _ & _). }
  rewrite <- (size_list_to_set (C := gset Z) E) by done.
  apply (free_grows pool_wf prio_ok queue_wf lc2pg G NL X X R); try done.
  - intros id Hid%elem_of_list_to_set. destruct (tk_pages _ _ _ _ _ _ _ Htk g E id HE Hid) as (_ & _ & _ & o & Ho & Hr & _).
    apply elem_of_res. by exists o.
  - intros id (o & Ho & Hlv & Hlc)%elem_of_res. destruct (Hlev id o Ho Hlv) as [Ho0 Hni].
    apply elem_of_difference. split; [apply elem_of_res; by exists o|]. rewrite elem_of_list_to_set.
    intros Hin. apply Hni, elem_of_concat. eauto.
Qed.

Lemma wp_force_evict R drop_rec level counts s :
  storage_ok R s → (level < NL)%nat → length counts = G →
  wp (force_evict lc2pg G hem drop_rec level counts)
    (λ _ s', forced_out R level counts s s') (λ _ s', True ∧ given_up R s s') s.
Proof.
  intros Hi HL Hlen. pose proof (si_len _ _ _ _ _ _ _ _ _ Hi) as Hn.
  unfold force_evict. apply wp_bind, wp_get. apply (wp_unwinding pool_wf prio_ok queue_wf lc2pg G NL); [done|].
  eapply wp_call; [by apply (wp_evict pool_wf prio_ok queue_wf lc2pg G NL (queued_set s) R)|..]; cbn beta; last first.
  { intros e s' (Hi' & Hqt & Hq & _). split_and!; try done. by intros j ?%Hq. }
  intros ls s1 (Hi1 & Htk & Hcnt). cbv zeta. pose proof Htk as [Hqt Htl Htn Htp Htq _ Hts].
  destruct (is_last_level s level) eqn:Hlast.
  - assert (Hloose : ∀ id, id ∈ concat (ids_of ls) → id ∈ queued_set s ∧ loose s1 id).
    { intros id (g & l & Hl & Hin)%elem_of_concat. destruct (Htp g l id Hl Hin) as (HX & _ & Hq & o & Ho & [Hlv _] & He).
      split; [done|]. exists o. rewrite (qt_pages _ _ Hqt). split; [done|]. split; [by eapply last_droppable|done]. }
    apply wp_bind, wp_get. apply wp_bind, wp_assert.
    { apply forallb_forall. intros id Hid%list_elem_of_In. by apply is_droppable_loose, Hloose. }
    eapply wp_call; [apply wp_record_all| |]; [|intros ? ? H; exact H].
    intros [] s2 (lg & ->).
    eapply wp_mono; [apply (wp_drop_pages pool_wf prio_ok queue_wf lc2pg G NL (queued_set s) R (concat (ids_of ls)))| |done].
    { by apply (inv_ext _ _ _ _ _ _ _ R s1). } { done. } { intros id Hin. by apply Hloose. }
    intros [] s' [Hi' Hd%log_dropped]. split.
    + by eapply inv_storage_ok.
    + etrans; [by apply quiet_evolves|]. eapply (dropped_evolves pool_wf prio_ok queue_wf lc2pg G NL); [done|done| |].
      * intros id Hid%elem_of_list_to_set. by apply Hloose.
      * intros id o Hid%elem_of_list_to_set Ho. destruct (Hloose id Hid) as (_ & o' & Ho' & ? & _). congruence.
    + intros g n Hg. eapply (evicted_free (queued_set s) R level s s1 s'); try done.
      * rewrite (dr_cap _ _ _ Hd). by apply quiet_cap.
      * intros id o Ho _. destruct (dr_sub _ _ _ Hd id o Ho) as [Ho1 Hni]. rewrite (qt_pages _ _ Hqt) in Ho1.
        split; [done|]. by rewrite elem_of_list_to_set in Hni.
  - assert (HSL : (S level < NL)%nat).
    { unfold is_last_level in Hlast. apply Nat.eqb_neq in Hlast. lia. }
    eapply wp_mono; [apply (wp_prepare pool_wf prio_ok queue_wf lc2pg G NL hem R ∅ _ _ _ (S level) _ (queued_set s) s1 Hi1 HSL)|..].
    + lia.
    + rewrite Hn. split; [apply length_replicate|]. intros row [k [-> _]%lookup_replicate]%list_elem_of_lookup.
      split; [apply length_replicate|]. by apply Forall_replicate.
    + done.
    + intros g l. by eapply evicted_floating.
    + intros id Hid%elem_of_queued_set. by apply Hts.
    + intros [] s' [Hi' Hev _ Habove _]. split.
      * by eapply inv_storage_ok.
      * etrans; [by apply quiet_evolves|done].
      * intros g n Hg. eapply (evicted_free (queued_set s) R level s s1 s'); try done.
        -- rewrite (ev_cap _ _ _ _ _ Hev). by apply quiet_cap.
        -- intros id o Ho Hlv. destruct (Habove id o Ho ltac:(lia)) as [Ho1 Hni]. rewrite (qt_pages _ _ Hqt) in Ho1. done.
    + intros e s' [Hi' Hqt' Hq' _]. split_and!; try done; [by etrans|auto].
Qed.

(** [force_evict] empties slots.  When it returns, each pool group of the
    level has gained the slots asked for, pages have kept attributes and
    contents, and held and locked pages are alive; when it raises, nothing has
    moved and only droppable pages that waited for eviction are lost. *)
Theorem force_evict_spec R drop_rec level counts s :
  storage_ok R s → (level < NL)%nat → length counts = G →
  match force_evict lc2pg G hem drop_rec level counts s with
  | (Ok _, s') => forced_out R level counts s s'
  | (Raise _, s') => given_up R s s'
  end.
Proof.
  intros Hi HL Hlen. pose proof (wp_force_evict R drop_rec level counts s Hi HL Hlen) as Hwp.
  unfold wp in Hwp. destruct (force_evict _ _ _ _ _ _ s) as [[[]|e] s']; [done|]. apply Hwp.
Qed.

(** ** [new_slots_for_pool_group] *)

Lemma wp_new_slots_for_pool_group R rec level g n s :
  storage_ok R s → (level < NL)%nat → (g < G)%nat → 0 ≤ n →
  wp (new_slots_for_pool_group lc2pg G hem rec level g n)
    (λ slots s', ∃ ids, _slot_id <$> slots = Some <$> ids ∧ Z.of_nat (length ids) = n ∧
       fresh_slots R level [(g, ids)] ∧ storage_ok (add_slots R level [(g, ids)]) s' ∧
       evolves (queued_set s) R s s')
    (λ _ s', given_up R s s') s.
Proof.
  intros Hi HL Hg Hn. unfold new_slots_for_pool_group. rewrite (proj2 (Z.ltb_ge n 0)) by done.
  apply wp_bind, (wp_num_free pool_wf prio_ok queue_wf lc2pg G NL (queued_set s) R); [done..|].
  set (counts := <[g := n]> (replicate G 0)).
  assert (Hcg : counts !! g = Some n) by (apply list_lookup_insert_eq; by rewrite length_replicate).
  assert (Hlen : length counts = G) by (unfold counts; by rewrite length_insert, length_replicate).
  assert (Hpos : Forall (λ m, 0 ≤ m) counts).
  { apply Forall_lookup. intros g' m Hm. apply list_lookup_insert_Some in Hm as [(_ & <- & _)|[_ [-> _]%lookup_replicate]]; done. }
  eapply (wp_call _ _ (λ _ s', has_room R level counts s s')
    (λ _ s', (one_priority prio_ok → ¬ can_make_room level counts s) ∧ given_up R s s')).
  - destruct (Z.ltb_spec (free_at s level g) n) as [|Hfit]; [by apply (wp_room false)|]. apply (wp_room true R rec); try done.
    intros _ g' m Hm. apply list_lookup_insert_Some in Hm as [(<- & <- & _)|[_ [-> Hg']%lookup_replicate]]; [done|].
    by destruct (free_res _ _ _ _ _ _ Hi level g' HL Hg').
  - intros [] s1 [Hok1 Hev1 Hf1]. specialize (Hf1 g n Hcg).
    apply wp_bind, (wp_num_free pool_wf prio_ok queue_wf lc2pg G NL (queued_set s1) R); [done..|].
    apply wp_bind, wp_assert; [by apply Z.leb_le|].
    eapply wp_mono; [apply (wp_alloc pool_wf prio_ok queue_wf lc2pg G NL (queued_set s1) R); [done..|lia]| |done].
    intros slots s2 (ids & H1 & H2 & H3 & H4 & H5 & H6 & H7 & H8 & H9). exists ids. split_and!; try done.
    + cbn. split; [done|]. split; [|done]. intros i Hin. by apply H5.
    + by eapply inv_storage_ok.
    + etrans; [done|]. by apply same_evolves.
  - intros e s' [_ ?]. done.
Qed.
End storage_slots.
