(* ===== verification/StoragePages.v ===== *)
(** * Holding and locking pages ([_page.py])

    A page is kept alive by its [_PageHolder] and in GPU memory by its
    [_UniqPageLock], one of each at most, which the users of the page share.
    [Refs] counts the references to them: [holders] those to the holder but
    for the lock's, [locks] the [_SharedPageLock]s.  Their destructors run when
    the last reference goes.  The page indices a lock writes into the cache
    that takes it, and the waits on streams, are outside the model. *)

From S2P Require Import Prelude CacheKey RadixTree KvUtils SlotAllocator Eviction Wp StorageIface Storage.

Local Open Scope Z_scope.

Record Refs := mkRefs { holders : nat; locks : nat }.

(** [page.status] *)
Definition status_of (r : Refs) : PageStatus :=
  if (0 <? locks r)%nat then LOCKED else if (0 <? holders r)%nat then HELD else DROPPABLE.

Record PageManager (P C T V : Type) := mkPM {
  pm_storage : StorageManager P C T V;
  pm_refs : gmap Z Refs;
}.
Arguments mkPM {P C T V}.
Arguments pm_storage {P C T V}.
Arguments pm_refs {P C T V}.

Definition set_status (st : PageStatus) (o : PageObj) : PageObj :=
  mkPageObj (po_slot o) (po_life_cycle o) (po_level o) (po_priority o) st (po_committed o).

Section pages.
Context {P C T V : Type} `{!SlotPool P, !EvictQueue C, !BlockTree T}.
Context (lc2pg : list nat) (num_pool_groups : nat) (has_event_manager : bool).
#[local] Abbreviation SM := (StorageManager P C T V).
#[local] Abbreviation PM := (PageManager P C T V).
Implicit Types (s : SM) (t : PM).

(** A call on the storage manager. *)
Definition on_storage {A} (m : M SM A) : M PM A := λ t,
  let '(r, s) := m (pm_storage t) in (r, mkPM s (pm_refs t)).

Definition refs (id : Z) : M PM Refs := λ t, (of_option ValueError (pm_refs t !! id), t).
Definition set_refs (id : Z) (r : Refs) : M PM () :=
  modify (λ t, mkPM (pm_storage t) (<[id := r]> (pm_refs t))).

(** ** Creating a page

    [UncommittedPage.__init__] and [CommittedPage.__init__]: the page takes
    the slot over; nobody holds it yet.  The result is the emptied slot. *)
Definition page_init (id : Z) (life_cycle level : nat) (priority : Z) (committed : bool) (slot : Slot) :
    M PM Slot :=
  '(mine, emptied) ← lift (set_slot (mkSlot None None) slot);
  on_storage (modify (λ s, with_objs s
    (<[id := mkPageObj mine life_cycle level priority DROPPABLE committed]> (sm_pages s))));;
  set_refs id (mkRefs 0 0);;
  mret emptied.

(** ** The holder *)

(** [Page.hold]: a reference to the page's holder, made if there is none. *)
Definition hold (id : Z) : M PM () :=
  r ← refs id;
  (if (holders r =? 0)%nat && (locks r =? 0)%nat then
     on_storage (
       set_obj id (set_status HELD);;
       o ← obj id;
       s ← get;
       if scheduled s id && negb (is_evictable s o None) then exclude_page id else mret ())
   else mret ());;
  set_refs id (mkRefs (S (holders r)) (locks r)).

(** [_PageHolder.__del__] *)
Definition holder_del (id : Z) : M SM () :=
  set_obj id (set_status DROPPABLE);;
  o ← obj id;
  s ← get;
  if po_committed o then
    (if scheduled s id then mret () else schedule_page id);;
    s ← get;
    if linked id (sm_tree s) then mret () else exclude_page id
  else if scheduled s id then exclude_page id
  else mret ().

(** The page goes with the last reference to it: [keep] says that a caller
    still has one. *)
Definition collect (keep : bool) (id : Z) : M SM () :=
  o ← obj id;
  s ← get;
  if negb keep && bool_decide (po_status o = DROPPABLE) && negb (scheduled s id)
  then drop_page lc2pg id else mret ().

(** A reference to the holder goes. *)
Definition release_holder (keep : bool) (id : Z) : M PM () :=
  r ← refs id;
  match holders r with
  | O => raise ValueError
  | S h =>
      set_refs id (mkRefs h (locks r));;
      if (h =? 0)%nat && (locks r =? 0)%nat
      then on_storage (holder_del id;; collect keep id)
      else mret ()
  end.

(** ** The lock *)

(** [_PageHolder.lock]: a shared lock; the unique lock behind it is made if
    there is none, for pages in GPU memory only. *)
Definition holder_lock (id : Z) : M PM () :=
  r ← refs id;
  (if (locks r =? 0)%nat then
     on_storage (
       o ← obj id;
       if negb (po_level o =? 0)%nat then raise ValueError else set_obj id (set_status LOCKED))
   else mret ());;
  on_storage (s ← get; if scheduled s id then exclude_page id else mret ());;
  set_refs id (mkRefs (holders r) (S (locks r))).

(** [Page.lock]: the holder made on the way is let go again. *)
Definition page_lock (id : Z) : M PM () :=
  hold id;;
  try_except (holder_lock id) (λ e, release_holder true id;; raise e);;
  release_holder true id.

(** [_UniqPageLock.__del__]; [event] is the merge of the readers' events. *)
Definition uniq_lock_del (keep : bool) (last_holder : bool) (event : event) (id : Z) : M SM () :=
  o ← obj id;
  s ← get;
  assert_ ((po_level o =? 0)%nat && negb (scheduled s id));;
  set_obj id (λ o, set_page_slot o (mkSlot (_slot_id (po_slot o)) event));;
  set_obj id (set_status HELD);;
  (if last_holder then holder_del id else mret ());;
  o ← obj id;
  s ← get;
  (if negb (bool_decide (po_status o = DROPPABLE)) && is_evictable s o None then schedule_page id else mret ());;
  collect keep id.

(** [_SharedPageLock.unlock] *)
Definition unlock (keep : bool) (event : event) (id : Z) : M PM () :=
  r ← refs id;
  match locks r with
  | O => raise AssertionError
  | S k =>
      set_refs id (mkRefs (holders r) k);;
      if (k =? 0)%nat then on_storage (uniq_lock_del keep (holders r =? 0)%nat event id) else mret ()
  end.

(** ** [batched_lock_to_gpu] *)

(** The loop over the tasks: pages leave their queues, and each page that is
    elsewhere needs one slot in GPU memory.  A task has the life cycle of its
    page. *)
Fixpoint lock_requirements (tasks : list (Z * bool)) (requirements : list Z) : M SM (list Z) :=
  match tasks with
  | [] => mret requirements
  | (id, e) :: tasks =>
      (if e then exclude_page id else mret ());;
      o ← obj id;
      if (po_level o =? 0)%nat then lock_requirements tasks requirements
      else
        pg ← lift (get_pool_group_index lc2pg (po_life_cycle o));
        n ← lift (of_option IndexError (requirements !! pg));
        lock_requirements tasks (<[pg := n + 1]> requirements)
  end.

Definition migrate_to_gpu (rec : Recorders) (part : (nat * nat) * list Z) : M SM () :=
  let '((lvl, pg), ids) := part in
  if (lvl =? 0)%nat then mret ()
  else batched_migrate has_event_manager pg 0 lvl ids true false rec;; mret ().

(** The [try] block. *)
Definition move_to_gpu (rec : Recorders) (requirements : list Z) (ids : list Z) : M SM () :=
  prepare_free_slots lc2pg num_pool_groups has_event_manager rec 0 requirements;;
  s ← get;
  partitioned ← lift (partition (page_place lc2pg s) ids);
  for_each (migrate_to_gpu rec) partitioned.

Definition reschedule (tasks : list (Z * bool)) : M SM () :=
  for_each (λ t : Z * bool, if t.2 then schedule_page t.1 else mret ()) tasks.

Definition batched_lock_to_gpu (rec : Recorders) (ids : list Z) : M PM () :=
  t ← get;
  let tasks := (λ id, (id, scheduled (pm_storage t) id)) <$> ids in
  requirements ← on_storage (lock_requirements tasks (replicate num_pool_groups 0));
  try_except (on_storage (move_to_gpu rec requirements ids))
    (λ e, on_storage (reschedule tasks);; raise e);;
  for_each page_lock ids.
End pages.
