(* ===== verification/StorageHold.v ===== *)
(** * Holding and locking keep the storage consistent

    [pages_ok R t]: the storage is consistent, every page has the status its
    references give it, and a locked page is in GPU memory. *)

From S2P Require Import Prelude CacheKey RadixTree KvUtils SlotAllocator Eviction Wp StorageIface Storage StorageInv.
From S2P Require Import StorageDrop StorageMove StorageRoom StorageFree StoragePrepare StorageProps StoragePages.

Local Open Scope Z_scope.

Section storage_hold.
Context {P C T V : Type} `{!SlotPool P, !EvictQueue C, !BlockTree T}.
Context (pool_wf : P → Prop) `{!SlotPoolSpec P pool_wf}.
Context (prio_ok : Z → Prop) (queue_wf : list nat → nat → nat → C → Prop).
Context `{!EvictQueueSpec C prio_ok queue_wf}.
Context (lc2pg : list nat) (G NL : nat) (hem : bool).
#[local] Abbreviation SM := (StorageManager P C T V).
#[local] Abbreviation PM := (PageManager P C T V).
#[local] Abbreviation inv := (st_inv pool_wf prio_ok queue_wf lc2pg G NL).
#[local] Abbreviation storage_ok := (storage_ok pool_wf prio_ok queue_wf lc2pg G NL).
#[local] Abbreviation place := (place lc2pg).
#[local] Abbreviation never := (λ _ _, False).
Implicit Types (s : SM) (t : PM) (o : PageObj) (id : Z) (X : gset Z) (R : nat → nat → gset Z).

(** ** Changing one page object *)

(** Same place, attributes and identity for the queues. *)
Record alike o o' : Prop := {
  ak_place : place o' = place o;
  ak_view : ∀ id, view id o' = view id o;
  ak_committed : po_committed o' = po_committed o;
}.

Lemma alike_level o o' : alike o o' → po_level o' = po_level o.
Proof. intros [_ Hv _]. specialize (Hv 0). unfold view in Hv. injection Hv as Hl _ _. lia. Qed.

Lemma alike_priority o o' : alike o o' → po_priority o' = po_priority o.
Proof. intros [_ Hv _]. specialize (Hv 0). unfold view in Hv. by injection Hv. Qed.

Lemma alike_status st o : alike o (set_status st o).
Proof. by split. Qed.

#[global] Instance alike_preorder : PreOrder alike.
Proof. split; [done|]. intros a b c [? ? ?] [? Hv ?]. split; congruence. Qed.

Definition put_obj id o s : SM := with_objs s (<[id := o]> (sm_pages s)).

Lemma set_obj_run id f o s : sm_pages s !! id = Some o → set_obj id f s = (Ok (), put_obj id (f o) s).
Proof. intros Ho. unfold set_obj, modify, put_obj. by rewrite (alter_page _ _ _ _ Ho). Qed.

Lemma inv_put_obj X R s id o o' :
  inv X R s → sm_pages s !! id = Some o → alike o o' →
  (queued s id → is_evictable s o' None = true) → inv X R (put_obj id o' s).
Proof.
  intros [H1 H2 H3 H4 H5 H6 H7 H8] Ho Ha He. pose proof (alike_priority _ _ Ha) as Hpr. destruct Ha as [Hpl Hv _].
  assert (Hown : ∀ l, (∃ id2 o2, <[id := o']> (sm_pages s) !! id2 = Some o2 ∧ place o2 = Some l) ↔
                      ∃ id2 o2, sm_pages s !! id2 = Some o2 ∧ place o2 = Some l).
  { intros l. split; intros (id2 & o2 & Ho2 & Hl); destruct (decide (id2 = id)) as [->|Hne].
    - rewrite lookup_insert_eq in Ho2. injection Ho2 as <-. exists id, o. by rewrite <- Hpl.
    - rewrite lookup_insert_ne in Ho2 by done. eauto.
    - exists id, o'. rewrite lookup_insert_eq. assert (o2 = o) as -> by congruence. by rewrite Hpl.
    - exists id2, o2. by rewrite lookup_insert_ne. }
  assert (Hold : ∀ id2 o2, <[id := o']> (sm_pages s) !! id2 = Some o2 →
            ∃ o3, sm_pages s !! id2 = Some o3 ∧ place o3 = place o2 ∧ po_priority o3 = po_priority o2).
  { intros id2 o2 [[<- <-]|[_ ?]]%lookup_insert_Some; [|by exists o2]. exists o. done. }
  split; try done.
  - intros id2 o2 Ho2. destruct (Hold id2 o2 Ho2) as (o3 & Ho3 & <- & <-). by apply (H4 id2).
  - intros L g p i Hg Hp. cbn. rewrite Hown. by apply H5.
  - intros id2 o2 L g i Ho2 Hl. destruct (Hold id2 o2 Ho2) as (o3 & Ho3 & Hp3 & _). apply (H6 id2 o3); congruence.
  - intros id1 id2 o1 o2 l Ho1 Ho2 Hl1 Hl2. destruct (Hold id1 o1 Ho1) as (o3 & Ho3 & Hp3 & _).
    destruct (Hold id2 o2 Ho2) as (o4 & Ho4 & Hp4 & _). apply (H7 id1 id2 o3 o4 l); congruence.
  - intros L c p Hc Hp. destruct (H8 L c p Hc Hp) as (HX & o2 & Ho2 & Hv2 & He2). split; [done|].
    destruct (decide (page_id p = id)) as [Hid|Hne].
    + exists o'. cbn. rewrite Hid, lookup_insert_eq. split; [done|]. assert (o2 = o) as -> by congruence.
      split; [rewrite Hv, <- Hid; done|]. apply He. exists L, c. split; [done|]. rewrite <- Hid. by apply list_elem_of_fmap_2.
    + exists o2. cbn. by rewrite lookup_insert_ne.
Qed.

(** What a call on one page may change. *)
Record touched id o' s s' : Prop := {
  to_pages : sm_pages s' = <[id := o']> (sm_pages s);
  to_mem : sm_mem s' = sm_mem s;
  to_pools : ∀ L g, pool_at s' L g = pool_at s L g;
  to_queued : ∀ j, j ≠ id → queued s' j ↔ queued s j;
}.

Lemma touched_put id o s : touched id o s (put_obj id o s).
Proof. split; try done. Qed.

Lemma touched_refl id o s : sm_pages s !! id = Some o → touched id o s s.
Proof. intros Ho. split; try done. by rewrite insert_id. Qed.

Lemma touched_trans id o o' s s1 s2 : touched id o s s1 → touched id o' s1 s2 → touched id o' s s2.
Proof.
  intros [A1 A2 A3 A4] [B1 B2 B3 B4]. split; [|congruence..|].
  - by rewrite B1, A1, insert_insert_eq.
  - intros j Hj. by rewrite B4, A4.
Qed.

Lemma quiet_touched id o s s' :
  sm_pages s !! id = Some o → quiet s s' → (∀ j, j ≠ id → queued s' j ↔ queued s j) → touched id o s s'.
Proof. intros Ho [Hp Hm Hl] Hq. split; try done. by rewrite Hp, insert_id. Qed.

(** Leaving a queue, with an object that may not be evictable any more. *)
Lemma wp_exclude_put X R id o o' s :
  inv X R s → sm_pages s !! id = Some o → alike o o' → queued s id →
  wp (exclude_page id) (λ _ s', inv X R s' ∧ touched id o' s s' ∧ ¬ queued s' id) never (put_obj id o' s).
Proof.
  intros Hi Ho Ha Hq. pose proof (wp_exclude pool_wf prio_ok queue_wf lc2pg G NL X R id s Hi Hq) as Hwp.
  assert (Hrun : exclude_page id (put_obj id o' s) =
    let '(r, s') := exclude_page id s in (r, put_obj id o' s')).
  { unfold exclude_page, obj, put_obj, with_ctrl. mrun. cbn [sm_pages with_objs]. rewrite lookup_insert_eq, Ho. cbn [of_option].
    replace (scheduled (with_objs s (<[id := o']> (sm_pages s))) id) with (scheduled s id); last first.
    { unfold scheduled. cbn [sm_pages with_objs]. rewrite lookup_insert_eq, Ho, (alike_level _ _ Ha). done. }
    destruct (scheduled s id); [|done]. rewrite (alike_level _ _ Ha).
    change (ctrl_at (with_objs s (<[id := o']> (sm_pages s))) (po_level o)) with (ctrl_at s (po_level o)).
    destruct (ctrl_at s (po_level o)) as [c|]; [|done]. rewrite (ak_view _ _ Ha).
    by destruct (q_remove (view id o) c) as [r c']. }
  unfold wp in *. rewrite Hrun. destruct (exclude_page id s) as [[[]|e] s']; [|done].
  destruct Hwp as (Hi' & Hqt & Hq').
  assert (Hnq : ¬ queued s' id) by (rewrite Hq'; by intros [_ ?]).
  split; [|split; [|done]].
  - apply (inv_put_obj X R s' id o); [done|by rewrite (qt_pages _ _ Hqt)|done|done].
  - apply (touched_trans id o o' s s'); [|apply touched_put]. apply quiet_touched; [done|done|].
    intros j Hj. rewrite Hq'. naive_solver.
Qed.

Lemma wp_set_obj id f o Q E s :
  sm_pages s !! id = Some o → Q () (put_obj id (f o) s) → wp (set_obj id f) Q E s.
Proof. intros Ho HQ. unfold wp. by rewrite (set_obj_run id f o s Ho). Qed.

Lemma put_obj_scheduled id o o' s :
  sm_pages s !! id = Some o → alike o o' → scheduled (put_obj id o' s) id = scheduled s id.
Proof.
  intros Ho Ha. unfold scheduled, put_obj. cbn [sm_pages with_objs]. by rewrite lookup_insert_eq, Ho, (alike_level _ _ Ha).
Qed.

(** ** The destructors *)

Lemma droppable_evictable s o : po_committed o = true → is_evictable s (set_status DROPPABLE o) None = true.
Proof. intros Hc. unfold is_evictable. cbn. by rewrite Hc. Qed.

(** The tree is not touched by the queues. *)
Lemma wp_tree {A} (m : M SM A) (Q : A → SM → Prop) E s :
  wp m Q E s → (∀ r s', m s = (r, s') → sm_tree s' = sm_tree s) →
  wp m (λ a s', Q a s' ∧ sm_tree s' = sm_tree s) E s.
Proof. unfold wp. intros Hm Ht. destruct (m s) as [[a|e] s'] eqn:Hr; [|done]. split; [done|]. by eapply Ht. Qed.

Lemma with_ctrl_tree {A} L (m : M C A) s r s' : with_ctrl L m s = (r, s') → sm_tree s' = sm_tree s.
Proof. unfold with_ctrl. destruct (ctrl_at s L) as [c|]; [destruct (m c) as [r' c']|]; by intros [= <- <-]. Qed.

Lemma enqueue_tree L id s r s' : enqueue L id s = (r, s') → sm_tree s' = sm_tree s.
Proof.
  unfold enqueue, obj. mrun. destruct (sm_pages s !! id); cbn [of_option]; [apply with_ctrl_tree|by intros [= <- <-]].
Qed.

Lemma exclude_tree id s r s' : exclude_page id s = (r, s') → sm_tree s' = sm_tree s.
Proof.
  unfold exclude_page, obj. mrun. destruct (sm_pages s !! id); cbn [of_option]; [|by intros [= <- <-]].
  destruct (scheduled s id); [apply with_ctrl_tree|by intros [= <- <-]].
Qed.

(** A page that a later request can reuse. *)
Definition reusable s id o : bool := po_committed o && linked id (sm_tree s).

Lemma wp_holder_del X R id o s :
  inv X R s → id ∈ X → sm_pages s !! id = Some o →
  wp (holder_del id) (λ _ s', inv X R s' ∧ touched id (set_status DROPPABLE o) s s' ∧
    (queued s' id ↔ reusable s id o = true)) never s.
Proof.
  intros Hi HX Ho. set (o1 := set_status DROPPABLE o). pose proof (alike_status DROPPABLE o) as Ha.
  unfold holder_del. apply wp_bind, (wp_set_obj id _ o); [done|]. fold o1.
  assert (Ho1 : sm_pages (put_obj id o1 s) !! id = Some o1) by (cbn; by rewrite lookup_insert_eq).
  apply wp_bind, (wp_obj _ o1); [done|]. apply wp_bind, wp_get.
  rewrite (put_obj_scheduled id o o1 s) by done. unfold reusable. change (po_committed o) with (po_committed o1).
  destruct (po_committed o1) eqn:Hc.
  - assert (Hi1 : inv X R (put_obj id o1 s)) by (apply (inv_put_obj X R s id o); [done..|]; intros _; by apply droppable_evictable).
    eapply (wp_call _ _ (λ _ s', (inv X R s' ∧ touched id o1 s s' ∧ queued s' id) ∧ sm_tree s' = sm_tree s) never); [| |done].
    + eapply wp_mono; [apply (wp_tree _ (λ _ s', inv X R s' ∧ touched id o1 s s' ∧ queued s' id) never)| |done]; [| |done]; last first.
      { intros r s'. destruct (scheduled s id); [by intros [= <- <-]|]. unfold schedule_page, obj. mrun.
        rewrite Ho1. cbn [of_option]. destruct (is_evictable _ _ _); [apply enqueue_tree|by intros [= <- <-]]. }
      destruct (scheduled s id) eqn:Hs.
      { apply wp_ret. split; [done|]. split; [apply touched_put|]. by apply (scheduled_queued _ _ _ _ _ _ Hi) in Hs. }
      assert (Hnq : ¬ queued (put_obj id o1 s) id).
      { intros Hq. change (queued s id) in Hq. apply (scheduled_queued _ _ _ _ _ _ Hi) in Hq. congruence. }
      unfold schedule_page. apply wp_bind, (wp_obj _ o1); [done|]. apply wp_bind, wp_get.
      assert (He1 : ∀ s', is_evictable s' o1 None = true) by (intros; by apply droppable_evictable).
      rewrite He1. eapply wp_mono; [apply (wp_enqueue pool_wf prio_ok queue_wf lc2pg G NL X R id o1 _ Hi1 Ho1 Hnq HX)| |done].
      { apply He1. }
      intros [] s2 (Hi2 & Hqt & Hq2). split; [done|]. split; [|apply Hq2; by right].
      apply (touched_trans id o1 o1 s (put_obj id o1 s)); [apply touched_put|]. apply quiet_touched; [done|done|].
      intros j Hj. rewrite Hq2. naive_solver.
    + intros [] s2 ((Hi2 & Ht2 & Hq2) & Htr). apply wp_bind, wp_get. rewrite Htr. destruct (linked id (sm_tree s)); [apply wp_ret; done|].
      eapply wp_mono; [by apply (wp_exclude pool_wf prio_ok queue_wf lc2pg G NL X R)| |done].
      intros [] s3 (Hi3 & Hqt & Hq3). split; [done|]. split; [|rewrite Hq3; naive_solver].
      apply (touched_trans id o1 o1 s s2); [done|].
      apply quiet_touched; [by rewrite (to_pages _ _ _ _ Ht2), lookup_insert_eq|done|]. intros j Hj. rewrite Hq3. naive_solver.
  - destruct (scheduled s id) eqn:Hs.
    + eapply wp_mono; [apply (wp_exclude_put X R id o o1 s); try done; by apply (scheduled_queued _ _ _ _ _ _ Hi)| |done].
      intros [] s' (? & ? & ?). split_and!; naive_solver.
    + assert (Hnq : ¬ queued s id) by (intros Hq%(scheduled_queued _ _ _ _ _ _ Hi); congruence).
      apply wp_ret. split; [|split; [apply touched_put|]]; [|split; [intros Hq; by destruct Hnq|done]].
      by apply (inv_put_obj X R s id o).
Qed.

(** A page nobody refers to is deleted. *)
Lemma wp_collect X R keep id o s :
  inv X R s → sm_pages s !! id = Some o →
  wp (collect lc2pg keep id)
    (λ _ s', inv X R s' ∧ (s' = s ∧ (keep = true ∨ po_status o ≠ DROPPABLE ∨ queued s id) ∨
       keep = false ∧ po_status o = DROPPABLE ∧ ¬ queued s id ∧ dropped {[ id ]} s s')) never s.
Proof.
  intros Hi Ho. unfold collect. apply wp_bind, (wp_obj _ o); [done|]. apply wp_bind, wp_get.
  pose proof (scheduled_queued _ _ _ _ _ _ Hi id) as Hsq.
  destruct keep; cbn [negb andb]; [apply wp_ret; auto|].
  case_bool_decide as Hst; cbn [andb]; [|apply wp_ret; naive_solver].
  destruct (scheduled s id); cbn [negb andb]; [apply wp_ret; naive_solver|].
  assert (Hnq : ¬ queued s id) by (intros ?%Hsq; done).
  eapply wp_mono; [apply (wp_drop_page pool_wf prio_ok queue_wf lc2pg G NL X R id o s Hi Ho Hst Hnq)| |done].
  intros [] s' [Hi' Hd]. naive_solver.
Qed.

(** ** Status and references *)

Definition refs_ok t : Prop := ∀ id o, sm_pages (pm_storage t) !! id = Some o →
  ∃ r, pm_refs t !! id = Some r ∧ po_status o = status_of r ∧ (status_of r = LOCKED → po_level o = 0%nat).

Definition pages_ok R t : Prop := storage_ok R (pm_storage t) ∧ refs_ok t.

Lemma refs_touched t id o' s' r' :
  refs_ok t → touched id o' (pm_storage t) s' → po_status o' = status_of r' →
  (status_of r' = LOCKED → po_level o' = 0%nat) → refs_ok (mkPM s' (<[id := r']> (pm_refs t))).
Proof.
  intros Hr [Hp _ _ _] Hst Hl j o. cbn. rewrite Hp. intros [[<- <-]|[Hne Ho]]%lookup_insert_Some.
  - exists r'. by rewrite lookup_insert_eq.
  - destruct (Hr j o Ho) as (r & ? & ?). exists r. by rewrite lookup_insert_ne.
Qed.

Lemma refs_sub s s' rs :
  refs_ok (mkPM s rs) → (∀ id o, sm_pages s' !! id = Some o → sm_pages s !! id = Some o) → refs_ok (mkPM s' rs).
Proof. intros Hr Hs id o Ho. apply (Hr id o). by apply Hs. Qed.

Lemma wp_on_storage {A} (m : M SM A) Q E t :
  wp m (λ a s, Q a (mkPM s (pm_refs t))) (λ e s, E e (mkPM s (pm_refs t))) (pm_storage t) →
  wp (on_storage m) Q E t.
Proof. unfold wp, on_storage. by destruct (m (pm_storage t)) as [[a|e] s]. Qed.

Lemma wp_refs id r Q E t : pm_refs t !! id = Some r → Q r t → wp (refs id) Q E t.
Proof. intros Hr HQ. unfold wp, refs. by rewrite Hr. Qed.

Lemma locked_not_queued X R s id o : inv X R s → sm_pages s !! id = Some o → po_status o = LOCKED → ¬ queued s id.
Proof.
  intros Hi Ho Hst Hq. destruct (queued_page _ _ _ _ _ _ Hi id Hq) as (_ & o' & _ & Ho' & He & _).
  assert (o' = o) as -> by congruence. unfold is_evictable in He. rewrite Hst in He. done.
Qed.

Lemma status_free r : (holders r =? 0)%nat && (locks r =? 0)%nat = bool_decide (status_of r = DROPPABLE).
Proof. destruct r as [[|h] [|k]]; done. Qed.

Lemma status_locked r : status_of r = LOCKED ↔ (0 < locks r)%nat.
Proof. destruct r as [[|h] [|k]]; cbn; split; intros; (done || lia). Qed.

(** ** The calls *)

Lemma set_status_id o : set_status (po_status o) o = o.
Proof. by destruct o. Qed.

Lemma wp_hold R id o r t :
  pages_ok R t → sm_pages (pm_storage t) !! id = Some o → pm_refs t !! id = Some r →
  let r' := mkRefs (S (holders r)) (locks r) in
  wp (hold id)
    (λ _ t', pages_ok R t' ∧ pm_refs t' = <[id := r']> (pm_refs t) ∧
       touched id (set_status (status_of r') o) (pm_storage t) (pm_storage t')) never t.
Proof.
  intros [Hi Hrefs] Ho Hr r'. destruct (Hrefs id o Ho) as (r0 & Hr0 & Hst & Hlv). assert (r0 = r) as -> by congruence.
  unfold hold. apply wp_bind, (wp_refs id r); [done|]. rewrite status_free. set (o1 := set_status (status_of r') o).
  eapply (wp_call _ _ (λ _ t1, pm_refs t1 = pm_refs t ∧ storage_ok R (pm_storage t1) ∧
    touched id o1 (pm_storage t) (pm_storage t1)) never); [| |done].
  - case_bool_decide as Hd; last first.
    { apply wp_ret. split; [done|]. split; [done|]. replace o1 with o; [by apply touched_refl|].
      unfold o1. rewrite <- (set_status_id o) at 1. f_equal. rewrite Hst. destruct r as [[|h] [|k]]; done. }
    replace o1 with (set_status HELD o) in * by (unfold o1, r'; destruct r as [[|h] [|k]]; done). clear o1. set (o1 := set_status HELD o).
    assert (Ho1 : sm_pages (put_obj id o1 (pm_storage t)) !! id = Some o1) by (cbn; by rewrite lookup_insert_eq).
    apply wp_on_storage. apply wp_bind, (wp_set_obj id _ o); [done|]. fold o1.
    apply wp_bind, (wp_obj _ o1); [done|]. apply wp_bind, wp_get.
    rewrite (put_obj_scheduled id o o1) by (done || apply alike_status).
    destruct (scheduled (pm_storage t) id && negb (is_evictable (put_obj id o1 (pm_storage t)) o1 None)) eqn:Hb.
    + apply andb_prop in Hb as [Hs _]. apply (scheduled_queued _ _ _ _ _ _ Hi) in Hs.
      eapply wp_mono; [by apply (wp_exclude_put (queued_set (pm_storage t)) R id o o1); [|..|apply alike_status|]| |done].
      intros [] s' (Hi' & Ht & _). split; [done|]. split; [by eapply inv_storage_ok|done].
    + apply wp_ret. split; [done|]. split; [|apply touched_put].
      apply (inv_storage_ok pool_wf prio_ok queue_wf lc2pg G NL (queued_set (pm_storage t))), (inv_put_obj _ R _ id o);
        [done|done|apply alike_status|]. intros Hq.
      apply (scheduled_queued _ _ _ _ _ _ Hi) in Hq. rewrite Hq in Hb. by apply negb_false_iff in Hb.
  - intros [] t1 (Hr1 & Hi1 & Ht). unfold set_refs. apply wp_modify. rewrite Hr1.
    split; [|done]. split; [done|]. apply (refs_touched t id o1); [done|done|done|].
    intros Hk%status_locked. by apply Hlv, status_locked.
Qed.

Lemma alike_content s o o' : alike o o' → content lc2pg s o' = content lc2pg s o.
Proof. intros [Hp _ _]. unfold content. by rewrite Hp. Qed.

(** What the last reference leaves: the page waits for eviction if it can be
    reused, and is deleted otherwise, unless the caller has it. *)
Record let_go (keep : bool) id o s s' : Prop := {
  lg_reused : reusable s id o = true → sm_pages s' !! id = Some (set_status DROPPABLE o) ∧ queued s' id;
  lg_unused : reusable s id o = false → ¬ queued s' id ∧
    sm_pages s' !! id = if keep then Some (set_status DROPPABLE o) else None;
  lg_sub : ∀ j o', j ≠ id → sm_pages s' !! j = Some o' → sm_pages s !! j = Some o';
  lg_other : ∀ j o', j ≠ id → sm_pages s !! j = Some o' → ¬ queued s j ∨ po_status o' ≠ DROPPABLE →
    sm_pages s' !! j = Some o';
  lg_mem : sm_mem s' = sm_mem s;
  lg_cap : ∀ L g, cap_at s' L g = cap_at s L g;
}.

Lemma wp_collect_let_go X R keep id o s s1 :
  inv X R s1 → touched id (set_status DROPPABLE o) s s1 → (queued s1 id ↔ reusable s id o = true) →
  wp (collect lc2pg keep id) (λ _ s', inv X R s' ∧ let_go keep id o s s') never s1.
Proof.
  intros Hi1 Ht1 Hq1. set (o1 := set_status DROPPABLE o) in *.
  assert (Hp1 : sm_pages s1 !! id = Some o1) by (by rewrite (to_pages _ _ _ _ Ht1), lookup_insert_eq).
  assert (Hoth : ∀ j, j ≠ id → sm_pages s1 !! j = sm_pages s !! j).
  { intros j Hj. by rewrite (to_pages _ _ _ _ Ht1), lookup_insert_ne. }
  eapply wp_mono; [by apply (wp_collect X R keep id o1)| |done].
  intros [] s2 (Hi2 & [(-> & Hwhy)|(-> & _ & Hnq & Hd)]); (split; [done|]).
  - split.
    + intros Hre. split; [done|]. by apply Hq1.
    + intros Hre. assert (Hnq : ¬ queued s1 id) by (intros Hq%Hq1; congruence). split; [done|].
      by destruct keep, Hwhy as [?|[?|?]].
    + intros j o' Hj. by rewrite Hoth.
    + intros j o' Hj Ho' _. by rewrite Hoth.
    + apply Ht1.
    + intros L g. unfold cap_at. by rewrite (to_pools _ _ _ _ Ht1).
  - split.
    + intros Hre%Hq1. done.
    + intros Hre. split; [by intros ?%(dr_queued _ _ _ Hd)|].
      destruct (sm_pages s2 !! id) as [o2|] eqn:Ho2; [|done]. destruct (dr_sub _ _ _ Hd id o2 Ho2). set_solver.
    + intros j o' Hj Ho'. destruct (dr_sub _ _ _ Hd j o' Ho'). by rewrite <- Hoth.
    + intros j o' Hj Ho' Hor. apply (dr_kept _ _ _ Hd); [by rewrite Hoth|set_solver|]. by rewrite (to_queued _ _ _ _ Ht1).
    + rewrite (dr_mem _ _ _ Hd). apply Ht1.
    + intros L g. rewrite (dr_cap _ _ _ Hd). unfold cap_at. by rewrite (to_pools _ _ _ _ Ht1).
Qed.

Lemma refs_let_go keep t id o s' :
  refs_ok t → let_go keep id o (pm_storage t) s' → refs_ok (mkPM s' (<[id := mkRefs 0 0]> (pm_refs t))).
Proof.
  intros Hr [H1 H2 H3 _ _ _] j o' Ho'. cbn in *. destruct (decide (j = id)) as [->|Hne].
  - exists (mkRefs 0 0). rewrite lookup_insert_eq. split; [done|]. split; [|done].
    destruct (reusable (pm_storage t) id o); [destruct (H1 eq_refl)|destruct (H2 eq_refl), keep]; by simplify_eq.
  - destruct (Hr j o') as (r & ? & ?); [by apply H3|]. exists r. by rewrite lookup_insert_ne.
Qed.

Lemma inv_with R s id : storage_ok R s → inv (queued_set s ∪ {[ id ]}) R s.
Proof. intros Hi. eapply inv_touch; [done|]. intros j Hj. apply elem_of_union_l. by apply elem_of_queued_set. Qed.

Lemma wp_release_holder R keep id o r t :
  pages_ok R t → sm_pages (pm_storage t) !! id = Some o → pm_refs t !! id = Some r → (0 < holders r)%nat →
  wp (release_holder lc2pg keep id)
    (λ _ t', pages_ok R t' ∧ pm_refs t' = <[id := mkRefs (pred (holders r)) (locks r)]> (pm_refs t) ∧
       if (holders r =? 1)%nat && (locks r =? 0)%nat then let_go keep id o (pm_storage t) (pm_storage t')
       else pm_storage t' = pm_storage t) never t.
Proof.
  intros [Hi Hrefs] Ho Hr Hpos. destruct (Hrefs id o Ho) as (r0 & Hr0 & Hst & Hlv). assert (r0 = r) as -> by congruence.
  unfold release_holder. apply wp_bind, (wp_refs id r); [done|]. destruct r as [[|h] k]; cbn [holders locks pred] in *; [lia|].
  apply wp_bind, wp_modify. change (S h =? 1)%nat with (h =? 0)%nat.
  destruct ((h =? 0)%nat && (k =? 0)%nat) eqn:Hb; last first.
  { apply wp_ret. split; [|done]. split; [done|]. apply (refs_touched t id o); [done|by apply touched_refl| |].
    - rewrite Hst. destruct h, k; done.
    - intros Hk%status_locked. by apply Hlv, status_locked. }
  apply andb_prop in Hb as [->%Nat.eqb_eq ->%Nat.eqb_eq]. apply wp_on_storage. cbn [pm_storage pm_refs].
  pose proof (inv_with R _ id Hi) as HiX.
  eapply wp_call; [apply (wp_holder_del _ R id o _ HiX); [set_solver|done]| |done].
  intros [] s1 (Hi1 & Ht1 & Hq1). eapply wp_mono; [by apply wp_collect_let_go| |done].
  intros [] s2 [Hi2 Hlg]. split; [|done]. split; [by eapply inv_storage_ok|by eapply refs_let_go].
Qed.

(** ** Locking *)

Lemma wp_holder_lock R id o r t :
  pages_ok R t → sm_pages (pm_storage t) !! id = Some o → pm_refs t !! id = Some r → po_level o = 0%nat →
  wp (holder_lock id)
    (λ _ t', pages_ok R t' ∧ pm_refs t' = <[id := mkRefs (holders r) (S (locks r))]> (pm_refs t) ∧
       touched id (set_status LOCKED o) (pm_storage t) (pm_storage t')) never t.
Proof.
  intros [Hi Hrefs] Ho Hr Hlev. destruct (Hrefs id o Ho) as (r0 & Hr0 & Hst & Hlv). assert (r0 = r) as -> by congruence.
  unfold holder_lock. apply wp_bind, (wp_refs id r); [done|]. set (o1 := set_status LOCKED o).
  pose proof (alike_status LOCKED o) as Ha.
  assert (Hput : locks r ≠ 0%nat → put_obj id o1 (pm_storage t) = pm_storage t).
  { intros Hk. assert (Hl : po_status o = LOCKED) by (rewrite Hst; apply status_locked; lia).
    unfold put_obj. rewrite insert_id; [by destruct (pm_storage t)|]. rewrite Ho. f_equal. unfold o1, set_status. rewrite <- Hl. by destruct o. }
  eapply (wp_call _ _ (λ _ t1, t1 = mkPM (put_obj id o1 (pm_storage t)) (pm_refs t)) never); [| |done].
  { destruct (locks r =? 0)%nat eqn:Hk.
    - apply wp_on_storage, wp_bind, (wp_obj _ o); [done|]. rewrite Hlev. cbn [negb Nat.eqb].
      by apply (wp_set_obj id _ o).
    - apply Nat.eqb_neq in Hk. apply wp_ret. rewrite Hput by done. by destruct t. }
  intros [] t1 ->. cbn [pm_storage pm_refs].
  eapply (wp_call _ _ (λ _ t2, pm_refs t2 = pm_refs t ∧ storage_ok R (pm_storage t2) ∧
    touched id o1 (pm_storage t) (pm_storage t2)) never); [| |done].
  - apply wp_on_storage, wp_bind, wp_get. cbn [pm_storage pm_refs]. rewrite (put_obj_scheduled id o o1) by done.
    destruct (scheduled (pm_storage t) id) eqn:Hs.
    + apply (scheduled_queued _ _ _ _ _ _ Hi) in Hs.
      eapply wp_mono; [by apply (wp_exclude_put (queued_set (pm_storage t)) R id o o1)| |done].
      intros [] s' (Hi' & Ht & _). split; [done|]. split; [by eapply inv_storage_ok|done].
    + apply wp_ret. split; [done|]. split; [|apply touched_put].
      apply (inv_storage_ok pool_wf prio_ok queue_wf lc2pg G NL (queued_set (pm_storage t))), (inv_put_obj _ R _ id o); try done.
      intros Hq%(scheduled_queued _ _ _ _ _ _ Hi). congruence.
  - intros [] t2 (Hr2 & Hi2 & Ht2). apply wp_modify. cbn [pm_refs pm_storage]. rewrite Hr2. split; [|done].
    split; [done|]. by apply (refs_touched t id o1).
Qed.
End storage_hold.
