(* ===== verification/StorageLock.v ===== *)
(** * Locking pages in GPU memory

    The specifications of [Page.lock], [_SharedPageLock.unlock] and
    [batched_lock_to_gpu]. *)

From S2P Require Import Prelude CacheKey RadixTree KvUtils SlotAllocator Eviction Wp StorageIface Storage StorageInv.
From S2P Require Import StorageDrop StorageMove StorageRoom StorageFree StoragePrepare StorageProps StoragePages StorageHold.

Local Open Scope Z_scope.

Section storage_lock.
Context {P C T V : Type} `{!SlotPool P, !EvictQueue C, !BlockTree T}.
Context (pool_wf : P → Prop) `{!SlotPoolSpec P pool_wf}.
Context (prio_ok : Z → Prop) (queue_wf : list nat → nat → nat → C → Prop).
Context `{!EvictQueueSpec C prio_ok queue_wf}.
Context (lc2pg : list nat) (G NL : nat) (hem : bool).
#[local] Abbreviation SM := (StorageManager P C T V).
#[local] Abbreviation PM := (PageManager P C T V).
#[local] Abbreviation inv := (st_inv pool_wf prio_ok queue_wf lc2pg G NL).
#[local] Abbreviation storage_ok := (storage_ok pool_wf prio_ok queue_wf lc2pg G NL).
#[local] Abbreviation pages_ok := (pages_ok pool_wf prio_ok queue_wf lc2pg G NL).
#[local] Abbreviation alike := (alike lc2pg).
#[local] Abbreviation never := (λ _ _, False).
Implicit Types (s : SM) (t : PM) (o : PageObj) (id : Z) (X : gset Z) (R : nat → nat → gset Z).

(** ** One page *)

Lemma wp_page_lock R id o r t :
  pages_ok R t → sm_pages (pm_storage t) !! id = Some o → pm_refs t !! id = Some r → po_level o = 0%nat →
  wp (page_lock lc2pg id)
    (λ _ t', pages_ok R t' ∧ pm_refs t' = <[id := mkRefs (holders r) (S (locks r))]> (pm_refs t) ∧
       touched id (set_status LOCKED o) (pm_storage t) (pm_storage t')) never t.
Proof.
  intros Hok Ho Hr Hlev. unfold page_lock.
  eapply wp_call; [by apply (wp_hold pool_wf prio_ok queue_wf lc2pg G NL R id o r)| |done].
  intros [] t1 (Hok1 & Hr1 & Ht1). set (o1 := set_status _ o) in Ht1.
  assert (Ho1 : sm_pages (pm_storage t1) !! id = Some o1) by (by rewrite (to_pages _ _ _ _ Ht1), lookup_insert_eq).
  assert (Hl1 : pm_refs t1 !! id = Some (mkRefs (S (holders r)) (locks r))) by (by rewrite Hr1, lookup_insert_eq).
  eapply (wp_call _ _ (λ _ t2, pages_ok R t2 ∧ pm_refs t2 = <[id := mkRefs (S (holders r)) (S (locks r))]> (pm_refs t1) ∧
    touched id (set_status LOCKED o1) (pm_storage t1) (pm_storage t2)) never); [| |done].
  { apply wp_try. eapply wp_mono; [by apply (wp_holder_lock pool_wf prio_ok queue_wf lc2pg G NL R id o1 (mkRefs (S (holders r)) (locks r)) t1)|done|done]. }
  intros [] t2 (Hok2 & Hr2 & Ht2).
  eapply wp_mono; [eapply (wp_release_holder pool_wf prio_ok queue_wf lc2pg G NL R true id)|..]; try done.
  - by rewrite (to_pages _ _ _ _ Ht2), lookup_insert_eq.
  - by rewrite Hr2, lookup_insert_eq.
  - cbn. lia.
  - intros [] t3 (Hok3 & Hr3 & Hs3). cbn [holders locks pred] in *. rewrite andb_false_r in Hs3. split; [done|].
    split; [by rewrite Hr3, Hr2, Hr1, !insert_insert_eq|]. rewrite Hs3.
    by apply (touched_trans id o1 _ _ (pm_storage t1)).
Qed.
(** The page as the readers leave it. *)
Definition read_by (event : event) o : PageObj := set_page_slot o (mkSlot (_slot_id (po_slot o)) event).

Lemma alike_read event o : alike o (read_by event o).
Proof. by split. Qed.

(** What the last lock leaves: a held page waits for eviction where there is a
    level below. *)
Record unlocked (event : event) id o s s' : Prop := {
  ul_page : touched id (set_status HELD (read_by event o)) s s';
  ul_queued : queued s' id ↔ (1 < NL)%nat;
}.

Lemma wp_uniq_lock_del R keep last event id o s :
  storage_ok R s → sm_pages s !! id = Some o → po_status o = LOCKED → po_level o = 0%nat →
  wp (uniq_lock_del lc2pg keep last event id)
    (λ _ s', storage_ok R s' ∧
       if last : bool then let_go keep id (read_by event o) s s' else unlocked event id o s s') never s.
Proof.
  intros Hi Ho Hst Hlev. pose proof (locked_not_queued _ _ _ _ _ _ _ _ _ _ _ Hi Ho Hst) as Hnq.
  unfold uniq_lock_del. apply wp_bind, (wp_obj _ o); [done|]. apply wp_bind, wp_get.
  apply wp_bind, wp_assert; [by rewrite Hlev, (not_scheduled _ _ _ _ _ _ Hi)|].
  apply wp_bind, (wp_set_obj id _ o); [done|]. change (set_page_slot o _) with (read_by event o). set (o1 := read_by event o).
  apply wp_bind, (wp_set_obj id _ o1); [cbn; by rewrite lookup_insert_eq|]. set (o2 := set_status HELD o1).
  set (s2 := put_obj id o2 (put_obj id o1 s)).
  assert (Ht2 : touched id o2 s s2) by (apply (touched_trans id o1 _ _ (put_obj id o1 s)); apply touched_put).
  assert (Ho2 : sm_pages s2 !! id = Some o2) by (cbn; by rewrite lookup_insert_eq).
  pose proof (inv_with pool_wf prio_ok queue_wf lc2pg G NL R s id Hi) as HiX. set (X := queued_set s ∪ {[ id ]}) in *.
  assert (Hi2 : inv X R s2).
  { eapply inv_put_obj; [| |by apply alike_status|by intros ?]; [|cbn; apply lookup_insert_eq].
    eapply inv_put_obj; [done|done|apply alike_read|by intros ?]. }
  destruct last.
  - eapply wp_call; [apply (wp_holder_del pool_wf prio_ok queue_wf lc2pg G NL X R id o2 s2 Hi2); [set_solver|done]| |done].
    intros [] s3 (Hi3 & Ht3 & Hq3).
    assert (Ht : touched id (set_status DROPPABLE o1) s s3) by (by apply (touched_trans id o2 _ _ s2)).
    apply wp_bind, (wp_obj _ (set_status DROPPABLE o1)); [by rewrite (to_pages _ _ _ _ Ht), lookup_insert_eq|].
    apply wp_bind, wp_get. cbn [po_status set_status]. rewrite bool_decide_eq_true_2 by done. cbn [negb andb].
    apply wp_bind, wp_ret. eapply wp_mono; [by apply (wp_collect_let_go pool_wf prio_ok queue_wf lc2pg G NL X R keep id o1 s)| |done].
    intros [] s4 [Hi4 Hlg]. split; [by eapply inv_storage_ok|done].
  - apply wp_bind, wp_ret. apply wp_bind, (wp_obj _ o2); [done|]. apply wp_bind, wp_get.
    cbn [po_status o2 set_status]. rewrite bool_decide_eq_false_2 by done. cbn [negb andb].
    pose proof (can_evict_iff NL s2 o2 (si_len _ _ _ _ _ _ _ _ _ Hi2)) as Hce.
    assert (Hce' : can_evict NL o2 ↔ (1 < NL)%nat).
    { unfold can_evict. cbn. rewrite Hlev. split; [intros [[? _]|[_ ?]]; [done|lia]|right; split; [done|lia]]. }
    assert (Hstay : ∀ s3, inv X R s3 → sm_pages s3 !! id = Some o2 →
      wp (collect lc2pg keep id) (λ _ s', inv X R s' ∧ s' = s3) never s3).
    { intros s3 Hi3 Ho3. eapply wp_mono; [by apply (wp_collect pool_wf prio_ok queue_wf lc2pg G NL X R keep id o2 s3)| |done].
      intros [] s4 (Hi4 & [(-> & _)|(_ & ? & _)]); done. }
    destruct (is_evictable s2 o2 None) eqn:He.
    + assert (Hnq2 : ¬ queued s2 id) by (change (¬ queued s id); done).
      eapply (wp_call _ _ (λ _ s3, inv X R s3 ∧ touched id o2 s s3 ∧ queued s3 id) never); [| |done].
      * unfold schedule_page. apply wp_bind, (wp_obj _ o2); [done|]. apply wp_bind, wp_get. rewrite He.
        eapply wp_mono; [apply (wp_enqueue pool_wf prio_ok queue_wf lc2pg G NL X R id o2 s2 Hi2 Ho2 Hnq2); [set_solver|done]| |done].
        intros [] s3 (Hi3 & Hqt & Hq3). split; [done|]. split; [|apply Hq3; by right].
        apply (touched_trans id o2 _ _ s2); [done|]. apply quiet_touched; [done|done|]. intros j Hj. rewrite Hq3. naive_solver.
      * intros [] s3 (Hi3 & Ht3 & Hq3).
        eapply wp_mono; [apply Hstay; [done|by rewrite (to_pages _ _ _ _ Ht3), lookup_insert_eq]| |done].
        intros [] s4 [Hi4 ->]. split; [by eapply inv_storage_ok|]. split; [done|]. rewrite <- Hce'. naive_solver.
    + apply wp_bind, wp_ret. eapply wp_mono; [by apply Hstay| |done].
      intros [] s4 [Hi4 ->]. split; [by eapply inv_storage_ok|]. split; [done|]. rewrite <- Hce', <- Hce.
      split; [intros Hq; by destruct Hnq|congruence].
Qed.

Lemma wp_unlock R keep event id o r t :
  pages_ok R t → sm_pages (pm_storage t) !! id = Some o → pm_refs t !! id = Some r → (0 < locks r)%nat →
  wp (unlock lc2pg keep event id)
    (λ _ t', pages_ok R t' ∧ pm_refs t' = <[id := mkRefs (holders r) (pred (locks r))]> (pm_refs t) ∧
       if (locks r =? 1)%nat
       then (if (holders r =? 0)%nat then let_go keep id (read_by event o) (pm_storage t) (pm_storage t')
             else unlocked event id o (pm_storage t) (pm_storage t'))
       else pm_storage t' = pm_storage t) never t.
Proof.
  intros [Hi Hrefs] Ho Hr Hpos. destruct (Hrefs id o Ho) as (r0 & Hr0 & Hst & Hlv). assert (r0 = r) as -> by congruence.
  assert (Hlk : status_of r = LOCKED) by (by apply status_locked). specialize (Hlv Hlk). rewrite Hlk in Hst.
  unfold unlock. apply wp_bind, (wp_refs id r); [done|]. destruct r as [h [|k]]; cbn [holders locks pred] in *; [lia|].
  apply wp_bind, wp_modify. change (S k =? 1)%nat with (k =? 0)%nat. destruct (k =? 0)%nat eqn:Hk.
  - apply Nat.eqb_eq in Hk as ->. apply wp_on_storage. cbn [pm_storage pm_refs].
    eapply wp_mono; [by apply (wp_uniq_lock_del R keep (h =? 0)%nat event id o)| |done].
    intros [] s' [Hi' Hres]. split; [|done]. split; [done|]. destruct (h =? 0)%nat eqn:Hh.
    + apply Nat.eqb_eq in Hh as ->. by apply (refs_let_go keep t id (read_by event o)).
    + apply Nat.eqb_neq in Hh. apply (refs_touched t id (set_status HELD (read_by event o))); [done|apply Hres| |].
      * by destruct h.
      * by destruct h.
  - apply Nat.eqb_neq in Hk. apply wp_ret. split; [|done]. split; [done|].
    apply (refs_touched t id o); [done|by apply touched_refl| |done].
    rewrite Hst. symmetry. apply status_locked. cbn. lia.
Qed.
(** ** A new page *)

Lemma inv_new_page X R id o L g i s :
  inv X R s → sm_pages s !! id = None → prio_ok (po_priority o) → place lc2pg o = Some (L, g, i) →
  (L < NL)%nat → (g < G)%nat → i ∈ R L g → inv X (upd R L g (λ A, A ∖ {[ i ]})) (put_obj id o s).
Proof.
  intros Hi Hid Hpr Hpl HL Hg Hin. pose proof Hi as [H1 H2 H3 H4 H5 H6 H7 H8].
  assert (Hne : ∀ id2 o2, sm_pages s !! id2 = Some o2 → place lc2pg o2 ≠ Some (L, g, i)).
  { intros id2 o2 Ho2 Hp2. by apply (H6 id2 o2 L g i). }
  assert (HR : ∀ L' g' j, j ∈ upd R L g (λ A, A ∖ {[ i ]}) L' g' ↔ j ∈ R L' g' ∧ (L', g', j) ≠ (L, g, i)).
  { intros L' g' j. unfold upd. case_decide as Hd; [destruct Hd as [-> ->]; set_solver|]. naive_solver. }
  assert (Hlk : ∀ id2 o2, sm_pages (put_obj id o s) !! id2 = Some o2 → (id = id2 ∧ o = o2) ∨ sm_pages s !! id2 = Some o2).
  { intros id2 o2. cbn. intros [?|[_ ?]]%lookup_insert_Some; auto. }
  split; try done.
  - intros id2 o2 [[<- <-]|Ho2]%Hlk; [|by apply (H4 id2)]. eauto 10.
  - intros L' g' p j Hg' Hp. change (pool_at (put_obj id o s) L' g') with (pool_at s L' g') in Hp.
    rewrite (H5 L' g' p j Hg' Hp), HR. split.
    + intros [Hr|(id2 & o2 & Ho2 & Hp2)].
      * destruct (decide ((L', g', j) = (L, g, i))) as [Heq|]; [right|by left]. exists id, o. cbn. by rewrite lookup_insert_eq, Heq.
      * right. exists id2, o2. cbn. rewrite lookup_insert_ne; [done|]. intros <-. congruence.
    + intros [[Hr _]|(id2 & o2 & [[<- <-]|Ho2]%Hlk & Hp2)]; [by left| |by eauto].
      left. rewrite Hpl in Hp2. by injection Hp2 as <- <- <-.
  - intros id2 o2 L' g' j [[<- <-]|Ho2]%Hlk Hp2; rewrite HR.
    + intros [_ Hn]. apply Hn. congruence.
    + intros [Hr _]. by apply (H6 id2 o2 L' g' j).
  - intros id1 id2 o1 o2 l [[<- <-]|Ho1]%Hlk [[<- <-]|Ho2]%Hlk Hl1 Hl2; try done.
    + destruct (Hne id2 o2 Ho2). congruence.
    + destruct (Hne id1 o1 Ho1). congruence.
    + by apply (H7 id1 id2 o1 o2 l).
  - intros L' c p Hc Hp. destruct (H8 L' c p Hc Hp) as (HX & o2 & Ho2 & ?). split; [done|]. exists o2.
    cbn. rewrite lookup_insert_ne; [done|]. intros Heq. rewrite <- Heq in Ho2. congruence.
Qed.

Lemma wp_page_init R id lc L prio committed slot g i t :
  pages_ok R t → sm_pages (pm_storage t) !! id = None → prio_ok prio → lc2pg !! lc = Some g →
  (L < NL)%nat → (g < G)%nat → _slot_id slot = Some i → i ∈ R L g →
  wp (page_init id lc L prio committed slot)
    (λ emptied t', emptied = mkSlot None None ∧ pages_ok (upd R L g (λ A, A ∖ {[ i ]})) t' ∧
       pm_refs t' = <[id := mkRefs 0 0]> (pm_refs t) ∧
       pm_storage t' = put_obj id (mkPageObj slot lc L prio DROPPABLE committed) (pm_storage t)) never t.
Proof.
  intros [Hi Hrefs] Hid Hpr Hlc HL Hg Hs Hin. unfold page_init.
  apply wp_bind, (wp_lift _ (slot, mkSlot None None)).
  { unfold set_slot, slot_id, has_valid_slot. cbn. rewrite Hs. cbn. destruct slot as [? e]. cbn in *. by subst. }
  apply wp_bind, wp_on_storage, wp_modify, wp_bind, wp_modify, wp_ret. cbn [pm_storage pm_refs].
  set (o := mkPageObj slot lc L prio DROPPABLE committed). split; [done|]. split; [|done]. split.
  - apply (inv_storage_ok _ _ _ _ _ _ (queued_set (pm_storage t))). apply (inv_new_page _ R id o L g i); try done.
    apply place_resides. done.
  - by apply (refs_touched t id o); [|apply touched_put|..].
Qed.
End storage_lock.
