(* ===== verification/StorageBatch.v ===== *)
(** * [batched_lock_to_gpu]

    Pages leave their queues, room is made in GPU memory for those that are
    elsewhere, they are moved there by their place, and then all of them are
    locked. *)

From S2P Require Import Prelude CacheKey RadixTree KvUtils SlotAllocator Eviction Wp StorageIface Storage StorageInv.
From S2P Require Import StorageDrop StorageMove StorageRoom StorageFree StoragePrepare StorageProps StoragePages StorageHold StorageLock.

Local Open Scope Z_scope.

Section storage_batch.
Context {P C T V : Type} `{!SlotPool P, !EvictQueue C, !BlockTree T}.
Context (pool_wf : P → Prop) `{!SlotPoolSpec P pool_wf}.
Context (prio_ok : Z → Prop) (queue_wf : list nat → nat → nat → C → Prop).
Context `{!EvictQueueSpec C prio_ok queue_wf}.
Context (lc2pg : list nat) (G NL : nat) (hem : bool).
#[local] Abbreviation SM := (StorageManager P C T V).
#[local] Abbreviation PM := (PageManager P C T V).
#[local] Abbreviation inv := (st_inv pool_wf prio_ok queue_wf lc2pg G NL).
#[local] Abbreviation storage_ok := (storage_ok pool_wf prio_ok queue_wf lc2pg G NL).
#[local] Abbreviation pages_ok := (pages_ok pool_wf prio_ok queue_wf lc2pg G NL).
#[local] Abbreviation alike := (alike lc2pg).
#[local] Abbreviation never := (λ _ _, False).
Implicit Types (s : SM) (t : PM) (o : PageObj) (id : Z) (X : gset Z) (R : nat → nat → gset Z).

(** ** The requirements *)

Definition elsewhere (L : nat) s id : Prop := match sm_pages s !! id with Some o => po_level o ≠ L | None => False end.
#[global] Instance elsewhere_dec L s id : Decision (elsewhere L s id).
Proof. unfold elsewhere. destruct (sm_pages s !! id); apply _. Defined.

(** The pages of pool group [g] that need a slot in GPU memory. *)
Definition away (L : nat) s (g : nat) id : Prop :=
  match sm_pages s !! id with Some o => po_level o ≠ L ∧ lc2pg !! po_life_cycle o = Some g | None => False end.
#[global] Instance away_dec L s g id : Decision (away L s g id).
Proof. unfold away. destruct (sm_pages s !! id); apply _. Defined.

Definition num_away (L : nat) s g (ids : list Z) : Z := Z.of_nat (length (filter (away L s g) ids)).

Lemma num_away_pages L s s' g ids : sm_pages s' = sm_pages s → num_away L s' g ids = num_away L s g ids.
Proof.
  intros Hp. unfold num_away. do 2 f_equal. apply list_filter_iff. intros id. unfold away. by rewrite Hp.
Qed.

Lemma num_away_cons L s g id ids :
  num_away L s g (id :: ids) = (if decide (away L s g id) then 1 else 0) + num_away L s g ids.
Proof. unfold num_away. rewrite filter_cons. case_decide; cbn [length]; lia. Qed.

Lemma wp_lock_requirements X R tasks req s :
  inv X R s → NoDup tasks.*1 →
  (∀ id e, (id, e) ∈ tasks → is_Some (sm_pages s !! id) ∧ (e = true ↔ queued s id)) → length req = G →
  wp (lock_requirements lc2pg tasks req)
    (λ req' s', inv X R s' ∧ quiet s s' ∧ (∀ j, queued s' j ↔ queued s j ∧ j ∉ tasks.*1) ∧ length req' = G ∧
       ∀ g n, req !! g = Some n → req' !! g = Some (n + num_away 0 s g tasks.*1)) never s.
Proof.
  revert req s. induction tasks as [|[id e] tasks IH]; intros req s Hi Hnd Hts Hlen; cbn [lock_requirements].
  { apply wp_ret. split_and!; try done; [set_solver|]. intros g n ->. f_equal. unfold num_away. cbn. lia. }
  cbn in Hnd. apply NoDup_cons in Hnd as [Hni Hnd]. destruct (Hts id e ltac:(left)) as [[o Ho] He].
  eapply (wp_call _ _ (λ _ s1, inv X R s1 ∧ quiet s s1 ∧ ∀ j, queued s1 j ↔ queued s j ∧ j ≠ id) never); [| |done].
  { destruct e.
    - apply (wp_exclude pool_wf prio_ok queue_wf lc2pg G NL); [done|by apply He].
    - apply wp_ret. split; [done|]. split; [done|]. intros j. split; [|by intros [? _]]. intros Hq. split; [done|].
      intros ->. apply He in Hq. done. }
  intros [] s1 (Hi1 & Hqt1 & Hq1). pose proof (qt_pages _ _ Hqt1) as Hp1.
  apply wp_bind, (wp_obj _ o); [by rewrite Hp1|].
  assert (Hts1 : ∀ id2 e2, (id2, e2) ∈ tasks → is_Some (sm_pages s1 !! id2) ∧ (e2 = true ↔ queued s1 id2)).
  { intros id2 e2 Hin. destruct (Hts id2 e2 ltac:(by right)) as [? Hq2]. rewrite Hp1, Hq1, Hq2. split; [done|].
    split; [|by intros [? _]]. intros Hq. split; [done|]. intros ->. apply Hni. by apply (list_elem_of_fmap_2 fst) in Hin. }
  assert (Hend : ∀ req1, length req1 = G → (∀ g n, req !! g = Some n →
      req1 !! g = Some (n + if decide (away 0 s g id) then 1 else 0)) →
    wp (lock_requirements lc2pg tasks req1)
      (λ req' s', inv X R s' ∧ quiet s s' ∧ (∀ j, queued s' j ↔ queued s j ∧ j ∉ id :: tasks.*1) ∧ length req' = G ∧
         ∀ g n, req !! g = Some n → req' !! g = Some (n + num_away 0 s g (id :: tasks.*1))) never s1).
  { intros req1 Hl1 Hr1. eapply wp_mono; [by apply IH| |done].
    intros req' s' (Hi' & Hqt' & Hq' & Hl' & Hr'). split_and!; try done; [by etrans| |].
    - intros j. rewrite Hq', Hq1. rewrite not_elem_of_cons. tauto.
    - intros g n Hn. rewrite (Hr' g _ (Hr1 g n Hn)), num_away_cons, (num_away_pages 0 _ _ _ _ Hp1). f_equal. lia. }
  destruct (po_level o =? 0)%nat eqn:Hlv.
  - apply Nat.eqb_eq in Hlv. apply Hend; [done|]. intros g n ->. rewrite decide_False; [f_equal; lia|].
    unfold away. rewrite Ho. by intros [? _].
  - apply Nat.eqb_neq in Hlv. destruct (page_place _ _ _ _ _ _ Hi id o Ho) as (g & _ & _ & _ & Hg & Hlc & _).
    apply wp_bind, (wp_lift _ g); [unfold get_pool_group_index; by rewrite Hlc|].
    destruct (lookup_lt_is_Some_2 req g) as [n Hn]; [by rewrite Hlen|]. apply wp_bind, (wp_lift _ n); [by rewrite Hn|].
    apply Hend; [by rewrite length_insert|]. intros g' n' Hn'. destruct (decide (g' = g)) as [->|Hne].
    + rewrite list_lookup_insert_eq by (by eapply lookup_lt_Some). rewrite decide_True; [congruence|]. unfold away. by rewrite Ho.
    + rewrite list_lookup_insert_ne, Hn' by done. rewrite decide_False; [f_equal; lia|]. unfold away. rewrite Ho.
      intros [_ Hg']. congruence.
Qed.

(** ** The moves *)

Lemma migrated_nil L R s : migrated lc2pg L [] R s s.
Proof. split; try done. by intros ? ?%not_elem_of_nil. Qed.

Lemma migrated_trans L ids ids' R s s1 s2 :
  (∀ id, id ∈ ids → id ∉ ids') →
  migrated lc2pg L ids R s s1 → migrated lc2pg L ids' R s1 s2 → migrated lc2pg L (ids ++ ids') R s s2.
Proof.
  intros Hdis [A1 A2 A3 A4 A5 A6] [B1 B2 B3 B4 B5 B6]. split.
  - intros id [? ?]%not_elem_of_app. by rewrite B1, A1.
  - intros id [Hin|Hin]%elem_of_app.
    + destruct (A2 id Hin) as (o & o' & Ho & Ho' & Hs & Hl & Hc). exists o, o'. rewrite B1 by auto.
      split_and!; try done. rewrite <- Hc. apply (B3 id); auto.
    + assert (Hni : id ∉ ids) by (intros ?; by apply (Hdis id)).
      destruct (B2 id Hin) as (o & o' & Ho & Ho' & Hs & Hl & Hc). rewrite A1 in Ho by done. exists o, o'.
      split_and!; try done. rewrite Hc. by apply (A3 id).
  - intros id o [Hn1 Hn2]%not_elem_of_app Ho. rewrite (B3 id o Hn2) by (by rewrite A1). by apply (A3 id).
  - intros L' g i Hr. by rewrite B4, A4.
  - intros L' g. by rewrite B5, A5.
  - intros j. by rewrite B6, A6.
Qed.

(** The room the moved pages of one group take. *)
Lemma migrated_free L X R D s s1 g :
  inv X R s → inv X R s1 → (L < NL)%nat → (g < G)%nat → migrated lc2pg L D R s s1 →
  free_at s L g - num_away L s g D ≤ free_at s1 L g.
Proof.
  intros Hi Hi1 HL Hg [M1 M2 _ _ M5 _]. unfold num_away.
  apply (free_change pool_wf prio_ok queue_wf lc2pg G NL X X R); try done.
  set (k := filter (away L s g) D).
  assert (Hsub : res lc2pg s1 L g ⊆ res lc2pg s L g ∪ list_to_set k).
  { intros id (o' & Ho' & Hlv & Hlc)%elem_of_res. destruct (decide (id ∈ D)) as [Hin|Hni]; last first.
    { rewrite M1 in Ho' by done. apply elem_of_union_l, elem_of_res. by exists o'. }
    destruct (M2 id Hin) as (o & o2 & Ho & Ho2 & (Hsl & _) & _). assert (o2 = o') as -> by congruence. rewrite Hsl in Hlc.
    destruct (decide (po_level o = L)) as [H0|H0]; [apply elem_of_union_l, elem_of_res; by exists o|].
    apply elem_of_union_r, elem_of_list_to_set, list_elem_of_filter. split; [|done]. unfold away. by rewrite Ho. }
  apply subseteq_size in Hsub. rewrite size_union_alt in Hsub.
  assert (size (list_to_set k ∖ res lc2pg s L g : gset Z) ≤ length k)%nat; [|lia].
  etrans; [apply (subseteq_size _ (list_to_set k : gset Z)); set_solver|]. apply size_list_to_set_le.
Qed.
Lemma away_elsewhere L s g id : away L s g id → elsewhere L s id.
Proof. unfold away, elsewhere. destruct (sm_pages s !! id); [by intros [? _]|done]. Qed.

(** The pages to be locked, out of their queues. *)
Definition taken_out ids s : Prop := NoDup ids ∧ ∀ id, id ∈ ids → is_Some (sm_pages s !! id) ∧ ¬ queued s id.

(** One part: pages of one level and group, not moved so far. *)
Lemma wp_migrate_to_gpu X R rec lvl g ids D s s1 :
  inv X R s → inv X R s1 → (0 < NL)%nat → migrated lc2pg 0 D R s s1 → taken_out ids s → ids ≠ [] →
  (∀ id, id ∈ D → id ∉ ids) → (∀ id, id ∈ ids → Storage.page_place lc2pg s id = Ok (lvl, g)) →
  num_away 0 s g D + num_away 0 s g ids ≤ free_at s 0 g →
  wp (migrate_to_gpu hem rec ((lvl, g), ids))
    (λ _ s', inv X R s' ∧ migrated lc2pg 0 (D ++ filter (elsewhere 0 s) ids) R s s') never s1.
Proof.
  intros Hi Hi1 HNL Hm [Hnd Hout] Hne Hdis Hpl Hroom. unfold migrate_to_gpu.
  assert (Hids : ∀ id, id ∈ ids → ∃ o, sm_pages s !! id = Some o ∧ po_level o = lvl ∧ lc2pg !! po_life_cycle o = Some g ∧ (g < G)%nat).
  { intros id Hin. destruct (Hout id Hin) as [[o Ho] _]. exists o. split; [done|].
    destruct (StorageInv.page_place _ _ _ _ _ _ Hi id o Ho) as (g' & _ & _ & _ & Hg & Hlc & _).
    specialize (Hpl id Hin). unfold Storage.page_place, get_pool_group_index in Hpl. rewrite Ho in Hpl. cbn in Hpl.
    rewrite Hlc in Hpl. cbn in Hpl. by injection Hpl as <- <-. }
  destruct (lvl =? 0)%nat eqn:Hl.
  { apply Nat.eqb_eq in Hl as ->. apply wp_ret. split; [done|].
    rewrite list_filter_none, app_nil_r; [done|]. apply Forall_forall. intros id Hin. destruct (Hids id Hin) as (o & Ho & Hlv & _).
    unfold elsewhere. rewrite Ho. by intros []. }
  apply Nat.eqb_neq in Hl.
  assert (Hg : (g < G)%nat). { destruct ids as [|x l]; [done|]. by destruct (Hids x ltac:(left)) as (_ & _ & _ & _ & ?). }
  rewrite (list_filter_all (elsewhere 0 s)); last first.
  { apply Forall_forall. intros id Hin. destruct (Hids id Hin) as (o & Ho & Hlv & _). unfold elsewhere. rewrite Ho. congruence. }
  assert (Hlen : num_away 0 s g ids = Z.of_nat (length ids)).
  { unfold num_away. do 2 f_equal. apply list_filter_all, Forall_forall. intros id Hin. destruct (Hids id Hin) as (o & Ho & Hlv & Hlc & _).
    unfold away. rewrite Ho. split; [congruence|done]. }
  pose proof (migrated_free 0 X R D s s1 g Hi Hi1 HNL Hg Hm) as Hfree.
  eapply wp_call; [apply (wp_batched_migrate pool_wf prio_ok queue_wf lc2pg G NL hem X R g lvl 0 ids rec s1); try done|..].
  - intros id Hin. destruct (Hids id Hin) as (o & Ho & Hlv & Hlc & _). exists o. rewrite (mg_other _ _ _ _ _ _ Hm).
    + split; [done|]. split; [done|]. rewrite (mg_queued _ _ _ _ _ _ Hm). by destruct (Hout id Hin).
    + intros Hin'. by apply (Hdis id).
  - lia.
  - intros _ s2 (_ & Hi2 & Hm2). apply wp_ret. split; [done|]. by apply (migrated_trans 0 D ids R s s1 s2).
  - done.
Qed.

Lemma num_away_app L s g l1 l2 : num_away L s g (l1 ++ l2) = num_away L s g l1 + num_away L s g l2.
Proof. unfold num_away. rewrite filter_app, length_app. lia. Qed.

Lemma num_away_perm L s g l1 l2 : l1 ≡ₚ l2 → num_away L s g l1 = num_away L s g l2.
Proof. intros Hp. unfold num_away. by rewrite Hp. Qed.

Lemma num_away_elsewhere L s g l : num_away L s g (filter (elsewhere L s) l) = num_away L s g l.
Proof. unfold num_away. rewrite list_filter_filter_l; [done|]. intros id. apply away_elsewhere. Qed.

Lemma num_away_nonneg L s g l : 0 ≤ num_away L s g l.
Proof. unfold num_away. lia. Qed.

Lemma wp_move_parts X R rec ids s :
  inv X R s → (0 < NL)%nat → taken_out ids s → (∀ g, (g < G)%nat → num_away 0 s g ids ≤ free_at s 0 g) →
  wp (partitioned ← lift (partition (Storage.page_place lc2pg s) ids); for_each (migrate_to_gpu hem rec) partitioned)
    (λ _ s', inv X R s' ∧ ∃ D, D ≡ₚ filter (elsewhere 0 s) ids ∧ migrated lc2pg 0 D R s s') never s.
Proof.
  intros Hi HNL [Hnd Hout] Hroom.
  destruct (partition_spec (Storage.page_place lc2pg s) ids) as (d & Hd & Hcl & Hperm).
  { intros id Hin. destruct (Hout id Hin) as [[o Ho] _].
    destruct (StorageInv.page_place _ _ _ _ _ _ Hi id o Ho) as (g' & _ & _ & _ & Hg & Hlc & _).
    unfold Storage.page_place, get_pool_group_index. rewrite Ho. cbn. rewrite Hlc. cbn. eauto. }
  apply wp_bind, (wp_lift _ d); [done|].
  assert (Hnd' : NoDup (concat d.*2)) by (by rewrite Hperm).
  set (moved_of := λ dn : list ((nat * nat) * list Z), filter (elsewhere 0 s) (concat dn.*2)).
  eapply (wp_mono _ (λ _ s', ∃ dn, d = dn ++ [] ∧ inv X R s' ∧ migrated lc2pg 0 (moved_of dn) R s s') _ never).
  - apply (wp_for_each _ (λ rest s', ∃ dn, d = dn ++ rest ∧ inv X R s' ∧ migrated lc2pg 0 (moved_of dn) R s s')).
    + intros l1 [[lvl g] part] l2 s1 _ (dn & Hdn & Hi1 & Hm). rewrite Hdn in Hnd', Hperm.
      rewrite fmap_app, concat_app in Hnd', Hperm. cbn in Hnd', Hperm.
      apply NoDup_app in Hnd' as (Hn1 & Hdis & Hn2). apply NoDup_app in Hn2 as (Hn2 & _ & _).
      assert (Hsub : ∀ id, id ∈ part → id ∈ ids).
      { intros id Hin. rewrite <- Hperm, !elem_of_app. auto. }
      destruct (Hcl (lvl, g) part) as [Hne Hpl]; [rewrite Hdn; apply elem_of_app; right; left|].
      assert (Hg : (g < G)%nat).
      { destruct part as [|x l]; [done|]. destruct (Hout x) as [[o Ho] _]; [apply Hsub; left|].
        destruct (StorageInv.page_place _ _ _ _ _ _ Hi x o Ho) as (g' & _ & _ & _ & Hg & Hlc & _).
        specialize (Hpl x ltac:(left)). unfold Storage.page_place, get_pool_group_index in Hpl. rewrite Ho in Hpl. cbn in Hpl.
        rewrite Hlc in Hpl. cbn in Hpl. by injection Hpl as _ <-. }
      eapply wp_mono; [apply (wp_migrate_to_gpu X R rec lvl g part (moved_of dn) s s1); try done| |done].
      * split; [done|]. intros id Hin. by apply Hout, Hsub.
      * intros id [_ Hin]%list_elem_of_filter Hin'. apply (Hdis id Hin), elem_of_app. by left.
      * unfold moved_of. rewrite num_away_elsewhere. specialize (Hroom g Hg). rewrite <- (num_away_perm 0 s g _ _ Hperm) in Hroom.
        rewrite !num_away_app in Hroom. pose proof (num_away_nonneg 0 s g (concat l2.*2)). lia.
      * intros [] s2 [Hi2 Hm2]. exists (dn ++ [((lvl, g), part)]). split; [by rewrite <- (assoc_L (++))|]. split; [done|].
        unfold moved_of. rewrite fmap_app, concat_app, filter_app. cbn. by rewrite app_nil_r.
    + exists []. split; [done|]. split; [done|]. apply migrated_nil.
  - intros [] s' (dn & Hdn & Hi' & Hm). rewrite app_nil_r in Hdn. subst dn. split; [done|]. exists (moved_of d).
    split; [|done]. unfold moved_of. by rewrite Hperm.
  - done.
Qed.
Lemma num_away_same L s s' g ids :
  (∀ id, id ∈ ids → sm_pages s' !! id = sm_pages s !! id) → num_away L s' g ids = num_away L s g ids.
Proof.
  induction ids as [|id ids IH]; intros Hp; [done|]. rewrite !num_away_cons, IH by (intros; apply Hp; by right).
  f_equal. apply decide_ext. unfold away. by rewrite (Hp id ltac:(left)).
Qed.

(** All pages of the batch are in GPU memory, with their contents. *)
Record gathered R ids s s' : Prop := {
  ga_ok : storage_ok R s';
  ga_evolves : evolves lc2pg (queued_set s ∪ list_to_set ids) R s s';
  ga_gpu : ∀ id, id ∈ ids → ∃ o', sm_pages s' !! id = Some o' ∧ po_level o' = 0%nat;
  ga_stay : ∀ id o, sm_pages s !! id = Some o → ¬ queued s id → po_level o = 0%nat → sm_pages s' !! id = Some o;
}.

Lemma wp_move_to_gpu R rec req ids s :
  storage_ok R s → (0 < NL)%nat → taken_out ids s → length req = G →
  (∀ g n, req !! g = Some n → n = num_away 0 s g ids) →
  wp (move_to_gpu lc2pg G hem rec req ids) (λ _ s', gathered R ids s s')
    (λ _ s', (one_priority prio_ok → ¬ can_make_room lc2pg G NL 0 req s) ∧ given_up pool_wf prio_ok queue_wf lc2pg G NL R s s') s.
Proof.
  intros Hi HNL Hout Hlen Hreq. unfold move_to_gpu.
  eapply wp_call; [apply (wp_prepare_free_slots pool_wf prio_ok queue_wf lc2pg G NL hem R rec 0 req s Hi HNL Hlen)| |done].
  { apply Forall_lookup. intros g n ->%Hreq. apply num_away_nonneg. }
  intros [] s1 [Hok1 Hev1 Hfree1 _ Hq1 _]. apply wp_bind, wp_get. destruct Hout as [Hnd Hout].
  assert (Hsame : ∀ id, id ∈ ids → sm_pages s1 !! id = sm_pages s !! id).
  { intros id Hin. apply (ev_same _ _ _ _ _ Hev1). rewrite elem_of_queued_set. by apply Hout. }
  eapply wp_mono; [apply (wp_move_parts (queued_set s1) R rec ids s1 Hok1 HNL)|..].
  - split; [done|]. intros id Hin. rewrite (Hsame id Hin). destruct (Hout id Hin) as [? Hnq]. split; [done|]. by intros ?%Hq1.
  - intros g Hg. rewrite (num_away_same 0 s) by done. destruct (lookup_lt_is_Some_2 req g) as [n Hn]; [by rewrite Hlen|].
    rewrite <- (Hreq g n Hn). by apply Hfree1.
  - intros [] s2 (Hi2 & D & HD & Hm). split.
    + by eapply inv_storage_ok.
    + etrans; [eapply evolves_mono; [|exact Hev1]; apply union_subseteq_l|].
      apply (migrated_evolves lc2pg _ R 0 D); [|done]. intros id Hin. rewrite HD in Hin. apply list_elem_of_filter in Hin as [_ Hin].
      apply elem_of_union_r. by apply elem_of_list_to_set.
    + intros id Hin. destruct (decide (elsewhere 0 s1 id)) as [He|He].
      * destruct (mg_moved _ _ _ _ _ _ Hm id) as (_ & o' & _ & Ho' & _ & Hl & _); [rewrite HD; by apply list_elem_of_filter|]. eauto.
      * rewrite (mg_other _ _ _ _ _ _ Hm); [|rewrite HD; by intros [? _]%list_elem_of_filter].
        destruct (Hout id Hin) as [[o Ho] _]. rewrite <- (Hsame id Hin) in Ho. exists o. split; [done|].
        unfold elsewhere in He. rewrite Ho in He. lia.
    + intros id o Ho Hnq Hl. rewrite <- (ev_same _ _ _ _ _ Hev1 id) in Ho by (by rewrite elem_of_queued_set).
      rewrite (mg_other _ _ _ _ _ _ Hm); [done|]. rewrite HD. intros [He _]%list_elem_of_filter. unfold elsewhere in He.
      by rewrite Ho in He.
  - done.
Qed.

(** ** The locks *)

Record locked_in (ids : list Z) t t' : Prop := {
  li_pages : ∀ id, id ∈ ids → ∃ o r, sm_pages (pm_storage t) !! id = Some o ∧ pm_refs t !! id = Some r ∧
    sm_pages (pm_storage t') !! id = Some (set_status LOCKED o) ∧ pm_refs t' !! id = Some (mkRefs (holders r) (S (locks r)));
  li_other : ∀ id, id ∉ ids → sm_pages (pm_storage t') !! id = sm_pages (pm_storage t) !! id ∧ pm_refs t' !! id = pm_refs t !! id;
  li_mem : sm_mem (pm_storage t') = sm_mem (pm_storage t);
}.

Lemma wp_lock_all R ids t :
  pages_ok R t → NoDup ids → (∀ id, id ∈ ids → ∃ o, sm_pages (pm_storage t) !! id = Some o ∧ po_level o = 0%nat) →
  wp (for_each (page_lock lc2pg) ids) (λ _ t', pages_ok R t' ∧ locked_in ids t t') never t.
Proof.
  intros Hok Hnd Hids.
  eapply (wp_mono _ (λ _ t', ∃ dn, ids = dn ++ [] ∧ pages_ok R t' ∧ locked_in dn t t') _ never); [| |done]; last first.
  { intros [] t' (dn & Hdn & ?). rewrite app_nil_r in Hdn. by subst. }
  apply (wp_for_each _ (λ rest t', ∃ dn, ids = dn ++ rest ∧ pages_ok R t' ∧ locked_in dn t t')).
  - intros l1 id l2 t1 _ (dn & Hdn & Hok1 & [L1 L2 L3]).
    assert (Hni : id ∉ dn). { rewrite Hdn in Hnd. apply NoDup_app in Hnd as (_ & Hd & _). intros Hin. apply (Hd id Hin). left. }
    destruct (Hids id) as (o & Ho & Hlev); [rewrite Hdn; apply elem_of_app; right; left|]. destruct (L2 id Hni) as [Hp1 Hr1].
    destruct (proj2 Hok id o Ho) as (r & Hr & _).
    eapply wp_mono; [apply (wp_page_lock pool_wf prio_ok queue_wf lc2pg G NL R id o r t1); congruence| |done].
    intros [] t2 (Hok2 & Hr2 & Ht2). exists (dn ++ [id]). split; [by rewrite <- (assoc_L (++))|]. split; [done|]. split.
    + intros j [Hj| ->%list_elem_of_singleton]%elem_of_app.
      * destruct (L1 j Hj) as (oj & rj & ? & ? & ? & ?). exists oj, rj.
        rewrite (to_pages _ _ _ _ Ht2), Hr2, !lookup_insert_ne by (intros ->; done). done.
      * exists o, r. by rewrite (to_pages _ _ _ _ Ht2), Hr2, !lookup_insert_eq.
    + intros j [Hj Hne]%not_elem_of_app. rewrite (to_pages _ _ _ _ Ht2), Hr2, !lookup_insert_ne by set_solver. by apply L2.
    + by rewrite (to_mem _ _ _ _ Ht2).
  - exists []. split; [done|]. split; [done|]. split; try done. by intros ? ?%not_elem_of_nil.
Qed.

(** Back into the queues. *)
Lemma wp_reschedule X R tasks s :
  inv X R s → NoDup tasks.*1 →
  (∀ id, (id, true) ∈ tasks → id ∈ X ∧ ¬ queued s id ∧ ∃ o, sm_pages s !! id = Some o ∧ is_evictable s o None = true) →
  wp (reschedule tasks) (λ _ s', inv X R s' ∧ quiet s s' ∧ ∀ j, queued s' j ↔ queued s j ∨ (j, true) ∈ tasks) never s.
Proof.
  intros Hi Hnd Hts. unfold reschedule.
  set (Inv := λ (rest : list (Z * bool)) s', ∃ dn, tasks = dn ++ rest ∧ inv X R s' ∧ quiet s s' ∧
    ∀ j, queued s' j ↔ queued s j ∨ (j, true) ∈ dn).
  eapply (wp_mono _ (λ _ s', Inv [] s') _ never); [| |done]; last first.
  { intros [] s' (dn & Hdn & ?). rewrite app_nil_r in Hdn. by subst. }
  apply (wp_for_each _ Inv).
  - intros l1 [id e] l2 s1 _ (dn & Hdn & Hi1 & Hqt & Hq1). cbn [fst snd]. destruct e; last first.
    { apply wp_ret. exists (dn ++ [(id, false)]). split; [by rewrite <- (assoc_L (++))|]. split; [done|]. split; [done|].
      intros j. rewrite Hq1, elem_of_app, list_elem_of_singleton. naive_solver. }
    destruct (Hts id) as (HX & Hnq & o & Ho & He); [rewrite Hdn; apply elem_of_app; right; left|].
    assert (Hnd1 : (id, true) ∉ dn).
    { intros Hin. rewrite Hdn, fmap_app in Hnd. apply NoDup_app in Hnd as (_ & Hd & _).
      apply (Hd id); [by apply (list_elem_of_fmap_2 fst) in Hin|left]. }
    assert (Hnq1 : ¬ queued s1 id) by (rewrite Hq1; naive_solver).
    assert (Ho1 : sm_pages s1 !! id = Some o) by (by rewrite (qt_pages _ _ Hqt)).
    assert (He1 : is_evictable s1 o None = true).
    { rewrite (evictable_len s); [done|]. by rewrite (si_len _ _ _ _ _ _ _ _ _ Hi1), (si_len _ _ _ _ _ _ _ _ _ Hi). }
    unfold schedule_page. apply wp_bind, (wp_obj _ o); [done|]. apply wp_bind, wp_get. rewrite He1.
    eapply wp_mono; [by apply (wp_enqueue pool_wf prio_ok queue_wf lc2pg G NL X R id o s1)| |done].
    intros [] s2 (Hi2 & Hqt2 & Hq2). exists (dn ++ [(id, true)]). split; [by rewrite <- (assoc_L (++))|]. split; [done|].
    split; [by etrans|]. intros j. rewrite Hq2, Hq1, elem_of_app, list_elem_of_singleton. naive_solver.
  - exists []. split; [done|]. split; [done|]. split; [done|]. intros j. rewrite elem_of_nil. tauto.
Qed.
(** ** The call *)

Lemma refs_evolves t s' :
  refs_ok t → (∀ id o', sm_pages s' !! id = Some o' → ∃ o, sm_pages (pm_storage t) !! id = Some o ∧
    po_status o' = po_status o ∧ (po_status o = LOCKED → po_level o' = po_level o ∨ po_level o' = 0%nat)) →
  refs_ok (mkPM s' (pm_refs t)).
Proof.
  intros Hr Hp id o' Ho'. destruct (Hp id o' Ho') as (o & Ho & Hst & Hl), (Hr id o Ho) as (r & Hr' & Hst' & Hlv).
  exists r. split; [done|]. split; [congruence|]. intros Hk. destruct (Hl ltac:(congruence)); [|done]. rewrite <- Hlv; done.
Qed.

Record batch_locked R (ids : list Z) t t' : Prop := {
  bl_ok : pages_ok R t';
  bl_pages : ∀ id, id ∈ ids → ∃ o r o', sm_pages (pm_storage t) !! id = Some o ∧ pm_refs t !! id = Some r ∧
    sm_pages (pm_storage t') !! id = Some o' ∧ po_level o' = 0%nat ∧ po_status o' = LOCKED ∧
    content lc2pg (pm_storage t') o' = content lc2pg (pm_storage t) o ∧
    pm_refs t' !! id = Some (mkRefs (holders r) (S (locks r)));
  bl_refs : ∀ id, id ∉ ids → pm_refs t' !! id = pm_refs t !! id;
  bl_alive : ∀ id o, sm_pages (pm_storage t) !! id = Some o → po_status o ≠ DROPPABLE →
    ∃ o', sm_pages (pm_storage t') !! id = Some o' ∧ content lc2pg (pm_storage t') o' = content lc2pg (pm_storage t) o;
  bl_pinned : ∀ id o, sm_pages (pm_storage t) !! id = Some o → po_status o = LOCKED → po_level o = 0%nat →
    sm_pages (pm_storage t') !! id = Some o;
}.

Record batch_refused R (ids : list Z) t t' : Prop := {
  br_ok : pages_ok R t';
  br_refs : pm_refs t' = pm_refs t;
  br_pages : ∀ id, id ∈ ids → sm_pages (pm_storage t') !! id = sm_pages (pm_storage t) !! id ∧
    (queued (pm_storage t') id ↔ queued (pm_storage t) id);
  br_mem : sm_mem (pm_storage t') = sm_mem (pm_storage t);
  br_alive : ∀ id o, sm_pages (pm_storage t) !! id = Some o → po_status o ≠ DROPPABLE → sm_pages (pm_storage t') !! id = Some o;
}.

Lemma gathered_locked R ids t s1 s2 t' :
  pages_ok R t → quiet (pm_storage t) s1 → (∀ j, queued s1 j → queued (pm_storage t) j) → gathered R ids s1 s2 → pages_ok R t' →
  locked_in ids (mkPM s2 (pm_refs t)) t' → batch_locked R ids t t'.
Proof.
  intros Hok [Hp1 Hm1 _] Hq1 [_ Hev Hgpu Hstay] Hok' [L1 L2 L3].
  assert (Hc : ∀ s s' o, sm_mem s' = sm_mem s → content lc2pg s' o = content lc2pg s o) by (intros ??? Hm; unfold content; by rewrite Hm).
  assert (Hback : ∀ id o2, sm_pages s2 !! id = Some o2 → ∃ o, sm_pages (pm_storage t) !! id = Some o ∧
    same_page o o2 ∧ content lc2pg (pm_storage t') o2 = content lc2pg (pm_storage t) o).
  { intros id o2 Ho2. destruct (ev_pages _ _ _ _ _ Hev id o2 Ho2) as (o & Ho & Hs & Hct). exists o. rewrite <- Hp1.
    split; [done|]. split; [done|]. rewrite (Hc s2 (pm_storage t')), Hct by done. by apply Hc. }
  split.
  - done.
  - intros id Hin. destruct (L1 id Hin) as (o2 & r & Ho2 & Hr & Ho' & Hr'). cbn in Ho2, Hr.
    destruct (Hback id o2 Ho2) as (o & Ho & _ & Hct). exists o, r, (set_status LOCKED o2). split_and!; try done.
    cbn. destruct (Hgpu id Hin) as (o3 & Ho3 & Hl). congruence.
  - intros id Hni. by apply L2.
  - intros id o Ho Hst. destruct (ev_alive _ _ _ _ _ Hev id o) as [o2 Ho2]; [by rewrite Hp1|done|].
    destruct (Hback id o2 Ho2) as (o0 & Ho0 & _ & Hct). assert (o0 = o) as -> by congruence.
    destruct (decide (id ∈ ids)) as [Hin|Hni].
    + destruct (L1 id Hin) as (o3 & _ & Ho3 & _ & Ho' & _). cbn in Ho3. assert (o3 = o2) as -> by congruence.
      exists (set_status LOCKED o2). done.
    + exists o2. destruct (L2 id Hni) as [-> _]. done.
  - intros id o Ho Hst Hl. assert (Ho2 : sm_pages s2 !! id = Some o).
    { apply Hstay; [by rewrite Hp1| |done]. intros Hq%Hq1. destruct Hok as [Hi _].
      by apply (locked_not_queued _ _ _ _ _ _ _ _ _ _ _ Hi Ho Hst). }
    destruct (decide (id ∈ ids)) as [Hin|Hni]; [|destruct (L2 id Hni) as [-> _]; done].
    destruct (L1 id Hin) as (o3 & _ & Ho3 & _ & Ho' & _). cbn in Ho3. assert (o3 = o) as -> by congruence.
    rewrite Ho', <- Hst. by rewrite set_status_id.
Qed.

(** The pages of a batch, with what [scheduled_for_eviction] was. *)
Definition tasks_of t (ids : list Z) : list (Z * bool) := (λ id, (id, scheduled (pm_storage t) id)) <$> ids.

Lemma tasks_fst t ids : (tasks_of t ids).*1 = ids.
Proof. unfold tasks_of. rewrite <- list_fmap_compose. apply list_fmap_id. Qed.

Lemma elem_of_tasks t ids id e : (id, e) ∈ tasks_of t ids ↔ id ∈ ids ∧ e = scheduled (pm_storage t) id.
Proof. unfold tasks_of. rewrite list_elem_of_fmap. naive_solver. Qed.

(** The [except] clause. *)
Lemma wp_give_back R ids t s1 s2 e (Q : () → PM → Prop) :
  pages_ok R t → NoDup ids → (∀ id, id ∈ ids → is_Some (sm_pages (pm_storage t) !! id)) →
  quiet (pm_storage t) s1 → (∀ j, queued s1 j ↔ queued (pm_storage t) j ∧ j ∉ ids) →
  given_up pool_wf prio_ok queue_wf lc2pg G NL R s1 s2 →
  wp (on_storage (reschedule (tasks_of t ids));; raise e) Q (λ _ t', batch_refused R ids t t') (mkPM s2 (pm_refs t)).
Proof.
  intros [Hi Hrefs] Hnd Hids Hqt Hq1 [G1 G2 G3 G4 G5 G6]. pose proof (qt_pages _ _ Hqt) as Hp1.
  apply wp_bind, wp_on_storage. cbn [pm_storage pm_refs].
  assert (Hkeep : ∀ id, id ∈ ids → sm_pages s2 !! id = sm_pages (pm_storage t) !! id).
  { intros id Hid. destruct (Hids id Hid) as [o Ho]. rewrite Ho. apply G3; [by rewrite Hp1|]. left. rewrite Hq1. tauto. }
  assert (HiX : inv (queued_set (pm_storage t)) R s2).
  { eapply inv_touch; [done|]. intros j [? _]%G4%Hq1. by apply elem_of_queued_set. }
  eapply wp_mono; [apply (wp_reschedule (queued_set (pm_storage t)) R (tasks_of t ids) s2 HiX)| |done].
  - by rewrite tasks_fst.
  - intros id [Hid Hs%eq_sym%(scheduled_queued _ _ _ _ _ _ Hi)]%elem_of_tasks. split; [by apply elem_of_queued_set|].
    split; [intros [_ ?]%G4%Hq1; done|]. destruct (queued_page _ _ _ _ _ _ Hi id Hs) as (_ & o & _ & Ho & He & _).
    exists o. rewrite (Hkeep id Hid). split; [done|]. rewrite (evictable_len (pm_storage t)); [done|].
    by rewrite (si_len _ _ _ _ _ _ _ _ _ HiX), (si_len _ _ _ _ _ _ _ _ _ Hi).
  - intros [] s3 (Hi3 & Hqt3 & Hq3). apply wp_raise. split; cbn.
    + split; [by eapply inv_storage_ok|]. apply (refs_sub (pm_storage t)); [by destruct t|]. cbn.
      intros id o Ho. rewrite (qt_pages _ _ Hqt3) in Ho. rewrite <- Hp1. by apply G2.
    + done.
    + intros id Hid. rewrite (qt_pages _ _ Hqt3). split; [by apply Hkeep|]. rewrite Hq3, elem_of_tasks.
      rewrite <- (scheduled_queued _ _ _ _ _ _ Hi id). split; [|intros Hs; right; done].
      intros [[_ ?]%G4%Hq1|[_ Hs]]; [done|done].
    + by rewrite (qt_mem _ _ Hqt3), G5, (qt_mem _ _ Hqt).
    + intros id o Ho Hst. rewrite (qt_pages _ _ Hqt3). apply G3; [by rewrite Hp1|by right].
Qed.

Lemma wp_batched_lock_to_gpu R rec ids t :
  pages_ok R t → (0 < NL)%nat → NoDup ids → (∀ id, id ∈ ids → is_Some (sm_pages (pm_storage t) !! id)) →
  wp (batched_lock_to_gpu lc2pg G hem rec ids)
    (λ _ t', batch_locked R ids t t') (λ _ t', batch_refused R ids t t') t.
Proof.
  intros Hok HNL Hnd Hids. pose proof Hok as [Hi Hrefs]. unfold batched_lock_to_gpu. apply wp_bind, wp_get. cbv zeta.
  fold (tasks_of t ids).
  eapply (wp_call _ _ (λ req t1, ∃ s1, t1 = mkPM s1 (pm_refs t) ∧ inv (queued_set (pm_storage t)) R s1 ∧ quiet (pm_storage t) s1 ∧
    (∀ j, queued s1 j ↔ queued (pm_storage t) j ∧ j ∉ ids) ∧ length req = G ∧
    ∀ g n, req !! g = Some n → n = num_away 0 s1 g ids) never); [| |done].
  { apply wp_on_storage.
    eapply wp_mono; [apply (wp_lock_requirements (queued_set (pm_storage t)) R (tasks_of t ids) (replicate G 0) _ Hi)| |done].
    - by rewrite tasks_fst.
    - intros id e [? ->]%elem_of_tasks. split; [by apply Hids|]. by apply (scheduled_queued _ _ _ _ _ _ Hi).
    - apply length_replicate.
    - rewrite tasks_fst. intros req s1 (Hi1 & Hqt & Hq & Hl & Hr). exists s1. split_and!; try done.
      intros g n Hn. pose proof (lookup_lt_Some _ _ _ Hn) as Hg. rewrite (Hr g 0) in Hn by (apply lookup_replicate_2; lia).
      injection Hn as <-. rewrite (num_away_pages 0 _ _ _ _ (qt_pages _ _ Hqt)). lia. }
  intros req t1 (s1 & -> & Hi1 & Hqt & Hq1 & Hl1 & Hreq). pose proof (qt_pages _ _ Hqt) as Hp1.
  eapply (wp_call _ _ (λ _ t2, ∃ s2, t2 = mkPM s2 (pm_refs t) ∧ gathered R ids s1 s2) (λ _ t2, batch_refused R ids t t2)); [| |done].
  - apply wp_try, wp_on_storage. cbn [pm_storage pm_refs].
    eapply wp_mono; [apply (wp_move_to_gpu R rec req ids s1); try done| |].
    + by eapply inv_storage_ok.
    + split; [done|]. intros id Hid. rewrite Hp1, Hq1. split; [by apply Hids|]. tauto.
    + intros [] s2 Hga. by exists s2.
    + intros e s2 [_ Hgu]. by apply (wp_give_back R ids t s1 s2).
  - intros [] t2 (s2 & -> & Hga). eapply wp_mono; [apply (wp_lock_all R ids); [|done|by apply Hga]| |done].
    + split; [apply Hga|]. apply refs_evolves; [done|]. intros id o' Ho'.
      destruct (ev_pages _ _ _ _ _ (ga_evolves _ _ _ _ Hga) id o' Ho') as (o & Ho & (_ & _ & Hst & _) & _). rewrite Hp1 in Ho.
      exists o. split; [done|]. split; [done|]. intros Hlk. destruct (decide (id ∈ ids)) as [Hid|Hni].
      * right. destruct (ga_gpu _ _ _ _ Hga id Hid) as (o2 & Ho2 & ?). congruence.
      * left. rewrite (ev_same _ _ _ _ _ (ga_evolves _ _ _ _ Hga)) in Ho'; [rewrite Hp1 in Ho'; congruence|].
        rewrite elem_of_union, elem_of_list_to_set, elem_of_queued_set, Hq1. intros [[Hq _]|?]; [|done].
        by apply (locked_not_queued _ _ _ _ _ _ _ _ _ _ _ Hi Ho Hlk).
    + intros [] t' [Hok' Hlk]. apply (gathered_locked R ids t s1 s2); try done.
      intros j ?%Hq1. tauto.
Qed.
End storage_batch.
