(* ===== verification/StoragePrefetch.v ===== *)
(** * Prefetching pages ([StorageManager.prefetch])

    Pages in lower levels are brought up to a level before they are needed.
    They leave their queues, room is made, they are moved, and whatever
    happens the pages that may be evicted go back into a queue. *)

From S2P Require Import Prelude CacheKey RadixTree KvUtils SlotAllocator Eviction Wp StorageIface Storage StorageInv.
From S2P Require Import StorageDrop StorageMove StorageRoom StorageFree StoragePrepare StorageProps StoragePages StorageHold StorageBatch.

Local Open Scope Z_scope.

(** The nested loops over [pages], by pool group and level. *)
Fixpoint level_items (pg_idx lvl : nat) (pg_pages : list (list Z)) : list (nat * nat * Z) :=
  match pg_pages with
  | [] => []
  | lvl_pages :: pg_pages => ((λ p, (pg_idx, lvl, p)) <$> lvl_pages) ++ level_items pg_idx (S lvl) pg_pages
  end.

Fixpoint prefetch_items (pg_idx : nat) (pages : list (list (list Z))) : list (nat * nat * Z) :=
  match pages with
  | [] => []
  | pg_pages :: pages => level_items pg_idx 0 pg_pages ++ prefetch_items (S pg_idx) pages
  end.

(** The second loop: pool group, level and [pg_tasks[lvl]]. *)
Fixpoint prefetch_tasks (dst_lvl num_levels pg_idx : nat) (pages : list (list (list Z))) :
    list (nat * nat * option (list Z)) :=
  match pages with
  | [] => []
  | pg_tasks :: pages =>
      ((λ lvl, (pg_idx, lvl, pg_tasks !! lvl)) <$> seq (S dst_lvl) (num_levels - S dst_lvl)) ++
      prefetch_tasks dst_lvl num_levels (S pg_idx) pages
  end.

Section prefetch.
Context {P C T V : Type} `{!SlotPool P, !EvictQueue C, !BlockTree T}.
Context (lc2pg : list nat) (num_pool_groups : nat) (has_event_manager : bool).
#[local] Abbreviation SM := (StorageManager P C T V).
Implicit Types s : SM.

(** One page of the first loop: does it have to be scheduled in the end? *)
Definition prefetch_page (dst_lvl lvl : nat) (p : Z) : M SM bool :=
  assert_ (dst_lvl <=? lvl)%nat;;
  o ← obj p;
  s ← get;
  if scheduled s p then exclude_page p;; mret true
  else mret (is_evictable s o (Some dst_lvl)).

(** The first loop, with [scheduled] as it is when the loop ends or raises. *)
Fixpoint prefetch_collect (dst_lvl : nat) (items : list (nat * nat * Z)) (num_slots scheduled : list Z) s :
    result (list Z) * list Z * SM :=
  match items with
  | [] => (Ok num_slots, scheduled, s)
  | (pg_idx, lvl, p) :: items =>
      match prefetch_page dst_lvl lvl p s with
      | (Raise e, s) => (Raise e, scheduled, s)
      | (Ok b, s) =>
          let scheduled := if (b : bool) then scheduled ++ [p] else scheduled in
          if (lvl =? dst_lvl)%nat then prefetch_collect dst_lvl items num_slots scheduled s
          else match num_slots !! pg_idx with
               | None => (Raise IndexError, scheduled, s)
               | Some n => prefetch_collect dst_lvl items (<[pg_idx := n + 1]> num_slots) scheduled s
               end
      end
  end.

Definition prefetch_moves (dst_lvl : nat) (pages : list (list (list Z))) : M SM () :=
  s ← get;
  for_each (λ t : nat * nat * option (list Z),
    let '(pg_idx, lvl, lvl_tasks) := t in
    ids ← lift (of_option IndexError lvl_tasks);
    batched_migrate has_event_manager pg_idx dst_lvl lvl ids true false (mkRecorders false false);; mret ())
    (prefetch_tasks dst_lvl (num_cache_levels s) 0 pages).

(** The [try] block after the first loop. *)
Definition prefetch_body (dst_lvl : nat) (num_slots : list Z) (pages : list (list (list Z))) : M SM () :=
  prepare_free_slots lc2pg num_pool_groups has_event_manager (mkRecorders false false) dst_lvl num_slots;;
  prefetch_moves dst_lvl pages.

Definition prefetch (dst_lvl : nat) (pages : list (list (list Z))) : M SM () := λ s,
  let '(collected, scheduled, s) := prefetch_collect dst_lvl (prefetch_items 0 pages) (replicate num_pool_groups 0) [] s in
  let '(r, s) :=
    match collected with
    | Raise e => (Raise e, s)
    | Ok num_slots => prefetch_body dst_lvl num_slots pages s
    end in
  match for_each schedule_page scheduled s with
  | (Raise e, s) => (Raise e, s)
  | (Ok _, s) => (r, s)
  end.
End prefetch.

Lemma list_filter_ext_in {A} (F H : A → Prop) `{∀ x, Decision (F x), ∀ x, Decision (H x)} (l : list A) :
  (∀ x, x ∈ l → F x ↔ H x) → filter F l = filter H l.
Proof.
  induction l as [|x l IH]; intros Hx; [done|]. rewrite !filter_cons, IH by (intros; apply Hx; by right).
  pose proof (Hx x ltac:(left)). repeat case_decide; tauto || done.
Qed.

(** ** The lists *)

Lemma elem_of_level_items pg lvl ls g l id :
  (g, l, id) ∈ level_items pg lvl ls ↔ g = pg ∧ ∃ k ids, ls !! k = Some ids ∧ l = (lvl + k)%nat ∧ id ∈ ids.
Proof.
  revert lvl. induction ls as [|ids ls IH]; intros lvl; cbn [level_items].
  { rewrite elem_of_nil. split; [done|]. by intros (_ & k & ids & ? & _). }
  rewrite elem_of_app, IH, list_elem_of_fmap. split.
  - intros [(p & [= -> -> ->] & Hp)|(-> & k & ids' & Hk & -> & Hid)]; (split; [done|]).
    + exists 0%nat, ids. split; [done|]. split; [lia|done].
    + exists (S k), ids'. split; [done|]. split; [lia|done].
  - intros (-> & [|k] & ids' & Hk & -> & Hid).
    + left. injection Hk as ->. exists id. split; [by rewrite Nat.add_0_r|done].
    + right. split; [done|]. exists k, ids'. split; [done|]. split; [lia|done].
Qed.

Lemma elem_of_items pg pages g l id :
  (g, l, id) ∈ prefetch_items pg pages ↔
  ∃ k ls ids, pages !! k = Some ls ∧ g = (pg + k)%nat ∧ ls !! l = Some ids ∧ id ∈ ids.
Proof.
  revert pg. induction pages as [|ls pages IH]; intros pg; cbn [prefetch_items].
  { rewrite elem_of_nil. split; [done|]. by intros (k & ls & ids & ? & _). }
  rewrite elem_of_app, IH, elem_of_level_items. split.
  - intros [(-> & k & ids & Hk & -> & Hid)|(k & ls' & ids & Hk & -> & Hl & Hid)].
    + exists 0%nat, ls, ids. split; [done|]. split; [lia|done].
    + exists (S k), ls', ids. split; [done|]. split; [lia|done].
  - intros ([|k] & ls' & ids & Hk & -> & Hl & Hid).
    + left. injection Hk as ->. split; [lia|]. exists l, ids. done.
    + right. exists k, ls', ids. split; [done|]. split; [lia|done].
Qed.

Lemma elem_of_prefetch_tasks dst n pg pages g l x :
  (g, l, x) ∈ prefetch_tasks dst n pg pages ↔
  ∃ k ls, pages !! k = Some ls ∧ g = (pg + k)%nat ∧ x = ls !! l ∧ (dst < l < n)%nat.
Proof.
  revert pg. induction pages as [|ls pages IH]; intros pg; cbn [prefetch_tasks].
  { rewrite elem_of_nil. split; [done|]. by intros (k & ls & ? & _). }
  rewrite elem_of_app, IH, list_elem_of_fmap. split.
  - intros [(y & [= -> -> ->] & Hy%elem_of_seq)|(k & ls' & Hk & -> & -> & Hl)].
    + exists 0%nat, ls. split; [done|]. split; [lia|]. split; [done|lia].
    + exists (S k), ls'. split; [done|]. split; [lia|done].
  - intros ([|k] & ls' & Hk & -> & -> & Hl).
    + left. injection Hk as ->. exists l. split; [by rewrite Nat.add_0_r|]. apply elem_of_seq. lia.
    + right. exists k, ls'. split; [done|]. split; [lia|done].
Qed.

Lemma level_items_ids pg lvl ls : (level_items pg lvl ls).*2 = concat ls.
Proof.
  revert lvl. induction ls as [|ids ls IH]; intros lvl; [done|]. cbn. rewrite fmap_app, IH. f_equal.
  rewrite <- list_fmap_compose. apply list_fmap_id.
Qed.

Lemma drop_lookups {A} (ls : list A) k : (λ i, ls !! i) <$> seq k (length ls - k) = Some <$> drop k ls.
Proof.
  apply list_eq. intros i. rewrite !list_lookup_fmap, lookup_drop. destruct (decide (i < length ls - k)%nat) as [Hi|Hi].
  - rewrite lookup_seq_lt by done. cbn. destruct (lookup_lt_is_Some_2 ls (k + i)) as [x Hx]; [lia|]. by rewrite Hx.
  - rewrite lookup_seq_ge by lia. cbn. rewrite (proj2 (lookup_ge_None ls (k + i))) by lia. done.
Qed.

(** The moved pages are among the pages of the call. *)
Lemma tasks_sublist dst n pg pages :
  Forall (λ ls, length ls = n) pages →
  concat (default [] <$> (prefetch_tasks dst n pg pages).*2) `sublist_of` (prefetch_items pg pages).*2.
Proof.
  intros Hlen. revert pg. induction Hlen as [|ls pages Hls _ IH]; intros pg; [done|]. cbn [prefetch_tasks prefetch_items].
  rewrite !fmap_app, concat_app. apply sublist_app; [|apply IH]. rewrite level_items_ids.
  replace (concat _) with (concat (drop (S dst) ls)).
  - rewrite <- (take_drop (S dst) ls) at 2. rewrite concat_app. by apply sublist_inserts_l.
  - f_equal. rewrite <- !list_fmap_compose, <- Hls. change (_ <$> seq _ _) with (default [] ∘ (λ i, ls !! i) <$> seq (S dst) (length ls - S dst)).
    rewrite list_fmap_compose, drop_lookups, <- list_fmap_compose. symmetry. apply list_fmap_id.
Qed.

Section storage_prefetch.
Context {P C T V : Type} `{!SlotPool P, !EvictQueue C, !BlockTree T}.
Context (pool_wf : P → Prop) `{!SlotPoolSpec P pool_wf}.
Context (prio_ok : Z → Prop) (queue_wf : list nat → nat → nat → C → Prop).
Context `{!EvictQueueSpec C prio_ok queue_wf}.
Context (lc2pg : list nat) (G NL : nat) (hem : bool).
#[local] Abbreviation SM := (StorageManager P C T V).
#[local] Abbreviation PM := (PageManager P C T V).
#[local] Abbreviation inv := (st_inv pool_wf prio_ok queue_wf lc2pg G NL).
#[local] Abbreviation storage_ok := (storage_ok pool_wf prio_ok queue_wf lc2pg G NL).
#[local] Abbreviation pages_ok := (pages_ok pool_wf prio_ok queue_wf lc2pg G NL).
#[local] Abbreviation alike := (alike lc2pg).
#[local] Abbreviation never := (λ _ _, False).
Implicit Types (s : SM) (t : PM) (o : PageObj) (id : Z) (X : gset Z) (R : nat → nat → gset Z).

(** The pages of the call are alive, where the lists say they are, and not
    above the level. *)
Definition prefetchable (dst : nat) (items : list (nat * nat * Z)) s : Prop :=
  NoDup items.*2 ∧ ∀ g lvl id, (g, lvl, id) ∈ items →
    (dst ≤ lvl)%nat ∧ ∃ o, sm_pages s !! id = Some o ∧ resides lc2pg lvl g o.

(** The pages to schedule in the end. *)
Definition wanted (dst : nat) s id : bool :=
  scheduled s id || match sm_pages s !! id with Some o => is_evictable s o (Some dst) | None => false end.

Lemma prefetch_page_ok X R dst lvl g id s :
  inv X R s → (dst ≤ lvl)%nat → (∃ o, sm_pages s !! id = Some o ∧ resides lc2pg lvl g o) →
  wp (prefetch_page dst lvl id)
    (λ b s', b = wanted dst s id ∧ inv X R s' ∧ quiet s s' ∧ ∀ j, queued s' j ↔ queued s j ∧ j ≠ id) never s.
Proof.
  intros Hi Hle (o & Ho & Hr). unfold prefetch_page, wanted. rewrite Ho.
  apply wp_bind, wp_assert; [by apply Nat.leb_le|]. apply wp_bind, (wp_obj _ o); [done|]. apply wp_bind, wp_get.
  pose proof (scheduled_queued _ _ _ _ _ _ Hi id) as Hsq. destruct (scheduled s id).
  - eapply wp_call; [by apply (wp_exclude pool_wf prio_ok queue_wf lc2pg G NL X R); [|apply Hsq]| |done].
    intros [] s' H. by apply wp_ret.
  - apply wp_ret. split; [done|]. split; [done|]. split; [done|]. intros j. split; [|by intros [? _]].
    intros Hq. split; [done|]. intros ->. by apply Hsq in Hq.
Qed.

Lemma wanted_same X R dst s s' i id :
  inv X R s → inv X R s' → quiet s s' → (∀ j, queued s' j ↔ queued s j ∧ j ≠ i) → id ≠ i → wanted dst s' id = wanted dst s id.
Proof.
  intros Hi Hi' Hqt Hq Hni. unfold wanted. rewrite (qt_pages _ _ Hqt). f_equal.
  - apply eq_true_iff_eq. rewrite (scheduled_queued _ _ _ _ _ _ Hi'), (scheduled_queued _ _ _ _ _ _ Hi), Hq. tauto.
  - destruct (sm_pages s !! id) as [o|]; [|done]. apply evictable_len.
    by rewrite (si_len _ _ _ _ _ _ _ _ _ Hi), (si_len _ _ _ _ _ _ _ _ _ Hi').
Qed.

Lemma prefetch_collect_ok X R dst items num sch s :
  inv X R s → prefetchable dst items s → length num = G →
  ∃ num' s', prefetch_collect dst items num sch s = (Ok num', sch ++ filter (λ id, wanted dst s id = true) items.*2, s') ∧
    inv X R s' ∧ quiet s s' ∧ (∀ j, queued s' j ↔ queued s j ∧ j ∉ items.*2) ∧ length num' = G ∧
    ∀ g n, num !! g = Some n → num' !! g = Some (n + num_away lc2pg dst s g items.*2).
Proof.
  revert num sch s. induction items as [|[[g lvl] id] items IH]; intros num sch s Hi [Hnd Hit] Hlen; cbn [prefetch_collect].
  { exists num, s. rewrite app_nil_r. split_and!; try done; [intros j; rewrite elem_of_nil; tauto|].
    intros g n ->. f_equal. unfold num_away. cbn. lia. }
  cbn in Hnd. apply NoDup_cons in Hnd as [Hni Hnd]. destruct (Hit g lvl id ltac:(left)) as (Hle & o & Ho & Hr).
  pose proof (prefetch_page_ok X R dst lvl g id s Hi Hle ltac:(by exists o)) as Hwp. unfold wp in Hwp.
  destruct (prefetch_page dst lvl id s) as [[b|e] s1]; [|done]. destruct Hwp as (-> & Hi1 & Hqt1 & Hq1).
  pose proof (qt_pages _ _ Hqt1) as Hp1. set (sch1 := if wanted dst s id then sch ++ [id] else sch).
  assert (Hit1 : prefetchable dst items s1).
  { split; [done|]. intros g' l' j Hj. rewrite Hp1. apply Hit. by right. }
  assert (Hend : ∀ num1, length num1 = G → (∀ h n, num !! h = Some n →
      num1 !! h = Some (n + if decide (away lc2pg dst s h id) then 1 else 0)) →
    ∃ num' s', prefetch_collect dst items num1 sch1 s1 = (Ok num', sch ++ filter (λ id, wanted dst s id = true) (id :: items.*2), s') ∧
      inv X R s' ∧ quiet s s' ∧ (∀ j, queued s' j ↔ queued s j ∧ j ∉ id :: items.*2) ∧ length num' = G ∧
      ∀ h n, num !! h = Some n → num' !! h = Some (n + num_away lc2pg dst s h (id :: items.*2))).
  { intros num1 Hl1 Hn1. destruct (IH num1 sch1 s1 Hi1 Hit1 Hl1) as (num' & s' & Hrun & Hi' & Hqt' & Hq' & Hl' & Hn').
    exists num', s'. split_and!; try done; [|by etrans| |].
    - rewrite Hrun. do 2 f_equal. rewrite filter_cons. unfold sch1.
      rewrite (list_filter_ext_in _ (λ j, wanted dst s j = true)); [by destruct (wanted dst s id); [rewrite <- app_assoc|]|].
      intros j Hj. rewrite (wanted_same X R dst s s1 id); try done. by intros ->.
    - intros j. rewrite Hq', Hq1, not_elem_of_cons. tauto.
    - intros h n Hn. rewrite (Hn' h _ (Hn1 h n Hn)), num_away_cons, (num_away_pages _ _ _ _ _ _ Hp1). f_equal. lia. }
  destruct Hr as [Hlv Hlc]. destruct (lvl =? dst)%nat eqn:Hd.
  - apply Nat.eqb_eq in Hd. apply Hend; [done|]. intros h n ->. rewrite decide_False; [f_equal; lia|].
    unfold away. rewrite Ho. intros [? _]. congruence.
  - apply Nat.eqb_neq in Hd. destruct (page_place _ _ _ _ _ _ Hi id o Ho) as (g' & _ & _ & _ & Hg & Hlc' & _).
    assert (g' = g) as -> by congruence. destruct (lookup_lt_is_Some_2 num g) as [n Hn]; [by rewrite Hlen|]. rewrite Hn.
    apply Hend; [by rewrite length_insert|]. intros h n' Hn'. destruct (decide (h = g)) as [->|Hne].
    + rewrite list_lookup_insert_eq by (by eapply lookup_lt_Some). rewrite decide_True; [congruence|]. unfold away. rewrite Ho.
      split; [congruence|done].
    + rewrite list_lookup_insert_ne, Hn' by done. rewrite decide_False; [f_equal; lia|]. unfold away. rewrite Ho.
      intros [_ Hg']. congruence.
Qed.

(** ** The moves *)

Lemma num_away_submseteq L s g l1 l2 : l1 ⊆+ l2 → num_away lc2pg L s g l1 ≤ num_away lc2pg L s g l2.
Proof. intros [k Hk]%submseteq_Permutation. rewrite (num_away_perm lc2pg L s g _ _ Hk), num_away_app. pose proof (num_away_nonneg lc2pg L s g k). lia. Qed.

(** The lists have one entry per pool group and level. *)
Definition well_shaped (pages : list (list (list Z))) : Prop := length pages = G ∧ Forall (λ ls, length ls = NL) pages.

Lemma wp_prefetch_moves X R dst pages s :
  inv X R s → (dst < NL)%nat → well_shaped pages → prefetchable dst (prefetch_items 0 pages) s →
  (∀ id, id ∈ (prefetch_items 0 pages).*2 → ¬ queued s id) →
  (∀ g, (g < G)%nat → num_away lc2pg dst s g (prefetch_items 0 pages).*2 ≤ free_at s dst g) →
  wp (prefetch_moves hem dst pages)
    (λ _ s', inv X R s' ∧ ∃ D, migrated lc2pg dst D R s s' ∧
       ∀ id, id ∈ D ↔ ∃ g lvl, (g, lvl, id) ∈ prefetch_items 0 pages ∧ lvl ≠ dst) never s.
Proof.
  intros Hi HL [HG Hsh] [Hnd Hit] Hnq Hroom. unfold prefetch_moves. apply wp_bind, wp_get.
  rewrite (si_len _ _ _ _ _ _ _ _ _ Hi). set (ts := prefetch_tasks dst NL 0 pages). set (ids_of_tasks := λ l : list (nat * nat * option (list Z)), concat (default [] <$> l.*2)).
  pose proof (tasks_sublist dst NL 0 pages Hsh) as Hsub. fold ts in Hsub.
  assert (Htask : ∀ g lvl x, (g, lvl, x) ∈ ts → ∃ ids, x = Some ids ∧ (dst < lvl < NL)%nat ∧ (g < G)%nat ∧ ∀ id, id ∈ ids → (g, lvl, id) ∈ prefetch_items 0 pages).
  { intros g lvl x (k & ls & Hk & -> & -> & Hl)%elem_of_prefetch_tasks. pose proof (lookup_lt_Some _ _ _ Hk) as Hlt.
    rewrite Forall_lookup in Hsh. destruct (lookup_lt_is_Some_2 ls lvl) as [ids Hids]; [rewrite (Hsh k ls Hk); lia|].
    exists ids. split; [done|]. split; [lia|]. split; [lia|]. intros id Hid. apply elem_of_items. eauto 10. }
  eapply (wp_mono _ (λ _ s', ∃ dn, ts = dn ++ [] ∧ inv X R s' ∧ migrated lc2pg dst (ids_of_tasks dn) R s s') _ never); [| |done].
  - apply (wp_for_each _ (λ rest s', ∃ dn, ts = dn ++ rest ∧ inv X R s' ∧ migrated lc2pg dst (ids_of_tasks dn) R s s')).
    + intros l1 [[g lvl] x] l2 s1 _ (dn & Hdn & Hi1 & Hm).
      destruct (Htask g lvl x) as (ids & -> & Hlvl & Hg & Hids); [rewrite Hdn; apply elem_of_app; right; left|].
      apply wp_bind, (wp_lift _ ids); [done|].
      assert (Hall : ids_of_tasks dn ++ ids ⊆+ (prefetch_items 0 pages).*2).
      { etrans; [|apply sublist_submseteq, Hsub]. rewrite Hdn. unfold ids_of_tasks. rewrite !fmap_app, concat_app. cbn.
        rewrite app_assoc. apply submseteq_inserts_r. done. }
      destruct (submseteq_Permutation _ _ Hall) as [more Hmore]. pose proof Hnd as Hnd1. rewrite Hmore in Hnd1.
      apply NoDup_app in Hnd1 as (Hnd1 & _ & _). apply NoDup_app in Hnd1 as (_ & Hdis & Hndi).
      assert (Hres : ∀ id, id ∈ ids → ∃ o, sm_pages s1 !! id = Some o ∧ resides lc2pg lvl g o ∧ ¬ queued s1 id).
      { intros id Hid. destruct (Hit g lvl id (Hids id Hid)) as (_ & o & Ho & Hr). exists o.
        rewrite (mg_other _ _ _ _ _ _ Hm), (mg_queued _ _ _ _ _ _ Hm); [|by intros ?; apply (Hdis id)].
        split_and!; try done. apply Hnq. by apply (list_elem_of_fmap_2 snd _ _ (Hids id Hid)). }
      assert (Hlen : num_away lc2pg dst s g ids = Z.of_nat (length ids)).
      { unfold num_away. do 2 f_equal. apply list_filter_all, Forall_forall. intros id Hid.
        destruct (Hit g lvl id (Hids id Hid)) as (_ & o & Ho & Hlv & Hlc). unfold away. rewrite Ho. split; [lia|done]. }
      pose proof (migrated_free pool_wf prio_ok queue_wf lc2pg G NL dst X R _ s s1 g Hi Hi1 HL Hg Hm) as Hfree.
      pose proof (num_away_submseteq dst s g _ _ Hall) as Hle. rewrite num_away_app in Hle. specialize (Hroom g Hg).
      eapply wp_call; [apply (wp_batched_migrate pool_wf prio_ok queue_wf lc2pg G NL hem X R g lvl dst ids _ s1); try done; lia| |done].
      intros _ s2 (_ & Hi2 & Hm2). apply wp_ret. exists (dn ++ [((g, lvl), Some ids)]). split; [by rewrite <- (assoc_L (++))|].
      split; [done|]. unfold ids_of_tasks. rewrite !fmap_app, concat_app. cbn. rewrite app_nil_r.
      by apply (migrated_trans lc2pg dst _ ids R s s1 s2).
    + exists []. split; [done|]. split; [done|]. apply migrated_nil.
  - intros [] s' (dn & Hdn & Hi' & Hm). rewrite app_nil_r in Hdn. subst dn. split; [done|]. exists (ids_of_tasks ts). split; [done|].
    intros id. unfold ids_of_tasks. rewrite elem_of_concat. split.
    + intros (k & l & Hl & Hid). apply list_lookup_fmap_Some in Hl as (x & -> & Hx). apply list_lookup_fmap_Some in Hx as ([[g lvl] y] & -> & Hy).
      apply list_elem_of_lookup_2 in Hy. destruct (Htask g lvl y Hy) as (ids & -> & Hlvl & _ & Hids). exists g, lvl. split; [by apply Hids|lia].
    + intros (g & lvl & Hin & Hne). pose proof (Hit g lvl id Hin) as (Hle & o & Ho & Hr). apply elem_of_items in Hin as (k & ls & ids & Hk & -> & Hl & Hid).
      assert (Hlt : (lvl < NL)%nat). { rewrite Forall_lookup in Hsh. rewrite <- (Hsh k ls Hk). by eapply lookup_lt_Some. }
      assert (Ht : (0 + k, lvl, ls !! lvl)%nat ∈ ts) by (apply elem_of_prefetch_tasks; exists k, ls; split_and!; (done || lia)).
      apply list_elem_of_lookup in Ht as [i Hti]. exists i, ids. rewrite !list_lookup_fmap, Hti, Hl. done.
Qed.

(** ** The [finally] clause *)

Lemma wp_schedule_all X R ids s :
  inv X R s → NoDup ids → (∀ id, id ∈ ids → id ∈ X ∧ ¬ queued s id ∧ is_Some (sm_pages s !! id)) →
  wp (for_each schedule_page ids)
    (λ _ s', inv X R s' ∧ quiet s s' ∧
       ∀ j, queued s' j ↔ queued s j ∨ (j ∈ ids ∧ ∃ o, sm_pages s !! j = Some o ∧ can_evict NL o)) never s.
Proof.
  intros Hi Hnd Hids. set (goes := λ j, ∃ o, sm_pages s !! j = Some o ∧ can_evict NL o).
  set (Inv := λ (rest : list Z) s', ∃ dn, ids = dn ++ rest ∧ inv X R s' ∧ quiet s s' ∧
    ∀ j, queued s' j ↔ queued s j ∨ (j ∈ dn ∧ goes j)).
  eapply (wp_mono _ (λ _ s', Inv [] s') _ never); [| |done]; last first.
  { intros [] s' (dn & Hdn & ?). rewrite app_nil_r in Hdn. by subst. }
  apply (wp_for_each _ Inv).
  - intros l1 id l2 s1 _ (dn & Hdn & Hi1 & Hqt & Hq1). assert (Hin : id ∈ ids) by (rewrite Hdn; apply elem_of_app; right; left).
    destruct (Hids id Hin) as (HX & Hnq & o & Ho). assert (Ho1 : sm_pages s1 !! id = Some o) by (by rewrite (qt_pages _ _ Hqt)).
    assert (Hni : id ∉ dn). { rewrite Hdn in Hnd. apply NoDup_app in Hnd as (_ & Hd & _). intros Hd'. apply (Hd id Hd'). left. }
    pose proof (can_evict_iff NL s1 o (si_len _ _ _ _ _ _ _ _ _ Hi1)) as Hce.
    unfold schedule_page. apply wp_bind, (wp_obj _ o); [done|]. apply wp_bind, wp_get. destruct (is_evictable s1 o None) eqn:He.
    + eapply wp_mono; [apply (wp_enqueue pool_wf prio_ok queue_wf lc2pg G NL X R id o s1 Hi1 Ho1); [|done|done]| |done].
      { rewrite Hq1. tauto. }
      intros [] s2 (Hi2 & Hqt2 & Hq2). exists (dn ++ [id]). split; [by rewrite <- (assoc_L (++))|]. split; [done|]. split; [by etrans|].
      intros j. rewrite Hq2, Hq1, elem_of_app, list_elem_of_singleton. split; [|intros [?|[[?| ->] ?]]; tauto].
      intros [[?|[? ?]]| ->]; [by left|right; tauto|]. right. split; [by right|]. exists o. split; [done|]. by apply Hce.
    + apply wp_ret. exists (dn ++ [id]). split; [by rewrite <- (assoc_L (++))|]. split; [done|]. split; [done|].
      intros j. rewrite Hq1, elem_of_app, list_elem_of_singleton. split; [tauto|]. intros [?|[[?| ->] (o' & Ho' & Hc)]]; [by left|right|exfalso].
      * split; [done|]. by exists o'.
      * assert (o' = o) as -> by congruence. apply Hce in Hc. congruence.
  - exists []. split; [done|]. split; [done|]. split; [done|]. intros j. rewrite elem_of_nil. tauto.
Qed.

(** ** The call *)

Record prefetched R (dst : nat) (ids : list Z) s s' : Prop := {
  pf_ok : storage_ok R s';
  pf_evolves : evolves lc2pg (queued_set s ∪ list_to_set ids) R s s';
  pf_there : ∀ id, id ∈ ids → ∃ o', sm_pages s' !! id = Some o' ∧ po_level o' = dst ∧ (queued s' id ↔ can_evict NL o');
  pf_stay : ∀ id o, sm_pages s !! id = Some o → ¬ queued s id → po_level o = dst → sm_pages s' !! id = Some o;
}.

Record prefetch_refused R (ids : list Z) s s' : Prop := {
  pr_ok : storage_ok R s';
  pr_pages : ∀ id, id ∈ ids → sm_pages s' !! id = sm_pages s !! id ∧ (queued s id → queued s' id);
  pr_alive : ∀ id o, sm_pages s !! id = Some o → po_status o ≠ DROPPABLE → sm_pages s' !! id = Some o;
  pr_sub : ∀ id o, sm_pages s' !! id = Some o → sm_pages s !! id = Some o;
  pr_mem : sm_mem s' = sm_mem s;
}.

Lemma wanted_queued X R dst s id o :
  inv X R s → sm_pages s !! id = Some o → queued s id → wanted dst s id = true.
Proof. intros Hi Ho Hq%(scheduled_queued _ _ _ _ _ _ Hi). unfold wanted. by rewrite Hq. Qed.

Lemma wanted_evictable X R dst s id o o' :
  inv X R s → sm_pages s !! id = Some o → same_page o o' → po_level o' = dst → can_evict NL o' → wanted dst s id = true.
Proof.
  intros Hi Ho (_ & _ & Hst & Hcm) Hl Hc. unfold wanted. rewrite Ho. apply orb_true_iff. right.
  unfold is_evictable. change (default (po_level o) (Some dst)) with dst. rewrite (si_len _ _ _ _ _ _ _ _ _ Hi), <- Hst, <- Hcm.
  destruct Hc as [[-> ->]|[-> Hlt]]; [done|]. rewrite Hl in Hlt. apply Nat.ltb_lt in Hlt. rewrite Hlt. apply orb_true_r.
Qed.

Lemma wp_prefetch_body R dst pages num s :
  storage_ok R s → (dst < NL)%nat → well_shaped pages → prefetchable dst (prefetch_items 0 pages) s →
  (∀ id, id ∈ (prefetch_items 0 pages).*2 → ¬ queued s id) → length num = G →
  (∀ g, (g < G)%nat → num !! g = Some (num_away lc2pg dst s g (prefetch_items 0 pages).*2)) →
  wp (prefetch_body lc2pg G hem dst num pages)
    (λ _ s', storage_ok R s' ∧ evolves lc2pg (queued_set s ∪ list_to_set (prefetch_items 0 pages).*2) R s s' ∧
       (∀ id, id ∈ (prefetch_items 0 pages).*2 → ∃ o', sm_pages s' !! id = Some o' ∧ po_level o' = dst) ∧
       (∀ id o, sm_pages s !! id = Some o → ¬ queued s id → po_level o = dst → sm_pages s' !! id = Some o) ∧
       ∀ j, queued s' j → queued s j)
    (λ _ s', given_up pool_wf prio_ok queue_wf lc2pg G NL R s s') s.
Proof.
  intros Hi HL Hsh [Hnd Hit] Hnq Hlen Hnum. unfold prefetch_body. set (items := prefetch_items 0 pages) in *.
  eapply wp_call; [apply (wp_prepare_free_slots pool_wf prio_ok queue_wf lc2pg G NL hem R _ dst num s Hi HL Hlen)| |]; last first.
  { intros e s' [_ ?]. done. }
  2: { apply Forall_lookup. intros g n Hn. pose proof (lookup_lt_Some _ _ _ Hn) as Hg. rewrite Hnum in Hn by lia. injection Hn as <-.
       apply num_away_nonneg. }
  intros [] s1 [Hok1 Hev1 Hfree1 _ Hq1 _].
  assert (Hsame : ∀ id, id ∈ items.*2 → sm_pages s1 !! id = sm_pages s !! id).
  { intros id Hin. apply (ev_same _ _ _ _ _ Hev1). rewrite elem_of_queued_set. by apply Hnq. }
  assert (Hitem : ∀ g lvl id, (g, lvl, id) ∈ items → id ∈ items.*2) by (intros g lvl id Hin; apply (list_elem_of_fmap_2 snd _ _ Hin)).
  eapply wp_mono; [apply (wp_prefetch_moves (queued_set s1) R dst pages s1 Hok1 HL Hsh)| |done].
  - split; [done|]. intros g lvl id Hin. rewrite (Hsame id) by (by eapply Hitem). by apply Hit.
  - intros id Hin Hq. apply (Hnq id Hin). auto.
  - intros g Hg. fold items. rewrite (num_away_same _ _ s) by done. by apply Hfree1, Hnum.
  - fold items. intros [] s2 (Hi2 & D & Hm & HD). split; [by eapply inv_storage_ok|]. split.
    { etrans; [eapply evolves_mono; [|exact Hev1]; apply union_subseteq_l|].
      apply (migrated_evolves lc2pg _ R dst D); [|done]. intros id (g & lvl & Hin & _)%HD. apply elem_of_union_r, elem_of_list_to_set. by eapply Hitem. }
    split; [|split; [|intros j Hj; apply Hq1; by apply (mg_queued _ _ _ _ _ _ Hm)]]; last first.
    { intros id o Ho Hq Hl. rewrite (mg_other _ _ _ _ _ _ Hm), (ev_same _ _ _ _ _ Hev1); [done|by rewrite elem_of_queued_set|].
      intros (g & lvl & Hin & Hne)%HD. destruct (Hit g lvl id Hin) as (_ & o' & Ho' & Hlv & _). congruence. }
    intros id ([[g lvl] id'] & -> & Hin)%list_elem_of_fmap. cbn [snd]. destruct (decide (lvl = dst)) as [->|Hne].
    + destruct (Hit g dst id' Hin) as (_ & o & Ho & Hlv & Hlc). rewrite (mg_other _ _ _ _ _ _ Hm).
      * rewrite (Hsame id') by (by eapply Hitem). by exists o.
      * intros (g' & lvl' & Hin' & Hne)%HD. destruct (Hit g' lvl' id' Hin') as (_ & o' & Ho' & Hlv' & _). congruence.
    + destruct (mg_moved _ _ _ _ _ _ Hm id') as (_ & o' & _ & Ho' & _ & Hl & _); [apply HD; eauto|]. eauto.
Qed.

(** What the [finally] clause makes of both outcomes: [s1] is the state after
    the first loop, [s2] the one after the [try] block. *)
Section outcome.
Context (X : gset Z) (R : nat → nat → gset Z) (dst : nat) (ids : list Z) (s s1 s2 s' : SM).
#[local] Abbreviation sch := (filter (λ id, wanted dst s id = true) ids).
Context (Hi : inv X R s) (Hi' : inv X R s') (Hqt1 : quiet s s1) (Hqt2 : quiet s2 s').
Context (Hq1 : ∀ j, queued s1 j ↔ queued s j ∧ j ∉ ids).
Context (Hq' : ∀ j, queued s' j ↔ queued s2 j ∨ (j ∈ sch ∧ ∃ o, sm_pages s2 !! j = Some o ∧ can_evict NL o)).
Context (Hq2 : ∀ j, queued s2 j → queued s1 j).

Lemma prefetch_done :
  evolves lc2pg (queued_set s1 ∪ list_to_set ids) R s1 s2 →
  (∀ id, id ∈ ids → ∃ o', sm_pages s2 !! id = Some o' ∧ po_level o' = dst) →
  (∀ id o, sm_pages s1 !! id = Some o → ¬ queued s1 id → po_level o = dst → sm_pages s2 !! id = Some o) →
  prefetched R dst ids s s'.
Proof.
  intros Hev Hthere Hstay. pose proof (qt_pages _ _ Hqt1) as Hp1. pose proof (qt_pages _ _ Hqt2) as Hp2. split.
  - by eapply inv_storage_ok.
  - etrans; [by apply (quiet_evolves lc2pg _ R s s1)|]. etrans; [|by apply (quiet_evolves lc2pg _ R s2 s')].
    eapply evolves_mono; [|exact Hev]. apply union_mono_r. intros j. rewrite !elem_of_queued_set, Hq1. tauto.
  - intros id Hid. destruct (Hthere id Hid) as (o' & Ho' & Hl). exists o'. rewrite Hp2. split; [done|]. split; [done|].
    rewrite Hq'. split.
    + intros [Hq|(_ & o & Ho & ?)]; [|congruence]. by apply Hq2, Hq1 in Hq as [_ ?].
    + intros Hc. right. split; [|eauto]. destruct (ev_pages _ _ _ _ _ Hev id o' Ho') as (o & Ho & Hs & _). rewrite Hp1 in Ho.
      apply list_elem_of_filter. split; [|done]. by apply (wanted_evictable X R dst s id o o').
  - intros id o Ho Hnq Hl. rewrite Hp2. apply Hstay; [by rewrite Hp1|rewrite Hq1; tauto|done].
Qed.

Lemma prefetch_undone : given_up pool_wf prio_ok queue_wf lc2pg G NL R s1 s2 →
  (∀ id, id ∈ ids → is_Some (sm_pages s !! id)) → prefetch_refused R ids s s'.
Proof.
  intros [G1 G2 G3 G4 G5 _] Halive. pose proof (qt_pages _ _ Hqt1) as Hp1. pose proof (qt_pages _ _ Hqt2) as Hp2.
  assert (Hkeep : ∀ id, id ∈ ids → sm_pages s2 !! id = sm_pages s !! id).
  { intros id Hid. destruct (Halive id Hid) as [o Ho]. rewrite Ho. apply G3; [by rewrite Hp1|]. left. rewrite Hq1. tauto. }
  split.
  - by eapply inv_storage_ok.
  - intros id Hid. rewrite Hp2. split; [by apply Hkeep|]. intros Hq. apply Hq'. right.
    destruct (queued_page _ _ _ _ _ _ Hi id Hq) as (_ & o & _ & Ho & He & _). split.
    + apply list_elem_of_filter. split; [|done]. by apply (wanted_queued X R dst s id o).
    + exists o. rewrite (Hkeep id Hid). split; [done|]. by apply (can_evict_iff NL s); [apply (si_len _ _ _ _ _ _ _ _ _ Hi)|].
  - intros id o Ho Hst. rewrite Hp2. apply G3; [by rewrite Hp1|by right].
  - intros id o. rewrite Hp2. intros Ho%G2. by rewrite <- Hp1.
  - by rewrite (qt_mem _ _ Hqt2), G5, (qt_mem _ _ Hqt1).
Qed.
End outcome.

Lemma wp_prefetch R dst pages s :
  storage_ok R s → (dst < NL)%nat → well_shaped pages → prefetchable dst (prefetch_items 0 pages) s →
  wp (prefetch lc2pg G hem dst pages)
    (λ _ s', prefetched R dst (prefetch_items 0 pages).*2 s s')
    (λ _ s', prefetch_refused R (prefetch_items 0 pages).*2 s s') s.
Proof.
  intros Hi HL Hsh Hpf. set (items := prefetch_items 0 pages) in *. pose proof Hpf as [Hnd Hit].
  set (X := queued_set s ∪ list_to_set items.*2).
  assert (HX : ∀ s', (∀ j, queued s' j → queued s j ∨ j ∈ items.*2) → storage_ok R s' → inv X R s').
  { intros s' Hq Hok. eapply inv_touch; [done|]. intros j Hj. apply elem_of_union. rewrite elem_of_queued_set, elem_of_list_to_set. auto. }
  assert (HiX : inv X R s) by (apply HX; auto).
  destruct (prefetch_collect_ok X R dst items (replicate G 0) [] s HiX Hpf (length_replicate _ _))
    as (num & s1 & Hrun & Hi1 & Hqt1 & Hq1 & Hl1 & Hn1). cbn [app] in Hrun. set (sch := filter _ items.*2) in Hrun.
  pose proof (qt_pages _ _ Hqt1) as Hp1. pose proof (inv_storage_ok _ _ _ _ _ _ _ _ _ Hi1) as Hok1.
  assert (Hnum : ∀ g, (g < G)%nat → num !! g = Some (num_away lc2pg dst s1 g items.*2)).
  { intros g Hg. rewrite (Hn1 g 0) by (by apply lookup_replicate_2). by rewrite (num_away_pages _ _ _ _ _ _ Hp1). }
  assert (Hsch : ∀ id, id ∈ sch → id ∈ items.*2) by (intros id [_ ?]%list_elem_of_filter; done).
  assert (Hfin : ∀ s2, inv X R s2 → (∀ id, id ∈ items.*2 → ¬ queued s2 id ∧ is_Some (sm_pages s2 !! id)) →
    wp (for_each schedule_page sch) (λ _ s', inv X R s' ∧ quiet s2 s' ∧
       ∀ j, queued s' j ↔ queued s2 j ∨ (j ∈ sch ∧ ∃ o, sm_pages s2 !! j = Some o ∧ can_evict NL o)) never s2).
  { intros s2 Hi2 H2. apply (wp_schedule_all X R sch s2 Hi2); [by apply NoDup_filter|]. intros id Hid%Hsch.
    destruct (H2 id Hid). split; [|done]. apply elem_of_union_r. by apply elem_of_list_to_set. }
  assert (Hpf1 : prefetchable dst items s1) by (split; [done|]; intros g lvl id Hin; rewrite Hp1; by apply Hit).
  assert (Hnq1 : ∀ id, id ∈ items.*2 → ¬ queued s1 id) by (intros id Hin; rewrite Hq1; tauto).
  assert (Halive : ∀ id, id ∈ items.*2 → is_Some (sm_pages s !! id)).
  { intros id ([[g lvl] j] & -> & Hin)%list_elem_of_fmap. destruct (Hit g lvl j Hin) as (_ & o & Ho & _). by exists o. }
  pose proof (wp_prefetch_body R dst pages num s1 Hok1 HL Hsh Hpf1 Hnq1 Hl1 Hnum) as Hbody.
  unfold wp, prefetch in *. fold items. rewrite Hrun.
  destruct (prefetch_body lc2pg G hem dst num pages s1) as [[[]|e] s2].
  - destruct Hbody as (Hok2 & Hev2 & Hthere & Hstay & Hq2).
    assert (Hi2 : inv X R s2) by (apply HX; [|done]; intros j ?%Hq2%Hq1; tauto).
    assert (Hkeep : ∀ id, id ∈ items.*2 → ¬ queued s2 id ∧ is_Some (sm_pages s2 !! id)).
    { intros id Hid. split; [intros ?%Hq2; by apply (Hnq1 id)|]. destruct (Hthere id Hid) as (o' & -> & _). eauto. }
    specialize (Hfin s2 Hi2 Hkeep). destruct (for_each schedule_page sch s2) as [[[]|e'] s']; [|done].
    destruct Hfin as (Hi' & Hqt' & Hq'). by apply (prefetch_done X R dst items.*2 s s1 s2 s').
  - assert (Hi2 : inv X R s2) by (apply HX; [|apply Hbody]; intros j ?%(gu_queued _ _ _ _ _ _ _ _ _ Hbody)%Hq1; tauto).
    assert (Hkeep : ∀ id, id ∈ items.*2 → ¬ queued s2 id ∧ is_Some (sm_pages s2 !! id)).
    { intros id Hid. split; [intros ?%(gu_queued _ _ _ _ _ _ _ _ _ Hbody); by apply (Hnq1 id)|]. destruct (Halive id Hid) as [o Ho].
      exists o. apply (gu_kept _ _ _ _ _ _ _ _ _ Hbody); [by rewrite Hp1|]. left. by apply Hnq1. }
    specialize (Hfin s2 Hi2 Hkeep). destruct (for_each schedule_page sch s2) as [[[]|e'] s']; [|done].
    destruct Hfin as (Hi' & Hqt' & Hq'). apply (prefetch_undone X R dst items.*2 s s1 s2 s'); try done.
Qed.

(** C32: [prefetch] brings the pages up with their contents and queues those
    that may be evicted there; when it raises, the pages are where they were
    and wait for eviction if they did, and no content has changed. *)
Theorem prefetch_spec R dst pages s :
  storage_ok R s → (dst < NL)%nat → well_shaped pages → prefetchable dst (prefetch_items 0 pages) s →
  match prefetch lc2pg G hem dst pages s with
  | (Ok _, s') => prefetched R dst (prefetch_items 0 pages).*2 s s'
  | (Raise _, s') => prefetch_refused R (prefetch_items 0 pages).*2 s s'
  end.
Proof.
  intros Hi HL Hsh Hpf. pose proof (wp_prefetch R dst pages s Hi HL Hsh Hpf) as Hwp. unfold wp in Hwp.
  by destruct (prefetch _ _ _ _ _ s) as [[[]|e] s'].
Qed.
End storage_prefetch.
