(* ===== verification/StorageReach.v ===== *)
(** * The calls in sequence

    [call]: one call on pages or on the storage manager, whatever its outcome,
    with the slots in the hands of the callers before and after it.  Any
    sequence of calls keeps pages, references, slots and queues consistent,
    keeps held pages alive and locked pages in place. *)

From S2P Require Import Prelude CacheKey RadixTree KvUtils SlotAllocator Eviction Wp StorageIface Storage StorageInv.
From S2P Require Import StorageDrop StorageMove StorageRoom StorageFree StoragePrepare StorageProps StorageSlots StoragePages StorageHold StorageLock StorageBatch StoragePrefetch.

Local Open Scope Z_scope.

Section storage_reach.
Context {P C T V : Type} `{!SlotPool P, !EvictQueue C, !BlockTree T}.
Context (pool_wf : P → Prop) `{!SlotPoolSpec P pool_wf}.
Context (prio_ok : Z → Prop) (queue_wf : list nat → nat → nat → C → Prop).
Context `{!EvictQueueSpec C prio_ok queue_wf}.
Context (lc2pg : list nat) (G NL : nat) (hem : bool).
#[local] Abbreviation SM := (StorageManager P C T V).
#[local] Abbreviation PM := (PageManager P C T V).
#[local] Abbreviation inv := (st_inv pool_wf prio_ok queue_wf lc2pg G NL).
#[local] Abbreviation storage_ok := (storage_ok pool_wf prio_ok queue_wf lc2pg G NL).
#[local] Abbreviation pages_ok := (pages_ok pool_wf prio_ok queue_wf lc2pg G NL).
#[local] Abbreviation alike := (alike lc2pg).
#[local] Abbreviation never := (λ _ _, False).
Implicit Types (s : SM) (t : PM) (o : PageObj) (id : Z) (X : gset Z) (R : nat → nat → gset Z).

(** A slot given back. *)
Lemma wp_release_slot X R lc L slot g i s :
  inv X R s → lc2pg !! lc = Some g → (L < NL)%nat → (g < G)%nat → _slot_id slot = Some i → i ∈ R L g →
  wp (release_slot lc2pg lc L slot)
    (λ _ s', inv X (upd R L g (λ A, A ∖ {[ i ]})) s' ∧ evolves lc2pg ∅ R s s' ∧ sm_pages s' = sm_pages s) never s.
Proof.
  intros Hi Hlc HL Hg Hs Hin. destruct (si_pools _ _ _ _ _ _ _ _ _ Hi L g HL Hg) as (p & Hp & Hwf).
  assert (Hocc : i ∈ pool_occupied p) by (apply (si_occ _ _ _ _ _ _ _ _ _ Hi L g p i Hg Hp); by left).
  destruct (pool_release_ok p slot i Hwf Hs Hocc) as (p' & Hrun & Hwf' & Ho' & Hcap).
  unfold release_slot, get_pool_group_index. apply wp_bind, (wp_lift _ g); [by rewrite Hlc|].
  apply (wp_with_pool _ _ _ p); [done|]. rewrite Hrun.
  assert (HR : ∀ L' g' j, j ∈ upd R L g (λ A, A ∖ {[ i ]}) L' g' ↔ j ∈ R L' g' ∧ (L', g', j) ≠ (L, g, i)).
  { intros L' g' j. unfold upd. case_decide as Hd; [destruct Hd as [-> ->]; set_solver|]. naive_solver. }
  assert (Hi' : inv X (upd R L g (λ A, A ∖ {[ i ]})) (with_objs (set_pool L g p' s) (sm_pages s))).
  { apply (inv_set_pool pool_wf prio_ok queue_wf lc2pg G NL X R _ s L g p p'); try done.
    - intros id o Ho. destruct (si_pages _ _ _ _ _ _ _ _ _ Hi id o Ho) as (Hpr & L2 & g2 & i2 & Hpl & ? & ?). split; [done|].
      exists L2, g2, i2. split_and!; try done. rewrite HR. intros [Hr _]. by apply (si_raw _ _ _ _ _ _ _ _ _ Hi id o L2 g2 i2).
    - apply (si_inj _ _ _ _ _ _ _ _ _ Hi).
    - intros L' g' p2 j Hg' Hp2. rewrite HR. case_decide as Hd.
      + destruct Hd as [-> ->]. injection Hp2 as <-. rewrite Ho', elem_of_difference, elem_of_singleton.
        rewrite (si_occ _ _ _ _ _ _ _ _ _ Hi L g p j Hg Hp). split; [naive_solver|]. intros [[? ?]|(id & o & Ho & Hpl)]; [naive_solver|].
        split; [eauto|]. intros ->. by apply (si_raw _ _ _ _ _ _ _ _ _ Hi id o L g i).
      + rewrite (si_occ _ _ _ _ _ _ _ _ _ Hi L' g' p2 j Hg' Hp2). naive_solver. }
  split; [by destruct s|]. split; [|done]. split; try done.
  - intros L' g'. by apply (cap_set_pool L g p' p s).
  - intros id o Ho. exists o. done.
Qed.

(** ** Held pages are alive *)

Definition held_alive t : Prop := ∀ id r, pm_refs t !! id = Some r → status_of r ≠ DROPPABLE →
  is_Some (sm_pages (pm_storage t) !! id).

Record pages_inv R t : Prop := {
  pi_ok : pages_ok R t;
  pi_alive : held_alive t;
}.

Lemma held_page R t id r :
  pages_inv R t → pm_refs t !! id = Some r → status_of r ≠ DROPPABLE →
  ∃ o, sm_pages (pm_storage t) !! id = Some o ∧ po_status o = status_of r ∧ (status_of r = LOCKED → po_level o = 0%nat).
Proof.
  intros [[_ Hrefs] Ha] Hr Hst. destruct (Ha id r Hr Hst) as [o Ho]. destruct (Hrefs id o Ho) as (r' & Hr' & ?).
  exists o. assert (r' = r) as -> by congruence. done.
Qed.

Lemma alive_touched t id o' s' r' :
  held_alive t → touched id o' (pm_storage t) s' → held_alive (mkPM s' (<[id := r']> (pm_refs t))).
Proof.
  intros Ha [Hp _ _ _] j r. cbn. rewrite Hp. destruct (decide (j = id)) as [->|Hne]; [rewrite !lookup_insert_eq; eauto|].
  rewrite !lookup_insert_ne by done. apply Ha.
Qed.

Lemma alive_let_go R keep t id o s' :
  pages_inv R t → let_go keep id o (pm_storage t) s' → held_alive (mkPM s' (<[id := mkRefs 0 0]> (pm_refs t))).
Proof.
  intros Hinv Hlg j r. cbn. destruct (decide (j = id)) as [->|Hne]; [rewrite lookup_insert_eq; intros [= <-] []; done|].
  rewrite lookup_insert_ne by done. intros Hr Hst. destruct (held_page R t j r Hinv Hr Hst) as (o' & Ho' & Hst' & _).
  exists o'. apply (lg_other _ _ _ _ _ Hlg); [done|done|]. right. congruence.
Qed.

(** A call on the storage manager that moves only pages waiting for eviction. *)
Lemma pages_evolves R R' t s' :
  pages_inv R t → storage_ok R' s' → evolves lc2pg (queued_set (pm_storage t)) R (pm_storage t) s' →
  pages_inv R' (mkPM s' (pm_refs t)).
Proof.
  intros Hinv Hok' Hev. pose proof Hinv as [[Hi Hrefs] Ha]. split; [split; [done|]|].
  - apply refs_evolves; [done|]. intros id o' Ho'. destruct (ev_pages _ _ _ _ _ Hev id o' Ho') as (o & Ho & (_ & _ & Hst & _) & _).
    exists o. split; [done|]. split; [done|]. intros Hlk. left. rewrite (ev_same _ _ _ _ _ Hev) in Ho'; [congruence|].
    rewrite elem_of_queued_set. by apply (locked_not_queued _ _ _ _ _ _ _ _ _ _ _ Hi Ho Hlk).
  - intros id r Hr Hst. destruct (held_page R t id r Hinv Hr Hst) as (o & Ho & Hst' & _).
    apply (ev_alive _ _ _ _ _ Hev id o Ho). congruence.
Qed.

(** ** Calls *)

(** [call (R, t) (R', t')].  The caller has a slot it turns into a page or
    gives back, a page it holds or locks, a reference it lets go. *)
Inductive call : (nat → nat → gset Z) * PM → (nat → nat → gset Z) * PM → Prop :=
  | call_new_slots R t rec level nums ret ids s' :
      (level < NL)%nat → length nums = length lc2pg → Forall (λ n, 0 ≤ n) nums →
      new_slots lc2pg G hem rec level nums (pm_storage t) = (Ok ret, s') →
      Forall2 (λ slots js, _slot_id <$> slots = Some <$> js) ret ids →
      call (R, t) (add_slots R level (zip lc2pg ids), mkPM s' (pm_refs t))
  | call_new_slots_fails R t rec level nums e s' :
      (level < NL)%nat → length nums = length lc2pg → Forall (λ n, 0 ≤ n) nums →
      new_slots lc2pg G hem rec level nums (pm_storage t) = (Raise e, s') →
      call (R, t) (R, mkPM s' (pm_refs t))
  | call_release_slot R t lc L slot g i x s' :
      lc2pg !! lc = Some g → (L < NL)%nat → _slot_id slot = Some i → i ∈ R L g →
      release_slot lc2pg lc L slot (pm_storage t) = (Ok x, s') →
      call (R, t) (upd R L g (λ A, A ∖ {[ i ]}), mkPM s' (pm_refs t))
  | call_page_init R t id lc L prio committed slot g i x t' :
      sm_pages (pm_storage t) !! id = None → prio_ok prio → lc2pg !! lc = Some g → (L < NL)%nat →
      _slot_id slot = Some i → i ∈ R L g →
      page_init id lc L prio committed slot t = (Ok x, t') →
      call (R, t) (upd R L g (λ A, A ∖ {[ i ]}), t')
  | call_hold R t id r t' :
      is_Some (sm_pages (pm_storage t) !! id) → hold id t = (r, t') → call (R, t) (R, t')
  | call_release_holder R t keep id c r t' :
      pm_refs t !! id = Some c → (0 < holders c)%nat → release_holder lc2pg keep id t = (r, t') → call (R, t) (R, t')
  | call_lock R t id o r t' :
      sm_pages (pm_storage t) !! id = Some o → po_level o = 0%nat → page_lock lc2pg id t = (r, t') → call (R, t) (R, t')
  | call_unlock R t keep ev id c r t' :
      pm_refs t !! id = Some c → (0 < locks c)%nat → unlock lc2pg keep ev id t = (r, t') → call (R, t) (R, t')
  | call_batched_lock R t rec ids r t' :
      NoDup ids → (∀ id, id ∈ ids → is_Some (sm_pages (pm_storage t) !! id)) →
      batched_lock_to_gpu lc2pg G hem rec ids t = (r, t') → call (R, t) (R, t')
  | call_prepare_free_slots R t rec level req r s' :
      (level < NL)%nat → length req = G → Forall (λ n, 0 ≤ n) req →
      prepare_free_slots lc2pg G hem rec level req (pm_storage t) = (r, s') → call (R, t) (R, mkPM s' (pm_refs t))
  | call_force_evict R t rec level counts r s' :
      (level < NL)%nat → length counts = G →
      force_evict lc2pg G hem rec level counts (pm_storage t) = (r, s') → call (R, t) (R, mkPM s' (pm_refs t))
  | call_prefetch R t dst pages r s' :
      (dst < NL)%nat → well_shaped G NL pages → prefetchable lc2pg dst (prefetch_items 0 pages) (pm_storage t) →
      prefetch lc2pg G hem dst pages (pm_storage t) = (r, s') → call (R, t) (R, mkPM s' (pm_refs t)).

Lemma inv_touched_call R t id o r t' :
  pages_inv R t → pages_ok R t' → pm_refs t' = <[id := r]> (pm_refs t) →
  touched id o (pm_storage t) (pm_storage t') → pages_inv R t'.
Proof. intros Hinv Hok Hr Ht. split; [done|]. destruct t' as [s' rs]. cbn in *. subst rs. by eapply alive_touched, Ht; apply Hinv. Qed.

Lemma inv_same_call R t id r t' c :
  pages_inv R t → pages_ok R t' → pm_refs t !! id = Some r → status_of r ≠ DROPPABLE →
  pm_refs t' = <[id := c]> (pm_refs t) → pm_storage t' = pm_storage t → pages_inv R t'.
Proof.
  intros Hinv Hok Hr Hst Hr' Hs. destruct (held_page R t id r Hinv Hr Hst) as (o & Ho & _).
  apply (inv_touched_call R t id o c t'); try done. rewrite Hs. by apply touched_refl.
Qed.

Lemma inv_let_go_call R keep t id o t' :
  pages_inv R t → pages_ok R t' → pm_refs t' = <[id := mkRefs 0 0]> (pm_refs t) →
  let_go keep id o (pm_storage t) (pm_storage t') → pages_inv R t'.
Proof. intros Hinv Hok Hr Hlg. split; [done|]. destruct t' as [s' rs]. cbn in *. subst rs. by eapply alive_let_go. Qed.

Lemma release_holder_inv R keep id c r t t' :
  pages_inv R t → pm_refs t !! id = Some c → (0 < holders c)%nat → release_holder lc2pg keep id t = (r, t') → pages_inv R t'.
Proof.
  intros Hinv Hc Hpos Hrun. assert (Hst : status_of c ≠ DROPPABLE) by (destruct c as [[|h] [|k]]; cbn in *; (done || lia)).
  destruct (held_page R t id c Hinv Hc Hst) as (o & Ho & _).
  pose proof (wp_release_holder pool_wf prio_ok queue_wf lc2pg G NL R keep id o c t (pi_ok _ _ Hinv) Ho Hc Hpos) as Hwp.
  unfold wp in Hwp. rewrite Hrun in Hwp. destruct r as [[]|e]; [|done]. destruct Hwp as (Hok' & Hr' & Hs').
  destruct ((holders c =? 1)%nat && (locks c =? 0)%nat) eqn:Hb; [|by eapply inv_same_call].
  apply andb_prop in Hb as [H1%Nat.eqb_eq H2%Nat.eqb_eq]. rewrite H1, H2 in Hr'. by eapply inv_let_go_call.
Qed.

Lemma unlock_inv R keep ev id c r t t' :
  pages_inv R t → pm_refs t !! id = Some c → (0 < locks c)%nat → unlock lc2pg keep ev id t = (r, t') → pages_inv R t'.
Proof.
  intros Hinv Hc Hpos Hrun. assert (Hst : status_of c ≠ DROPPABLE) by (destruct c as [[|h] [|k]]; cbn in *; (done || lia)).
  destruct (held_page R t id c Hinv Hc Hst) as (o & Ho & _).
  pose proof (wp_unlock pool_wf prio_ok queue_wf lc2pg G NL R keep ev id o c t (pi_ok _ _ Hinv) Ho Hc Hpos) as Hwp.
  unfold wp in Hwp. rewrite Hrun in Hwp. destruct r as [[]|e]; [|done]. destruct Hwp as (Hok' & Hr' & Hs').
  destruct (locks c =? 1)%nat eqn:Hk; [|by eapply inv_same_call]. apply Nat.eqb_eq in Hk. rewrite Hk in Hr'.
  destruct (holders c =? 0)%nat eqn:Hh; [apply Nat.eqb_eq in Hh; rewrite Hh in Hr'; by eapply inv_let_go_call|].
  by eapply inv_touched_call, Hs'.
Qed.

Lemma batched_lock_inv R rec ids r t t' :
  pages_inv R t → (0 < NL)%nat → NoDup ids → (∀ id, id ∈ ids → is_Some (sm_pages (pm_storage t) !! id)) →
  batched_lock_to_gpu lc2pg G hem rec ids t = (r, t') → pages_inv R t'.
Proof.
  intros Hinv HNL Hnd Hids Hrun.
  pose proof (wp_batched_lock_to_gpu pool_wf prio_ok queue_wf lc2pg G NL hem R rec ids t (pi_ok _ _ Hinv) HNL Hnd Hids) as Hwp.
  unfold wp in Hwp. rewrite Hrun in Hwp. destruct r as [[]|e].
  - destruct Hwp as [B1 B2 B3 B4 _]. split; [done|]. intros id r Hr Hst. destruct (decide (id ∈ ids)) as [Hin|Hni].
    + destruct (B2 id Hin) as (_ & _ & o' & _ & _ & -> & _). eauto.
    + rewrite B3 in Hr by done. destruct (held_page R t id r Hinv Hr Hst) as (o & Ho & Hst' & _).
      destruct (B4 id o Ho) as (o' & -> & _); [congruence|eauto].
  - destruct Hwp as [B1 B2 _ _ B5]. split; [done|]. intros id r Hr Hst. rewrite B2 in Hr.
    destruct (held_page R t id r Hinv Hr Hst) as (o & Ho & Hst' & _). rewrite (B5 id o Ho); [eauto|congruence].
Qed.

Lemma slot_ids_unique (ret : list (list Slot)) (ids ids' : list (list Z)) :
  Forall2 (λ slots js, _slot_id <$> slots = Some <$> js) ret ids →
  Forall2 (λ slots js, _slot_id <$> slots = Some <$> js) ret ids' → ids = ids'.
Proof.
  intros H. revert ids'. induction H as [|slots js ret ids Hx H IH]; intros ids' H'; inversion H'; subst; [done|].
  f_equal; [|by apply IH]. apply (inj (fmap Some)). congruence.
Qed.

(** What each kind of call does to the storage. *)
Definition storage_call R R' t t' : Prop :=
  pm_refs t' = pm_refs t ∧ storage_ok R' (pm_storage t') ∧
  evolves lc2pg (queued_set (pm_storage t)) R (pm_storage t) (pm_storage t').

Lemma storage_call_inv R R' t t' : pages_inv R t → storage_call R R' t t' → pages_inv R' t'.
Proof. destruct t' as [s' rs]. intros Hinv (Hr & Hok & Hev). cbn in *. subst rs. by apply (pages_evolves R). Qed.

Lemma new_slots_call R t rec level nums r s' :
  Forall (λ g, (g < G)%nat) lc2pg → storage_ok R (pm_storage t) → (level < NL)%nat → length nums = length lc2pg →
  Forall (λ n, 0 ≤ n) nums → new_slots lc2pg G hem rec level nums (pm_storage t) = (r, s') →
  match r with
  | Ok ret => ∀ ids, Forall2 (λ slots js, _slot_id <$> slots = Some <$> js) ret ids →
      storage_call R (add_slots R level (zip lc2pg ids)) t (mkPM s' (pm_refs t))
  | Raise _ => storage_call R R t (mkPM s' (pm_refs t))
  end.
Proof.
  intros Hlc Hi HL Hlen Hpos Hrun.
  pose proof (wp_new_slots pool_wf prio_ok queue_wf lc2pg G NL hem R rec level nums (pm_storage t) Hi HL Hlc Hlen Hpos) as Hwp.
  unfold wp in Hwp. rewrite Hrun in Hwp. destruct r as [ret|e].
  - destruct Hwp as (ids' & [S1 _ _ S4 S5]). intros ids Hids. rewrite (slot_ids_unique ret ids ids') by done. done.
  - destruct Hwp as [_ Hgu]. split; [done|]. split; [apply Hgu|]. by apply (given_up_evolves pool_wf prio_ok queue_wf lc2pg G NL).
Qed.

Lemma prepare_call R t rec level req r s' :
  storage_ok R (pm_storage t) → (level < NL)%nat → length req = G → Forall (λ n, 0 ≤ n) req →
  prepare_free_slots lc2pg G hem rec level req (pm_storage t) = (r, s') → storage_call R R t (mkPM s' (pm_refs t)).
Proof.
  intros Hi HL Hlen Hpos Hrun.
  pose proof (wp_prepare_free_slots pool_wf prio_ok queue_wf lc2pg G NL hem R rec level req _ Hi HL Hlen Hpos) as Hwp.
  unfold wp in Hwp. rewrite Hrun in Hwp. split; [done|]. destruct r as [[]|e]; [by destruct Hwp|].
  destruct Hwp as [_ Hgu]. split; [apply Hgu|]. by apply (given_up_evolves pool_wf prio_ok queue_wf lc2pg G NL).
Qed.

Lemma force_evict_call R t rec level counts r s' :
  storage_ok R (pm_storage t) → (level < NL)%nat → length counts = G →
  force_evict lc2pg G hem rec level counts (pm_storage t) = (r, s') → storage_call R R t (mkPM s' (pm_refs t)).
Proof.
  intros Hi HL Hlen Hrun. pose proof (wp_force_evict pool_wf prio_ok queue_wf lc2pg G NL hem R rec level counts _ Hi HL Hlen) as Hwp.
  unfold wp in Hwp. rewrite Hrun in Hwp. split; [done|]. destruct r as [[]|e]; [by destruct Hwp|].
  destruct Hwp as [_ Hgu]. split; [apply Hgu|]. by apply (given_up_evolves pool_wf prio_ok queue_wf lc2pg G NL).
Qed.

Lemma release_slot_call R t lc L slot g i x s' :
  Forall (λ g, (g < G)%nat) lc2pg → storage_ok R (pm_storage t) → lc2pg !! lc = Some g → (L < NL)%nat →
  _slot_id slot = Some i → i ∈ R L g → release_slot lc2pg lc L slot (pm_storage t) = (Ok x, s') →
  storage_call R (upd R L g (λ A, A ∖ {[ i ]})) t (mkPM s' (pm_refs t)).
Proof.
  intros Hlcs Hi Hlc HL Hs Hin Hrun. assert (Hg : (g < G)%nat) by apply (Forall_lookup_1 _ _ _ _ Hlcs Hlc).
  pose proof (wp_release_slot _ R lc L slot g i _ Hi Hlc HL Hg Hs Hin) as Hwp. unfold wp in Hwp. rewrite Hrun in Hwp.
  destruct Hwp as (Hi' & Hev & _). split; [done|]. split; [by eapply inv_storage_ok|].
  eapply evolves_mono; [|done]. apply empty_subseteq.
Qed.

Lemma prefetch_inv R dst pages r t s' :
  pages_inv R t → (dst < NL)%nat → well_shaped G NL pages → prefetchable lc2pg dst (prefetch_items 0 pages) (pm_storage t) →
  prefetch lc2pg G hem dst pages (pm_storage t) = (r, s') → pages_inv R (mkPM s' (pm_refs t)).
Proof.
  intros Hinv HL Hsh Hpf Hrun. pose proof Hinv as [[Hi Hrefs] _].
  pose proof (wp_prefetch pool_wf prio_ok queue_wf lc2pg G NL hem R dst pages (pm_storage t) Hi HL Hsh Hpf) as Hwp.
  unfold wp in Hwp. rewrite Hrun in Hwp. destruct r as [[]|e].
  - destruct Hwp as [F1 F2 F3 F4]. split; [split; [done|]|].
    + apply refs_evolves; [done|]. intros id o' Ho'. destruct (ev_pages _ _ _ _ _ F2 id o' Ho') as (o & Ho & (_ & _ & Hst & _) & _).
      exists o. split; [done|]. split; [done|]. intros Hlk. left. destruct (Hrefs id o Ho) as (c & _ & Hc & Hlv).
      specialize (Hlv ltac:(congruence)). pose proof (locked_not_queued _ _ _ _ _ _ _ _ _ _ _ Hi Ho Hlk) as Hnq.
      destruct (decide (id ∈ (prefetch_items 0 pages).*2)) as [Hin|Hni]; last first.
      { rewrite (ev_same _ _ _ _ _ F2) in Ho'; [congruence|]. rewrite elem_of_union, elem_of_queued_set, elem_of_list_to_set. tauto. }
      apply list_elem_of_fmap in Hin as ([[g lvl] j] & -> & Hin). destruct (proj2 Hpf g lvl j Hin) as (Hle & o2 & Ho2 & Hl2 & _).
      cbn [snd] in *. assert (o2 = o) as -> by congruence. rewrite (F4 j o Ho Hnq) in Ho' by lia. congruence.
    + intros id c Hc Hst. destruct (held_page R t id c Hinv Hc Hst) as (o & Ho & Hst' & _).
      apply (ev_alive _ _ _ _ _ F2 id o Ho). congruence.
  - destruct Hwp as [F1 _ F3 F4 _]. split; [split; [done|]|].
    + apply (refs_sub (pm_storage t)); [by destruct t|done].
    + intros id c Hc Hst. destruct (held_page R t id c Hinv Hc Hst) as (o & Ho & Hst' & _).
      cbn [pm_storage]. rewrite (F3 id o Ho); [eauto|congruence].
Qed.

Lemma prefetch_pinned R dst pages r t s' id o :
  pages_inv R t → (dst < NL)%nat → well_shaped G NL pages → prefetchable lc2pg dst (prefetch_items 0 pages) (pm_storage t) →
  prefetch lc2pg G hem dst pages (pm_storage t) = (r, s') →
  sm_pages (pm_storage t) !! id = Some o → po_status o = LOCKED → sm_pages s' !! id = Some o.
Proof.
  intros Hinv HL Hsh Hpf Hrun Ho Hst. pose proof Hinv as [[Hi Hrefs] _]. destruct (Hrefs id o Ho) as (c & _ & Hc & Hlv).
  specialize (Hlv ltac:(congruence)). pose proof (locked_not_queued _ _ _ _ _ _ _ _ _ _ _ Hi Ho Hst) as Hnq.
  pose proof (wp_prefetch pool_wf prio_ok queue_wf lc2pg G NL hem R dst pages (pm_storage t) Hi HL Hsh Hpf) as Hwp.
  unfold wp in Hwp. rewrite Hrun in Hwp. destruct r as [[]|e]; [|apply (pr_alive _ _ _ _ _ _ _ _ _ _ Hwp); [done|by rewrite Hst]].
  destruct Hwp as [_ F2 _ F4]. destruct (decide (id ∈ (prefetch_items 0 pages).*2)) as [Hin|Hni]; last first.
  { rewrite (ev_same _ _ _ _ _ F2); [done|]. rewrite elem_of_union, elem_of_queued_set, elem_of_list_to_set. tauto. }
  apply list_elem_of_fmap in Hin as ([[g lvl] j] & -> & Hin). destruct (proj2 Hpf g lvl j Hin) as (Hle & o2 & Ho2 & Hl2 & _).
  cbn [snd] in *. assert (o2 = o) as -> by congruence. apply F4; [done|done|lia].
Qed.

Lemma call_inv c c' :
  Forall (λ g, (g < G)%nat) lc2pg → (0 < NL)%nat → call c c' → pages_inv c.1 c.2 → pages_inv c'.1 c'.2.
Proof.
  intros Hlcs HNL Hcall Hinv. pose proof Hinv as [Hok _]. pose proof Hok as [Hi Hrefs].
  destruct Hcall as [R t rec level nums ret ids s' ? ? ? Hrun Hids|R t rec level nums e s' ? ? ? Hrun
    |R t lc L slot g i x s' ? ? ? ? Hrun|R t id lc L prio cm slot g i x t' Hid Hpr Hlc HL Hs Hin Hrun|R t id r t' [o Ho] Hrun
    |R t keep id c r t' ? ? Hrun|R t id o r t' Ho Hlev Hrun|R t keep ev id c r t' ? ? Hrun|R t rec ids r t' ? ? Hrun
    |R t rec level req r s' ? ? ? Hrun|R t rec level counts r s' ? ? Hrun|R t dst pages r s' ? ? ? Hrun]; cbn [fst snd] in *.
  - apply (storage_call_inv R _ t); [done|]. by apply (new_slots_call R t rec level nums (Ok ret)).
  - apply (storage_call_inv R _ t); [done|]. by apply (new_slots_call R t rec level nums (Raise e)).
  - apply (storage_call_inv R _ t); [done|]. by apply (release_slot_call R t lc L slot g i x).
  - assert (Hg : (g < G)%nat) by apply (Forall_lookup_1 _ _ _ _ Hlcs Hlc).
    destruct (wp_result _ _ _ _ _ (wp_page_init pool_wf prio_ok queue_wf lc2pg G NL R id lc L prio cm slot g i t Hok Hid Hpr Hlc HL Hg Hs Hin) Hrun)
      as (_ & _ & _ & Hok' & Hr' & Hs'). split; [done|]. destruct t' as [s' rs]. cbn in *. subst.
    eapply alive_touched; [apply Hinv|apply touched_put].
  - destruct (Hrefs id o Ho) as (c & Hc & _).
    destruct (wp_result _ _ _ _ _ (wp_hold pool_wf prio_ok queue_wf lc2pg G NL R id o c t Hok Ho Hc) Hrun) as (_ & _ & Hok' & Hr' & Ht).
    by eapply inv_touched_call.
  - by eapply release_holder_inv.
  - destruct (Hrefs id o Ho) as (c & Hc & _).
    destruct (wp_result _ _ _ _ _ (wp_page_lock pool_wf prio_ok queue_wf lc2pg G NL R id o c t Hok Ho Hc Hlev) Hrun) as (_ & _ & Hok' & Hr' & Ht).
    by eapply inv_touched_call.
  - by eapply unlock_inv.
  - by eapply batched_lock_inv.
  - apply (storage_call_inv R _ t); [done|]. by eapply prepare_call.
  - apply (storage_call_inv R _ t); [done|]. by eapply force_evict_call.
  - by eapply prefetch_inv.
Qed.

(** C3: Whatever the sequence of calls and their outcomes, pages, references,
    slots and queues stay consistent: every page alive has a slot of its own
    and the status its references give it, locked pages are in GPU memory,
    the queues hold evictable pages only, and a page that is held or locked
    is alive. *)
Theorem calls_keep_invariant R t R' t' :
  Forall (λ g, (g < G)%nat) lc2pg → (0 < NL)%nat → pages_inv R t → rtc call (R, t) (R', t') → pages_inv R' t'.
Proof.
  intros Hlcs HNL Hinv Hcalls. change (pages_inv (R', t').1 (R', t').2).
  assert (Hinv' : pages_inv (R, t).1 (R, t).2) by done. revert Hcalls Hinv'. generalize (R, t) (R', t').
  clear -Hlcs HNL SlotPoolSpec0 EvictQueueSpec0. intros c c'. induction 1 as [|c c1 c2 Hc _ IH]; [done|]. intros H. apply IH. by eapply call_inv.
Qed.

(** ** Locked pages stay where they are *)

Lemma touched_place j o1 o2 s s' id o :
  touched j o2 s s' → sm_pages s !! j = Some o1 → place lc2pg o2 = place lc2pg o1 → sm_pages s !! id = Some o →
  ∃ o', sm_pages s' !! id = Some o' ∧ place lc2pg o' = place lc2pg o.
Proof.
  intros [Hp _ _ _] Hj Hpl Ho. rewrite Hp. destruct (decide (id = j)) as [->|Hne].
  - exists o2. rewrite lookup_insert_eq. split; [done|]. congruence.
  - exists o. by rewrite lookup_insert_ne.
Qed.

Lemma storage_call_pinned R R' t t' id o :
  storage_ok R (pm_storage t) → storage_call R R' t t' → sm_pages (pm_storage t) !! id = Some o → po_status o = LOCKED →
  sm_pages (pm_storage t') !! id = Some o.
Proof.
  intros Hi (_ & _ & Hev) Ho Hst. rewrite (ev_same _ _ _ _ _ Hev); [done|]. rewrite elem_of_queued_set.
  by apply (locked_not_queued _ _ _ _ _ _ _ _ _ _ _ Hi Ho Hst).
Qed.

Lemma let_go_pinned keep j o1 t t' id o :
  let_go keep j o1 (pm_storage t) (pm_storage t') → j ≠ id → sm_pages (pm_storage t) !! id = Some o → po_status o = LOCKED →
  sm_pages (pm_storage t') !! id = Some o.
Proof. intros Hlg Hne Ho Hst. apply (lg_other _ _ _ _ _ Hlg); [done|done|]. right. by rewrite Hst. Qed.

(** A page locked before and after a call. *)
Lemma release_holder_pinned R keep j c r t t' id o :
  pages_inv R t → pm_refs t !! j = Some c → (0 < holders c)%nat → release_holder lc2pg keep j t = (r, t') →
  sm_pages (pm_storage t) !! id = Some o → po_status o = LOCKED → sm_pages (pm_storage t') !! id = Some o.
Proof.
  intros Hinv Hc Hpos Hrun Ho Hst. assert (Hcs : status_of c ≠ DROPPABLE) by (destruct c as [[|h] [|k]]; cbn in *; (done || lia)).
  destruct (held_page R t j c Hinv Hc Hcs) as (oj & Hoj & Hsj & _).
  destruct (wp_result _ _ _ _ _ (wp_release_holder pool_wf prio_ok queue_wf lc2pg G NL R keep j oj c t (pi_ok _ _ Hinv) Hoj Hc Hpos) Hrun)
    as (_ & _ & _ & _ & Hs'). destruct ((holders c =? 1)%nat && (locks c =? 0)%nat) eqn:Hb; [|by rewrite Hs'].
  apply andb_prop in Hb as [_ Hk%Nat.eqb_eq]. eapply let_go_pinned; try done. intros ->.
  assert (o = oj) as -> by congruence. rewrite Hst in Hsj. symmetry in Hsj. apply status_locked in Hsj. lia.
Qed.

Lemma unlock_pinned R keep ev j c r t t' id o :
  pages_inv R t → pm_refs t !! j = Some c → (0 < locks c)%nat → unlock lc2pg keep ev j t = (r, t') →
  sm_pages (pm_storage t) !! id = Some o → po_status o = LOCKED →
  (∀ c', pm_refs t' !! id = Some c' → (0 < locks c')%nat) → sm_pages (pm_storage t') !! id = Some o.
Proof.
  intros Hinv Hc Hpos Hrun Ho Hst Hlk. assert (Hcs : status_of c ≠ DROPPABLE) by (destruct c as [[|h] [|k]]; cbn in *; (done || lia)).
  destruct (held_page R t j c Hinv Hc Hcs) as (oj & Hoj & Hsj & _).
  destruct (wp_result _ _ _ _ _ (wp_unlock pool_wf prio_ok queue_wf lc2pg G NL R keep ev j oj c t (pi_ok _ _ Hinv) Hoj Hc Hpos) Hrun)
    as (_ & _ & _ & Hr' & Hs'). destruct (locks c =? 1)%nat eqn:Hk; [|by rewrite Hs']. apply Nat.eqb_eq in Hk.
  assert (Hne : j ≠ id).
  { intros ->. rewrite Hr' in Hlk. specialize (Hlk _ (lookup_insert_eq _ _ _)). cbn in Hlk. lia. }
  destruct (holders c =? 0)%nat; [by eapply let_go_pinned|]. destruct Hs' as [[Hp _ _ _] _]. by rewrite Hp, lookup_insert_ne.
Qed.

Lemma batched_lock_pinned R rec ids r t t' id o :
  pages_inv R t → (0 < NL)%nat → NoDup ids → (∀ id, id ∈ ids → is_Some (sm_pages (pm_storage t) !! id)) →
  batched_lock_to_gpu lc2pg G hem rec ids t = (r, t') →
  sm_pages (pm_storage t) !! id = Some o → po_status o = LOCKED → sm_pages (pm_storage t') !! id = Some o.
Proof.
  intros Hinv HNL Hnd Hids Hrun Ho Hst. destruct (pi_ok _ _ Hinv) as [_ Hrefs]. destruct (Hrefs id o Ho) as (c & _ & Hsc & Hlv).
  pose proof (wp_batched_lock_to_gpu pool_wf prio_ok queue_wf lc2pg G NL hem R rec ids t (pi_ok _ _ Hinv) HNL Hnd Hids) as Hwp.
  unfold wp in Hwp. rewrite Hrun in Hwp. destruct r as [[]|e].
  - apply (bl_pinned _ _ _ _ _ _ _ _ _ _ Hwp); [done|done|]. apply Hlv. congruence.
  - apply (br_alive _ _ _ _ _ _ _ _ _ _ Hwp); [done|]. by rewrite Hst.
Qed.

Lemma call_pinned c c' id o :
  Forall (λ g, (g < G)%nat) lc2pg → (0 < NL)%nat → call c c' → pages_inv c.1 c.2 →
  sm_pages (pm_storage c.2) !! id = Some o → po_status o = LOCKED →
  (∀ k, pm_refs c'.2 !! id = Some k → (0 < locks k)%nat) →
  ∃ o', sm_pages (pm_storage c'.2) !! id = Some o' ∧ place lc2pg o' = place lc2pg o.
Proof.
  intros Hlcs HNL Hcall Hinv Ho Hst Hlk. pose proof Hinv as [Hok _]. pose proof Hok as [Hi Hrefs].
  destruct Hcall as [R t rec level nums ret ids s' ? ? ? Hrun Hids|R t rec level nums e s' ? ? ? Hrun
    |R t lc L slot g i x s' ? ? ? ? Hrun|R t j lc L prio cm slot g i x t' Hid Hpr Hlc HL Hs Hin Hrun|R t j r t' [oj Hoj] Hrun
    |R t keep j c r t' ? ? Hrun|R t j oj r t' Hoj Hlev Hrun|R t keep ev j c r t' ? ? Hrun|R t rec ids r t' ? ? Hrun
    |R t rec level req r s' ? ? ? Hrun|R t rec level counts r s' ? ? Hrun|R t dst pages r s' ? ? ? Hrun]; cbn [fst snd] in *.
  - exists o. split; [|done]. eapply (storage_call_pinned R); [done| |done|done]. by apply (new_slots_call R t rec level nums (Ok ret)).
  - exists o. split; [|done]. eapply (storage_call_pinned R); [done| |done|done]. by apply (new_slots_call R t rec level nums (Raise e)).
  - exists o. split; [|done]. eapply (storage_call_pinned R); [done| |done|done]. by apply (release_slot_call R t lc L slot g i x).
  - assert (Hg : (g < G)%nat) by apply (Forall_lookup_1 _ _ _ _ Hlcs Hlc).
    destruct (wp_result _ _ _ _ _ (wp_page_init pool_wf prio_ok queue_wf lc2pg G NL R j lc L prio cm slot g i t Hok Hid Hpr Hlc HL Hg Hs Hin) Hrun)
      as (_ & _ & _ & _ & _ & Hs'). exists o. split; [|done]. rewrite Hs'. cbn. rewrite lookup_insert_ne; [done|]. intros ->. congruence.
  - destruct (Hrefs j oj Hoj) as (c & Hc & _).
    destruct (wp_result _ _ _ _ _ (wp_hold pool_wf prio_ok queue_wf lc2pg G NL R j oj c t Hok Hoj Hc) Hrun) as (_ & _ & _ & _ & Ht).
    by eapply touched_place.
  - exists o. split; [|done]. by eapply release_holder_pinned.
  - destruct (Hrefs j oj Hoj) as (c & Hc & _).
    destruct (wp_result _ _ _ _ _ (wp_page_lock pool_wf prio_ok queue_wf lc2pg G NL R j oj c t Hok Hoj Hc Hlev) Hrun) as (_ & _ & _ & _ & Ht).
    by eapply touched_place.
  - exists o. split; [|done]. by eapply unlock_pinned.
  - exists o. split; [|done]. by eapply batched_lock_pinned.
  - exists o. split; [|done]. eapply (storage_call_pinned R); [done| |done|done]. by eapply prepare_call.
  - exists o. split; [|done]. eapply (storage_call_pinned R); [done| |done|done]. by eapply force_evict_call.
  - exists o. split; [|done]. by eapply prefetch_pinned.
Qed.

(** C10: A locked page is pinned.  No call moves a page that is locked before
    and after it: the page keeps its level, its pool group and its slot. *)
Theorem locked_page_pinned R t R' t' id o :
  Forall (λ g, (g < G)%nat) lc2pg → (0 < NL)%nat → pages_inv R t → call (R, t) (R', t') →
  sm_pages (pm_storage t) !! id = Some o → po_status o = LOCKED →
  (∀ k, pm_refs t' !! id = Some k → (0 < locks k)%nat) →
  ∃ o', sm_pages (pm_storage t') !! id = Some o' ∧ place lc2pg o' = place lc2pg o.
Proof. intros Hlcs HNL Hinv Hcall. by apply (call_pinned (R, t) (R', t')). Qed.

(** ** The calls, one by one *)

(** The slot of a deleted page is free again. *)
Definition slot_returned o s s' : Prop :=
  ∃ L g i p p', place lc2pg o = Some (L, g, i) ∧ pool_at s L g = Some p ∧ pool_at s' L g = Some p' ∧
    i ∈ pool_occupied p ∧ pool_occupied p' ⊆ pool_occupied p ∖ {[ i ]} ∧ free_at s L g < free_at s' L g.

Lemma deleted_slot_returned R id o s s' :
  storage_ok R s → storage_ok R s' → sm_pages s !! id = Some o → sm_pages s' !! id = None →
  (∀ j o', sm_pages s' !! j = Some o' → sm_pages s !! j = Some o') → (∀ L g, cap_at s' L g = cap_at s L g) →
  slot_returned o s s'.
Proof.
  intros Hi Hi' Ho Hno Hsub Hcap. destruct (page_place _ _ _ _ _ _ Hi id o Ho) as (g & i & Hpl & HL & Hg & _).
  destruct (si_pools _ _ _ _ _ _ _ _ _ Hi _ _ HL Hg) as (p & Hp & _), (si_pools _ _ _ _ _ _ _ _ _ Hi' _ _ HL Hg) as (p' & Hp' & _).
  pose proof (λ j, si_occ _ _ _ _ _ _ _ _ _ Hi _ _ p j Hg Hp) as Hocc. pose proof (λ j, si_occ _ _ _ _ _ _ _ _ _ Hi' _ _ p' j Hg Hp') as Hocc'.
  exists (po_level o), g, i, p, p'. split_and!; [done..|apply Hocc; eauto| |].
  - intros j Hj%Hocc'. apply elem_of_difference. rewrite Hocc, elem_of_singleton.
    destruct Hj as [Hj|(id' & o' & Ho' & Hpl')].
    + split; [by left|]. intros ->. by apply (si_raw _ _ _ _ _ _ _ _ _ Hi id o _ _ i Ho Hpl).
    + pose proof (Hsub _ _ Ho') as Ho2. split; [eauto|]. intros ->.
      assert (id' = id) as -> by (by apply (si_inj _ _ _ _ _ _ _ _ _ Hi id' id o' o (po_level o, g, i))). congruence.
  - destruct (free_res _ _ _ _ _ _ Hi _ _ HL Hg) as [-> _], (free_res _ _ _ _ _ _ Hi' _ _ HL Hg) as [-> _]. rewrite Hcap.
    enough (size (res lc2pg s' (po_level o) g) < size (res lc2pg s (po_level o) g))%nat by lia.
    apply subset_size. apply place_resides in Hpl as [Hr _]. split.
    + intros j (o' & Ho' & Hr')%elem_of_res. apply elem_of_res. eauto.
    + intros Hss. assert (Hid : id ∈ res lc2pg s (po_level o) g) by (apply elem_of_res; eauto).
      apply Hss, elem_of_res in Hid as (o' & Ho' & _). congruence.
Qed.

(** C33: When the last reference to a page's holder goes, the page waits for
    eviction if a later request can reuse it (it is committed and its block
    still has it), and is deleted otherwise, its slot being free for others
    again; no content changes, and no other page that is in use or waits in
    no queue.  Any other reference going changes nothing but the count. *)
Theorem release_holder_spec R id r t :
  pages_inv R t → pm_refs t !! id = Some r → (0 < holders r)%nat →
  ∃ o t', release_holder lc2pg false id t = (Ok (), t') ∧ sm_pages (pm_storage t) !! id = Some o ∧
    pm_refs t' = <[id := mkRefs (pred (holders r)) (locks r)]> (pm_refs t) ∧
    if (holders r =? 1)%nat && (locks r =? 0)%nat then
      (if reusable (pm_storage t) id o
       then sm_pages (pm_storage t') !! id = Some (set_status DROPPABLE o) ∧ queued (pm_storage t') id
       else sm_pages (pm_storage t') !! id = None ∧ ¬ queued (pm_storage t') id ∧
         slot_returned o (pm_storage t) (pm_storage t')) ∧
      sm_mem (pm_storage t') = sm_mem (pm_storage t) ∧
      ∀ j o', j ≠ id → sm_pages (pm_storage t) !! j = Some o' →
        ¬ queued (pm_storage t) j ∨ po_status o' ≠ DROPPABLE → sm_pages (pm_storage t') !! j = Some o'
    else pm_storage t' = pm_storage t.
Proof.
  intros Hinv Hr Hpos. assert (Hst : status_of r ≠ DROPPABLE) by (destruct r as [[|h] [|k]]; cbn in *; (done || lia)).
  destruct (held_page R t id r Hinv Hr Hst) as (o & Ho & _). pose proof (pi_ok _ _ Hinv) as Hok.
  destruct (wp_ok _ _ _ _ (wp_release_holder pool_wf prio_ok queue_wf lc2pg G NL R false id o r t Hok Ho Hr Hpos))
    as ([] & t' & Hrun & Hok' & Hr' & Hs'); [by intros ?? []|]. exists o, t'. do 3 (split; [done|]).
  destruct (_ && _); [|done]. destruct Hs' as [L1 L2 L3 L4 L5 L6]. split; [|done].
  destruct (reusable _ id o); [auto|]. destruct (L2 eq_refl) as [Hnq Hgone]. split_and!; [done..|].
  apply (deleted_slot_returned R id); [apply Hok|apply Hok'|done..| |done].
  intros j o' Ho'. apply L3; [|done]. intros ->. congruence.
Qed.

(** C5: [batched_lock_to_gpu] is all or nothing.  When it returns, every page
    of the batch is in GPU memory with its content, locked once more, and the
    other held pages are alive with theirs; when it raises, no page is locked,
    the pages of the batch are where they were and wait for eviction if they
    did, and no content has changed. *)
Theorem batched_lock_to_gpu_spec R rec ids t :
  pages_ok R t → (0 < NL)%nat → NoDup ids → (∀ id, id ∈ ids → is_Some (sm_pages (pm_storage t) !! id)) →
  match batched_lock_to_gpu lc2pg G hem rec ids t with
  | (Ok _, t') => batch_locked pool_wf prio_ok queue_wf lc2pg G NL R ids t t'
  | (Raise _, t') => batch_refused pool_wf prio_ok queue_wf lc2pg G NL R ids t t'
  end.
Proof.
  intros Hok HNL Hnd Hids.
  pose proof (wp_batched_lock_to_gpu pool_wf prio_ok queue_wf lc2pg G NL hem R rec ids t Hok HNL Hnd Hids) as Hwp.
  unfold wp in Hwp. by destruct (batched_lock_to_gpu _ _ _ _ _ t) as [[[]|e] t'].
Qed.
End storage_reach.
