(* ===== verification/StorageInit.v ===== *)
(** * A new storage manager

    [CacheLevelManager.__init__] and the end of [StorageManager.__init__]: the
    pool groups of each level with the slot counts computed for it, and its
    eviction controller.  With no page and no slot handed out, the invariants
    of the calls hold. *)

From S2P Require Import Prelude CacheKey RadixTree KvUtils Bitset SlotAllocator SlotAllocatorProps Eviction EvictionProps EvictionInv.
From S2P Require Import Wp StorageIface Storage StorageInv StorageProps StoragePages StorageHold StorageReach.

Local Open Scope Z_scope.

Section storage_init.
Context {Q T V : Type} `{!Dllist Q, !DllistSpec Q, !BlockTree T}.
#[local] Abbreviation SM := (StorageManager SlotAllocator (PerLevelEvictionController Q) T V).

(** [CacheLevelManager.__init__] *)
Definition cache_level_init (life_cycle_grouping : list nat) (cache_level : nat) (slot_count_list : list Z) :
    result (Level SlotAllocator (PerLevelEvictionController Q)) :=
  controller ← controller_init (Z.of_nat <$> life_cycle_grouping) (Z.of_nat cache_level);
  Ok (mkLevel (allocator_init <$> slot_count_list) controller).

Fixpoint levels_init (life_cycle_grouping : list nat) (i : nat) (slot_counts : list (list Z)) :
    result (list (Level SlotAllocator (PerLevelEvictionController Q))) :=
  match slot_counts with
  | [] => Ok []
  | counts :: slot_counts =>
      lv ← cache_level_init life_cycle_grouping i counts;
      lvs ← levels_init life_cycle_grouping (S i) slot_counts;
      Ok (lv :: lvs)
  end.

(** [StorageManager.__init__], given the slot counts of the levels. *)
Definition storage_init (tree : T) (life_cycle_grouping : list nat) (num_pool_groups : nat)
    (slot_counts : list (list Z)) : result SM :=
  _ ← (if bool_decide (slot_counts = []) then Raise IndexError else Ok ());
  _ ← py_assert (forallb (λ pg, pg <? num_pool_groups)%nat life_cycle_grouping);
  _ ← py_assert (bool_decide (Z.of_nat num_pool_groups =
        Z.of_nat (size (list_to_set (Z.of_nat <$> life_cycle_grouping) : gset Z))));
  levels ← levels_init life_cycle_grouping 0 slot_counts;
  _ ← py_assert (forallb (λ lv, length (lv_storage lv) =? num_pool_groups)%nat levels);
  Ok (mkStorage levels ∅ tree ∅ 0 []).

(** ** The initial state *)

Lemma controller_init_wf prio_ok lc2pg G lvl c :
  controller_init (Q := Q) (Z.of_nat <$> lc2pg) (Z.of_nat lvl) = Ok c →
  Z.of_nat G = Z.of_nat (size (list_to_set (Z.of_nat <$> lc2pg) : gset Z)) →
  controller_wf prio_ok lc2pg G lvl c ∧ all_pages (views c) = [].
Proof.
  intros Hc HG. assert (Hpos : Forall (λ g, 0 ≤ g) (Z.of_nat <$> lc2pg)).
  { apply Forall_fmap, Forall_true. intros. cbn. lia. }
  pose proof (init_wf _ _ _ Hpos Hc) as Hwf. unfold controller_init in Hc.
  destruct (Z.of_nat <$> lc2pg) as [|g l] eqn:Hl; [done|]. inv_ok. case_bool_decide as Hn; [|done]. inv_ok.
  set (n := foldl Z.max g l + 1) in *.
  assert (Hviews : views (mkController (Q := Q) (g :: l) (replicate (Z.to_nat n) []) (Z.of_nat lvl) ∅) = replicate (Z.to_nat n) []).
  { unfold views. cbn. by rewrite fmap_replicate. }
  assert (Hap : ∀ k, all_pages (replicate k []) = []) by (by induction k).
  split; [|by rewrite Hviews]. split; try done.
  - by rewrite Hviews, length_replicate, Hn, <- HG, Nat2Z.id.
  - rewrite Hviews. by intros u pr [_ [-> _]%lookup_replicate]%list_elem_of_lookup ?%not_elem_of_nil.
  - rewrite Hviews, Hap. constructor.
Qed.

Lemma levels_init_ok prio_ok lc2pg G i slot_counts lvs :
  levels_init lc2pg i slot_counts = Ok lvs →
  Z.of_nat G = Z.of_nat (size (list_to_set (Z.of_nat <$> lc2pg) : gset Z)) →
  length lvs = length slot_counts ∧ ∀ k lv, lvs !! k = Some lv →
    controller_wf prio_ok lc2pg G (i + k) (lv_controller lv) ∧ all_pages (views (lv_controller lv)) = [] ∧
    ∃ counts, slot_counts !! k = Some counts ∧ lv_storage lv = allocator_init <$> counts.
Proof.
  intros H HG. revert i lvs H. induction slot_counts as [|counts rest IH]; intros i lvs H; cbn in H; [inv_ok; done|].
  unfold cache_level_init in H. inv_ok. destruct (IH _ _ Hv0) as [Hlen Hk]. split; [cbn; lia|].
  intros [|k] lv Hl; cbn in Hl.
  - injection Hl as <-. destruct (controller_init_wf prio_ok lc2pg G i _ Hv1 HG). rewrite Nat.add_0_r. eauto.
  - rewrite Nat.add_succ_r. by apply Hk.
Qed.

Lemma allocator_init_wf capacity : 0 ≤ capacity → alloc_wf (allocator_init capacity) ∧ occupied (allocator_init capacity) = ∅.
Proof. intros Hc. split; [by split; [apply init_inv|]|]. by destruct (bitset_init_spec capacity Hc) as (_ & ? & _). Qed.

Lemma storage_init_inv complete prio_ok tree lc2pg G slot_counts (s : SM) :
  Forall (Forall (λ n, 0 ≤ n)) slot_counts → storage_init tree lc2pg G slot_counts = Ok s →
  Forall (λ g, (g < G)%nat) lc2pg ∧ (0 < length slot_counts)%nat ∧
  pages_inv (SlotPool0 := allocator_pool complete) alloc_wf prio_ok (controller_wf prio_ok) lc2pg G (length slot_counts)
    (λ _ _, ∅) (mkPM s ∅).
Proof.
  intros Hpos H. unfold storage_init in H. inv_ok. apply bool_decide_eq_true in Hv1 as HG.
  rewrite forallb_forall in Hv0, Hv3. rename Hv0 into Hlc, Hv3 into Hlen.
  destruct (levels_init_ok prio_ok lc2pg G 0 slot_counts v2 Hv2 HG) as [Hn Hlv].
  set (s := mkStorage v2 ∅ tree ∅ 0 []).
  assert (Hlook : ∀ L g p, pool_at s L g = Some p → alloc_wf p ∧ occupied p = ∅).
  { intros L g p (lv & Hl & Hp)%bind_Some. destruct (Hlv L lv Hl) as (_ & _ & counts & Hc & Hst). rewrite Hst in Hp.
    apply list_lookup_fmap_Some in Hp as (n & -> & Hcn). apply allocator_init_wf.
    rewrite Forall_lookup in Hpos. specialize (Hpos L counts Hc). rewrite Forall_lookup in Hpos. by apply (Hpos g). }
  assert (Hctrl : ∀ L c, ctrl_at s L = Some c → controller_wf prio_ok lc2pg G L c ∧ all_pages (views c) = []).
  { intros L c (lv & Hl & ->)%fmap_Some. destruct (Hlv L lv Hl) as (? & ? & _). done. }
  split; [apply Forall_forall; intros g Hg%list_elem_of_In; by apply Nat.ltb_lt, Hlc|].
  split; [destruct slot_counts; [by rewrite bool_decide_eq_true_2 in Hv|cbn; lia]|]. split; [|by intros id r ?]. split; [|by intros id o ?].
  apply (inv_storage_ok _ _ _ _ _ _ ∅). split; try done.
  - intros L g HL Hg. destruct (lookup_lt_is_Some_2 v2 L) as [lv Hl]; [lia|].
    destruct (lookup_lt_is_Some_2 (lv_storage lv) g) as [p Hp].
    { specialize (Hlen lv). rewrite Nat.eqb_eq in Hlen. rewrite Hlen; [done|]. by apply list_elem_of_In; eapply list_elem_of_lookup_2. }
    assert (Hat : pool_at s L g = Some p) by (unfold pool_at; cbn; by rewrite Hl). exists p. split; [done|]. by apply (Hlook L g).
  - intros L HL. destruct (lookup_lt_is_Some_2 v2 L) as [lv Hl]; [lia|].
    assert (Hat : ctrl_at s L = Some (lv_controller lv)) by (unfold ctrl_at; cbn; by rewrite Hl). eexists. split; [done|]. by apply Hctrl.
  - intros L g p i Hg Hp. cbn. destruct (Hlook L g p Hp) as [_ ->]. rewrite elem_of_empty. split; [done|].
    intros [?|(id & o & Ho & _)]; done.
  - intros L c p Hc Hp. cbn in Hp. destruct (Hctrl L c Hc) as [_ Hap]. rewrite Hap in Hp. by apply not_elem_of_nil in Hp.
Qed.

(** C34: A storage manager is built consistent: once [__init__] returns, the
    groups of the life cycles are in range, every pool is a fresh allocator
    and every queue empty, and the invariant of all later calls holds, with
    no page alive and no slot handed out. *)
Theorem storage_init_ok complete prio_ok tree lc2pg G slot_counts (s : SM) :
  Forall (Forall (λ n, 0 ≤ n)) slot_counts → storage_init tree lc2pg G slot_counts = Ok s →
  Forall (λ g, (g < G)%nat) lc2pg ∧ (0 < length slot_counts)%nat ∧
  pages_inv (SlotPool0 := allocator_pool complete) alloc_wf prio_ok (controller_wf prio_ok) lc2pg G (length slot_counts)
    (λ _ _, ∅) (mkPM s ∅).
Proof. apply storage_init_inv. Qed.
End storage_init.
