(* ===== verification/StorageTree.v ===== *)
(** * The block tree below the storage manager

    The radix tree as a [BlockTree].  A committed page [p] of the tree has the
    identity [Z.pos p]; uncommitted pages have other identities.  The blocks a
    deletion detaches are collected, with their pages unlinked, unless a cache
    still refers to them. *)

From S2P Require Import Prelude LifeCycle CacheKey RadixTree KvUtils SlotAllocator Eviction Wp StorageIface Storage.

Local Open Scope Z_scope.

Record BlockStore := mkBlockStore {
  bs_heap : heap;
  bs_kept : gset loc;  (* the blocks that caches refer to *)
}.

Definition tree_page_of (id : Z) : option loc := match id with Zpos p => Some p | _ => None end.

(** [page.block()] *)
Definition block_of (p : loc) (h : heap) : option loc := pg ← pages h !! p; p_block pg.

(** [block is not None and not block.is_orphan] *)
Definition live_block (p : loc) (h : heap) : option loc :=
  b ← block_of p h;
  match is_orphan b h with (Ok false, _) => Some b | _ => None end.

Definition in_tree (l : loc) (h : heap) : bool :=
  match nodes h !! l with Some n => bool_decide (is_Some (n_prev n)) | None => false end.

Section tree.
Context (num_life_cycles : nat) (event_manager : bool) (life_cycles : list LifeCycle).

(** The blocks whose last reference goes when the tree changes from [h] to
    [h']. *)
Definition detached_blocks (h h' : heap) (kept : gset loc) : list loc :=
  filter (λ l, (l ∉ kept) ∧ in_tree l h = true ∧ in_tree l h' = false) ((map_to_list (nodes h')).*1).

(** [Block.__del__] of these. *)
Definition collect_blocks (ls : list loc) (h : heap) : heap :=
  foldl (λ h l, (block_del num_life_cycles l h).2) h ls.

(** The pages that have left their blocks. *)
Definition unlinked_pages (h h' : heap) : list Z :=
  Z.pos <$> filter (λ p, is_Some (block_of p h) ∧ block_of p h' = None) ((map_to_list (pages h')).*1).

#[global] Instance radix_block_tree : BlockTree BlockStore := {
  unlink_deleted id t :=
    match tree_page_of id with
    | None => ([], t)
    | Some p =>
        let h := bs_heap t in
        let h1 := (page_del num_life_cycles event_manager life_cycles p h).2 in
        let h2 := collect_blocks (detached_blocks h h1 (bs_kept t)) h1 in
        (unlinked_pages h h2, mkBlockStore h2 (bs_kept t))
    end;
  live_key id t :=
    p ← tree_page_of id;
    b ← live_block p (bs_heap t);
    n_key <$> nodes (bs_heap t) !! b;
  linked id t :=
    match tree_page_of id ≫= λ p, b ← live_block p (bs_heap t); Some (p, b) with
    | Some (p, b) => match holds_page b p (bs_heap t) with (Ok x, _) => x | _ => false end
    | None => false
    end;
}.

(** A page that has left its block is not reused: when its last reference
    goes it does not wait for eviction. *)
Lemma unlinked_not_linked id t q : q ∈ (unlink_deleted id t).1 → linked q (unlink_deleted id t).2 = false.
Proof.
  cbn. destruct (tree_page_of id) as [p|]; cbn; [|by intros ?%not_elem_of_nil].
  intros (r & -> & [[_ Hr] _]%list_elem_of_filter)%list_elem_of_fmap. cbn. unfold live_block. by rewrite Hr.
Qed.
End tree.
