(* ===== verification/StorageExamples.v ===== *)
(** * A small storage manager

    Two levels, GPU memory with two slots and host memory with one, one pool
    group; a tree with two blocks in a row, a committed page in each.  The
    states below are reached by calls from a new manager, and the theorems on
    the storage manager are applied to them. *)

From S2P Require Import Prelude LifeCycle CacheKey RadixTree RadixTreeProps RadixTreeReach RadixTreeClear RadixTreeMatch KvUtils SlotAllocator Eviction Wp.
From S2P Require Import StorageIface Storage StorageInv StorageMove StorageRoom StorageProps StorageSlots StoragePages StorageHold StorageLock.
From S2P Require Import StorageBatch StoragePrefetch StorageReach StorageInit StorageTree.

Local Open Scope Z_scope.

#[local] Abbreviation ctl := (PerLevelEvictionController (list EvictablePage)).
#[local] Abbreviation SM := (StorageManager SlotAllocator ctl BlockStore Z).
#[local] Abbreviation PM := (PageManager SlotAllocator ctl BlockStore Z).

#[local] Instance small_pool : SlotPool SlotAllocator := allocator_pool (λ _, true).
#[local] Instance small_pool_spec : SlotPoolSpec SlotAllocator alloc_wf := allocator_pool_spec (λ _, true).
#[local] Instance small_tree : BlockTree BlockStore := radix_block_tree 1 true one_life_cycle.

Definition chain_run (os : list op) : heap := foldl (λ h o, (small_run o h).2) empty_heap os.

(** The pages 1 and 2. *)
Definition chain : heap := chain_run
  [NewRoot (mkScope None None); NewBlock (TokenId <$> [1; 2; 3; 4]) 1%positive; NewBlock (TokenId <$> [5; 6; 7; 8]) 2%positive;
   Commit 2%positive 0 4; Commit 3%positive 0 4].

Definition small_storage : result SM := storage_init (mkBlockStore chain ∅) [0%nat] 1 [[2]; [1]].

(** ** Calls *)

Definition no_rec := mkRecorders false false.

#[local] Abbreviation grouping := [0%nat].

Definition do {A} (m : M PM A) (t : PM) : PM := (m t).2.
Definition do_storage {A} (m : M SM A) (t : PM) : PM := mkPM (m (pm_storage t)).2 (pm_refs t).

Definition empty_storage : SM := mkStorage [] ∅ (mkBlockStore chain ∅) ∅ 0 [].
Definition start : PM := mkPM (match small_storage with Ok s => s | Raise _ => empty_storage end) ∅.

(** Two slots of GPU memory, turned into pages. *)
Definition with_slots : PM := do_storage (new_slots grouping 1 true no_rec 0 [2]) start.
Definition with_page : PM := do (page_init 1 0 0 35 true (mkSlot (Some 0) None)) with_slots.
Definition both_pages : PM := do (page_init 2 0 0 35 true (mkSlot (Some 1) None)) with_page.

(** A page that is not committed, held. *)
Definition uncommitted_held : PM := do (hold 3) (do (page_init 3 0 0 35 false (mkSlot (Some 0) None)) with_slots).

(** Both held, and then let go: they wait for eviction. *)
Definition both_held : PM := do (hold 2) (do (hold 1) both_pages).
Definition one_free : PM := do (release_holder grouping false 1) both_held.
Definition both_free : PM := do (release_holder grouping false 2) one_free.

(** The first page in host memory. *)
Definition one_evicted : PM := do_storage (prepare_free_slots grouping 1 true no_rec 0 [1]) both_free.

(** Both held, locked and unlocked: they wait for eviction as held pages. *)
Definition both_locked : PM := do (page_lock grouping 2) (do (page_lock grouping 1) both_held).
Definition held_queued : PM := do (unlock grouping false None 2) (do (unlock grouping false None 1) both_locked).

(** ** Their invariant *)

#[local] Abbreviation prio := (λ p : Z, p = 35).
#[local] Abbreviation ok := (pages_inv (T := BlockStore) (V := Z) alloc_wf prio (controller_wf prio) grouping 1 2).
#[local] Abbreviation step := (call (P := SlotAllocator) (C := ctl) (T := BlockStore) (V := Z) prio grouping 1 2 true).

Definition none : nat → nat → gset Z := λ _ _, ∅.
Definition slots2 : nat → nat → gset Z := add_slots none 0 (zip grouping [[0; 1]]).
Definition slots1 : nat → nat → gset Z := upd slots2 0 0 (λ A, A ∖ {[ 0 ]}).
Definition slots0 : nat → nat → gset Z := upd slots1 0 0 (λ A, A ∖ {[ 1 ]}).

Lemma grouping_ok : Forall (λ g, (g < 1)%nat) grouping.
Proof. repeat constructor. Qed.

Lemma start_ok : ok none start.
Proof.
  destruct (storage_init_inv (λ _, true) prio (mkBlockStore chain ∅) grouping 1 [[2]; [1]] (pm_storage start))
    as (_ & _ & H); [by repeat constructor|reflexivity|exact H].
Qed.

Lemma run_eq {S A} (m : M S A) (s : S) a : (m s).1 = Ok a → m s = (Ok a, (m s).2).
Proof. intros <-. apply surjective_pairing. Qed.

Lemma step_ok c c' : step c c' → ok c.1 c.2 → ok c'.1 c'.2.
Proof. apply (call_inv alloc_wf prio (controller_wf prio) grouping 1 2 true); [exact grouping_ok|lia]. Qed.

(** The premises of a call in a concrete state. *)
Ltac by_run := solve [lia | apply run_eq; vm_compute; reflexivity | apply surjective_pairing | vm_compute; reflexivity
  | eapply bool_decide_eq_true_1; vm_compute; reflexivity | by repeat constructor].

Lemma step_new_slots : step (none, start) (slots2, with_slots).
Proof.
  apply (call_new_slots prio grouping 1 2 true none start no_rec 0 [2] [[mkSlot (Some 0) None; mkSlot (Some 1) None]] [[0; 1]]); by_run.
Qed.

Lemma step_page1 : step (slots2, with_slots) (slots1, with_page).
Proof.
  apply (call_page_init prio grouping 1 2 true slots2 with_slots 1 0 0 35 true (mkSlot (Some 0) None) 0 0 (mkSlot None None)); by_run.
Qed.

Lemma step_page2 : step (slots1, with_page) (slots0, both_pages).
Proof.
  apply (call_page_init prio grouping 1 2 true slots1 with_page 2 0 0 35 true (mkSlot (Some 1) None) 0 1 (mkSlot None None)); by_run.
Qed.

Lemma both_pages_ok : ok slots0 both_pages.
Proof.
  apply (step_ok (slots1, with_page) (slots0, both_pages) step_page2), (step_ok (slots2, with_slots) (slots1, with_page) step_page1).
  exact (step_ok (none, start) (slots2, with_slots) step_new_slots start_ok).
Qed.

Lemma hold_ok R id t : is_Some (sm_pages (pm_storage t) !! id) → ok R t → ok R (do (hold id) t).
Proof.
  intros Hid Hok. eapply (step_ok (R, t) (R, do (hold id) t)); [|exact Hok].
  eapply call_hold; [exact Hid|apply surjective_pairing].
Qed.

Lemma uncommitted_held_ok : ok slots1 uncommitted_held.
Proof.
  apply hold_ok; [eexists; vm_compute; reflexivity|].
  refine (step_ok (slots2, with_slots) (slots1, _) _ (step_ok (none, start) (slots2, with_slots) step_new_slots start_ok)).
  apply (call_page_init prio grouping 1 2 true slots2 with_slots 3 0 0 35 false (mkSlot (Some 0) None) 0 0 (mkSlot None None)); by_run.
Qed.

Lemma release_ok id r t :
  pm_refs t !! id = Some r → (0 < holders r)%nat → ok slots0 t → ok slots0 (do (release_holder grouping false id) t).
Proof.
  intros Hr Hpos Hok. eapply (step_ok (slots0, t) (slots0, do (release_holder grouping false id) t)); [|exact Hok].
  eapply call_release_holder; [exact Hr|exact Hpos|apply surjective_pairing].
Qed.

Lemma lock_ok id o t :
  sm_pages (pm_storage t) !! id = Some o → po_level o = 0%nat → ok slots0 t → ok slots0 (do (page_lock grouping id) t).
Proof.
  intros Ho Hl Hok. eapply (step_ok (slots0, t) (slots0, do (page_lock grouping id) t)); [|exact Hok].
  eapply call_lock; [exact Ho|exact Hl|apply surjective_pairing].
Qed.

Lemma unlock_ok id r t :
  pm_refs t !! id = Some r → (0 < locks r)%nat → ok slots0 t → ok slots0 (do (unlock grouping false None id) t).
Proof.
  intros Hr Hpos Hok. eapply (step_ok (slots0, t) (slots0, do (unlock grouping false None id) t)); [|exact Hok].
  eapply call_unlock; [exact Hr|exact Hpos|apply surjective_pairing].
Qed.

Lemma prepare_ok level req t :
  (level < 2)%nat → length req = 1%nat → Forall (λ n, 0 ≤ n) req → ok slots0 t →
  ok slots0 (do_storage (prepare_free_slots grouping 1 true no_rec level req) t).
Proof.
  intros Hl Hlen Hpos Hok. eapply (step_ok (slots0, t) (slots0, do_storage _ t)); [|exact Hok].
  eapply call_prepare_free_slots; [exact Hl|exact Hlen|exact Hpos|apply surjective_pairing].
Qed.

Lemma both_held_ok : ok slots0 both_held.
Proof.
  apply hold_ok; [eexists; vm_compute; reflexivity|]. apply hold_ok; [eexists; vm_compute; reflexivity|]. exact both_pages_ok.
Qed.

Lemma both_free_ok : ok slots0 both_free.
Proof.
  eapply release_ok; [vm_compute; reflexivity|cbn; lia|]. eapply release_ok; [vm_compute; reflexivity|cbn; lia|]. exact both_held_ok.
Qed.

Lemma one_evicted_ok : ok slots0 one_evicted.
Proof. apply prepare_ok; [lia|done|by repeat constructor|exact both_free_ok]. Qed.

Lemma both_locked_ok : ok slots0 both_locked.
Proof.
  eapply lock_ok; [vm_compute; reflexivity|reflexivity|]. eapply lock_ok; [vm_compute; reflexivity|reflexivity|]. exact both_held_ok.
Qed.

Lemma held_queued_ok : ok slots0 held_queued.
Proof.
  eapply unlock_ok; [vm_compute; reflexivity|cbn; lia|]. eapply unlock_ok; [vm_compute; reflexivity|cbn; lia|]. exact both_locked_ok.
Qed.

(** ** Two behaviours *)

(** A failed call can lose the room for a later one.  Two held pages wait
    for eviction and one fits in host memory: a request for one slot of GPU
    memory succeeds; but after a request for two has failed, the held pages
    are in no queue, and the request for one slot fails too. *)
Example failed_call_loses_room :
  (prepare_free_slots grouping 1 true no_rec 0 [1] (pm_storage held_queued)).1 = Ok () ∧
  (prepare_free_slots grouping 1 true no_rec 0 [2] (pm_storage held_queued)).1 = Raise OutOfPagesError ∧
  let s' := (prepare_free_slots grouping 1 true no_rec 0 [2] (pm_storage held_queued)).2 in
  queued_ids (pm_storage held_queued) = [1; 2] ∧ queued_ids s' = [] ∧
  (prepare_free_slots grouping 1 true no_rec 0 [1] s').1 = Raise OutOfPagesError.
Proof. by vm_compute. Qed.

(** A page that has left the tree is moved and queued.  With the first
    page in host memory and the second in GPU memory, a request for two slots
    drops the first, and with it the blocks of both; the second is moved to
    host memory all the same and waits there for eviction, where no request
    can reuse it. *)
Example unlinked_page_is_moved :
  let '(r, s') := prepare_free_slots grouping 1 true no_rec 0 [2] (pm_storage one_evicted) in
  r = Ok () ∧ linked 2 (sm_tree (pm_storage one_evicted)) = true ∧
  sm_pages s' !! 1 = None ∧ po_level <$> sm_pages s' !! 2 = Some 1%nat ∧
  queued_ids s' = [2] ∧ linked 2 (sm_tree s') = false.
Proof. by vm_compute. Qed.

(** Of two pages that fall, one finds no room at the last level: it is dropped
    without a call of the drop recorder. *)
Lemma refused_drop_not_recorded :
  let '(r, s') := prepare_free_slots grouping 1 true (mkRecorders false true) 0 [2] (pm_storage both_free) in
  r = Ok () ∧ sm_pages s' !! 1 = None ∧ forallb (λ e, match e with drop_recorded _ _ => false | _ => true end) (sm_log s') = true.
Proof. by vm_compute. Qed.

(** ** Witnesses *)

Lemma calls_keep_invariant_witness : ok slots0 both_pages.
Proof.
  apply (calls_keep_invariant alloc_wf prio (controller_wf prio) grouping 1 2 true none start slots0 both_pages);
    [exact grouping_ok|lia|exact start_ok|].
  eapply rtc_l; [exact step_new_slots|]. eapply rtc_l; [exact step_page1|]. apply rtc_once. exact step_page2.
Defined.

Lemma storage_init_ok_witness : ok none start.
Proof.
  exact (proj2 (proj2 (storage_init_ok (λ _, true) prio (mkBlockStore chain ∅) grouping 1 [[2]; [1]] (pm_storage start)
    ltac:(by repeat constructor) eq_refl))).
Defined.

Lemma locked_page_pinned_witness :
  let t' := do_storage (prepare_free_slots grouping 1 true no_rec 0 [1]) both_locked in
  ∃ o', sm_pages (pm_storage t') !! 1 = Some o' ∧ place grouping o' = Some (0%nat, 0%nat, 0).
Proof.
  intros t'. apply (locked_page_pinned alloc_wf prio (controller_wf prio) grouping 1 2 true slots0 both_locked slots0 t' 1
      (mkPageObj (mkSlot (Some 0) None) 0 0 35 LOCKED true));
    [exact grouping_ok|lia|exact both_locked_ok| |vm_compute; reflexivity|reflexivity|].
  - exact (call_prepare_free_slots prio grouping 1 2 true slots0 both_locked no_rec 0 [1] _ _ ltac:(lia) eq_refl
      ltac:(by repeat constructor) (surjective_pairing _)).
  - intros k Hk. vm_compute in Hk. injection Hk as <-. cbn. lia.
Defined.

Lemma release_holder_spec_witness :
  (∃ t', release_holder grouping false 1 both_held = (Ok (), t') ∧ queued (pm_storage t') 1) ∧
  ∃ o t', release_holder grouping false 3 uncommitted_held = (Ok (), t') ∧ sm_pages (pm_storage t') !! 3 = None ∧
    slot_returned grouping o (pm_storage uncommitted_held) (pm_storage t').
Proof.
  split.
  - destruct (release_holder_spec alloc_wf prio (controller_wf prio) grouping 1 2 slots0 1 (mkRefs 1 0) both_held both_held_ok
      ltac:(vm_compute; reflexivity) ltac:(cbn; lia)) as (o & t' & Hrun & Ho & _ & H & _).
    exists t'. split; [exact Hrun|]. vm_compute in Ho. injection Ho as <-. exact (proj2 H).
  - destruct (release_holder_spec alloc_wf prio (controller_wf prio) grouping 1 2 slots1 3 (mkRefs 1 0) uncommitted_held uncommitted_held_ok
      ltac:(vm_compute; reflexivity) ltac:(cbn; lia)) as (o & t' & Hrun & Ho & _ & H & _).
    exists o, t'. split; [exact Hrun|]. vm_compute in Ho. injection Ho as <-. split; apply H.
Defined.

Lemma batched_lock_to_gpu_spec_witness :
  ∃ t', batched_lock_to_gpu grouping 1 true no_rec [1; 2] one_evicted = (Ok (), t') ∧
    batch_locked alloc_wf prio (controller_wf prio) grouping 1 2 slots0 [1; 2] one_evicted t'.
Proof.
  pose proof (batched_lock_to_gpu_spec alloc_wf prio (controller_wf prio) grouping 1 2 true slots0 no_rec [1; 2] one_evicted
    (pi_ok _ _ _ _ _ _ _ _ one_evicted_ok) ltac:(lia) ltac:(by eapply bool_decide_unpack)) as H.
  assert (Hr : (batched_lock_to_gpu grouping 1 true no_rec [1; 2] one_evicted).1 = Ok ()) by (vm_compute; reflexivity).
  exists (batched_lock_to_gpu grouping 1 true no_rec [1; 2] one_evicted).2. split; [by apply run_eq|].
  rewrite (run_eq _ _ _ Hr) in H. apply H.
  intros id Hid. apply elem_of_cons in Hid as [->|Hid]; [|apply list_elem_of_singleton in Hid as ->]; eexists; vm_compute; reflexivity.
Defined.

Lemma one_evicted_prefetchable : prefetchable grouping 0 (prefetch_items 0 [[[2]; [1]]]) (pm_storage one_evicted).
Proof.
  split; [by eapply bool_decide_unpack|]. intros g lvl id Hin. repeat (apply elem_of_cons in Hin as [[= -> -> ->]|Hin]); [| |by apply elem_of_nil in Hin].
  all: split; [lia|]; eexists; split; [vm_compute; reflexivity|by vm_compute].
Qed.

Lemma prefetch_spec_witness :
  ∃ s', prefetch grouping 1 true 0 [[[2]; [1]]] (pm_storage one_evicted) = (Ok (), s') ∧
    prefetched alloc_wf prio (controller_wf prio) grouping 1 2 slots0 0 [2; 1] (pm_storage one_evicted) s'.
Proof.
  pose proof (prefetch_spec alloc_wf prio (controller_wf prio) grouping 1 2 true slots0 0 [[[2]; [1]]] (pm_storage one_evicted)
    (proj1 (pi_ok _ _ _ _ _ _ _ _ one_evicted_ok)) ltac:(lia) ltac:(by repeat constructor) one_evicted_prefetchable) as H.
  assert (Hr : (prefetch grouping 1 true 0 [[[2]; [1]]] (pm_storage one_evicted)).1 = Ok ()) by (vm_compute; reflexivity).
  exists (prefetch grouping 1 true 0 [[[2]; [1]]] (pm_storage one_evicted)).2. split; [by apply run_eq|].
  rewrite (run_eq _ _ _ Hr) in H. exact H.
Defined.

Lemma prepare_free_slots_safe_witness :
  ∃ s', prepare_free_slots grouping 1 true no_rec 0 [1] (pm_storage both_free) = (Ok (), s') ∧
    evolves grouping (queued_set (pm_storage both_free)) slots0 (pm_storage both_free) s'.
Proof.
  assert (Hr : (prepare_free_slots grouping 1 true no_rec 0 [1] (pm_storage both_free)).1 = Ok ()) by (vm_compute; reflexivity).
  exists (prepare_free_slots grouping 1 true no_rec 0 [1] (pm_storage both_free)).2. split; [by apply run_eq|].
  exact (proj2 (prepare_free_slots_safe alloc_wf prio (controller_wf prio) grouping 1 2 true slots0 no_rec 0 [1] _ _ _
    (proj1 (pi_ok _ _ _ _ _ _ _ _ both_free_ok)) ltac:(lia) eq_refl ltac:(by repeat constructor) (run_eq _ _ _ Hr))).
Defined.

Lemma both_free_room : can_make_room grouping 1 2 0 [1] (pm_storage both_free).
Proof.
  split.
  - intros [|g] n Hn; [|done]. injection Hn as <-. vm_compute. discriminate.
  - intros _ [|g] Hg; [|lia]. vm_compute. discriminate.
Qed.

Lemma prepare_free_slots_succeeds_witness :
  ∃ s', prepare_free_slots grouping 1 true no_rec 0 [1] (pm_storage both_free) = (Ok (), s') ∧ 1 ≤ free_at s' 0 0.
Proof.
  destruct (prepare_free_slots_succeeds alloc_wf prio (controller_wf prio) grouping 1 2 true slots0 no_rec 0 [1] (pm_storage both_free)
    (proj1 (pi_ok _ _ _ _ _ _ _ _ both_free_ok)) ltac:(lia) eq_refl ltac:(by repeat constructor) ltac:(intros a b -> ->; done) both_free_room)
    as (s' & Hrun & Hfree & _).
  exists s'. split; [exact Hrun|]. exact (Hfree 0%nat 1 eq_refl).
Defined.

Lemma prepare_free_slots_fails_witness :
  ∃ s', prepare_free_slots grouping 1 true no_rec 0 [2] (pm_storage held_queued) = (Raise OutOfPagesError, s') ∧
    sm_mem s' = sm_mem (pm_storage held_queued).
Proof.
  exists (prepare_free_slots grouping 1 true no_rec 0 [2] (pm_storage held_queued)).2.
  assert (Hr : (prepare_free_slots grouping 1 true no_rec 0 [2] (pm_storage held_queued)).1 = Raise OutOfPagesError) by (vm_compute; reflexivity).
  assert (Hrun : prepare_free_slots grouping 1 true no_rec 0 [2] (pm_storage held_queued) =
    (Raise OutOfPagesError, (prepare_free_slots grouping 1 true no_rec 0 [2] (pm_storage held_queued)).2))
    by (rewrite <- Hr; apply surjective_pairing).
  split; [exact Hrun|].
  exact (proj1 (proj2 (prepare_free_slots_fails alloc_wf prio (controller_wf prio) grouping 1 2 true slots0 no_rec 0 [2] _ _ _
    (proj1 (pi_ok _ _ _ _ _ _ _ _ held_queued_ok)) ltac:(lia) eq_refl ltac:(by repeat constructor) Hrun))).
Defined.

Lemma new_slots_spec_witness :
  ∃ ids, slots_given alloc_wf prio (controller_wf prio) grouping 1 2 none 0 [2]
    [[mkSlot (Some 0) None; mkSlot (Some 1) None]] (pm_storage start) (pm_storage with_slots) ids.
Proof.
  pose proof (new_slots_spec alloc_wf prio (controller_wf prio) grouping 1 2 true none no_rec 0 [2] (pm_storage start)
    (proj1 (pi_ok _ _ _ _ _ _ _ _ start_ok)) ltac:(lia) grouping_ok eq_refl ltac:(by repeat constructor)) as H.
  assert (Hr : (new_slots grouping 1 true no_rec 0 [2] (pm_storage start)).1 = Ok [[mkSlot (Some 0) None; mkSlot (Some 1) None]])
    by (vm_compute; reflexivity).
  rewrite (run_eq _ _ _ Hr) in H. exact H.
Defined.

Lemma new_slots_negative_witness :
  new_slots grouping 1 true no_rec 0 [-1] (pm_storage start) = (Raise LogicError, pm_storage start).
Proof.
  exact (new_slots_negative grouping 1 true no_rec 0 [-1] 0 (-1) (pm_storage start) grouping_ok eq_refl ltac:(cbn; lia) ltac:(lia)
    ltac:(by repeat constructor)).
Defined.

Lemma force_evict_spec_witness :
  ∃ s', force_evict grouping 1 true false 0 [1] (pm_storage both_free) = (Ok (), s') ∧
    forced_out alloc_wf prio (controller_wf prio) grouping 1 2 slots0 0 [1] (pm_storage both_free) s'.
Proof.
  pose proof (force_evict_spec alloc_wf prio (controller_wf prio) grouping 1 2 true slots0 false 0 [1] (pm_storage both_free)
    (proj1 (pi_ok _ _ _ _ _ _ _ _ both_free_ok)) ltac:(lia) eq_refl) as H.
  assert (Hr : (force_evict grouping 1 true false 0 [1] (pm_storage both_free)).1 = Ok ()) by (vm_compute; reflexivity).
  exists (force_evict grouping 1 true false 0 [1] (pm_storage both_free)).2. split; [by apply run_eq|].
  rewrite (run_eq _ _ _ Hr) in H. exact H.
Defined.
